(* ===== verification/_CoqProject ===== *)
-Q . S2P
Prelude.v
Values.v
Numeric.v
HmmRecursion.v
HmmDerivative.v
HmmSecondDerivative.v
Felsenstein.v
DataFlow.v
Evaluation.v
Invalidation.v
Expression.v
Denotation.v
Incremental.v
Construction.v
TreeCompute.v
HmmLikelihood.v
Allocation.v
HmmCompute.v
HmmDerivativeCompute.v
HmmSecondDerivativeCompute.v
HmmGraph.v
Typing.v
Session.v
HmmUpdate.v
TreeLikelihood.v
TreeValue.v
TreeUpdate.v
GY94.v
SubstitutionProcess.v
