(* ===== verification/Prelude.v ===== *)
(** * Verification of the bpp-phyl likelihood dataflow core

    A shallow embedding of the C++ sources of bpp-phyl that build likelihood
    computations as dataflow graphs, with the theorems that make their
    construction correct.

    ** The program

    A computation is a graph of nodes.  A node has a class, a vector of
    dependencies (references to other nodes), a value and a validity flag.
    Nodes are made by the static [create] of their class: it checks the
    dependencies (none null, their number, their types), constructs the
    object, and hands it to the [Context], which returns an equal node it
    already holds or keeps the new one (structural sharing).  Evaluation is
    on demand: [getTargetValue] computes the invalid dependencies first.
    The sources under [src/] are
    - [HmmLikelihoodComputation.h]: five node classes for the forward and
      backward likelihoods of a hidden Markov model and their derivatives;
    - [HomogeneousLikelihoodExample.h]: the recursive builder of the graph
      of the likelihood of a tree;
    - [GY94.cpp], [GY94.h]: a codon model that wraps a word model;
    - [AbstractWordReversibleSubstitutionModel.h],
      [AbstractSubstitutionProcess.h]: class declarations.
    The node base classes, the [Context], the classes of the tree
    likelihood, the tree, the sites and the parameter lists are not among
    the sources; they are modelled from the specification, as far as the
    sources call them.

    ** The files

    - [Prelude] (this file): results, the monad [Exc S E A := S -> result E
      A * S] in which the state survives an exception (a C++ [throw] does
      not undo what was written through a reference), its laws, the
      predicates [hoare], [preserves], [always], [readonly], [safe] with
      their rules, [mapM], the hint databases and the tactics
      [solve_readonly], [solve_preserves], [solve_always], [solve_safe],
      [exc_inv], and facts on lists.
    - [Values]: shapes ([MatrixDimension]), matrices as lists of columns
      over an abstract scalar type [R], vectors as matrices of one column
      or one row, the values of nodes.
    - [Numeric]: the scalars as a commutative ring or a field (classes
      [Arith], [RingLaws] and [FieldLaws], the predicate [invertible],
      notations in [field_scope], the rationals [Qc] as instance), sums
      and products, the operations on vectors and matrices the
      recursions are made of, the product of matrices ([mmul]), the
      distribution of a product of sums over the lists of choices
      ([cartesian], [product_sum_cartesian]), and the maps between
      scalars that commute with the operations (class [ScalarHom],
      [map_matrix]).
    - [HmmRecursion]: the forward recursion with its normalisation
      ([forward_sites], [forward]), the backward recursion
      ([backward_sites], [backward]), the reference both are proved
      against: the likelihood of the observations by enumeration of the
      paths of hidden states ([likelihood]); the arrays of a node read
      back site by site ([read_arrays]), and the recursion under a change
      of scalars ([map_site], [hom_forward_sites]).
    - [HmmDerivative]: the dual numbers [Dual R] (a value and a first
      derivative) as scalars, the recursion of the first derivatives
      along the sites of the forward recursion ([DSite],
      [forwardD_sites], [forwardD]), and inputs paired with their
      derivatives ([duals], [dual_matrix]).
    - [HmmSecondDerivative]: the jets of order two [Jet R] (a value, a
      first and a second derivative) as scalars, the recursion of the
      second derivatives along the sites of the two other recursions
      ([D2Site], [forwardD2_sites], [forwardD2]), and inputs joined with
      their two derivatives ([jets], [jet_matrix]).
    - [Felsenstein]: the likelihood of a tree at one site, by the
      recursion of the graph ([conditional], [site_likelihood]) and by
      enumeration of the states of all the nodes ([Labelling], [weight],
      [tree_likelihood]), and the proof that they agree.
    - [DataFlow]: the heap of node objects ([Store]: a list of [Node], the
      index is the identity of the object, [None] is the null pointer) and
      the cache (a list of references, searched with [sameNode]); the
      dependency checks, each as in the sources and together as the
      decision function [signature_error]; evaluation with the virtual
      [compute] as the type class [Compute] and its contract [ComputeLaws];
      the invariant [wf_store] and the relations [extends], [frame] and
      [quiet].
    - [Evaluation]: the order of evaluation as a big-step relation
      ([evaluates]) and the proof that [computeRecursively] follows it;
      [acyclic], the part of [wf_store] evaluation needs.
    - [Invalidation]: the mutable leaves (Module [NumericMutable] with
      [construct], [create], [setValue]), [dependentNodes],
      [invalidateRecursively], the nodes [downstream] of a node, and the
      invariant [consistent]: a valid node has valid dependencies.
    - [Expression]: the expression a node stands for, by unfolding it along
      its dependencies ([Term], [expression]).
    - [Denotation]: the value of an expression ([term_value], over what
      each class computes, [ClassValue]), the value a node stands for
      ([value_of]), the invariant [coherent] (a valid node holds the value
      of its expression), the law [ComputePure] of a [compute] that writes
      the value of its class and nothing else, and the relation [grows]
      between the stores before and after a construction.  An input that
      is not valid has no value; environments that agree give an
      expression the same value ([term_value_proper]).
    - [Incremental]: what [setValue] does to the values of the
      expressions ([value_of_outside], [coherent_setValue]), the relation
      [continues] between a store and what construction and evaluation
      make of it, and [setValue] followed by [getTargetValue].
    - [Construction]: the logic [builds ok P m Q] of graph construction
      (from a well-formed store that satisfies [P], [m] ends in a
      well-formed store that extends it, with a result that satisfies [Q]
      or an exception that [ok] admits), and the classes of the tree
      likelihood as instances of one [create_node].
    - [TreeCompute]: what the classes of the tree likelihood compute
      ([tree_value]), what the models and the frequency sets answer
      ([Collaborators]), and the dispatch of [compute] over these classes
      ([tree_compute]).
    - [HmmLikelihood]: one Module per class of
      [HmmLikelihoodComputation.h] ([CondLikelihood],
      [ForwardHmmLikelihood_DF], [ForwardHmmDLikelihood_DF],
      [ForwardHmmD2Likelihood_DF], [BackwardHmmLikelihood_DF]), each with
      [construct], [create], [build], [recreate], [derive],
      [compareAdditionalArguments], [debugInfo] and the accessors the
      class has, and [compute]; [dependencyArrays] is how the [compute] of
      a derivative class reads the arrays of the forward node, or of the
      node of the first derivatives, among its dependencies.
    - [Allocation]: the bound [allocates h c m] on what a construction adds
      to the heap and to the cache, additive along [bind].
    - [HmmCompute]: the virtual dispatch of [compute] over the HMM classes
      ([hmm_compute]), its contract, the store after a node has been
      built and evaluated ([arrays_written], [evaluated]), and
      construction, evaluation and arithmetic composed for the forward and
      the backward class.
    - [HmmDerivativeCompute]: what an evaluated node of a forward class
      holds ([arrays_hold]), and the forward node and the node of the
      first derivatives built, evaluated and composed with the arithmetic
      of [HmmDerivative].
    - [HmmSecondDerivativeCompute]: the same for the node of the second
      derivatives, built over the two other nodes ([second_holds]).
    - [HmmGraph]: the three nodes of the second derivative as one graph:
      which node is which ([Wiring], [wired]), what the inputs hold
      ([Inputs], [inputs_hold]), the invariant that a node that is valid
      holds the arrays of the recursion on these inputs
      ([coherent_cone]), and the client that creates the three nodes and
      evaluates the last one only ([lazy_second]).
    - [Typing]: the invariant [well_typed] (the value of a node has the
      type its class derives from, a leaf has no dependencies) and its
      preservation.
    - [Session]: what a client does, one operation after another
      ([Operation], [perform], [permitted]), as a step relation ([step],
      [reachable]) and as a function on lists of operations ([session]).
    - [HmmUpdate]: sessions on the graph of [HmmGraph]: [setValue] on an
      input that no other input depends on ([mutable_leaf],
      [independent]), rounds of [setValue] followed by evaluation
      ([round], [inputs_after]), and the client that creates the graph,
      evaluates it and runs the rounds ([second_session]).
    - [TreeLikelihood]: [HomogeneousLikelihoodNodesHelper] with
      [makeInitialConditionalLikelihood], [makeForwardLikelihoodNode],
      [makeConditionalLikelihoodNode], and
      [makeHomogeneousLikelihoodNodes].
    - [TreeValue]: the builder, evaluation and the arithmetic composed:
      the value of the expression the builder returns ([conditional_at],
      [site_likelihoods], [minus_log_likelihood]) and the run of the
      builder followed by [getTargetValue] ([likelihood_value]).
    - [TreeUpdate]: a session on the graph of the tree: the builder,
      evaluation, and rounds of a new length for a branch followed by
      evaluation ([likelihood_session]), with its invariant [evaluated].
    - [GY94]: parameters, the type class [WordModel] of the declared word
      model, and Module [GY94] with the constructors, [clone], [assign]
      ([operator=]), [updateMatrices], [setFreq_] and the accessors.
    - [SubstitutionProcess]: the members of
      [AbstractSubstitutionProcess] and its inline accessors.

    ** The theorems

    - Dependency checks ([HmmLikelihood.hmm_create_rejects]): a [create]
      whose dependencies do not fit throws the exception
      [signature_error] computes and leaves the store untouched.
    - Invariants ([hmm_create_wf], [Typing.hmm_create_well_typed],
      [Allocation.hmm_create_allocates]): every [create] of the five
      classes, on every branch, keeps [wf_store] and [well_typed], and
      adds at most three objects and three cache entries to the store.
    - Dimension contracts ([forward_create_checks_extents],
      [forward_create_bad_size], [backward_create_checks_extents],
      [backward_create_reports_rows]): when [create] succeeds, and which
      exception it throws with which numbers when it does not.
    - Structural sharing ([forward_create_shares],
      [forward_recreate_returns_node]) and what
      the order of [build] and [cachedAs] costs
      ([forward_create_again_grows_cache],
      [forward_create_failure_leaves_nodes],
      [forwardD_create_ignores_dimension]), and that creation evaluates
      ([forward_create_evaluates]).
    - Evaluation ([HmmCompute.hmm_evaluation_completes],
      [Typing.hmm_evaluation_well_typed]): [getTargetValue] returns,
      computes each node after its dependencies as [evaluates] prescribes,
      and returns a value of the type of the class.
    - The recursions ([HmmCompute.forward_value_is_likelihood],
      [backward_value_is_likelihood], [forward_condLik_is_posterior],
      [forward_backward_posterior_nodes]): a forward node made by [create]
      and evaluated holds the normalisation constants, whose product is
      the likelihood by enumeration; its conditional likelihoods are
      distributions; a backward node holds the likelihoods of the later
      observations, rescaled; forward and backward columns of a site
      multiply to a distribution.  These rest on the lemmas of
      [HmmRecursion] ([forward_scales], [backward_suffix],
      [forward_backward_posterior]), proved for any field.
    - The derivatives ([HmmDerivative.forwardD_tangent],
      [forwardD_log_likelihood], [HmmSecondDerivative.forwardD2_second],
      [HmmDerivativeCompute.forwardD_value_is_derivative],
      [HmmSecondDerivativeCompute.forwardD2_value_is_second_derivative]).
      The reference is the forward recursion itself, run over other
      scalars: over the dual numbers its second coefficients are the
      derivatives, over the jets of order two its third coefficients are
      the second derivatives, because the operations of these scalars are
      the rules of the sum, the product and the quotient.  The recursions
      of the derivatives, which work on the scalars of the inputs and
      read the arrays of the nodes before them, are proved to compute
      these coefficients, site by site, over any commutative ring with
      an operation of inverse, without any condition on the inputs.  The
      projections to the value are
      [ScalarHom]s, so the recursion over the larger scalars projects to
      the recursion over the inputs ([hom_forward_sites]), and the
      likelihood by enumeration to the likelihood ([hom_likelihood]).
      Over a field and when no constant is zero, the sum over the sites
      of the derivative of the constant over the constant is the
      derivative of the logarithm of the likelihood, and the sum of the
      second derivatives over the constants less the sum of the squares
      of the first over the constants is its second derivative.  At the
      level of the nodes, the forward node, the node of the first
      derivatives over it and the node of the second derivatives over
      both are built by [create] and evaluated by [getTargetValue]; each
      stage is a lemma on any store in which the dependencies hold what
      the stage reads ([forward_evaluated_then],
      [derivative_value_then], [second_value_run]).
    - The graph of the second derivative ([HmmGraph.second_on_demand],
      [HmmGraph.forwardD2_lazy_value], [HmmUpdate.cone_setValue],
      [HmmUpdate.second_session_values]).  The theorems above evaluate
      each node as soon as it is built; a client need not.  On any
      store wired as the three nodes are ([wired], [apart]), whose
      inputs hold their values and are valid ([inputs_hold]) and in
      which every node of the three that is valid holds the arrays of
      the recursion on the inputs ([coherent_cone]),
      [getTargetValue] on the last node returns the
      second derivatives, evaluating exactly the nodes that are not
      valid, each before the node that reads it ([second_on_demand]).
      The store the three [create] leave is such a store, with no node
      valid ([forwardD2_lazy_value]).  [setValue] on an input keeps the
      invariant for the changed inputs: the nodes downstream of the leaf
      become invalid, the others keep arrays that do not depend on it
      ([cone_setValue]); by induction on the rounds every evaluation of a
      session returns the value over the inputs of the moment
      ([second_session_values]).
    - Invalidation ([Invalidation.setValue_scope]): [setValue] on a leaf
      makes invalid the nodes downstream of the leaf and no other, and
      changes nothing else.  The proof is by induction on the fuel, with
      the invariant [quasi V] ([consistent] but for the nodes of [V]) and
      the relation [touched s s' C] (only flags of nodes of [C] were
      cleared).
    - Sessions ([Session.reachable_invariant],
      [Session.forward_reevaluated]): [wf_store], [consistent] and
      [well_typed] hold of every store a client can reach, by induction on
      the steps; the five [create] keep each invariant by one proof
      ([HmmLikelihood.preserves_hmm_create], from what the primitives of
      construction do to the invariant).  A forward node evaluated, its
      emission leaf changed, and evaluated again returns the likelihood
      of the new observations.
    - The tree builder ([TreeLikelihood.unrooted_tree_rejected],
      [tree_build_safe], [tree_build_succeeds], [tree_build_denotes],
      [tree_build_shares], [tree_build_fuel_independent]): rejection of
      unrooted trees, safety and termination, success on inputs of the
      expected classes, the expression the node returned stands for
      whatever the cache shared, that a second build returns the same
      node.
    - The value of the tree ([TreeValue.tree_value_is_likelihood]): the
      builder followed by [getTargetValue] returns minus the sum, over the
      sites, of the logarithm of the likelihood of the tree, where the
      likelihood is the sum over all the ways of giving a state to every
      node.  The proof composes three results, each for any graph:
      evaluation returns the value of the expression of the node and
      keeps [coherent] ([Denotation.getTargetValue_value]); construction
      only adds invalid nodes and constants ([grows]), which keeps
      [coherent]; the recursion of the graph is the enumeration
      ([Felsenstein.pruning_is_likelihood]).  With
      [TreeLikelihood.tree_build_denotes], which gives the expression, the
      value does not depend on what the cache shared or on what was
      evaluated before.
    - Change and evaluation again ([Incremental.setValue_keeps_coherent],
      [TreeUpdate.tree_session_values]): [setValue] keeps [coherent],
      because the nodes whose expressions mention the leaf are the nodes
      downstream of it, which [invalidateRecursively] makes invalid, and
      the expression of any other node has the value it had.  So in a
      session of the builder, evaluation, and any number of rounds of
      [setValue] on the parameter of a branch followed by evaluation,
      every evaluation returns the likelihood of the tree with the
      lengths of the moment, by induction on the rounds with the
      invariant [evaluated]: nothing an earlier evaluation computed from
      a length that changed is served.
    - [GY94] ([construct_succeeds], [construct_owns],
      [copy_shares_distance]): what the constructor builds and which
      distance object the member model points to after construction and
      after copy.
    Each theorem with hypotheses has a witness over a concrete store
    ([Examples.hmm_store], [ChainExample.chain_store],
    [DerivativeChain.derivative_store], [SecondChain.second_store],
    [LazyChain.lazy_value], [UpdateExample.leaves_store],
    [InvalidationExample.graph], [IncrementalExample.coherent_graph],
    [SessionExample.operations],
    [TreeExamples.tree_store], [TreeValueExample.inputs_store],
    [TreeUpdateExample.changes],
    [GY94Examples.gy94]), evaluated by the kernel.

    ** Bounds and fuel

    - [computeRecursively] takes fuel; [getTargetValue] gives it the
      number of objects of the heap.  In a well-formed store a dependency
      is an older object, so a chain of dependencies is shorter than the
      heap: fuel above the index of the node is enough
      ([Evaluation.computeRecursively_evaluates]).
    - [invalidateRecursively] takes fuel; [invalidate] gives it the number
      of objects of the heap.  A dependent is a younger object, so fuel
      above the number of objects younger than the node is enough
      ([Invalidation.invalidateRecursively_spec]).
    - [makeConditionalLikelihoodNode] takes fuel and ends with [OutOfFuel]
      when it is exhausted; [OutOfFuel] is not an exception of the program.
      On a tree with a rank that decreases from each node to its sons,
      fuel above the rank of the root is enough ([tree_build_safe]) and
      more fuel changes nothing ([tree_build_fuel_independent]).
    - [Expression.expression] unfolds a node with fuel one above its
      index, which is enough in a well-formed store for the same reason.
    - [Felsenstein.conditional], [labellings_at] and [weight] follow the
      tree with fuel; without fuel the vector is empty and there is no
      labelling, so that [pruning_is_likelihood] holds for any fuel.  In
      [tree_value_is_likelihood] the fuel is the fuel of the builder,
      above the rank of the root, with which every leaf is reached.
    - Scalars are an abstract type [R] with decidable equality.  The
      theorems on construction use nothing else of it; their witnesses run
      over integers.  The theorems on the recursions assume the laws of a
      field and that no normalisation constant is zero; their witnesses
      run over the rationals [Qc] (a chain of two hidden states and three
      sites, differentiated with respect to the probability of leaving
      the first hidden state).  The dual numbers and the jets are
      commutative rings and not fields (a number without value has no
      inverse), which is why the product of the normalisation constants
      is proved to be the likelihood over [RingLaws] with [invertible]
      constants ([HmmRecursion.forward_scales_invertible]); over a field,
      a dual number or a jet is invertible when its value is not zero.
      The
      recursions have no fuel: they are structural on the list of the
      sites.  The values of the HMM classes are the normalisation
      constants themselves, not their logarithms.  The logarithm of the
      tree likelihood is an operation [ln] of which nothing is assumed
      (the witness runs with a stand-in).  Nothing is said of rounding.

    ** Not modelled

    The [derive] of the two first forward classes (declared, not defined
    in the sources; what a client builds by hand in its place, the nodes
    of the derivatives over the forward node, is modelled); the
    [derive] of the node classes of the tree likelihood, whose code is
    not in the sources and of which the specification gives the
    contract only, no rule from which a definition could be translated;
    derivatives of order above two, for which the sources have no class;
    floating-point arithmetic and the logarithm as a function; reference
    counting and the destruction of nodes (the heap only grows); the
    list of dependents a node keeps
    (the dependents are read off the dependency vectors, which agrees with
    the list as long as no node is destroyed); the simplifications the
    classes of the tree likelihood perform in [create] (their [compute]
    follows the specification of the builder); the transition
    probabilities and the frequencies of a model (operations of the class
    [Collaborators]); the numerics of the word model and the text that
    [numeric::debug] prints (both are operations of a type class); the
    constructors and the index functions of [AbstractSubstitutionProcess],
    which the header declares and no source defines.  The bodies of
    [compute] of the three forward classes and of the backward class are
    not in the sources either: they follow the specification and the
    comments of the header. *)

From stdpp Require Import base tactics option list strings.

(** ** Results and the exception-and-state monad

    The C++ sources signal every failure with [throw] and mutate the
    [Context] (and the nodes reachable from it) through references.  When an
    exception unwinds, what was already written stays written.  The monad
    below therefore returns the final state in both outcomes. *)

Declare Scope exc_scope.
Delimit Scope exc_scope with exc.

Inductive result (E A : Type) : Type :=
| Ok (a : A)
| Err (e : E).
Arguments Ok {E A} a.
Arguments Err {E A} e.

#[export] Instance result_eq_dec {E A} `{EqDecision E, EqDecision A} :
  EqDecision (result E A).
Proof. solve_decision. Defined.

Definition is_ok {E A} (r : result E A) : bool :=
  match r with Ok _ => true | Err _ => false end.

Definition Exc (S E A : Type) : Type := S -> result E A * S.

Section ExcOps.
Context {S E : Type}.

Definition ret {A} (a : A) : Exc S E A := fun s => (Ok a, s).

Definition throw {A} (e : E) : Exc S E A := fun s => (Err e, s).

Definition bind {A B} (m : Exc S E A) (k : A -> Exc S E B) : Exc S E B :=
  fun s =>
    match m s with
    | (Ok a, s') => k a s'
    | (Err e, s') => (Err e, s')
    end.

Definition get : Exc S E S := fun s => (Ok s, s).

Definition gets {A} (f : S -> A) : Exc S E A := fun s => (Ok (f s), s).

Definition put (s' : S) : Exc S E unit := fun _ => (Ok tt, s').

Definition modify (f : S -> S) : Exc S E unit := fun s => (Ok tt, f s).

(** [throw_unless b e] is the guard [if (!b) throw e;]. *)
Definition throw_unless (b : bool) (e : E) : Exc S E unit :=
  if b then ret tt else throw e.

(** [from_option o e] dereferences a possibly absent value. *)
Definition from_option_exc {A} (o : option A) (e : E) : Exc S E A :=
  match o with Some a => ret a | None => throw e end.

End ExcOps.

Notation "x <- c1 ;; c2" := (bind c1 (fun x => c2))
  (at level 100, c1 at next level, c2 at level 200, right associativity)
  : exc_scope.
Notation "c1 ;; c2" := (bind c1 (fun _ => c2))
  (at level 100, c2 at level 200, right associativity) : exc_scope.

#[global] Open Scope exc_scope.

(** The two projections of a run. *)
Definition outcome {S E A} (m : Exc S E A) (s : S) : result E A := (m s).1.
Definition final {S E A} (m : Exc S E A) (s : S) : S := (m s).2.

(** ** Monad laws (pointwise, so that no extensionality axiom is needed) *)

Section ExcLaws.
Context {S E : Type}.
Implicit Types s : S.

Lemma bind_ret_l {A B} (a : A) (k : A -> Exc S E B) s :
  (x <- ret a ;; k x) s = k a s.
Proof. reflexivity. Qed.

Lemma bind_ret_r {A} (m : Exc S E A) s : (x <- m ;; ret x) s = m s.
Proof. unfold bind, ret. by destruct (m s) as [[a|e] s']. Qed.

Lemma bind_assoc {A B C} (m : Exc S E A) (k : A -> Exc S E B)
    (h : B -> Exc S E C) s :
  (y <- (x <- m ;; k x) ;; h y) s = (x <- m ;; y <- k x ;; h y) s.
Proof. unfold bind. by destruct (m s) as [[a|e] s']. Qed.

Lemma bind_throw {A B} (e : E) (k : A -> Exc S E B) s :
  (x <- throw e ;; k x) s = (Err e, s).
Proof. reflexivity. Qed.

(** Inversion of a run of [bind]: either the first part failed, and its
    error and state are the whole run's, or it returned and the continuation
    ran from its final state. *)
Lemma bind_inv {A B} (m : Exc S E A) (k : A -> Exc S E B) s r s' :
  (x <- m ;; k x) s = (r, s') ->
  (exists e, m s = (Err e, s') /\ r = Err e) \/
  (exists a s1, m s = (Ok a, s1) /\ k a s1 = (r, s')).
Proof.
  unfold bind. destruct (m s) as [[a|e] s1]; intros H.
  - right. eauto.
  - left. exists e. by simplify_eq.
Qed.

Lemma bind_ok {A B} (m : Exc S E A) (k : A -> Exc S E B) s a s1 :
  m s = (Ok a, s1) -> (x <- m ;; k x) s = k a s1.
Proof. unfold bind. by intros ->. Qed.

Lemma bind_err {A B} (m : Exc S E A) (k : A -> Exc S E B) s e s1 :
  m s = (Err e, s1) -> (x <- m ;; k x) s = (Err e, s1).
Proof. unfold bind. by intros ->. Qed.

Lemma throw_unless_true (e : E) s : throw_unless true e s = (Ok tt, s).
Proof. reflexivity. Qed.

Lemma throw_unless_false (e : E) s : throw_unless false e s = (Err e, s).
Proof. reflexivity. Qed.

Lemma throw_unless_inv (b : bool) (e : E) s r s' :
  throw_unless b e s = (r, s') ->
  s' = s /\ (b = true /\ r = Ok tt \/ b = false /\ r = Err e).
Proof. destruct b; intros [= <- <-]; auto. Qed.

End ExcLaws.

(** ** Hoare triples for the monad

    [hoare P m Q] is total: [m] is a function, so it always finishes, and
    the postcondition speaks about the error outcome as well as about the
    returned value. *)

Section Hoare.
Context {S E : Type}.

Definition hoare {A} (P : S -> Prop) (m : Exc S E A)
    (Q : result E A -> S -> Prop) : Prop :=
  forall s, P s -> Q (outcome m s) (final m s).

(** [preserves I m]: the state predicate [I] survives [m], whether [m]
    returns or throws. *)
Definition preserves {A} (I : S -> Prop) (m : Exc S E A) : Prop :=
  forall s, I s -> I (final m s).

(** [always T m]: the initial and the final state of every run of [m] are
    related by [T]. *)
Definition always {A} (T : S -> S -> Prop) (m : Exc S E A) : Prop :=
  forall s, T s (final m s).

Lemma hoare_ret {A} (P : S -> Prop) (a : A) : hoare P (ret a) (fun r s => r = Ok a /\ P s).
Proof. by intros s HP. Qed.

Lemma hoare_throw {A} (P : S -> Prop) (e : E) :
  hoare P (throw (A:=A) e) (fun r s => r = Err e /\ P s).
Proof. by intros s HP. Qed.

Lemma hoare_conseq {A} (P P' : S -> Prop) (Q Q' : result E A -> S -> Prop) m :
  hoare P m Q -> (forall s, P' s -> P s) -> (forall r s, Q r s -> Q' r s) ->
  hoare P' m Q'.
Proof. unfold hoare. eauto. Qed.

Lemma hoare_bind {A B} (P : S -> Prop) (Q1 : result E A -> S -> Prop)
    (Q : result E B -> S -> Prop) (m : Exc S E A) (k : A -> Exc S E B) :
  hoare P m Q1 ->
  (forall a, hoare (Q1 (Ok a)) (k a) Q) ->
  (forall e s, Q1 (Err e) s -> Q (Err e) s) ->
  hoare P (x <- m ;; k x) Q.
Proof.
  intros Hm Hk He s HP. specialize (Hm s HP).
  unfold outcome, final, bind in *.
  destruct (m s) as [[a|e] s1]; simpl in *.
  - by apply Hk.
  - by apply He.
Qed.

Lemma hoare_conj {A} (P : S -> Prop) (Q1 Q2 : result E A -> S -> Prop) m :
  hoare P m Q1 -> hoare P m Q2 -> hoare P m (fun r s => Q1 r s /\ Q2 r s).
Proof. unfold hoare. eauto. Qed.

Lemma preserves_hoare {A} (I : S -> Prop) (m : Exc S E A) :
  preserves I m <-> hoare I m (fun _ s => I s).
Proof. reflexivity. Qed.

Lemma preserves_ret {A} (I : S -> Prop) (a : A) : preserves I (ret a).
Proof. by intros s. Qed.

Lemma preserves_throw {A} (I : S -> Prop) (e : E) : preserves I (throw (A:=A) e).
Proof. by intros s. Qed.

Lemma preserves_gets {A} (I : S -> Prop) (f : S -> A) : preserves I (gets f).
Proof. by intros s. Qed.

Lemma preserves_throw_unless (I : S -> Prop) b (e : E) :
  preserves I (throw_unless b e).
Proof. by destruct b; intros s. Qed.

Lemma preserves_from_option {A} (I : S -> Prop) (o : option A) (e : E) :
  preserves I (from_option_exc o e).
Proof. by destruct o; intros s. Qed.

Lemma preserves_modify (I : S -> Prop) (f : S -> S) :
  (forall s, I s -> I (f s)) -> preserves I (modify (E:=E) f).
Proof. intros Hf s. apply Hf. Qed.

Lemma preserves_bind {A B} (I : S -> Prop) (m : Exc S E A) (k : A -> Exc S E B) :
  preserves I m -> (forall a, preserves I (k a)) -> preserves I (x <- m ;; k x).
Proof.
  intros Hm Hk s HI. specialize (Hm s HI). unfold final, bind in *.
  destruct (m s) as [[a|e] s1]; simpl in *; [by apply Hk | done].
Qed.

Lemma always_ret {A} (T : S -> S -> Prop) `{!Reflexive T} (a : A) :
  always T (ret a).
Proof. intros s. reflexivity. Qed.

Lemma always_throw {A} (T : S -> S -> Prop) `{!Reflexive T} (e : E) :
  always T (throw (A:=A) e).
Proof. intros s. reflexivity. Qed.

Lemma always_gets {A} (T : S -> S -> Prop) `{!Reflexive T} (f : S -> A) :
  always T (gets f).
Proof. intros s. reflexivity. Qed.

Lemma always_throw_unless (T : S -> S -> Prop) `{!Reflexive T} b (e : E) :
  always T (throw_unless b e).
Proof. destruct b; intros s; reflexivity. Qed.

Lemma always_from_option {A} (T : S -> S -> Prop) `{!Reflexive T}
    (o : option A) (e : E) :
  always T (from_option_exc o e).
Proof. destruct o; intros s; reflexivity. Qed.

Lemma always_modify (T : S -> S -> Prop) (f : S -> S) :
  (forall s, T s (f s)) -> always T (modify (E:=E) f).
Proof. intros Hf s. apply Hf. Qed.

Lemma always_bind {A B} (T : S -> S -> Prop) `{!Transitive T}
    (m : Exc S E A) (k : A -> Exc S E B) :
  always T m -> (forall a, always T (k a)) -> always T (x <- m ;; k x).
Proof.
  intros Hm Hk s. specialize (Hm s). unfold final, bind in *.
  destruct (m s) as [[a|e] s1]; simpl in *; [|done].
  etrans; [done|]. apply Hk.
Qed.

(** [on_ok Q]: the postcondition that asks [Q] of the final state of the
    runs that return, and nothing of those that throw. *)
Definition on_ok {A} (Q : S -> Prop) : result E A -> S -> Prop :=
  fun r s => match r with Ok _ => Q s | Err _ => True end.

Lemma hoare_on_ok_bind {A B} (P Q1 Q : S -> Prop) (m : Exc S E A) (k : A -> Exc S E B) :
  hoare P m (on_ok Q1) -> (forall a, hoare Q1 (k a) (on_ok Q)) ->
  hoare P (x <- m ;; k x) (on_ok Q).
Proof. intros Hm Hk. by eapply hoare_bind; [apply Hm|apply Hk|]. Qed.

Lemma hoare_on_ok_throw_unless (P : S -> Prop) b e :
  hoare P (throw_unless b e) (on_ok P).
Proof. intros s HP. by destruct b. Qed.

(** [safe ok I m]: [m] keeps [I], and an exception it throws is one of
    those [ok] admits. *)
Definition safe {A} (ok : E -> Prop) (I : S -> Prop) (m : Exc S E A) : Prop :=
  hoare I m (fun r s => I s /\ match r with Err e => ok e | Ok _ => True end).

Lemma safe_ret {A} ok (I : S -> Prop) (a : A) : safe ok I (ret a).
Proof. by intros s HI. Qed.

Lemma safe_throw {A} (ok : E -> Prop) (I : S -> Prop) e :
  ok e -> safe ok I (throw (A:=A) e).
Proof. by intros He s HI. Qed.

Lemma safe_throw_unless (ok : E -> Prop) (I : S -> Prop) b e :
  ok e -> safe ok I (throw_unless b e).
Proof. intros He s HI. by destruct b. Qed.

Lemma safe_bind {A B} ok (I : S -> Prop) (m : Exc S E A) (k : A -> Exc S E B) :
  safe ok I m -> (forall a, safe ok I (k a)) -> safe ok I (x <- m ;; k x).
Proof.
  intros Hm Hk. eapply hoare_bind; [apply Hm| |done].
  intros a s [HI _]. by apply Hk.
Qed.

Lemma safe_run {A} ok (I : S -> Prop) (m : Exc S E A) s :
  safe ok I m -> I s ->
  I (m s).2 /\ match (m s).1 with Err e => ok e | Ok _ => True end.
Proof. intros Hm HI. exact (Hm s HI). Qed.

End Hoare.

(** ** Read-only computations

    [readonly m]: no run of [m] changes the state.  The construction-time
    checks of the sources are of this kind. *)

Section ReadOnly.
Context {S E : Type}.

Definition readonly {A} (m : Exc S E A) : Prop := forall s, final m s = s.

Lemma readonly_ret {A} (a : A) : readonly (ret (S:=S) (E:=E) a).
Proof. by intros s. Qed.

Lemma readonly_throw {A} (e : E) : readonly (throw (S:=S) (A:=A) e).
Proof. by intros s. Qed.

Lemma readonly_get : readonly (get (S:=S) (E:=E)).
Proof. by intros s. Qed.

Lemma readonly_gets {A} (f : S -> A) : readonly (gets (E:=E) f).
Proof. by intros s. Qed.

Lemma readonly_throw_unless b (e : E) : readonly (throw_unless (S:=S) b e).
Proof. by destruct b; intros s. Qed.

Lemma readonly_from_option {A} (o : option A) (e : E) :
  readonly (from_option_exc (S:=S) o e).
Proof. by destruct o; intros s. Qed.

Lemma readonly_bind {A B} (m : Exc S E A) (k : A -> Exc S E B) :
  readonly m -> (forall a, readonly (k a)) -> readonly (x <- m ;; k x).
Proof.
  intros Hm Hk s. specialize (Hm s). unfold final, bind in *.
  destruct (m s) as [[a|e] s1]; simpl in *; subst; [apply Hk|done].
Qed.

Lemma readonly_preserves {A} (I : S -> Prop) (m : Exc S E A) :
  readonly m -> preserves I m.
Proof. intros Hm s HI. by rewrite Hm. Qed.

Lemma readonly_always {A} (T : S -> S -> Prop) `{!Reflexive T} (m : Exc S E A) :
  readonly m -> always T m.
Proof. intros Hm s. by rewrite Hm. Qed.

(** A read-only computation run before another one only selects whether
    the other one runs. *)
Lemma readonly_run {A} (m : Exc S E A) s :
  readonly m -> m s = (outcome m s, s).
Proof.
  intros Hm. specialize (Hm s). unfold final, outcome in *.
  destruct (m s); simpl in *; by subst.
Qed.

End ReadOnly.

(** ** Loops: monadic traversal of a list, left to right *)

Section Traverse.
Context {S E : Type}.

Fixpoint mapM {A B} (f : A -> Exc S E B) (l : list A) : Exc S E (list B) :=
  match l with
  | [] => ret []
  | x :: l' => y <- f x ;; ys <- mapM f l' ;; ret (y :: ys)
  end.

Lemma mapM_length {A B} (f : A -> Exc S E B) l s bs s' :
  mapM f l s = (Ok bs, s') -> length bs = length l.
Proof.
  revert s bs. induction l as [|x l IH]; intros s bs; simpl.
  - by intros [= <- _].
  - intros H. apply bind_inv in H as [(e & _ & ?)|(y & s1 & _ & H)]; [done|].
    apply bind_inv in H as [(e & _ & ?)|(ys & s2 & Hl & H)]; [done|].
    injection H as <- <-. simpl. f_equal. eauto.
Qed.

Lemma mapM_ext {A B} (f g : A -> Exc S E B) l s :
  (forall x s', x ∈ l -> f x s' = g x s') -> mapM f l s = mapM g l s.
Proof.
  revert s. induction l as [|x l IH]; intros s Hfg; simpl; [done|].
  unfold bind. rewrite (Hfg x s) by left.
  destruct (g x s) as [[y|e] s1]; [|done].
  rewrite (IH s1); [done|]. intros z s' Hz. apply Hfg. by right.
Qed.

Lemma preserves_mapM {A B} (I : S -> Prop) (f : A -> Exc S E B) l :
  (forall x, x ∈ l -> preserves I (f x)) -> preserves I (mapM f l).
Proof.
  induction l as [|x l IH]; intros Hf; simpl.
  - apply preserves_ret.
  - apply preserves_bind; [apply Hf; left|intros y].
    apply preserves_bind; [|intros; apply preserves_ret].
    apply IH. intros z Hz. apply Hf. by right.
Qed.

Lemma always_mapM {A B} (T : S -> S -> Prop) `{!PreOrder T}
    (f : A -> Exc S E B) l :
  (forall x, x ∈ l -> always T (f x)) -> always T (mapM f l).
Proof.
  induction l as [|x l IH]; intros Hf; simpl.
  - apply always_ret; apply _.
  - apply always_bind; [apply _|apply Hf; left|intros y].
    apply always_bind; [apply _| |intros; apply always_ret; apply _].
    apply IH. intros z Hz. apply Hf. by right.
Qed.

End Traverse.

(** ** Automation

    [exc] collects the structural rules above; [solve_preserves] and
    [solve_always] split a monadic program along its binds and close the
    leaves with the database. *)

Create HintDb exc discriminated.
Create Rewrite HintDb exc_rw.

#[export] Hint Resolve preserves_ret preserves_throw preserves_gets
  preserves_throw_unless preserves_from_option : exc.
#[export] Hint Resolve always_ret always_throw always_gets
  always_throw_unless always_from_option : exc.
#[export] Hint Resolve readonly_ret readonly_throw readonly_get readonly_gets
  readonly_throw_unless readonly_from_option : exc.

(** The tactics look at the syntax of the program, so that a primitive
    defined with [bind] is handled by its own lemma and not unfolded. *)

Ltac solve_readonly :=
  repeat lazymatch goal with
    | |- readonly (bind _ _) => apply readonly_bind; [|intros ?]
    | |- readonly (match ?x with _ => _ end) => destruct x
    | |- readonly _ => solve [eauto with exc]
    end.

Ltac solve_preserves :=
  repeat lazymatch goal with
    | |- preserves _ (bind _ _) => apply preserves_bind; [|intros ?]
    | |- preserves _ (mapM _ _) => apply preserves_mapM; intros ? ?
    | |- preserves _ (match ?x with _ => _ end) => destruct x
    | |- preserves _ _ =>
        first [ solve [eauto with exc]
              | apply readonly_preserves; solve [solve_readonly] ]
    end.

Ltac solve_safe :=
  repeat lazymatch goal with
    | |- safe _ _ (bind _ _) => apply safe_bind; [|intros ?]
    | |- safe _ _ (ret _) => apply safe_ret
    | |- safe _ _ (throw_unless _ _) => apply safe_throw_unless; done
    | |- safe _ _ (throw _) => apply safe_throw; done
    | |- safe _ _ _ => solve [eauto with exc]
    end.

Ltac solve_always :=
  repeat lazymatch goal with
    | |- always _ (bind _ _) => apply always_bind; [apply _| |intros ?]
    | |- always _ (ret _) => apply always_ret; apply _
    | |- always _ (throw _) => apply always_throw; apply _
    | |- always _ (throw_unless _ _) => apply always_throw_unless; apply _
    | |- always _ (mapM _ _) => apply always_mapM; [apply _|intros ? ?]
    | |- always _ (match ?x with _ => _ end) => destruct x
    | |- always _ _ =>
        first [ solve [eauto with exc]
              | apply readonly_always; [apply _|solve [solve_readonly]] ]
    end.

(** [exc_inv H] breaks a hypothesis [H : (x <- m ;; k) s = (r, s')] into the
    failure of [m] or its success followed by the rest. *)
Ltac exc_inv H :=
  let e := fresh "e" in let a := fresh "a" in let s1 := fresh "s" in
  let H1 := fresh H in
  apply bind_inv in H as [(e & H1 & ->)|(a & s1 & H1 & H)].

(** ** Shared list facts *)

Section ListFacts.
Context {A : Type}.
Implicit Types l : list A.

Lemma lookup_snoc_length l x : (l ++ [x]) !! length l = Some x.
Proof. by rewrite lookup_app_r, Nat.sub_diag. Qed.

Lemma lookup_snoc_lt l x i : i < length l -> (l ++ [x]) !! i = l !! i.
Proof. intros. by rewrite lookup_app_l. Qed.

Lemma lookup_snoc_Some l x i y :
  (l ++ [x]) !! i = Some y <-> l !! i = Some y \/ i = length l /\ y = x.
Proof.
  rewrite lookup_app_Some. split; intros [H|[H1 H2]]; auto.
  - right. destruct (i - length l) as [|k] eqn:Hk; simplify_eq/=.
    split; [lia|done].
  - subst. right. split; [lia|]. by rewrite Nat.sub_diag.
Qed.

(** [list_find] only looks at the elements of the list. *)
Lemma list_find_ext_elem (P Q : A -> Prop)
    `{!forall x, Decision (P x), !forall x, Decision (Q x)} l :
  (forall x, x ∈ l -> P x <-> Q x) -> list_find P l = list_find Q l.
Proof.
  induction l as [|x l IH]; intros HPQ; simpl; [done|].
  assert (P x <-> Q x) as Hx by (apply HPQ; left).
  rewrite IH by (intros y Hy; apply HPQ; by right).
  destruct (decide (P x)), (decide (Q x)); tauto || done.
Qed.

(** What [list_find] finds in a list that ends in a match and has none
    before. *)
Lemma list_find_snoc_new (P : A -> Prop) `{!forall x, Decision (P x)} l x :
  list_find P l = None -> P x -> list_find P (l ++ [x]) = Some (length l, x).
Proof.
  intros Hl Hx. rewrite list_find_app_r by done. simpl.
  by rewrite decide_True.
Qed.

End ListFacts.

(** Two elements of a list that a partial function sends to the same value
    are the same element when the values of the list are all different. *)
Lemma NoDup_omap_inj {A B} (f : A -> option B) (l : list A) x y b :
  NoDup (omap f l) -> x ∈ l -> y ∈ l -> f x = Some b -> f y = Some b -> x = y.
Proof.
  induction l as [|a l IH]; simpl; [by intros _ ?%elem_of_nil|].
  intros Hnd Hx Hy Hfx Hfy.
  assert (forall z, z ∈ l -> f z = Some b -> b ∈ omap f l) as Hin.
  { intros z Hz Hfz. apply list_elem_of_omap. eauto. }
  apply elem_of_cons in Hx as [Hx|Hx]; apply elem_of_cons in Hy as [Hy|Hy].
  - congruence.
  - subst a. rewrite Hfx in Hnd. apply NoDup_cons in Hnd as [Hnot _].
    destruct Hnot. by apply (Hin y).
  - subst a. rewrite Hfy in Hnd. apply NoDup_cons in Hnd as [Hnot _].
    destruct Hnot. by apply (Hin x).
  - apply IH; [|done..]. destruct (f a); [by apply NoDup_cons in Hnd as [_ ?]|done].
Qed.
