(* ===== verification/Values.v ===== *)
(** * Values: what a dataflow node stores

    Shapes ([MatrixDimension], the [Dimension<Eigen::MatrixXd>] of the
    sources), dense matrices and vectors as Eigen holds them, and the sum of
    the value types [T] for which the sources instantiate [Value<T>].

    The scalar type is a parameter [R]: the sources use [double]; nothing in
    the construction of a graph depends on which numbers are stored, only on
    the extents of the matrices that hold them. *)

From stdpp Require Import base tactics option list strings.
From S2P Require Import Prelude.

(** ** Shapes *)

Record MatrixDimension : Type := mkDim { rows : nat; cols : nat }.

#[export] Instance MatrixDimension_eq_dec : EqDecision MatrixDimension.
Proof. solve_decision. Defined.

(** The named shapes the builders ask for. *)
Definition rowVectorDimension (n : nat) : MatrixDimension := mkDim 1 n.
Definition vectorDimension (n : nat) : MatrixDimension := mkDim n 1.
Definition conditionalLikelihoodDimension (nbState nbSite : nat) : MatrixDimension :=
  mkDim nbState nbSite.
Definition transitionMatrixDimension (nbState : nat) : MatrixDimension :=
  mkDim nbState nbState.

(** ** The value types of the node hierarchy: the [T] of [Value<T>] *)

Inductive ValueType : Type :=
| TDouble
| TVectorXd
| TRowVectorXd
| TMatrixXd
| TString
| TSizeT
| TModel
| TFrequenciesSet
| TDistribution
| TPhyloTree.

#[export] Instance ValueType_eq_dec : EqDecision ValueType.
Proof. solve_decision. Defined.

Section Eigen.
Context {R : Type}.

(** ** Dense matrices

    A matrix is its number of rows and the list of its columns (Eigen stores
    column-major).  The number of columns is the length of that list; the
    number of rows is explicit so that a matrix with no column still has
    one.  [VectorXd] is a matrix of one column, [RowVectorXd] one of one
    row. *)

Record Matrix : Type := mkMatrix { mrows : nat; mcolumns : list (list R) }.

Definition mcols (m : Matrix) : nat := length (mcolumns m).

Definition mdim (m : Matrix) : MatrixDimension := mkDim (mrows m) (mcols m).

(** Every column has [mrows] entries. *)
Definition wf_matrix (m : Matrix) : Prop :=
  Forall (fun c => length c = mrows m) (mcolumns m).

Definition coeff (m : Matrix) (i j : nat) : option R :=
  mcolumns m !! j ≫= fun c => c !! i.

Definition column (m : Matrix) (j : nat) : list R :=
  default [] (mcolumns m !! j).

(** [Eigen::resize(r, c)] on a freshly built object: storage for [r * c]
    coefficients whose contents Eigen leaves unspecified; the model fills
    them with the inhabitant of [R]. *)
Definition resize `{Inhabited R} (r c : nat) : Matrix :=
  mkMatrix r (replicate c (replicate r inhabitant)).

(** A matrix of [r] rows and [c] columns filled coefficient by
    coefficient: [m (i, j) = f i j]. *)
Definition matrix_init (r c : nat) (f : nat -> nat -> R) : Matrix :=
  mkMatrix r ((fun j => (fun i => f i j) <$> seq 0 r) <$> seq 0 c).

(** [Eigen::MatrixXd m(r, c)] and the default constructor. *)
Definition empty_matrix : Matrix := mkMatrix 0 [].

(** ** Values *)

Inductive Value : Type :=
| VDouble (x : R)
| VEigen (m : Matrix)
| VString (s : string)
| VSizeT (n : nat)
| VObject (p : nat).

(** [rows()] and [cols()] of a stored value, read through
    [accessValueConstCast<Eigen::...>]. *)
Definition value_rows (v : Value) : nat :=
  match v with VEigen m => mrows m | _ => 0 end.

Definition value_cols (v : Value) : nat :=
  match v with VEigen m => mcols m | _ => 0 end.

Definition value_string (v : Value) : string :=
  match v with VString s => s | _ => EmptyString end.

(** The matrix a value of an Eigen type holds. *)
Definition value_matrix (v : Value) : Matrix :=
  match v with VEigen m => m | _ => empty_matrix end.

(** The coefficients of a matrix in storage order, column after column:
    those of a vector or of a row vector, in order. *)
Definition coefficients (m : Matrix) : list R := concat (mcolumns m).

Definition value_coefficients (v : Value) : list R := coefficients (value_matrix v).

(** [Eigen::VectorXd] and [Eigen::RowVectorXd] from their coefficients. *)
Definition col_vector (l : list R) : Matrix := mkMatrix (length l) [l].

Definition row_vector (l : list R) : Matrix := mkMatrix 1 ((fun x => [x]) <$> l).

End Eigen.

Arguments Matrix R : clear implicits.
Arguments Value R : clear implicits.

#[export] Instance Matrix_eq_dec {R} `{EqDecision R} : EqDecision (Matrix R).
Proof. solve_decision. Defined.

#[export] Instance Value_eq_dec {R} `{EqDecision R} : EqDecision (Value R).
Proof. solve_decision. Defined.

(** [numeric::debug] and [numeric::to_string]: how the library prints a
    value and a shape. *)
Class Describe (R : Type) : Type := {
  debug : Value R -> string;
  to_string : MatrixDimension -> string;
}.

Section EigenFacts.
Context {R : Type} `{Inhabited R}.

Lemma coefficients_col_vector (l : list R) : coefficients (col_vector l) = l.
Proof. unfold coefficients. simpl. apply app_nil_r. Qed.

Lemma coefficients_row_vector (l : list R) : coefficients (row_vector l) = l.
Proof. unfold coefficients. simpl. induction l as [|x l IH]; simpl; by f_equal. Qed.

(** A matrix of one column is the vector of its coefficients. *)
Lemma length_coefficients_vector (m : Matrix R) :
  wf_matrix m -> mcols m = 1 -> length (coefficients m) = mrows m.
Proof.
  unfold wf_matrix, mcols, coefficients. destruct (mcolumns m) as [|c [|? ?]]; try done.
  intros [Hc _]%Forall_cons _. simpl. by rewrite app_nil_r.
Qed.

Lemma mcols_row_vector (l : list R) : mcols (row_vector l) = length l.
Proof. unfold mcols. simpl. apply length_fmap. Qed.

Lemma wf_row_vector (l : list R) : wf_matrix (row_vector l).
Proof. unfold wf_matrix. simpl. apply Forall_fmap, Forall_forall. by intros. Qed.

Lemma mrows_resize r c : mrows (resize (R:=R) r c) = r.
Proof. reflexivity. Qed.

Lemma mcols_resize r c : mcols (resize (R:=R) r c) = c.
Proof. unfold mcols, resize; simpl. by rewrite length_replicate. Qed.

Lemma mdim_resize r c : mdim (resize (R:=R) r c) = mkDim r c.
Proof. unfold mdim. by rewrite mrows_resize, mcols_resize. Qed.

Lemma wf_matrix_resize r c : wf_matrix (resize (R:=R) r c).
Proof.
  unfold wf_matrix, resize; simpl. apply Forall_replicate.
  by rewrite length_replicate.
Qed.

Lemma coeff_resize r c i j :
  i < r -> j < c -> coeff (resize (R:=R) r c) i j = Some inhabitant.
Proof.
  intros Hi Hj. unfold coeff, resize; simpl.
  rewrite lookup_replicate_2 by done. simpl. by rewrite lookup_replicate_2.
Qed.

Lemma mcols_matrix_init r c (f : nat -> nat -> R) : mcols (matrix_init r c f) = c.
Proof. unfold mcols, matrix_init; simpl. by rewrite length_fmap, length_seq. Qed.

Lemma wf_matrix_init r c (f : nat -> nat -> R) : wf_matrix (matrix_init r c f).
Proof.
  unfold wf_matrix, matrix_init; simpl. apply Forall_fmap, Forall_forall.
  intros j _. simpl. by rewrite length_fmap, length_seq.
Qed.

Lemma coeff_matrix_init r c (f : nat -> nat -> R) i j :
  i < r -> j < c -> coeff (matrix_init r c f) i j = Some (f i j).
Proof.
  intros Hi Hj. unfold coeff, matrix_init; simpl.
  rewrite list_lookup_fmap, lookup_seq_lt by done. simpl.
  by rewrite list_lookup_fmap, lookup_seq_lt.
Qed.

Lemma coeff_matrix_init_None r c (f : nat -> nat -> R) i j :
  r <= i \/ c <= j -> coeff (matrix_init r c f) i j = None.
Proof.
  intros Hij. unfold coeff, matrix_init; simpl. rewrite list_lookup_fmap.
  destruct (decide (j < c)) as [Hj|Hj].
  - rewrite lookup_seq_lt by done. simpl. rewrite list_lookup_fmap.
    rewrite lookup_seq_ge by lia. done.
  - rewrite lookup_seq_ge by lia. done.
Qed.

End EigenFacts.

#[export] Hint Rewrite @mrows_resize @mcols_resize @mdim_resize : exc_rw.
