(* ===== verification/Numeric.v ===== *)
(** * Numeric: scalars with arithmetic, sums and vectors

    The arithmetic the recursions of the likelihood use, on an abstract
    type of scalars: the operations ([Arith]), the laws of a commutative
    ring ([RingLaws]) and those of a field ([FieldLaws]), sums over lists
    and over the indices below a bound, and
    the operations on vectors (lists of scalars) and on matrices stored by
    columns ([Values.Matrix]) that the recursions are made of.

    The scalars of the program are [double]s; here they are the elements
    of a field, so that what is proved is the arithmetic of the
    recursions, not its rounding.  What needs no division by an arbitrary
    scalar is proved for a ring, in which a scalar may be [invertible];
    the derivatives of the recursions are taken in such rings
    ([HmmDerivative], [HmmSecondDerivative]).  A map between scalars that
    commutes with the operations ([ScalarHom]) commutes with sums,
    products and the operations on vectors and matrices; the projections
    of the rings of the derivatives are such maps.  The witnesses run over
    the rationals in canonical form ([Qc]). *)

From Stdlib Require Import Ring Field QArith Qcanon.
From stdpp Require Import base tactics option list numbers.
From S2P Require Import Prelude Values.

Class Arith (R : Type) : Type := {
  fzero : R;
  fone : R;
  fadd : R -> R -> R;
  fmul : R -> R -> R;
  fopp : R -> R;
  finv : R -> R;
}.

Definition fsub {R} `{Arith R} (x y : R) : R := fadd x (fopp y).
Definition fdiv {R} `{Arith R} (x y : R) : R := fmul x (finv y).

Declare Scope field_scope.
Delimit Scope field_scope with F.
Notation "0" := fzero : field_scope.
Notation "1" := fone : field_scope.
Infix "+" := fadd : field_scope.
Infix "*" := fmul : field_scope.
Infix "-" := fsub : field_scope.
Infix "/" := fdiv : field_scope.
Notation "- x" := (fopp x) : field_scope.

Class RingLaws (R : Type) `{Arith R} : Prop :=
  arith_ring : ring_theory fzero fone fadd fmul fsub fopp eq.

Class FieldLaws (R : Type) `{Arith R} : Prop :=
  arith_field : field_theory fzero fone fadd fmul fsub fopp fdiv finv eq.

(** A field is a ring. *)
#[export] Instance field_ring {R : Type} `{FieldLaws R} : RingLaws R :=
  F_R arith_field.

(** A scalar that has its inverse: in a field, one that is not zero. *)
Definition invertible {R} `{Arith R} (x : R) : Prop := fmul x (finv x) = fone.

(** The rationals. *)
#[export] Instance Qc_arith : Arith Qc := {|
  fzero := 0%Qc; fone := 1%Qc; fadd := Qcplus; fmul := Qcmult;
  fopp := Qcopp; finv := Qcinv;
|}.

#[export] Instance Qc_field : FieldLaws Qc := Qcft.

#[export] Instance Qc_inhabited : Inhabited Qc := populate 0%Qc.

(** A rational is not zero when the test says so: how the examples show
    that a normalisation constant is not zero. *)
Lemma Qc_nonzero (x : Qc) : Qeq_bool x 0 = false -> x <> fzero.
Proof. intros Hx ->. by vm_compute in Hx. Qed.

(** Lists of rationals are equal when their fractions are. *)
Lemma Qc_list_eq (l l' : list Qc) : this <$> l = this <$> l' -> l = l'.
Proof.
  revert l'. induction l as [|q l IH]; intros [|q' l'] Heq; simplify_eq/=; [done|].
  f_equal; [|by apply IH]. apply Qc_is_canon. by replace (this q) with (this q').
Qed.

#[local] Open Scope field_scope.

Section Sums.
Context {R : Type} `{RingLaws R}.
Implicit Types (x y c : R) (u v : list R).

Add Ring Rring : arith_ring.

(** ** Sums *)

Definition sum (l : list R) : R := foldr fadd 0 l.

Definition product (l : list R) : R := foldr fmul 1 l.

(** The sum of [g i] for [i] below [n]. *)
Definition sum_below (n : nat) (g : nat -> R) : R := sum (g <$> seq 0 n).

Lemma sum_app u v : sum (u ++ v) = sum u + sum v.
Proof. induction u as [|x u IH]; simpl; [ring|rewrite IH; ring]. Qed.

Lemma sum_ext {A} (f g : A -> R) (l : list A) :
  (forall a, a ∈ l -> f a = g a) -> sum (f <$> l) = sum (g <$> l).
Proof.
  intros Hfg. induction l as [|a l IH]; csimpl; [done|].
  rewrite (Hfg a) by left. rewrite IH; [done|]. intros b Hb. apply Hfg. by right.
Qed.

Lemma sum_add {A} (f g : A -> R) (l : list A) :
  sum ((fun a => f a + g a) <$> l) = sum (f <$> l) + sum (g <$> l).
Proof. induction l as [|a l IH]; csimpl; [ring|rewrite IH; ring]. Qed.

Lemma sum_zero {A} (l : list A) : sum ((fun _ => 0) <$> l) = 0.
Proof. induction l as [|a l IH]; csimpl; [done|rewrite IH; ring]. Qed.

Lemma sum_scale_map {A} c (f : A -> R) (l : list A) :
  sum ((fun a => c * f a) <$> l) = c * sum (f <$> l).
Proof. induction l as [|a l IH]; csimpl; [ring|rewrite IH; ring]. Qed.

(** A sum over the elements of a list of lists. *)
Lemma sum_bind {A B} (f : A -> list B) (w : B -> R) (l : list A) :
  sum (w <$> (l ≫= f)) = sum ((fun a => sum (w <$> f a)) <$> l).
Proof.
  induction l as [|a l IH]; csimpl; [done|]. by rewrite fmap_app, sum_app, IH.
Qed.

(** The order of two sums. *)
Lemma sum_exchange {A B} (f : A -> B -> R) (l : list A) (k : list B) :
  sum ((fun a => sum (f a <$> k)) <$> l) = sum ((fun b => sum ((fun a => f a b) <$> l)) <$> k).
Proof.
  induction l as [|a l IH]; csimpl; [by rewrite sum_zero|].
  by rewrite IH, sum_add.
Qed.

Lemma sum_below_ext n (f g : nat -> R) :
  (forall i, i < n -> f i = g i) -> sum_below n f = sum_below n g.
Proof.
  intros Hfg. apply sum_ext. intros i [_ Hi]%elem_of_seq. apply Hfg. lia.
Qed.

Lemma sum_below_scale n c (f : nat -> R) :
  sum_below n (fun i => c * f i) = c * sum_below n f.
Proof. apply sum_scale_map. Qed.

Lemma sum_below_exchange n m (f : nat -> nat -> R) :
  sum_below n (fun i => sum_below m (f i))
  = sum_below m (fun j => sum_below n (fun i => f i j)).
Proof. apply sum_exchange. Qed.

(** A sum over a list is a sum over its positions. *)
Lemma sum_nth v : sum v = sum_below (length v) (fun i => nth i v 0).
Proof.
  unfold sum_below. induction v as [|x v IH]; csimpl; [done|].
  by rewrite IH, <- fmap_S_seq, <- list_fmap_compose.
Qed.

(** ** Vectors *)

(** The product of two vectors, coefficient by coefficient, and its
    sum. *)
Definition cwise_product u v : list R := zip_with fmul u v.

Definition dot u v : R := sum (cwise_product u v).

(** A vector divided by a scalar. *)
Definition divide_by c v : list R := (fun x => x / c) <$> v.

Lemma length_cwise_product u v :
  length u = length v -> length (cwise_product u v) = length u.
Proof. intros Hl. unfold cwise_product. rewrite length_zip_with. lia. Qed.

Lemma nth_cwise_product u v i :
  length u = length v -> nth i (cwise_product u v) 0 = nth i u 0 * nth i v 0.
Proof.
  unfold cwise_product. revert v i.
  induction u as [|x u IH]; intros [|y v] [|i] Hl; simpl in *; try (done || ring).
  apply IH. lia.
Qed.

Lemma dot_nth u v :
  length u = length v -> dot u v = sum_below (length u) (fun i => nth i u 0 * nth i v 0).
Proof.
  intros Hl. unfold dot. rewrite sum_nth, length_cwise_product by done.
  apply sum_below_ext. intros i _. by apply nth_cwise_product.
Qed.

Lemma length_divide_by c v : length (divide_by c v) = length v.
Proof. apply length_fmap. Qed.

Lemma nth_divide_by c v i : nth i (divide_by c v) 0 = nth i v 0 / c.
Proof.
  unfold divide_by. revert i. induction v as [|x v IH]; intros [|i]; simpl;
    try done; unfold fdiv; ring.
Qed.

Lemma sum_divide_by c v : sum (divide_by c v) = sum v / c.
Proof.
  unfold divide_by, fdiv. induction v as [|x v IH]; csimpl; [ring|rewrite IH; ring].
Qed.

(** Dividing by a scalar that has its inverse and multiplying again. *)
Lemma divide_by_invertible c x : invertible c -> c * (x / c) = x.
Proof.
  unfold invertible, fdiv. intros Hc.
  transitivity (x * (c * finv c)); [ring|]. rewrite Hc. ring.
Qed.

(** ** Matrices, stored by columns *)

(** The coefficient at row [i] and column [j]; zero outside. *)
Definition at_ (m : Matrix R) (i j : nat) : R := nth i (column m j) 0.

(** The row [i] of a matrix, as a vector. *)
Definition row (m : Matrix R) (i : nat) : list R :=
  (fun col => nth i col 0) <$> mcolumns m.

(** The transpose of the matrix applied to a vector. *)
Definition transpose_apply (m : Matrix R) v : list R :=
  (fun col => dot col v) <$> mcolumns m.

(** The matrix applied to a vector. *)
Definition apply (m : Matrix R) v : list R :=
  (fun i => dot (row m i) v) <$> seq 0 (mrows m).

Lemma length_row m i : length (row m i) = mcols m.
Proof. apply length_fmap. Qed.

Lemma length_transpose_apply m v : length (transpose_apply m v) = mcols m.
Proof. apply length_fmap. Qed.

Lemma length_apply m v : length (apply m v) = mrows m.
Proof. unfold apply. by rewrite length_fmap, length_seq. Qed.

Lemma nth_row m i j : nth j (row m i) 0 = at_ m i j.
Proof.
  unfold row, at_, column. rewrite !nth_lookup, list_lookup_fmap.
  destruct (mcolumns m !! j); simpl; [by rewrite nth_lookup|by destruct i].
Qed.

Lemma nth_transpose_apply m v j :
  wf_matrix m -> length v = mrows m -> j < mcols m ->
  nth j (transpose_apply m v) 0 = sum_below (mrows m) (fun i => at_ m i j * nth i v 0).
Proof.
  intros Hwf Hv Hj. unfold transpose_apply, at_, column.
  destruct (lookup_lt_is_Some_2 (mcolumns m) j Hj) as [col Hcol].
  rewrite nth_lookup, list_lookup_fmap, Hcol. simpl.
  assert (length col = mrows m) as Hl.
  { eapply Forall_lookup_1 in Hwf; [|done]. done. }
  rewrite dot_nth by congruence. by rewrite Hl.
Qed.

Lemma nth_apply m v i :
  length v = mcols m -> i < mrows m ->
  nth i (apply m v) 0 = sum_below (mcols m) (fun j => at_ m i j * nth j v 0).
Proof.
  intros Hv Hi. unfold apply. rewrite nth_lookup, list_lookup_fmap.
  rewrite lookup_seq_lt by done. simpl.
  rewrite dot_nth by (by rewrite length_row). rewrite length_row.
  apply sum_below_ext. intros j _. by rewrite nth_row.
Qed.

(** The lemmas above without the hypotheses on lengths: [zip_with] stops
    at the shorter vector, and [nth] is zero beyond the end. *)
Lemma nth_cwise_product_any u v i :
  nth i (cwise_product u v) 0 = nth i u 0 * nth i v 0.
Proof.
  unfold cwise_product. revert v i.
  induction u as [|x u IH]; intros [|y v] [|i]; simpl; try (done || ring); apply IH.
Qed.

Lemma dot_nth_any u v :
  dot u v = sum_below (length u) (fun i => nth i u 0 * nth i v 0).
Proof.
  unfold dot, cwise_product, sum_below. revert v.
  induction u as [|x u IH]; intros [|y v]; [done..| |].
  - rewrite (sum_ext _ (fun _ => 0)), sum_zero; [done|].
    intros [|i] _; simpl; ring.
  - csimpl. by rewrite IH, <- fmap_S_seq, <- list_fmap_compose.
Qed.

Lemma nth_apply_any m v i :
  i < mrows m ->
  nth i (apply m v) 0 = sum_below (mcols m) (fun j => at_ m i j * nth j v 0).
Proof.
  intros Hi. unfold apply. rewrite nth_lookup, list_lookup_fmap.
  rewrite lookup_seq_lt by done. simpl. rewrite dot_nth_any, length_row.
  apply sum_below_ext. intros j _. by rewrite nth_row.
Qed.

(** ** Products of sums *)

(** One element of each list, in all ways. *)
Fixpoint cartesian {A} (ls : list (list A)) : list (list A) :=
  match ls with
  | [] => [[]]
  | l :: ls' => x ← l; cons x <$> cartesian ls'
  end.

(** A product of sums is the sum, over the ways of choosing a term in
    each of them, of the products of the terms chosen. *)
Lemma product_sum_cartesian {A B} (g : B -> A -> R) (k : B -> list A) (bs : list B) :
  product ((fun b => sum (g b <$> k b)) <$> bs)
  = sum ((fun xs => product (zip_with g bs xs)) <$> cartesian (k <$> bs)).
Proof.
  induction bs as [|b bs IH]; csimpl; [ring|].
  rewrite sum_bind, IH.
  set (W := sum ((fun xs => product (zip_with g bs xs)) <$> cartesian (k <$> bs))).
  transitivity (sum ((fun a => W * g b a) <$> k b)); [rewrite sum_scale_map; ring|].
  apply sum_ext. intros a _. rewrite <- list_fmap_compose.
  rewrite (sum_ext _ (fun xs => g b a * product (zip_with g bs xs))) by done.
  rewrite sum_scale_map. fold W. ring.
Qed.

(** The coefficient of a product of vectors, coefficient by
    coefficient. *)
Lemma nth_foldl_cwise_product v (vs : list (list R)) i :
  nth i (foldl cwise_product v vs) 0
  = nth i v 0 * product ((fun u => nth i u 0) <$> vs).
Proof.
  revert v. induction vs as [|u vs IH]; intros v; csimpl; [ring|].
  rewrite IH, nth_cwise_product_any. ring.
Qed.

End Sums.

(** ** In a field *)

Section Fields.
Context {R : Type} `{FieldLaws R}.
Implicit Types (x y c : R).

Add Field Rfield : arith_field.

Lemma invertible_nonzero x : x <> 0 -> invertible x.
Proof. intros Hx. unfold invertible. by field. Qed.

(** A product of scalars that are not zero is not zero. *)
Lemma fmul_nonzero x y : x <> 0 -> y <> 0 -> x * y <> 0.
Proof.
  intros Hx Hy Hxy. apply Hy.
  transitivity ((x * y) / x); [by field|]. rewrite Hxy. by field.
Qed.

Lemma fone_nonzero : (1 : R) <> 0.
Proof. apply (F_1_neq_0 arith_field). Qed.

Lemma product_nonzero (l : list R) : Forall (fun x => x <> 0) l -> product l <> 0.
Proof.
  induction 1 as [|x l Hx _ IH]; simpl; [apply fone_nonzero|by apply fmul_nonzero].
Qed.

(** Dividing by a scalar that is not zero and multiplying again. *)
Lemma divide_by_cancel c x : c <> 0 -> c * (x / c) = x.
Proof. intros Hc. by apply divide_by_invertible, invertible_nonzero. Qed.

End Fields.

(** ** Matrices as wholes *)

Section Matrices.
Context {R : Type} `{Arith R}.

(** The product of two matrices: the first applied to each column of the
    second. *)
Definition mmul (a b : Matrix R) : Matrix R :=
  mkMatrix (mrows a) (apply a <$> mcolumns b).

(** The product of two matrices, coefficient by coefficient. *)
Definition cwise_matrix (a b : Matrix R) : Matrix R :=
  mkMatrix (mrows a) (zip_with cwise_product (mcolumns a) (mcolumns b)).

(** A matrix given by its columns, one for each index below [c]. *)
Definition by_columns (r c : nat) (col : nat -> list R) : Matrix R :=
  mkMatrix r (col <$> seq 0 c).

Lemma mmul_by_columns a r c col :
  mmul a (by_columns r c col) = by_columns (mrows a) c (fun j => apply a (col j)).
Proof. unfold mmul, by_columns. simpl. by rewrite <- list_fmap_compose. Qed.

Lemma cwise_matrix_by_columns r c col col' :
  cwise_matrix (by_columns r c col) (by_columns r c col')
  = by_columns r c (fun j => cwise_product (col j) (col' j)).
Proof.
  unfold cwise_matrix, by_columns. simpl. f_equal.
  induction (seq 0 c) as [|j l IH]; csimpl; [done|by rewrite IH].
Qed.

Lemma foldl_cwise_matrix_by_columns r c col (cols : list (nat -> list R)) :
  foldl cwise_matrix (by_columns r c col) (by_columns r c <$> cols)
  = by_columns r c (fun j => foldl cwise_product (col j) ((fun f => f j) <$> cols)).
Proof.
  revert col. induction cols as [|f cols IH]; intros col; csimpl; [done|].
  by rewrite cwise_matrix_by_columns, IH.
Qed.

Lemma matrix_init_by_columns r c (f : nat -> nat -> R) :
  matrix_init r c f = by_columns r c (fun j => (fun i => f i j) <$> seq 0 r).
Proof. done. Qed.

End Matrices.

Lemma by_columns_ext {R} r c (col col' : nat -> list R) :
  (forall j, j < c -> col j = col' j) -> by_columns r c col = by_columns r c col'.
Proof.
  intros Hcol. unfold by_columns. f_equal. apply list_fmap_ext.
  intros _ j [_ Hj]%list_elem_of_lookup_2%elem_of_seq. apply Hcol. lia.
Qed.

Lemma mcolumns_by_columns {R} r c (col : nat -> list R) :
  mcolumns (by_columns r c col) = col <$> seq 0 c.
Proof. done. Qed.

(** ** Change of scalars

    A map between two types of scalars that commutes with the operations
    commutes with everything built from them. *)

Class ScalarHom {A B : Type} `{Arith A, Arith B} (h : A -> B) : Prop := {
  hom_zero : h 0 = 0;
  hom_one : h 1 = 1;
  hom_add x y : h (x + y) = h x + h y;
  hom_mul x y : h (x * y) = h x * h y;
  hom_opp x : h (- x) = - h x;
  hom_inv x : h (finv x) = finv (h x);
}.

Arguments hom_zero {A B _ _} h {_}.
Arguments hom_one {A B _ _} h {_}.
Arguments hom_add {A B _ _} h {_} x y.
Arguments hom_mul {A B _ _} h {_} x y.
Arguments hom_opp {A B _ _} h {_} x.
Arguments hom_inv {A B _ _} h {_} x.

Definition map_matrix {A B : Type} (h : A -> B) (m : Matrix A) : Matrix B :=
  mkMatrix (mrows m) ((fun col : list A => h <$> col) <$> mcolumns m).

Lemma columns_compose {A B C : Type} (g : B -> C) (h : A -> B) (e : list (list A)) :
  (fun col : list B => g <$> col) <$> ((fun col : list A => h <$> col) <$> e)
  = (fun col : list A => (g ∘ h) <$> col) <$> e.
Proof.
  rewrite <- list_fmap_compose. apply list_fmap_ext. intros _ col _. simpl.
  by rewrite <- list_fmap_compose.
Qed.

Lemma map_matrix_compose {A B C : Type} (g : B -> C) (h : A -> B) (m : Matrix A) :
  map_matrix g (map_matrix h m) = map_matrix (g ∘ h) m.
Proof. unfold map_matrix. simpl. by rewrite columns_compose. Qed.

Section Hom.
Context {A B : Type} `{Arith A, Arith B} (h : A -> B) `{!ScalarHom h}.
Implicit Types (u v l : list A) (c : A) (m : Matrix A).

Lemma hom_sum l : h (sum l) = sum (h <$> l).
Proof. induction l as [|a l IH]; csimpl; [apply (hom_zero h)|by rewrite (hom_add h), IH]. Qed.

Lemma hom_product l : h (product l) = product (h <$> l).
Proof. induction l as [|a l IH]; csimpl; [apply (hom_one h)|by rewrite (hom_mul h), IH]. Qed.

Lemma hom_cwise_product u v :
  h <$> cwise_product u v = cwise_product (h <$> u) (h <$> v).
Proof.
  unfold cwise_product. revert v.
  induction u as [|a u IH]; intros [|b v]; csimpl; [done..|by rewrite (hom_mul h), IH].
Qed.

Lemma hom_dot u v : h (dot u v) = dot (h <$> u) (h <$> v).
Proof. unfold dot. by rewrite hom_sum, hom_cwise_product. Qed.

Lemma hom_divide_by c v : h <$> divide_by c v = divide_by (h c) (h <$> v).
Proof.
  unfold divide_by, fdiv. rewrite <- !list_fmap_compose. apply list_fmap_ext.
  intros _ x _. simpl. by rewrite (hom_mul h), (hom_inv h).
Qed.

Lemma hom_transpose_apply m v :
  h <$> transpose_apply m v = transpose_apply (map_matrix h m) (h <$> v).
Proof.
  unfold transpose_apply. simpl. rewrite <- !list_fmap_compose.
  apply list_fmap_ext. intros _ col _. apply hom_dot.
Qed.

Lemma hom_nth l i : h (nth i l 0) = nth i (h <$> l) 0.
Proof. revert i. induction l as [|a l IH]; intros [|i]; simpl; try done; apply (hom_zero h). Qed.

Lemma hom_row m i : h <$> row m i = row (map_matrix h m) i.
Proof.
  unfold row. simpl. rewrite <- !list_fmap_compose. apply list_fmap_ext.
  intros _ col _. apply hom_nth.
Qed.

End Hom.
