(* ===== verification/HmmRecursion.v ===== *)
(** * HmmRecursion: the forward and backward recursions of a hidden Markov model

    The recursion that [ForwardHmmLikelihood_DF::compute] runs, as a
    function of the starting vector, the transition matrix and the matrix
    of emission likelihoods, and the reference it is correct against: the
    likelihood of the observations as the sum, over all paths of hidden
    states, of the probability of the path times the emission likelihoods
    along it.

    The header [HmmLikelihoodComputation.h] declares [compute] and says in
    its comments what the node holds afterwards: its value is, for each
    site [j], [P (x_j | x_1, ..., x_{j-1})]; [condLik_ (i, j)] is
    [Pr (x_1 ... x_j, y_j = i) / Pr (x_1 ... x_j)].  The body is not in the
    sources; the recursion follows the specification (each site: the
    prior of the hidden state times the emission likelihoods, divided by
    its sum; the prior of the next site is the transposed transition matrix
    applied to it).  [forward_scales] proves the first comment: the product
    of the values is the likelihood of the observations.

    The backward recursion of [BackwardHmmLikelihood_DF::compute] runs from
    the last site to the first over the normalisation constants of the
    forward recursion.  [backward_suffix] proves what its columns are (the
    likelihood of the later observations given the hidden state, divided
    by the later constants) and [forward_backward_posterior] that forward
    and backward columns of a site multiply to a distribution.

    The product of the normalisation constants is the likelihood in any
    commutative ring in which the constants are invertible
    ([forward_scales_invertible]), which is what the rings of the
    derivatives need.  [read_arrays] puts the three arrays a forward class
    keeps back into the list of its sites, as the [compute] of the classes
    of the derivatives read them.  The recursion and the likelihood
    commute with a change of scalars ([hom_forward_sites],
    [hom_likelihood]). *)

From Stdlib Require Import Field.
From stdpp Require Import base tactics option list.
From S2P Require Import Prelude Values Numeric.

#[local] Open Scope field_scope.

(** What the recursion computes at one site: the prior of the hidden
    state ([parCondLik_]), its posterior ([condLik_]), and the
    normalisation constant between them (the value of the node). *)
Record Site (R : Type) : Type := mkSite {
  site_parCondLik : list R;
  site_condLik : list R;
  site_scale : R;
}.

Arguments mkSite {R} _ _ _.
Arguments site_parCondLik {R} _.
Arguments site_condLik {R} _.
Arguments site_scale {R} _.

(** The sites from the three arrays a node of a forward class keeps: the
    columns of its matrix of priors, those of the matrix of its
    conditional likelihood node, the coefficients of its value. *)
Definition read_arrays {R S : Type} (mk : list R -> list R -> R -> S)
    (parCondLik condLik : Matrix R) (scales : list R) : list S :=
  zip_with (fun site scale => site scale)
    (zip_with mk (mcolumns parCondLik) (mcolumns condLik)) scales.

(** What is read is what a recursion has written. *)
Lemma read_arrays_written {R S : Type} (mk : list R -> list R -> R -> S)
    (par cond : S -> list R) (scale : S -> R) (n : nat) (sites : list S) :
  (forall site, mk (par site) (cond site) (scale site) = site) ->
  read_arrays mk (mkMatrix n (par <$> sites)) (mkMatrix n (cond <$> sites))
    (scale <$> sites)
  = sites.
Proof.
  intros Hmk. unfold read_arrays. simpl.
  induction sites as [|site sites IH]; csimpl; [done|]. by rewrite IH, Hmk.
Qed.

Section Forward.
Context {R : Type} `{RingLaws R}.
Implicit Types (hmmTrans hmmEmis : Matrix R) (prior hmmEq emission v : list R)
  (emissions : list (list R)) (n : nat).

Add Ring Rring : arith_ring.

(** ** The recursion *)

Fixpoint forward_sites hmmTrans prior emissions : list (Site R) :=
  match emissions with
  | [] => []
  | emission :: rest =>
      let tmp := cwise_product prior emission in
      let scale := sum tmp in
      let condLik := divide_by scale tmp in
      mkSite prior condLik scale
        :: forward_sites hmmTrans (transpose_apply hmmTrans condLik) rest
  end.

Definition forward hmmEq hmmTrans hmmEmis : list (Site R) :=
  forward_sites hmmTrans hmmEq (mcolumns hmmEmis).

(** One site for each column of the emission matrix. *)
Lemma length_forward_sites hmmTrans prior emissions :
  length (forward_sites hmmTrans prior emissions) = length emissions.
Proof.
  revert prior. induction emissions as [|emission rest IH]; intros prior; simpl;
    [done|by rewrite IH].
Qed.

(** The posterior of each site has one coefficient for each hidden
    state, when the prior and the emission likelihoods have. *)
Lemma forward_sites_length n hmmTrans prior emissions site :
  mcols hmmTrans = n -> length prior = n ->
  Forall (fun emission => length emission = n) emissions ->
  site ∈ forward_sites hmmTrans prior emissions -> length (site_condLik site) = n.
Proof.
  intros Hc Hp Hem. revert prior Hp.
  induction Hem as [|emission rest He _ IH]; intros prior Hp; simpl.
  { by intros ?%elem_of_nil. }
  intros [->|Hin]%elem_of_cons.
  - simpl. rewrite length_divide_by, length_cwise_product; congruence.
  - eapply IH; [|exact Hin]. by rewrite length_transpose_apply.
Qed.

(** ** The backward recursion *)

(** From the last site to the first: the column of the last site is the
    vector of ones; the column of a site is the transition matrix applied
    to the emission likelihoods of the next site times the column of the
    next site, divided by the normalisation constant of the next site. *)
Fixpoint backward_sites n hmmTrans emissions (scales : list R) : list (list R) :=
  match emissions, scales with
  | _ :: rest, _ :: scales' =>
      let later := backward_sites n hmmTrans rest scales' in
      match rest, scales', later with
      | emission :: _, scale :: _, next :: _ =>
          divide_by scale (apply hmmTrans (cwise_product emission next))
      | _, _, _ => replicate n 1
      end :: later
  | _, _ => []
  end.

Definition backward n (hmmScale : list R) hmmTrans hmmEmis : list (list R) :=
  backward_sites n hmmTrans (mcolumns hmmEmis) hmmScale.

(** ** The likelihood by enumeration *)

(** The paths of [m] hidden states among [n]. *)
Fixpoint paths n (m : nat) : list (list nat) :=
  match m with
  | 0 => [[]]
  | S m' => seq 0 n ≫= fun s => cons s <$> paths n m'
  end.

(** The probability of a path and of the observations along it: the prior
    of its first state, then the transition from each state to the next,
    each time the emission likelihood of the state. *)
Fixpoint path_weight hmmTrans prior emissions (path : list nat) : R :=
  match emissions, path with
  | [], [] => 1
  | emission :: rest, s :: path' =>
      nth s prior 0 * nth s emission 0 * path_weight hmmTrans (row hmmTrans s) rest path'
  | _, _ => 0
  end.

Definition likelihood n hmmTrans prior emissions : R :=
  sum (path_weight hmmTrans prior emissions <$> paths n (length emissions)).

Lemma likelihood_nil n hmmTrans prior : likelihood n hmmTrans prior [] = 1.
Proof. unfold likelihood. simpl. ring. Qed.

(** The first state of the path apart. *)
Lemma likelihood_cons n hmmTrans prior emission rest :
  likelihood n hmmTrans prior (emission :: rest)
  = sum_below n (fun s => nth s prior 0 * nth s emission 0
                          * likelihood n hmmTrans (row hmmTrans s) rest).
Proof.
  unfold likelihood, sum_below. simpl. rewrite sum_bind. apply sum_ext. intros s _.
  rewrite <- list_fmap_compose. by rewrite <- sum_scale_map.
Qed.

(** ** The recursion computes the likelihood *)

Section Correct.
Variables (n : nat) (hmmTrans : Matrix R).
Hypothesis wf_trans : wf_matrix hmmTrans.
Hypothesis rows_trans : mrows hmmTrans = n.
Hypothesis cols_trans : mcols hmmTrans = n.

(** The prior of the next site: the likelihood is linear in the prior. *)
Lemma likelihood_transpose_apply v emissions :
  length v = n -> emissions <> [] ->
  likelihood n hmmTrans (transpose_apply hmmTrans v) emissions
  = sum_below n (fun s => nth s v 0 * likelihood n hmmTrans (row hmmTrans s) emissions).
Proof.
  intros Hv Hne. destruct emissions as [|emission rest]; [done|].
  transitivity (sum_below n (fun s' => sum_below n (fun s =>
                  nth s v 0 * (at_ hmmTrans s s' * nth s' emission 0
                               * likelihood n hmmTrans (row hmmTrans s') rest)))).
  - rewrite likelihood_cons. apply sum_below_ext. intros s' Hs'.
    rewrite nth_transpose_apply, rows_trans by (done || lia).
    transitivity ((nth s' emission 0 * likelihood n hmmTrans (row hmmTrans s') rest)
                  * sum_below n (fun s => at_ hmmTrans s s' * nth s v 0)); [ring|].
    rewrite <- sum_below_scale. apply sum_below_ext. intros s _. ring.
  - rewrite sum_below_exchange. apply sum_below_ext. intros s _.
    rewrite likelihood_cons, <- sum_below_scale. apply sum_below_ext. intros s' _.
    by rewrite nth_row.
Qed.

(** One step of the recursion: dividing the posterior by its sum divides
    the likelihood of what follows by it. *)
Lemma likelihood_step tmp emissions :
  length tmp = n -> invertible (sum tmp) ->
  sum tmp * likelihood n hmmTrans
              (transpose_apply hmmTrans (divide_by (sum tmp) tmp)) emissions
  = sum_below n (fun s => nth s tmp 0 * likelihood n hmmTrans (row hmmTrans s) emissions).
Proof.
  intros Hl Hc. destruct emissions as [|emission rest].
  - rewrite likelihood_nil, sum_nth, Hl.
    transitivity (sum_below n (fun s => nth s tmp 0)); [ring|].
    apply sum_below_ext. intros s _. rewrite likelihood_nil. ring.
  - rewrite likelihood_transpose_apply by (by rewrite ?length_divide_by).
    rewrite <- sum_below_scale. apply sum_below_ext. intros s _.
    rewrite nth_divide_by.
    by rewrite <- (divide_by_invertible (sum tmp) (nth s tmp 0)) at 2 by done; ring.
Qed.

(** The product of the normalisation constants is the likelihood of the
    observations, when each of the constants has its inverse.  This holds
    in a ring: it is also the statement for the recursion with its
    derivatives ([HmmDerivative]). *)
Lemma forward_scales_invertible prior emissions :
  length prior = n -> Forall (fun emission => length emission = n) emissions ->
  Forall (fun site => invertible (site_scale site))
    (forward_sites hmmTrans prior emissions) ->
  product (site_scale <$> forward_sites hmmTrans prior emissions)
  = likelihood n hmmTrans prior emissions.
Proof.
  intros Hp Hem. revert prior Hp.
  induction Hem as [|emission rest He _ IH]; intros prior Hp; simpl.
  { intros _. by rewrite likelihood_nil. }
  intros [Hc Hrest]%Forall_cons. simpl in Hc.
  rewrite IH by (done || by rewrite length_transpose_apply).
  assert (length (cwise_product prior emission) = n) as Hl
    by (rewrite length_cwise_product; congruence).
  rewrite likelihood_step, likelihood_cons by done.
  apply sum_below_ext. intros s _. by rewrite nth_cwise_product by congruence.
Qed.

End Correct.

End Forward.

(** ** In a field *)

Section ForwardField.
Context {R : Type} `{FieldLaws R}.
Implicit Types (hmmTrans hmmEmis : Matrix R) (prior hmmEq emission v : list R)
  (emissions : list (list R)) (n : nat).

Add Field Rfield : arith_field.

Section CorrectField.
Variables (n : nat) (hmmTrans : Matrix R).
Hypothesis wf_trans : wf_matrix hmmTrans.
Hypothesis rows_trans : mrows hmmTrans = n.
Hypothesis cols_trans : mcols hmmTrans = n.

(** The product of the normalisation constants is the likelihood of the
    observations, when none of the constants is zero. *)
Theorem forward_scales prior emissions :
  length prior = n -> Forall (fun emission => length emission = n) emissions ->
  Forall (fun site => site_scale site <> 0) (forward_sites hmmTrans prior emissions) ->
  product (site_scale <$> forward_sites hmmTrans prior emissions)
  = likelihood n hmmTrans prior emissions.
Proof.
  intros Hp Hem Hnz. apply forward_scales_invertible; try done.
  eapply Forall_impl; [exact Hnz|]. intros site. apply invertible_nonzero.
Qed.

(** ** The backward recursion computes the likelihood of what follows *)

Lemma nth_ones i : i < n -> nth i (replicate n 1) 0 = 1.
Proof. intros Hi. by rewrite nth_lookup, lookup_replicate_2. Qed.

(** One step back: the likelihood of the sites that follow, from the
    hidden state [i], by the first of them. *)
Lemma backward_step i emission rest scale next (tail_scales : R) :
  i < n -> length emission = n -> length next = n -> scale <> 0 ->
  (forall s, s < n -> nth s next 0 * tail_scales = likelihood n hmmTrans (row hmmTrans s) rest) ->
  nth i (divide_by scale (apply hmmTrans (cwise_product emission next))) 0
    * (scale * tail_scales)
  = likelihood n hmmTrans (row hmmTrans i) (emission :: rest).
Proof.
  intros Hi He Hn Hc Hnext.
  rewrite nth_divide_by, nth_apply, cols_trans, likelihood_cons
    by (rewrite ?length_cwise_product; congruence || lia).
  transitivity (tail_scales * sum_below n (fun j =>
                  at_ hmmTrans i j * nth j (cwise_product emission next) 0)); [by field|].
  rewrite <- sum_below_scale. apply sum_below_ext. intros s Hs.
  rewrite nth_cwise_product, nth_row, <- Hnext by (done || congruence). ring.
Qed.

Lemma backward_head emissions scales b later :
  length scales = length emissions ->
  Forall (fun emission => length emission = n) emissions ->
  Forall (fun scale => scale <> 0) scales ->
  backward_sites n hmmTrans emissions scales = b :: later ->
  length b = n /\ forall i, i < n ->
    nth i b 0 * product (tail scales) = likelihood n hmmTrans (row hmmTrans i) (tail emissions).
Proof.
  intros Hl Hem. revert scales b later Hl.
  induction Hem as [|emission rest _ Hrest IH]; intros [|scale scales] b later Hl Hnz;
    simpl; try done.
  apply Forall_cons in Hnz as [_ Hnz]. injection Hl as Hl.
  destruct Hrest as [|emission' rest' He' _], scales as [|scale' scales']; try done.
  { intros [= <- _]. split; [by rewrite length_replicate|]. intros i Hi.
    rewrite nth_ones, likelihood_nil by done. simpl. ring. }
  destruct (backward_sites n hmmTrans (emission' :: rest') (scale' :: scales'))
    as [|next later'] eqn:Hnext; [done|].
  destruct (IH _ _ _ Hl Hnz Hnext) as [Hn Hlik]. intros [= <- _].
  apply Forall_cons in Hnz as [Hc _]. split.
  - by rewrite length_divide_by, length_apply.
  - intros i Hi. by apply backward_step.
Qed.

(** The column of site [j], times the normalisation constants of the
    sites that follow, is, for each hidden state, the likelihood of the
    observations that follow given that state at site [j]. *)
Theorem backward_suffix emissions scales j b i :
  length scales = length emissions ->
  Forall (fun emission => length emission = n) emissions ->
  Forall (fun scale => scale <> 0) scales ->
  backward_sites n hmmTrans emissions scales !! j = Some b -> i < n ->
  nth i b 0 * product (drop (S j) scales)
  = likelihood n hmmTrans (row hmmTrans i) (drop (S j) emissions).
Proof.
  intros Hl Hem. revert scales j Hl.
  induction Hem as [|emission rest He Hrest IH]; intros [|scale scales] j Hl Hnz Hb Hi;
    try done.
  destruct j as [|j].
  - destruct (backward_sites _ _ _ _) as [|b' later] eqn:Hrun; [done|].
    injection Hb as ->.
    destruct (backward_head (emission :: rest) _ _ _ Hl ltac:(by constructor) Hnz Hrun)
      as [_ Hlik].
    by apply Hlik.
  - apply Forall_cons in Hnz as [_ Hnz]. injection Hl as Hl.
    apply (IH scales j); auto.
Qed.

(** The posterior of each site sums to one. *)
Lemma forward_posterior prior emissions site :
  site ∈ forward_sites hmmTrans prior emissions -> site_scale site <> 0 ->
  sum (site_condLik site) = 1.
Proof.
  revert prior. induction emissions as [|emission rest IH]; intros prior; simpl.
  { by intros ?%elem_of_nil. }
  intros [->|Hin]%elem_of_cons; [|by eapply IH]. simpl. intros Hc.
  rewrite sum_divide_by. by field.
Qed.

(** ** Forward and backward together *)

(** The sites after site [j] are those of the recursion started from the
    posterior of site [j]. *)
Lemma forward_sites_drop prior emissions j site :
  forward_sites hmmTrans prior emissions !! j = Some site ->
  drop (S j) (forward_sites hmmTrans prior emissions)
  = forward_sites hmmTrans (transpose_apply hmmTrans (site_condLik site))
      (drop (S j) emissions).
Proof.
  revert prior j. induction emissions as [|emission rest IH]; intros prior [|j]; try done.
  - simpl. by intros [= <-].
  - simpl. apply IH.
Qed.

Lemma backward_sites_nil emissions : backward_sites n hmmTrans emissions [] = [].
Proof. by destruct emissions. Qed.

(** The columns from site [j] on are those of the recursion over the
    sites from [j] on. *)
Lemma backward_sites_drop emissions scales j :
  drop j (backward_sites n hmmTrans emissions scales)
  = backward_sites n hmmTrans (drop j emissions) (drop j scales).
Proof.
  revert scales j. induction emissions as [|emission rest IH]; intros scales j.
  { simpl. by rewrite !drop_nil. }
  destruct scales as [|scale scales].
  { by rewrite drop_nil, !backward_sites_nil, drop_nil. }
  destruct j as [|j]; [done|]. simpl. apply IH.
Qed.

(** The normalisation constants of the sites after [j] multiply to the
    likelihood of the observations after [j], averaged over the posterior
    of site [j]. *)
Lemma forward_scales_suffix prior emissions j site :
  length prior = n -> Forall (fun emission => length emission = n) emissions ->
  Forall (fun site => site_scale site <> 0) (forward_sites hmmTrans prior emissions) ->
  forward_sites hmmTrans prior emissions !! j = Some site ->
  product (drop (S j) (site_scale <$> forward_sites hmmTrans prior emissions))
  = sum_below n (fun s => nth s (site_condLik site) 0
                          * likelihood n hmmTrans (row hmmTrans s) (drop (S j) emissions)).
Proof.
  intros Hp Hem Hnz Hj.
  assert (length (site_condLik site) = n) as Hl
    by (eapply forward_sites_length; [done..|by eapply list_elem_of_lookup_2]).
  rewrite <- fmap_drop, (forward_sites_drop _ _ _ _ Hj).
  destruct (drop (S j) emissions) as [|emission rest] eqn:Hdrop.
  - simpl. rewrite <- (forward_posterior prior emissions site), sum_nth, Hl.
    + apply sum_below_ext. intros s _. rewrite likelihood_nil. ring.
    + by eapply list_elem_of_lookup_2.
    + eapply (proj1 (Forall_forall _ _) Hnz). by eapply list_elem_of_lookup_2.
  - rewrite forward_scales, likelihood_transpose_apply; try done.
    + by rewrite length_transpose_apply.
    + rewrite <- Hdrop. by apply Forall_drop.
    + rewrite <- Hdrop, <- (forward_sites_drop _ _ _ _ Hj). by apply Forall_drop.
Qed.

(** The posterior of a site, weighted by the column of the backward
    recursion run over the normalisation constants of the forward
    recursion, sums to one: the product of the two is the distribution of
    the hidden state of the site given all the observations. *)
Theorem forward_backward_posterior prior emissions j site column :
  length prior = n -> Forall (fun emission => length emission = n) emissions ->
  let sites := forward_sites hmmTrans prior emissions in
  Forall (fun site => site_scale site <> 0) sites ->
  sites !! j = Some site ->
  backward_sites n hmmTrans emissions (site_scale <$> sites) !! j = Some column ->
  dot (site_condLik site) column = 1.
Proof.
  intros Hp Hem sites Hnz Hj Hcol. set (scales := site_scale <$> sites) in *.
  assert (Forall (fun scale => scale <> 0) scales) as Hnz'.
  { apply Forall_fmap. exact Hnz. }
  assert (length scales = length emissions) as Hls.
  { unfold scales, sites. by rewrite length_fmap, length_forward_sites. }
  assert (length (site_condLik site) = n) as Hl
    by (eapply forward_sites_length; [done..|by eapply list_elem_of_lookup_2]).
  assert (length column = n) as Hlc.
  { destruct (backward_head (drop j emissions) (drop j scales) column
                (drop (S j) (backward_sites n hmmTrans emissions scales))) as [Hc _];
      [by rewrite !length_drop, Hls|by apply Forall_drop|by apply Forall_drop| |done].
    rewrite <- backward_sites_drop by done. by apply drop_S. }
  pose proof (forward_scales_suffix _ _ _ _ Hp Hem Hnz Hj) as HP. fold sites scales in HP.
  set (P := product (drop (S j) scales)) in *.
  assert (P <> 0) as HP0 by by apply product_nonzero, Forall_drop.
  assert (dot (site_condLik site) column * P = P) as Heq.
  { rewrite dot_nth, Hl by congruence.
    transitivity (P * sum_below n (fun i => nth i (site_condLik site) 0 * nth i column 0));
      [ring|].
    rewrite <- sum_below_scale. etrans; [|symmetry; exact HP].
    apply sum_below_ext. intros s Hs.
    rewrite <- (backward_suffix emissions scales j column s) by done. fold P. ring. }
  transitivity ((dot (site_condLik site) column * P) / P); [by field|].
  rewrite Heq. by field.
Qed.

End CorrectField.

End ForwardField.

(** ** Change of scalars

    The recursion and the enumeration commute with a map between scalars
    that commutes with the operations. *)

Definition map_site {A B : Type} (h : A -> B) (site : Site A) : Site B :=
  mkSite (h <$> site_parCondLik site) (h <$> site_condLik site) (h (site_scale site)).

Lemma map_site_compose {A B C : Type} (g : B -> C) (h : A -> B) (site : Site A) :
  map_site g (map_site h site) = map_site (g ∘ h) site.
Proof. unfold map_site. simpl. by rewrite <- !list_fmap_compose. Qed.

Section HomRecursion.
Context {A B : Type} `{Arith A, Arith B} (h : A -> B) `{!ScalarHom h}.
Implicit Types (x : list A) (m : Matrix A) (e : list (list A)).

Lemma hom_forward_sites m x e :
  map_site h <$> forward_sites m x e
  = forward_sites (map_matrix h m) (h <$> x) ((fun col : list A => h <$> col) <$> e).
Proof.
  revert x. induction e as [|emission rest IH]; intros x; csimpl; [done|].
  rewrite IH. unfold map_site at 1. simpl.
  by rewrite (hom_transpose_apply h), !(hom_divide_by h), !(hom_sum h),
    !(hom_cwise_product h).
Qed.

Lemma hom_path_weight m x e path :
  h (path_weight m x e path)
  = path_weight (map_matrix h m) (h <$> x) ((fun col : list A => h <$> col) <$> e) path.
Proof.
  revert x path. induction e as [|emission rest IH]; intros x [|s path]; csimpl;
    try done; try apply (hom_one h); try apply (hom_zero h).
  by rewrite !(hom_mul h), IH, (hom_row h), !(hom_nth h).
Qed.

Lemma hom_likelihood n m x e :
  h (likelihood n m x e)
  = likelihood n (map_matrix h m) (h <$> x) ((fun col : list A => h <$> col) <$> e).
Proof.
  unfold likelihood. rewrite (hom_sum h), <- list_fmap_compose, length_fmap.
  f_equal. apply list_fmap_ext. intros _ path _. apply hom_path_weight.
Qed.

End HomRecursion.
