(* ===== verification/HmmDerivative.v ===== *)
(** * HmmDerivative: the derivative of the forward recursion

    [ForwardHmmDLikelihood_DF] computes the derivatives of what
    [ForwardHmmLikelihood_DF] computes.  The header
    [HmmLikelihoodComputation.h] declares its [compute] and says in its
    comments what the node holds afterwards: its value is, for each site
    [j], [dP (x_j | x_1, ..., x_{j-1})]; [dCondLik_ (i, j)] is
    [d (Pr (x_1 ... x_j, y_j = i) / Pr (x_1 ... x_j))]; [dParCondLik_] holds
    the derivatives of the priors.  The body is not in the sources.  The
    specification says how it proceeds: the forward recursion is
    differentiated, its derivatives carried along with the quantities of
    the forward node, which is a dependency and is not computed again,
    with the rules of the product and of the quotient at the
    normalisation.  [forwardD_sites] is that recursion.

    The reference is the forward recursion itself over the dual numbers
    [a + b ε] with [ε² = 0] ([Dual]): the ring in which the coefficient of
    [ε] of a product or of a quotient is what the rules of the product
    and of the quotient say.  [forwardD_tangent] proves that the recursion
    of the derivatives computes the coefficients of [ε] of the forward
    recursion over the dual numbers, with no condition on the inputs.

    The dual numbers are a ring in which a number with an invertible
    first coefficient is invertible, so that the product of the
    normalisation constants is the likelihood there too
    ([HmmRecursion.forward_scales_invertible]).  Hence
    [forwardD_log_likelihood]: the sum over the sites of the derivative
    of the constant divided by the constant is the derivative of the
    likelihood by enumeration of the paths divided by that likelihood,
    which is the derivative of its logarithm. *)

From Stdlib Require Import Ring Field QArith Qcanon.
From stdpp Require Import base tactics option list.
From S2P Require Import Prelude Values Numeric HmmRecursion.

#[local] Open Scope field_scope.

(** ** Dual numbers *)

Record Dual (R : Type) : Type := mkDual { primal : R; tangent : R }.
Arguments mkDual {R} _ _.
Arguments primal {R} _.
Arguments tangent {R} _.

(** The rules of the sum, of the product and of the inverse. *)
#[export] Instance Dual_arith {R : Type} `{Arith R} : Arith (Dual R) := {|
  fzero := mkDual 0 0;
  fone := mkDual 1 0;
  fadd x y := mkDual (primal x + primal y) (tangent x + tangent y);
  fmul x y := mkDual (primal x * primal y)
                     (tangent x * primal y + primal x * tangent y);
  fopp x := mkDual (- primal x) (- tangent x);
  finv x := mkDual (finv (primal x)) (- (tangent x * (finv (primal x) * finv (primal x))));
|}.

Lemma Dual_eq {R} (x y : Dual R) :
  primal x = primal y -> tangent x = tangent y -> x = y.
Proof. destruct x, y. simpl. by intros -> ->. Qed.

Section DualLaws.
Context {R : Type} `{RingLaws R}.

Add Ring Rring : arith_ring.

Lemma Dual_ring_theory :
  ring_theory (R:=Dual R) fzero fone fadd fmul fsub fopp eq.
Proof. split; intros; apply Dual_eq; unfold fsub; simpl; ring. Qed.

End DualLaws.

#[export] Instance Dual_ring {R : Type} `{RingLaws R} : RingLaws (Dual R) :=
  Dual_ring_theory.

(** A dual number whose first coefficient is not zero has its inverse. *)
Section DualInverse.
Context {R : Type} `{FieldLaws R}.

Add Field Rfield : arith_field.

Lemma Dual_invertible (x : Dual R) : primal x <> 0 -> invertible x.
Proof. intros Hx. apply Dual_eq; simpl; by field. Qed.

End DualInverse.

(** ** The two coefficients of vectors, matrices and sites *)

Abbreviation primal_matrix := (map_matrix primal).
Abbreviation tangent_matrix := (map_matrix tangent).
Abbreviation primal_site := (map_site primal).

(** The first coefficient commutes with the operations. *)
#[export] Instance primal_hom {R : Type} `{Arith R} : ScalarHom (primal (R:=R)).
Proof. by split. Qed.

(** A vector and a matrix with the derivative of every coefficient. *)
Definition duals {R} (x dx : list R) : list (Dual R) := zip_with mkDual x dx.

Definition dual_matrix {R} (m dm : Matrix R) : Matrix (Dual R) :=
  mkMatrix (mrows m) (zip_with duals (mcolumns m) (mcolumns dm)).

(** The derivatives have the extents of what they are the derivatives
    of. *)
Definition same_extents {R} (e de : list (list R)) : Prop :=
  Forall2 (fun col dcol => length col = length dcol) e de.

Definition same_shape {R} (m dm : Matrix R) : Prop :=
  mrows m = mrows dm /\ same_extents (mcolumns m) (mcolumns dm).

(** ** The recursion of the derivatives *)

(** Sums, differences and multiples of vectors, coefficient by
    coefficient. *)
#[local] Abbreviation vadd := (zip_with fadd).
#[local] Abbreviation vsub := (zip_with fsub).
#[local] Abbreviation scale_by c := (fmap (fmul c)).

(** The derivatives at one site: of the prior ([dParCondLik_]), of the
    posterior ([dCondLik_]), and of the normalisation constant (the value
    of the node). *)
Record DSite (R : Type) : Type := mkDSite {
  dsite_parCondLik : list R;
  dsite_condLik : list R;
  dsite_scale : R;
}.
Arguments mkDSite {R} _ _ _.
Arguments dsite_parCondLik {R} _.
Arguments dsite_condLik {R} _.
Arguments dsite_scale {R} _.

Definition tangent_site {R} (site : Site (Dual R)) : DSite R :=
  mkDSite (tangent <$> site_parCondLik site) (tangent <$> site_condLik site)
          (tangent (site_scale site)).

Section Recursion.
Context {R : Type} `{Arith R}.
Implicit Types (hmmTrans dTrans : Matrix R) (u v dprior emission dEmission : list R)
  (emissions dEmissions : list (list R)) (sites : list (Site R)).

(** At each site, with the prior, the posterior and the constant of the
    forward node: the derivative of the product of the prior and the
    emission likelihoods, the derivative of its sum, the derivative of
    the quotient; the derivative of the prior of the next site is that of
    the transposed transition matrix applied to the posterior. *)
Fixpoint forwardD_sites hmmTrans dTrans sites dprior emissions dEmissions
    : list (DSite R) :=
  match sites, emissions, dEmissions with
  | site :: sites', emission :: rest, dEmission :: dRest =>
      let dtmp := vadd (cwise_product dprior emission)
                       (cwise_product (site_parCondLik site) dEmission) in
      let dscale := sum dtmp in
      let dcondLik :=
        divide_by (site_scale site) (vsub dtmp (scale_by dscale (site_condLik site))) in
      mkDSite dprior dcondLik dscale
        :: forwardD_sites hmmTrans dTrans sites'
             (vadd (transpose_apply dTrans (site_condLik site))
                   (transpose_apply hmmTrans dcondLik))
             rest dRest
  | _, _, _ => []
  end.

Definition forwardD hmmTrans dTrans sites dEq (hmmEmis dEmis : Matrix R) : list (DSite R) :=
  forwardD_sites hmmTrans dTrans sites dEq (mcolumns hmmEmis) (mcolumns dEmis).

(** One site of derivatives for each site of the forward node, when the
    emission likelihoods and their derivatives have as many columns. *)
Lemma length_forwardD_sites hmmTrans dTrans sites dprior emissions dEmissions :
  length emissions = length sites -> length dEmissions = length sites ->
  length (forwardD_sites hmmTrans dTrans sites dprior emissions dEmissions) = length sites.
Proof.
  revert dprior emissions dEmissions.
  induction sites as [|site sites IH]; intros dprior [|emission rest] [|dEmission dRest];
    simpl; try done.
  intros [= He] [= Hd]. by rewrite IH.
Qed.

End Recursion.

(** ** The coefficients of the operations on vectors *)

Section Coefficients.
Context {R : Type} `{RingLaws R}.
Implicit Types (x y : list (Dual R)) (c : Dual R) (m : Matrix (Dual R)).

Add Ring Rring : arith_ring.

Lemma tangent_sum x : tangent (sum x) = sum (tangent <$> x).
Proof. induction x as [|a x IH]; csimpl; [done|by rewrite IH]. Qed.

(** The rule of the product. *)
Lemma tangent_cwise_product x y :
  tangent <$> cwise_product x y
  = vadd (cwise_product (tangent <$> x) (primal <$> y))
         (cwise_product (primal <$> x) (tangent <$> y)).
Proof.
  unfold cwise_product. revert y.
  induction x as [|a x IH]; intros [|b y]; csimpl; [done..|by rewrite IH].
Qed.

Lemma sum_vadd (u v : list R) : length u = length v -> sum (vadd u v) = sum u + sum v.
Proof.
  revert v. induction u as [|a u IH]; intros [|b v] Hl; simplify_eq/=;
    [ring|]. rewrite IH by done. ring.
Qed.

Lemma tangent_dot x y :
  tangent (dot x y)
  = dot (tangent <$> x) (primal <$> y) + dot (primal <$> x) (tangent <$> y).
Proof.
  unfold dot. rewrite tangent_sum, tangent_cwise_product, sum_vadd; [done|].
  unfold cwise_product. by rewrite !length_zip_with, !length_fmap.
Qed.

(** The rule of the quotient. *)
Lemma tangent_divide_by c x :
  tangent <$> divide_by c x
  = divide_by (primal c)
      (vsub (tangent <$> x) (scale_by (tangent c) (divide_by (primal c) (primal <$> x)))).
Proof.
  induction x as [|a x IH]; [done|].
  change (tangent <$> divide_by c (a :: x))
    with (tangent (a / c) :: (tangent <$> divide_by c x)).
  rewrite IH. unfold divide_by, fdiv, fsub. csimpl. f_equal. ring.
Qed.

Lemma tangent_transpose_apply m x :
  tangent <$> transpose_apply m x
  = vadd (transpose_apply (tangent_matrix m) (primal <$> x))
         (transpose_apply (primal_matrix m) (tangent <$> x)).
Proof.
  unfold transpose_apply. simpl. rewrite <- !list_fmap_compose.
  induction (mcolumns m) as [|col cols IH]; csimpl; [done|].
  by rewrite IH, tangent_dot.
Qed.

(** ** The recursion of the derivatives is the recursion over the dual
       numbers *)

Lemma tangent_forward_sites m x (e : list (list (Dual R))) :
  tangent_site <$> forward_sites m x e
  = forwardD_sites (primal_matrix m) (tangent_matrix m)
      (primal_site <$> forward_sites m x e) (tangent <$> x)
      ((fun col : list (Dual R) => primal <$> col) <$> e)
      ((fun col : list (Dual R) => tangent <$> col) <$> e).
Proof.
  revert x. induction e as [|emission rest IH]; intros x; csimpl; [done|].
  rewrite IH. unfold tangent_site at 1, primal_site at 2. simpl.
  rewrite tangent_transpose_apply, !tangent_divide_by, !(hom_divide_by primal), !tangent_sum,
    !(hom_sum primal), !tangent_cwise_product, !(hom_cwise_product primal).
  done.
Qed.

End Coefficients.

(** C21. The recursion of the derivatives computes the derivatives of the
    forward recursion.  For a starting vector, a transition matrix and
    emission likelihoods over the dual numbers, that is with a derivative
    for every coefficient, the forward recursion over the dual numbers has
    for first coefficients the forward recursion of the first coefficients
    and for second coefficients what [forwardD_sites] computes from the
    derivatives of the inputs and the sites of the forward recursion: the
    derivatives of the prior, of the posterior and of the normalisation
    constant of every site. *)
Theorem forwardD_tangent {R : Type} `{RingLaws R} (m : Matrix (Dual R)) (x : list (Dual R))
    (e : list (list (Dual R))) :
  let primals := (fun col : list (Dual R) => primal <$> col) <$> e in
  let tangents := (fun col : list (Dual R) => tangent <$> col) <$> e in
  let sites := forward_sites (primal_matrix m) (primal <$> x) primals in
  primal_site <$> forward_sites m x e = sites
  /\ tangent_site <$> forward_sites m x e
     = forwardD_sites (primal_matrix m) (tangent_matrix m) sites (tangent <$> x)
         primals tangents.
Proof.
  intros primals tangents sites. subst primals tangents sites.
  split; [apply (hom_forward_sites primal)|].
  rewrite <- (hom_forward_sites primal). apply tangent_forward_sites.
Qed.

(** ** Inputs given with their derivatives apart *)

Section Duals.
Context {R : Type}.
Implicit Types (x dx : list R) (e de : list (list R)) (m dm : Matrix R).

Lemma primal_duals x dx : length x = length dx -> primal <$> duals x dx = x.
Proof. intros Hl. apply fmap_zip_with_l; [done|lia]. Qed.

Lemma tangent_duals x dx : length x = length dx -> tangent <$> duals x dx = dx.
Proof. intros Hl. apply fmap_zip_with_r; [done|lia]. Qed.

Lemma length_duals x dx : length x = length dx -> length (duals x dx) = length x.
Proof. intros Hl. unfold duals. rewrite length_zip_with. lia. Qed.

Lemma primal_columns e de :
  same_extents e de -> (fun col : list (Dual R) => primal <$> col) <$> zip_with duals e de = e.
Proof. induction 1; csimpl; [done|]. by rewrite primal_duals, IHForall2. Qed.

Lemma tangent_columns e de :
  same_extents e de -> (fun col : list (Dual R) => tangent <$> col) <$> zip_with duals e de = de.
Proof. induction 1; csimpl; [done|]. by rewrite tangent_duals, IHForall2. Qed.

Lemma length_columns e de n :
  same_extents e de -> Forall (fun col => length col = n) e ->
  Forall (fun col => length col = n) (zip_with duals e de).
Proof.
  induction 1 as [|col dcol e de Hl _ IH]; intros He; csimpl; [done|].
  apply Forall_cons in He as [Hcol He]. constructor; [|by apply IH].
  by rewrite length_duals.
Qed.

Lemma same_shape_coefficients m dm :
  same_shape m dm -> length (coefficients m) = length (coefficients dm).
Proof.
  intros [_ He]. unfold coefficients.
  induction He as [|col dcol e de Hl _ IH]; [done|]. simpl.
  by rewrite !length_app, Hl, IH.
Qed.

Lemma primal_dual_matrix m dm :
  same_extents (mcolumns m) (mcolumns dm) -> primal_matrix (dual_matrix m dm) = m.
Proof. intros He. destruct m. unfold primal_matrix. simpl in *. by rewrite primal_columns. Qed.

Lemma tangent_dual_matrix m dm :
  mrows m = mrows dm -> same_extents (mcolumns m) (mcolumns dm) ->
  tangent_matrix (dual_matrix m dm) = dm.
Proof.
  intros Hr He. destruct dm. unfold tangent_matrix. simpl in *.
  by rewrite tangent_columns, Hr.
Qed.

Lemma wf_dual_matrix m dm :
  wf_matrix m -> same_extents (mcolumns m) (mcolumns dm) -> wf_matrix (dual_matrix m dm).
Proof. intros Hwf He. by apply length_columns. Qed.

Lemma mcols_dual_matrix m dm :
  same_extents (mcolumns m) (mcolumns dm) -> mcols (dual_matrix m dm) = mcols m.
Proof.
  intros He. unfold mcols. simpl. rewrite length_zip_with.
  apply Forall2_length in He. lia.
Qed.

End Duals.

(** The recursion of the derivatives, on inputs and derivatives of the
    same extents, is the second coefficient of the forward recursion on
    the inputs paired with their derivatives. *)
Lemma forwardD_sites_duals {R : Type} `{RingLaws R} (hmmTrans dTrans : Matrix R)
    (x dx : list R) (e de : list (list R)) :
  mrows hmmTrans = mrows dTrans -> same_extents (mcolumns hmmTrans) (mcolumns dTrans) ->
  length x = length dx -> same_extents e de ->
  forwardD_sites hmmTrans dTrans (forward_sites hmmTrans x e) dx e de
  = tangent_site <$> forward_sites (dual_matrix hmmTrans dTrans) (duals x dx)
                       (zip_with duals e de).
Proof.
  intros Hr Hm Hx He.
  rewrite tangent_forward_sites, (hom_forward_sites primal).
  by rewrite primal_dual_matrix, tangent_dual_matrix, primal_duals, tangent_duals,
    primal_columns, tangent_columns.
Qed.

(** ** The derivative of the logarithm of the likelihood *)

Section LogLikelihood.
Context {R : Type} `{FieldLaws R}.
Implicit Types (x : list (Dual R)) (m : Matrix (Dual R)) (e : list (list (Dual R)))
  (l : list (Dual R)) (n : nat).

Add Field Rfield_derivative : arith_field.

(** The derivative of a product over the product: the sum of the
    derivatives of the factors over the factors. *)
Lemma tangent_product l :
  Forall (fun a => primal a <> 0) l ->
  tangent (product l) / primal (product l)
  = sum ((fun a => tangent a / primal a) <$> l).
Proof.
  induction 1 as [|a l Ha Hl IH]; csimpl; [field; apply fone_nonzero|].
  rewrite <- IH. field. split; [|done]. rewrite (hom_product primal).
  apply product_nonzero, Forall_fmap. by eapply Forall_impl.
Qed.

(** The sum of the derivatives of the normalisation constants over the
    constants is the derivative of the likelihood over the likelihood. *)
Lemma dlog_forward_sites n m x e :
  wf_matrix m -> mrows m = n -> mcols m = n -> length x = n ->
  Forall (fun emission => length emission = n) e ->
  Forall (fun site => primal (site_scale site) <> 0) (forward_sites m x e) ->
  sum (zip_with fdiv (dsite_scale <$> (tangent_site <$> forward_sites m x e))
         (site_scale <$> (primal_site <$> forward_sites m x e)))
  = tangent (likelihood n m x e) / primal (likelihood n m x e).
Proof.
  intros Hwf Hr Hc Hx He Hnz.
  rewrite <- (forward_scales_invertible n m Hwf Hr Hc x e Hx He).
  - rewrite tangent_product by by rewrite Forall_fmap.
    by rewrite <- !list_fmap_compose, zip_with_fmap_l, zip_with_fmap_r, zip_with_diag.
  - eapply Forall_impl; [exact Hnz|]. intros site. apply Dual_invertible.
Qed.

(** The derivative of the logarithm of the likelihood.  For inputs
    with their derivatives (dual numbers), of the extents of [n] hidden
    states, and when no normalisation constant of the forward recursion
    is zero: the sum, over the sites, of the derivative of the constant
    that [forwardD_sites] computes divided by the constant is the
    derivative of the likelihood divided by the likelihood, where the
    likelihood is the sum over all paths of hidden states of the
    probability of the path times the emission likelihoods along it and
    its derivative is its second coefficient over the dual numbers. *)
Theorem forwardD_log_likelihood n m x e :
  let primals := (fun col : list (Dual R) => primal <$> col) <$> e in
  let tangents := (fun col : list (Dual R) => tangent <$> col) <$> e in
  let sites := forward_sites (primal_matrix m) (primal <$> x) primals in
  let dsites := forwardD_sites (primal_matrix m) (tangent_matrix m) sites (tangent <$> x)
                  primals tangents in
  wf_matrix m -> mrows m = n -> mcols m = n -> length x = n ->
  Forall (fun emission => length emission = n) e ->
  Forall (fun site => site_scale site <> 0) sites ->
  sum (zip_with fdiv (dsite_scale <$> dsites) (site_scale <$> sites))
  = tangent (likelihood n m x e) / likelihood n (primal_matrix m) (primal <$> x) primals.
Proof.
  intros primals tangents sites dsites Hwf Hr Hc Hx He Hnz.
  subst dsites sites tangents primals.
  rewrite <- (hom_likelihood primal), <- (hom_forward_sites primal), <- tangent_forward_sites in *.
  apply dlog_forward_sites; try done.
  rewrite Forall_fmap in Hnz. eapply Forall_impl; [exact Hnz|]. by intros site.
Qed.

(** The same for inputs and derivatives given apart, of the same
    extents. *)
Lemma forwardD_dlog_likelihood n (hmmTrans dTrans : Matrix R) (p dp : list R)
    (em dem : list (list R)) :
  let sites := forward_sites hmmTrans p em in
  wf_matrix hmmTrans -> mrows hmmTrans = n -> mcols hmmTrans = n -> length p = n ->
  Forall (fun emission => length emission = n) em ->
  mrows hmmTrans = mrows dTrans -> same_extents (mcolumns hmmTrans) (mcolumns dTrans) ->
  length p = length dp -> same_extents em dem ->
  Forall (fun site => site_scale site <> 0) sites ->
  sum (zip_with fdiv (dsite_scale <$> forwardD_sites hmmTrans dTrans sites dp em dem)
         (site_scale <$> sites))
  = tangent (likelihood n (dual_matrix hmmTrans dTrans) (duals p dp) (zip_with duals em dem))
    / likelihood n hmmTrans p em.
Proof.
  intros sites Hwf Hr Hc Hp Hem Hdr Hdm Hdp Hde Hnz. subst sites.
  rewrite forwardD_sites_duals by done.
  assert (forward_sites hmmTrans p em
          = primal_site <$> forward_sites (dual_matrix hmmTrans dTrans) (duals p dp)
                              (zip_with duals em dem)) as Hsites.
  { by rewrite (hom_forward_sites primal), primal_dual_matrix, primal_duals, primal_columns. }
  rewrite Hsites in Hnz |- *.
  rewrite (dlog_forward_sites n);
    [|by apply wf_dual_matrix|done|by rewrite mcols_dual_matrix|by rewrite length_duals
     |by apply length_columns|].
  - by rewrite (hom_likelihood primal), primal_dual_matrix, primal_duals, primal_columns.
  - rewrite Forall_fmap in Hnz. eapply Forall_impl; [exact Hnz|]. by intros site.
Qed.

End LogLikelihood.

(** ** A chain of two hidden states and the derivative with respect to
       the probability of leaving the first *)

Module DerivativeExample.

Definition tenths (k : Z) : Qc := Q2Qc (k # 10).

(** The chain of [HmmCompute.ChainExample]: a uniform starting vector, a
    transition matrix (stored by columns) of rows [(1 - p, p)] and
    [(q, 1 - q)] at [p = 1/10] and [q = 2/10], the emission likelihoods
    of three sites. *)
Definition hmmEq : list Qc := [tenths 5; tenths 5].
Definition hmmTrans : Matrix Qc :=
  mkMatrix 2 [[tenths 9; tenths 2]; [tenths 1; tenths 8]].
Definition hmmEmis : list (list Qc) :=
  [[tenths 5; tenths 1]; [tenths 4; tenths 3]; [tenths 1; tenths 6]].

(** The derivatives with respect to [p]: only the first row of the
    transition matrix depends on it. *)
Definition dEq : list Qc := [0; 0].
Definition dTrans : Matrix Qc := mkMatrix 2 [[- (1); 0]; [1; 0]].
Definition dEmis : list (list Qc) := [[0; 0]; [0; 0]; [0; 0]].

Definition sites : list (Site Qc) := forward_sites hmmTrans hmmEq hmmEmis.

Definition dsites : list (DSite Qc) := forwardD_sites hmmTrans dTrans sites dEq hmmEmis dEmis.

(** The derivatives of the normalisation constants of the three sites. *)
Example example_dscales :
  dsite_scale <$> dsites = [Q2Qc 0; Q2Qc (-1 # 12); Q2Qc (33938 # 51529)].
Proof. apply Qc_list_eq. by vm_compute. Qed.

(** The derivative of the likelihood by enumeration of the eight paths,
    on the inputs paired with their derivatives. *)
Example example_dlikelihood :
  tangent (likelihood 2 (dual_matrix hmmTrans dTrans) (duals hmmEq dEq)
             (zip_with duals hmmEmis dEmis))
  = Q2Qc (139 # 2000).
Proof. apply Qc_is_canon. by vm_compute. Qed.

(** The derivative of the logarithm of the likelihood, from the
    recursion. *)
Example example_dlog_likelihood :
  sum (zip_with fdiv (dsite_scale <$> dsites) (site_scale <$> sites)) = Q2Qc (1390 # 477).
Proof. apply Qc_is_canon. by vm_compute. Qed.

End DerivativeExample.

Lemma forwardD_tangent_witness :
  let m := dual_matrix DerivativeExample.hmmTrans DerivativeExample.dTrans in
  let x := duals DerivativeExample.hmmEq DerivativeExample.dEq in
  let e := zip_with duals DerivativeExample.hmmEmis DerivativeExample.dEmis in
  let primals := (fun col : list (Dual Qc) => primal <$> col) <$> e in
  let tangents := (fun col : list (Dual Qc) => tangent <$> col) <$> e in
  let sites := forward_sites (primal_matrix m) (primal <$> x) primals in
  primal_site <$> forward_sites m x e = sites
  /\ tangent_site <$> forward_sites m x e
     = forwardD_sites (primal_matrix m) (tangent_matrix m) sites (tangent <$> x)
         primals tangents.
Proof.
  exact (forwardD_tangent (R:=Qc)
           (dual_matrix DerivativeExample.hmmTrans DerivativeExample.dTrans)
           (duals DerivativeExample.hmmEq DerivativeExample.dEq)
           (zip_with duals DerivativeExample.hmmEmis DerivativeExample.dEmis)).
Defined.

Lemma forwardD_log_likelihood_witness :
  let m := dual_matrix DerivativeExample.hmmTrans DerivativeExample.dTrans in
  let x := duals DerivativeExample.hmmEq DerivativeExample.dEq in
  let e := zip_with duals DerivativeExample.hmmEmis DerivativeExample.dEmis in
  let primals := (fun col : list (Dual Qc) => primal <$> col) <$> e in
  let tangents := (fun col : list (Dual Qc) => tangent <$> col) <$> e in
  let sites := forward_sites (primal_matrix m) (primal <$> x) primals in
  let dsites := forwardD_sites (primal_matrix m) (tangent_matrix m) sites (tangent <$> x)
                  primals tangents in
  sum (zip_with fdiv (dsite_scale <$> dsites) (site_scale <$> sites))
  = tangent (likelihood 2 m x e) / likelihood 2 (primal_matrix m) (primal <$> x) primals.
Proof.
  apply (forwardD_log_likelihood 2
           (dual_matrix DerivativeExample.hmmTrans DerivativeExample.dTrans)
           (duals DerivativeExample.hmmEq DerivativeExample.dEq)
           (zip_with duals DerivativeExample.hmmEmis DerivativeExample.dEmis)).
  - repeat constructor.
  - reflexivity.
  - reflexivity.
  - reflexivity.
  - repeat constructor.
  - repeat constructor; by apply Qc_nonzero.
Defined.
