(* ===== verification/HmmSecondDerivative.v ===== *)
(** * HmmSecondDerivative: the second derivative of the forward recursion

    [ForwardHmmD2Likelihood_DF] computes the second derivatives of what
    [ForwardHmmLikelihood_DF] computes.  Its dependencies are the three
    inputs, the forward node, the first derivatives of the inputs, the
    node of the first derivatives, and the second derivatives of the
    inputs.  The header declares its [compute] and says in its comments
    what the node holds afterwards: its value is, for each site [j],
    [d2P (x_j | x_1, ..., x_{j-1})], and [d2CondLik_ (i, j)] is the second
    derivative of [Pr (x_1 ... x_j, y_j = i) / Pr (x_1 ... x_j)].  The
    body is not in the sources.  The specification says how it proceeds: a
    second application of the rules of the product and of the quotient,
    over the quantities of the forward node and of the node of the first
    derivatives.  [forwardD2_sites] is that recursion.

    The reference is the forward recursion over the jets of order two
    [(f, f', f'')] ([Jet]), the ring in which the third coefficient of a
    product is [f'' g + 2 f' g' + f g''] and that of an inverse is
    [(2 g'^2 - g g'') / g^3].  Forgetting the third coefficient is a
    homomorphism to the dual numbers, so that the first two coefficients
    of the recursion over the jets are what the forward node and the node
    of the first derivatives hold.  [forwardD2_second] proves that the
    recursion of the second derivatives computes the third coefficients,
    with no condition on the inputs, and [forwardD2_log_likelihood] that
    the sum over the sites of [d2scale / scale - (dscale / scale)^2] is
    [L'' / L - (L' / L)^2], the second derivative of the logarithm of the
    likelihood [L] by enumeration of the paths. *)

From Stdlib Require Import Ring Field QArith Qcanon.
From stdpp Require Import base tactics option list.
From S2P Require Import Prelude Values Numeric HmmRecursion HmmDerivative.

#[local] Open Scope field_scope.

(** ** Jets of order two *)

Record Jet (R : Type) : Type := mkJet { jet0 : R; jet1 : R; jet2 : R }.
Arguments mkJet {R} _ _ _.
Arguments jet0 {R} _.
Arguments jet1 {R} _.
Arguments jet2 {R} _.

#[export] Instance Jet_arith {R : Type} `{Arith R} : Arith (Jet R) := {|
  fzero := mkJet 0 0 0;
  fone := mkJet 1 0 0;
  fadd x y := mkJet (jet0 x + jet0 y) (jet1 x + jet1 y) (jet2 x + jet2 y);
  fmul x y :=
    mkJet (jet0 x * jet0 y) (jet1 x * jet0 y + jet0 x * jet1 y)
          (jet2 x * jet0 y + (jet1 x * jet1 y + jet1 x * jet1 y) + jet0 x * jet2 y);
  fopp x := mkJet (- jet0 x) (- jet1 x) (- jet2 x);
  finv x :=
    mkJet (finv (jet0 x)) (- (jet1 x * (finv (jet0 x) * finv (jet0 x))))
          ((jet1 x * jet1 x + jet1 x * jet1 x)
             * (finv (jet0 x) * (finv (jet0 x) * finv (jet0 x)))
           - jet2 x * (finv (jet0 x) * finv (jet0 x)));
|}.

Lemma Jet_eq {R} (x y : Jet R) :
  jet0 x = jet0 y -> jet1 x = jet1 y -> jet2 x = jet2 y -> x = y.
Proof. destruct x, y. simpl. by intros -> -> ->. Qed.

Section JetLaws.
Context {R : Type} `{RingLaws R}.

Add Ring Rring_jet : arith_ring.

Lemma Jet_ring_theory :
  ring_theory (R:=Jet R) fzero fone fadd fmul fsub fopp eq.
Proof. split; intros; apply Jet_eq; unfold fsub; simpl; ring. Qed.

End JetLaws.

#[export] Instance Jet_ring {R : Type} `{RingLaws R} : RingLaws (Jet R) :=
  Jet_ring_theory.

(** A jet whose value is not zero has its inverse. *)
Section JetInverse.
Context {R : Type} `{FieldLaws R}.

Add Field Rfield_jet : arith_field.

Lemma Jet_invertible (x : Jet R) : jet0 x <> 0 -> invertible x.
Proof. intros Hx. unfold invertible. apply Jet_eq; unfold fsub; simpl; by field. Qed.

End JetInverse.

(** The value is a homomorphism to the scalars, the value with the first
    derivative a homomorphism to the dual numbers. *)
Definition jet_dual {R} (x : Jet R) : Dual R := mkDual (jet0 x) (jet1 x).

#[export] Instance jet0_hom {R : Type} `{Arith R} : ScalarHom (jet0 (R:=R)).
Proof. by split. Qed.

#[export] Instance jet_dual_hom {R : Type} `{Arith R} : ScalarHom (jet_dual (R:=R)).
Proof. by split. Qed.

(** ** The recursion of the second derivatives *)

(** The second derivatives at one site: of the posterior ([d2CondLik_])
    and of the normalisation constant (the value of the node).  The class
    keeps no matrix for those of the priors. *)
Record D2Site (R : Type) : Type := mkD2Site {
  d2site_condLik : list R;
  d2site_scale : R;
}.
Arguments mkD2Site {R} _ _.
Arguments d2site_condLik {R} _.
Arguments d2site_scale {R} _.

Definition jet1_site {R} (site : Site (Jet R)) : DSite R :=
  mkDSite (jet1 <$> site_parCondLik site) (jet1 <$> site_condLik site)
          (jet1 (site_scale site)).

Definition jet2_site {R} (site : Site (Jet R)) : D2Site R :=
  mkD2Site (jet2 <$> site_condLik site) (jet2 (site_scale site)).

#[local] Abbreviation vadd := (zip_with fadd).
#[local] Abbreviation vsub := (zip_with fsub).
#[local] Abbreviation scale_by c := (fmap (fmul c)).
#[local] Abbreviation twice v := (zip_with fadd v v).

Section Recursion.
Context {R : Type} `{Arith R}.
Implicit Types (hmmTrans dTrans d2Trans : Matrix R) (d2prior : list R)
  (emissions dEmissions d2Emissions : list (list R)) (sites : list (Site R))
  (dsites : list (DSite R)).

(** At each site, with the quantities of the forward node and of the
    node of the first derivatives: the second derivative of the product
    of the prior and the emission likelihoods, that of its sum, that of
    the quotient; the second derivative of the prior of the next site is
    that of the transposed transition matrix applied to the posterior. *)
Fixpoint forwardD2_sites hmmTrans dTrans d2Trans sites dsites d2prior
    emissions dEmissions d2Emissions : list (D2Site R) :=
  match sites, dsites, emissions, dEmissions, d2Emissions with
  | site :: sites', dsite :: dsites', emission :: rest, dEmission :: dRest,
    d2Emission :: d2Rest =>
      let d2tmp :=
        vadd (vadd (cwise_product d2prior emission)
                   (twice (cwise_product (dsite_parCondLik dsite) dEmission)))
             (cwise_product (site_parCondLik site) d2Emission) in
      let d2scale := sum d2tmp in
      let d2condLik :=
        divide_by (site_scale site)
          (vsub (vsub d2tmp (twice (scale_by (dsite_scale dsite) (dsite_condLik dsite))))
                (scale_by d2scale (site_condLik site))) in
      mkD2Site d2condLik d2scale
        :: forwardD2_sites hmmTrans dTrans d2Trans sites' dsites'
             (vadd (vadd (transpose_apply d2Trans (site_condLik site))
                         (twice (transpose_apply dTrans (dsite_condLik dsite))))
                   (transpose_apply hmmTrans d2condLik))
             rest dRest d2Rest
  | _, _, _, _, _ => []
  end.

(** One site of second derivatives for each site of the forward node,
    when the other lists have as many elements. *)
Lemma length_forwardD2_sites hmmTrans dTrans d2Trans sites dsites d2prior
    emissions dEmissions d2Emissions :
  length dsites = length sites -> length emissions = length sites ->
  length dEmissions = length sites -> length d2Emissions = length sites ->
  length (forwardD2_sites hmmTrans dTrans d2Trans sites dsites d2prior
            emissions dEmissions d2Emissions) = length sites.
Proof.
  revert dsites d2prior emissions dEmissions d2Emissions.
  induction sites as [|site sites IH];
    intros [|dsite dsites] d2prior [|emission rest] [|dEmission dRest]
      [|d2Emission d2Rest]; simpl; try done.
  intros [= Hd] [= He] [= Hde] [= Hd2e]. by rewrite IH.
Qed.

Definition forwardD2 hmmTrans dTrans d2Trans sites dsites d2Eq
    (hmmEmis dEmis d2Emis : Matrix R) : list (D2Site R) :=
  forwardD2_sites hmmTrans dTrans d2Trans sites dsites d2Eq
    (mcolumns hmmEmis) (mcolumns dEmis) (mcolumns d2Emis).

End Recursion.

(** ** The third coefficient of the operations on vectors *)

Section Coefficients.
Context {R : Type} `{RingLaws R}.
Implicit Types (x y : list (Jet R)) (c : Jet R) (m : Matrix (Jet R)).

Add Ring Rring_second : arith_ring.

Lemma jet2_sum x : jet2 (sum x) = sum (jet2 <$> x).
Proof. induction x as [|a x IH]; csimpl; [done|by rewrite IH]. Qed.

(** The rule of the product, twice. *)
Lemma jet2_cwise_product x y :
  jet2 <$> cwise_product x y
  = vadd (vadd (cwise_product (jet2 <$> x) (jet0 <$> y))
               (twice (cwise_product (jet1 <$> x) (jet1 <$> y))))
         (cwise_product (jet0 <$> x) (jet2 <$> y)).
Proof.
  unfold cwise_product. revert y.
  induction x as [|a x IH]; intros [|b y]; csimpl; [done..|by rewrite IH].
Qed.

Lemma jet2_dot x y :
  jet2 (dot x y)
  = dot (jet2 <$> x) (jet0 <$> y)
    + (dot (jet1 <$> x) (jet1 <$> y) + dot (jet1 <$> x) (jet1 <$> y))
    + dot (jet0 <$> x) (jet2 <$> y).
Proof.
  unfold dot. rewrite jet2_sum, jet2_cwise_product, !sum_vadd; [done|..];
    unfold cwise_product; rewrite ?length_zip_with, ?length_fmap; lia.
Qed.

(** The rule of the quotient, twice: from [a = q c],
    [a'' = q'' c + 2 q' c' + q c'']. *)
Lemma jet2_divide_by c x :
  jet2 <$> divide_by c x
  = divide_by (jet0 c)
      (vsub (vsub (jet2 <$> x) (twice (scale_by (jet1 c) (jet1 <$> divide_by c x))))
            (scale_by (jet2 c) (divide_by (jet0 c) (jet0 <$> x)))).
Proof.
  induction x as [|a x IH]; [done|].
  change (jet2 <$> divide_by c (a :: x))
    with (jet2 (a / c) :: (jet2 <$> divide_by c x)).
  rewrite IH. unfold divide_by, fdiv, fsub. csimpl. f_equal. ring.
Qed.

Lemma jet2_transpose_apply m x :
  jet2 <$> transpose_apply m x
  = vadd (vadd (transpose_apply (map_matrix jet2 m) (jet0 <$> x))
               (twice (transpose_apply (map_matrix jet1 m) (jet1 <$> x))))
         (transpose_apply (map_matrix jet0 m) (jet2 <$> x)).
Proof.
  unfold transpose_apply. simpl. rewrite <- !list_fmap_compose.
  induction (mcolumns m) as [|col cols IH]; csimpl; [done|].
  by rewrite IH, jet2_dot.
Qed.

(** ** The recursion of the second derivatives is the recursion over the
       jets *)

Lemma jet2_forward_sites m x (e : list (list (Jet R))) :
  jet2_site <$> forward_sites m x e
  = forwardD2_sites (map_matrix jet0 m) (map_matrix jet1 m) (map_matrix jet2 m)
      (map_site jet0 <$> forward_sites m x e) (jet1_site <$> forward_sites m x e)
      (jet2 <$> x)
      ((fun col : list (Jet R) => jet0 <$> col) <$> e)
      ((fun col : list (Jet R) => jet1 <$> col) <$> e)
      ((fun col : list (Jet R) => jet2 <$> col) <$> e).
Proof.
  revert x. induction e as [|emission rest IH]; intros x; csimpl; [done|].
  rewrite IH. unfold jet2_site at 1, jet1_site at 2, map_site at 2. simpl.
  rewrite jet2_transpose_apply, !jet2_divide_by, !jet2_sum, !jet2_cwise_product,
    !(hom_divide_by jet0), !(hom_sum jet0), !(hom_cwise_product jet0).
  done.
Qed.

End Coefficients.

Lemma jet1_site_dual {R} (site : Site (Jet R)) :
  jet1_site site = tangent_site (map_site jet_dual site).
Proof. unfold jet1_site, tangent_site. simpl. by rewrite <- !list_fmap_compose. Qed.

(** The second coefficients are those of the recursion over the dual
    numbers: what the recursion of the first derivatives computes. *)
Lemma jet1_forward_sites {R : Type} `{RingLaws R} (m : Matrix (Jet R)) (x : list (Jet R))
    (e : list (list (Jet R))) :
  jet1_site <$> forward_sites m x e
  = forwardD_sites (map_matrix jet0 m) (map_matrix jet1 m)
      (map_site jet0 <$> forward_sites m x e) (jet1 <$> x)
      ((fun col : list (Jet R) => jet0 <$> col) <$> e)
      ((fun col : list (Jet R) => jet1 <$> col) <$> e).
Proof.
  rewrite (list_fmap_ext jet1_site (tangent_site ∘ map_site jet_dual))
    by (intros; apply jet1_site_dual).
  rewrite list_fmap_compose, (hom_forward_sites jet_dual), tangent_forward_sites.
  rewrite <- (hom_forward_sites jet_dual), <- list_fmap_compose.
  rewrite !map_matrix_compose, !columns_compose, <- !list_fmap_compose.
  f_equal. apply list_fmap_ext. intros _ site _. apply map_site_compose.
Qed.

(** C22. The recursion of the second derivatives computes the second
    derivatives of the forward recursion.  For a starting vector, a
    transition matrix and emission likelihoods over the jets of order
    two, that is with a first and a second derivative for every
    coefficient, the forward recursion over the jets has for first
    coefficients the forward recursion of the values, for second
    coefficients what [forwardD_sites] computes, and for third
    coefficients what [forwardD2_sites] computes from the second
    derivatives of the inputs, the sites of the forward recursion and
    those of the recursion of the first derivatives: the second
    derivatives of the posterior and of the normalisation constant of
    every site. *)
Theorem forwardD2_second {R : Type} `{RingLaws R} (m : Matrix (Jet R)) (x : list (Jet R))
    (e : list (list (Jet R))) :
  let values := (fun col : list (Jet R) => jet0 <$> col) <$> e in
  let firsts := (fun col : list (Jet R) => jet1 <$> col) <$> e in
  let seconds := (fun col : list (Jet R) => jet2 <$> col) <$> e in
  let sites := forward_sites (map_matrix jet0 m) (jet0 <$> x) values in
  let dsites :=
    forwardD_sites (map_matrix jet0 m) (map_matrix jet1 m) sites (jet1 <$> x)
      values firsts in
  map_site jet0 <$> forward_sites m x e = sites
  /\ jet1_site <$> forward_sites m x e = dsites
  /\ jet2_site <$> forward_sites m x e
     = forwardD2_sites (map_matrix jet0 m) (map_matrix jet1 m) (map_matrix jet2 m)
         sites dsites (jet2 <$> x) values firsts seconds.
Proof.
  intros values firsts seconds sites dsites. subst dsites sites seconds firsts values.
  rewrite <- (hom_forward_sites jet0), <- jet1_forward_sites.
  split_and!; [done..|apply jet2_forward_sites].
Qed.

(** ** The second derivative of the logarithm of the likelihood *)

Section LogLikelihood.
Context {R : Type} `{FieldLaws R}.
Implicit Types (x : list (Jet R)) (m : Matrix (Jet R)) (e : list (list (Jet R)))
  (l : list (Jet R)) (n : nat).

Add Field Rfield_second : arith_field.

(** The second derivative of the logarithm of a product is the sum of
    those of the logarithms of the factors. *)
Lemma jet_dlog2_product l :
  Forall (fun a => jet0 a <> 0) l ->
  jet2 (product l) / jet0 (product l)
  - jet1 (product l) / jet0 (product l) * (jet1 (product l) / jet0 (product l))
  = sum ((fun a => jet2 a / jet0 a) <$> l)
    - sum ((fun a => jet1 a / jet0 a * (jet1 a / jet0 a)) <$> l).
Proof.
  induction 1 as [|a l Ha Hl IH]; csimpl; [field; apply fone_nonzero|].
  assert (jet0 (product l) <> 0) as HP.
  { rewrite (hom_product jet0). apply product_nonzero, Forall_fmap.
    by eapply Forall_impl. }
  transitivity (jet2 a / jet0 a - jet1 a / jet0 a * (jet1 a / jet0 a)
                + (sum ((fun a => jet2 a / jet0 a) <$> l)
                   - sum ((fun a => jet1 a / jet0 a * (jet1 a / jet0 a)) <$> l)));
    [|ring].
  rewrite <- IH. by field.
Qed.

(** The same along the sites of the forward recursion over the jets. *)
Lemma dlog2_forward_sites n m x e :
  wf_matrix m -> mrows m = n -> mcols m = n -> length x = n ->
  Forall (fun emission => length emission = n) e ->
  Forall (fun site => jet0 (site_scale site) <> 0) (forward_sites m x e) ->
  let L := likelihood n m x e in
  let scales := site_scale <$> (map_site jet0 <$> forward_sites m x e) in
  sum (zip_with fdiv (d2site_scale <$> (jet2_site <$> forward_sites m x e)) scales)
  - sum ((fun q => q * q)
           <$> zip_with fdiv (dsite_scale <$> (jet1_site <$> forward_sites m x e)) scales)
  = jet2 L / jet0 L - jet1 L / jet0 L * (jet1 L / jet0 L).
Proof.
  intros Hwf Hr Hc Hx He Hnz L scales. subst L scales.
  rewrite <- (forward_scales_invertible n m Hwf Hr Hc x e Hx He).
  - rewrite jet_dlog2_product by by rewrite Forall_fmap.
    by rewrite <- !list_fmap_compose, !zip_with_fmap_l, !zip_with_fmap_r, !zip_with_diag,
      <- !list_fmap_compose.
  - eapply Forall_impl; [exact Hnz|]. intros site. apply Jet_invertible.
Qed.

(** The second derivative of the logarithm of the likelihood.  For
    inputs with their first and second derivatives (jets), of the extents
    of [n] hidden states, and when no normalisation constant of the
    forward recursion is zero: the sum over the sites of the second
    derivative of the constant, which [forwardD2_sites] computes, over
    the constant, less the sum of the squares of the first derivatives
    over the constants, is [L'' / L - (L' / L)^2], where [L] is the
    likelihood by enumeration of all paths of hidden states, [L'] and
    [L''] its derivatives (its second and third coefficients over the
    jets). *)
Theorem forwardD2_log_likelihood n m x e :
  let values := (fun col : list (Jet R) => jet0 <$> col) <$> e in
  let firsts := (fun col : list (Jet R) => jet1 <$> col) <$> e in
  let seconds := (fun col : list (Jet R) => jet2 <$> col) <$> e in
  let sites := forward_sites (map_matrix jet0 m) (jet0 <$> x) values in
  let dsites :=
    forwardD_sites (map_matrix jet0 m) (map_matrix jet1 m) sites (jet1 <$> x)
      values firsts in
  let d2sites :=
    forwardD2_sites (map_matrix jet0 m) (map_matrix jet1 m) (map_matrix jet2 m)
      sites dsites (jet2 <$> x) values firsts seconds in
  let L := likelihood n m x e in
  wf_matrix m -> mrows m = n -> mcols m = n -> length x = n ->
  Forall (fun emission => length emission = n) e ->
  Forall (fun site => site_scale site <> 0) sites ->
  sum (zip_with fdiv (d2site_scale <$> d2sites) (site_scale <$> sites))
  - sum ((fun q => q * q) <$> zip_with fdiv (dsite_scale <$> dsites) (site_scale <$> sites))
  = jet2 L / jet0 L - jet1 L / jet0 L * (jet1 L / jet0 L).
Proof.
  intros values firsts seconds sites dsites d2sites L Hwf Hr Hc Hx He Hnz.
  subst L d2sites dsites sites seconds firsts values.
  rewrite <- (hom_forward_sites jet0), <- jet1_forward_sites, <- jet2_forward_sites in *.
  apply dlog2_forward_sites; try done.
  rewrite Forall_fmap in Hnz. eapply Forall_impl; [exact Hnz|]. by intros site.
Qed.

End LogLikelihood.

(** ** Inputs given with their derivatives apart *)

(** A scalar with its first derivative, and its second. *)
Definition with_second {R} (d : Dual R) (s : R) : Jet R := mkJet (primal d) (tangent d) s.

Definition jets {R} (x dx d2x : list R) : list (Jet R) :=
  zip_with with_second (duals x dx) d2x.

Definition jet_columns {R} (e de d2e : list (list R)) : list (list (Jet R)) :=
  zip_with (zip_with with_second) (zip_with duals e de) d2e.

Definition jet_matrix {R} (m dm d2m : Matrix R) : Matrix (Jet R) :=
  mkMatrix (mrows m) (jet_columns (mcolumns m) (mcolumns dm) (mcolumns d2m)).

Section Jets.
Context {R : Type}.
Implicit Types (x dx d2x : list R) (e de d2e : list (list R)) (m dm d2m : Matrix R).

Lemma jet_dual_jets x dx d2x :
  length x = length dx -> length x = length d2x -> jet_dual <$> jets x dx d2x = duals x dx.
Proof.
  intros Hd Hs. apply fmap_zip_with_l; [by intros []|]. rewrite length_duals by done. lia.
Qed.

Lemma jet2_jets x dx d2x :
  length x = length dx -> length x = length d2x -> jet2 <$> jets x dx d2x = d2x.
Proof.
  intros Hd Hs. apply fmap_zip_with_r; [done|]. rewrite length_duals by done. lia.
Qed.

Lemma jet0_jets x dx d2x :
  length x = length dx -> length x = length d2x -> jet0 <$> jets x dx d2x = x.
Proof.
  intros Hd Hs. change jet0 with (primal ∘ jet_dual (R:=R)).
  by rewrite list_fmap_compose, jet_dual_jets, primal_duals.
Qed.

Lemma jet1_jets x dx d2x :
  length x = length dx -> length x = length d2x -> jet1 <$> jets x dx d2x = dx.
Proof.
  intros Hd Hs. change jet1 with (tangent ∘ jet_dual (R:=R)).
  by rewrite list_fmap_compose, jet_dual_jets, tangent_duals.
Qed.

Lemma length_jets x dx d2x :
  length x = length dx -> length x = length d2x -> length (jets x dx d2x) = length x.
Proof. intros Hd Hs. unfold jets. rewrite length_zip_with, length_duals by done. lia. Qed.

Lemma jet_dual_columns e de d2e :
  same_extents e de -> same_extents e d2e ->
  (fun col : list (Jet R) => jet_dual <$> col) <$> jet_columns e de d2e = zip_with duals e de.
Proof.
  intros Hd. revert d2e. induction Hd as [|col dcol e de Hl _ IH]; intros d2e Hs;
    inversion Hs; simplify_eq; csimpl; [done|].
  f_equal; [by apply jet_dual_jets|by apply IH].
Qed.

Lemma jet2_columns e de d2e :
  same_extents e de -> same_extents e d2e ->
  (fun col : list (Jet R) => jet2 <$> col) <$> jet_columns e de d2e = d2e.
Proof.
  intros Hd. revert d2e. induction Hd as [|col dcol e de Hl _ IH]; intros d2e Hs;
    inversion Hs; simplify_eq; csimpl; [done|].
  f_equal; [by apply jet2_jets|by apply IH].
Qed.

Lemma jet0_columns e de d2e :
  same_extents e de -> same_extents e d2e ->
  (fun col : list (Jet R) => jet0 <$> col) <$> jet_columns e de d2e = e.
Proof.
  intros Hd Hs. rewrite <- (primal_columns e de Hd) at 2.
  rewrite <- (jet_dual_columns e de d2e Hd Hs). by rewrite columns_compose.
Qed.

Lemma jet1_columns e de d2e :
  same_extents e de -> same_extents e d2e ->
  (fun col : list (Jet R) => jet1 <$> col) <$> jet_columns e de d2e = de.
Proof.
  intros Hd Hs. rewrite <- (tangent_columns e de Hd) at 2.
  rewrite <- (jet_dual_columns e de d2e Hd Hs). by rewrite columns_compose.
Qed.

Lemma length_jet_columns e de d2e n :
  same_extents e de -> same_extents e d2e -> Forall (fun col => length col = n) e ->
  Forall (fun col => length col = n) (jet_columns e de d2e).
Proof.
  intros Hd Hs He. rewrite <- (jet0_columns e de d2e Hd Hs) in He.
  rewrite Forall_fmap in He. eapply Forall_impl; [exact He|].
  intros col. simpl. by rewrite length_fmap.
Qed.

Lemma jet0_jet_matrix m dm d2m :
  same_shape m dm -> same_shape m d2m -> map_matrix jet0 (jet_matrix m dm d2m) = m.
Proof.
  intros [_ Hd] [_ Hs]. destruct m. unfold map_matrix. simpl in *.
  by rewrite jet0_columns.
Qed.

Lemma jet1_jet_matrix m dm d2m :
  same_shape m dm -> same_shape m d2m -> map_matrix jet1 (jet_matrix m dm d2m) = dm.
Proof.
  intros [Hr Hd] [_ Hs]. destruct dm. unfold map_matrix. simpl in *.
  by rewrite jet1_columns, Hr.
Qed.

Lemma jet2_jet_matrix m dm d2m :
  same_shape m dm -> same_shape m d2m -> map_matrix jet2 (jet_matrix m dm d2m) = d2m.
Proof.
  intros [_ Hd] [Hr Hs]. destruct d2m. unfold map_matrix. simpl in *.
  by rewrite jet2_columns, Hr.
Qed.

Lemma wf_jet_matrix m dm d2m :
  wf_matrix m -> same_shape m dm -> same_shape m d2m -> wf_matrix (jet_matrix m dm d2m).
Proof. intros Hwf [_ Hd] [_ Hs]. by apply length_jet_columns. Qed.

Lemma mcols_jet_matrix m dm d2m :
  same_shape m dm -> same_shape m d2m -> mcols (jet_matrix m dm d2m) = mcols m.
Proof.
  intros Hd Hs. rewrite <- (jet0_jet_matrix m dm d2m Hd Hs) at 2.
  unfold mcols. simpl. by rewrite length_fmap.
Qed.

End Jets.

(** The first and second derivatives have the shapes of the inputs. *)
Definition derivatives_fit {R} (hmmTrans dTrans d2Trans : Matrix R) (x dx d2x : list R)
    (e de d2e : list (list R)) : Prop :=
  same_shape hmmTrans dTrans /\ same_shape hmmTrans d2Trans
  /\ length x = length dx /\ length x = length d2x
  /\ same_extents e de /\ same_extents e d2e.

Section Apart.
Context {R : Type} `{FieldLaws R}.
Implicit Types (hmmTrans dTrans d2Trans : Matrix R) (x dx d2x : list R)
  (e de d2e : list (list R)) (n : nat).

Add Field Rfield_apart : arith_field.

(** The three recursions are the three coefficients of the forward
    recursion on the inputs joined with their derivatives. *)
Lemma forward_sites_jets hmmTrans dTrans d2Trans x dx d2x e de d2e :
  derivatives_fit hmmTrans dTrans d2Trans x dx d2x e de d2e ->
  let fs := forward_sites (jet_matrix hmmTrans dTrans d2Trans) (jets x dx d2x)
              (jet_columns e de d2e) in
  let sites := forward_sites hmmTrans x e in
  let dsites := forwardD_sites hmmTrans dTrans sites dx e de in
  map_site jet0 <$> fs = sites /\ jet1_site <$> fs = dsites
  /\ jet2_site <$> fs = forwardD2_sites hmmTrans dTrans d2Trans sites dsites d2x e de d2e.
Proof.
  intros (HT & HT2 & Hx & Hx2 & He & He2) fs sites dsites. subst fs sites dsites.
  rewrite jet2_forward_sites, jet1_forward_sites, (hom_forward_sites jet0).
  by rewrite jet0_jet_matrix, jet1_jet_matrix, jet2_jet_matrix, jet0_jets, jet1_jets,
    jet2_jets, jet0_columns, jet1_columns, jet2_columns.
Qed.

(** The second derivative of the logarithm of the likelihood, for inputs
    and derivatives given apart. *)
Lemma forwardD2_dlog2_likelihood n hmmTrans dTrans d2Trans x dx d2x e de d2e :
  let sites := forward_sites hmmTrans x e in
  let dsites := forwardD_sites hmmTrans dTrans sites dx e de in
  let d2sites := forwardD2_sites hmmTrans dTrans d2Trans sites dsites d2x e de d2e in
  let L := likelihood n (jet_matrix hmmTrans dTrans d2Trans) (jets x dx d2x)
             (jet_columns e de d2e) in
  wf_matrix hmmTrans -> mrows hmmTrans = n -> mcols hmmTrans = n -> length x = n ->
  Forall (fun emission => length emission = n) e ->
  derivatives_fit hmmTrans dTrans d2Trans x dx d2x e de d2e ->
  Forall (fun site => site_scale site <> 0) sites ->
  sum (zip_with fdiv (d2site_scale <$> d2sites) (site_scale <$> sites))
  - sum ((fun q => q * q) <$> zip_with fdiv (dsite_scale <$> dsites) (site_scale <$> sites))
  = jet2 L / jet0 L - jet1 L / jet0 L * (jet1 L / jet0 L).
Proof.
  intros sites dsites d2sites L Hwf Hr Hc Hx He Hfit Hnz.
  destruct (forward_sites_jets _ _ _ _ _ _ _ _ _ Hfit) as (H0s & H1s & H2s).
  destruct Hfit as (HT & HT2 & Hdx & Hd2x & Hde & Hd2e).
  subst L d2sites dsites sites. rewrite <- H2s, <- H1s, <- H0s in *.
  apply dlog2_forward_sites;
    [by apply wf_jet_matrix|done|by rewrite mcols_jet_matrix|by rewrite length_jets
    |by apply length_jet_columns|].
  rewrite Forall_fmap in Hnz. eapply Forall_impl; [exact Hnz|]. by intros site.
Qed.

End Apart.

(** ** The chain of two hidden states and the second derivative with
       respect to the probability of leaving the first *)

Module SecondDerivativeExample.

(** The transition matrix is linear in the probability: its second
    derivative is zero, like those of the starting vector and of the
    emission likelihoods. *)
Definition d2Eq : list Qc := [0; 0].
Definition d2Trans : Matrix Qc := mkMatrix 2 [[0; 0]; [0; 0]].
Definition d2Emis : list (list Qc) := [[0; 0]; [0; 0]; [0; 0]].

Definition d2sites : list (D2Site Qc) :=
  forwardD2_sites DerivativeExample.hmmTrans DerivativeExample.dTrans d2Trans
    DerivativeExample.sites DerivativeExample.dsites d2Eq
    DerivativeExample.hmmEmis DerivativeExample.dEmis d2Emis.

Definition likelihood_jet : Jet Qc :=
  likelihood 2 (jet_matrix DerivativeExample.hmmTrans DerivativeExample.dTrans d2Trans)
    (jets DerivativeExample.hmmEq DerivativeExample.dEq d2Eq)
    (jet_columns DerivativeExample.hmmEmis DerivativeExample.dEmis d2Emis).

Lemma derivatives_fit_example :
  derivatives_fit DerivativeExample.hmmTrans DerivativeExample.dTrans d2Trans
    DerivativeExample.hmmEq DerivativeExample.dEq d2Eq
    DerivativeExample.hmmEmis DerivativeExample.dEmis d2Emis.
Proof. repeat split; repeat constructor. Qed.

(** The second derivatives of the normalisation constants of the three
    sites: the first two constants are linear in the probability. *)
Example example_d2scales :
  d2site_scale <$> d2sites = [Q2Qc 0; Q2Qc 0; Q2Qc (-6912000 # 11697083)].
Proof. apply Qc_list_eq. by vm_compute. Qed.

(** The likelihood by enumeration of the eight paths with its two
    derivatives. *)
Example example_likelihood_jet :
  [jet0 likelihood_jet; jet1 likelihood_jet; jet2 likelihood_jet]
  = [Q2Qc (477 # 20000); Q2Qc (139 # 2000); Q2Qc (-1 # 10)].
Proof. apply Qc_list_eq. by vm_compute. Qed.

End SecondDerivativeExample.

Lemma forwardD2_second_witness :
  let m := jet_matrix DerivativeExample.hmmTrans DerivativeExample.dTrans
             SecondDerivativeExample.d2Trans in
  let x := jets DerivativeExample.hmmEq DerivativeExample.dEq SecondDerivativeExample.d2Eq in
  let e := jet_columns DerivativeExample.hmmEmis DerivativeExample.dEmis
             SecondDerivativeExample.d2Emis in
  let values := (fun col : list (Jet Qc) => jet0 <$> col) <$> e in
  let firsts := (fun col : list (Jet Qc) => jet1 <$> col) <$> e in
  let seconds := (fun col : list (Jet Qc) => jet2 <$> col) <$> e in
  let sites := forward_sites (map_matrix jet0 m) (jet0 <$> x) values in
  let dsites :=
    forwardD_sites (map_matrix jet0 m) (map_matrix jet1 m) sites (jet1 <$> x)
      values firsts in
  map_site jet0 <$> forward_sites m x e = sites
  /\ jet1_site <$> forward_sites m x e = dsites
  /\ jet2_site <$> forward_sites m x e
     = forwardD2_sites (map_matrix jet0 m) (map_matrix jet1 m) (map_matrix jet2 m)
         sites dsites (jet2 <$> x) values firsts seconds.
Proof.
  exact (forwardD2_second (R:=Qc)
           (jet_matrix DerivativeExample.hmmTrans DerivativeExample.dTrans
              SecondDerivativeExample.d2Trans)
           (jets DerivativeExample.hmmEq DerivativeExample.dEq SecondDerivativeExample.d2Eq)
           (jet_columns DerivativeExample.hmmEmis DerivativeExample.dEmis
              SecondDerivativeExample.d2Emis)).
Defined.

Lemma forwardD2_log_likelihood_witness :
  let m := jet_matrix DerivativeExample.hmmTrans DerivativeExample.dTrans
             SecondDerivativeExample.d2Trans in
  let x := jets DerivativeExample.hmmEq DerivativeExample.dEq SecondDerivativeExample.d2Eq in
  let e := jet_columns DerivativeExample.hmmEmis DerivativeExample.dEmis
             SecondDerivativeExample.d2Emis in
  let values := (fun col : list (Jet Qc) => jet0 <$> col) <$> e in
  let firsts := (fun col : list (Jet Qc) => jet1 <$> col) <$> e in
  let seconds := (fun col : list (Jet Qc) => jet2 <$> col) <$> e in
  let sites := forward_sites (map_matrix jet0 m) (jet0 <$> x) values in
  let dsites :=
    forwardD_sites (map_matrix jet0 m) (map_matrix jet1 m) sites (jet1 <$> x)
      values firsts in
  let d2sites :=
    forwardD2_sites (map_matrix jet0 m) (map_matrix jet1 m) (map_matrix jet2 m)
      sites dsites (jet2 <$> x) values firsts seconds in
  let L := likelihood 2 m x e in
  sum (zip_with fdiv (d2site_scale <$> d2sites) (site_scale <$> sites))
  - sum ((fun q => q * q) <$> zip_with fdiv (dsite_scale <$> dsites) (site_scale <$> sites))
  = jet2 L / jet0 L - jet1 L / jet0 L * (jet1 L / jet0 L).
Proof.
  apply (forwardD2_log_likelihood 2
           (jet_matrix DerivativeExample.hmmTrans DerivativeExample.dTrans
              SecondDerivativeExample.d2Trans)
           (jets DerivativeExample.hmmEq DerivativeExample.dEq SecondDerivativeExample.d2Eq)
           (jet_columns DerivativeExample.hmmEmis DerivativeExample.dEmis
              SecondDerivativeExample.d2Emis)).
  - repeat constructor.
  - reflexivity.
  - reflexivity.
  - reflexivity.
  - repeat constructor.
  - repeat constructor; by apply Qc_nonzero.
Defined.
