(* ===== verification/Felsenstein.v ===== *)
(** * Felsenstein: the likelihood of a tree, by pruning and by enumeration

    What the graph of the likelihood of a tree computes at one site, as
    functions on vectors, and the reference it is correct against.

    The tree is given by the branches below each node and the node below
    each branch; a node without branches is a leaf.  A branch [e] has a
    matrix [P e] of transition probabilities (row: state of the node above,
    column: state of the node below), a leaf has the vector of the
    likelihoods of its observation, one for each state.

    [conditional] is the recursion of the graph: the vector of a leaf, and
    for an inner node the product, coefficient by coefficient, of the
    forward likelihoods of its branches, each the matrix of the branch
    applied to the vector of the node below it.

    The reference enumerates: a [Labelling] gives a state to every node of
    the tree, its [weight] is the product of the transition probabilities
    along the branches and of the likelihoods of the observations at the
    leaves, and the likelihood of the tree is the sum, over all
    labellings, of the frequency of the state of the root times the weight.
    [conditional_enumerates] and [pruning_is_likelihood] prove that the
    recursion computes this sum.

    Both recursions follow the tree from the root with fuel; when the fuel
    runs out the vector is empty and there is no labelling, so that the
    equations hold whatever the fuel. *)

From Stdlib Require Import Field.
From stdpp Require Import base tactics option list.
From S2P Require Import Prelude Values Numeric.

#[local] Open Scope field_scope.

(** A state for a node and a labelling for the node below each of its
    branches. *)
#[warnings="-register-all"]
Inductive Labelling : Type :=
| Label (state : nat) (below : list Labelling).

Definition state_of (l : Labelling) : nat :=
  match l with Label x _ => x end.

Section Tree.
Context {R : Type} `{FieldLaws R}.
Variables (n : nat) (branches : nat -> list nat) (son : nat -> nat).
Variables (P : nat -> Matrix R) (leaf : nat -> list R).
Implicit Types (fuel index e x y : nat) (l : Labelling) (freqs : list R).

Add Field Rfield_tree : arith_field.

(** ** Pruning *)

Fixpoint conditional fuel index : list R :=
  match fuel with
  | 0 => []
  | S fuel' =>
      let forward e := apply (P e) (conditional fuel' (son e)) in
      match branches index with
      | [] => leaf index
      | e :: es => foldl cwise_product (forward e) (forward <$> es)
      end
  end.

(** The likelihood of the site: the conditional likelihood of the root
    weighted by the frequencies of the states. *)
Definition site_likelihood freqs fuel index : R :=
  dot freqs (conditional fuel index).

(** ** Enumeration *)

(** The labellings of the tree below a node in state [x]. *)
Fixpoint labellings_at fuel index x : list Labelling :=
  match fuel with
  | 0 => []
  | S fuel' =>
      Label x <$> cartesian ((fun e => seq 0 n ≫= labellings_at fuel' (son e))
                               <$> branches index)
  end.

Definition labellings fuel index : list Labelling :=
  seq 0 n ≫= labellings_at fuel index.

(** The probability of a labelling and of the observations, given the
    state of the node. *)
Fixpoint weight fuel index l : R :=
  match fuel with
  | 0 => 0
  | S fuel' =>
      match branches index with
      | [] => nth (state_of l) (leaf index) 0
      | es =>
          match l with
          | Label x below =>
              product (zip_with (fun e sub =>
                                   at_ (P e) x (state_of sub) * weight fuel' (son e) sub)
                                es below)
          end
      end
  end.

Definition tree_likelihood freqs fuel index : R :=
  sum ((fun l => nth (state_of l) freqs 0 * weight fuel index l)
         <$> labellings fuel index).

(** ** Pruning computes the enumeration *)

Lemma state_of_labellings_at fuel index x l :
  l ∈ labellings_at fuel index x -> state_of l = x.
Proof.
  destruct fuel; simpl; [by intros ?%elem_of_nil|].
  by intros (below & -> & _)%list_elem_of_fmap.
Qed.

(** A sum over the labellings of a subtree, by the state of its root. *)
Lemma sum_labellings (w : nat -> Labelling -> R) fuel index :
  sum ((fun l => w (state_of l) l) <$> labellings fuel index)
  = sum_below n (fun y => sum (w y <$> labellings_at fuel index y)).
Proof.
  unfold labellings, sum_below. rewrite sum_bind. apply sum_ext. intros y _.
  apply sum_ext. intros l Hl. by rewrite (state_of_labellings_at _ _ _ _ Hl).
Qed.

Section Shaped.
Hypothesis P_rows : forall e, mrows (P e) = n.
Hypothesis P_cols : forall e, mcols (P e) = n.

Lemma conditional_enumerates fuel index x :
  x < n ->
  nth x (conditional fuel index) 0
  = sum (weight fuel index <$> labellings_at fuel index x).
Proof.
  revert index x. induction fuel as [|fuel IH]; intros index x Hx; [by destruct x|].
  simpl. destruct (branches index) as [|e es] eqn:Hb; [csimpl; ring|].
  rewrite <- list_fmap_compose.
  rewrite (sum_ext _ (fun below =>
             product (zip_with (fun e sub =>
                 at_ (P e) x (state_of sub) * weight fuel (son e) sub) (e :: es) below)))
    by done.
  rewrite <- (product_sum_cartesian
                (fun e sub => at_ (P e) x (state_of sub) * weight fuel (son e) sub)
                (fun e => seq 0 n ≫= labellings_at fuel (son e))).
  rewrite nth_foldl_cwise_product, <- list_fmap_compose. csimpl.
  assert (forall e', nth x (apply (P e') (conditional fuel (son e'))) 0
            = sum ((fun sub => at_ (P e') x (state_of sub) * weight fuel (son e') sub)
                     <$> (seq 0 n ≫= labellings_at fuel (son e')))) as Hfwd.
  { intros e'. rewrite nth_apply_any, P_cols by (by rewrite P_rows).
    fold (labellings fuel (son e')).
    rewrite (sum_labellings (fun y sub => at_ (P e') x y * weight fuel (son e') sub)).
    apply sum_below_ext. intros y Hy. by rewrite IH, sum_scale_map. }
  rewrite Hfwd. f_equal. f_equal. apply list_fmap_ext. intros _ e' _. apply Hfwd.
Qed.

(** The likelihood a site gets from the recursion is the sum over all
    labellings of the tree. *)
Lemma pruning_is_likelihood freqs fuel index :
  length freqs = n ->
  site_likelihood freqs fuel index = tree_likelihood freqs fuel index.
Proof.
  intros Hf. unfold site_likelihood, tree_likelihood.
  rewrite dot_nth_any, Hf.
  rewrite (sum_labellings (fun y l => nth y freqs 0 * weight fuel index l)).
  apply sum_below_ext. intros x Hx. by rewrite conditional_enumerates, sum_scale_map.
Qed.

End Shaped.

End Tree.
