(* ===== verification/DataFlow.v ===== *)
(** * DataFlow: nodes, the context's cache, dependency checks, evaluation

    The node infrastructure the likelihood classes are built on.  Its source
    ([DataFlow.h]) is not among the files under src/; it is modelled from the
    specification (sections 3 and 4.1) and from the way the sources call it.

    - a node is an object on a heap; a reference is its index ([NodeId]),
      which plays the part of pointer identity; [None] is the null pointer;
    - the [Context] is a set of references, looked up by structural equality
      of the nodes they point to ([sameNode]);
    - construction-time checks ([checkDependenciesNotNull] and the others)
      throw; the exceptions are values of [Error];
    - evaluation ([computeRecursively], [getTargetValue]) is demand driven
      and calls [compute], the virtual method of the node classes, which is
      a parameter here (class [Compute]) with its contract ([ComputeLaws]). *)

From stdpp Require Import base tactics option list strings.
From S2P Require Import Prelude Values.

(** ** Node classes: the dynamic type of a node, its [typeid] *)

Inductive type_info : Type :=
| T_NumericConstant (T : ValueType)
| T_NumericMutable (T : ValueType)
| T_ConfiguredModel
| T_ConfiguredFrequenciesSet
| T_ConfiguredDistribution
| T_ConfiguredPhyloTree
| T_TransitionMatrixFromModel
| T_EquilibriumFrequenciesFromModel
| T_FrequenciesFromFrequenciesSet
| T_ForwardLikelihoodFromConditional
| T_ConditionalLikelihoodFromChildrenForward
| T_LikelihoodFromRootConditional
| T_TotalLogLikelihood
| T_CWiseNegate (T : ValueType)
| T_CondLikelihood
| T_ForwardHmmLikelihood_DF
| T_ForwardHmmDLikelihood_DF
| T_ForwardHmmD2Likelihood_DF
| T_BackwardHmmLikelihood_DF.

#[export] Instance type_info_eq_dec : EqDecision type_info.
Proof. solve_decision. Defined.

(** The [T] of the [Value<T>] each class derives from. *)
Definition valueTypeOf (t : type_info) : ValueType :=
  match t with
  | T_NumericConstant T | T_NumericMutable T | T_CWiseNegate T => T
  | T_ConfiguredModel => TModel
  | T_ConfiguredFrequenciesSet => TFrequenciesSet
  | T_ConfiguredDistribution => TDistribution
  | T_ConfiguredPhyloTree => TPhyloTree
  | T_TransitionMatrixFromModel => TMatrixXd
  | T_EquilibriumFrequenciesFromModel => TRowVectorXd
  | T_FrequenciesFromFrequenciesSet => TRowVectorXd
  | T_ForwardLikelihoodFromConditional => TMatrixXd
  | T_ConditionalLikelihoodFromChildrenForward => TMatrixXd
  | T_LikelihoodFromRootConditional => TRowVectorXd
  | T_TotalLogLikelihood => TDouble
  | T_CondLikelihood => TMatrixXd
  | T_ForwardHmmLikelihood_DF => TRowVectorXd
  | T_ForwardHmmDLikelihood_DF => TRowVectorXd
  | T_ForwardHmmD2Likelihood_DF => TRowVectorXd
  | T_BackwardHmmLikelihood_DF => TMatrixXd
  end.

Definition isNumericConstant (t : type_info) : bool :=
  match t with T_NumericConstant _ => true | _ => false end.

(** ** Errors *)

(** What a dependency is expected to be: anything (a position [create]
    does not check), some [Value<T>], or a node of a given class. *)
Inductive Expected : Type :=
| ExpectAny
| ExpectValue (T : ValueType)
| ExpectNode (t : type_info).

#[export] Instance Expected_eq_dec : EqDecision Expected.
Proof. solve_decision. Defined.

Inductive Error : Type :=
(** a dependency is the null pointer *)
| NullDependencyError (ctx : type_info) (depIndex : nat)
(** the dependency vector has not the declared size *)
| DependencyCountError (ctx : type_info) (expected given : nat)
(** a dependency is not of the declared type *)
| DependencyTypeError (ctx : type_info) (depIndex : nat)
    (expected : Expected) (given : type_info)
(** [BadSizeException (text, badSize, correctSize)] *)
| BadSizeException (text : string) (badSize correctSize : nat)
(** [Exception (text)] *)
| Exception (text : string)
(** [SequenceNotFoundException]: no sequence of that name in the sites *)
| SequenceNotFoundException (name : string)
(** [ParameterNotFoundException]: no parameter of that name *)
| ParameterNotFoundException (name : string)
(** behaviour the C++ standard leaves undefined: a reference to no object,
    an index past the end of a vector *)
| UndefinedBehaviour (what : string)
(** not an exception: the bound of a recursion of the model was reached
    before the recursion ended *)
| OutOfFuel.

#[export] Instance Error_eq_dec : EqDecision Error.
Proof. solve_decision. Defined.

(** ** References *)

Abbreviation NodeId := nat.
Abbreviation NodeRef := (option nat).

Section Graph.
Context {R : Type} `{EqDecision R, Inhabited R}.

(** ** Nodes

    The data members of [Node_DF] and [Value<T>] ([dependencyNodes_],
    [isValid_], [value_]) and those the likelihood classes add: the target
    dimension, the reference to the conditional-likelihood node a forward
    node owns ([condLik_], [dCondLik_] or [d2CondLik_] by class) and its
    work matrix ([parCondLik_] or [dParCondLik_]).  A class that has not a
    member leaves the field at its default. *)

Record Node : Type := mkNode {
  node_type : type_info;
  dependencyNodes_ : list NodeRef;
  isValid_ : bool;
  value_ : Value R;
  targetDimension_ : MatrixDimension;
  condLik_ : NodeRef;
  parCondLik_ : Matrix R;
}.

#[export] Instance Node_eq_dec : EqDecision Node.
Proof. solve_decision. Defined.

Definition set_value (v : Value R) (n : Node) : Node :=
  mkNode (node_type n) (dependencyNodes_ n) (isValid_ n) v
         (targetDimension_ n) (condLik_ n) (parCondLik_ n).

Definition set_valid (b : bool) (n : Node) : Node :=
  mkNode (node_type n) (dependencyNodes_ n) b (value_ n)
         (targetDimension_ n) (condLik_ n) (parCondLik_ n).

Definition set_condLik (c : NodeRef) (n : Node) : Node :=
  mkNode (node_type n) (dependencyNodes_ n) (isValid_ n) (value_ n)
         (targetDimension_ n) c (parCondLik_ n).

Definition set_parCondLik (m : Matrix R) (n : Node) : Node :=
  mkNode (node_type n) (dependencyNodes_ n) (isValid_ n) (value_ n)
         (targetDimension_ n) (condLik_ n) m.

(** ** The store: the heap of node objects and the context's cache *)

Record Store : Type := mkStore {
  heap : list Node;
  nodeCache_ : list NodeId;
}.

Definition empty_store : Store := mkStore [] [].

#[local] Abbreviation M := (Exc Store Error).

(** The node a reference points to. *)
Definition dereference (id : NodeId) : M Node :=
  s <- get ;;
  from_option_exc (heap s !! id) (UndefinedBehaviour "dangling reference").

(** [std::make_shared<Class>(...)]: a new object, with a new identity. *)
Definition make_shared (n : Node) : M NodeId :=
  s <- get ;;
  put (mkStore (heap s ++ [n]) (nodeCache_ s)) ;;
  ret (length (heap s)).

(** A write through a reference. *)
Definition update_node (id : NodeId) (f : Node -> Node) : M unit :=
  modify (fun s => mkStore (alter f id (heap s)) (nodeCache_ s)).

(** [accessValueConst ()]: the stored value, valid or not. *)
Definition accessValueConst (id : NodeId) : M (Value R) :=
  n <- dereference id ;; ret (value_ n).

(** ** Structural equality of nodes and the cache *)

(** [compareAdditionalArguments]: a numeric constant compares its value; the
    other classes modelled here have no additional argument and accept any
    node of their own class. *)
Definition compareAdditionalArguments (self other : Node) : bool :=
  match node_type self with
  | T_NumericConstant T =>
      bool_decide (node_type other = T_NumericConstant T)
      && bool_decide (value_ self = value_ other)
  | t => bool_decide (node_type other = t)
  end.

(** [CachedNodeRef::operator==]: same class, same dependencies (by
    identity), same additional arguments. *)
Definition sameNode (lhs rhs : Node) : bool :=
  bool_decide (node_type lhs = node_type rhs)
  && bool_decide (dependencyNodes_ lhs = dependencyNodes_ rhs)
  && compareAdditionalArguments lhs rhs.

(** The key under which the cache knows a node. *)
Definition node_key (n : Node) : type_info * list NodeRef * option (Value R) :=
  (node_type n, dependencyNodes_ n,
   if isNumericConstant (node_type n) then Some (value_ n) else None).

(** Whether the cached reference [c] points to a node equal to [n]. *)
Definition matches (hp : list Node) (n : Node) (c : NodeId) : bool :=
  match hp !! c with Some m => sameNode m n | None => false end.

(** The first cached reference that matches, if any. *)
Definition cache_find (s : Store) (n : Node) : option NodeId :=
  snd <$> list_find (fun c => Is_true (matches (heap s) n c)) (nodeCache_ s).

(** [Context::cached (newNode)]: the equal node already in the cache, or
    [newNode] itself after it has been inserted. *)
Definition cached (newNode : NodeId) : M NodeId :=
  n <- dereference newNode ;;
  s <- get ;;
  match cache_find s n with
  | Some c => ret c
  | None => put (mkStore (heap s) (nodeCache_ s ++ [newNode])) ;; ret newNode
  end.

(** [convertRef<Value<T>>]: the checked downcast of a reference. *)
Definition convertRef (T : ValueType) (r : NodeId) : M NodeId :=
  n <- dereference r ;;
  throw_unless (bool_decide (valueTypeOf (node_type n) = T))
    (Exception "node conversion") ;;
  ret r.

(** [cachedAs<Value<T>> (c, newNode)]. *)
Definition cachedAs (T : ValueType) (newNode : NodeId) : M NodeId :=
  r <- cached newNode ;; convertRef T r.

(** ** Checks on a dependency vector *)

Definition checkDependenciesNotNull (ctx : type_info) (deps : list NodeRef) : M unit :=
  match list_find (fun d : NodeRef => d = None) deps with
  | Some (i, _) => throw (NullDependencyError ctx i)
  | None => ret tt
  end.

Definition checkDependencyVectorSize (ctx : type_info) (deps : list NodeRef)
    (expectedSize : nat) : M unit :=
  throw_unless (bool_decide (length deps = expectedSize))
    (DependencyCountError ctx expectedSize (length deps)).

(** The node behind [deps[index]]; reading past the end or through a null
    pointer is undefined in C++. *)
Definition nthDependency (deps : list NodeRef) (index : nat) : M Node :=
  match deps !! index with
  | Some (Some d) => dereference d
  | _ => throw (UndefinedBehaviour "dependency index")
  end.

Definition checkNthDependencyIsValue (T : ValueType) (ctx : type_info)
    (deps : list NodeRef) (index : nat) : M unit :=
  n <- nthDependency deps index ;;
  throw_unless (bool_decide (valueTypeOf (node_type n) = T))
    (DependencyTypeError ctx index (ExpectValue T) (node_type n)).

Definition checkNthDependencyIs (t : type_info) (ctx : type_info)
    (deps : list NodeRef) (index : nat) : M unit :=
  n <- nthDependency deps index ;;
  throw_unless (bool_decide (node_type n = t))
    (DependencyTypeError ctx index (ExpectNode t) (node_type n)).

(** *** The signature of a class

    The checks with which a [create] begins, as one list: what is expected
    at each position.  [checked ctx sig deps k] runs the null check, the
    size check and the check of each position that expects something, in
    this order, then [k]. *)

Definition checkExpected (e : Expected) (ctx : type_info) (deps : list NodeRef)
    (index : nat) : M unit :=
  match e with
  | ExpectAny => ret tt
  | ExpectValue T => checkNthDependencyIsValue T ctx deps index
  | ExpectNode t => checkNthDependencyIs t ctx deps index
  end.

Fixpoint checkPositions {A} (ctx : type_info) (sig : list Expected)
    (deps : list NodeRef) (index : nat) (k : M A) : M A :=
  match sig with
  | [] => k
  | ExpectAny :: sig' => checkPositions ctx sig' deps (S index) k
  | e :: sig' =>
      checkExpected e ctx deps index ;; checkPositions ctx sig' deps (S index) k
  end.

Definition checked {A} (ctx : type_info) (sig : list Expected)
    (deps : list NodeRef) (k : M A) : M A :=
  checkDependenciesNotNull ctx deps ;;
  checkDependencyVectorSize ctx deps (length sig) ;;
  checkPositions ctx sig deps 0 k.

(** The same checks as a function of the store: the exception the checks
    throw, if any. *)
Definition expected_error (e : Expected) (ctx : type_info) (deps : list NodeRef)
    (index : nat) (s : Store) : option Error :=
  match e with
  | ExpectAny => None
  | ExpectValue T =>
      match deps !! index with
      | Some (Some d) =>
          match heap s !! d with
          | Some n =>
              if bool_decide (valueTypeOf (node_type n) = T) then None
              else Some (DependencyTypeError ctx index (ExpectValue T) (node_type n))
          | None => Some (UndefinedBehaviour "dangling reference")
          end
      | _ => Some (UndefinedBehaviour "dependency index")
      end
  | ExpectNode t =>
      match deps !! index with
      | Some (Some d) =>
          match heap s !! d with
          | Some n =>
              if bool_decide (node_type n = t) then None
              else Some (DependencyTypeError ctx index (ExpectNode t) (node_type n))
          | None => Some (UndefinedBehaviour "dangling reference")
          end
      | _ => Some (UndefinedBehaviour "dependency index")
      end
  end.

Fixpoint position_error (ctx : type_info) (sig : list Expected)
    (deps : list NodeRef) (index : nat) (s : Store) : option Error :=
  match sig with
  | [] => None
  | e :: sig' =>
      match expected_error e ctx deps index s with
      | Some err => Some err
      | None => position_error ctx sig' deps (S index) s
      end
  end.

Definition signature_error (ctx : type_info) (sig : list Expected)
    (deps : list NodeRef) (s : Store) : option Error :=
  match list_find (fun d : NodeRef => d = None) deps with
  | Some (i, _) => Some (NullDependencyError ctx i)
  | None =>
      if bool_decide (length deps = length sig)
      then position_error ctx sig deps 0 s
      else Some (DependencyCountError ctx (length sig) (length deps))
  end.

End Graph.

Arguments Node R : clear implicits.
Arguments Store R : clear implicits.

(** The monad of graph construction: the state is the store, the
    exceptions are [Error]s. *)
Abbreviation M R := (Exc (Store R) Error).

(** ** Evaluation

    [compute] is the virtual method: given the identity of the node to
    compute and the store (its dependencies are valid there), the store
    with the node's value written.  A forward HMM node also writes the value
    of the conditional-likelihood node it owns, which is why [compute]
    works on the store and not on one node. *)

Class Compute (R : Type) : Type := compute : NodeId -> Store R -> Store R.

Section Evaluation.
Context {R : Type} `{EqDecision R, Inhabited R, Compute R}.

Definition store_update (id : NodeId) (f : Node R -> Node R) (s : Store R) : Store R :=
  mkStore (alter f id (heap s)) (nodeCache_ s).

(** [Node_DF::computeRecursively]: nothing to do for a valid node;
    otherwise the dependencies first, then the node itself, which becomes
    valid.  The recursion is on the depth of the graph; [fuel] bounds it. *)
Fixpoint computeRecursively (fuel : nat) (id : NodeId) (s : Store R) : Store R :=
  match fuel with
  | 0 => s
  | S fuel' =>
      match heap s !! id with
      | None => s
      | Some n =>
          if isValid_ n then s
          else
            let s1 :=
              foldl (fun acc d =>
                       match d with
                       | Some i => computeRecursively fuel' i acc
                       | None => acc
                       end) s (dependencyNodes_ n) in
            store_update id (set_valid true) (compute id s1)
      end
  end.

(** [Value<T>::getTargetValue ()]: evaluate, then read.  A graph of [n]
    nodes has depth at most [n], so the number of nodes is fuel enough. *)
Definition getTargetValue (id : NodeId) : M R (Value R) :=
  modify (fun s => computeRecursively (length (heap s)) id s) ;;
  accessValueConst id.

(** The reference [self->dependency (i)] as a reference to a [Value<T>]
    ([dynamic_pointer_cast]); using a null result is undefined. *)
Definition dependencyAs (T : ValueType) (self : Node R) (i : nat) : M R NodeId :=
  match dependencyNodes_ self !! i with
  | Some (Some d) =>
      m <- dereference d ;;
      throw_unless (bool_decide (valueTypeOf (node_type m) = T))
        (UndefinedBehaviour "null pointer") ;;
      ret d
  | _ => throw (UndefinedBehaviour "dependency index")
  end.

(** [dynamic_pointer_cast<Value<T>> (dependency (i))->getTargetValue ()] *)
Definition dependencyTargetValue (T : ValueType) (self : Node R) (i : nat)
    : M R (Value R) :=
  d <- dependencyAs T self i ;; getTargetValue d.

(** [accessValueConstCast<T> ( *dependency (i))]: no evaluation. *)
Definition dependencyValueConstCast (T : ValueType) (self : Node R) (i : nat)
    : M R (Value R) :=
  d <- dependencyAs T self i ;; accessValueConst d.

End Evaluation.

(** ** Numeric constants

    [NumericConstant<T>::create (c, value)]: a leaf without dependencies,
    valid from construction, cached by value. *)

Module NumericConstant.
Section WithScalar.
Context {R : Type} `{EqDecision R, Inhabited R}.

Definition construct (T : ValueType) (value : Value R) : Node R :=
  mkNode (T_NumericConstant T) [] true value (mkDim 0 0) None empty_matrix.

Definition create (T : ValueType) (value : Value R) : M R NodeId :=
  self <- make_shared (construct T value) ;;
  cachedAs T self.

End WithScalar.
End NumericConstant.

(** ** Relations between stores and the well-formedness invariant *)

Section Invariant.
Context {R : Type} `{EqDecision R, Inhabited R}.
Implicit Types (s : Store R) (n : Node R) (id c : NodeId).

(** What construction and evaluation never change of a node once it
    exists: what the cache compares, and its target dimension. *)
Definition node_frame n n' : Prop :=
  node_key n' = node_key n /\ targetDimension_ n' = targetDimension_ n.

(** [extends s s']: every node of [s] is still there in [s'], with the same
    key and dimension, and the cache of [s] is a prefix of that of [s']. *)
Definition extends s s' : Prop :=
  (forall id n, heap s !! id = Some n ->
     exists n', heap s' !! id = Some n' /\ node_frame n n')
  /\ nodeCache_ s `prefix_of` nodeCache_ s'.

(** [frame s s']: the same objects and the same cache; only values,
    validity flags and work matrices may differ. *)
Definition frame s s' : Prop :=
  length (heap s') = length (heap s)
  /\ nodeCache_ s' = nodeCache_ s
  /\ (forall id n, heap s !! id = Some n ->
        exists n', heap s' !! id = Some n' /\ node_frame n n'
                   /\ condLik_ n' = condLik_ n).

(** The keys of the cached nodes, in cache order. *)
Definition cache_keys s : list (type_info * list NodeRef * option (Value R)) :=
  omap (fun c => node_key <$> heap s !! c) (nodeCache_ s).

Record wf_store s : Prop := {
  (** a dependency is an older object: the graph is acyclic *)
  wf_deps : forall id n d,
    heap s !! id = Some n -> Some d ∈ dependencyNodes_ n -> d < id;
  (** an owned conditional-likelihood node exists *)
  wf_condLik : forall id n c,
    heap s !! id = Some n -> condLik_ n = Some c -> c < length (heap s);
  (** a cached reference points to an object *)
  wf_cache : forall c, c ∈ nodeCache_ s -> c < length (heap s);
  (** at most one cached node per key *)
  wf_unique : NoDup (cache_keys s);
}.

End Invariant.

(** The contract of [compute]: it is a function of the store that changes
    neither the objects' identities and keys nor the cache. *)
Class ComputeLaws (R : Type) `{EqDecision R, Inhabited R, Compute R} : Prop := {
  compute_frame : forall id (s : Store R), frame s (compute id s);
  compute_flags : forall id (s : Store R) i n,
    heap s !! i = Some n ->
    exists n', heap (compute id s) !! i = Some n' /\ isValid_ n' = isValid_ n;
}.

(** The evaluator that computes nothing: every value stays as stored.  It
    satisfies the contract and is the one used to run the construction of a
    graph over constant leaves. *)
Definition compute_nothing {R} : Compute R := fun _ s => s.

(** ** Structural equality is equality of keys *)

Section Keys.
Context {R : Type} `{EqDecision R, Inhabited R}.
Implicit Types (s : Store R) (n m : Node R) (id c : NodeId).

Lemma sameNode_key n m : sameNode n m = true <-> node_key n = node_key m.
Proof.
  unfold sameNode, compareAdditionalArguments, node_key.
  destruct n as [t deps v val dim cl pcl], m as [t' deps' v' val' dim' cl' pcl'];
    simpl.
  destruct t; simpl;
    rewrite ?andb_true_iff, ?bool_decide_eq_true;
    (split; [intros; destruct_and?; simplify_eq/=; done
            |intros; simplify_eq/=; done]).
Qed.

Lemma sameNode_refl n : sameNode n n = true.
Proof. by apply sameNode_key. Qed.

Lemma sameNode_sym n m : sameNode n m = sameNode m n.
Proof.
  apply eq_true_iff_eq. rewrite !sameNode_key. split; congruence.
Qed.

Lemma sameNode_trans n m k :
  sameNode n m = true -> sameNode m k = true -> sameNode n k = true.
Proof. rewrite !sameNode_key. congruence. Qed.

Lemma sameNode_type n m : sameNode n m = true -> node_type n = node_type m.
Proof. rewrite sameNode_key. unfold node_key. congruence. Qed.

Lemma sameNode_deps n m :
  sameNode n m = true -> dependencyNodes_ n = dependencyNodes_ m.
Proof. rewrite sameNode_key. unfold node_key. congruence. Qed.

Lemma node_key_type n m : node_key n = node_key m -> node_type n = node_type m.
Proof. unfold node_key. congruence. Qed.

Lemma node_key_deps n m :
  node_key n = node_key m -> dependencyNodes_ n = dependencyNodes_ m.
Proof. unfold node_key. congruence. Qed.

Lemma node_key_set_valid b n : node_key (set_valid b n) = node_key n.
Proof. reflexivity. Qed.

Lemma node_key_set_condLik (r : NodeRef) n :
  node_key (set_condLik r n) = node_key n.
Proof. reflexivity. Qed.

Lemma node_key_set_parCondLik (w : Matrix R) n :
  node_key (set_parCondLik w n) = node_key n.
Proof. reflexivity. Qed.

Lemma node_key_set_value v n :
  isNumericConstant (node_type n) = false -> node_key (set_value v n) = node_key n.
Proof. unfold node_key; simpl. by intros ->. Qed.

(** *** Looking a node up in the cache *)

Lemma cache_find_Some s n c :
  cache_find s n = Some c ->
  c ∈ nodeCache_ s /\ exists m, heap s !! c = Some m /\ sameNode m n = true.
Proof.
  unfold cache_find. destruct (list_find _ _) as [[i c']|] eqn:Hf; [|done].
  intros [= ->]. apply list_find_Some in Hf as (Hi & Hm & _).
  split; [by eapply list_elem_of_lookup_2|].
  unfold matches in Hm. destruct (heap s !! c) as [m|]; [|done].
  exists m. split; [done|]. by apply Is_true_true.
Qed.

Lemma cache_find_None s n :
  cache_find s n = None <->
  forall c m, c ∈ nodeCache_ s -> heap s !! c = Some m -> sameNode m n = false.
Proof.
  unfold cache_find. rewrite fmap_None, list_find_None, Forall_forall.
  unfold matches. split.
  - intros Hall c m Hc Hm. specialize (Hall c Hc). rewrite Hm in Hall.
    destruct (sameNode m n); [by destruct Hall|done].
  - intros Hall c Hc Hx. destruct (heap s !! c) as [m|] eqn:Hm; [|done].
    by rewrite (Hall c m Hc Hm) in Hx.
Qed.

(** A node whose key is not among the cached keys is not found. *)
Lemma cache_find_None_key s n :
  cache_find s n = None <-> node_key n ∉ cache_keys s.
Proof.
  rewrite cache_find_None. unfold cache_keys. rewrite list_elem_of_omap. split.
  - intros Hall (c & Hc & Hk). destruct (heap s !! c) as [m|] eqn:Hm; [|done].
    simpl in Hk. assert (node_key m = node_key n) as Hk' by congruence.
    specialize (Hall c m Hc Hm). apply not_true_iff_false in Hall.
    by apply Hall, sameNode_key.
  - intros Hnot c m Hc Hm. apply not_true_iff_false. intros Hsame.
    apply Hnot. exists c. split; [done|]. rewrite Hm. simpl.
    f_equal. by apply sameNode_key.
Qed.

End Keys.

(** ** How the primitives run *)

Section Runs.
Context {R : Type} `{EqDecision R, Inhabited R}.
Implicit Types (s : Store R) (n m : Node R) (id c : NodeId) (deps : list NodeRef).

Lemma dereference_Some id n s :
  heap s !! id = Some n -> dereference id s = (Ok n, s).
Proof. intros Hn. unfold dereference, bind, get. by rewrite Hn. Qed.

Lemma dereference_None id s :
  heap s !! id = None ->
  dereference id s = (Err (UndefinedBehaviour "dangling reference"), s).
Proof. intros Hn. unfold dereference, bind, get. by rewrite Hn. Qed.

Lemma readonly_dereference id : readonly (dereference (R:=R) id).
Proof. intros s. unfold dereference, final, bind, get. by destruct (heap s !! id). Qed.

Lemma make_shared_run n s :
  make_shared n s = (Ok (length (heap s)), mkStore (heap s ++ [n]) (nodeCache_ s)).
Proof. reflexivity. Qed.

Lemma accessValueConst_run id n s :
  heap s !! id = Some n -> accessValueConst id s = (Ok (value_ n), s).
Proof. intros Hn. unfold accessValueConst. by rewrite (bind_ok _ _ _ _ _ (dereference_Some _ _ _ Hn)). Qed.

Lemma readonly_accessValueConst id : readonly (accessValueConst (R:=R) id).
Proof. unfold accessValueConst. apply readonly_bind; [apply readonly_dereference|]. intros; apply readonly_ret. Qed.

(** *** The cache *)

Lemma cached_run id n s :
  heap s !! id = Some n ->
  cached id s =
    match cache_find s n with
    | Some c => (Ok c, s)
    | None => (Ok id, mkStore (heap s) (nodeCache_ s ++ [id]))
    end.
Proof.
  intros Hn. unfold cached.
  rewrite (bind_ok _ _ _ _ _ (dereference_Some _ _ _ Hn)).
  unfold bind at 1, get. by destruct (cache_find s n).
Qed.

Lemma cached_dangling id s :
  heap s !! id = None ->
  cached id s = (Err (UndefinedBehaviour "dangling reference"), s).
Proof.
  intros Hn. unfold cached. by rewrite (bind_err _ _ _ _ _ (dereference_None _ _ Hn)).
Qed.

Lemma convertRef_run T id n s :
  heap s !! id = Some n ->
  convertRef T id s =
    if bool_decide (valueTypeOf (node_type n) = T) then (Ok id, s)
    else (Err (Exception "node conversion"), s).
Proof.
  intros Hn. unfold convertRef.
  rewrite (bind_ok _ _ _ _ _ (dereference_Some _ _ _ Hn)).
  by destruct (bool_decide _).
Qed.

Lemma readonly_convertRef T id : readonly (convertRef (R:=R) T id).
Proof.
  unfold convertRef. apply readonly_bind; [apply readonly_dereference|intros n].
  apply readonly_bind; [apply readonly_throw_unless|intros; apply readonly_ret].
Qed.

(** The downcast of [cachedAs] cannot fail when the node submitted has the
    type asked for: the node found in its place has the same class. *)
Lemma cachedAs_run T id n s :
  heap s !! id = Some n -> valueTypeOf (node_type n) = T ->
  cachedAs T id s = cached id s.
Proof.
  intros Hn HT. unfold cachedAs. rewrite (cached_run _ _ _ Hn).
  destruct (cache_find s n) as [c|] eqn:Hf.
  - destruct (cache_find_Some _ _ _ Hf) as (_ & m & Hm & Hsame).
    erewrite bind_ok by (rewrite (cached_run _ _ _ Hn), Hf; done).
    rewrite (convertRef_run _ _ _ _ Hm), (sameNode_type _ _ Hsame), HT.
    by rewrite bool_decide_eq_true_2.
  - erewrite bind_ok by (rewrite (cached_run _ _ _ Hn), Hf; done).
    rewrite (convertRef_run _ _ n) by done.
    by rewrite bool_decide_eq_true_2.
Qed.

(** *** The dependency checks *)

Lemma checkDependenciesNotNull_ok ctx deps s :
  Forall is_Some deps -> checkDependenciesNotNull ctx deps s = (Ok tt, s).
Proof.
  intros Hall. unfold checkDependenciesNotNull.
  destruct (list_find _ deps) as [[i d]|] eqn:Hf; [|done].
  apply list_find_Some in Hf as (Hi & -> & _).
  rewrite Forall_lookup in Hall. by destruct (Hall i None Hi).
Qed.

(** The index reported is that of the first null dependency. *)
Lemma checkDependenciesNotNull_null ctx deps i s :
  deps !! i = Some None -> Forall is_Some (take i deps) ->
  checkDependenciesNotNull ctx deps s = (Err (NullDependencyError ctx i), s).
Proof.
  intros Hi Hbefore. unfold checkDependenciesNotNull.
  destruct (list_find _ deps) as [[j d]|] eqn:Hf.
  - apply list_find_Some in Hf as (Hj & -> & Hmin).
    destruct (decide (j = i)) as [->|Hne]; [done|].
    destruct (decide (j < i)).
    + rewrite Forall_lookup in Hbefore.
      destruct (Hbefore j None); [|done]. by rewrite lookup_take_lt.
    + destruct (Hmin i None); [done|lia|done].
  - apply list_find_None in Hf. rewrite Forall_lookup in Hf.
    by destruct (Hf i None Hi).
Qed.

Lemma checkDependenciesNotNull_inv ctx deps s r s' :
  checkDependenciesNotNull ctx deps s = (r, s') ->
  s' = s /\ (r = Ok tt /\ Forall is_Some deps
             \/ exists i, r = Err (NullDependencyError ctx i)
                          /\ deps !! i = Some None).
Proof.
  unfold checkDependenciesNotNull.
  destruct (list_find _ deps) as [[j d]|] eqn:Hf; intros [= <- <-]; split; auto.
  - right. exists j. apply list_find_Some in Hf as (Hj & -> & _). auto.
  - left. split; [done|]. apply list_find_None in Hf.
    eapply Forall_impl; [done|]. intros [d|]; simpl; [eauto|done].
Qed.

Lemma checkDependencyVectorSize_run ctx deps k s :
  checkDependencyVectorSize ctx deps k s =
    if bool_decide (length deps = k) then (Ok tt, s)
    else (Err (DependencyCountError ctx k (length deps)), s).
Proof. unfold checkDependencyVectorSize. by destruct (bool_decide _). Qed.

Lemma nthDependency_run deps i d n s :
  deps !! i = Some (Some d) -> heap s !! d = Some n ->
  nthDependency deps i s = (Ok n, s).
Proof. intros Hi Hd. unfold nthDependency. rewrite Hi. by apply dereference_Some. Qed.

Lemma checkNthDependencyIsValue_run T ctx deps i d n s :
  deps !! i = Some (Some d) -> heap s !! d = Some n ->
  checkNthDependencyIsValue T ctx deps i s =
    if bool_decide (valueTypeOf (node_type n) = T) then (Ok tt, s)
    else (Err (DependencyTypeError ctx i (ExpectValue T) (node_type n)), s).
Proof.
  intros Hi Hd. unfold checkNthDependencyIsValue.
  rewrite (bind_ok _ _ _ _ _ (nthDependency_run _ _ _ _ _ Hi Hd)).
  by destruct (bool_decide _).
Qed.

Lemma checkNthDependencyIs_run t ctx deps i d n s :
  deps !! i = Some (Some d) -> heap s !! d = Some n ->
  checkNthDependencyIs t ctx deps i s =
    if bool_decide (node_type n = t) then (Ok tt, s)
    else (Err (DependencyTypeError ctx i (ExpectNode t) (node_type n)), s).
Proof.
  intros Hi Hd. unfold checkNthDependencyIs.
  rewrite (bind_ok _ _ _ _ _ (nthDependency_run _ _ _ _ _ Hi Hd)).
  by destruct (bool_decide _).
Qed.

Lemma readonly_checkDependenciesNotNull ctx deps :
  readonly (checkDependenciesNotNull (R:=R) ctx deps).
Proof.
  intros s. unfold checkDependenciesNotNull.
  by destruct (list_find _ deps) as [[??]|].
Qed.

Lemma readonly_checkDependencyVectorSize ctx deps k :
  readonly (checkDependencyVectorSize (R:=R) ctx deps k).
Proof. apply readonly_throw_unless. Qed.

Lemma readonly_nthDependency deps i : readonly (nthDependency (R:=R) deps i).
Proof.
  unfold nthDependency. destruct (deps !! i) as [[d|]|];
    auto using readonly_dereference, readonly_throw.
Qed.

Lemma readonly_checkNthDependencyIsValue T ctx deps i :
  readonly (checkNthDependencyIsValue (R:=R) T ctx deps i).
Proof.
  unfold checkNthDependencyIsValue.
  apply readonly_bind; [apply readonly_nthDependency|intros; apply readonly_throw_unless].
Qed.

Lemma readonly_checkNthDependencyIs t ctx deps i :
  readonly (checkNthDependencyIs (R:=R) t ctx deps i).
Proof.
  unfold checkNthDependencyIs.
  apply readonly_bind; [apply readonly_nthDependency|intros; apply readonly_throw_unless].
Qed.

End Runs.

#[export] Hint Resolve readonly_dereference readonly_accessValueConst
  readonly_convertRef readonly_checkDependenciesNotNull
  readonly_checkDependencyVectorSize readonly_nthDependency
  readonly_checkNthDependencyIsValue readonly_checkNthDependencyIs : exc.

(** ** The store only grows *)

Section Relations.
Context {R : Type} `{EqDecision R, Inhabited R}.
Implicit Types (s : Store R) (n m : Node R) (id c : NodeId) (deps : list NodeRef).

Lemma node_frame_refl n : node_frame n n.
Proof. by split. Qed.

Lemma node_frame_trans n1 n2 n3 :
  node_frame n1 n2 -> node_frame n2 n3 -> node_frame n1 n3.
Proof. intros [??] [??]. split; congruence. Qed.

#[export] Instance extends_preorder : PreOrder (extends (R:=R)).
Proof.
  split.
  - intros s. split; [|done]. intros id n Hn. exists n. auto using node_frame_refl.
  - intros s1 s2 s3 [H12 P12] [H23 P23]. split; [|by etrans].
    intros id n Hn. destruct (H12 _ _ Hn) as (n2 & Hn2 & F12).
    destruct (H23 _ _ Hn2) as (n3 & Hn3 & F23).
    exists n3. eauto using node_frame_trans.
Qed.

#[export] Instance frame_preorder : PreOrder (frame (R:=R)).
Proof.
  split.
  - intros s. split_and!; [done..|]. intros id n Hn. exists n.
    auto using node_frame_refl.
  - intros s1 s2 s3 (L12 & C12 & H12) (L23 & C23 & H23).
    split_and!; [congruence..|].
    intros id n Hn. destruct (H12 _ _ Hn) as (n2 & Hn2 & F12 & ?).
    destruct (H23 _ _ Hn2) as (n3 & Hn3 & F23 & ?).
    exists n3. split_and!; [done|by eapply node_frame_trans|congruence].
Qed.

Lemma frame_extends s s' : frame s s' -> extends s s'.
Proof.
  intros (_ & HC & Hn). split; [|by rewrite HC].
  intros id n Hid. destruct (Hn _ _ Hid) as (n' & ? & ? & _). eauto.
Qed.

Lemma extends_length s s' : extends s s' -> length (heap s) <= length (heap s').
Proof.
  intros [Hn _].
  destruct (decide (length (heap s) <= length (heap s'))) as [|Hgt]; [done|].
  destruct (lookup_lt_is_Some_2 (heap s) (length (heap s'))) as [n Hl]; [lia|].
  destruct (Hn _ _ Hl) as (n' & Hn' & _).
  apply lookup_lt_Some in Hn'. lia.
Qed.

Lemma extends_lookup s s' id n :
  extends s s' -> heap s !! id = Some n ->
  exists n', heap s' !! id = Some n' /\ node_type n' = node_type n
             /\ dependencyNodes_ n' = dependencyNodes_ n
             /\ targetDimension_ n' = targetDimension_ n.
Proof.
  intros [Hn _] Hid. destruct (Hn _ _ Hid) as (n' & Hn' & Hk & Hd).
  exists n'. unfold node_key in Hk. by simplify_eq.
Qed.

Lemma extends_cache s s' c : extends s s' -> c ∈ nodeCache_ s -> c ∈ nodeCache_ s'.
Proof. intros [_ Hp] Hc. by eapply elem_of_prefix. Qed.

(** [valid_refs s deps]: the references of [deps] point to objects of [s]. *)
Definition valid_refs s deps : Prop :=
  forall d, Some d ∈ deps -> d < length (heap s).

Lemma valid_refs_extends s s' deps :
  extends s s' -> valid_refs s deps -> valid_refs s' deps.
Proof.
  intros He Hv d Hd. specialize (Hv d Hd). apply extends_length in He. lia.
Qed.

Lemma extends_alloc s n :
  extends s (mkStore (heap s ++ [n]) (nodeCache_ s)).
Proof.
  split; [|done]. intros id m Hm. exists m. split; [|apply node_frame_refl].
  simpl. rewrite lookup_app_l; [done|by eapply lookup_lt_Some].
Qed.

Lemma extends_push s id :
  extends s (mkStore (heap s) (nodeCache_ s ++ [id])).
Proof.
  split; [|by apply prefix_app_r]. intros i m Hm. exists m.
  auto using node_frame_refl.
Qed.

Lemma frame_store_update s id f :
  (forall n, node_key (f n) = node_key n
             /\ targetDimension_ (f n) = targetDimension_ n
             /\ condLik_ (f n) = condLik_ n) ->
  frame s (store_update id f s).
Proof.
  intros Hf. split_and!; simpl; [by rewrite length_alter|done|].
  intros i n Hn. destruct (decide (id = i)) as [->|Hne].
  - rewrite list_lookup_alter_eq, Hn. simpl. exists (f n).
    destruct (Hf n) as (? & ? & ?). by repeat split.
  - rewrite list_lookup_alter_ne by done. exists n. auto using node_frame_refl.
Qed.

Lemma extends_store_update s id f :
  (forall n, node_frame n (f n)) -> extends s (store_update id f s).
Proof.
  intros Hf. split; [|done]. intros i n Hn. simpl.
  destruct (decide (id = i)) as [->|Hne].
  - rewrite list_lookup_alter_eq, Hn. simpl. eauto.
  - rewrite list_lookup_alter_ne by done. eauto using node_frame_refl.
Qed.

Lemma always_extends_make_shared n : always extends (make_shared n).
Proof. intros s. apply extends_alloc. Qed.

Lemma always_extends_cached id : always extends (cached (R:=R) id).
Proof.
  intros s. unfold final. destruct (heap s !! id) as [n|] eqn:Hn.
  - rewrite (cached_run _ _ _ Hn). destruct (cache_find s n); simpl; [done|].
    apply extends_push.
  - by rewrite (cached_dangling _ _ Hn).
Qed.

Lemma always_extends_cachedAs T id : always extends (cachedAs (R:=R) T id).
Proof.
  unfold cachedAs. apply always_bind; [apply _|apply always_extends_cached|].
  intros r. apply readonly_always; [apply _|apply readonly_convertRef].
Qed.

Lemma always_extends_update_node id f :
  (forall n, node_frame n (f n)) -> always extends (update_node (R:=R) id f).
Proof. intros Hf s. by apply extends_store_update. Qed.

End Relations.

#[export] Hint Resolve always_extends_make_shared always_extends_cached
  always_extends_cachedAs : exc.

(** ** The invariant of the store *)

Section WellFormed.
Context {R : Type} `{EqDecision R, Inhabited R}.
Implicit Types (s : Store R) (n m : Node R) (id c : NodeId) (deps : list NodeRef).

Lemma cache_keys_ext s s' :
  nodeCache_ s' = nodeCache_ s ->
  (forall c, c ∈ nodeCache_ s ->
     node_key <$> heap s' !! c = node_key <$> heap s !! c) ->
  cache_keys s' = cache_keys s.
Proof.
  intros HC Hk. unfold cache_keys. rewrite HC.
  apply list_omap_ext, Forall_Forall2_diag, Forall_forall. exact Hk.
Qed.

Lemma cache_keys_push s id n :
  heap s !! id = Some n ->
  cache_keys (mkStore (heap s) (nodeCache_ s ++ [id])) = cache_keys s ++ [node_key n].
Proof. intros Hn. unfold cache_keys; simpl. by rewrite omap_app; simpl; rewrite Hn. Qed.

Lemma wf_empty : wf_store (empty_store (R:=R)).
Proof.
  split; simpl; [intros ??? [=]..| |constructor].
  intros c Hc. by apply elem_of_nil in Hc.
Qed.

Lemma wf_alloc s n :
  wf_store s -> valid_refs s (dependencyNodes_ n) ->
  (forall c, condLik_ n = Some c -> c <= length (heap s)) ->
  wf_store (mkStore (heap s ++ [n]) (nodeCache_ s)).
Proof.
  intros [Hd Hc Hk Hu] Hdeps Hcl. split; simpl.
  - intros id m d [Hm|[-> ->]]%lookup_snoc_Some Hin; eauto.
  - intros id m c [Hm|[-> ->]]%lookup_snoc_Some Hm';
      rewrite length_app; simpl; [|specialize (Hcl _ Hm'); lia].
    specialize (Hc _ _ _ Hm Hm'). lia.
  - intros c Hin. rewrite length_app. specialize (Hk c Hin). lia.
  - erewrite cache_keys_ext; [done..|]. intros c Hin; simpl.
    by rewrite lookup_app_l by auto.
Qed.

Lemma wf_push s id n :
  wf_store s -> heap s !! id = Some n -> cache_find s n = None ->
  wf_store (mkStore (heap s) (nodeCache_ s ++ [id])).
Proof.
  intros [Hd Hc Hk Hu] Hn Hf. split; simpl; [done..| |].
  - intros c [Hin| ->%list_elem_of_singleton]%elem_of_app; [auto|].
    by eapply lookup_lt_Some.
  - rewrite (cache_keys_push _ _ _ Hn). apply NoDup_app. split_and!; [done| |].
    + intros k Hk1 ->%list_elem_of_singleton.
      by apply cache_find_None_key in Hf.
    + apply NoDup_singleton.
Qed.

(** A node of the later store of a [frame] is a node of the earlier one. *)
Lemma frame_lookup_back s s' id n' :
  frame s s' -> heap s' !! id = Some n' ->
  exists n, heap s !! id = Some n /\ node_frame n n' /\ condLik_ n' = condLik_ n.
Proof.
  intros (HL & HC & Hn) Hn'. destruct (lookup_lt_is_Some_2 (heap s) id) as [n Hid].
  { apply lookup_lt_Some in Hn'. lia. }
  destruct (Hn _ _ Hid) as (n2 & ? & ? & ?). exists n. by simplify_eq.
Qed.

Lemma wf_frame s s' : frame s s' -> wf_store s -> wf_store s'.
Proof.
  intros Hf [Hd Hc Hk Hu]. pose proof (fun id n' => frame_lookup_back s s' id n' Hf) as Hback.
  destruct Hf as (HL & HC & Hn).
  split.
  - intros id n' d Hn' Hin. destruct (Hback _ _ Hn') as (n & Hid & [Hkey _] & _).
    apply (Hd id n d Hid). by rewrite <- (node_key_deps _ _ Hkey).
  - intros id n' c Hn' Hcl. destruct (Hback _ _ Hn') as (n & Hid & _ & Hcl').
    rewrite HL. apply (Hc id n c Hid). congruence.
  - intros c Hin. rewrite HL. apply Hk. by rewrite <- HC.
  - erewrite cache_keys_ext; [done..|]. intros c Hin.
    destruct (heap s !! c) as [n|] eqn:Hid.
    + destruct (Hn _ _ Hid) as (n' & Hn' & [Hk' _] & _).
      rewrite Hn'. simpl. by rewrite Hk'.
    + apply lookup_ge_None in Hid. rewrite lookup_ge_None_2; [done|lia].
Qed.

(** Recording the owned conditional-likelihood node in a forward node. *)
Lemma wf_set_condLik s id c :
  wf_store s -> c < length (heap s) ->
  wf_store (store_update id (set_condLik (Some c)) s).
Proof.
  intros [Hd Hc Hk Hu] Hlt. split; simpl.
  - intros i n d Hn Hin. destruct (decide (id = i)) as [->|Hne].
    + rewrite list_lookup_alter_eq in Hn.
      destruct (heap s !! i) as [m|] eqn:Hm; simplify_eq/=. eauto.
    + rewrite list_lookup_alter_ne in Hn by done. eauto.
  - intros i n c' Hn Hcl. rewrite length_alter.
    destruct (decide (id = i)) as [->|Hne].
    + rewrite list_lookup_alter_eq in Hn.
      destruct (heap s !! i) as [m|] eqn:Hm; simplify_eq/=. done.
    + rewrite list_lookup_alter_ne in Hn by done. eauto.
  - intros c' Hin. rewrite length_alter. auto.
  - erewrite cache_keys_ext; [done..|]. intros c' Hin; simpl.
    destruct (decide (id = c')) as [->|Hne].
    + rewrite list_lookup_alter_eq. by destruct (heap s !! c').
    + by rewrite list_lookup_alter_ne.
Qed.

Lemma preserves_wf_cached id : preserves wf_store (cached (R:=R) id).
Proof.
  intros s Hwf. unfold final. destruct (heap s !! id) as [n|] eqn:Hn.
  - rewrite (cached_run _ _ _ Hn). destruct (cache_find s n) eqn:Hf; simpl; [done|].
    by eapply wf_push.
  - by rewrite (cached_dangling _ _ Hn).
Qed.

Lemma preserves_wf_cachedAs T id : preserves wf_store (cachedAs (R:=R) T id).
Proof.
  unfold cachedAs. apply preserves_bind; [apply preserves_wf_cached|].
  intros r. apply readonly_preserves, readonly_convertRef.
Qed.

End WellFormed.

#[export] Hint Resolve preserves_wf_cached preserves_wf_cachedAs : exc.

(** ** Evaluation keeps the graph *)

Section EvaluationFacts.
Context {R : Type} `{EqDecision R, Inhabited R, !Compute R, !ComputeLaws R}.
Implicit Types (s : Store R) (n m : Node R) (id c : NodeId) (deps : list NodeRef).

Lemma frame_set_valid s id b : frame s (store_update id (set_valid b) s).
Proof. by apply frame_store_update. Qed.

Lemma frame_computeRecursively fuel id s : frame s (computeRecursively fuel id s).
Proof.
  revert id s. induction fuel as [|fuel IH]; intros id s; simpl; [done|].
  destruct (heap s !! id) as [n|]; [|done]. destruct (isValid_ n); [done|].
  etrans; [|etrans; [apply compute_frame|apply frame_set_valid]].
  generalize (dependencyNodes_ n). intros deps. revert s.
  induction deps as [|[d|] deps IHd]; intros s; simpl; [done| |apply IHd].
  etrans; [apply IH|apply IHd].
Qed.

(** A valid node is not recomputed. *)
Lemma computeRecursively_valid fuel id n s :
  heap s !! id = Some n -> isValid_ n = true -> computeRecursively fuel id s = s.
Proof. intros Hn Hv. destruct fuel; simpl; [done|]. by rewrite Hn, Hv. Qed.

Lemma getTargetValue_final id s :
  final (getTargetValue id) s = computeRecursively (length (heap s)) id s.
Proof.
  unfold getTargetValue, final, bind, modify; simpl.
  apply (readonly_accessValueConst id).
Qed.

Lemma getTargetValue_valid id n s :
  heap s !! id = Some n -> isValid_ n = true ->
  getTargetValue id s = (Ok (value_ n), s).
Proof.
  intros Hn Hv. unfold getTargetValue, bind, modify; simpl.
  rewrite (computeRecursively_valid _ _ _ _ Hn Hv).
  by apply accessValueConst_run.
Qed.

(** Evaluating an existing node does not fail. *)
Lemma getTargetValue_ok id s :
  id < length (heap s) -> is_ok (outcome (getTargetValue id) s) = true.
Proof.
  intros Hlt. unfold getTargetValue, outcome, bind, modify; simpl.
  destruct (frame_computeRecursively (length (heap s)) id s) as (HL & _ & _).
  destruct (lookup_lt_is_Some_2 (heap (computeRecursively (length (heap s)) id s)) id)
    as [n Hn]; [lia|].
  by rewrite (accessValueConst_run _ _ _ Hn).
Qed.

Lemma always_frame_getTargetValue id : always frame (getTargetValue id).
Proof. intros s. rewrite getTargetValue_final. apply frame_computeRecursively. Qed.

Lemma always_extends_getTargetValue id : always extends (getTargetValue id).
Proof. intros s. apply frame_extends, always_frame_getTargetValue. Qed.

Lemma preserves_wf_getTargetValue id : preserves wf_store (getTargetValue id).
Proof. intros s. apply wf_frame, always_frame_getTargetValue. Qed.

(** *** Evaluation marks nodes valid and never invalid *)

Definition valid_at s (i : NodeId) : Prop :=
  exists n, heap s !! i = Some n /\ isValid_ n = true.

Lemma valid_at_compute s id i : valid_at s i -> valid_at (compute id s) i.
Proof.
  intros (n & Hn & Hv). destruct (compute_flags id s i n Hn) as (n' & Hn' & Hv').
  exists n'. by rewrite Hv'.
Qed.

Lemma valid_at_set_valid s id i :
  valid_at s i -> valid_at (store_update id (set_valid true) s) i.
Proof.
  intros (n & Hn & Hv). unfold valid_at. simpl.
  destruct (decide (id = i)) as [->|Hne].
  - rewrite list_lookup_alter_eq, Hn. by eexists.
  - rewrite list_lookup_alter_ne by done. by exists n.
Qed.

Lemma computeRecursively_keeps_valid fuel id s i :
  valid_at s i -> valid_at (computeRecursively fuel id s) i.
Proof.
  revert id s. induction fuel as [|fuel IH]; intros id s Hv; simpl; [done|].
  destruct (heap s !! id) as [n|]; [|done]. destruct (isValid_ n); [done|].
  apply valid_at_set_valid, valid_at_compute.
  generalize (dependencyNodes_ n). intros deps. revert s Hv.
  induction deps as [|[d|] deps IHd]; intros s Hv; simpl; auto.
Qed.

Lemma computeRecursively_makes_valid fuel id s :
  id < length (heap s) -> valid_at (computeRecursively (S fuel) id s) id.
Proof.
  intros Hlt. destruct (lookup_lt_is_Some_2 _ _ Hlt) as [n Hn]. simpl. rewrite Hn.
  destruct (isValid_ n) eqn:Hv; [by exists n|].
  set (s1 := foldl _ s _).
  assert (frame s (compute id s1)) as (HL & _ & _).
  { etrans; [|apply compute_frame]. unfold s1. generalize (dependencyNodes_ n).
    intros deps. clear s1 Hn Hlt. revert s.
    induction deps as [|[d|] deps IHd]; intros s; simpl; [done| |apply IHd].
    etrans; [apply frame_computeRecursively|apply IHd]. }
  destruct (lookup_lt_is_Some_2 (heap (compute id s1)) id) as [m Hm]; [lia|].
  unfold valid_at. simpl. rewrite list_lookup_alter_eq, Hm. by eexists.
Qed.

Lemma getTargetValue_makes_valid id s :
  id < length (heap s) -> valid_at (final (getTargetValue id) s) id.
Proof.
  intros Hlt. rewrite getTargetValue_final.
  destruct (length (heap s)) eqn:HL; [lia|]. apply computeRecursively_makes_valid. lia.
Qed.

Lemma getTargetValue_keeps_valid id s i :
  valid_at s i -> valid_at (final (getTargetValue id) s) i.
Proof. rewrite getTargetValue_final. apply computeRecursively_keeps_valid. Qed.

(** [holds s d T v]: [d] is an evaluated node of value type [T] whose
    value is [v]. *)
Definition holds s (d : NodeId) (T : ValueType) (v : Value R) : Prop :=
  exists n, heap s !! d = Some n /\ valueTypeOf (node_type n) = T
            /\ isValid_ n = true /\ value_ n = v.

(** [stored s d T v]: [d] is a node of value type [T] that stores [v],
    evaluated or not. *)
Definition stored s (d : NodeId) (T : ValueType) (v : Value R) : Prop :=
  exists n, heap s !! d = Some n /\ valueTypeOf (node_type n) = T /\ value_ n = v.

Lemma holds_stored s d T v : holds s d T v -> stored s d T v.
Proof. intros (n & ? & ? & ? & ?). by exists n. Qed.

Lemma stored_valid s d T v : stored s d T v -> d < length (heap s).
Proof. intros (n & Hn & _). by eapply lookup_lt_Some. Qed.

Lemma stored_lookup s s' d T v :
  heap s' !! d = heap s !! d -> stored s d T v -> stored s' d T v.
Proof. intros Heq (n & Hn & ?). exists n. by rewrite Heq. Qed.

Lemma holds_valid_at s d T v : holds s d T v -> valid_at s d.
Proof. intros (n & ? & ? & ? & ?). by exists n. Qed.

Lemma holds_valid s d T v : holds s d T v -> d < length (heap s).
Proof. intros (n & Hn & _). by eapply lookup_lt_Some. Qed.

Lemma holds_lookup s s' d T v :
  heap s' !! d = heap s !! d -> holds s d T v -> holds s' d T v.
Proof. intros Heq (n & Hn & ?). exists n. by rewrite Heq. Qed.

Lemma dependencyAs_run T this i d n s :
  dependencyNodes_ this !! i = Some (Some d) -> heap s !! d = Some n ->
  valueTypeOf (node_type n) = T ->
  dependencyAs T this i s = (Ok d, s).
Proof.
  intros Hd Hn Ht. unfold dependencyAs. rewrite Hd. unfold bind.
  rewrite (dereference_Some _ _ _ Hn). unfold throw_unless.
  by rewrite bool_decide_eq_true_2.
Qed.

(** Reading an evaluated dependency evaluates nothing. *)
Lemma dependencyTargetValue_holds T this i d v s :
  dependencyNodes_ this !! i = Some (Some d) -> holds s d T v ->
  dependencyTargetValue T this i s = (Ok v, s).
Proof.
  intros Hd (n & Hn & Ht & Hv & <-). unfold dependencyTargetValue, bind.
  rewrite (dependencyAs_run _ _ _ _ _ _ Hd Hn Ht). by apply getTargetValue_valid.
Qed.

Lemma dependencyValueConstCast_run T this i d n s :
  dependencyNodes_ this !! i = Some (Some d) -> heap s !! d = Some n ->
  valueTypeOf (node_type n) = T ->
  dependencyValueConstCast T this i s = (Ok (value_ n), s).
Proof.
  intros Hd Hn Ht. unfold dependencyValueConstCast, bind.
  rewrite (dependencyAs_run _ _ _ _ _ _ Hd Hn Ht). by apply accessValueConst_run.
Qed.

Lemma readonly_dependencyAs T this i : readonly (dependencyAs (R:=R) T this i).
Proof.
  unfold dependencyAs. destruct (dependencyNodes_ this !! i) as [[d|]|];
    [|apply readonly_throw..].
  apply readonly_bind; [apply readonly_dereference|]. intros m.
  apply readonly_bind; [apply readonly_throw_unless|]. intros _. apply readonly_ret.
Qed.

Lemma readonly_dependencyValueConstCast T this i :
  readonly (dependencyValueConstCast (R:=R) T this i).
Proof.
  unfold dependencyValueConstCast.
  apply readonly_bind; [apply readonly_dependencyAs|]. intros d.
  apply readonly_accessValueConst.
Qed.

(** An invalid node whose dependencies are evaluated: [compute] runs once,
    for the node itself. *)
Lemma computeRecursively_compute fuel id n s :
  heap s !! id = Some n -> isValid_ n = false ->
  (forall d, Some d ∈ dependencyNodes_ n -> valid_at s d) ->
  computeRecursively (S fuel) id s = store_update id (set_valid true) (compute id s).
Proof.
  intros Hn Hv Hdeps. simpl. rewrite Hn, Hv. do 2 f_equal.
  induction (dependencyNodes_ n) as [|[d|] deps IH]; simpl; [done| |].
  - destruct (Hdeps d) as (m & Hm & Hvm); [left|].
    rewrite (computeRecursively_valid _ _ _ _ Hm Hvm). apply IH.
    intros d' Hd'. apply Hdeps. by right.
  - apply IH. intros d' Hd'. apply Hdeps. by right.
Qed.

End EvaluationFacts.

#[export] Hint Resolve always_extends_getTargetValue preserves_wf_getTargetValue
  readonly_dependencyAs readonly_dependencyValueConstCast : exc.

#[export] Instance compute_nothing_laws {R} `{EqDecision R, Inhabited R} :
  @ComputeLaws R _ _ compute_nothing.
Proof. split; [done|]. intros id s i n Hn. by exists n. Qed.

(** ** Creating through the cache *)

Section Creation.
Context {R : Type} `{EqDecision R, Inhabited R}.
Implicit Types (s : Store R) (n m : Node R) (id c : NodeId) (deps : list NodeRef).

(** The store after [make_shared n]. *)
Definition alloc s n : Store R := mkStore (heap s ++ [n]) (nodeCache_ s).

(** The store after a reference has been inserted in the cache. *)
Definition push s id : Store R := mkStore (heap s) (nodeCache_ s ++ [id]).

Lemma matches_alloc s n' n c :
  c < length (heap s) -> matches (heap s ++ [n']) n c = matches (heap s) n c.
Proof. intros Hc. unfold matches. by rewrite lookup_app_l. Qed.

(** A new object does not change what the cache finds. *)
Lemma cache_find_alloc s n' n :
  wf_store s -> cache_find (alloc s n') n = cache_find s n.
Proof.
  intros Hwf. unfold cache_find, alloc; simpl. f_equal.
  apply list_find_ext_elem. intros c Hc.
  rewrite matches_alloc; [done|]. by apply (wf_cache _ Hwf).
Qed.

Lemma cache_find_push_hit s n id c :
  cache_find s n = Some c -> cache_find (push s id) n = Some c.
Proof.
  unfold cache_find, push; simpl.
  destruct (list_find _ (nodeCache_ s)) as [[i c']|] eqn:Hf; [|done].
  intros [= ->]. by erewrite list_find_app_l.
Qed.

(** After a miss the inserted reference is the one found. *)
Lemma cache_find_push_new s n id :
  cache_find s n = None -> heap s !! id = Some n ->
  cache_find (push s id) n = Some id.
Proof.
  unfold cache_find, push; simpl. intros Hf%fmap_None Hn.
  rewrite (list_find_snoc_new _ _ id Hf); [done|].
  unfold matches. rewrite Hn. apply Is_true_true, sameNode_refl.
Qed.

(** [make_shared] followed by [cachedAs]: the pattern of every [create]. *)
Lemma alloc_cachedAs_run T n s :
  valueTypeOf (node_type n) = T ->
  (self <- make_shared n ;; cachedAs T self) s =
    match cache_find (alloc s n) n with
    | Some c => (Ok c, alloc s n)
    | None => (Ok (length (heap s)), push (alloc s n) (length (heap s)))
    end.
Proof.
  intros HT. rewrite (bind_ok _ _ _ _ _ (make_shared_run n s)).
  fold (alloc s n).
  assert (heap (alloc s n) !! length (heap s) = Some n) as Hn
    by apply lookup_snoc_length.
  by rewrite (cachedAs_run _ _ _ _ Hn HT), (cached_run _ _ _ Hn).
Qed.

Lemma always_extends_alloc_cachedAs T n :
  always extends (self <- make_shared n ;; cachedAs T self).
Proof. solve_always. Qed.

Lemma preserves_wf_make_shared n (P : Store R -> Prop) :
  (forall s, P s -> valid_refs s (dependencyNodes_ n)
                    /\ forall c, condLik_ n = Some c -> c <= length (heap s)) ->
  hoare (fun s => wf_store s /\ P s) (make_shared n)
        (fun r s => wf_store s /\ exists id, r = Ok id /\ heap s !! id = Some n).
Proof.
  intros HP s [Hwf [Hv Hc]%HP]. unfold outcome, final. rewrite make_shared_run.
  simpl. split; [by apply wf_alloc|]. eexists. split; [done|].
  apply lookup_snoc_length.
Qed.

End Creation.

#[export] Hint Resolve always_extends_alloc_cachedAs : exc.

(** *** Numeric constants: run, invariant, sharing *)

Section NumericConstantFacts.
Context {R : Type} `{EqDecision R, Inhabited R}.
Implicit Types (s : Store R) (v : Value R).

Lemma NumericConstant_create_run T v s :
  NumericConstant.create T v s =
    let n := NumericConstant.construct T v in
    match cache_find (alloc s n) n with
    | Some c => (Ok c, alloc s n)
    | None => (Ok (length (heap s)), push (alloc s n) (length (heap s)))
    end.
Proof. by apply alloc_cachedAs_run. Qed.

Lemma always_extends_NumericConstant_create T v :
  always extends (NumericConstant.create T v).
Proof. unfold NumericConstant.create. solve_always. Qed.

Lemma preserves_wf_NumericConstant_create T v :
  preserves wf_store (NumericConstant.create T v).
Proof.
  intros s Hwf. unfold final. rewrite NumericConstant_create_run. simpl.
  assert (wf_store (alloc s (NumericConstant.construct T v))) as Hwf1.
  { apply wf_alloc; [done| |done]. intros d Hd. by apply elem_of_nil in Hd. }
  destruct (cache_find _ _) eqn:Hf; simpl; [done|].
  eapply wf_push; [done| |done]. apply lookup_snoc_length.
Qed.

(** The reference returned is cached and points to a constant of that
    value. *)
Lemma NumericConstant_create_spec T v s :
  exists c m,
    NumericConstant.create T v s = (Ok c, final (NumericConstant.create T v) s)
    /\ heap (final (NumericConstant.create T v) s) !! c = Some m
    /\ node_type m = T_NumericConstant T /\ value_ m = v
    /\ dependencyNodes_ m = []
    /\ c ∈ nodeCache_ (final (NumericConstant.create T v) s).
Proof.
  unfold final. rewrite NumericConstant_create_run. simpl.
  destruct (cache_find _ _) as [c|] eqn:Hf; simpl.
  - destruct (cache_find_Some _ _ _ Hf) as (Hc & m & Hm & Hsame).
    exists c, m. split_and!; try done.
    + by rewrite (sameNode_type _ _ Hsame).
    + apply sameNode_key in Hsame. unfold node_key in Hsame.
      injection Hsame as Ht Hd Hv. rewrite Ht in Hv. by injection Hv.
    + by rewrite (sameNode_deps _ _ Hsame).
  - eexists _, _. split_and!; [done|apply lookup_snoc_length|done..|].
    apply elem_of_app. right. by apply list_elem_of_singleton.
Qed.

End NumericConstantFacts.

#[export] Hint Resolve always_extends_NumericConstant_create
  preserves_wf_NumericConstant_create : exc.

(** ** Signatures: the checks of a [create] as a function of the store *)

Section Signatures.
Context {R : Type} `{EqDecision R, Inhabited R}.
Implicit Types (s : Store R) (n m : Node R) (id c : NodeId) (deps : list NodeRef)
  (sig : list Expected) (e : Expected).

Lemma checkExpected_run e ctx deps i s :
  checkExpected e ctx deps i s =
    (match expected_error e ctx deps i s with
     | Some err => Err err
     | None => Ok tt
     end, s).
Proof.
  destruct e as [|T|t]; simpl; [done|..];
    unfold checkNthDependencyIsValue, checkNthDependencyIs, nthDependency;
    destruct (deps !! i) as [[d|]|]; try done;
    (destruct (heap s !! d) as [n|] eqn:Hn;
      [rewrite (bind_ok _ _ _ _ _ (dereference_Some _ _ _ Hn));
       by destruct (bool_decide _)
      |by rewrite (bind_err _ _ _ _ _ (dereference_None _ _ Hn))]).
Qed.

Lemma checkPositions_run {A} ctx sig deps i (k : M R A) s :
  checkPositions ctx sig deps i k s =
    match position_error ctx sig deps i s with
    | Some err => (Err err, s)
    | None => k s
    end.
Proof.
  revert i. induction sig as [|e sig IH]; intros i; simpl; [done|].
  assert ((checkExpected e ctx deps i ;; checkPositions ctx sig deps (S i) k) s =
          match expected_error e ctx deps i s with
          | Some err => (Err err, s)
          | None => checkPositions ctx sig deps (S i) k s
          end) as Hstep.
  { unfold bind at 1. rewrite checkExpected_run.
    by destruct (expected_error e ctx deps i s). }
  destruct e; [simpl; apply IH|rewrite Hstep..];
    destruct (expected_error _ _ _ _ _); auto.
Qed.

(** The checks of a [create] either stop with the exception
    [signature_error] names, in the store they were started in, or let the
    construction run. *)
Lemma checked_run {A} ctx sig deps (k : M R A) s :
  checked ctx sig deps k s =
    match signature_error ctx sig deps s with
    | Some err => (Err err, s)
    | None => k s
    end.
Proof.
  unfold checked, signature_error, bind at 1, checkDependenciesNotNull.
  destruct (list_find _ deps) as [[i d]|]; [done|]. simpl.
  unfold bind at 1. rewrite checkDependencyVectorSize_run.
  destruct (bool_decide _); [|done]. apply checkPositions_run.
Qed.

(** [conforms s e d]: the reference [d] is what position [e] expects. *)
Definition conforms s e (d : NodeRef) : Prop :=
  exists id, d = Some id /\
    match e with
    | ExpectAny => True
    | ExpectValue T => exists n, heap s !! id = Some n /\ valueTypeOf (node_type n) = T
    | ExpectNode t => exists n, heap s !! id = Some n /\ node_type n = t
    end.

Lemma expected_error_None e ctx deps i s d :
  deps !! i = Some d -> expected_error e ctx deps i s = None -> d <> None ->
  conforms s e d.
Proof.
  intros Hi He Hd. destruct d as [id|]; [|done]. exists id. split; [done|].
  destruct e as [|T|t]; simpl in *; [done|rewrite Hi in He..];
    destruct (heap s !! id) as [n|]; try done;
    case_bool_decide; try done; eauto.
Qed.

Lemma conforms_expected_error e ctx deps i s d :
  deps !! i = Some d -> conforms s e d -> expected_error e ctx deps i s = None.
Proof.
  intros Hi (id & -> & He). destruct e as [|T|t]; simpl; [done|rewrite Hi..];
    destruct He as (n & -> & Hn); by rewrite bool_decide_eq_true_2.
Qed.

Lemma position_error_None ctx sig deps i s :
  Forall is_Some deps -> length deps = i + length sig ->
  position_error ctx sig deps i s = None <->
  Forall2 (conforms s) sig (drop i deps).
Proof.
  intros Hsome. revert i. induction sig as [|e sig IH]; intros i Hlen; simpl.
  - rewrite drop_ge by (simpl in Hlen; lia). split; [constructor|done].
  - simpl in Hlen. destruct (lookup_lt_is_Some_2 deps i) as [d Hd]; [lia|].
    rewrite (drop_S _ _ _ Hd).
    assert (d <> None) as Hnn.
    { rewrite Forall_lookup in Hsome. intros ->. by destruct (Hsome i None Hd). }
    split.
    + destruct (expected_error e ctx deps i s) eqn:He; [done|]. intros Hrest.
      constructor; [by eapply expected_error_None|]. apply IH; [lia|done].
    + intros [Hc Hrest]%Forall2_cons.
      rewrite (conforms_expected_error _ _ _ _ _ _ Hd Hc). apply IH; [lia|done].
Qed.

(** No exception exactly when the dependencies are as many as the
    signature asks and each is what its position expects. *)
Lemma signature_error_None ctx sig deps s :
  signature_error ctx sig deps s = None <-> Forall2 (conforms s) sig deps.
Proof.
  unfold signature_error. split.
  - destruct (list_find _ deps) as [[i d]|] eqn:Hf; [done|].
    case_bool_decide as Hlen; [|done]. intros Hp.
    apply list_find_None in Hf.
    assert (Forall is_Some deps) as Hsome.
    { eapply Forall_impl; [done|]. intros [d|]; simpl; [eauto|done]. }
    by apply (position_error_None ctx sig deps 0 s Hsome Hlen).
  - intros Hall.
    assert (Forall is_Some deps) as Hsome.
    { apply Forall_forall. intros d [j Hj]%list_elem_of_lookup.
      destruct (Forall2_lookup_r _ _ _ _ _ Hall Hj) as (e & _ & id & -> & _).
      eauto. }
    destruct (list_find _ deps) as [[i d]|] eqn:Hf.
    { apply list_find_Some in Hf as (Hi & -> & _).
      rewrite Forall_lookup in Hsome. by destruct (Hsome i None Hi). }
    pose proof (Forall2_length _ _ _ Hall) as Hlen.
    rewrite bool_decide_eq_true_2 by done.
    by apply (position_error_None ctx sig deps 0 s Hsome).
Qed.

Lemma signature_error_null ctx sig deps i s :
  deps !! i = Some None -> Forall is_Some (take i deps) ->
  signature_error ctx sig deps s = Some (NullDependencyError ctx i).
Proof.
  intros Hi Hbefore. pose proof (checkDependenciesNotNull_null ctx deps i s Hi Hbefore) as Hc.
  unfold checkDependenciesNotNull, signature_error, throw, ret in *.
  destruct (list_find _ deps) as [[j d]|]; by simplify_eq.
Qed.

Lemma signature_error_count ctx sig deps s :
  Forall is_Some deps -> length deps <> length sig ->
  signature_error ctx sig deps s =
    Some (DependencyCountError ctx (length sig) (length deps)).
Proof.
  intros Hsome Hlen. pose proof (checkDependenciesNotNull_ok ctx deps s Hsome) as Hc.
  unfold checkDependenciesNotNull, signature_error, throw, ret in *.
  destruct (list_find _ deps) as [[j d]|]; [done|].
  by rewrite bool_decide_eq_false_2.
Qed.

Lemma checked_conforms {A} ctx sig deps (k : M R A) s :
  Forall2 (conforms s) sig deps -> checked ctx sig deps k s = k s.
Proof.
  intros Hc. rewrite checked_run.
  by rewrite (proj2 (signature_error_None ctx sig deps s) Hc).
Qed.

(** What conforms keeps conforming as the store grows. *)
Lemma conforms_extends s s' e d : extends s s' -> conforms s e d -> conforms s' e d.
Proof.
  intros Hext (id & -> & He). exists id. split; [done|].
  destruct e as [|T|t]; [done|..]; destruct He as (n & Hn & Ht);
    destruct (extends_lookup _ _ _ _ Hext Hn) as (n' & Hn' & Hty & _);
    exists n'; (split; [done|congruence]).
Qed.

Lemma preserves_checked {A} (I : Store R -> Prop) ctx sig deps (k : M R A) :
  preserves I k -> preserves I (checked ctx sig deps k).
Proof.
  intros Hk s HI. unfold final. rewrite checked_run.
  destruct (signature_error _ _ _ _); [done|by apply Hk].
Qed.

Lemma always_checked {A} (T : Store R -> Store R -> Prop) `{!Reflexive T}
    ctx sig deps (k : M R A) :
  always T k -> always T (checked ctx sig deps k).
Proof.
  intros Hk s. unfold final. rewrite checked_run.
  destruct (signature_error _ _ _ _); [done|by apply Hk].
Qed.

Lemma hoare_checked {A} (P : Store R -> Prop) (Q : result Error A -> Store R -> Prop)
    ctx sig deps (k : M R A) :
  (forall s err, P s -> signature_error ctx sig deps s = Some err -> Q (Err err) s) ->
  hoare (fun s => P s /\ Forall2 (conforms s) sig deps) k Q ->
  hoare P (checked ctx sig deps k) Q.
Proof.
  intros Herr Hk s HP. unfold outcome, final. rewrite checked_run.
  destruct (signature_error _ _ _ _) eqn:He; [by apply Herr|].
  apply Hk. split; [done|]. by apply signature_error_None in He.
Qed.

End Signatures.

(** ** Specifications of creation, state by state *)

Section CreationSpecs.
Context {R : Type} `{EqDecision R, Inhabited R}.
Implicit Types (s : Store R) (n m : Node R) (id c : NodeId) (deps : list NodeRef).

(** [created s id t deps]: [id] is a cached reference of [s] to a node of
    class [t] over the dependencies [deps]. *)
Definition created s id (t : type_info) deps : Prop :=
  id ∈ nodeCache_ s /\
  exists n, heap s !! id = Some n /\ node_type n = t /\ dependencyNodes_ n = deps.

(** An exception the sources throw, as opposed to undefined behaviour. *)
Definition thrown (e : Error) : Prop :=
  match e with UndefinedBehaviour _ | OutOfFuel => False | _ => True end.

Lemma holds_conforms s d T v : holds s d T v -> conforms s (ExpectValue T) (Some d).
Proof. intros (n & Hn & Ht & _). exists d. split; [done|]. by exists n. Qed.

Lemma stored_conforms s d T v : stored s d T v -> conforms s (ExpectValue T) (Some d).
Proof. intros (n & Hn & Ht & _). exists d. split; [done|]. by exists n. Qed.

(** A signature without [ExpectAny] accepts existing nodes only. *)
Lemma conforms_valid_refs s sig deps :
  Forall (fun e => e <> ExpectAny) sig -> Forall2 (conforms s) sig deps ->
  valid_refs s deps.
Proof.
  intros Hsig Hc d Hd. apply list_elem_of_lookup in Hd as [i Hi].
  destruct (Forall2_lookup_r _ _ _ _ _ Hc Hi) as (e & He & id & [= <-] & Hcon).
  pose proof (Forall_lookup_1 _ _ _ _ Hsig He) as Hne.
  destruct e as [|T|t]; [done|..]; destruct Hcon as (n & Hn & _);
    by eapply lookup_lt_Some.
Qed.

Lemma expected_error_thrown e ctx deps i s d err :
  deps !! i = Some (Some d) -> d < length (heap s) ->
  expected_error e ctx deps i s = Some err -> thrown err.
Proof.
  intros Hd Hlt. destruct (lookup_lt_is_Some_2 _ _ Hlt) as [n Hn].
  destruct e; simpl; rewrite ?Hd, ?Hn; [done|..];
    case_bool_decide; by intros [= <-].
Qed.

Lemma position_error_thrown ctx sig deps i s err :
  Forall is_Some deps -> valid_refs s deps -> i + length sig <= length deps ->
  position_error ctx sig deps i s = Some err -> thrown err.
Proof.
  intros Hsome Hv. revert i. induction sig as [|e sig IH]; intros i Hlen; simpl; [done|].
  simpl in Hlen. destruct (lookup_lt_is_Some_2 deps i) as [d Hd]; [lia|].
  pose proof (Forall_lookup_1 _ _ _ _ Hsome Hd) as [id ->].
  destruct (expected_error e ctx deps i s) eqn:He.
  - intros [= <-]. eapply expected_error_thrown; [done| |done].
    apply Hv. by eapply list_elem_of_lookup_2.
  - apply IH. lia.
Qed.

(** The dependency checks of a [create] throw the library's exceptions
    only, when the references given to it point to objects. *)
Lemma signature_error_thrown ctx sig deps s err :
  valid_refs s deps -> signature_error ctx sig deps s = Some err -> thrown err.
Proof.
  intros Hv. unfold signature_error.
  destruct (list_find _ deps) as [[i d]|] eqn:Hf; [by intros [= <-]|].
  case_bool_decide as Hlen; [|by intros [= <-]].
  apply position_error_thrown; [|done|lia].
  apply Forall_forall. intros [d|] Hd; [by eexists|].
  eapply list_find_None, Forall_forall in Hf; [|done]. done.
Qed.

(** What a [create] owes its caller: a well-formed store that extends the
    one it started from, and either a cached node of the class over the
    dependencies given, or one of the library's exceptions. *)
Definition sound s (t : type_info) deps (rs : result Error NodeId * Store R) : Prop :=
  wf_store rs.2 /\ extends s rs.2
  /\ match rs.1 with
     | Ok c => created rs.2 c t deps
     | Err e => thrown e
     end.

Lemma sound_thrown s t deps e : wf_store s -> thrown e -> sound s t deps (Err e, s).
Proof. intros Hwf He. by split_and!. Qed.

Lemma created_extends s s' id t deps :
  extends s s' -> created s id t deps -> created s' id t deps.
Proof.
  intros Hext (Hc & n & Hn & Ht & Hd). split; [by eapply extends_cache|].
  destruct (extends_lookup _ _ _ _ Hext Hn) as (n' & Hn' & Ht' & Hd' & _).
  exists n'. split_and!; [done|congruence..].
Qed.

Lemma created_valid s id t deps : created s id t deps -> id < length (heap s).
Proof. intros (_ & n & Hn & _). by eapply lookup_lt_Some. Qed.

Lemma valid_refs_cons s (d : NodeId) deps :
  d < length (heap s) -> valid_refs s deps -> valid_refs s (Some d :: deps).
Proof. intros Hd Hv x [[= ->]|Hx]%elem_of_cons; auto. Qed.

Lemma valid_refs_nil s : valid_refs s [].
Proof. intros x Hx. by apply elem_of_nil in Hx. Qed.

(** What the cache holds after a run of [cached]. *)
Lemma cached_spec id n s :
  heap s !! id = Some n -> wf_store s ->
  exists c, cached id s = (Ok c, final (cached id) s)
    /\ wf_store (final (cached id) s)
    /\ heap (final (cached id) s) = heap s
    /\ cache_find (final (cached id) s) n = Some c
    /\ created (final (cached id) s) c (node_type n) (dependencyNodes_ n)
    /\ (cache_find s n = Some c /\ final (cached id) s = s
        \/ cache_find s n = None /\ c = id /\ final (cached id) s = push s id).
Proof.
  intros Hn Hwf. pose proof (preserves_wf_cached id s Hwf) as Hwf'.
  revert Hwf'. unfold final. rewrite (cached_run _ _ _ Hn).
  destruct (cache_find s n) as [c|] eqn:Hf; simpl; intros Hwf'.
  - exists c. split_and!; auto.
    destruct (cache_find_Some _ _ _ Hf) as (Hc & m & Hm & Hsame).
    split; [done|]. exists m.
    by rewrite (sameNode_type _ _ Hsame), (sameNode_deps _ _ Hsame).
  - exists id.
    split_and!; [done..|by apply (cache_find_push_new s n id)| |by right].
    split; [|by exists n]. apply elem_of_app. right. by apply list_elem_of_singleton.
Qed.

Lemma alloc_cachedAs_spec T n s :
  valueTypeOf (node_type n) = T -> wf_store s ->
  valid_refs s (dependencyNodes_ n) -> condLik_ n = None ->
  let m := (self <- make_shared n ;; cachedAs T self) in
  exists c, m s = (Ok c, final m s)
    /\ wf_store (final m s) /\ extends s (final m s)
    /\ heap (final m s) = heap s ++ [n]
    /\ cache_find (final m s) n = Some c
    /\ created (final m s) c (node_type n) (dependencyNodes_ n).
Proof.
  intros HT Hwf Hv Hcl m.
  assert (wf_store (alloc s n)) as Hwf1.
  { apply wf_alloc; [done..|]. intros c. by rewrite Hcl. }
  assert (heap (alloc s n) !! length (heap s) = Some n) as Hn
    by apply lookup_snoc_length.
  destruct (cached_spec _ _ _ Hn Hwf1) as (c & Hrun & Hwf2 & Hheap & Hfind & Hcr & _).
  assert (m s = cached (length (heap s)) (alloc s n)) as Hm.
  { unfold m. rewrite (bind_ok _ _ _ _ _ (make_shared_run n s)).
    by apply (cachedAs_run T _ n). }
  unfold final in *. rewrite Hm, Hrun in *. simpl in *.
  exists c. split_and!; try done.
  etrans; [apply (extends_alloc s n)|]. apply (always_extends_cached _ (alloc s n)).
Qed.

(** Building the same node again finds the one built before, and the cache
    is as it was. *)
Lemma cachedAs_sound T id n s0 s :
  wf_store s -> extends s0 s -> heap s !! id = Some n ->
  valueTypeOf (node_type n) = T ->
  sound s0 (node_type n) (dependencyNodes_ n) (cachedAs T id s).
Proof.
  intros Hwf He Hn HT. rewrite (cachedAs_run _ _ _ _ Hn HT).
  destruct (cached_spec _ _ _ Hn Hwf) as (c & Hrun & Hwf' & _ & _ & Hc & _).
  rewrite Hrun. split_and!; [done| |done]. simpl.
  etrans; [done|apply always_extends_cached].
Qed.

Lemma alloc_cachedAs_sound T n s :
  valueTypeOf (node_type n) = T -> wf_store s ->
  valid_refs s (dependencyNodes_ n) -> condLik_ n = None ->
  sound s (node_type n) (dependencyNodes_ n)
        ((self <- make_shared n ;; cachedAs T self) s).
Proof.
  intros HT Hwf Hv Hc.
  destruct (alloc_cachedAs_spec T n s HT Hwf Hv Hc) as (c & Hrun & ? & ? & _ & _ & ?).
  rewrite Hrun. by split_and!.
Qed.

(** Evaluating a dependency of the right type never fails and changes
    values and flags only. *)
Lemma dependencyTargetValue_frame `{!Compute R} T this i d n s0 s :
  dependencyNodes_ this !! i = Some (Some d) -> heap s0 !! d = Some n ->
  valueTypeOf (node_type n) = T -> frame s0 s ->
  dependencyTargetValue T this i s = getTargetValue d s /\ d < length (heap s).
Proof.
  intros Hd Hn HT (HL & HC & Hnodes).
  destruct (Hnodes _ _ Hn) as (n' & Hn' & [Hk _] & _). split.
  - unfold dependencyTargetValue, bind.
    rewrite (dependencyAs_run T this i d n'); [done..|].
    by rewrite (node_key_type _ _ Hk).
  - by eapply lookup_lt_Some.
Qed.

Lemma safe_dependencyTargetValue `{!Compute R, !ComputeLaws R} T this i d n s0 :
  dependencyNodes_ this !! i = Some (Some d) -> heap s0 !! d = Some n ->
  valueTypeOf (node_type n) = T ->
  safe thrown (frame s0) (dependencyTargetValue T this i).
Proof.
  intros Hd Hn HT s Hf.
  destruct (dependencyTargetValue_frame T this i d n s0 s) as [Hrun Hlt]; [done..|].
  unfold outcome, final. rewrite Hrun. split.
  - etrans; [done|]. apply always_frame_getTargetValue.
  - pose proof (getTargetValue_ok d s Hlt) as Hok. unfold outcome in Hok.
    by destruct (getTargetValue d s).1.
Qed.

(** Reading a dependency through [getTargetValue] leaves it evaluated, and
    what was evaluated stays so. *)
Lemma hoare_dependencyTargetValue `{!Compute R, !ComputeLaws R} T this i d n s0
    (L : list NodeId) :
  dependencyNodes_ this !! i = Some (Some d) -> heap s0 !! d = Some n ->
  valueTypeOf (node_type n) = T ->
  hoare (fun s => frame s0 s /\ Forall (valid_at s) L)
        (dependencyTargetValue T this i)
        (on_ok (fun s => frame s0 s /\ Forall (valid_at s) (d :: L))).
Proof.
  intros Hd Hn HT s [Hf HL].
  destruct (dependencyTargetValue_frame T this i d n s0 s) as [Hrun Hlt]; [done..|].
  unfold outcome, final. rewrite Hrun.
  destruct (getTargetValue d s).1 eqn:Hr; [|done]. split.
  - etrans; [done|]. apply always_frame_getTargetValue.
  - constructor; [by apply getTargetValue_makes_valid|].
    eapply Forall_impl; [done|]. intros j. apply getTargetValue_keeps_valid.
Qed.

Definition same_heap s s' : Prop := heap s' = heap s.

#[export] Instance same_heap_preorder : PreOrder same_heap.
Proof. split; [done|]. intros s1 s2 s3 H12 H23. unfold same_heap in *. congruence. Qed.

Lemma always_same_heap_cached id : always same_heap (cached id).
Proof.
  unfold cached. apply always_bind; [apply _| |intros n].
  { apply readonly_always; [apply _|apply readonly_dereference]. }
  intros s. unfold final, bind, get. simpl. by destruct (cache_find s n).
Qed.

Lemma cachedAs_heap T id s : heap (final (cachedAs T id) s) = heap s.
Proof.
  revert s. change (always same_heap (cachedAs T id)). unfold cachedAs.
  apply always_bind; [apply _|apply always_same_heap_cached|intros c].
  apply readonly_always; [apply _|apply readonly_convertRef].
Qed.

Lemma alloc_cachedAs_again T n s c :
  valueTypeOf (node_type n) = T -> wf_store s -> cache_find s n = Some c ->
  (self <- make_shared n ;; cachedAs T self) s = (Ok c, alloc s n).
Proof.
  intros HT Hwf Hf. rewrite (alloc_cachedAs_run _ _ _ HT).
  by rewrite (cache_find_alloc _ _ _ Hwf), Hf.
Qed.

End CreationSpecs.

(** ** What the cache finds is stable *)

Section CacheStability.
Context {R : Type} `{EqDecision R, Inhabited R}.
Implicit Types (s : Store R) (n m : Node R) (id c a : NodeId) (deps : list NodeRef).

(** Only the key of the node looked for matters. *)
Lemma cache_find_key s n n' :
  node_key n = node_key n' -> cache_find s n = cache_find s n'.
Proof.
  intros Hk. unfold cache_find. f_equal. apply list_find_ext. intros c.
  unfold matches. destruct (heap s !! c) as [m|]; [|done].
  assert (sameNode m n = sameNode m n') as ->; [|done].
  apply eq_true_iff_eq. rewrite !sameNode_key. by rewrite Hk.
Qed.

(** A cached node is the one the cache finds for its key: the keys of the
    cache are all different. *)
Lemma cache_find_cached s n c m :
  wf_store s -> c ∈ nodeCache_ s -> heap s !! c = Some m ->
  node_key m = node_key n -> cache_find s n = Some c.
Proof.
  intros Hwf Hc Hm Hk. destruct (cache_find s n) as [c'|] eqn:Hf.
  - destruct (cache_find_Some _ _ _ Hf) as (Hc' & m' & Hm' & Hs%sameNode_key).
    f_equal. eapply (NoDup_omap_inj _ _ c' c); [apply (wf_unique _ Hwf)|done..| |].
    + simpl. by rewrite Hm'.
    + simpl. rewrite Hm. simpl. congruence.
  - pose proof (proj1 (cache_find_None s n) Hf c m Hc Hm) as Hs.
    apply not_true_iff_false in Hs. destruct Hs. by apply sameNode_key.
Qed.

(** Inserting a reference to a node that does not match changes nothing. *)
Lemma cache_find_push_other s n id :
  matches (heap s) n id = false -> cache_find (push s id) n = cache_find s n.
Proof.
  intros Hm. unfold cache_find, push; simpl.
  destruct (list_find _ (nodeCache_ s)) as [[i c]|] eqn:Hf.
  - by erewrite list_find_app_l.
  - rewrite list_find_app_r by done. simpl. rewrite decide_False; [done|].
    rewrite Hm. by intros [].
Qed.

(** Writing to an object that is not cached changes nothing. *)
Lemma cache_find_push_type s n id m :
  heap s !! id = Some m -> node_type m <> node_type n ->
  cache_find (push s id) n = cache_find s n.
Proof.
  intros Hm Hne. apply cache_find_push_other. unfold matches. rewrite Hm.
  destruct (sameNode m n) eqn:Hs; [|done]. by apply sameNode_type in Hs.
Qed.

Lemma cache_find_update_other s n a f :
  a ∉ nodeCache_ s -> cache_find (store_update a f s) n = cache_find s n.
Proof.
  intros Ha. unfold cache_find, store_update; simpl. f_equal.
  apply list_find_ext_elem. intros c Hc. unfold matches.
  rewrite list_lookup_alter_ne; [done|]. by intros ->.
Qed.

(** Writing anything but the key to a cached object changes nothing. *)
Lemma cache_find_update_key s n a f :
  (forall m, node_key (f m) = node_key m) ->
  cache_find (store_update a f s) n = cache_find s n.
Proof.
  intros Hf. unfold cache_find, store_update; simpl. f_equal.
  apply list_find_ext. intros c. unfold matches.
  destruct (decide (a = c)) as [->|Hne].
  - rewrite list_lookup_alter_eq. destruct (heap s !! c) as [m|]; [|done]. simpl.
    assert (sameNode (f m) n = sameNode m n) as ->; [|done].
    apply eq_true_iff_eq. rewrite !sameNode_key. by rewrite Hf.
  - by rewrite list_lookup_alter_ne.
Qed.

(** [no_dependents s a]: no object of [s] depends on [a]. *)
Definition no_dependents s a : Prop :=
  forall id n, heap s !! id = Some n -> Some a ∉ dependencyNodes_ n.

(** The youngest object has no dependents: dependencies are older. *)
Lemma no_dependents_last s n :
  wf_store s -> Some (length (heap s)) ∉ dependencyNodes_ n ->
  no_dependents (alloc s n) (length (heap s)).
Proof.
  intros Hwf Hn id m [Hm|[-> ->]]%lookup_snoc_Some Hin; [|done].
  pose proof (wf_deps _ Hwf _ _ _ Hm Hin). apply lookup_lt_Some in Hm. lia.
Qed.

Lemma no_dependents_alloc s a n :
  no_dependents s a -> Some a ∉ dependencyNodes_ n -> no_dependents (alloc s n) a.
Proof. intros Hs Hn id m [Hm|[-> ->]]%lookup_snoc_Some; eauto. Qed.

Lemma no_dependents_push s a id : no_dependents s a -> no_dependents (push s id) a.
Proof. done. Qed.

(** A node over a dependency nothing depends on yet is not in the cache. *)
Lemma cache_find_no_dependents s a n :
  no_dependents s a -> Some a ∈ dependencyNodes_ n -> cache_find s n = None.
Proof.
  intros Hno Hin. apply cache_find_None. intros c m Hc Hm.
  apply not_true_iff_false. intros Hsame. apply (Hno c m Hm).
  by rewrite (sameNode_deps _ _ Hsame).
Qed.

End CacheStability.

(** ** Writes that the contract of [compute] allows *)

Section Quiet.
Context {R : Type} `{EqDecision R, Inhabited R}.
Implicit Types (s : Store R) (n : Node R) (id c : NodeId) (t : type_info)
  (v : Value R).

(** The class of the object at [id]. *)
Definition type_at s id t : Prop := node_type <$> heap s !! id = Some t.

(** [quiet s s']: the same objects, keys and cache, and the same
    validity flags: what [compute] may do. *)
Definition quiet s s' : Prop :=
  frame s s' /\ forall i, isValid_ <$> heap s' !! i = isValid_ <$> heap s !! i.

#[export] Instance quiet_preorder : PreOrder quiet.
Proof.
  split; [by intros s|].
  intros s1 s2 s3 [F12 V12] [F23 V23]. split; [by etrans|]. intros i. by rewrite V23.
Qed.

Lemma lookup_store_update s id (f : Node R -> Node R) i :
  heap (store_update id f s) !! i
  = if decide (id = i) then f <$> heap s !! i else heap s !! i.
Proof.
  simpl. destruct (decide (id = i)) as [->|Hne];
    [apply list_lookup_alter_eq|by apply list_lookup_alter_ne].
Qed.

Lemma quiet_store_update s id (f : Node R -> Node R) :
  (forall n, heap s !! id = Some n ->
     node_key (f n) = node_key n /\ targetDimension_ (f n) = targetDimension_ n
     /\ condLik_ (f n) = condLik_ n /\ isValid_ (f n) = isValid_ n) ->
  quiet s (store_update id f s).
Proof.
  intros Hf. split; [split_and!; [simpl; by rewrite length_alter|done|]|].
  - intros i n Hn. rewrite lookup_store_update. destruct (decide (id = i)) as [->|_].
    + rewrite Hn. simpl. exists (f n). destruct (Hf n Hn) as (? & ? & ? & _).
      by repeat split.
    + exists n. auto using node_frame_refl.
  - intros i. rewrite lookup_store_update. destruct (decide (id = i)) as [->|_]; [|done].
    destruct (heap s !! i) as [n|]; [|done]. simpl.
    by destruct (Hf n eq_refl) as (_ & _ & _ & ->).
Qed.

Lemma type_at_frame s s' id t : frame s s' -> type_at s id t -> type_at s' id t.
Proof.
  intros (_ & _ & Hf). unfold type_at. destruct (heap s !! id) as [n|] eqn:Hn; [|done].
  destruct (Hf _ _ Hn) as (n' & -> & [Hk _] & _). simpl.
  by rewrite (node_key_type _ _ Hk).
Qed.

(** Writing the value of a node that is not a constant. *)
Lemma quiet_set_value s id v t :
  type_at s id t -> isNumericConstant t = false ->
  quiet s (store_update id (set_value v) s).
Proof.
  intros Ht Hc. apply quiet_store_update. intros n Hn. unfold type_at in Ht.
  rewrite Hn in Ht. injection Ht as <-. by rewrite node_key_set_value.
Qed.

Lemma quiet_set_parCondLik s id (m : Matrix R) :
  quiet s (store_update id (set_parCondLik m) s).
Proof. by apply quiet_store_update. Qed.

End Quiet.

(** The contract of [compute] says that [compute] is quiet. *)
Lemma quiet_laws {R} `{EqDecision R, Inhabited R} (Cmp : Compute R) :
  (forall id s, quiet s (@compute R Cmp id s)) <-> @ComputeLaws R _ _ Cmp.
Proof.
  split.
  - intros Hq. split; [intros id s; apply Hq|]. intros id s i n Hn.
    destruct (Hq id s) as [_ Hv]. specialize (Hv i). rewrite Hn in Hv.
    destruct (heap (compute id s) !! i) as [n'|]; [|done]. exists n'.
    split; [done|]. by injection Hv.
  - intros Hlaws id s. split; [apply compute_frame|]. intros i.
    destruct (heap s !! i) as [n|] eqn:Hn.
    + destruct (compute_flags id s i n Hn) as (n' & -> & Hv). simpl. by rewrite Hv.
    + destruct (compute_frame id s) as (HL & _ & _).
      apply lookup_ge_None in Hn. rewrite <- HL in Hn. apply lookup_ge_None in Hn.
      by rewrite Hn.
Qed.
