(* ===== verification/Evaluation.v ===== *)
(** * Evaluation: the order in which a graph is computed

    [computeRecursively] is a function with fuel.  What it is meant to do
    is a relation, [evaluates s id s']: a valid node is left as it is; an
    invalid node has its dependencies evaluated, from the first to the
    last, and then, all of them valid, [compute] runs for the node, which
    becomes valid.  The relation has no fuel and no rule for a node
    computed over a dependency that is not evaluated.

    The file proves that, in a well-formed store, [computeRecursively] with
    fuel above the index of the node, and so [getTargetValue], whose fuel is
    the number of objects, follows the relation
    ([computeRecursively_evaluates], [getTargetValue_evaluates]): the fuel
    never runs out before the leaves are reached.  By induction on the
    relation, an evaluation changes neither objects nor cache and leaves
    the node evaluated ([evaluates_frame], [evaluates_valid_at]). *)

From stdpp Require Import base tactics option list.
From S2P Require Import Prelude Values DataFlow.

Section BigStep.
Context {R : Type} `{EqDecision R, Inhabited R} {Cmp : Compute R}.
Implicit Types (s : Store R) (n : Node R) (id d : NodeId) (deps : list NodeRef).

Inductive evaluates : Store R -> NodeId -> Store R -> Prop :=
| evaluates_valid s id n :
    heap s !! id = Some n -> isValid_ n = true -> evaluates s id s
| evaluates_compute s id n s1 :
    heap s !! id = Some n -> isValid_ n = false ->
    evaluates_deps s (dependencyNodes_ n) s1 ->
    (forall d, Some d ∈ dependencyNodes_ n -> valid_at s1 d) ->
    evaluates s id (store_update id (set_valid true) (compute id s1))
with evaluates_deps : Store R -> list NodeRef -> Store R -> Prop :=
| evaluates_nil s : evaluates_deps s [] s
| evaluates_null s deps s' :
    evaluates_deps s deps s' -> evaluates_deps s (None :: deps) s'
| evaluates_cons s d s1 deps s' :
    evaluates s d s1 -> evaluates_deps s1 deps s' ->
    evaluates_deps s (Some d :: deps) s'.

Scheme evaluates_mut := Minimality for evaluates Sort Prop
  with evaluates_deps_mut := Minimality for evaluates_deps Sort Prop.

(** The dependencies as [computeRecursively] goes through them. *)
Definition computeDependencies (fuel : nat) deps s : Store R :=
  foldl (fun acc r => match r with
                      | Some i => computeRecursively fuel i acc
                      | None => acc
                      end) s deps.

Lemma computeRecursively_S fuel id n s :
  heap s !! id = Some n -> isValid_ n = false ->
  computeRecursively (S fuel) id s
  = store_update id (set_valid true)
      (compute id (computeDependencies fuel (dependencyNodes_ n) s)).
Proof. intros Hn Hv. simpl. by rewrite Hn, Hv. Qed.

End BigStep.

(** ** Acyclic stores

    What evaluation needs of a well-formed store: a dependency is an older
    object.  Unlike [wf_store], the property is inherited by the stores a
    store came from, which lets invariants of evaluation be stated without
    reference to the history of the store. *)

Section Acyclic.
Context {R : Type} `{EqDecision R, Inhabited R}.
Implicit Types (s : Store R) (n : Node R) (id d : NodeId).

Definition acyclic s : Prop :=
  forall id n d, heap s !! id = Some n -> Some d ∈ dependencyNodes_ n -> d < id.

Lemma wf_acyclic s : wf_store s -> acyclic s.
Proof. intros Hwf id n d. apply (wf_deps s Hwf). Qed.

Lemma acyclic_frame s s' : frame s s' -> acyclic s -> acyclic s'.
Proof.
  intros Hf Ha id n' d Hn' Hd.
  destruct (frame_lookup_back s s' id n' Hf Hn') as (n & Hn & [Hk _] & _).
  apply (Ha id n d Hn). by rewrite <- (node_key_deps _ _ Hk).
Qed.

Lemma acyclic_frame_back s s' : frame s s' -> acyclic s' -> acyclic s.
Proof.
  intros (_ & _ & Hf) Ha id n d Hn Hd. destruct (Hf id n Hn) as (n' & Hn' & [Hk _] & _).
  apply (Ha id n' d Hn'). by rewrite (node_key_deps _ _ Hk).
Qed.

Lemma acyclic_alloc_back s n : acyclic (alloc s n) -> acyclic s.
Proof.
  intros Ha id m d Hm. apply (Ha id m d). simpl.
  rewrite lookup_app_l; [done|by eapply lookup_lt_Some].
Qed.

Lemma acyclic_store_update_back s id (f : Node R -> Node R) :
  (forall n, dependencyNodes_ (f n) = dependencyNodes_ n) ->
  acyclic (store_update id f s) -> acyclic s.
Proof.
  intros Hf Ha i n d Hn Hd. apply (Ha i (if decide (id = i) then f n else n) d).
  - rewrite lookup_store_update, Hn. by case_decide.
  - case_decide; [by rewrite Hf|done].
Qed.

End Acyclic.

Section Facts.
Context {R : Type} `{EqDecision R, Inhabited R} {Cmp : Compute R} `{!ComputeLaws R}.
Implicit Types (s : Store R) (n : Node R) (id d : NodeId) (deps : list NodeRef).

(** ** By induction on the relation *)

Lemma evaluates_frame s id s' : evaluates s id s' -> frame s s'.
Proof.
  revert s id s'.
  apply (evaluates_mut (fun s _ s' => frame s s') (fun s _ s' => frame s s'));
    try done.
  - intros s id n s1 _ _ _ Hf _.
    etrans; [exact Hf|]. etrans; [apply compute_frame|apply frame_set_valid].
  - intros s d s1 deps s' _ H1 _ H2. by etrans.
Qed.

Lemma evaluates_deps_frame s deps s' : evaluates_deps s deps s' -> frame s s'.
Proof.
  induction 1 as [| |s d s1 deps s' Hd _ IH]; [done..|].
  etrans; [by eapply evaluates_frame|done].
Qed.

Lemma evaluates_valid_at s id s' : evaluates s id s' -> valid_at s' id.
Proof.
  destruct 1 as [s id n Hn Hv|s id n s1 Hn Hv Hdeps Hall]; [by exists n|].
  assert (frame s (compute id s1)) as (HL & _ & _).
  { etrans; [by eapply evaluates_deps_frame|apply compute_frame]. }
  destruct (lookup_lt_is_Some_2 (heap (compute id s1)) id) as [m Hm].
  { rewrite HL. by eapply lookup_lt_Some. }
  exists (set_valid true m). split; [|done]. simpl. by rewrite list_lookup_alter_eq, Hm.
Qed.

(** ** The function with fuel follows the relation *)

Lemma computeDependencies_frame fuel deps s : frame s (computeDependencies fuel deps s).
Proof.
  revert s. induction deps as [|[d|] deps IH]; intros s; simpl; [done| |apply IH].
  etrans; [apply frame_computeRecursively|apply IH].
Qed.

Lemma computeDependencies_keeps_valid fuel deps s i :
  valid_at s i -> valid_at (computeDependencies fuel deps s) i.
Proof.
  revert s. induction deps as [|[d|] deps IH]; intros s Hv; simpl; [done| |by apply IH].
  by apply IH, computeRecursively_keeps_valid.
Qed.

(** The dependencies, given that the function follows the relation on
    each of them. *)
Lemma computeDependencies_evaluates fuel deps s :
  (forall d s1, Some d ∈ deps -> frame s s1 ->
     evaluates s1 d (computeRecursively fuel d s1)) ->
  evaluates_deps s deps (computeDependencies fuel deps s)
  /\ forall d, Some d ∈ deps -> valid_at (computeDependencies fuel deps s) d.
Proof.
  revert s. induction deps as [|[d|] deps IH]; intros s Hrec; simpl.
  - split; [constructor|]. by intros d ?%elem_of_nil.
  - destruct (IH (computeRecursively fuel d s)) as [Hdeps Hvalid].
    { intros d' s1 Hd' Hf. apply Hrec; [by right|].
      etrans; [apply frame_computeRecursively|done]. }
    assert (evaluates s d (computeRecursively fuel d s)) as Hd
      by (apply Hrec; [left|done]).
    split; [by econstructor|].
    intros d' [[= ->]|Hd']%elem_of_cons; [|by apply Hvalid].
    by apply computeDependencies_keeps_valid, (evaluates_valid_at s).
  - destruct (IH s) as [Hdeps Hvalid].
    { intros d' s1 Hd' Hf. apply Hrec; [by right|done]. }
    split; [by constructor|].
    intros d' [[=]|Hd']%elem_of_cons. by apply Hvalid.
Qed.

(** Fuel above the index of the node is enough: a dependency is an older
    object. *)
Lemma computeRecursively_evaluates fuel id s :
  acyclic s -> id < length (heap s) -> id < fuel ->
  evaluates s id (computeRecursively fuel id s).
Proof.
  revert id s. induction fuel as [|fuel IH]; intros id s Hwf Hid Hfuel; [lia|].
  destruct (lookup_lt_is_Some_2 _ _ Hid) as [n Hn].
  destruct (isValid_ n) eqn:Hv.
  { rewrite (computeRecursively_valid _ _ _ _ Hn Hv). by econstructor. }
  rewrite (computeRecursively_S _ _ _ _ Hn Hv).
  destruct (computeDependencies_evaluates fuel (dependencyNodes_ n) s) as [Hdeps Hvalid];
    [|by econstructor].
  intros d s1 Hd Hf. pose proof (Hwf _ _ _ Hn Hd) as Hlt.
  apply IH; [by eapply acyclic_frame|destruct Hf as (-> & _); lia|lia].
Qed.

(** [getTargetValue] evaluates the node in dependency order, leaves it
    evaluated, and returns. *)
Lemma getTargetValue_evaluates id s :
  wf_store s -> id < length (heap s) ->
  evaluates s id (final (getTargetValue id) s)
  /\ valid_at (final (getTargetValue id) s) id
  /\ is_ok (outcome (getTargetValue id) s) = true.
Proof.
  intros Hwf Hid.
  assert (evaluates s id (final (getTargetValue id) s)) as Hev.
  { rewrite getTargetValue_final.
    by apply computeRecursively_evaluates; [apply wf_acyclic|..]. }
  split_and!; [done|by apply (evaluates_valid_at s)|by apply getTargetValue_ok].
Qed.

(** Evaluating twice is evaluating once: the second [getTargetValue]
    finds the node valid, returns the value of the first and leaves the
    store as it is. *)
Lemma getTargetValue_twice id s :
  id < length (heap s) ->
  getTargetValue id (final (getTargetValue id) s)
  = (outcome (getTargetValue id) s, final (getTargetValue id) s).
Proof.
  intros Hid. destruct (getTargetValue_makes_valid id s Hid) as (n & Hn & Hv).
  rewrite (getTargetValue_valid _ _ _ Hn Hv). f_equal.
  unfold outcome, getTargetValue, bind, modify. simpl.
  rewrite getTargetValue_final in Hn. by rewrite (accessValueConst_run _ _ _ Hn).
Qed.

End Facts.
