(* ===== verification/Invalidation.v ===== *)
(** * Invalidation: mutable leaves and the scope of a change

    A value set from outside (a branch length, a parameter of a model, a
    matrix of emission likelihoods) lives in a [NumericMutable] node: a
    leaf, valid from construction, that is never computed.  [setValue]
    invalidates the node and, recursively, the nodes that depend on it,
    writes the value and makes the leaf valid again; the next
    [getTargetValue] on a node above recomputes what was invalidated and
    nothing else.

    The classes [NumericMutable] and [Node_DF] are not among the sources;
    they are modelled from the specification (sections 3, 4.1 and 5: the
    dirty flag, mark-dirty propagation to the dependents, invalidation of
    the downstream cone).  In the library a node keeps the vector of its
    dependents, filled by the constructors of the nodes that depend on it;
    the model reads the dependents off the heap ([dependentNodes]).

    [invalidateRecursively] stops at a node that is already invalid.  That
    is right only in a store where every valid node has valid dependencies
    ([consistent]); the file proves that construction primitives,
    evaluation and [setValue] keep stores so, and that in such a store
    [invalidateRecursively] marks invalid exactly the nodes downstream of
    the one it starts from ([invalidate_spec]), with fuel enough for any
    well-formed store. *)

From stdpp Require Import base tactics option list relations strings.
From S2P Require Import Prelude Values DataFlow Evaluation.

Section Model.
Context {R : Type} `{EqDecision R, Inhabited R}.
Implicit Types (s : Store R) (n : Node R) (id self : NodeId).

(** [dependentNodes_] of the node [id]: the nodes that list [id] among
    their dependencies, by increasing age. *)
Definition dependentNodes s id : list NodeId :=
  fst <$> filter (fun p => Some id ∈ dependencyNodes_ p.2) (imap pair (heap s)).

(** [Node_DF::invalidateRecursively]: a valid node is made invalid, and its
    dependents are invalidated in turn; an invalid node is left alone.  The
    recursion follows the dependents; [fuel] bounds its depth. *)
Fixpoint invalidateRecursively (fuel : nat) id s : Store R :=
  match fuel with
  | 0 => s
  | S fuel' =>
      match heap s !! id with
      | None => s
      | Some n =>
          if isValid_ n then
            foldl (fun acc d => invalidateRecursively fuel' d acc)
                  (store_update id (set_valid false) s) (dependentNodes s id)
          else s
      end
  end.

(** A chain of dependents is not longer than the heap. *)
Definition invalidate id s : Store R := invalidateRecursively (length (heap s)) id s.

End Model.

(** ** Mutable leaves

    [NumericMutable<T>]: no dependencies, valid from construction, not
    cached ([create] is [std::make_shared]), and written by [setValue]. *)

Module NumericMutable.
Section WithScalar.
Context {R : Type} `{EqDecision R, Inhabited R}.

Definition construct (T : ValueType) (value : Value R) : Node R :=
  mkNode (T_NumericMutable T) [] true value (mkDim 0 0) None empty_matrix.

Definition create (T : ValueType) (value : Value R) : M R NodeId :=
  make_shared (construct T value).

(** [setValue (t)]: [invalidateRecursively (); value_ = t; makeValid ()]. *)
Definition setValue (self : NodeId) (t : Value R) : M R unit :=
  dereference self ;;
  modify (invalidate self) ;;
  update_node self (set_value t) ;;
  update_node self (set_valid true).

End WithScalar.
End NumericMutable.

(** ** The invariant of validity and the downstream cone *)

Section Cone.
Context {R : Type} `{EqDecision R, Inhabited R}.
Implicit Types (s acc : Store R) (n m : Node R) (id i d p : NodeId)
  (V C : NodeId -> Prop).

(** [edge s a b]: the node [b] depends on [a]. *)
Definition edge s (a b : NodeId) : Prop :=
  exists n, heap s !! b = Some n /\ Some a ∈ dependencyNodes_ n.

(** [downstream s p i]: [i] is [p] or depends on it, directly or not. *)
Definition downstream s p : NodeId -> Prop := rtc (edge s) p.

(** [quasi V s]: a valid node has valid dependencies, unless it is in
    [V]; [consistent] is [quasi] without exception. *)
Definition quasi V s : Prop :=
  forall i n d, heap s !! i = Some n -> isValid_ n = true ->
    Some d ∈ dependencyNodes_ n -> valid_at s d \/ V i.

Definition consistent s : Prop :=
  forall i n d, heap s !! i = Some n -> isValid_ n = true ->
    Some d ∈ dependencyNodes_ n -> valid_at s d.

(** The decision procedure for [consistent]. *)
Definition validb s d : bool :=
  match heap s !! d with Some m => isValid_ m | None => false end.

Definition consistentb s : bool :=
  forallb (fun n => negb (isValid_ n)
                    || forallb (fun r => match r with
                                         | Some d => validb s d
                                         | None => true
                                         end) (dependencyNodes_ n)) (heap s).

(** [touched s s' C]: [s'] is [s] with some nodes of [C] made invalid. *)
Definition touched s s' C : Prop :=
  nodeCache_ s' = nodeCache_ s
  /\ forall i, heap s' !! i = heap s !! i
               \/ (C i /\ heap s' !! i = set_valid false <$> heap s !! i).

Lemma elem_of_dependentNodes s id i :
  i ∈ dependentNodes s id <-> edge s id i.
Proof.
  unfold dependentNodes, edge. rewrite list_elem_of_fmap. split.
  - intros ([j n] & -> & [Hd Hin]%list_elem_of_filter).
    apply elem_of_lookup_imap in Hin as (j' & n' & [= -> ->] & Hn). by exists n'.
  - intros (n & Hn & Hd). exists (i, n). split; [done|].
    apply list_elem_of_filter. split; [done|].
    apply elem_of_lookup_imap. by exists i, n.
Qed.

Lemma validb_spec s d : validb s d = true <-> valid_at s d.
Proof.
  unfold validb, valid_at. destruct (heap s !! d) as [m|]; split.
  - intros Hv. by exists m.
  - by intros (m' & [= <-] & Hv).
  - done.
  - by intros (m' & [=] & _).
Qed.

Lemma consistentb_spec s : consistentb s = true -> consistent s.
Proof.
  unfold consistentb. intros Hall%Is_true_true i n d Hn Hv Hd.
  rewrite forallb_True in Hall. eapply Forall_lookup_1 in Hall; [|exact Hn].
  simpl in Hall. rewrite Hv in Hall. simpl in Hall. rewrite forallb_True in Hall.
  eapply Forall_forall in Hall; [|exact Hd]. by apply validb_spec, Is_true_true.
Qed.

Lemma quasi_consistent s : quasi (fun _ => False) s <-> consistent s.
Proof.
  split; intros Hq i n d Hn Hv Hd; [|left; eauto].
  by destruct (Hq i n d Hn Hv Hd).
Qed.

Lemma set_valid_false_id n : isValid_ n = false -> set_valid false n = n.
Proof. destruct n. simpl. by intros ->. Qed.

(** *** What [touched] keeps *)

Lemma touched_refl s C : touched s s C.
Proof. split; [done|]. by left. Qed.

Lemma touched_trans s1 s2 s3 C C' :
  (forall i, C' i -> C i) ->
  touched s1 s2 C -> touched s2 s3 C' -> touched s1 s3 C.
Proof.
  intros Hsub [HC12 H12] [HC23 H23]. split; [congruence|]. intros i.
  destruct (H23 i) as [->|[Hi ->]]; [done|].
  right. split; [auto|]. destruct (H12 i) as [->|[_ ->]]; [done|].
  by destruct (heap s1 !! i).
Qed.

Lemma touched_lookup s s' C i n' :
  touched s s' C -> heap s' !! i = Some n' ->
  exists n, heap s !! i = Some n /\ dependencyNodes_ n' = dependencyNodes_ n
            /\ node_key n' = node_key n /\ targetDimension_ n' = targetDimension_ n
            /\ condLik_ n' = condLik_ n /\ value_ n' = value_ n
            /\ (isValid_ n' = true -> n' = n).
Proof.
  intros [_ Ht] Hn'. destruct (Ht i) as [Heq|[_ Heq]]; rewrite Hn' in Heq.
  - exists n'. by split_and!.
  - destruct (heap s !! i) as [n|]; [|done]. injection Heq as ->.
    exists n. by split_and!.
Qed.

Lemma touched_lookup_old s s' C i n :
  touched s s' C -> heap s !! i = Some n ->
  heap s' !! i = Some n \/ heap s' !! i = Some (set_valid false n).
Proof. intros [_ Ht] Hn. destruct (Ht i) as [->|[_ ->]]; rewrite Hn; auto. Qed.

Lemma touched_None s s' C i :
  touched s s' C -> heap s' !! i = None <-> heap s !! i = None.
Proof.
  intros [_ Ht]. destruct (Ht i) as [->|[_ ->]]; [done|]. by rewrite fmap_None.
Qed.

Lemma touched_frame s s' C : touched s s' C -> frame s s'.
Proof.
  intros Ht. pose proof Ht as [HC Hl]. split_and!; [|done|].
  - apply Nat.le_antisymm; apply lookup_ge_None.
    + apply (touched_None _ _ _ _ Ht), lookup_ge_None. lia.
    + apply (touched_None _ _ _ _ Ht), lookup_ge_None. lia.
  - intros i n Hn.
    destruct (touched_lookup_old _ _ _ _ _ Ht Hn) as [Hn'|Hn']; eexists;
      (split; [exact Hn'|]); by split.
Qed.

Lemma touched_valid s s' C i : touched s s' C -> valid_at s' i -> valid_at s i.
Proof.
  intros Ht (n' & Hn' & Hv).
  destruct (touched_lookup _ _ _ _ _ Ht Hn') as (n & Hn & _ & _ & _ & _ & _ & Heq).
  exists n. split; [done|]. by rewrite <- (Heq Hv).
Qed.

(** The dependencies are those of the objects: stores with the same
    objects have the same edges. *)
Lemma edge_frame s s' a b : frame s s' -> edge s' a b <-> edge s a b.
Proof.
  intros Hf. split.
  - intros (n' & Hn' & Hd).
    destruct (frame_lookup_back _ _ _ _ Hf Hn') as (n & Hn & [Hk _] & _).
    exists n. by rewrite <- (node_key_deps _ _ Hk).
  - intros (n & Hn & Hd).
    destruct (proj2 (proj2 Hf) b n Hn) as (n' & Hn' & [Hk _] & _).
    exists n'. by rewrite (node_key_deps _ _ Hk).
Qed.

Lemma downstream_frame s s' p i : frame s s' -> downstream s' p i <-> downstream s p i.
Proof.
  intros Hf. split; apply rtc_subrel; intros a b; by apply (edge_frame s s').
Qed.

Lemma edge_touched s s' C a b : touched s s' C -> edge s' a b <-> edge s a b.
Proof. intros Ht. by eapply edge_frame, touched_frame. Qed.

Lemma downstream_touched s s' C p i :
  touched s s' C -> downstream s' p i -> downstream s p i.
Proof. intros Ht. apply (downstream_frame s s' p i (touched_frame _ _ _ Ht)). Qed.

(** Nothing but itself is upstream of a node without dependencies. *)
Lemma downstream_leaf s p i n :
  heap s !! i = Some n -> dependencyNodes_ n = [] -> downstream s p i -> i = p.
Proof.
  intros Hn Hd Hp. apply rtc_inv_r in Hp as [->|(a & _ & m & Hm & Ha)]; [done|].
  rewrite Hn in Hm. injection Hm as <-. rewrite Hd in Ha. by apply elem_of_nil in Ha.
Qed.

(** In a well-formed store a dependent is a younger object. *)
Lemma edge_lt s a b : wf_store s -> edge s a b -> a < b.
Proof. intros Hwf (n & Hn & Hd). by eapply wf_deps. Qed.

Lemma downstream_le s p i : wf_store s -> downstream s p i -> p <= i.
Proof.
  intros Hwf. induction 1 as [|a b c Hab _ IH]; [done|].
  apply (edge_lt _ _ _ Hwf) in Hab. lia.
Qed.

(** Objects made later are downstream of nothing older than they depend
    on: what is downstream of [p] among the objects of [s] is the same in
    a store [s'] that has the objects of [s] and new ones. *)
Lemma downstream_old s s' p i :
  wf_store s' -> (forall j, j < length (heap s) -> heap s' !! j = heap s !! j) ->
  i < length (heap s) -> downstream s' p i -> downstream s p i.
Proof.
  intros Hwf Hold Hi Hd. revert i Hd Hi. apply (rtc_ind_r (fun i => _ -> downstream s p i)).
  - intros _. constructor.
  - intros b c _ Hbc IH Hc. pose proof (edge_lt _ _ _ Hwf Hbc) as Hlt.
    eapply rtc_r; [apply IH; lia|]. destruct Hbc as (n & Hn & Hin).
    exists n. by rewrite <- Hold.
Qed.

End Cone.

(** ** The scope of [invalidateRecursively] *)

Section Scope.
Context {R : Type} `{EqDecision R, Inhabited R}.
Implicit Types (s acc : Store R) (n m : Node R) (id i d p : NodeId)
  (V C : NodeId -> Prop).

(** The first step: the node itself. *)
Lemma touched_set_invalid s id n :
  heap s !! id = Some n ->
  touched s (store_update id (set_valid false) s) (downstream s id).
Proof.
  intros Hn. split; [done|]. intros i. simpl. destruct (decide (id = i)) as [<-|Hne].
  - right. split; [constructor|]. by rewrite list_lookup_alter_eq.
  - left. by rewrite list_lookup_alter_ne.
Qed.

Lemma quasi_set_invalid V s id n :
  heap s !! id = Some n -> quasi V s ->
  quasi (fun i => V i \/ i ∈ dependentNodes s id) (store_update id (set_valid false) s).
Proof.
  intros Hn Hq i m d Hm Hv Hd. simpl in Hm.
  destruct (decide (id = i)) as [<-|Hne].
  { rewrite list_lookup_alter_eq, Hn in Hm. by simplify_eq/=. }
  rewrite list_lookup_alter_ne in Hm by done.
  destruct (Hq i m d Hm Hv Hd) as [(x & Hx & Hvx)|HV]; [|by right; left].
  destruct (decide (id = d)) as [<-|Hnd].
  - right. right. apply elem_of_dependentNodes. by exists m.
  - left. exists x. split; [|done]. simpl. by rewrite list_lookup_alter_ne.
Qed.

(** The loop over the dependents, given what the recursive calls do. *)
Lemma invalidate_dependents fuel s id V ds :
  (forall d acc V', wf_store acc -> length (heap acc) <= fuel + d -> quasi V' acc ->
     touched acc (invalidateRecursively fuel d acc) (downstream acc d)
     /\ ~ valid_at (invalidateRecursively fuel d acc) d
     /\ quasi V' (invalidateRecursively fuel d acc)) ->
  wf_store s -> length (heap s) <= S fuel + id -> Forall (edge s id) ds ->
  forall acc,
    touched s acc (downstream s id) -> ~ valid_at acc id ->
    quasi (fun i => V i \/ i ∈ ds) acc ->
    let s' := foldl (fun acc d => invalidateRecursively fuel d acc) acc ds in
    touched s s' (downstream s id) /\ ~ valid_at s' id /\ quasi V s'.
Proof.
  intros IH Hwf Hfuel Hds. induction Hds as [|d ds Hd _ IHds]; intros acc Ht Hnv Hq; simpl.
  { split_and!; [done..|]. intros i n x Hn Hv Hx.
    destruct (Hq i n x Hn Hv Hx) as [?|[?|[]%elem_of_nil]]; auto. }
  pose proof (touched_frame _ _ _ Ht) as Hf.
  destruct (IH d acc (fun i => V i \/ i ∈ d :: ds)) as (Ht' & Hnv' & Hq');
    [by eapply wf_frame| |done|].
  { destruct Hf as (-> & _). apply (edge_lt _ _ _ Hwf) in Hd. lia. }
  apply IHds.
  - eapply touched_trans; [|exact Ht|exact Ht']. intros i Hi.
    eapply rtc_l; [exact Hd|]. by eapply downstream_touched.
  - intros Hv. by apply Hnv, (touched_valid _ _ _ _ Ht').
  - intros i n x Hn Hv Hx.
    destruct (Hq' i n x Hn Hv Hx) as [?|[?|[->|?]%elem_of_cons]]; auto.
    destruct Hnv'. by exists n.
Qed.

(** What [invalidateRecursively] does, with exceptions to consistency
    allowed so that the statement covers the recursive calls. *)
Lemma invalidateRecursively_spec fuel id s V :
  wf_store s -> length (heap s) <= fuel + id -> quasi V s ->
  touched s (invalidateRecursively fuel id s) (downstream s id)
  /\ ~ valid_at (invalidateRecursively fuel id s) id
  /\ quasi V (invalidateRecursively fuel id s).
Proof.
  revert id s V. induction fuel as [|fuel IH]; intros id s V Hwf Hfuel Hq; simpl.
  { split_and!; [apply touched_refl| |done].
    intros (n & Hn%lookup_lt_Some & _). lia. }
  destruct (heap s !! id) as [n|] eqn:Hn;
    [|split_and!; [apply touched_refl|intros (m & Hm & _); congruence|done]].
  destruct (isValid_ n) eqn:Hv;
    [|split_and!; [apply touched_refl|intros (m & Hm & ?); congruence|done]].
  apply (invalidate_dependents fuel s id V); try done.
  - apply Forall_forall. intros d. by apply elem_of_dependentNodes.
  - by eapply touched_set_invalid.
  - intros (m & Hm & Hvm). simpl in Hm. rewrite list_lookup_alter_eq, Hn in Hm.
    by simplify_eq/=.
  - by eapply quasi_set_invalid.
Qed.

(** In a consistent store a node downstream of an invalid node is
    invalid. *)
Lemma downstream_invalid s p i :
  consistent s -> ~ valid_at s p -> downstream s p i -> ~ valid_at s i.
Proof.
  intros Hc Hp. revert i. apply rtc_ind_r; [done|].
  intros b c _ (n' & Hn' & Hd) IH (n & Hn & Hv). simplify_eq.
  apply IH. by eapply Hc.
Qed.

(** The scope of an invalidation: in a well-formed and consistent store
    [invalidate] makes invalid the nodes downstream of [id], leaves every
    other node as it is, and the store consistent. *)
Lemma invalidate_spec id s :
  wf_store s -> consistent s ->
  let s' := invalidate id s in
  touched s s' (downstream s id) /\ consistent s' /\ ~ valid_at s' id
  /\ (forall i, downstream s id i -> heap s' !! i = set_valid false <$> heap s !! i)
  /\ (forall i, ~ downstream s id i -> heap s' !! i = heap s !! i).
Proof.
  intros Hwf Hc s'.
  destruct (invalidateRecursively_spec (length (heap s)) id s (fun _ => False))
    as (Ht & Hnv & Hq); [done|lia|by apply quasi_consistent|].
  fold (invalidate id s) in Ht, Hnv, Hq. fold s' in Ht, Hnv, Hq.
  apply quasi_consistent in Hq. split_and!; [done..| |].
  - intros i Hi.
    assert (~ valid_at s' i) as Hni.
    { eapply downstream_invalid; [done..|]. eapply rtc_subrel; [|exact Hi].
      intros a b. by apply (edge_touched s s' (downstream s id)). }
    destruct Ht as [_ Ht]. destruct (Ht i) as [Heq|[_ Heq]]; [|done].
    rewrite Heq. destruct (heap s !! i) as [n|] eqn:Hn; [|done]. simpl.
    rewrite set_valid_false_id; [done|].
    destruct (isValid_ n) eqn:Hv; [|done]. destruct Hni. exists n. by rewrite Heq.
  - intros i Hi. destruct Ht as [_ Ht]. by destruct (Ht i) as [Heq|[? _]].
Qed.

(** Without any hypothesis on the store: an invalidation only makes nodes
    invalid. *)
Lemma touched_invalidateRecursively fuel id s :
  touched s (invalidateRecursively fuel id s) (fun _ => True).
Proof.
  revert id s. induction fuel as [|fuel IH]; intros id s; simpl;
    [apply touched_refl|].
  destruct (heap s !! id) as [n|] eqn:Hn; [|apply touched_refl].
  destruct (isValid_ n); [|apply touched_refl].
  eapply (touched_trans _ _ _ _ (fun _ => True)); [done| |].
  { eapply (touched_trans _ _ _ _ (downstream s id)); [done|apply touched_refl|].
    by eapply touched_set_invalid. }
  generalize (dependentNodes s id), (store_update id (set_valid false) s).
  intros ds. induction ds as [|d ds IHds]; intros acc; simpl; [apply touched_refl|].
  eapply touched_trans; [done|apply IH|apply IHds].
Qed.

Lemma frame_invalidateRecursively fuel id s : frame s (invalidateRecursively fuel id s).
Proof. eapply touched_frame, touched_invalidateRecursively. Qed.

End Scope.

(** ** What keeps a store consistent *)

Section Consistency.
Context {R : Type} `{EqDecision R, Inhabited R}.
Implicit Types (s : Store R) (n m : Node R) (id i d self : NodeId) (v : Value R).

Lemma consistent_empty : consistent (empty_store (R:=R)).
Proof. by intros i n d [=]. Qed.

Lemma consistent_same_heap s s' : heap s' = heap s -> consistent s -> consistent s'.
Proof. intros Heq Hc i n d. unfold valid_at. rewrite Heq. apply Hc. Qed.

Lemma valid_at_alloc s n i : valid_at s i -> valid_at (alloc s n) i.
Proof.
  intros (m & Hm & Hv). exists m. split; [|done]. simpl.
  rewrite lookup_app_l; [done|by eapply lookup_lt_Some].
Qed.

(** A new object: invalid, or over evaluated dependencies. *)
Lemma consistent_alloc s n :
  (isValid_ n = true -> forall d, Some d ∈ dependencyNodes_ n -> valid_at s d) ->
  consistent s -> consistent (alloc s n).
Proof.
  intros Hn Hc i m d [Hm|[-> ->]]%lookup_snoc_Some Hv Hd; apply valid_at_alloc; eauto.
Qed.

Lemma valid_at_quiet s s' i : quiet s s' -> valid_at s i <-> valid_at s' i.
Proof.
  intros [_ Hv]. specialize (Hv i). unfold valid_at. split.
  - intros (n & Hn & Hvn). rewrite Hn in Hv.
    destruct (heap s' !! i) as [n'|]; [|done]. injection Hv as Hv.
    exists n'. split; [done|congruence].
  - intros (n' & Hn' & Hvn). rewrite Hn' in Hv.
    destruct (heap s !! i) as [n|]; [|done]. injection Hv as Hv.
    exists n. split; [done|congruence].
Qed.

(** A write that changes no flag. *)
Lemma consistent_quiet s s' : quiet s s' -> consistent s -> consistent s'.
Proof.
  intros Hq Hc i n' d Hn' Hvn Hd. apply (valid_at_quiet s s' d Hq).
  destruct (frame_lookup_back s s' i n' (proj1 Hq) Hn') as (n & Hn & [Hk _] & _).
  apply node_key_deps in Hk.
  assert (valid_at s i) as (m & Hm & Hvm)
    by (apply (valid_at_quiet s s' i Hq); by exists n').
  rewrite Hn in Hm. injection Hm as <-. apply (Hc i n d Hn Hvm). by rewrite <- Hk.
Qed.

(** A write that changes neither flags nor dependencies. *)
Lemma consistent_store_update s id (f : Node R -> Node R) :
  (forall n, isValid_ (f n) = isValid_ n /\ dependencyNodes_ (f n) = dependencyNodes_ n) ->
  consistent s -> consistent (store_update id f s).
Proof.
  intros Hf Hc i m d Hm Hv Hd.
  assert (forall j, valid_at s j -> valid_at (store_update id f s) j) as Hkeep.
  { intros j (x & Hx & Hvx). unfold valid_at. rewrite lookup_store_update, Hx.
    case_decide; eexists; (split; [done|]); [by rewrite (proj1 (Hf x))|done]. }
  apply Hkeep. rewrite lookup_store_update in Hm. case_decide; [subst|by eauto].
  destruct (heap s !! i) as [n|] eqn:Hn; simplify_eq/=. destruct (Hf n) as [Hv' Hd'].
  apply (Hc i n d Hn); congruence.
Qed.

(** Making valid a node whose dependencies are. *)
Lemma consistent_set_valid s id :
  (forall n d, heap s !! id = Some n -> Some d ∈ dependencyNodes_ n -> valid_at s d) ->
  consistent s -> consistent (store_update id (set_valid true) s).
Proof.
  intros Hdeps Hc i m d Hm Hv Hd. apply valid_at_set_valid.
  rewrite lookup_store_update in Hm. case_decide; [subst|by eauto].
  destruct (heap s !! i) as [n|] eqn:Hn; simplify_eq/=. by eapply Hdeps.
Qed.

End Consistency.

(** ** Evaluation keeps a store consistent *)

Section EvaluationKeeps.
Context {R : Type} `{EqDecision R, Inhabited R} {Cmp : Compute R} `{!ComputeLaws R}.
Implicit Types (s : Store R) (n : Node R) (id d : NodeId) (deps : list NodeRef).

(** [sane]: well formed and consistent. *)
Definition sane s : Prop := wf_store s /\ consistent s.

Lemma consistent_compute id s : consistent s -> consistent (compute id s).
Proof. apply consistent_quiet. by apply (proj2 (quiet_laws Cmp)). Qed.

Lemma evaluates_consistent s id s' :
  evaluates s id s' -> consistent s -> consistent s'.
Proof.
  revert s id s'.
  apply (evaluates_mut (fun s _ s' => consistent s -> consistent s')
           (fun s _ s' => consistent s -> consistent s')); auto.
  intros s id n s1 Hn Hv Hdeps IH Hall Hc.
  apply consistent_set_valid; [|by apply consistent_compute, IH].
  intros n2 d Hn2 Hd. apply valid_at_compute, Hall.
  assert (frame s (compute id s1)) as Hf
    by (etrans; [by eapply evaluates_deps_frame|apply compute_frame]).
  destruct (frame_lookup_back _ _ _ _ Hf Hn2) as (n' & Hn' & [Hk _] & _).
  apply node_key_deps in Hk. rewrite Hn in Hn'. injection Hn' as <-. by rewrite <- Hk.
Qed.

Lemma computeRecursively_dangling fuel id s :
  heap s !! id = None -> computeRecursively fuel id s = s.
Proof. intros Hn. destruct fuel; simpl; [done|]. by rewrite Hn. Qed.

Lemma consistent_getTargetValue id s :
  acyclic s -> consistent s -> consistent (final (getTargetValue id) s).
Proof.
  intros Ha Hc. rewrite getTargetValue_final. destruct (heap s !! id) as [n|] eqn:Hn.
  - eapply evaluates_consistent; [|done].
    apply computeRecursively_evaluates; [done|by eapply lookup_lt_Some..].
  - by rewrite computeRecursively_dangling.
Qed.

Lemma preserves_sane_getTargetValue id : preserves sane (getTargetValue id).
Proof.
  intros s [Hwf Hc]. split; [by apply preserves_wf_getTargetValue|].
  by apply consistent_getTargetValue; [apply wf_acyclic|].
Qed.

Lemma preserves_sane_dependencyTargetValue T (this : Node R) i :
  preserves sane (dependencyTargetValue T this i).
Proof.
  unfold dependencyTargetValue. apply preserves_bind.
  - apply readonly_preserves, readonly_dependencyAs.
  - intros d. apply preserves_sane_getTargetValue.
Qed.

End EvaluationKeeps.

#[export] Hint Resolve preserves_sane_getTargetValue
  preserves_sane_dependencyTargetValue : exc.

(** ** Construction keeps a store consistent

    [settled s]: [s] is consistent if it is acyclic.  Stated so, the
    invariant is kept by every primitive of construction and by
    evaluation, whatever the store: the stores a store came from are
    acyclic when it is. *)

Section Settled.
Context {R : Type} `{EqDecision R, Inhabited R} {Cmp : Compute R} `{!ComputeLaws R}.
Implicit Types (s : Store R) (n : Node R) (id self : NodeId).

Definition settled s : Prop := acyclic s -> consistent s.

(** A node as the constructors make them: not evaluated, or a leaf. *)
Definition fresh n : Prop := isValid_ n = false \/ dependencyNodes_ n = [].

Lemma preserves_settled_make_shared n : fresh n -> preserves settled (make_shared n).
Proof.
  intros Hn s Hs Ha. apply consistent_alloc; [|by apply Hs, (acyclic_alloc_back s n)].
  intros Hv d Hd. destruct Hn as [Hn|Hn]; [congruence|].
  rewrite Hn in Hd. by apply elem_of_nil in Hd.
Qed.

Lemma preserves_settled_cachedAs T id : preserves settled (cachedAs T id).
Proof.
  intros s Hs Ha. pose proof (cachedAs_heap T id s) as Heq.
  apply (consistent_same_heap s); [done|]. apply Hs. intros i n d. rewrite <- Heq.
  apply Ha.
Qed.

Lemma preserves_settled_set_condLik self c :
  preserves settled (update_node self (set_condLik c)).
Proof.
  intros s Hs Ha. apply (consistent_store_update s self); [done|].
  by apply Hs, (acyclic_store_update_back s self (set_condLik c)).
Qed.

Lemma preserves_settled_getTargetValue id : preserves settled (getTargetValue id).
Proof.
  intros s Hs Ha.
  assert (acyclic s) as Ha'
    by (eapply acyclic_frame_back; [apply always_frame_getTargetValue|done]).
  by apply consistent_getTargetValue; [|apply Hs].
Qed.

End Settled.

(** ** [setValue] *)

Section SetValue.
Context {R : Type} `{EqDecision R, Inhabited R}.
Implicit Types (s : Store R) (n : Node R) (self i : NodeId) (v : Value R)
  (T : ValueType).

Lemma setValue_run self v n s :
  heap s !! self = Some n ->
  NumericMutable.setValue self v s
  = (Ok tt, store_update self (set_valid true)
              (store_update self (set_value v) (invalidate self s))).
Proof.
  intros Hn. unfold NumericMutable.setValue, bind.
  by rewrite (dereference_Some _ _ _ Hn).
Qed.

(** A receiver that is not there: undefined, and nothing changes. *)
Lemma setValue_dangling self v s :
  heap s !! self = None ->
  NumericMutable.setValue self v s
  = (Err (UndefinedBehaviour "dangling reference"), s).
Proof.
  intros Hn. unfold NumericMutable.setValue, bind.
  by rewrite (dereference_None _ _ Hn).
Qed.

(** What [setValue] does to a leaf of a well-formed and consistent store:
    the leaf holds the value and is valid, the nodes downstream of it are
    invalid, and every other node is as it was. *)
Lemma setValue_spec self v n T s :
  wf_store s -> consistent s ->
  heap s !! self = Some n -> node_type n = T_NumericMutable T ->
  dependencyNodes_ n = [] ->
  let s' := final (NumericMutable.setValue self v) s in
  outcome (NumericMutable.setValue self v) s = Ok tt
  /\ frame s s' /\ consistent s'
  /\ heap s' !! self = Some (set_valid true (set_value v n))
  /\ (forall i, i <> self -> downstream s self i ->
        heap s' !! i = set_valid false <$> heap s !! i)
  /\ (forall i, ~ downstream s self i -> heap s' !! i = heap s !! i).
Proof.
  intros Hwf Hc Hn Ht Hdeps. unfold outcome, final. rewrite (setValue_run _ _ _ _ Hn).
  cbn [fst snd].
  destruct (invalidate_spec self s Hwf Hc) as (Htch & Hc' & _ & Hin & Hout).
  assert (heap (invalidate self s) !! self = Some (set_valid false n)) as Hself
    by (rewrite Hin, Hn; [done|constructor]).
  assert (quiet (invalidate self s)
            (store_update self (set_value v) (invalidate self s))) as Hq.
  { apply (quiet_set_value _ _ _ (T_NumericMutable T)); [|done].
    unfold type_at. by rewrite Hself, <- Ht. }
  split_and!; [done| | |..].
  - etrans; [by eapply touched_frame|]. etrans; [apply Hq|apply frame_set_valid].
  - apply consistent_set_valid; [|by eapply consistent_quiet].
    intros m d Hm Hd. rewrite lookup_store_update, decide_True, Hself in Hm by done.
    simplify_eq/=. rewrite Hdeps in Hd. by apply elem_of_nil in Hd.
  - rewrite !lookup_store_update, !decide_True, Hself by done. done.
  - intros i Hne Hi. rewrite !lookup_store_update, !decide_False by done. auto.
  - intros i Hi. assert (i <> self) by (intros ->; apply Hi; constructor).
    rewrite !lookup_store_update, !decide_False by done. auto.
Qed.

End SetValue.

(** ** The scope of a change *)

Section Claims.
Context {R : Type} `{EqDecision R, Inhabited R}.
Implicit Types (s : Store R) (n m : Node R) (self i : NodeId) (v : Value R)
  (T : ValueType).

(** C23. The scope of an invalidation.  [setValue] on a mutable leaf of a
    well-formed store in which every valid node has valid dependencies
    leaves the leaf valid with the new value, and every other node with
    its class, dependencies and value; such a node is valid afterwards
    exactly when it was valid before and is not downstream of the leaf.
    The store is again well formed, with valid nodes over valid
    dependencies only. *)
Theorem setValue_scope self v n T s :
  wf_store s -> consistent s ->
  heap s !! self = Some n -> node_type n = T_NumericMutable T ->
  dependencyNodes_ n = [] ->
  let s' := final (NumericMutable.setValue self v) s in
  heap s' !! self = Some (set_valid true (set_value v n))
  /\ wf_store s' /\ consistent s'
  /\ forall i m, i <> self -> heap s !! i = Some m ->
       exists m', heap s' !! i = Some m'
         /\ set_valid true m' = set_valid true m
         /\ (isValid_ m' = true <-> isValid_ m = true /\ ~ downstream s self i).
Proof.
  intros Hwf Hc Hn Ht Hdeps s'.
  destruct (setValue_spec self v n T s Hwf Hc Hn Ht Hdeps)
    as (_ & Hf & Hc' & Hself & Hin & Hout).
  split_and!; [done|by eapply wf_frame|done|]. intros i m Hne Hm.
  destruct (invalidate_spec self s Hwf Hc) as ([_ Htch] & _).
  assert (heap s' !! i = heap (invalidate self s) !! i) as Hs'.
  { unfold s', final. rewrite (setValue_run _ _ _ _ Hn). cbn [snd].
    by rewrite !lookup_store_update, !decide_False. }
  destruct (Htch i) as [Heq|[Hi Heq]]; rewrite Hm in Heq; rewrite Heq in Hs'.
  - exists m. split_and!; [done..|]. split; [|by intros [? _]].
    intros Hv. split; [done|]. intros Hi. specialize (Hin i Hne Hi).
    change (heap s' !! i = set_valid false <$> heap s !! i) in Hin.
    rewrite Hs', Hm in Hin. injection Hin as Hin. by rewrite Hin in Hv.
  - exists (set_valid false m). split_and!; [done..|]. split; [done|by intros [_ []]].
Qed.

End Claims.

(** ** An example: two leaves and three nodes over them

    Node 2 depends on the leaf 0, node 3 on node 2, node 4 on the leaf 1;
    all of them are evaluated. *)

Module InvalidationExample.

Definition leaf (x : Z) : Node Z := NumericMutable.construct TDouble (VDouble x).
Definition negate (d : NodeId) (x : Z) : Node Z :=
  mkNode (T_CWiseNegate TDouble) [Some d] true (VDouble x) (mkDim 0 0) None empty_matrix.

Definition graph : Store Z :=
  foldl alloc empty_store [leaf 1; leaf 2; negate 0 (-1); negate 2 1; negate 1 (-2)].

Lemma wf_graph : wf_store graph.
Proof.
  unfold graph. simpl.
  repeat (apply wf_alloc;
          [|intros d Hd; simpl in Hd;
            repeat (apply elem_of_cons in Hd as [[= ->]|Hd]; [simpl; lia|]);
            by apply elem_of_nil in Hd
           |by intros c [=]]).
  apply wf_empty.
Qed.

Lemma consistent_graph : consistent graph.
Proof. by apply consistentb_spec. Qed.

(** A new value for the leaf 0: the nodes 2 and 3 are invalid, the leaf 1
    and node 4 are as they were. *)
Example setValue_graph :
  heap (final (NumericMutable.setValue 0 (VDouble 5%Z)) graph)
  = [leaf 5; leaf 2; set_valid false (negate 0 (-1)); set_valid false (negate 2 1);
     negate 1 (-2)].
Proof. reflexivity. Qed.

End InvalidationExample.

Lemma setValue_scope_witness :
  let s' := final (NumericMutable.setValue 0 (VDouble 5%Z)) InvalidationExample.graph in
  heap s' !! 0 = Some (InvalidationExample.leaf 5)
  /\ wf_store s' /\ consistent s'
  /\ forall i m, i <> 0 -> heap InvalidationExample.graph !! i = Some m ->
       exists m', heap s' !! i = Some m'
         /\ set_valid true m' = set_valid true m
         /\ (isValid_ m' = true
             <-> isValid_ m = true /\ ~ downstream InvalidationExample.graph 0 i).
Proof.
  exact (setValue_scope 0 (VDouble 5%Z) (InvalidationExample.leaf 1) TDouble
           InvalidationExample.graph InvalidationExample.wf_graph
           InvalidationExample.consistent_graph eq_refl eq_refl eq_refl).
Defined.
