(* ===== verification/Expression.v ===== *)
(** * Expression: what a node of the graph stands for

    A node of the dataflow graph is shared: the cache returns one object
    for every request with the same class, dependencies and arguments.
    What a node computes does not depend on the sharing; it is the
    expression obtained by unfolding the node along its dependencies.  This
    file defines that expression ([Term]), the unfolding ([unfold], by fuel,
    and [expression], with the fuel that is enough in a well-formed store),
    and proves that the expression of a node exists in a well-formed store,
    does not depend on the fuel, and is kept when the store grows.

    The classes whose objects are known by identity and not by structure
    (parameters, configured models, frequency sets, distributions and trees:
    they hold a value or an object set from outside) are the atoms of
    expressions. *)

From stdpp Require Import base tactics option list.
From S2P Require Import Prelude Values DataFlow.

(** An expression: an input, known by its identity, or a class applied to
    the expressions of its dependencies (null or not), with the value of a
    constant as its argument. *)
#[warnings="-register-all"]
Inductive Term (R : Type) : Type :=
| TInput (id : NodeId)
| TNode (t : type_info) (arg : option (Value R)) (deps : list (option (Term R))).

Arguments TInput {R} _.
Arguments TNode {R} _ _ _.

(** The classes of the inputs of a graph. *)
Definition is_input (t : type_info) : bool :=
  match t with
  | T_NumericMutable _ | T_ConfiguredModel | T_ConfiguredFrequenciesSet
  | T_ConfiguredDistribution | T_ConfiguredPhyloTree => true
  | _ => false
  end.

Section Unfold.
Context {R : Type} `{EqDecision R, Inhabited R}.
Implicit Types (s : Store R) (n : Node R) (id c : NodeId) (d : NodeRef)
  (t : Term R) (ot : option (Term R)) (ts : list (option (Term R)))
  (rec : NodeId -> option (Term R)).

(** The argument of a node: what its key holds beside class and
    dependencies. *)
Definition node_arg n : option (Value R) := (node_key n).2.

(** The expressions of a vector of dependencies, given those of the
    nodes. *)
Definition unfold_deps rec (deps : list NodeRef) : option (list (option (Term R))) :=
  foldr (fun d acc =>
           ot ← match d with Some i => Some <$> rec i | None => Some None end;
           ts ← acc; Some (ot :: ts))
        (Some []) deps.

Fixpoint unfold (fuel : nat) s id : option (Term R) :=
  match fuel with
  | 0 => None
  | S fuel' =>
      n ← heap s !! id;
      if is_input (node_type n) then Some (TInput id)
      else ts ← unfold_deps (unfold fuel' s) (dependencyNodes_ n);
           Some (TNode (node_type n) (node_arg n) ts)
  end.

(** A dependency is an older object: the depth of a node is at most its
    index. *)
Definition expression s id : option (Term R) := unfold (S id) s id.

Definition denotes s id t : Prop := expression s id = Some t.

(** A reference and its expression: null for null. *)
Definition ref_term rec d ot : Prop :=
  match d, ot with
  | Some i, Some t => rec i = Some t
  | None, None => True
  | _, _ => False
  end.

Definition denotes_ref s : NodeRef -> option (Term R) -> Prop :=
  ref_term (expression s).

(** ** Unfolding a vector of dependencies *)

Lemma unfold_deps_Some rec deps ts :
  unfold_deps rec deps = Some ts <-> Forall2 (ref_term rec) deps ts.
Proof.
  revert ts. induction deps as [|d deps IH]; intros ts; simpl.
  - split; [by intros [= <-]; constructor|by intros ->%Forall2_nil_inv_l].
  - split.
    + destruct d as [i|]; simpl; [destruct (rec i) eqn:Hi; simpl; [|done]|];
        (destruct (unfold_deps rec deps) as [ts'|]; simpl; [|done]);
        intros [= <-]; (constructor; [done|by apply IH]).
    + intros (ot & ts' & Hd & Hts%IH & ->)%Forall2_cons_inv_l. rewrite Hts.
      destruct d as [i|], ot as [t|]; simpl in *; try done. by rewrite Hd.
Qed.

Lemma ref_term_impl rec rec' d ot :
  (forall i t, d = Some i -> rec i = Some t -> rec' i = Some t) ->
  ref_term rec d ot -> ref_term rec' d ot.
Proof. destruct d, ot; simpl; auto. Qed.

Lemma unfold_deps_impl rec rec' deps ts :
  (forall i t, Some i ∈ deps -> rec i = Some t -> rec' i = Some t) ->
  unfold_deps rec deps = Some ts -> unfold_deps rec' deps = Some ts.
Proof.
  rewrite !unfold_deps_Some. intros Himp Hall. revert Himp.
  induction Hall as [|d ot deps ts Hd _ IH]; intros Himp; constructor.
  - eapply ref_term_impl; [|done]. intros i t -> Hi. apply Himp; [left|done].
  - apply IH. intros i t Hi. apply Himp. by right.
Qed.

(** ** Fuel *)

Lemma unfold_S fuel s id n :
  heap s !! id = Some n ->
  unfold (S fuel) s id =
    if is_input (node_type n) then Some (TInput id)
    else ts ← unfold_deps (unfold fuel s) (dependencyNodes_ n);
         Some (TNode (node_type n) (node_arg n) ts).
Proof. intros Hn. simpl. by rewrite Hn. Qed.

Lemma unfold_lookup fuel s id t :
  unfold fuel s id = Some t -> is_Some (heap s !! id).
Proof. destruct fuel; simpl; [done|]. by destruct (heap s !! id). Qed.

(** More fuel gives the same expression. *)
Lemma unfold_mono fuel fuel' s id t :
  fuel <= fuel' -> unfold fuel s id = Some t -> unfold fuel' s id = Some t.
Proof.
  revert fuel' id t. induction fuel as [|fuel IH]; intros [|fuel'] id t Hle; try done;
    [lia|].
  simpl. destruct (heap s !! id) as [n|]; simpl; [|done].
  destruct (is_input _); [done|].
  destruct (unfold_deps (unfold fuel s) _) as [ts|] eqn:Hts; simpl; [|done].
  intros [= <-].
  rewrite (unfold_deps_impl (unfold fuel s) (unfold fuel' s) _ ts); [done| |done].
  intros i t _. apply IH. lia.
Qed.

(** In a well-formed store the index of a node is fuel enough. *)
Lemma expression_total s id :
  wf_store s -> id < length (heap s) -> is_Some (expression s id).
Proof.
  intros Hwf. unfold expression.
  induction id as [id IH] using lt_wf_ind. intros Hid.
  destruct (lookup_lt_is_Some_2 _ _ Hid) as [n Hn]. rewrite (unfold_S _ _ _ _ Hn).
  destruct (is_input _); [done|].
  assert (exists ts, unfold_deps (unfold id s) (dependencyNodes_ n) = Some ts)
    as [ts ->]; [|done].
  assert (forall i, Some i ∈ dependencyNodes_ n -> i < id) as Hdeps
    by (intros i; by apply (wf_deps _ Hwf id n)).
  clear Hn. induction (dependencyNodes_ n) as [|[i|] deps IHd]; simpl; [by eexists|..].
  - destruct IHd as [ts ->]; [intros i' ?; apply Hdeps; by right|].
    assert (i < id) as Hi by (apply Hdeps; left).
    destruct (IH i Hi) as [t Ht]; [lia|].
    rewrite (unfold_mono (S i) id s i t) by (done || lia). by eexists.
  - destruct IHd as [ts ->]; [intros i' ?; apply Hdeps; by right|]. by eexists.
Qed.

(** Whatever the fuel, an unfolding that succeeds gives the expression. *)
Lemma unfold_expression fuel s id t :
  wf_store s -> unfold fuel s id = Some t -> denotes s id t.
Proof.
  intros Hwf Hu. unfold denotes, expression.
  destruct (decide (fuel <= S id)) as [Hle|Hgt]; [by eapply unfold_mono|].
  destruct (expression_total s id Hwf) as [t' Ht'].
  { eapply lookup_lt_is_Some_1, unfold_lookup, Hu. }
  unfold expression in Ht'. rewrite Ht'.
  rewrite (unfold_mono (S id) fuel s id t') in Hu by (done || lia). done.
Qed.

(** ** The expression of a node from those of its dependencies *)

Lemma denotes_input s id n :
  heap s !! id = Some n -> is_input (node_type n) = true -> denotes s id (TInput id).
Proof. intros Hn Hi. unfold denotes, expression. by rewrite (unfold_S _ _ _ _ Hn), Hi. Qed.

Lemma denotes_node s id n ts :
  wf_store s -> heap s !! id = Some n -> is_input (node_type n) = false ->
  Forall2 (denotes_ref s) (dependencyNodes_ n) ts ->
  denotes s id (TNode (node_type n) (node_arg n) ts).
Proof.
  intros Hwf Hn Hi Hts. unfold denotes, expression.
  rewrite (unfold_S _ _ _ _ Hn), Hi.
  rewrite (unfold_deps_impl (expression s) (unfold id s) _ ts); [done| |].
  - intros i t Hin Ht. apply (unfold_mono (S i)); [|done].
    pose proof (wf_deps _ Hwf _ _ _ Hn Hin). lia.
  - by apply unfold_deps_Some.
Qed.

Lemma denotes_inv s id t :
  wf_store s -> denotes s id t ->
  exists n, heap s !! id = Some n /\
    if is_input (node_type n) then t = TInput id
    else exists ts, t = TNode (node_type n) (node_arg n) ts
                    /\ Forall2 (denotes_ref s) (dependencyNodes_ n) ts.
Proof.
  intros Hwf Ht. destruct (unfold_lookup _ _ _ _ Ht) as [n Hn]. exists n.
  split; [done|]. unfold denotes, expression in Ht. rewrite (unfold_S _ _ _ _ Hn) in Ht.
  destruct (is_input _); [by injection Ht|].
  destruct (unfold_deps _ _) as [ts|] eqn:Hts; simpl in Ht; [|done].
  exists ts. split; [by injection Ht|]. apply unfold_deps_Some.
  eapply unfold_deps_impl; [|done]. intros i x _. by apply unfold_expression.
Qed.

Lemma denotes_functional s id t t' : denotes s id t -> denotes s id t' -> t = t'.
Proof. unfold denotes. congruence. Qed.

(** ** Growth of the store *)

Lemma unfold_extends fuel s s' id t :
  extends s s' -> unfold fuel s id = Some t -> unfold fuel s' id = Some t.
Proof.
  intros He. revert id t. induction fuel as [|fuel IH]; intros id t; [done|].
  simpl. destruct (heap s !! id) as [n|] eqn:Hn; simpl; [|done].
  destruct (proj1 He _ _ Hn) as (n' & -> & Hk & _). simpl.
  unfold node_arg. rewrite (node_key_type _ _ Hk), (node_key_deps _ _ Hk), Hk.
  destruct (is_input _); [done|].
  destruct (unfold_deps (unfold fuel s) _) as [ts|] eqn:Hts; simpl; [|done].
  intros [= <-].
  by rewrite (unfold_deps_impl (unfold fuel s) (unfold fuel s') _ ts); [| |done]; auto.
Qed.

Lemma denotes_extends s s' id t : extends s s' -> denotes s id t -> denotes s' id t.
Proof. intros He. by apply unfold_extends. Qed.

Lemma denotes_ref_extends s s' d ot :
  extends s s' -> denotes_ref s d ot -> denotes_ref s' d ot.
Proof.
  intros He. apply ref_term_impl. intros i t _. by apply (denotes_extends s s').
Qed.

Lemma denotes_refs_extends s s' deps ts :
  extends s s' -> Forall2 (denotes_ref s) deps ts -> Forall2 (denotes_ref s') deps ts.
Proof.
  intros He Hall. eapply Forall2_impl; [exact Hall|].
  intros d ot. by apply denotes_ref_extends.
Qed.

Lemma denotes_ref_Some s c t : denotes_ref s (Some c) (Some t) <-> denotes s c t.
Proof. done. Qed.

Lemma denotes_refs_fmap s (cs : list NodeId) (xs : list (Term R)) :
  Forall2 (denotes s) cs xs -> Forall2 (denotes_ref s) (Some <$> cs) (Some <$> xs).
Proof. induction 1; simpl; by constructor. Qed.

End Unfold.
