(* ===== verification/Denotation.v ===== *)
(** * Denotation: the value of an expression, and that evaluation computes it

    [Expression] says which expression a node stands for.  This file says
    which value an expression has ([term_value]), given what each class
    computes from the values of its dependencies ([ClassValue]) and the
    values the inputs hold, and proves that evaluation computes it.

    The invariant is [coherent]: a valid node holds the value of its
    expression.  It is what makes a cached value right.  Under the law
    [ComputePure] ([compute] writes into the node the value of its class
    at the values its dependencies store, and nothing else) evaluation
    keeps the invariant and leaves the node with the value of its
    expression ([getTargetValue_value]), however the graph shares nodes
    and whatever was evaluated before.

    The value of an input is given, not computed: an input that is not
    valid has no value, and neither has an expression over it.  A constant
    is a valid leaf from its construction ([constants_valid]). *)

From stdpp Require Import base tactics option list.
From S2P Require Import Prelude Values DataFlow Evaluation Expression.

(** What a class computes from the values of its dependencies; [None] for
    a class whose value is not a function of them, or for values the
    class does not take. *)
Class ClassValue (R : Type) : Type :=
  class_value : type_info -> list (Value R) -> option (Value R).

(** ** The value of an expression *)

Section Terms.
Context {R : Type} {CV : ClassValue R}.
Implicit Types (env : NodeId -> option (Value R)) (t : Term R)
  (ts : list (option (Term R))).

(** The value of an expression: that of the input, the argument of a
    constant, the value of the class at the values of the
    dependencies.  A null dependency has no value. *)
Fixpoint term_value env t : option (Value R) :=
  match t with
  | TInput id => env id
  | TNode c arg deps =>
      if isNumericConstant c then arg
      else
        vals ← (fix go ts : option (list (Value R)) :=
                  match ts with
                  | [] => Some []
                  | ot :: ts' =>
                      v ← match ot with Some t' => term_value env t' | None => None end;
                      vs ← go ts'; Some (v :: vs)
                  end) deps;
        class_value c vals
  end.

Definition term_values env ts : option (list (Value R)) :=
  list.mapM (fun ot => ot ≫= term_value env) ts.

Lemma term_value_TNode env c arg ts :
  term_value env (TNode c arg ts)
  = if isNumericConstant c then arg else term_values env ts ≫= class_value c.
Proof.
  simpl. by destruct (isNumericConstant c).
Qed.

(** Induction on expressions, through the vectors of dependencies. *)
Lemma Term_ind_deps (P : Term R -> Prop) :
  (forall id, P (TInput id)) ->
  (forall c arg ts, Forall (fun ot => forall t, ot = Some t -> P t) ts ->
     P (TNode c arg ts)) ->
  forall t, P t.
Proof.
  intros Hinput Hnode. fix IH 1. intros [id|c arg ts]; [apply Hinput|].
  apply Hnode. induction ts as [|ot ts IHts]; constructor; [|exact IHts].
  destruct ot as [t|]; intros t' [= <-]. apply IH.
Qed.

(** The value depends on the values of the inputs only: environments
    that give every input the same value give every expression the same
    value. *)
#[export] Instance term_value_proper :
  Proper (pointwise_relation NodeId (=) ==> (=) ==> (=)) term_value.
Proof.
  intros env env' Henv t _ <-.
  induction t as [id|c arg ts IH] using Term_ind_deps; [apply Henv|].
  rewrite !term_value_TNode. destruct (isNumericConstant c); [done|]. f_equal.
  unfold term_values. induction IH as [|[t|] ts Ht _ IHts]; simpl; [done| |done].
  by rewrite (Ht t eq_refl), IHts.
Qed.

End Terms.

(** ** The value of a node *)

Section Values.
Context {R : Type} `{EqDecision R, Inhabited R} {CV : ClassValue R}.
Implicit Types (s : Store R) (n : Node R) (id i d : NodeId) (deps : list NodeRef)
  (v : Value R) (vals : list (Value R)).

(** The value an input holds, when it is valid. *)
Definition input_value s id : option (Value R) :=
  n ← heap s !! id;
  if is_input (node_type n) && isValid_ n then Some (value_ n) else None.

(** The value of the expression of a node. *)
Definition value_of s id : option (Value R) :=
  expression s id ≫= term_value (input_value s).

(** The values the dependencies store, none of them null. *)
Definition stored_values s deps : option (list (Value R)) :=
  list.mapM (fun r : NodeRef => d ← r; value_ <$> heap s !! d) deps.

(** The nodes whose value is given: inputs and constants. *)
Definition is_source (t : type_info) : bool := is_input t || isNumericConstant t.

(** A constant is valid and has no dependency: nothing makes it invalid. *)
Definition constants_valid s : Prop :=
  forall id n, heap s !! id = Some n -> isNumericConstant (node_type n) = true ->
    isValid_ n = true /\ dependencyNodes_ n = [].

(** A valid node holds the value of its expression. *)
Definition coherent s : Prop :=
  forall id n v, heap s !! id = Some n -> isValid_ n = true ->
    value_of s id = Some v -> value_ n = v.

(** The valid nodes of [s] are in [s'] as they were, and the valid
    inputs of [s'] were so in [s]. *)
Definition keeps_valid s s' : Prop :=
  (forall i n, heap s !! i = Some n -> isValid_ n = true -> heap s' !! i = Some n)
  /\ (forall i n', heap s' !! i = Some n' -> is_input (node_type n') = true ->
        isValid_ n' = true -> heap s !! i = Some n').

Lemma keeps_valid_refl s : keeps_valid s s.
Proof. by split; intros i n. Qed.

Lemma keeps_valid_trans s1 s2 s3 :
  keeps_valid s1 s2 -> keeps_valid s2 s3 -> keeps_valid s1 s3.
Proof.
  intros [H12 H21] [H23 H32]. split.
  - intros i n Hn Hv. apply H23; [by apply H12|done].
  - intros i n Hn Hin Hv. apply H21; [by apply H32|done..].
Qed.

(** ** Stores with the same objects *)

Lemma expression_frame s s' id : frame s s' -> expression s' id = expression s id.
Proof.
  intros Hf. assert (extends s' s) as Hback.
  { split; [|by destruct Hf as (_ & -> & _)]. intros i n' Hn'.
    destruct (frame_lookup_back _ _ _ _ Hf Hn') as (n & Hn & [Hk Hd] & _).
    exists n. by split; [|split]. }
  destruct (expression s id) as [t|] eqn:Ht.
  - by apply (unfold_extends _ s s'); [apply frame_extends|].
  - destruct (expression s' id) as [t'|] eqn:Ht'; [|done].
    apply (unfold_extends _ s' s) in Ht'; [|done]. unfold expression in Ht. congruence.
Qed.

Lemma input_value_frame s s' :
  frame s s' -> keeps_valid s s' ->
  pointwise_relation NodeId (=) (input_value s') (input_value s).
Proof.
  intros Hf [Hk Hk'] i. unfold input_value.
  destruct (heap s !! i) as [n|] eqn:Hn; simpl.
  - destruct (isValid_ n) eqn:Hv; [by rewrite (Hk i n Hn Hv); simpl; rewrite Hv|].
    destruct Hf as (_ & _ & Hf). destruct (Hf i n Hn) as (n' & Hn' & [Hkey _] & _).
    rewrite Hn'. simpl. rewrite (node_key_type _ _ Hkey), andb_false_r.
    destruct (is_input (node_type n)) eqn:Hin; [simpl|done].
    destruct (isValid_ n') eqn:Hv'; [|done].
    rewrite <- (node_key_type _ _ Hkey) in Hin. specialize (Hk' i n' Hn' Hin Hv').
    congruence.
  - destruct Hf as (HL & _). apply lookup_ge_None in Hn.
    rewrite (proj2 (lookup_ge_None _ _)); [done|lia].
Qed.

Lemma value_of_frame s s' id :
  frame s s' -> keeps_valid s s' -> value_of s' id = value_of s id.
Proof.
  intros Hf Hk. unfold value_of. rewrite (expression_frame s s') by done.
  destruct (expression s id) as [t|]; [simpl|done].
  by rewrite (input_value_frame s s').
Qed.

Lemma constants_valid_frame s s' :
  frame s s' -> keeps_valid s s' -> constants_valid s -> constants_valid s'.
Proof.
  intros Hf [Hk _] Hs i n' Hn' Hc.
  destruct (frame_lookup_back _ _ _ _ Hf Hn') as (n & Hn & [Hkey _] & _).
  rewrite (node_key_type _ _ Hkey) in Hc. destruct (Hs i n Hn Hc) as [Hv Hd].
  rewrite (Hk i n Hn Hv) in Hn'. by injection Hn' as <-.
Qed.

(** ** The value of a node from those of its dependencies *)

Lemma value_of_input s id n :
  heap s !! id = Some n -> is_input (node_type n) = true ->
  value_of s id = if isValid_ n then Some (value_ n) else None.
Proof.
  intros Hn Hin. unfold value_of. rewrite (denotes_input s id n Hn Hin). simpl.
  unfold input_value. by rewrite Hn; simpl; rewrite Hin.
Qed.

Lemma values_of_deps s deps ts :
  Forall2 (denotes_ref s) deps ts ->
  list.mapM (fun r : NodeRef => r ≫= value_of s) deps = term_values (input_value s) ts.
Proof.
  unfold term_values.
  induction 1 as [|[d|] [t|] deps ts Hd _ IH]; simpl in *; try done.
  assert (value_of s d = term_value (input_value s) t) as ->
    by (unfold value_of; by rewrite Hd).
  by rewrite IH.
Qed.

(** A node that is neither an input nor a constant: the value of its
    class at the values of its dependencies. *)
Lemma value_of_node s id n :
  wf_store s -> heap s !! id = Some n -> is_source (node_type n) = false ->
  value_of s id
  = list.mapM (fun r : NodeRef => r ≫= value_of s) (dependencyNodes_ n)
      ≫= class_value (node_type n).
Proof.
  intros Hwf Hn [Hin Hc]%orb_false_elim. unfold value_of at 1.
  destruct (expression_total s id Hwf) as [t Ht]; [by eapply lookup_lt_Some|].
  rewrite Ht. simpl.
  destruct (denotes_inv s id t Hwf Ht) as (n' & Hn' & Hinv).
  assert (n' = n) as -> by congruence. rewrite Hin in Hinv.
  destruct Hinv as (ts & -> & Hts). rewrite term_value_TNode, Hc.
  by rewrite (values_of_deps s _ ts).
Qed.

(** A constant: its value. *)
Lemma value_of_constant s id n :
  wf_store s -> heap s !! id = Some n -> isNumericConstant (node_type n) = true ->
  value_of s id = Some (value_ n).
Proof.
  intros Hwf Hn Hc. unfold value_of.
  destruct (expression_total s id Hwf) as [t Ht]; [by eapply lookup_lt_Some|].
  rewrite Ht. simpl.
  destruct (denotes_inv s id t Hwf Ht) as (n' & Hn' & Hinv).
  assert (n' = n) as -> by congruence.
  assert (is_input (node_type n) = false) as Hin by (by destruct (node_type n)).
  rewrite Hin in Hinv. destruct Hinv as (ts & -> & _).
  rewrite term_value_TNode, Hc. unfold node_arg, node_key. by rewrite Hc.
Qed.

(** The decision procedure for [coherent]. *)
Definition coherentb s : bool :=
  forallb (fun p => negb (isValid_ p.2)
                    || match value_of s p.1 with
                       | Some v => bool_decide (value_ p.2 = v)
                       | None => true
                       end) (imap pair (heap s)).

Lemma coherentb_spec s : coherentb s = true -> coherent s.
Proof.
  unfold coherentb. intros Hall%Is_true_true i n v Hn Hv Hval.
  rewrite forallb_True in Hall.
  eapply Forall_forall in Hall; [|apply elem_of_lookup_imap; by exists i, n].
  simpl in Hall. rewrite Hv, Hval in Hall. simpl in Hall.
  by apply bool_decide_unpack in Hall.
Qed.

(** A store of inputs and constants is coherent: nothing is computed. *)
Lemma coherent_sources s :
  wf_store s ->
  (forall id n, heap s !! id = Some n -> is_source (node_type n) = true) ->
  coherent s.
Proof.
  intros Hwf Hsrc id n v Hn Hvalid Hv.
  destruct (orb_prop _ _ (Hsrc id n Hn)) as [Hin|Hc].
  - rewrite (value_of_input s id n Hn Hin), Hvalid in Hv. by injection Hv.
  - rewrite (value_of_constant s id n Hwf Hn Hc) in Hv. by injection Hv.
Qed.

End Values.

(** ** Evaluation *)

(** [compute] is a function of the values of the dependencies: it writes
    into the node the value of its class, and nothing else. *)
Class ComputePure (R : Type) `{EqDecision R, Inhabited R, Compute R, ClassValue R}
    : Prop :=
  compute_pure : forall id (s : Store R) n vals v,
    heap s !! id = Some n ->
    stored_values s (dependencyNodes_ n) = Some vals ->
    class_value (node_type n) vals = Some v ->
    compute id s = store_update id (set_value v) s.

Section Soundness.
Context {R : Type} `{EqDecision R, Inhabited R} {Cmp : Compute R} {CV : ClassValue R}
  `{!ComputeLaws R, !ComputePure R}.
Implicit Types (s : Store R) (n : Node R) (id i d : NodeId) (deps : list NodeRef)
  (v : Value R) (vals : list (Value R)).

(** The node is evaluated and holds [v]. *)
Definition valued s id v : Prop :=
  exists n, heap s !! id = Some n /\ isValid_ n = true /\ value_ n = v.

Lemma valued_keeps s s' id v : keeps_valid s s' -> valued s id v -> valued s' id v.
Proof. intros [Hk _] (n & Hn & Hv & Hval). exists n. by split; [apply Hk|]. Qed.

(** A node that is not evaluated and whose expression has a value is
    neither an input nor a constant. *)
Lemma invalid_not_source s id n v :
  constants_valid s -> heap s !! id = Some n -> isValid_ n = false ->
  value_of s id = Some v -> is_source (node_type n) = false.
Proof.
  intros Hs Hn Hv Hval. apply orb_false_intro.
  - destruct (is_input (node_type n)) eqn:Hin; [|done].
    by rewrite (value_of_input s id n Hn Hin), Hv in Hval.
  - destruct (isNumericConstant (node_type n)) eqn:Hc; [|done].
    destruct (Hs id n Hn Hc). congruence.
Qed.

(** The step of [compute]: the dependencies hold their values, the node
    gets the value of its class. *)
Lemma compute_sound s s1 id n vals v :
  wf_store s -> heap s !! id = Some n -> isValid_ n = false ->
  is_input (node_type n) = false ->
  frame s s1 -> coherent s1 -> keeps_valid s s1 ->
  value_of s id = Some v ->
  stored_values s1 (dependencyNodes_ n) = Some vals ->
  class_value (node_type n) vals = Some v ->
  let s' := store_update id (set_valid true) (compute id s1) in
  coherent s' /\ keeps_valid s s' /\ valued s' id v.
Proof.
  intros Hwf Hn Hinv Hin Hf Hc1 Hk1 Hval Hst Hcl s'.
  destruct (proj2 (proj2 Hf) id n Hn) as (n1 & Hn1 & [Hkey _] & _).
  assert (s' = store_update id (set_valid true) (store_update id (set_value v) s1))
    as Hs'.
  { unfold s'. f_equal. apply (compute_pure id s1 n1 vals v Hn1).
    - by rewrite (node_key_deps _ _ Hkey).
    - by rewrite (node_key_type _ _ Hkey). }
  assert (forall j, j <> id -> heap s' !! j = heap s1 !! j) as Hother.
  { intros j Hj. rewrite Hs', !lookup_store_update. by repeat case_decide. }
  assert (heap s' !! id = Some (set_valid true (set_value v n1))) as Hid.
  { rewrite Hs', !lookup_store_update, !decide_True, Hn1 by done. done. }
  assert (keeps_valid s s') as Hk.
  { split.
    - intros j m Hm Hv. rewrite Hother; [by apply Hk1|]. intros ->. congruence.
    - intros j m Hm Hj Hv. destruct (decide (j = id)) as [->|Hne].
      + rewrite Hid in Hm. injection Hm as <-. simpl in Hj.
        rewrite (node_key_type _ _ Hkey) in Hj. congruence.
      + rewrite Hother in Hm by done. by apply Hk1. }
  assert (frame s s') as Hf'.
  { etrans; [exact Hf|]. unfold s'. etrans; [apply compute_frame|apply frame_set_valid]. }
  split_and!; [|done|by eexists].
  intros j m w Hm Hv Hw. rewrite (value_of_frame s s') in Hw by done.
  destruct (decide (j = id)) as [->|Hj]; [by simplify_eq/=|].
  rewrite Hother in Hm by done. apply (Hc1 j m w Hm Hv).
  by rewrite (value_of_frame s s1).
Qed.

(** Evaluation computes the value of the expression, by induction on the
    order of evaluation. *)
Lemma evaluates_sound s id s' :
  evaluates s id s' ->
  wf_store s -> coherent s -> constants_valid s ->
  forall v, value_of s id = Some v ->
    coherent s' /\ keeps_valid s s' /\ valued s' id v.
Proof.
  revert s id s'.
  apply (evaluates_mut
    (fun s id s' => wf_store s -> coherent s -> constants_valid s ->
       forall v, value_of s id = Some v ->
         coherent s' /\ keeps_valid s s' /\ valued s' id v)
    (fun s deps s' => wf_store s -> coherent s -> constants_valid s ->
       forall vals, list.mapM (fun r : NodeRef => r ≫= value_of s) deps = Some vals ->
         coherent s' /\ keeps_valid s s' /\ stored_values s' deps = Some vals)).
  - intros s id n Hn Hv _ Hc _ v Hval. split_and!; [done|apply keeps_valid_refl|].
    exists n. split_and!; [done..|]. by apply (Hc id n v).
  - intros s id n s1 Hn Hv Hdeps IH _ Hwf Hc Hs v Hval.
    pose proof (invalid_not_source s id n v Hs Hn Hv Hval) as Hsrc.
    pose proof Hval as Hval'. rewrite (value_of_node s id n Hwf Hn Hsrc) in Hval'.
    destruct (list.mapM _ _) as [vals|] eqn:Hvals; simpl in Hval'; [|done].
    destruct (IH Hwf Hc Hs vals eq_refl) as (Hc1 & Hk1 & Hst).
    apply (compute_sound s s1 id n vals v); try done.
    + by apply orb_false_elim in Hsrc as [? _].
    + by eapply evaluates_deps_frame.
  - intros s _ Hc _ vals [= <-]. split_and!; [done|apply keeps_valid_refl|done].
  - intros s deps s' _ _ _ _ _ vals Hvals. done.
  - intros s d s1 deps s' Hd IHd Hdeps IH Hwf Hc Hs vals Hvals. simpl in Hvals.
    destruct (value_of s d) as [v|] eqn:Hv; [simpl in Hvals|done].
    destruct (list.mapM (fun r : NodeRef => r ≫= value_of s) deps) as [vs|] eqn:Hvs;
      simpl in Hvals; [|done].
    injection Hvals as <-.
    destruct (IHd Hwf Hc Hs v eq_refl) as (Hc1 & Hk1 & Hval1).
    pose proof (evaluates_frame _ _ _ Hd) as Hf1.
    destruct (IH (wf_frame _ _ Hf1 Hwf) Hc1 (constants_valid_frame _ _ Hf1 Hk1 Hs) vs)
      as (Hc' & Hk' & Hst).
    { rewrite <- Hvs. apply list.mapM_ext. intros [i|]; [simpl|done].
      by apply value_of_frame. }
    split_and!; [done|by eapply keeps_valid_trans|]. simpl.
    destruct (valued_keeps _ _ _ _ Hk' Hval1) as (n' & Hn' & _ & Hv').
    rewrite Hn'. simpl. by rewrite Hv', Hst.
Qed.

(** [getTargetValue] on a node whose expression has a value returns that
    value and keeps the invariants. *)
Lemma getTargetValue_value id s v :
  wf_store s -> coherent s -> constants_valid s -> value_of s id = Some v ->
  let s' := final (getTargetValue id) s in
  outcome (getTargetValue id) s = Ok v
  /\ wf_store s' /\ coherent s' /\ constants_valid s' /\ keeps_valid s s'.
Proof.
  intros Hwf Hc Hs Hval s'.
  assert (id < length (heap s)) as Hid.
  { unfold value_of in Hval. destruct (expression s id) as [t|] eqn:Ht; [|done].
    by eapply lookup_lt_is_Some_1, unfold_lookup. }
  destruct (getTargetValue_evaluates id s Hwf Hid) as (Hev & _ & _). fold s' in Hev.
  destruct (evaluates_sound s id s' Hev Hwf Hc Hs v Hval) as (Hc' & Hk & n & Hn & _ & Hv).
  pose proof (evaluates_frame _ _ _ Hev) as Hf.
  split_and!; [|by eapply wf_frame|done|by eapply constants_valid_frame|done].
  unfold outcome, getTargetValue, bind, modify. simpl.
  unfold s' in Hn. rewrite getTargetValue_final in Hn.
  by rewrite (accessValueConst_run _ _ _ Hn), Hv.
Qed.

End Soundness.

(** ** Construction

    The construction of a graph adds objects and changes none.  An object
    it adds is a constant, valid and holding its value, or a node of a
    class that computes, not evaluated yet.  Such growth keeps the
    invariants of evaluation. *)

Section Growth.
Context {R : Type} `{EqDecision R, Inhabited R} {CV : ClassValue R}.
Implicit Types (s : Store R) (n : Node R) (id i : NodeId) (v : Value R).

Definition fresh_node n : Prop :=
  if isNumericConstant (node_type n) then isValid_ n = true /\ dependencyNodes_ n = []
  else is_input (node_type n) = false /\ isValid_ n = false.

Definition grows s s' : Prop :=
  exists new, heap s' = heap s ++ new /\ Forall fresh_node new.

#[export] Instance grows_preorder : PreOrder grows.
Proof.
  split.
  - intros s. exists []. by rewrite app_nil_r.
  - intros s1 s2 s3 (new & H12 & Hnew) (new' & H23 & Hnew'). exists (new ++ new').
    split; [by rewrite H23, H12, <- app_assoc|by apply Forall_app].
Qed.

Lemma grows_same_heap s s' : heap s' = heap s -> grows s s'.
Proof. intros Hh. exists []. by rewrite app_nil_r. Qed.

Lemma grows_alloc s n : fresh_node n -> grows s (alloc s n).
Proof. intros Hn. exists [n]. split; [done|by constructor]. Qed.

Lemma grows_lookup_old s s' i n :
  grows s s' -> heap s !! i = Some n -> heap s' !! i = Some n.
Proof. intros (new & -> & _) Hn. by apply lookup_app_l_Some. Qed.

Lemma grows_lookup_new s s' i n :
  grows s s' -> length (heap s) <= i -> heap s' !! i = Some n -> fresh_node n.
Proof.
  intros (new & -> & Hnew) Hi Hn. rewrite lookup_app_r in Hn by done.
  by eapply Forall_lookup_1.
Qed.

Lemma fresh_node_input n : fresh_node n -> is_input (node_type n) = false.
Proof.
  unfold fresh_node. destruct (isNumericConstant (node_type n)) eqn:Hc; [|by intros []].
  by destruct (node_type n).
Qed.

Lemma input_value_grows s s' :
  grows s s' -> pointwise_relation NodeId (=) (input_value s') (input_value s).
Proof.
  intros Hg i. unfold input_value. destruct (heap s !! i) as [n|] eqn:Hn.
  - by rewrite (grows_lookup_old s s' i n Hg Hn).
  - destruct (heap s' !! i) as [n'|] eqn:Hn'; [simpl|done].
    apply lookup_ge_None in Hn.
    by rewrite (fresh_node_input n' (grows_lookup_new s s' i n' Hg Hn Hn')).
Qed.

Lemma value_of_grows s s' i :
  wf_store s -> extends s s' -> grows s s' -> i < length (heap s) ->
  value_of s' i = value_of s i.
Proof.
  intros Hwf He Hg Hi. unfold value_of.
  destruct (expression_total s i Hwf Hi) as [t Ht].
  rewrite Ht, (denotes_extends s s' i t He Ht). simpl.
  by rewrite (input_value_grows s s').
Qed.

Lemma constants_valid_grows s s' :
  grows s s' -> constants_valid s -> constants_valid s'.
Proof.
  intros Hg Hs i n Hn Hc. destruct (decide (i < length (heap s))) as [Hi|Hi].
  - destruct (lookup_lt_is_Some_2 _ _ Hi) as [m Hm].
    rewrite (grows_lookup_old s s' i m Hg Hm) in Hn. injection Hn as <-. by eapply Hs.
  - assert (fresh_node n) as Hf by (eapply (grows_lookup_new s s' i); [done|lia|done]).
    unfold fresh_node in Hf. by rewrite Hc in Hf.
Qed.

(** A graph that has grown still holds the values of its expressions. *)
Lemma coherent_grows s s' :
  wf_store s -> wf_store s' -> extends s s' -> grows s s' ->
  coherent s -> coherent s'.
Proof.
  intros Hwf Hwf' He Hg Hc i n v Hn Hv Hval.
  destruct (decide (i < length (heap s))) as [Hi|Hi].
  - destruct (lookup_lt_is_Some_2 _ _ Hi) as [m Hm].
    rewrite (grows_lookup_old s s' i m Hg Hm) in Hn. injection Hn as <-.
    apply (Hc i m v Hm Hv). by rewrite <- (value_of_grows s s').
  - assert (fresh_node n) as Hf by (eapply (grows_lookup_new s s' i); [done|lia|done]).
    unfold fresh_node in Hf. destruct (isNumericConstant (node_type n)) eqn:Hconst.
    + rewrite (value_of_constant s' i n Hwf' Hn Hconst) in Hval. by injection Hval.
    + destruct Hf as [_ Hf]. congruence.
Qed.

(** ** What the primitives of construction add *)

Lemma always_grows_make_shared n : fresh_node n -> always grows (make_shared n).
Proof. intros Hn s. by apply grows_alloc. Qed.

Lemma always_grows_cachedAs T id : always grows (cachedAs (R:=R) T id).
Proof. intros s. apply grows_same_heap, cachedAs_heap. Qed.

Lemma always_grows_NumericConstant_create T v :
  always grows (NumericConstant.create T v).
Proof.
  unfold NumericConstant.create. apply always_bind; [apply _| |intros self].
  - by apply always_grows_make_shared.
  - apply always_grows_cachedAs.
Qed.

End Growth.

#[export] Hint Resolve always_grows_cachedAs always_grows_NumericConstant_create : exc.
