(* ===== verification/Incremental.v ===== *)
(** * Incremental: the values of a graph after a change of an input

    [Denotation] proves that evaluation keeps [coherent]: a valid node
    holds the value of its expression.  This file proves that a change of
    an input keeps it too, which is what invalidation is for.  After
    [setValue] on a mutable leaf
    - the leaf is valid and holds the new value;
    - a node that is not downstream of the leaf is as it was, and so is
      the value of its expression ([value_of_outside]: the expression of a
      node mentions the nodes upstream of it only);
    - a node downstream of the leaf is invalid, so that [coherent] asks
      nothing of it: its stored value is stale, and evaluation will
      replace it.
    A change that left a node downstream of the leaf valid would break the
    invariant: the node would hold the value of the expression before the
    change.

    Construction keeps [consistent] as it keeps [coherent]
    ([consistent_grows]).  [continues] is what construction and evaluation
    do to the nodes a store had: the values of their expressions and what
    they are downstream of stay; [setValue] keeps the second
    ([same_graph]). *)

From Stdlib Require Import ZArith.
From stdpp Require Import base tactics numbers option list relations.
From S2P Require Import Prelude Values DataFlow Evaluation Invalidation Expression.
From S2P Require Import Denotation.

Section Incremental.
Context {R : Type} `{EqDecision R, Inhabited R} {CV : ClassValue R}.
Implicit Types (s : Store R) (n : Node R) (id i d self : NodeId) (v : Value R)
  (T : ValueType) (P : NodeId -> Prop).

(** ** Construction *)

Lemma consistent_grows s s' : grows s s' -> consistent s -> consistent s'.
Proof.
  intros Hg Hc i n d Hn Hv Hd. destruct (decide (i < length (heap s))) as [Hi|Hi].
  - destruct (lookup_lt_is_Some_2 _ _ Hi) as [m Hm].
    rewrite (grows_lookup_old s s' i m Hg Hm) in Hn. injection Hn as <-.
    destruct (Hc i m d Hm Hv Hd) as (x & Hx & Hvx). exists x.
    by split; [eapply grows_lookup_old|].
  - assert (fresh_node n) as Hf by (eapply (grows_lookup_new s s' i); [done|lia|done]).
    unfold fresh_node in Hf. destruct (isNumericConstant (node_type n)).
    + destruct Hf as [_ Hf]. rewrite Hf in Hd. by apply elem_of_nil in Hd.
    + destruct Hf as [_ Hf]. congruence.
Qed.

(** ** The values outside the scope of a change *)

Lemma value_of_None s i : heap s !! i = None -> value_of s i = None.
Proof.
  intros Hn. unfold value_of. destruct (expression s i) as [t|] eqn:Ht; [|done].
  apply unfold_lookup in Ht as [n Hn']. congruence.
Qed.

(** The value of the expression of a node depends on the nodes upstream
    of it only: when the nodes outside a set that is closed under
    dependents are the same in two stores, so are the values of their
    expressions. *)
Lemma value_of_outside P s s' :
  wf_store s -> frame s s' ->
  (forall a b, edge s a b -> P a -> P b) ->
  (forall i, ~ P i -> heap s' !! i = heap s !! i) ->
  forall i, ~ P i -> value_of s' i = value_of s i.
Proof.
  intros Hwf Hf Hclosed Hsame i. pose proof (wf_frame _ _ Hf Hwf) as Hwf'.
  induction i as [i IH] using lt_wf_ind. intros Hi.
  pose proof (Hsame i Hi) as Hn'. destruct (heap s !! i) as [n|] eqn:Hn;
    [|by rewrite !value_of_None].
  destruct (is_source (node_type n)) eqn:Hsrc.
  - destruct (orb_prop _ _ Hsrc) as [Hin|Hc].
    + by rewrite !(value_of_input _ i n).
    + by rewrite !(value_of_constant _ i n).
  - rewrite (value_of_node s i n), (value_of_node s' i n) by done. f_equal.
    apply Forall_mapM_ext, Forall_forall. intros [d|] Hd; [simpl|done].
    apply IH; [by eapply wf_deps|]. intros HP. apply Hi, (Hclosed d i); [|done].
    by exists n.
Qed.

(** ** [setValue] *)

Section SetValue.
Variables (self : NodeId) (v : Value R) (n : Node R) (T : ValueType) (s : Store R).
Hypothesis Hwf : wf_store s.
Hypothesis Hcons : consistent s.
Hypothesis Hself : heap s !! self = Some n.
Hypothesis Htype : node_type n = T_NumericMutable T.
Hypothesis Hdeps : dependencyNodes_ n = [].

Let s' := final (NumericMutable.setValue self v) s.

Lemma lookup_setValue_self : heap s' !! self = Some (set_valid true (set_value v n)).
Proof. by destruct (setValue_spec self v n T s) as (_ & _ & _ & ? & _). Qed.

Lemma lookup_setValue_outside i : ~ downstream s self i -> heap s' !! i = heap s !! i.
Proof. by destruct (setValue_spec self v n T s) as (_ & _ & _ & _ & _ & Hout); auto. Qed.

Lemma frame_setValue : frame s s'.
Proof. by destruct (setValue_spec self v n T s) as (_ & ? & _). Qed.

(** The leaf holds the new value. *)
Lemma value_of_setValue_self : value_of s' self = Some v.
Proof.
  rewrite (value_of_input s' self _ lookup_setValue_self); [done|]. simpl.
  by rewrite Htype.
Qed.

(** The expressions that do not mention the leaf have the value they
    had. *)
Lemma value_of_setValue_outside i :
  ~ downstream s self i -> value_of s' i = value_of s i.
Proof.
  apply (value_of_outside (downstream s self)); [done|apply frame_setValue| |].
  - intros a b Hab Ha. by eapply rtc_r.
  - apply lookup_setValue_outside.
Qed.

(** A node that is valid after the change is the leaf or a node that was
    valid and is not downstream of the leaf. *)
Lemma valid_after_setValue i m :
  heap s' !! i = Some m -> isValid_ m = true ->
  i = self \/ (~ downstream s self i /\ heap s !! i = Some m).
Proof.
  intros Hm Hv. destruct (decide (i = self)) as [->|Hne]; [by left|right].
  destruct (setValue_spec self v n T s) as (_ & _ & _ & _ & Hin & Hout); [done..|].
  assert (~ downstream s self i) as Hi.
  { intros Hi. specialize (Hin i Hne Hi). fold s' in Hin. rewrite Hm in Hin.
    destruct (heap s !! i) as [m'|]; [|done]. injection Hin as ->. done. }
  split; [done|]. by rewrite <- (Hout i Hi).
Qed.

Lemma coherent_setValue : coherent s -> coherent s'.
Proof.
  intros Hc i m w Hm Hv Hw.
  destruct (valid_after_setValue i m Hm Hv) as [->|[Hi Hm']].
  - rewrite value_of_setValue_self in Hw. rewrite lookup_setValue_self in Hm.
    by simplify_eq/=.
  - apply (Hc i m w Hm' Hv). by rewrite <- value_of_setValue_outside.
Qed.

Lemma constants_valid_setValue : constants_valid s -> constants_valid s'.
Proof.
  intros Hs i m Hm Hc.
  destruct (frame_lookup_back _ _ _ _ frame_setValue Hm) as (m' & Hm' & [Hk _] & _).
  rewrite (node_key_type _ _ Hk) in Hc. destruct (Hs i m' Hm' Hc) as [Hv Hd].
  assert (~ downstream s self i) as Hi.
  { intros Hi. apply (downstream_leaf s self i m' Hm' Hd) in Hi as ->.
    rewrite Hself in Hm'. injection Hm' as <-. by rewrite Htype in Hc. }
  rewrite (lookup_setValue_outside i Hi), Hm' in Hm. by injection Hm as <-.
Qed.

End SetValue.

(** ** Stores that continue a store

    [same_graph s s']: [s'] has the objects of [s] and nothing became
    downstream of anything among them.  [continues s s']: moreover the
    expressions of the nodes of [s] have the values they had.
    Construction and evaluation continue a store; [setValue] keeps the
    graph. *)

Definition same_graph s s' : Prop :=
  extends s s'
  /\ forall p i, i < length (heap s) -> downstream s' p i -> downstream s p i.

Definition continues s s' : Prop :=
  same_graph s s' /\ forall i, i < length (heap s) -> value_of s' i = value_of s i.

Lemma same_graph_refl s : same_graph s s.
Proof. by split. Qed.

Lemma same_graph_trans s1 s2 s3 : same_graph s1 s2 -> same_graph s2 s3 -> same_graph s1 s3.
Proof.
  intros [He Hd] [He' Hd']. pose proof (extends_length _ _ He) as HL.
  split; [by trans s2|]. intros p i Hi Hp. apply Hd; [done|]. apply Hd'; [lia|done].
Qed.

Lemma same_graph_frame s s' : frame s s' -> same_graph s s'.
Proof.
  intros Hf. split; [by apply frame_extends|].
  intros p i _. apply (downstream_frame s s' p i Hf).
Qed.

Lemma same_graph_grows s s' : wf_store s' -> extends s s' -> grows s s' -> same_graph s s'.
Proof.
  intros Hwf' He Hg. split; [done|]. intros p i. apply downstream_old; [done|].
  intros j Hj. destruct (lookup_lt_is_Some_2 _ _ Hj) as [m Hm].
  by rewrite Hm, (grows_lookup_old s s' j m Hg Hm).
Qed.

Lemma continues_trans s1 s2 s3 : continues s1 s2 -> continues s2 s3 -> continues s1 s3.
Proof.
  intros [Hg Hv] [Hg' Hv']. pose proof (extends_length _ _ (proj1 Hg)) as HL.
  split; [by eapply same_graph_trans|]. intros i Hi. rewrite Hv', Hv; [done|lia..].
Qed.

Lemma continues_grows s s' :
  wf_store s -> wf_store s' -> extends s s' -> grows s s' -> continues s s'.
Proof.
  intros Hwf Hwf' He Hg. split; [by apply same_graph_grows|].
  intros i Hi. by apply value_of_grows.
Qed.

Lemma continues_frame s s' : frame s s' -> keeps_valid s s' -> continues s s'.
Proof.
  intros Hf Hk. split; [by apply same_graph_frame|]. intros i _. by apply value_of_frame.
Qed.

Lemma value_of_Some_lt s i v : value_of s i = Some v -> i < length (heap s).
Proof.
  intros Hv. destruct (heap s !! i) as [n|] eqn:Hn; [by eapply lookup_lt_Some|].
  by rewrite value_of_None in Hv.
Qed.

(** C7. A change of an input keeps the values of the graph right.  In a
    well-formed store in which every valid node has valid dependencies and
    holds the value of its expression, [setValue] on a mutable leaf gives
    a store in which every valid node again holds the value of its
    expression, now over the new value of the leaf: the leaf has the value
    given, the expression of a node that is not downstream of the leaf has
    the value it had, and the constants are still valid. *)
Theorem setValue_keeps_coherent self v n T s :
  wf_store s -> consistent s -> coherent s -> constants_valid s ->
  heap s !! self = Some n -> node_type n = T_NumericMutable T ->
  dependencyNodes_ n = [] ->
  let s' := final (NumericMutable.setValue self v) s in
  coherent s' /\ constants_valid s'
  /\ value_of s' self = Some v
  /\ forall i, ~ downstream s self i -> value_of s' i = value_of s i.
Proof.
  intros Hwf Hcons Hc Hs Hn Ht Hd s'. split_and!.
  - by apply (coherent_setValue self v n T).
  - by apply (constants_valid_setValue self v n T).
  - by apply (value_of_setValue_self self v n T).
  - by apply (value_of_setValue_outside self v n T).
Qed.

End Incremental.

(** ** A change, then evaluation *)

Section Reevaluation.
Context {R : Type} `{EqDecision R, Inhabited R} {Cmp : Compute R} {CV : ClassValue R}
  `{!ComputeLaws R, !ComputePure R}.
Implicit Types (s : Store R) (n : Node R) (id self : NodeId) (v w : Value R)
  (T : ValueType).

(** [setValue] on a leaf, then [getTargetValue] on a node: the value of
    the expression of the node over the new value of the leaf. *)
Lemma setValue_then_getTargetValue self v n T s id w :
  wf_store s -> consistent s -> coherent s -> constants_valid s ->
  heap s !! self = Some n -> node_type n = T_NumericMutable T ->
  dependencyNodes_ n = [] ->
  value_of (final (NumericMutable.setValue self v) s) id = Some w ->
  outcome (NumericMutable.setValue self v ;; getTargetValue id) s = Ok w.
Proof.
  intros Hwf Hcons Hc Hs Hn Ht Hd Hw.
  destruct (setValue_spec self v n T s Hwf Hcons Hn Ht Hd) as (Hok & Hf & _).
  destruct (getTargetValue_value id _ w (wf_frame _ _ Hf Hwf)
              (coherent_setValue self v n T s Hwf Hcons Hn Ht Hd Hc)
              (constants_valid_setValue self v n T s Hwf Hcons Hn Ht Hd Hs) Hw)
    as (Hout & _).
  assert (NumericMutable.setValue self v s
          = (Ok tt, final (NumericMutable.setValue self v) s)) as Hrun
    by (rewrite <- Hok; apply surjective_pairing).
  unfold outcome. by rewrite (bind_ok _ _ _ _ _ Hrun).
Qed.

End Reevaluation.

(** ** The graph of [InvalidationExample], with negation for the class
    [CWiseNegate] *)

Module IncrementalExample.
Import InvalidationExample.

Definition negate_value : ClassValue Z := fun t vals =>
  match t, vals with
  | T_CWiseNegate TDouble, [VDouble x] => Some (VDouble (- x)%Z)
  | _, _ => None
  end.

#[local] Existing Instance negate_value.

Lemma coherent_graph : coherent graph.
Proof. by apply coherentb_spec. Qed.

Lemma constants_valid_graph : constants_valid graph.
Proof. intros id n Hn Hc. by destruct id as [|[|[|[|[|id]]]]]; simplify_eq/=. Qed.

(** The values of the expressions after the leaf 0 got the value 5: the
    nodes 2 and 3, downstream of the leaf, are invalid and hold the values
    of before; their expressions have the values of after. *)
Example values_after_setValue :
  let s' := final (NumericMutable.setValue 0 (VDouble 5%Z)) graph in
  value_of s' <$> seq 0 5
  = Some <$> [VDouble 5; VDouble 2; VDouble (-5); VDouble 5; VDouble (-2)]%Z
  /\ value_ <$> heap s'
    = [VDouble 5; VDouble 2; VDouble (-1); VDouble 1; VDouble (-2)]%Z.
Proof. by vm_compute. Qed.

End IncrementalExample.

#[local] Existing Instance IncrementalExample.negate_value.

Lemma setValue_keeps_coherent_witness :
  let s' := final (NumericMutable.setValue 0 (VDouble 5%Z)) InvalidationExample.graph in
  coherent s' /\ constants_valid s'
  /\ value_of s' 0 = Some (VDouble 5%Z)
  /\ forall i, ~ downstream InvalidationExample.graph 0 i ->
       value_of s' i = value_of InvalidationExample.graph i.
Proof.
  exact (setValue_keeps_coherent 0 (VDouble 5%Z) (InvalidationExample.leaf 1) TDouble
           InvalidationExample.graph InvalidationExample.wf_graph
           InvalidationExample.consistent_graph IncrementalExample.coherent_graph
           IncrementalExample.constants_valid_graph eq_refl eq_refl eq_refl).
Defined.
