(* ===== verification/Construction.v ===== *)
(** * Construction: building graphs node by node

    The logic in which the builders of graphs are verified, and the node
    classes of the likelihood computation that the builders of this
    development call but whose sources are not part of it.

    - [builds ok P m Q]: from a well-formed store that satisfies [P], the
      construction [m] ends in a well-formed store that extends the first
      one, with a result that satisfies [Q] or an exception that [ok]
      admits.  With [ok := thrown] this is safety (no undefined behaviour,
      enough fuel); with [ok := fun _ => False] it is success.
    - [create_node]: the [create] of a node class without arguments of its
      own: the checks of its signature, the construction, the cache.
    - the classes [TransitionMatrixFromModel], ...,
      [CWiseNegate], as instances of [create_node]. *)

From stdpp Require Import base tactics option list strings.
From S2P Require Import Prelude Values DataFlow Expression.

(** ** The logic of construction *)

Section Builds.
Context {R : Type} `{EqDecision R, Inhabited R}.
Implicit Types (s : Store R) (P : Store R -> Prop) (ok : Error -> Prop).

(** A predicate that survives the growth of the store. *)
Definition stable P : Prop := forall s s', extends s s' -> P s -> P s'.

(** [replays m a s]: asked again, in [s] or in any well-formed store [s]
    has grown into, the construction [m] returns [a] and leaves the cache
    as it is. *)
Definition replays {A} (m : M R A) (a : A) s : Prop :=
  forall s', wf_store s' -> extends s s' ->
    outcome m s' = Ok a /\ nodeCache_ (final m s') = nodeCache_ s'
    /\ wf_store (final m s') /\ extends s' (final m s').

Definition builds {A} ok P (m : M R A) (Q : A -> Store R -> Prop) : Prop :=
  forall s, wf_store s -> P s ->
    wf_store (final m s) /\ extends s (final m s)
    /\ match outcome m s with
       | Ok a => Q a (final m s) /\ replays m a (final m s)
       | Err e => ok e
       end.

(** *** Replaying *)

Lemma replays_extends {A} (m : M R A) a s s' :
  extends s s' -> replays m a s -> replays m a s'.
Proof. intros He Hm s'' Hwf He'. apply Hm; [done|by etrans]. Qed.

Lemma replays_pure {A} (m : M R A) a s :
  (forall s', m s' = (Ok a, s')) -> replays m a s.
Proof. intros Hm s' Hwf He. unfold outcome, final. rewrite Hm. by split_and!. Qed.

Lemma replays_bind {A B} (m : M R A) (k : A -> M R B) a b s :
  replays m a s -> replays (k a) b s -> replays (x <- m ;; k x) b s.
Proof.
  intros Hm Hk s' Hwf He. destruct (Hm s' Hwf He) as (Ha & Hc1 & Hwf1 & He1).
  destruct (Hk (final m s') Hwf1) as (Hb & Hc2 & Hwf2 & He2); [by etrans|].
  unfold outcome, final, bind in *. destruct (m s') as [r s1]; simpl in *. subst r.
  split_and!; [done|congruence|done|by etrans].
Qed.

(** *** The rules *)

Lemma builds_ret {A} ok P (a : A) (Q : A -> Store R -> Prop) :
  (forall s, P s -> Q a s) -> builds ok P (ret a) Q.
Proof.
  intros HQ s Hwf HP. split_and!; [done..|]. split; [by apply HQ|by apply replays_pure].
Qed.

Lemma builds_throw {A} ok P e (Q : A -> Store R -> Prop) :
  ok e -> builds ok P (throw e) Q.
Proof. intros He s Hwf HP. by split_and!. Qed.

Lemma builds_throw_unless ok P b e :
  (b = false -> ok e) -> builds ok P (throw_unless b e) (fun _ _ => b = true).
Proof.
  intros He s Hwf HP. destruct b; (split_and!; [done..|]); simpl; [|auto].
  split; [done|by apply replays_pure].
Qed.

Lemma builds_from_option {A} ok P (o : option A) e :
  (o = None -> ok e) -> builds ok P (from_option_exc o e) (fun a _ => o = Some a).
Proof.
  intros He s Hwf HP. destruct o; (split_and!; [done..|]); simpl; [|auto].
  split; [done|by apply replays_pure].
Qed.

Lemma builds_conseq {A} ok ok' P P' (m : M R A) (Q Q' : A -> Store R -> Prop) :
  builds ok P m Q ->
  (forall s, P' s -> P s) -> (forall a s, wf_store s -> Q a s -> Q' a s) ->
  (forall e, ok e -> ok' e) ->
  builds ok' P' m Q'.
Proof.
  intros Hm HP HQ Hok s Hwf HP'. destruct (Hm s Hwf (HP _ HP')) as (? & ? & Hr).
  split_and!; [done..|]. destruct (outcome m s); [|auto].
  destruct Hr. split; auto.
Qed.

Lemma builds_post {A} ok P (m : M R A) (Q Q' : A -> Store R -> Prop) :
  builds ok P m Q -> (forall a s, wf_store s -> Q a s -> Q' a s) -> builds ok P m Q'.
Proof. intros Hm HQ. by apply (builds_conseq ok ok P P m Q Q'). Qed.

Lemma builds_bind {A B} ok P (m : M R A) (k : A -> M R B)
    (Q : A -> Store R -> Prop) (Q' : B -> Store R -> Prop) :
  stable P ->
  builds ok P m Q ->
  (forall a, builds ok (fun s => P s /\ Q a s) (k a) Q') ->
  builds ok P (x <- m ;; k x) Q'.
Proof.
  intros HP Hm Hk s Hwf HPs. destruct (Hm s Hwf HPs) as (Hwf1 & He1 & Hr).
  unfold outcome, final, bind in *. destruct (m s) as [[a|e] s1]; simpl in *; [|done].
  destruct Hr as [HQ Hrm].
  destruct (Hk a s1 Hwf1) as (Hwf2 & He2 & Hr2); [by eauto|].
  unfold outcome, final in *. split_and!; [done|by etrans|].
  destruct (k a s1) as [[b|e] s2]; simpl in *; [|done].
  destruct Hr2 as [HQ' Hrk]. split; [done|].
  apply (replays_bind m k a b); [by eapply replays_extends|done].
Qed.

(** A fact that does not depend on the store, out of the precondition. *)
Lemma builds_assume {A} ok P (p : Prop) (m : M R A) (Q : A -> Store R -> Prop) :
  (p -> builds ok P m Q) -> builds ok (fun s => P s /\ p) m Q.
Proof. intros Hm s Hwf [HP Hp]. by apply Hm. Qed.

(** What holds before and is stable holds after. *)
Lemma builds_frame {A} ok P (m : M R A) (Q : A -> Store R -> Prop) :
  stable P -> builds ok P m Q -> builds ok P m (fun a s => Q a s /\ P s).
Proof.
  intros HP Hm s Hwf HPs. destruct (Hm s Hwf HPs) as (? & He & Hr).
  split_and!; [done..|]. destruct (outcome m s); [|done].
  destruct Hr. split_and!; [done| |done]. by eapply HP.
Qed.

(** A step that reads the store: it changes nothing, and what it reads
    stays as the store grows. *)
Lemma builds_readonly {A} ok P (m : M R A) (Q : A -> Store R -> Prop) :
  readonly m ->
  (forall s, wf_store s -> P s ->
     match outcome m s with
     | Ok a => Q a s /\ forall s', extends s s' -> outcome m s' = Ok a
     | Err e => ok e
     end) ->
  builds ok P m Q.
Proof.
  intros Hro Hm s Hwf HP. specialize (Hm s Hwf HP). rewrite (Hro s).
  split_and!; [done..|]. destruct (outcome m s) as [a|]; [|done].
  destruct Hm as [HQ Hagain]. split; [done|]. intros s' Hwf' He.
  rewrite (Hro s'). by split_and!; [apply Hagain|..].
Qed.

Lemma builds_mapM {A B} ok P (f : A -> M R B) (l : list A)
    (Q : A -> B -> Store R -> Prop) :
  stable P -> (forall x b, stable (Q x b)) ->
  (forall x, x ∈ l -> builds ok P (f x) (Q x)) ->
  builds ok P (mapM f l) (fun bs s => Forall2 (fun x b => Q x b s) l bs).
Proof.
  intros HP HQ. induction l as [|x l IH]; intros Hf; simpl.
  - apply builds_ret. by constructor.
  - eapply builds_bind; [done|apply Hf; left|intros y].
    eapply builds_bind.
    + intros s s' He [? ?]. split; [by eapply HP|by eapply HQ].
    + eapply builds_conseq with (P := P); [apply IH|by intros ? []|done..].
      intros z Hz. apply Hf. by right.
    + intros ys. apply builds_ret. intros s ((_ & Hy) & Hys). by constructor.
Qed.

End Builds.

(** ** A node class without arguments of its own *)

Section CreateNode.
Context {R : Type} `{EqDecision R, Inhabited R}.
Implicit Types (s : Store R) (deps : list NodeRef) (dim : MatrixDimension)
  (t : type_info) (sig : list Expected).

(** The value a constructor leaves in a node before its first evaluation. *)
Definition initial_value (T : ValueType) dim : Value R :=
  match T with
  | TDouble => VDouble inhabitant
  | TVectorXd | TRowVectorXd | TMatrixXd => VEigen (resize (rows dim) (cols dim))
  | TString => VString EmptyString
  | TSizeT => VSizeT 0
  | _ => VObject 0
  end.

Definition construct_node t deps dim : Node R :=
  mkNode t deps false (initial_value (valueTypeOf t) dim) dim None empty_matrix.

(** [Self::create (c, deps, dim)]: the checks, then
    [cachedAs<Value<T>> (c, std::make_shared<Self> (deps, dim))]. *)
Definition create_node t sig deps dim : M R NodeId :=
  checked t sig deps
    (self <- make_shared (construct_node t deps dim) ;;
     cachedAs (valueTypeOf t) self).

Lemma create_node_sound t sig deps dim s :
  wf_store s -> valid_refs s deps -> sound s t deps (create_node t sig deps dim s).
Proof.
  intros Hwf Hv. unfold create_node. rewrite checked_run.
  destruct (signature_error t sig deps s) eqn:Hsig.
  - apply sound_thrown; eauto using signature_error_thrown.
  - by apply (alloc_cachedAs_sound _ (construct_node t deps dim)).
Qed.

Lemma create_node_conforms t sig deps dim s :
  wf_store s -> valid_refs s deps -> Forall2 (conforms s) sig deps ->
  exists c, outcome (create_node t sig deps dim) s = Ok c.
Proof.
  intros Hwf Hv Hc. unfold create_node, outcome. rewrite checked_conforms by done.
  rewrite (alloc_cachedAs_run (valueTypeOf t)) by done.
  destruct (cache_find _ _); by eexists.
Qed.

Lemma stable_created c t deps : stable (fun s => created (R:=R) s c t deps).
Proof. intros s s' He. by apply created_extends. Qed.

Lemma created_conforms_value s c t deps :
  created s c t deps -> conforms s (ExpectValue (valueTypeOf t)) (Some c).
Proof. intros (_ & n & Hn & <- & _). exists c. split; [done|]. by exists n. Qed.

Lemma created_conforms_node s c t deps :
  created s c t deps -> conforms s (ExpectNode t) (Some c).
Proof. intros (_ & n & Hn & <- & _). exists c. split; [done|]. by exists n. Qed.

(** *** Asking for a node again *)

Lemma signature_extends s s' sig deps :
  extends s s' -> Forall2 (conforms s) sig deps -> Forall2 (conforms s') sig deps.
Proof.
  intros He Hc. eapply Forall2_impl; [exact Hc|]. intros e d. by apply conforms_extends.
Qed.

Lemma replays_checked {A} ctx sig deps (k : M R A) a s :
  Forall2 (conforms s) sig deps -> replays k a s ->
  replays (checked ctx sig deps k) a s.
Proof.
  intros Hc Hk s' Hwf He. unfold outcome, final. rewrite checked_conforms; [by apply Hk|].
  by eapply signature_extends.
Qed.

(** A new object equal to a cached one: the cache answers with the cached
    one. *)
Lemma replays_alloc_cachedAs T (n m : Node R) c s :
  valueTypeOf (node_type n) = T -> condLik_ n = None ->
  wf_store s -> c ∈ nodeCache_ s -> heap s !! c = Some m -> node_key m = node_key n ->
  replays (self <- make_shared n ;; cachedAs T self) c s.
Proof.
  intros HT Hcl Hwf Hc Hm Hk s' Hwf' He.
  destruct (proj1 He _ _ Hm) as (m' & Hm' & [Hk' _]).
  unfold outcome, final. rewrite (alloc_cachedAs_again T n s' c); [|done..|].
  - split_and!; [done..| |apply extends_alloc].
    apply wf_alloc; [done| |by rewrite Hcl]. intros d Hd.
    rewrite <- (node_key_deps m' n) in Hd by congruence.
    pose proof (wf_deps _ Hwf' _ _ _ Hm' Hd). apply lookup_lt_Some in Hm'. lia.
  - eapply cache_find_cached; [done|by eapply extends_cache|done|congruence].
Qed.

Lemma create_node_conforms_inv t sig deps dim s c :
  outcome (create_node t sig deps dim) s = Ok c -> Forall2 (conforms s) sig deps.
Proof.
  unfold create_node, outcome. rewrite checked_run.
  destruct (signature_error _ _ _ _) eqn:He; [done|]. intros _.
  by apply signature_error_None in He.
Qed.

Lemma replays_create_node t sig deps dim c s :
  isNumericConstant t = false -> wf_store s ->
  Forall2 (conforms s) sig deps -> created s c t deps ->
  replays (create_node t sig deps dim) c s.
Proof.
  intros Ht Hwf Hc (Hin & m & Hm & <- & <-). apply replays_checked; [done|].
  eapply replays_alloc_cachedAs; [done..|]. unfold node_key. simpl. by rewrite Ht.
Qed.

Lemma replays_NumericConstant_create T (v : Value R) c s :
  wf_store s -> created s c (T_NumericConstant T) [] -> stored s c T v ->
  replays (NumericConstant.create T v) c s.
Proof.
  intros Hwf (Hin & m & Hm & Ht & Hd) (m' & Hm' & _ & Hv).
  rewrite Hm in Hm'. injection Hm' as <-.
  eapply replays_alloc_cachedAs; [done..|]. unfold node_key. simpl.
  by rewrite Ht, Hd, Hv.
Qed.

(** *** The expression of a created node *)

Lemma created_denotes s c t deps ts :
  wf_store s -> isNumericConstant t = false -> is_input t = false ->
  created s c t deps -> Forall2 (denotes_ref s) deps ts ->
  denotes s c (TNode t None ts).
Proof.
  intros Hwf Ht Hi (_ & n & Hn & <- & <-) Hts.
  pose proof (denotes_node s c n ts Hwf Hn Hi Hts) as Hd.
  unfold node_arg, node_key in Hd. simpl in Hd. by rewrite Ht in Hd.
Qed.

Lemma constant_denotes s c T (v : Value R) :
  wf_store s -> created s c (T_NumericConstant T) [] -> stored s c T v ->
  denotes s c (TNode (T_NumericConstant T) (Some v) []).
Proof.
  intros Hwf (_ & n & Hn & Ht & Hd) (n' & Hn' & _ & Hv).
  rewrite Hn in Hn'. injection Hn' as <-.
  pose proof (denotes_node s c n [] Hwf Hn) as Hden.
  unfold node_arg, node_key in Hden. simpl in Hden. rewrite Ht, Hd, Hv in Hden.
  apply Hden; [done|constructor].
Qed.

(** The references of a vector that exist have expressions. *)
Lemma denotes_refs_total s deps :
  wf_store s -> valid_refs s deps -> exists ts, Forall2 (denotes_ref s) deps ts.
Proof.
  intros Hwf. induction deps as [|d deps IH]; intros Hv; [by exists []|].
  destruct IH as [ts Hts]; [intros x Hx; apply Hv; by right|].
  destruct d as [i|].
  - destruct (expression_total s i Hwf) as [t Ht]; [apply Hv; left|].
    exists (Some t :: ts). by constructor.
  - exists (None :: ts). by constructor.
Qed.

(** [create_node] in the logic: safety for any dependencies that exist... *)
Lemma builds_create_node ok P t sig deps dim :
  isNumericConstant t = false ->
  (forall s, P s ->
     valid_refs s deps
     /\ ((forall e, thrown e -> ok e) \/ Forall2 (conforms s) sig deps)) ->
  builds ok P (create_node t sig deps dim) (fun c s => created s c t deps).
Proof.
  intros Ht HP s Hwf HPs. destruct (HP s HPs) as [Hv Hmode].
  destruct (create_node_sound t sig deps dim s Hwf Hv) as (Hwf' & He & Hr).
  split_and!; [done..|]. unfold outcome, final in *.
  pose proof (create_node_conforms_inv t sig deps dim s) as Hinv.
  assert (forall e, (create_node t sig deps dim s).1 = Err e -> ok e) as Herr.
  { intros e Herr. destruct Hmode as [Hok|Hc].
    - apply Hok. by rewrite Herr in Hr.
    - destruct (create_node_conforms t sig deps dim s Hwf Hv Hc) as [c Hout].
      unfold outcome in Hout. congruence. }
  unfold outcome in Hinv. destruct (create_node t sig deps dim s).1 as [c|e]; [|auto].
  split; [done|]. apply replays_create_node; [done..| |done].
  eapply signature_extends; [done|]. by apply (Hinv c).
Qed.

Lemma builds_NumericConstant_create ok P T (v : Value R) :
  builds ok P (NumericConstant.create T v)
         (fun c s => created s c (T_NumericConstant T) [] /\ stored s c T v).
Proof.
  intros s Hwf HP.
  destruct (NumericConstant_create_spec T v s) as (c & m & Hrun & Hm & Ht & Hv & Hd & Hin).
  pose proof (preserves_wf_NumericConstant_create T v s Hwf) as Hwf'.
  split_and!; [done|apply always_extends_NumericConstant_create|].
  unfold outcome. rewrite Hrun. simpl.
  assert (created (final (NumericConstant.create T v) s) c (T_NumericConstant T) []
          /\ stored (final (NumericConstant.create T v) s) c T v) as [Hc Hs].
  { split; [split; [done|]|]; exists m; by rewrite Ht. }
  split; [done|]. by apply replays_NumericConstant_create.
Qed.

End CreateNode.

(** ** The node classes of the likelihood of a tree

    What each class expects of its dependencies, by the number of
    dependencies given where the class takes any number of them. *)

Definition rule_signature (t : type_info) (n : nat) : list Expected :=
  match t with
  | T_TransitionMatrixFromModel => [ExpectNode T_ConfiguredModel; ExpectValue TDouble]
  | T_EquilibriumFrequenciesFromModel => [ExpectNode T_ConfiguredModel]
  | T_FrequenciesFromFrequenciesSet => [ExpectNode T_ConfiguredFrequenciesSet]
  | T_ForwardLikelihoodFromConditional => [ExpectValue TMatrixXd; ExpectValue TMatrixXd]
  | T_ConditionalLikelihoodFromChildrenForward => replicate n (ExpectValue TMatrixXd)
  | T_LikelihoodFromRootConditional => [ExpectValue TRowVectorXd; ExpectValue TMatrixXd]
  | T_TotalLogLikelihood => [ExpectValue TRowVectorXd]
  | T_CWiseNegate T => [ExpectValue T]
  | _ => []
  end.

Definition create_rule {R} `{EqDecision R, Inhabited R}
    (t : type_info) (deps : list NodeRef) (dim : MatrixDimension) : M R NodeId :=
  create_node t (rule_signature t (length deps)) deps dim.

(** [Dimension<double>]: a scalar has no extents. *)
Definition scalarDimension : MatrixDimension := mkDim 1 1.

(** ** Stable predicates and the rule classes in the logic *)

Section Stable.
Context {R : Type} `{EqDecision R, Inhabited R}.
Implicit Types (s : Store R) (P Q : Store R -> Prop) (ok : Error -> Prop).

Lemma stable_and P Q : stable P -> stable Q -> stable (fun s => P s /\ Q s).
Proof. intros HP HQ s s' He [? ?]. split; eauto. Qed.

Lemma stable_or P Q : stable P -> stable Q -> stable (fun s => P s \/ Q s).
Proof. intros HP HQ s s' He [?|?]; [left|right]; eauto. Qed.

Lemma stable_pure (p : Prop) : stable (fun _ : Store R => p).
Proof. by intros s s' _. Qed.

Lemma stable_conforms e (d : NodeRef) : stable (fun s => conforms (R:=R) s e d).
Proof. intros s s' He. by apply conforms_extends. Qed.

Lemma stable_valid_refs deps : stable (fun s => valid_refs (R:=R) s deps).
Proof. intros s s' He. by apply valid_refs_extends. Qed.

Lemma stable_valid (d : NodeId) : stable (fun s : Store R => d < length (heap s)).
Proof. intros s s' He Hd. apply extends_length in He. lia. Qed.

Lemma stable_Forall {A} (Q : A -> Store R -> Prop) (l : list A) :
  (forall a, stable (Q a)) -> stable (fun s => Forall (fun a => Q a s) l).
Proof.
  intros HQ s s' He Hl. eapply Forall_impl; [done|]. intros a. by apply HQ.
Qed.

Lemma stable_Forall2 {A B} (Q : A -> B -> Store R -> Prop) (l : list A) (k : list B) :
  (forall a b, stable (Q a b)) -> stable (fun s => Forall2 (fun a b => Q a b s) l k).
Proof.
  intros HQ s s' He Hl. eapply Forall2_impl; [done|]. intros a b. by apply HQ.
Qed.

(** [create_rule] in the logic: the dependencies exist; either every
    exception of the library is admitted, or the dependencies fit. *)
Lemma builds_create_rule ok P t deps dim :
  isNumericConstant t = false ->
  (forall s, P s ->
     valid_refs s deps
     /\ ((forall e, thrown e -> ok e)
         \/ Forall2 (conforms s) (rule_signature t (length deps)) deps)) ->
  builds ok P (create_rule t deps dim) (fun c s => created s c t deps).
Proof. apply builds_create_node. Qed.

Lemma builds_create_rule_value ok P t deps dim T :
  isNumericConstant t = false -> valueTypeOf t = T ->
  (forall s, P s ->
     valid_refs s deps
     /\ ((forall e, thrown e -> ok e)
         \/ Forall2 (conforms s) (rule_signature t (length deps)) deps)) ->
  builds ok P (create_rule t deps dim)
    (fun c s => created s c t deps /\ conforms s (ExpectValue T) (Some c)).
Proof.
  intros Ht <- HP. eapply builds_conseq; [by apply builds_create_rule|done| |done].
  intros c s _ Hc. split; [done|]. by apply created_conforms_value in Hc.
Qed.

Lemma stable_denotes c (t : Term R) : stable (fun s => denotes s c t).
Proof. intros s s' He. by apply denotes_extends. Qed.

Lemma stable_denotes_ref (d : NodeRef) (ot : option (Term R)) :
  stable (fun s => denotes_ref s d ot).
Proof. intros s s' He. by apply denotes_ref_extends. Qed.

Lemma stable_ex {A} (Q : A -> Store R -> Prop) :
  (forall a, stable (Q a)) -> stable (fun s => exists a, Q a s).
Proof. intros HQ s s' He [a Ha]. exists a. by eapply HQ. Qed.

(** [node_of T o c s]: [c] is a node of value type [T] whose expression
    is [o], which is defined. *)
Definition node_of (T : ValueType) (o : option (Term R)) (c : NodeId) s : Prop :=
  conforms s (ExpectValue T) (Some c) /\ exists t, o = Some t /\ denotes s c t.

Lemma stable_node_of T o c : stable (node_of T o c).
Proof.
  apply stable_and; [apply stable_conforms|]. apply stable_ex. intros t.
  apply stable_and; [apply stable_pure|apply stable_denotes].
Qed.

(** A rule class over dependencies whose expressions are known. *)
Lemma builds_create_rule_term ok P t deps dim T (o : option (Term R)) :
  isNumericConstant t = false -> is_input t = false -> valueTypeOf t = T ->
  stable P ->
  (forall s, P s ->
     valid_refs s deps
     /\ ((forall e, thrown e -> ok e)
         \/ Forall2 (conforms s) (rule_signature t (length deps)) deps)
     /\ exists ts, Forall2 (denotes_ref s) deps ts /\ o = Some (TNode t None ts)) ->
  builds ok P (create_rule t deps dim)
    (fun c s => created s c t deps /\ node_of T o c s).
Proof.
  intros Ht Hi HT HP Hdeps.
  eapply builds_conseq; [apply builds_frame; [exact HP|]|done| |done].
  - apply (builds_create_rule_value ok P t deps dim T); [done..|].
    intros s HPs. destruct (Hdeps s HPs) as (? & ? & _). by split.
  - intros c s Hwf [[Hc Hv] HPs]. destruct (Hdeps s HPs) as (_ & _ & ts & Hts & ->).
    split; [done|]. split; [done|]. eexists. split; [done|]. by eapply created_denotes.
Qed.

Lemma builds_create_rule_node ok P t deps dim T (o : option (Term R)) :
  isNumericConstant t = false -> is_input t = false -> valueTypeOf t = T ->
  stable P ->
  (forall s, P s ->
     valid_refs s deps
     /\ ((forall e, thrown e -> ok e)
         \/ Forall2 (conforms s) (rule_signature t (length deps)) deps)
     /\ exists ts, Forall2 (denotes_ref s) deps ts /\ o = Some (TNode t None ts)) ->
  builds ok P (create_rule t deps dim) (node_of T o).
Proof.
  intros Ht Hi HT HP Hdeps.
  eapply builds_conseq;
    [by apply (builds_create_rule_term ok P t deps dim T o)|done|by intros ? ? ? []|done].
Qed.

Lemma valid_refs_conforms s e (d : NodeId) :
  e <> ExpectAny -> conforms s e (Some d) -> d < length (heap s).
Proof.
  intros He (id & [= <-] & Hc).
  destruct e; [done|..]; destruct Hc as (n & Hn & _); by eapply lookup_lt_Some.
Qed.

End Stable.

Create HintDb stable discriminated.

#[export] Hint Resolve stable_and stable_or stable_pure stable_conforms
  stable_valid_refs stable_valid stable_created stable_denotes stable_denotes_ref
  stable_ex stable_node_of stable_Forall2 : stable.

Ltac solve_stable := solve [eauto 10 with stable].

(** The references of a vector exist: each of them conforms to something
    in the context, or was created there. *)
Ltac solve_valid_refs :=
  repeat (apply valid_refs_cons;
          [first [ eapply valid_refs_conforms; [|eassumption]; done
                 | eapply created_valid; eassumption
                 | eassumption ]|]);
  apply valid_refs_nil.
