(* ===== verification/TreeCompute.v ===== *)
(** * TreeCompute: what the node classes of the likelihood of a tree compute

    The classes the builder of [HomogeneousLikelihoodExample.h] creates
    are defined in the dataflow library, not in the sources.  Their
    [create] is in [Construction]; this file gives their [compute], from
    the specification of the builder:
    - [TransitionMatrixFromModel]: the transition probabilities of the
      model at the length of the branch;
    - [EquilibriumFrequenciesFromModel], [FrequenciesFromFrequenciesSet]:
      the frequencies of the model or of the frequency set;
    - [ForwardLikelihoodFromConditional]: the transition matrix times the
      conditional likelihood of the son,
      [result (state, site) = sum over the states of the son of
       P (state, state of the son) * condLik (state of the son, site)];
    - [ConditionalLikelihoodFromChildrenForward]: the product, coefficient
      by coefficient, of the forward likelihoods of the branches;
    - [LikelihoodFromRootConditional]: for each site, the conditional
      likelihood of the root weighted by the frequencies;
    - [TotalLogLikelihood]: the sum of the logarithms;
    - [CWiseNegate<double>]: the negation.

    A model or a frequency set is an object the graph knows by a handle
    ([VObject p]); what the objects answer is the class [Collaborators].
    The logarithm is an operation [ln] of which nothing is assumed.

    [tree_compute] is the dispatch of [compute] over these classes.  It
    satisfies the contract of [compute] ([tree_compute_laws]) and writes
    the value of the class and nothing else ([tree_compute_pure]), so that
    the theorems of [Denotation] apply. *)

From stdpp Require Import base tactics option list.
From S2P Require Import Prelude Values Numeric DataFlow Evaluation Expression Denotation.

(** What the models and the frequency sets answer: the matrix of
    transition probabilities for a branch length, the equilibrium
    frequencies, the frequencies of a set. *)
Class Collaborators (R : Type) : Type := {
  transitionProbabilities : nat -> R -> Matrix R;
  equilibriumFrequencies : nat -> list R;
  frequencies : nat -> list R;
}.

(** The logarithm of a scalar. *)
Class Log (R : Type) : Type := ln : R -> R.

Section Classes.
Context {R : Type} `{Arith R, Collaborators R, Log R}.

#[local] Open Scope field_scope.

(** The matrices of a list of values, when all of them are matrices. *)
Definition matrices (vals : list (Value R)) : option (list (Matrix R)) :=
  list.mapM (fun v => match v with VEigen m => Some m | _ => None end) vals.

(** The value of a class at the values of its dependencies. *)
Definition tree_value (t : type_info) (vals : list (Value R)) : option (Value R) :=
  match t with
  | T_TransitionMatrixFromModel =>
      match vals with
      | [VObject model; VDouble brlen] =>
          Some (VEigen (transitionProbabilities model brlen))
      | _ => None
      end
  | T_EquilibriumFrequenciesFromModel =>
      match vals with
      | [VObject model] => Some (VEigen (row_vector (equilibriumFrequencies model)))
      | _ => None
      end
  | T_FrequenciesFromFrequenciesSet =>
      match vals with
      | [VObject freqs] => Some (VEigen (row_vector (frequencies freqs)))
      | _ => None
      end
  | T_ForwardLikelihoodFromConditional =>
      match vals with
      | [VEigen transitionMatrix; VEigen condLik] =>
          Some (VEigen (mmul transitionMatrix condLik))
      | _ => None
      end
  | T_ConditionalLikelihoodFromChildrenForward =>
      match matrices vals with
      | Some (m :: ms) => Some (VEigen (foldl cwise_matrix m ms))
      | _ => None
      end
  | T_LikelihoodFromRootConditional =>
      match vals with
      | [VEigen freqs; VEigen condLik] =>
          Some (VEigen (row_vector (dot (coefficients freqs) <$> mcolumns condLik)))
      | _ => None
      end
  | T_TotalLogLikelihood =>
      match vals with
      | [VEigen lik] => Some (VDouble (sum (ln <$> coefficients lik)))
      | _ => None
      end
  | T_CWiseNegate TDouble =>
      match vals with
      | [VDouble x] => Some (VDouble (- x))
      | _ => None
      end
  | _ => None
  end.

#[export] Instance tree_class_value : ClassValue R := tree_value.

(** The matrix of ones: the product of no matrix. *)
Definition ones (dim : MatrixDimension) : Matrix R :=
  mkMatrix (rows dim) (replicate (cols dim) (replicate (rows dim) 1)).

(** The classes of this file. *)
Definition is_tree_class (t : type_info) : bool :=
  match t with
  | T_TransitionMatrixFromModel | T_EquilibriumFrequenciesFromModel
  | T_FrequenciesFromFrequenciesSet | T_ForwardLikelihoodFromConditional
  | T_ConditionalLikelihoodFromChildrenForward | T_LikelihoodFromRootConditional
  | T_TotalLogLikelihood | T_CWiseNegate TDouble => true
  | _ => false
  end.

Lemma tree_value_class t vals v : tree_value t vals = Some v -> is_tree_class t = true.
Proof. destruct t as [| | | | | | | | | | | | |[]| | | | |]; done. Qed.

Lemma tree_class_not_constant t : is_tree_class t = true -> isNumericConstant t = false.
Proof. by destruct t. Qed.

End Classes.

(** ** The dispatch of [compute] *)

Section Compute.
Context {R : Type} `{EqDecision R, Inhabited R, Arith R, Collaborators R, Log R}.
Implicit Types (s : Store R) (n : Node R) (id : NodeId) (v : Value R).

(** What [compute] writes into a node of these classes: the value of the
    class; for a product without factors the matrix of ones of the
    dimension of the node; nothing when the dependencies do not hold
    values the class takes (a cast that fails: undefined in C++). *)
Definition node_value n (vals : list (Value R)) : option (Value R) :=
  match node_type n, vals with
  | T_ConditionalLikelihoodFromChildrenForward, [] =>
      Some (VEigen (ones (targetDimension_ n)))
  | t, _ => tree_value t vals
  end.

Definition tree_compute (other : Compute R) : Compute R := fun id s =>
  match heap s !! id with
  | Some n =>
      if is_tree_class (node_type n) then
        match stored_values s (dependencyNodes_ n) ≫= node_value n with
        | Some v => store_update id (set_value v) s
        | None => s
        end
      else other id s
  | None => s
  end.

Lemma node_value_class n vals v :
  class_value (node_type n) vals = Some v -> node_value n vals = Some v.
Proof.
  unfold class_value, tree_class_value, node_value.
  by destruct (node_type n) as [| | | | | | | | | | | | |[]| | | | |], vals.
Qed.

Lemma quiet_tree_compute (other : Compute R) id s :
  quiet s (other id s) -> quiet s (tree_compute other id s).
Proof.
  intros Ho. unfold tree_compute. destruct (heap s !! id) as [n|] eqn:Hn; [|done].
  destruct (is_tree_class (node_type n)) eqn:Hc; [|done].
  destruct (_ ≫= _); [|done].
  apply (quiet_set_value _ _ _ (node_type n)); [unfold type_at; by rewrite Hn|].
  by apply tree_class_not_constant.
Qed.

End Compute.

(** The dispatch satisfies the contract of [compute], over an evaluator
    that satisfies it. *)
#[export] Instance tree_compute_laws {R}
    `{EqDecision R, Inhabited R, Arith R, Collaborators R, Log R}
    (other : Compute R) `{!@ComputeLaws R _ _ other} :
  @ComputeLaws R _ _ (tree_compute other).
Proof.
  apply quiet_laws. intros id s. apply quiet_tree_compute. by apply quiet_laws.
Qed.

(** It writes the value of the class, and nothing else. *)
#[export] Instance tree_compute_pure {R}
    `{EqDecision R, Inhabited R, Arith R, Collaborators R, Log R} (other : Compute R) :
  @ComputePure R _ _ (tree_compute other) tree_class_value.
Proof.
  intros id s n vals v Hn Hvals Hv.
  change (@compute R (tree_compute other) id s) with (tree_compute other id s).
  unfold tree_compute. rewrite Hn, (tree_value_class _ _ _ Hv), Hvals. simpl.
  by rewrite (node_value_class n vals v Hv).
Qed.
