(* ===== verification/HmmLikelihood.v ===== *)
(** * HmmLikelihood: the node classes of the HMM likelihood computation

    Models [src/src/Bpp/Phyl/NewLikelihood/PhyloLikelihoods/
    HmmLikelihoodComputation.h]: the classes [CondLikelihood],
    [ForwardHmmLikelihood_DF], [ForwardHmmDLikelihood_DF],
    [ForwardHmmD2Likelihood_DF] and [BackwardHmmLikelihood_DF], each a
    Module with the class's constructor ([construct]), its static [create],
    its [build] where it has one, and its methods [derive], [recreate],
    [compareAdditionalArguments] and accessors.

    [compute] of the forward and backward classes is only declared in the
    header; [compute] of the three forward classes and of the backward
    class follows the specification and the comments of the header, with
    the recursions of [HmmRecursion], [HmmDerivative] and
    [HmmSecondDerivative].  [derive] of the two first forward classes,
    declared in the header too, is not modelled. *)

From stdpp Require Import base tactics option list strings numbers.
From S2P Require Import Prelude Values Numeric HmmRecursion HmmDerivative.
From S2P Require Import HmmSecondDerivative DataFlow.

(** ** [CondLikelihood]: the matrix a forward node fills for its clients *)

Module CondLikelihood.
Section WithScalar.
Context {R : Type} `{EqDecision R, Inhabited R}.

(** The constructor: the value is resized to the target dimension. *)
Definition construct (deps : list NodeRef) (dim : MatrixDimension) : Node R :=
  mkNode T_CondLikelihood deps false
         (VEigen (resize (rows dim) (cols dim))) dim None empty_matrix.

(** What [create] checks: two dependencies, the second one a string (the
    name that tells the conditional-likelihood nodes of one forward node
    apart); the first one is not looked at. *)
Definition signature : list Expected := [ExpectAny; ExpectValue TString].

Definition create (deps : list NodeRef) (dim : MatrixDimension) : M R NodeId :=
  checkDependenciesNotNull T_CondLikelihood deps ;;
  checkDependencyVectorSize T_CondLikelihood deps 2 ;;
  checkNthDependencyIsValue TString T_CondLikelihood deps 1 ;;
  self <- make_shared (construct deps dim) ;;
  cachedAs TMatrixXd self.

Definition debugInfo `{Describe R} (self : NodeId) : M R string :=
  this <- dereference self ;;
  name <- dependencyValueConstCast TString this 1 ;;
  value <- accessValueConst self ;;
  ret (debug value +:+ " targetDim=" +:+ to_string (targetDimension_ this)
       +:+ ":name= " +:+ value_string name).

Definition compareAdditionalArguments (other : Node R) : bool :=
  bool_decide (node_type other = T_CondLikelihood).

Definition derive (self node : NodeId) : M R NodeId :=
  throw (Exception "CondLikelihood::derive is done in dependency class.").

Definition recreate (self : NodeId) (deps : list NodeRef) : M R NodeId :=
  this <- dereference self ;;
  create deps (targetDimension_ this).

Definition getCondLikelihood (self : NodeId) : M R (Value R) :=
  accessValueConst self.

(** The overload that is not [const] returns the stored matrix by
    reference ([accessValueMutable]), for the forward node to fill: the
    matrix written through the reference is the argument here. *)
Definition getCondLikelihood_mutable (self : NodeId) (m : Matrix R) : M R unit :=
  update_node self (set_value (VEigen m)).

(** "Nothing happens here, computation is done in ForwardHmmLikelihood_DF
    class". *)
Definition compute (self : NodeId) (s : Store R) : Store R := s.

End WithScalar.
End CondLikelihood.

(** ** [ForwardHmmLikelihood_DF]: forward likelihood arrays *)

Module ForwardHmmLikelihood_DF.
Section WithScalar.
Context {R : Type} `{EqDecision R, Inhabited R} {Cmp : Compute R}.

Definition construct (deps : list NodeRef) (dim : MatrixDimension) : Node R :=
  mkNode T_ForwardHmmLikelihood_DF deps false
         (VEigen (resize 1 (cols dim))) dim None
         (resize (rows dim) (cols dim)).

(** The starting vector, the transition matrix, the emission matrix. *)
Definition signature : list Expected :=
  [ExpectValue TVectorXd; ExpectValue TMatrixXd; ExpectValue TMatrixXd].

(** [build]: creates the owned [CondLikelihood] node, named by a string
    constant, then checks the extents of the three dependencies' values
    against the target dimension. *)
Definition build (self : NodeId) : M R unit :=
  fname <- NumericConstant.create TString (VString "forwardCondLik") ;;
  this <- dereference self ;;
  condLik <- CondLikelihood.create [Some self; Some fname] (targetDimension_ this) ;;
  update_node self (set_condLik (Some condLik)) ;;
  let dim := targetDimension_ this in
  hmmEq <- dependencyTargetValue TVectorXd this 0 ;;
  throw_unless (bool_decide (value_rows hmmEq = rows dim))
    (BadSizeException "ForwardHmmLikelihood_DF: bad dimension for starting vector"
       (value_rows hmmEq) (rows dim)) ;;
  hmmTrans <- dependencyTargetValue TMatrixXd this 1 ;;
  throw_unless (bool_decide (value_rows hmmTrans = rows dim))
    (BadSizeException "ForwardHmmLikelihood_DF: bad number of rows for transition matrix"
       (value_rows hmmTrans) (rows dim)) ;;
  throw_unless (bool_decide (value_cols hmmTrans = rows dim))
    (BadSizeException "ForwardHmmLikelihood_DF: bad number of columns for transition matrix"
       (value_cols hmmTrans) (rows dim)) ;;
  hmmEmis <- dependencyTargetValue TMatrixXd this 2 ;;
  throw_unless (bool_decide (value_rows hmmEmis = rows dim))
    (BadSizeException "ForwardHmmLikelihood_DF: bad number of states for emission matrix"
       (value_rows hmmEmis) (rows dim)) ;;
  throw_unless (bool_decide (value_cols hmmEmis = cols dim))
    (BadSizeException "ForwardHmmLikelihood_DF: bad number of sites for emission matrix"
       (value_cols hmmEmis) (cols dim)).

Definition create (deps : list NodeRef) (dim : MatrixDimension) : M R NodeId :=
  checkDependenciesNotNull T_ForwardHmmLikelihood_DF deps ;;
  checkDependencyVectorSize T_ForwardHmmLikelihood_DF deps 3 ;;
  checkNthDependencyIsValue TVectorXd T_ForwardHmmLikelihood_DF deps 0 ;;
  checkNthDependencyIsValue TMatrixXd T_ForwardHmmLikelihood_DF deps 1 ;;
  checkNthDependencyIsValue TMatrixXd T_ForwardHmmLikelihood_DF deps 2 ;;
  sself <- make_shared (construct deps dim) ;;
  build sself ;;
  cachedAs TRowVectorXd sself.

Definition debugInfo `{Describe R} (self : NodeId) : M R string :=
  this <- dereference self ;;
  value <- accessValueConst self ;;
  ret (debug value +:+ " targetDim=" +:+ to_string (targetDimension_ this)).

Definition compareAdditionalArguments (other : Node R) : bool :=
  bool_decide (node_type other = T_ForwardHmmLikelihood_DF).

Definition recreate (self : NodeId) (deps : list NodeRef) : M R NodeId :=
  this <- dereference self ;;
  create deps (targetDimension_ this).

Definition getForwardCondLikelihood (self : NodeId) : M R NodeRef :=
  this <- dereference self ;; ret (condLik_ this).

Definition getParCondLik (self : NodeId) : M R (Matrix R) :=
  this <- dereference self ;; ret (parCondLik_ this).

(** [compute]: the forward recursion over the values of the three
    dependencies (evaluated before [compute] runs).  The priors go to
    [parCondLik_], the posteriors to the conditional-likelihood node the
    node owns, through its class, and the normalisation constants to the
    value of the node. *)
Definition compute `{Arith R} (self : NodeId) : M R unit :=
  this <- dereference self ;;
  hmmEq <- dependencyValueConstCast TVectorXd this 0 ;;
  hmmTrans <- dependencyValueConstCast TMatrixXd this 1 ;;
  hmmEmis <- dependencyValueConstCast TMatrixXd this 2 ;;
  let nbStates := rows (targetDimension_ this) in
  let sites :=
    forward (value_coefficients hmmEq) (value_matrix hmmTrans) (value_matrix hmmEmis) in
  condLik <- from_option_exc (condLik_ this) (UndefinedBehaviour "null pointer") ;;
  cl <- dereference condLik ;;
  throw_unless (bool_decide (node_type cl = T_CondLikelihood))
    (UndefinedBehaviour "null pointer") ;;
  update_node self (set_parCondLik (mkMatrix nbStates (site_parCondLik <$> sites))) ;;
  CondLikelihood.getCondLikelihood_mutable condLik
    (mkMatrix nbStates (site_condLik <$> sites)) ;;
  update_node self (set_value (VEigen (row_vector (site_scale <$> sites)))).

End WithScalar.
End ForwardHmmLikelihood_DF.

(** ** The arrays of a node of a forward class, read by another node

    What [getParCondLik], [getForwardCondLikelihood] and
    [accessValueConst] give of dependency [i] of [this], cast to the class
    [t] ([dynamic_pointer_cast]; using a null result is undefined): one
    record for each site, made by [mk] of the column of priors, the column
    of posteriors and the coefficient of the value.  Nothing is
    evaluated. *)

Section Arrays.
Context {R : Type} `{EqDecision R, Inhabited R}.

Definition dependencyArrays {S : Type} (mk : list R -> list R -> R -> S)
    (t : type_info) (this : Node R) (i : nat) : M R (list S) :=
  d <- dependencyAs TRowVectorXd this i ;;
  node <- dereference d ;;
  throw_unless (bool_decide (node_type node = t)) (UndefinedBehaviour "null pointer") ;;
  condLik <- from_option_exc (condLik_ node) (UndefinedBehaviour "null pointer") ;;
  matrix <- CondLikelihood.getCondLikelihood condLik ;;
  ret (read_arrays mk (parCondLik_ node) (value_matrix matrix)
         (value_coefficients (value_ node))).

Lemma readonly_dependencyArrays {S : Type} (mk : list R -> list R -> R -> S) t this i :
  readonly (dependencyArrays mk t this i).
Proof.
  unfold dependencyArrays, CondLikelihood.getCondLikelihood.
  apply readonly_bind; [apply readonly_dependencyAs|intros d]. solve_readonly.
Qed.

End Arrays.

(** ** [ForwardHmmDLikelihood_DF]: first derivatives of the forward arrays

    Seven dependencies: the three of the forward node, the forward node
    itself, and the derivatives of the three. *)

Module ForwardHmmDLikelihood_DF.
Section WithScalar.
Context {R : Type} `{EqDecision R, Inhabited R}.

Definition construct (deps : list NodeRef) (dim : MatrixDimension) : Node R :=
  mkNode T_ForwardHmmDLikelihood_DF deps false
         (VEigen (resize 1 (cols dim))) dim None
         (resize (rows dim) (cols dim)).

Definition signature : list Expected :=
  [ExpectValue TVectorXd; ExpectValue TMatrixXd; ExpectValue TMatrixXd;
   ExpectNode T_ForwardHmmLikelihood_DF;
   ExpectValue TVectorXd; ExpectValue TMatrixXd; ExpectValue TMatrixXd].

Definition build (self : NodeId) : M R unit :=
  fname <- NumericConstant.create TString (VString "forwardDcondLik") ;;
  this <- dereference self ;;
  dCondLik <- CondLikelihood.create [Some self; Some fname] (targetDimension_ this) ;;
  update_node self (set_condLik (Some dCondLik)).

Definition create (deps : list NodeRef) (dim : MatrixDimension) : M R NodeId :=
  checkDependenciesNotNull T_ForwardHmmDLikelihood_DF deps ;;
  checkDependencyVectorSize T_ForwardHmmDLikelihood_DF deps 7 ;;
  checkNthDependencyIsValue TVectorXd T_ForwardHmmDLikelihood_DF deps 0 ;;
  checkNthDependencyIsValue TMatrixXd T_ForwardHmmDLikelihood_DF deps 1 ;;
  checkNthDependencyIsValue TMatrixXd T_ForwardHmmDLikelihood_DF deps 2 ;;
  checkNthDependencyIs T_ForwardHmmLikelihood_DF T_ForwardHmmDLikelihood_DF deps 3 ;;
  checkNthDependencyIsValue TVectorXd T_ForwardHmmDLikelihood_DF deps 4 ;;
  checkNthDependencyIsValue TMatrixXd T_ForwardHmmDLikelihood_DF deps 5 ;;
  checkNthDependencyIsValue TMatrixXd T_ForwardHmmDLikelihood_DF deps 6 ;;
  sself <- make_shared (construct deps dim) ;;
  build sself ;;
  cachedAs TRowVectorXd sself.

Definition debugInfo `{Describe R} (self : NodeId) : M R string :=
  this <- dereference self ;;
  value <- accessValueConst self ;;
  ret (debug value +:+ " targetDim=" +:+ to_string (targetDimension_ this)).

Definition compareAdditionalArguments (other : Node R) : bool :=
  bool_decide (node_type other = T_ForwardHmmDLikelihood_DF).

Definition recreate (self : NodeId) (deps : list NodeRef) : M R NodeId :=
  this <- dereference self ;;
  create deps (targetDimension_ this).

Definition getForwardDCondLikelihood (self : NodeId) : M R NodeRef :=
  this <- dereference self ;; ret (condLik_ this).

Definition getParDCondLik (self : NodeId) : M R (Matrix R) :=
  this <- dereference self ;; ret (parCondLik_ this).

(** [compute]: the recursion of the derivatives over the transition
    matrix and the emission likelihoods, the three arrays of the forward
    node (its value, [parCondLik_] and the matrix of its conditional
    likelihood node, read and not computed again) and the derivatives of
    the three inputs.  The derivatives of the priors go to [dParCondLik_],
    those of the posteriors to the conditional-likelihood node the node
    owns, those of the normalisation constants to the value of the
    node. *)
Definition compute `{Arith R} (self : NodeId) : M R unit :=
  this <- dereference self ;;
  hmmTrans <- dependencyValueConstCast TMatrixXd this 1 ;;
  hmmEmis <- dependencyValueConstCast TMatrixXd this 2 ;;
  sites <- dependencyArrays mkSite T_ForwardHmmLikelihood_DF this 3 ;;
  dHmmEq <- dependencyValueConstCast TVectorXd this 4 ;;
  dHmmTrans <- dependencyValueConstCast TMatrixXd this 5 ;;
  dHmmEmis <- dependencyValueConstCast TMatrixXd this 6 ;;
  let nbStates := rows (targetDimension_ this) in
  let dsites :=
    forwardD (value_matrix hmmTrans) (value_matrix dHmmTrans) sites
      (value_coefficients dHmmEq) (value_matrix hmmEmis) (value_matrix dHmmEmis) in
  dCondLik <- from_option_exc (condLik_ this) (UndefinedBehaviour "null pointer") ;;
  dcl <- dereference dCondLik ;;
  throw_unless (bool_decide (node_type dcl = T_CondLikelihood))
    (UndefinedBehaviour "null pointer") ;;
  update_node self (set_parCondLik (mkMatrix nbStates (dsite_parCondLik <$> dsites))) ;;
  CondLikelihood.getCondLikelihood_mutable dCondLik
    (mkMatrix nbStates (dsite_condLik <$> dsites)) ;;
  update_node self (set_value (VEigen (row_vector (dsite_scale <$> dsites)))).

End WithScalar.
End ForwardHmmDLikelihood_DF.

(** ** [ForwardHmmD2Likelihood_DF]: second derivatives of the forward arrays

    Eleven dependencies: those of the first-derivative node, that node, and
    the second derivatives of the three inputs.  The class has no work
    matrix. *)

Module ForwardHmmD2Likelihood_DF.
Section WithScalar.
Context {R : Type} `{EqDecision R, Inhabited R}.

Definition construct (deps : list NodeRef) (dim : MatrixDimension) : Node R :=
  mkNode T_ForwardHmmD2Likelihood_DF deps false
         (VEigen (resize 1 (cols dim))) dim None empty_matrix.

Definition signature : list Expected :=
  [ExpectValue TVectorXd; ExpectValue TMatrixXd; ExpectValue TMatrixXd;
   ExpectNode T_ForwardHmmLikelihood_DF;
   ExpectValue TVectorXd; ExpectValue TMatrixXd; ExpectValue TMatrixXd;
   ExpectNode T_ForwardHmmDLikelihood_DF;
   ExpectValue TVectorXd; ExpectValue TMatrixXd; ExpectValue TMatrixXd].

Definition build (self : NodeId) : M R unit :=
  fname <- NumericConstant.create TString (VString "forwardD2condLik") ;;
  this <- dereference self ;;
  d2CondLik <- CondLikelihood.create [Some self; Some fname] (targetDimension_ this) ;;
  update_node self (set_condLik (Some d2CondLik)).

Definition create (deps : list NodeRef) (dim : MatrixDimension) : M R NodeId :=
  checkDependenciesNotNull T_ForwardHmmD2Likelihood_DF deps ;;
  checkDependencyVectorSize T_ForwardHmmD2Likelihood_DF deps 11 ;;
  checkNthDependencyIsValue TVectorXd T_ForwardHmmD2Likelihood_DF deps 0 ;;
  checkNthDependencyIsValue TMatrixXd T_ForwardHmmD2Likelihood_DF deps 1 ;;
  checkNthDependencyIsValue TMatrixXd T_ForwardHmmD2Likelihood_DF deps 2 ;;
  checkNthDependencyIs T_ForwardHmmLikelihood_DF T_ForwardHmmD2Likelihood_DF deps 3 ;;
  checkNthDependencyIsValue TVectorXd T_ForwardHmmD2Likelihood_DF deps 4 ;;
  checkNthDependencyIsValue TMatrixXd T_ForwardHmmD2Likelihood_DF deps 5 ;;
  checkNthDependencyIsValue TMatrixXd T_ForwardHmmD2Likelihood_DF deps 6 ;;
  checkNthDependencyIs T_ForwardHmmDLikelihood_DF T_ForwardHmmD2Likelihood_DF deps 7 ;;
  checkNthDependencyIsValue TVectorXd T_ForwardHmmD2Likelihood_DF deps 8 ;;
  checkNthDependencyIsValue TMatrixXd T_ForwardHmmD2Likelihood_DF deps 9 ;;
  checkNthDependencyIsValue TMatrixXd T_ForwardHmmD2Likelihood_DF deps 10 ;;
  sself <- make_shared (construct deps dim) ;;
  build sself ;;
  cachedAs TRowVectorXd sself.

Definition debugInfo `{Describe R} (self : NodeId) : M R string :=
  this <- dereference self ;;
  value <- accessValueConst self ;;
  ret (debug value +:+ " targetDim=" +:+ to_string (targetDimension_ this)).

Definition compareAdditionalArguments (other : Node R) : bool :=
  bool_decide (node_type other = T_ForwardHmmD2Likelihood_DF).

Definition derive (self node : NodeId) : M R NodeId :=
  throw (Exception "ForwardHmmD2Likelihood_DF::derive not implemented.").

Definition recreate (self : NodeId) (deps : list NodeRef) : M R NodeId :=
  this <- dereference self ;;
  create deps (targetDimension_ this).

(** [compute]: the recursion of the second derivatives over the
    transition matrix and the emission likelihoods, the arrays of the
    forward node and of the node of the first derivatives (read, not
    computed again), and the first and second derivatives of the inputs.
    The second derivatives of the posteriors go to the
    conditional-likelihood node the node owns, those of the normalisation
    constants to the value of the node; the class has no member for those
    of the priors. *)
Definition compute `{Arith R} (self : NodeId) : M R unit :=
  this <- dereference self ;;
  hmmTrans <- dependencyValueConstCast TMatrixXd this 1 ;;
  hmmEmis <- dependencyValueConstCast TMatrixXd this 2 ;;
  sites <- dependencyArrays mkSite T_ForwardHmmLikelihood_DF this 3 ;;
  dHmmTrans <- dependencyValueConstCast TMatrixXd this 5 ;;
  dHmmEmis <- dependencyValueConstCast TMatrixXd this 6 ;;
  dsites <- dependencyArrays mkDSite T_ForwardHmmDLikelihood_DF this 7 ;;
  d2HmmEq <- dependencyValueConstCast TVectorXd this 8 ;;
  d2HmmTrans <- dependencyValueConstCast TMatrixXd this 9 ;;
  d2HmmEmis <- dependencyValueConstCast TMatrixXd this 10 ;;
  let nbStates := rows (targetDimension_ this) in
  let d2sites :=
    forwardD2 (value_matrix hmmTrans) (value_matrix dHmmTrans) (value_matrix d2HmmTrans)
      sites dsites (value_coefficients d2HmmEq)
      (value_matrix hmmEmis) (value_matrix dHmmEmis) (value_matrix d2HmmEmis) in
  d2CondLik <- from_option_exc (condLik_ this) (UndefinedBehaviour "null pointer") ;;
  d2cl <- dereference d2CondLik ;;
  throw_unless (bool_decide (node_type d2cl = T_CondLikelihood))
    (UndefinedBehaviour "null pointer") ;;
  CondLikelihood.getCondLikelihood_mutable d2CondLik
    (mkMatrix nbStates (d2site_condLik <$> d2sites)) ;;
  update_node self (set_value (VEigen (row_vector (d2site_scale <$> d2sites)))).

End WithScalar.
End ForwardHmmD2Likelihood_DF.

(** ** [BackwardHmmLikelihood_DF]: backward likelihood arrays

    Three dependencies: the vector of the forward node's conditional
    likelihoods, the transition matrix and the emission matrix.  The extents
    are checked by the constructor, on the values the dependencies hold
    when it runs, without evaluating them. *)

Module BackwardHmmLikelihood_DF.
Section WithScalar.
Context {R : Type} `{EqDecision R, Inhabited R}.

(** The vector of the forward likelihoods, the transition matrix, the
    emission matrix. *)
Definition signature : list Expected :=
  [ExpectValue TRowVectorXd; ExpectValue TMatrixXd; ExpectValue TMatrixXd].

Definition construct (deps : list NodeRef) (dim : MatrixDimension) : M R (Node R) :=
  let this :=
    mkNode T_BackwardHmmLikelihood_DF deps false
           (VEigen (resize (rows dim) (cols dim))) dim None empty_matrix in
  hmmScale <- dependencyValueConstCast TRowVectorXd this 0 ;;
  throw_unless (bool_decide (value_cols hmmScale = cols dim))
    (BadSizeException "BackwardHmmLikelihood_DF: bad dimension for forward likelihoods vector"
       (value_rows hmmScale) (rows dim)) ;;
  hmmTrans <- dependencyValueConstCast TMatrixXd this 1 ;;
  throw_unless (bool_decide (value_rows hmmTrans = rows dim))
    (BadSizeException "BackwardHmmLikelihood_DF: bad number of rows for transition matrix"
       (value_rows hmmTrans) (rows dim)) ;;
  throw_unless (bool_decide (value_cols hmmTrans = rows dim))
    (BadSizeException "BackwardHmmLikelihood_DF: bad number of columns for transition matrix"
       (value_cols hmmTrans) (rows dim)) ;;
  hmmEmis <- dependencyValueConstCast TMatrixXd this 2 ;;
  throw_unless (bool_decide (value_rows hmmEmis = rows dim))
    (BadSizeException "BackwardHmmLikelihood_DF: bad number of states for emission matrix"
       (value_rows hmmEmis) (rows dim)) ;;
  throw_unless (bool_decide (value_cols hmmEmis = cols dim))
    (BadSizeException "BackwardHmmLikelihood_DF: bad number of sites for emission matrix"
       (value_cols hmmEmis) (cols dim)) ;;
  ret this.

Definition create (deps : list NodeRef) (dim : MatrixDimension) : M R NodeId :=
  checkDependenciesNotNull T_BackwardHmmLikelihood_DF deps ;;
  checkDependencyVectorSize T_BackwardHmmLikelihood_DF deps 3 ;;
  checkNthDependencyIsValue TRowVectorXd T_BackwardHmmLikelihood_DF deps 0 ;;
  checkNthDependencyIsValue TMatrixXd T_BackwardHmmLikelihood_DF deps 1 ;;
  checkNthDependencyIsValue TMatrixXd T_BackwardHmmLikelihood_DF deps 2 ;;
  this <- construct deps dim ;;
  self <- make_shared this ;;
  cachedAs TMatrixXd self.

Definition debugInfo `{Describe R} (self : NodeId) : M R string :=
  this <- dereference self ;;
  value <- accessValueConst self ;;
  ret (debug value +:+ " targetDim=" +:+ to_string (targetDimension_ this)).

Definition compareAdditionalArguments (other : Node R) : bool :=
  bool_decide (node_type other = T_BackwardHmmLikelihood_DF).

(** The statement after the [throw] is never reached. *)
Definition derive (self node : NodeId) : M R NodeId :=
  throw (Exception "BackwardHmmLikelihood_DF::derive To be finished.").

Definition recreate (self : NodeId) (deps : list NodeRef) : M R NodeId :=
  this <- dereference self ;;
  create deps (targetDimension_ this).

(** [compute]: the backward recursion over the normalisation constants of
    the forward node, the transition matrix and the emission
    likelihoods. *)
Definition compute `{Arith R} (self : NodeId) : M R unit :=
  this <- dereference self ;;
  hmmScale <- dependencyValueConstCast TRowVectorXd this 0 ;;
  hmmTrans <- dependencyValueConstCast TMatrixXd this 1 ;;
  hmmEmis <- dependencyValueConstCast TMatrixXd this 2 ;;
  let nbStates := rows (targetDimension_ this) in
  update_node self
    (set_value (VEigen (mkMatrix nbStates
       (backward nbStates (value_coefficients hmmScale)
          (value_matrix hmmTrans) (value_matrix hmmEmis))))).

End WithScalar.
End BackwardHmmLikelihood_DF.

(** * Properties *)

(** ** Each [create] is its signature's checks, then the construction *)

Section Unfold.
Context {R : Type} `{EqDecision R, Inhabited R} {Cmp : Compute R}.
Implicit Types (s : Store R) (deps : list NodeRef) (dim : MatrixDimension).

Lemma CondLikelihood_create_unfold deps dim :
  CondLikelihood.create (R:=R) deps dim =
  checked T_CondLikelihood CondLikelihood.signature deps
    (self <- make_shared (CondLikelihood.construct deps dim) ;;
     cachedAs TMatrixXd self).
Proof. reflexivity. Qed.

Lemma Forward_create_unfold deps dim :
  ForwardHmmLikelihood_DF.create deps dim =
  checked T_ForwardHmmLikelihood_DF ForwardHmmLikelihood_DF.signature deps
    (sself <- make_shared (ForwardHmmLikelihood_DF.construct deps dim) ;;
     ForwardHmmLikelihood_DF.build sself ;;
     cachedAs TRowVectorXd sself).
Proof. reflexivity. Qed.

Lemma ForwardD_create_unfold deps dim :
  ForwardHmmDLikelihood_DF.create (R:=R) deps dim =
  checked T_ForwardHmmDLikelihood_DF ForwardHmmDLikelihood_DF.signature deps
    (sself <- make_shared (ForwardHmmDLikelihood_DF.construct deps dim) ;;
     ForwardHmmDLikelihood_DF.build sself ;;
     cachedAs TRowVectorXd sself).
Proof. reflexivity. Qed.

Lemma ForwardD2_create_unfold deps dim :
  ForwardHmmD2Likelihood_DF.create (R:=R) deps dim =
  checked T_ForwardHmmD2Likelihood_DF ForwardHmmD2Likelihood_DF.signature deps
    (sself <- make_shared (ForwardHmmD2Likelihood_DF.construct deps dim) ;;
     ForwardHmmD2Likelihood_DF.build sself ;;
     cachedAs TRowVectorXd sself).
Proof. reflexivity. Qed.

Lemma Backward_create_unfold deps dim :
  BackwardHmmLikelihood_DF.create (R:=R) deps dim =
  checked T_BackwardHmmLikelihood_DF BackwardHmmLikelihood_DF.signature deps
    (this <- BackwardHmmLikelihood_DF.construct deps dim ;;
     self <- make_shared this ;;
     cachedAs TMatrixXd self).
Proof. reflexivity. Qed.

End Unfold.

(** ** Structural errors *)

Section Rejects.
Context {R : Type} `{EqDecision R, Inhabited R} {Cmp : Compute R}.
Implicit Types (s : Store R) (deps : list NodeRef) (dim : MatrixDimension).

(** The five classes: their type, their signature and their [create]. *)
Definition hmm_classes :
    list (type_info * list Expected * (list NodeRef -> MatrixDimension -> M R NodeId)) :=
  [ (T_CondLikelihood, CondLikelihood.signature, CondLikelihood.create);
    (T_ForwardHmmLikelihood_DF, ForwardHmmLikelihood_DF.signature,
     ForwardHmmLikelihood_DF.create);
    (T_ForwardHmmDLikelihood_DF, ForwardHmmDLikelihood_DF.signature,
     ForwardHmmDLikelihood_DF.create);
    (T_ForwardHmmD2Likelihood_DF, ForwardHmmD2Likelihood_DF.signature,
     ForwardHmmD2Likelihood_DF.create);
    (T_BackwardHmmLikelihood_DF, BackwardHmmLikelihood_DF.signature,
     BackwardHmmLikelihood_DF.create) ].

(** Every [create] starts with the checks of its signature. *)
Lemma hmm_create_checked t sig create :
  (t, sig, create) ∈ hmm_classes ->
  exists k, forall deps dim, create deps dim = checked t sig deps (k deps dim).
Proof.
  unfold hmm_classes. rewrite !elem_of_cons, elem_of_nil.
  intros [[= -> -> ->]|[[= -> -> ->]|[[= -> -> ->]|[[= -> -> ->]|[[= -> -> ->]|[]]]]]];
    eexists (fun deps dim => _); intros deps dim; reflexivity.
Qed.

(** C18. A [create] of any of the five classes whose dependency vector does
    not fit the class's signature (a null dependency, a wrong number of
    dependencies, a dependency of the wrong type) throws the exception
    [signature_error] computes, and leaves the store as it found it: no
    object is allocated and nothing enters the cache. *)
Theorem hmm_create_rejects t sig create deps dim s err :
  (t, sig, create) ∈ hmm_classes ->
  signature_error t sig deps s = Some err ->
  create deps dim s = (Err err, s).
Proof.
  intros Hin Herr. destruct (hmm_create_checked _ _ _ Hin) as [k ->].
  by rewrite checked_run, Herr.
Qed.

End Rejects.

(** ** Concrete stores for the examples

    Integers stand for the scalars and nothing is computed: the leaves are
    constants, valid from their construction. *)

Module Examples.

#[local] Existing Instance compute_nothing.

Definition vector (l : list Z) : Value Z := VEigen (mkMatrix (length l) [l]).
Definition rowvector (l : list Z) : Value Z := VEigen (mkMatrix 1 ((fun x => [x]) <$> l)).
Definition matrix (r : nat) (columns : list (list Z)) : Value Z := VEigen (mkMatrix r columns).

(** A starting vector of two states, a 2 x 2 transition matrix and a
    2 x 3 emission matrix, as constants 0, 1 and 2. *)
Definition hmm_inputs : M Z (list NodeRef) :=
  hmmEq <- NumericConstant.create TVectorXd (vector [1; 1]%Z) ;;
  hmmTrans <- NumericConstant.create TMatrixXd (matrix 2 [[1; 2]; [3; 4]]%Z) ;;
  hmmEmis <- NumericConstant.create TMatrixXd (matrix 2 [[1; 2]; [3; 4]; [5; 6]]%Z) ;;
  ret [Some hmmEq; Some hmmTrans; Some hmmEmis].

Definition hmm_store : Store Z := final hmm_inputs empty_store.
Definition hmm_deps : list NodeRef := [Some 0; Some 1; Some 2].

Definition hmmEq : Value Z := vector [1; 1]%Z.
Definition hmmTrans : Value Z := matrix 2 [[1; 2]; [3; 4]]%Z.
Definition hmmEmis : Value Z := matrix 2 [[1; 2]; [3; 4]; [5; 6]]%Z.

Example hmm_inputs_run : hmm_inputs empty_store = (Ok hmm_deps, hmm_store).
Proof. reflexivity. Qed.

Lemma wf_hmm_store : wf_store hmm_store.
Proof.
  assert (preserves wf_store hmm_inputs) as Hp by (unfold hmm_inputs; solve_preserves).
  apply Hp, wf_empty.
Qed.

Lemma holds_hmm_store :
  holds hmm_store 0 TVectorXd hmmEq /\ holds hmm_store 1 TMatrixXd hmmTrans
  /\ holds hmm_store 2 TMatrixXd hmmEmis.
Proof. split_and!; eexists; by split_and!. Qed.

(** The same store with a row vector of three sites, node 3: the
    dependencies of a backward node. *)
Definition hmmScale : Value Z := rowvector [7; 8; 9]%Z.
Definition backward_store : Store Z :=
  final (NumericConstant.create TRowVectorXd hmmScale) hmm_store.

Lemma wf_backward_store : wf_store backward_store.
Proof. apply preserves_wf_NumericConstant_create, wf_hmm_store. Qed.

Lemma stored_backward_store :
  stored backward_store 3 TRowVectorXd hmmScale
  /\ stored backward_store 1 TMatrixXd hmmTrans
  /\ stored backward_store 2 TMatrixXd hmmEmis.
Proof. split_and!; eexists; by split_and!. Qed.

End Examples.

Lemma hmm_create_rejects_witness :
  ForwardHmmLikelihood_DF.create (Cmp := compute_nothing)
      [Some 0; None; Some 2] (mkDim 2 3) Examples.hmm_store
    = (Err (NullDependencyError T_ForwardHmmLikelihood_DF 1), Examples.hmm_store).
Proof.
  apply (hmm_create_rejects (Cmp := compute_nothing)
           T_ForwardHmmLikelihood_DF ForwardHmmLikelihood_DF.signature).
  - unfold hmm_classes. rewrite !elem_of_cons. auto.
  - reflexivity.
Defined.

(** ** The conditional-likelihood node a forward node owns

    The three forward classes begin [build] in the same way: a string
    constant, a [CondLikelihood] over the node under construction and that
    constant, and the reference to it stored in the node. *)

Section OwnCondLik.
Context {R : Type} `{EqDecision R, Inhabited R}.
Implicit Types (s : Store R) (deps : list NodeRef) (dim : MatrixDimension)
  (F : Node R) (name : string).

Definition own_condLik name (self : NodeId) : M R (Node R) :=
  fname <- NumericConstant.create TString (VString name) ;;
  this <- dereference self ;;
  condLik <- CondLikelihood.create [Some self; Some fname] (targetDimension_ this) ;;
  update_node self (set_condLik (Some condLik)) ;;
  ret this.

(** The name constant: found in the cache or inserted. *)
Definition name_ref name s : NodeId :=
  default (length (heap s)) (cache_find s (NumericConstant.construct TString (VString name))).

Definition with_name name s : Store R :=
  let K := NumericConstant.construct TString (VString name) in
  match cache_find s K with
  | Some _ => alloc s K
  | None => push (alloc s K) (length (heap s))
  end.

Lemma name_create_run name s :
  wf_store s ->
  NumericConstant.create TString (VString name) s = (Ok (name_ref name s), with_name name s).
Proof.
  intros Hwf. rewrite NumericConstant_create_run. simpl.
  unfold name_ref, with_name. rewrite (cache_find_alloc _ _ _ Hwf).
  by destruct (cache_find s _).
Qed.

Lemma heap_with_name name s :
  heap (with_name name s) = heap s ++ [NumericConstant.construct TString (VString name)].
Proof. unfold with_name. by destruct (cache_find s _). Qed.

Lemma wf_with_name name s : wf_store s -> wf_store (with_name name s).
Proof.
  intros Hwf. pose proof (preserves_wf_NumericConstant_create TString (VString name) s Hwf) as H1.
  unfold final in H1. by rewrite (name_create_run _ _ Hwf) in H1.
Qed.

Lemma name_ref_lookup name s :
  wf_store s ->
  exists m, heap (with_name name s) !! name_ref name s = Some m
            /\ node_type m = T_NumericConstant TString.
Proof.
  intros Hwf. destruct (NumericConstant_create_spec TString (VString name) s)
    as (c & m & Hrun & Hm & Ht & _).
  unfold final in *. rewrite (name_create_run _ _ Hwf) in Hrun, Hm.
  injection Hrun as <-. eauto.
Qed.

Lemma cache_with_name name s :
  nodeCache_ s `prefix_of` nodeCache_ (with_name name s).
Proof.
  unfold with_name. destruct (cache_find s _); simpl; [done|by apply prefix_app_r].
Qed.

Lemma extends_with_name name s : extends s (with_name name s).
Proof.
  unfold with_name. destruct (cache_find s _); [apply extends_alloc|].
  etrans; [apply extends_alloc|apply extends_push].
Qed.

Lemma no_dependents_with_name name s a :
  no_dependents s a -> no_dependents (with_name name s) a.
Proof.
  intros Hn. unfold with_name.
  destruct (cache_find s _); [|apply no_dependents_push];
    apply no_dependents_alloc; simpl; try done; apply not_elem_of_nil.
Qed.

(** The store after the node [F], allocated at the end of [s], has received
    its conditional-likelihood node: the name constant, the
    [CondLikelihood] node (always a new cache entry, since nothing older
    depends on [F]) and the reference to it written into [F]. *)
Definition owner s : NodeId := length (heap s).
Definition owned_ref s : NodeId := S (S (length (heap s))).

Definition owned_node name s F : Node R :=
  CondLikelihood.construct [Some (owner s); Some (name_ref name (alloc s F))]
                           (targetDimension_ F).

Definition owned name s F : Store R :=
  let s2 := with_name name (alloc s F) in
  store_update (owner s) (set_condLik (Some (owned_ref s)))
    (push (alloc s2 (owned_node name s F)) (owned_ref s)).

Lemma fresh_not_dep s F :
  valid_refs s (dependencyNodes_ F) -> Some (length (heap s)) ∉ dependencyNodes_ F.
Proof. intros Hv Hin. specialize (Hv _ Hin). lia. Qed.

Lemma wf_alloc_fresh s F :
  wf_store s -> valid_refs s (dependencyNodes_ F) -> condLik_ F = None ->
  wf_store (alloc s F).
Proof. intros Hwf Hv Hc. apply wf_alloc; [done..|]. intros c. by rewrite Hc. Qed.

Lemma no_dependents_named name s F :
  wf_store s -> valid_refs s (dependencyNodes_ F) ->
  no_dependents (with_name name (alloc s F)) (owner s).
Proof.
  intros Hwf Hv.
  apply no_dependents_with_name, no_dependents_last; [done|by apply fresh_not_dep].
Qed.

Lemma length_with_name name s F :
  length (heap (with_name name (alloc s F))) = owned_ref s.
Proof. rewrite heap_with_name. simpl. rewrite !length_app. simpl. unfold owned_ref. lia. Qed.

Lemma own_condLik_run name s F :
  wf_store s -> valid_refs s (dependencyNodes_ F) -> condLik_ F = None ->
  own_condLik name (owner s) (alloc s F) = (Ok F, owned name s F).
Proof.
  intros Hwf Hv Hc.
  pose proof (wf_alloc_fresh _ _ Hwf Hv Hc) as Hwf1.
  pose proof (wf_with_name name _ Hwf1) as Hwf2.
  destruct (name_ref_lookup name _ Hwf1) as (k & Hk & Hkt).
  unfold own_condLik, bind. rewrite (name_create_run _ _ Hwf1).
  rewrite (dereference_Some (owner s) F).
  2:{ rewrite heap_with_name. simpl. rewrite <- app_assoc. apply list_lookup_middle. done. }
  rewrite CondLikelihood_create_unfold, checked_conforms.
  2:{ repeat constructor; [by eexists|]. eexists; split; [done|].
      exists k. by rewrite Hkt. }
  rewrite (alloc_cachedAs_run TMatrixXd) by done.
  rewrite (cache_find_alloc _ _ _ Hwf2).
  rewrite (cache_find_no_dependents _ (owner s));
    [|by apply no_dependents_named|apply list_elem_of_here].
  by rewrite length_with_name.
Qed.

(** *** The store [owned name s F] *)

Lemma wf_owned name s F :
  wf_store s -> valid_refs s (dependencyNodes_ F) -> condLik_ F = None ->
  wf_store (owned name s F).
Proof.
  intros Hwf Hv Hc.
  pose proof (wf_with_name name _ (wf_alloc_fresh _ _ Hwf Hv Hc)) as Hwf2.
  destruct (name_ref_lookup name _ (wf_alloc_fresh _ _ Hwf Hv Hc)) as (k & Hk & _).
  assert (wf_store (alloc (with_name name (alloc s F)) (owned_node name s F))) as Hwf3.
  { apply wf_alloc; [done| |done]. intros d Hd. simpl in Hd.
    rewrite length_with_name. unfold owned_ref.
    apply elem_of_cons in Hd as [[= ->]|Hd]; [unfold owner; lia|].
    apply list_elem_of_singleton in Hd as [= ->].
    apply lookup_lt_Some in Hk. by rewrite length_with_name in Hk. }
  apply wf_set_condLik.
  - eapply wf_push; [done| |].
    + simpl. rewrite <- length_with_name with (name := name) (F := F).
      apply lookup_snoc_length.
    + rewrite (cache_find_alloc _ _ _ Hwf2).
      apply (cache_find_no_dependents _ (owner s));
        [by apply no_dependents_named|apply list_elem_of_here].
  - simpl. rewrite length_app, length_with_name. simpl. unfold owned_ref. lia.
Qed.

Lemma extends_owned name s F : extends s (owned name s F).
Proof.
  unfold owned. etrans; [apply (extends_alloc s F)|].
  etrans; [|apply extends_store_update; intros n; by split].
  etrans; [|apply extends_push]. etrans; [|apply extends_alloc].
  apply extends_with_name.
Qed.

Lemma length_owned name s F : length (heap (owned name s F)) = length (heap s) + 3.
Proof.
  unfold owned, store_update. simpl.
  rewrite length_alter, length_app, length_with_name. simpl. unfold owned_ref. lia.
Qed.

Lemma owned_heap name s F :
  heap (owned name s F) =
  heap s ++ [set_condLik (Some (owned_ref s)) F;
             NumericConstant.construct TString (VString name);
             owned_node name s F].
Proof.
  unfold owned, store_update. simpl. rewrite heap_with_name. simpl.
  rewrite <- !app_assoc. simpl. unfold owner.
  rewrite <- (Nat.add_0_r (length (heap s))). by rewrite alter_app_r.
Qed.

Lemma owned_lookup_old name s F id :
  id < length (heap s) -> heap (owned name s F) !! id = heap s !! id.
Proof. intros Hlt. by rewrite owned_heap, lookup_app_l. Qed.

Lemma owned_lookup_owner name s F :
  heap (owned name s F) !! owner s = Some (set_condLik (Some (owned_ref s)) F).
Proof. rewrite owned_heap. by apply list_lookup_middle. Qed.

Lemma owned_lookup_ref name s F :
  heap (owned name s F) !! owned_ref s = Some (owned_node name s F).
Proof.
  rewrite owned_heap, lookup_app_r; unfold owned_ref; [|lia].
  by replace (S (S (length (heap s))) - length (heap s)) with 2 by lia.
Qed.

Lemma owned_ref_cached name s F : owned_ref s ∈ nodeCache_ (owned name s F).
Proof. unfold owned. simpl. apply elem_of_app. right. apply list_elem_of_here. Qed.

Lemma owned_ref_new s : wf_store s -> owned_ref s ∉ nodeCache_ s.
Proof. intros Hwf Hin. apply (wf_cache _ Hwf) in Hin. unfold owned_ref in Hin. lia. Qed.

Lemma cache_find_with_name name s n :
  wf_store s -> node_type n <> T_NumericConstant TString ->
  cache_find (with_name name s) n = cache_find s n.
Proof.
  intros Hwf Hne. unfold with_name.
  destruct (cache_find s (NumericConstant.construct _ _));
    [by apply cache_find_alloc|].
  rewrite (cache_find_push_type _ _ _ (NumericConstant.construct TString (VString name)));
    [by apply cache_find_alloc|apply lookup_snoc_length|simpl; congruence].
Qed.

(** The cache answers for the other classes as before. *)
Lemma cache_find_owned name s F n :
  wf_store s -> valid_refs s (dependencyNodes_ F) -> condLik_ F = None ->
  node_type n <> T_NumericConstant TString -> node_type n <> T_CondLikelihood ->
  cache_find (owned name s F) n = cache_find s n.
Proof.
  intros Hwf Hv Hc Hn1 Hn2.
  pose proof (wf_alloc_fresh _ _ Hwf Hv Hc) as Hwf1.
  unfold owned. rewrite cache_find_update_key by done.
  rewrite (cache_find_push_type _ _ _ (owned_node name s F)).
  - rewrite cache_find_alloc by by apply wf_with_name.
    rewrite cache_find_with_name by done. by apply cache_find_alloc.
  - simpl. rewrite <- length_with_name with (name := name) (F := F).
    apply lookup_snoc_length.
  - simpl. congruence.
Qed.

(** *** The node built, then looked up in the cache

    [built name s F]: the result and the store of
    [sself <- make_shared F ;; build sself ;; cachedAs sself] when [build]
    gives the node its conditional-likelihood node and succeeds. *)

Definition built name s F : result Error NodeId * Store R :=
  match cache_find s F with
  | Some c => (Ok c, owned name s F)
  | None => (Ok (owner s), push (owned name s F) (owner s))
  end.

Definition buildable s F : Prop :=
  wf_store s /\ valid_refs s (dependencyNodes_ F) /\ condLik_ F = None
  /\ node_type F <> T_NumericConstant TString /\ node_type F <> T_CondLikelihood.

Lemma cached_owner_run name T s F :
  buildable s F -> valueTypeOf (node_type F) = T ->
  cachedAs T (owner s) (owned name s F) = built name s F.
Proof.
  intros (Hwf & Hv & Hc & Hn1 & Hn2) HT.
  pose proof (owned_lookup_owner name s F) as Ho.
  rewrite (cachedAs_run _ _ _ _ Ho), (cached_run _ _ _ Ho) by done.
  rewrite (cache_find_key _ _ F) by done.
  unfold built. by rewrite cache_find_owned.
Qed.

Lemma wf_built name s F : buildable s F -> wf_store (built name s F).2.
Proof.
  intros (Hwf & Hv & Hc & Hn1 & Hn2). unfold built.
  destruct (cache_find s F) eqn:Hf; simpl; [by apply wf_owned|].
  eapply wf_push; [by apply wf_owned|apply owned_lookup_owner|].
  rewrite (cache_find_key _ _ F) by done. by rewrite cache_find_owned.
Qed.

Lemma extends_built name s F : extends s (built name s F).2.
Proof.
  unfold built. destruct (cache_find s F); simpl; [apply extends_owned|].
  etrans; [apply extends_owned|apply extends_push].
Qed.

Lemma built_created name s F :
  exists c, (built name s F).1 = Ok c
    /\ created (built name s F).2 c (node_type F) (dependencyNodes_ F).
Proof.
  unfold built. destruct (cache_find s F) as [c|] eqn:Hf; simpl.
  - exists c. split; [done|]. apply (created_extends s); [apply extends_owned|].
    destruct (cache_find_Some _ _ _ Hf) as (Hin & m & Hm & Hs). split; [done|].
    exists m. by rewrite (sameNode_type _ _ Hs), (sameNode_deps _ _ Hs).
  - exists (owner s). split; [done|]. split.
    + apply elem_of_app. right. apply list_elem_of_here.
    + eexists. split; [apply owned_lookup_owner|done].
Qed.

(** Asking again gives the same node. *)
Lemma built_again name s F c :
  buildable s F -> (built name s F).1 = Ok c ->
  cache_find (built name s F).2 F = Some c.
Proof.
  intros (Hwf & Hv & Hc & Hn1 & Hn2). unfold built.
  destruct (cache_find s F) as [c'|] eqn:Hf; simpl; intros [= <-].
  - by rewrite cache_find_owned.
  - rewrite <- (cache_find_key _ (set_condLik (Some (owned_ref s)) F)) by done.
    apply cache_find_push_new; [|apply owned_lookup_owner].
    rewrite (cache_find_key _ _ F) by done. by rewrite cache_find_owned.
Qed.

Lemma built_lookup_old name s F id :
  id < length (heap s) -> heap (built name s F).2 !! id = heap s !! id.
Proof.
  intros Hlt. unfold built. destruct (cache_find s F); simpl; by apply owned_lookup_old.
Qed.

Lemma length_built name s F : length (heap (built name s F).2) = length (heap s) + 3.
Proof. unfold built. destruct (cache_find s F); simpl; apply length_owned. Qed.

(** *** The name constant stays in the cache *)

Lemma name_cached_with_name name s :
  wf_store s ->
  is_Some (cache_find (with_name name s) (NumericConstant.construct TString (VString name))).
Proof.
  intros Hwf. unfold with_name.
  destruct (cache_find s (NumericConstant.construct _ _)) eqn:Hf.
  - rewrite cache_find_alloc by done. by rewrite Hf.
  - eexists. apply cache_find_push_new; [by rewrite cache_find_alloc|].
    apply lookup_snoc_length.
Qed.

Lemma name_cached_owned name s F :
  wf_store s -> valid_refs s (dependencyNodes_ F) -> condLik_ F = None ->
  is_Some (cache_find (owned name s F) (NumericConstant.construct TString (VString name))).
Proof.
  intros Hwf Hv Hc. pose proof (wf_alloc_fresh _ _ Hwf Hv Hc) as Hwf1.
  destruct (name_cached_with_name name _ Hwf1) as [c Hf].
  exists c. unfold owned. rewrite cache_find_update_key by done.
  apply cache_find_push_hit. rewrite cache_find_alloc by by apply wf_with_name. done.
Qed.

Lemma name_cached_built name s F :
  buildable s F ->
  is_Some (cache_find (built name s F).2 (NumericConstant.construct TString (VString name))).
Proof.
  intros (Hwf & Hv & Hc & _).
  destruct (name_cached_owned name s F Hwf Hv Hc) as [c Hf].
  unfold built. destruct (cache_find s F); simpl; [by eexists|].
  exists c. by apply cache_find_push_hit.
Qed.

(** With the name constant in the cache, the conditional-likelihood node is
    the one entry a construction adds. *)
Lemma cache_owned_named name s F :
  buildable s F ->
  is_Some (cache_find s (NumericConstant.construct TString (VString name))) ->
  nodeCache_ (owned name s F) = nodeCache_ s ++ [owned_ref s].
Proof.
  intros (Hwf & Hv & Hc & _) [c Hf]. unfold owned, with_name. simpl.
  rewrite cache_find_alloc by done. by rewrite Hf.
Qed.

End OwnCondLik.

(** ** [ForwardHmmLikelihood_DF::create] on evaluated inputs *)

Section ForwardRun.
Context {R : Type} `{EqDecision R, Inhabited R} {Cmp : Compute R}.
Implicit Types (s : Store R) (deps : list NodeRef) (dim : MatrixDimension)
  (e t m : NodeId) (ve vt vm : Value R).

(** The second half of [build]: the five extent checks. *)
Definition dimension_checks (this : Node R) : M R unit :=
  let dim := targetDimension_ this in
  hmmEq <- dependencyTargetValue TVectorXd this 0 ;;
  throw_unless (bool_decide (value_rows hmmEq = rows dim))
    (BadSizeException "ForwardHmmLikelihood_DF: bad dimension for starting vector"
       (value_rows hmmEq) (rows dim)) ;;
  hmmTrans <- dependencyTargetValue TMatrixXd this 1 ;;
  throw_unless (bool_decide (value_rows hmmTrans = rows dim))
    (BadSizeException "ForwardHmmLikelihood_DF: bad number of rows for transition matrix"
       (value_rows hmmTrans) (rows dim)) ;;
  throw_unless (bool_decide (value_cols hmmTrans = rows dim))
    (BadSizeException "ForwardHmmLikelihood_DF: bad number of columns for transition matrix"
       (value_cols hmmTrans) (rows dim)) ;;
  hmmEmis <- dependencyTargetValue TMatrixXd this 2 ;;
  throw_unless (bool_decide (value_rows hmmEmis = rows dim))
    (BadSizeException "ForwardHmmLikelihood_DF: bad number of states for emission matrix"
       (value_rows hmmEmis) (rows dim)) ;;
  throw_unless (bool_decide (value_cols hmmEmis = cols dim))
    (BadSizeException "ForwardHmmLikelihood_DF: bad number of sites for emission matrix"
       (value_cols hmmEmis) (cols dim)).

(** The first extent that is wrong, in the order [build] looks at them. *)
Definition dimension_error dim ve vt vm : option Error :=
  if negb (bool_decide (value_rows ve = rows dim)) then
    Some (BadSizeException "ForwardHmmLikelihood_DF: bad dimension for starting vector"
            (value_rows ve) (rows dim))
  else if negb (bool_decide (value_rows vt = rows dim)) then
    Some (BadSizeException "ForwardHmmLikelihood_DF: bad number of rows for transition matrix"
            (value_rows vt) (rows dim))
  else if negb (bool_decide (value_cols vt = rows dim)) then
    Some (BadSizeException "ForwardHmmLikelihood_DF: bad number of columns for transition matrix"
            (value_cols vt) (rows dim))
  else if negb (bool_decide (value_rows vm = rows dim)) then
    Some (BadSizeException "ForwardHmmLikelihood_DF: bad number of states for emission matrix"
            (value_rows vm) (rows dim))
  else if negb (bool_decide (value_cols vm = cols dim)) then
    Some (BadSizeException "ForwardHmmLikelihood_DF: bad number of sites for emission matrix"
            (value_cols vm) (cols dim))
  else None.

Lemma Forward_build_split self s :
  ForwardHmmLikelihood_DF.build self s =
  (this <- own_condLik "forwardCondLik" self ;; dimension_checks this) s.
Proof.
  unfold ForwardHmmLikelihood_DF.build, own_condLik, bind.
  destruct (NumericConstant.create _ _ s) as [[fname|?] s1]; [|done].
  destruct (dereference self s1) as [[this|?] s2]; [|done].
  destruct (CondLikelihood.create _ _ s2) as [[condLik|?] s3]; [|done].
  by destruct (update_node _ _ s3) as [[[]|?] s4].
Qed.

Lemma dimension_checks_run this e t m ve vt vm s :
  dependencyNodes_ this = [Some e; Some t; Some m] ->
  holds s e TVectorXd ve -> holds s t TMatrixXd vt -> holds s m TMatrixXd vm ->
  dimension_checks this s =
    (match dimension_error (targetDimension_ this) ve vt vm with
     | Some err => Err err
     | None => Ok tt
     end, s).
Proof.
  intros Hd He Ht Hm. unfold dimension_checks, dimension_error, bind, throw_unless.
  rewrite (dependencyTargetValue_holds _ _ 0 e ve) by (done || by rewrite Hd).
  case_bool_decide; simpl; [|done].
  rewrite (dependencyTargetValue_holds _ _ 1 t vt) by (done || by rewrite Hd).
  do 2 (case_bool_decide; simpl; [|done]).
  rewrite (dependencyTargetValue_holds _ _ 2 m vm) by (done || by rewrite Hd).
  by do 2 (case_bool_decide; simpl; [|done]).
Qed.

(** The three dependencies of a forward node, evaluated. *)
Definition hmm_holds s e t m ve vt vm : Prop :=
  holds s e TVectorXd ve /\ holds s t TMatrixXd vt /\ holds s m TMatrixXd vm.

Lemma hmm_holds_conforms s e t m ve vt vm :
  hmm_holds s e t m ve vt vm ->
  Forall2 (conforms s) ForwardHmmLikelihood_DF.signature [Some e; Some t; Some m].
Proof. intros (He & Ht & Hm). repeat constructor; by eapply holds_conforms. Qed.

Lemma hmm_holds_valid s e t m ve vt vm :
  hmm_holds s e t m ve vt vm -> valid_refs s [Some e; Some t; Some m].
Proof.
  intros (He & Ht & Hm) d Hd. apply holds_valid in He, Ht, Hm.
  repeat (apply elem_of_cons in Hd as [[= ->]|Hd]; [done|]).
  by apply elem_of_nil in Hd.
Qed.

Lemma hmm_holds_owned name s F e t m ve vt vm :
  hmm_holds s e t m ve vt vm -> hmm_holds (owned name s F) e t m ve vt vm.
Proof.
  intros (He & Ht & Hm).
  split_and!; (eapply holds_lookup; [|done]); apply owned_lookup_old;
    by eapply holds_valid.
Qed.

(** What [create] does from a store in which the three dependencies are
    evaluated: the node and its conditional-likelihood node are built
    first, then the extents are checked, then the cache is asked. *)
Lemma Forward_create_run e t m dim s ve vt vm :
  wf_store s -> hmm_holds s e t m ve vt vm ->
  let F := ForwardHmmLikelihood_DF.construct [Some e; Some t; Some m] dim in
  let s' := owned "forwardCondLik" s F in
  ForwardHmmLikelihood_DF.create [Some e; Some t; Some m] dim s =
    match dimension_error dim ve vt vm with
    | Some err => (Err err, s')
    | None => built "forwardCondLik" s F
    end.
Proof.
  intros Hwf Hh F s'. pose proof (hmm_holds_valid _ _ _ _ _ _ _ Hh) as Hv.
  rewrite Forward_create_unfold, checked_conforms by by eapply hmm_holds_conforms.
  unfold bind at 1. rewrite make_shared_run.
  unfold bind at 1. rewrite Forward_build_split.
  unfold bind at 1. change (own_condLik ?n _ _) with (own_condLik n (owner s) (alloc s F)).
  rewrite (own_condLik_run _ _ F) by done. fold s'.
  destruct (hmm_holds_owned "forwardCondLik" s F _ _ _ _ _ _ Hh) as (He & Ht & Hm).
  rewrite (dimension_checks_run F e t m ve vt vm) by done.
  simpl. destruct (dimension_error dim ve vt vm); [done|].
  by apply cached_owner_run.
Qed.

End ForwardRun.

(** ** What [ForwardHmmLikelihood_DF::create] promises *)

Section ForwardProperties.
Context {R : Type} `{EqDecision R, Inhabited R} {Cmp : Compute R}.
Implicit Types (s : Store R) (dim : MatrixDimension)
  (e t m : NodeId) (ve vt vm : Value R).

#[local] Abbreviation forward_create e t m dim :=
  (ForwardHmmLikelihood_DF.create [Some e; Some t; Some m] dim).
#[local] Abbreviation forward_node e t m dim :=
  (ForwardHmmLikelihood_DF.construct (R:=R) [Some e; Some t; Some m] dim).

Lemma dimension_error_None dim ve vt vm :
  dimension_error dim ve vt vm = None <->
  value_rows ve = rows dim /\ value_rows vt = rows dim /\ value_cols vt = rows dim
  /\ value_rows vm = rows dim /\ value_cols vm = cols dim.
Proof. unfold dimension_error. repeat case_bool_decide; simpl; intuition discriminate. Qed.

Lemma forward_buildable e t m dim s ve vt vm :
  wf_store s -> hmm_holds s e t m ve vt vm -> buildable s (forward_node e t m dim).
Proof. intros Hwf Hh. split_and!; [done|by eapply hmm_holds_valid|done..]. Qed.

(** C2. The dimension contract of the forward node: on evaluated inputs,
    [create] succeeds exactly when the starting vector has as many rows as
    the target dimension, the transition matrix is square of that size, and
    the emission matrix has the target dimension. *)
Theorem forward_create_checks_extents e t m dim s ve vt vm :
  wf_store s -> hmm_holds s e t m ve vt vm ->
  is_ok (outcome (forward_create e t m dim) s) = true <->
  value_rows ve = rows dim /\ value_rows vt = rows dim /\ value_cols vt = rows dim
  /\ value_rows vm = rows dim /\ value_cols vm = cols dim.
Proof.
  intros Hwf Hh. rewrite <- dimension_error_None. unfold outcome.
  rewrite (Forward_create_run _ _ _ _ _ _ _ _ Hwf Hh).
  destruct (dimension_error dim ve vt vm); simpl; [done|].
  by destruct (built_created "forwardCondLik" s (forward_node e t m dim)) as (c & -> & _).
Qed.

(** C31. A wrong extent is reported by a [BadSizeException] that carries
    the message of the first failing check of [build], the extent found and
    the extent expected. *)
Theorem forward_create_bad_size e t m dim s ve vt vm err :
  wf_store s -> hmm_holds s e t m ve vt vm ->
  dimension_error dim ve vt vm = Some err ->
  outcome (forward_create e t m dim) s = Err err.
Proof.
  intros Hwf Hh Hd. unfold outcome.
  by rewrite (Forward_create_run _ _ _ _ _ _ _ _ Hwf Hh), Hd.
Qed.

(** C34. A [create] that fails on a wrong extent has already built and
    cached the conditional-likelihood node of the node it gives up: the
    cache holds a [CondLikelihood] it did not hold before, whose first
    dependency is the abandoned forward node. *)
Theorem forward_create_failure_leaves_nodes e t m dim s ve vt vm err :
  wf_store s -> hmm_holds s e t m ve vt vm ->
  dimension_error dim ve vt vm = Some err ->
  let s' := final (forward_create e t m dim) s in
  (owned_ref s ∉ nodeCache_ s) /\ (owned_ref s ∈ nodeCache_ s')
  /\ exists cl, heap s' !! owned_ref s = Some cl
       /\ node_type cl = T_CondLikelihood
       /\ dependencyNodes_ cl !! 0 = Some (Some (owner s))
       /\ heap s' !! owner s
          = Some (set_condLik (Some (owned_ref s)) (forward_node e t m dim)).
Proof.
  intros Hwf Hh Hd. unfold final.
  rewrite (Forward_create_run _ _ _ _ _ _ _ _ Hwf Hh), Hd. cbn [snd].
  split_and!; [by apply owned_ref_new|apply owned_ref_cached|].
  eexists. split_and!; [apply owned_lookup_ref|done..|apply owned_lookup_owner].
Qed.

Lemma hmm_holds_built name s F e t m ve vt vm :
  hmm_holds s e t m ve vt vm -> hmm_holds (built name s F).2 e t m ve vt vm.
Proof.
  intros (He & Ht & Hm).
  split_and!; (eapply holds_lookup; [|done]); apply built_lookup_old;
    by eapply holds_valid.
Qed.

(** The second of two identical requests: the node of the first one is
    found, after a second node and its conditional-likelihood node have
    been built. *)
Lemma Forward_create_again e t m dim s ve vt vm c :
  wf_store s -> hmm_holds s e t m ve vt vm ->
  let F := forward_node e t m dim in
  (built "forwardCondLik" s F).1 = Ok c ->
  dimension_error dim ve vt vm = None ->
  forward_create e t m dim (built "forwardCondLik" s F).2
  = (Ok c, owned "forwardCondLik" (built "forwardCondLik" s F).2 F).
Proof.
  intros Hwf Hh F Hc Hd. subst F.
  pose proof (forward_buildable _ _ _ dim _ _ _ _ Hwf Hh) as Hb.
  rewrite (Forward_create_run e t m dim _ ve vt vm), Hd;
    [|by apply wf_built|by apply hmm_holds_built].
  unfold built at 1. by rewrite (built_again _ _ _ _ Hb Hc).
Qed.

(** C14. Structural sharing: two identical requests for a forward node give
    the same node. *)
Theorem forward_create_shares e t m dim s ve vt vm :
  wf_store s -> hmm_holds s e t m ve vt vm ->
  dimension_error dim ve vt vm = None ->
  let mk := forward_create e t m dim in
  exists c, outcome mk s = Ok c /\ outcome mk (final mk s) = Ok c.
Proof.
  intros Hwf Hh Hd mk. unfold outcome, final, mk.
  rewrite (Forward_create_run _ _ _ _ _ _ _ _ Hwf Hh), Hd.
  destruct (built_created "forwardCondLik" s (forward_node e t m dim)) as (c & Hc & _).
  exists c. split; [done|].
  by rewrite (Forward_create_again _ _ _ _ _ _ _ _ c Hwf Hh).
Qed.

(** C19. The second of two identical requests returns the cached node but
    leaves the cache one entry longer and the heap three objects larger:
    [build] runs before the cache is asked, so a second forward node, its
    name constant and its conditional-likelihood node are constructed, and
    the conditional-likelihood node is cached. *)
Theorem forward_create_again_grows_cache e t m dim s ve vt vm :
  wf_store s -> hmm_holds s e t m ve vt vm ->
  dimension_error dim ve vt vm = None ->
  let mk := forward_create e t m dim in
  let s1 := final mk s in
  let s2 := final mk s1 in
  nodeCache_ s2 = nodeCache_ s1 ++ [owned_ref s1]
  /\ length (heap s2) = length (heap s1) + 3
  /\ exists cl, heap s2 !! owned_ref s1 = Some cl /\ node_type cl = T_CondLikelihood.
Proof.
  intros Hwf Hh Hd mk. unfold final, mk.
  rewrite (Forward_create_run _ _ _ _ _ _ _ _ Hwf Hh), Hd.
  pose proof (forward_buildable _ _ _ dim _ _ _ _ Hwf Hh) as Hb.
  destruct (built_created "forwardCondLik" s (forward_node e t m dim)) as (c & Hc & _).
  rewrite (Forward_create_again _ _ _ _ _ _ _ _ c Hwf Hh) by done. cbn [snd].
  split_and!; [|apply length_owned|eexists; split; [apply owned_lookup_ref|done]].
  apply cache_owned_named; [|by apply name_cached_built].
  apply forward_buildable with ve vt vm; [by apply wf_built|by apply hmm_holds_built].
Qed.

(** C32. [recreate] after [create]: asked to recreate the node a [create]
    has just made, over the dependencies it was made over, [recreate]
    returns that node; the target dimension it hands to [create] is the
    one the node has kept. *)
Theorem forward_recreate_returns_node e t m dim s ve vt vm :
  wf_store s -> hmm_holds s e t m ve vt vm ->
  dimension_error dim ve vt vm = None ->
  cache_find s (forward_node e t m dim) = None ->
  let mk := forward_create e t m dim in
  exists c, outcome mk s = Ok c
    /\ outcome (ForwardHmmLikelihood_DF.recreate c [Some e; Some t; Some m]) (final mk s)
       = Ok c.
Proof.
  intros Hwf Hh Hd Hmiss mk. unfold outcome, final, mk.
  rewrite (Forward_create_run _ _ _ _ _ _ _ _ Hwf Hh), Hd.
  pose proof (Forward_create_again e t m dim s ve vt vm (owner s) Hwf Hh) as Hagain.
  unfold built in *. rewrite Hmiss in *. cbn [fst snd] in *.
  exists (owner s). split; [done|]. unfold ForwardHmmLikelihood_DF.recreate, bind.
  rewrite (dereference_Some (owner s)
             (set_condLik (Some (owned_ref s)) (forward_node e t m dim)))
    by apply owned_lookup_owner.
  change (targetDimension_ (set_condLik _ (forward_node e t m dim))) with dim.
  by rewrite Hagain.
Qed.

End ForwardProperties.

(** *** The forward node over the example inputs *)

Section ForwardWitnesses.
Import Examples.

#[local] Abbreviation example_create dim :=
  (ForwardHmmLikelihood_DF.create (Cmp := compute_nothing) [Some 0; Some 1; Some 2] dim).

Lemma forward_create_checks_extents_witness :
  is_ok (outcome (example_create (mkDim 2 3)) hmm_store) = true <->
  value_rows hmmEq = 2 /\ value_rows hmmTrans = 2 /\ value_cols hmmTrans = 2
  /\ value_rows hmmEmis = 2 /\ value_cols hmmEmis = 3.
Proof.
  exact (forward_create_checks_extents (Cmp := compute_nothing) 0 1 2 (mkDim 2 3)
           hmm_store hmmEq hmmTrans hmmEmis wf_hmm_store holds_hmm_store).
Defined.

Lemma forward_create_bad_size_witness :
  outcome (example_create (mkDim 2 4)) hmm_store
  = Err (BadSizeException
           "ForwardHmmLikelihood_DF: bad number of sites for emission matrix" 3 4).
Proof.
  apply (forward_create_bad_size (Cmp := compute_nothing) 0 1 2 (mkDim 2 4)
           hmm_store hmmEq hmmTrans hmmEmis _ wf_hmm_store holds_hmm_store).
  reflexivity.
Defined.

Lemma forward_create_failure_leaves_nodes_witness :
  let s' := final (example_create (mkDim 3 3)) hmm_store in
  (5 ∉ nodeCache_ hmm_store) /\ (5 ∈ nodeCache_ s')
  /\ exists cl, heap s' !! 5 = Some cl
       /\ node_type cl = T_CondLikelihood
       /\ dependencyNodes_ cl !! 0 = Some (Some 3)
       /\ heap s' !! 3
          = Some (set_condLik (Some 5)
                    (ForwardHmmLikelihood_DF.construct [Some 0; Some 1; Some 2] (mkDim 3 3))).
Proof.
  apply (forward_create_failure_leaves_nodes (Cmp := compute_nothing) 0 1 2 (mkDim 3 3)
           hmm_store hmmEq hmmTrans hmmEmis
           (BadSizeException
              "ForwardHmmLikelihood_DF: bad dimension for starting vector" 2 3)
           wf_hmm_store holds_hmm_store).
  reflexivity.
Defined.

Lemma forward_create_shares_witness :
  let mk := example_create (mkDim 2 3) in
  exists c, outcome mk hmm_store = Ok c /\ outcome mk (final mk hmm_store) = Ok c.
Proof.
  apply (forward_create_shares (Cmp := compute_nothing) 0 1 2 (mkDim 2 3)
           hmm_store hmmEq hmmTrans hmmEmis wf_hmm_store holds_hmm_store).
  reflexivity.
Defined.

Lemma forward_create_again_grows_cache_witness :
  let mk := example_create (mkDim 2 3) in
  let s1 := final mk hmm_store in
  let s2 := final mk s1 in
  nodeCache_ s2 = nodeCache_ s1 ++ [8]
  /\ length (heap s2) = length (heap s1) + 3
  /\ exists cl, heap s2 !! 8 = Some cl /\ node_type cl = T_CondLikelihood.
Proof.
  apply (forward_create_again_grows_cache (Cmp := compute_nothing) 0 1 2 (mkDim 2 3)
           hmm_store hmmEq hmmTrans hmmEmis wf_hmm_store holds_hmm_store).
  reflexivity.
Defined.

Lemma forward_recreate_returns_node_witness :
  exists c, outcome (example_create (mkDim 2 3)) hmm_store = Ok c
    /\ outcome (ForwardHmmLikelihood_DF.recreate (Cmp := compute_nothing) c
                  [Some 0; Some 1; Some 2])
         (final (example_create (mkDim 2 3)) hmm_store) = Ok c.
Proof.
  apply (forward_recreate_returns_node (Cmp := compute_nothing) 0 1 2 (mkDim 2 3)
           hmm_store hmmEq hmmTrans hmmEmis wf_hmm_store holds_hmm_store);
    reflexivity.
Defined.

End ForwardWitnesses.

(** ** The derivative classes: [build] without checks *)

Section DerivativeRuns.
Context {R : Type} `{EqDecision R, Inhabited R}.
Implicit Types (s : Store R) (deps : list NodeRef) (dim : MatrixDimension)
  (F : Node R) (name : string).

Lemma built_sound name s F :
  buildable s F -> sound s (node_type F) (dependencyNodes_ F) (built name s F).
Proof.
  intros Hb. destruct (built_created name s F) as (c & Hc & Hcr).
  split_and!; [by apply wf_built|apply extends_built|by rewrite Hc].
Qed.

(** A node whose [build] only gives it its conditional-likelihood node. *)
Lemma built_run name T F (build : NodeId -> M R unit) s :
  buildable s F -> valueTypeOf (node_type F) = T ->
  (forall s1, build (owner s) s1 = (own_condLik name (owner s) ;; ret tt) s1) ->
  (sself <- make_shared F ;; build sself ;; cachedAs T sself) s = built name s F.
Proof.
  intros Hb HT Hbuild. pose proof Hb as (Hwf & Hv & Hc & _).
  unfold bind at 1. rewrite make_shared_run.
  unfold bind at 1. change (build _ _) with (build (owner s) (alloc s F)).
  rewrite Hbuild. unfold bind at 1. rewrite (own_condLik_run _ _ F) by done.
  by apply cached_owner_run.
Qed.

Lemma own_condLik_unit name self s :
  (fname <- NumericConstant.create TString (VString name) ;;
   this <- dereference self ;;
   condLik <- CondLikelihood.create [Some self; Some fname] (targetDimension_ this) ;;
   update_node self (set_condLik (Some condLik))) s
  = (own_condLik name self ;; ret tt) s.
Proof.
  unfold own_condLik, bind.
  destruct (NumericConstant.create _ _ s) as [[fname|?] s1]; [|done].
  destruct (dereference self s1) as [[this|?] s2]; [|done].
  destruct (CondLikelihood.create _ _ s2) as [[condLik|?] s3]; [|done].
  by destruct (update_node _ _ s3) as [[[]|?] s4].
Qed.

Lemma ForwardD_create_run deps dim s :
  wf_store s -> Forall2 (conforms s) ForwardHmmDLikelihood_DF.signature deps ->
  ForwardHmmDLikelihood_DF.create deps dim s
  = built "forwardDcondLik" s (ForwardHmmDLikelihood_DF.construct deps dim).
Proof.
  intros Hwf Hc. rewrite ForwardD_create_unfold, checked_conforms by done.
  apply built_run; [|done|apply own_condLik_unit].
  split_and!; [done| |done..]. eapply conforms_valid_refs; [|done].
  by repeat constructor.
Qed.

Lemma ForwardD2_create_run deps dim s :
  wf_store s -> Forall2 (conforms s) ForwardHmmD2Likelihood_DF.signature deps ->
  ForwardHmmD2Likelihood_DF.create deps dim s
  = built "forwardD2condLik" s (ForwardHmmD2Likelihood_DF.construct deps dim).
Proof.
  intros Hwf Hc. rewrite ForwardD2_create_unfold, checked_conforms by done.
  apply built_run; [|done|apply own_condLik_unit].
  split_and!; [done| |done..]. eapply conforms_valid_refs; [|done].
  by repeat constructor.
Qed.

End DerivativeRuns.

(** ** [BackwardHmmLikelihood_DF::create]: the constructor's checks *)

Section BackwardRun.
Context {R : Type} `{EqDecision R, Inhabited R}.
Implicit Types (s : Store R) (deps : list NodeRef) (dim : MatrixDimension)
  (a t m : NodeId) (va vt vm : Value R).

(** The node the constructor initialises. *)
Definition backward_node deps dim : Node R :=
  mkNode T_BackwardHmmLikelihood_DF deps false
         (VEigen (resize (rows dim) (cols dim))) dim None empty_matrix.

(** The first extent the constructor finds wrong, with the two numbers it
    reports. *)
Definition backward_dimension_error dim va vt vm : option Error :=
  if negb (bool_decide (value_cols va = cols dim)) then
    Some (BadSizeException
            "BackwardHmmLikelihood_DF: bad dimension for forward likelihoods vector"
            (value_rows va) (rows dim))
  else if negb (bool_decide (value_rows vt = rows dim)) then
    Some (BadSizeException "BackwardHmmLikelihood_DF: bad number of rows for transition matrix"
            (value_rows vt) (rows dim))
  else if negb (bool_decide (value_cols vt = rows dim)) then
    Some (BadSizeException "BackwardHmmLikelihood_DF: bad number of columns for transition matrix"
            (value_cols vt) (rows dim))
  else if negb (bool_decide (value_rows vm = rows dim)) then
    Some (BadSizeException "BackwardHmmLikelihood_DF: bad number of states for emission matrix"
            (value_rows vm) (rows dim))
  else if negb (bool_decide (value_cols vm = cols dim)) then
    Some (BadSizeException "BackwardHmmLikelihood_DF: bad number of sites for emission matrix"
            (value_cols vm) (cols dim))
  else None.

(** The three dependencies of a backward node, with the values they store
    (evaluated or not: the constructor does not evaluate). *)
Definition backward_stored s a t m va vt vm : Prop :=
  stored s a TRowVectorXd va /\ stored s t TMatrixXd vt /\ stored s m TMatrixXd vm.

Lemma dependencyValueConstCast_stored T this i d v s :
  dependencyNodes_ this !! i = Some (Some d) -> stored s d T v ->
  dependencyValueConstCast T this i s = (Ok v, s).
Proof. intros Hd (n & Hn & Ht & <-). by eapply dependencyValueConstCast_run. Qed.

Lemma Backward_construct_run a t m dim s va vt vm :
  backward_stored s a t m va vt vm ->
  BackwardHmmLikelihood_DF.construct [Some a; Some t; Some m] dim s =
    (match backward_dimension_error dim va vt vm with
     | Some err => Err err
     | None => Ok (backward_node [Some a; Some t; Some m] dim)
     end, s).
Proof.
  intros (Ha & Ht & Hm).
  unfold BackwardHmmLikelihood_DF.construct, backward_dimension_error, bind, throw_unless.
  rewrite (dependencyValueConstCast_stored _ _ 0 a va) by done.
  case_bool_decide; simpl; [|done].
  rewrite (dependencyValueConstCast_stored _ _ 1 t vt) by done.
  do 2 (case_bool_decide; simpl; [|done]).
  rewrite (dependencyValueConstCast_stored _ _ 2 m vm) by done.
  by do 2 (case_bool_decide; simpl; [|done]).
Qed.

(** The constructor changes nothing in the store, and the object it
    makes does not depend on what it reads. *)
Lemma readonly_Backward_construct deps dim :
  readonly (BackwardHmmLikelihood_DF.construct (R:=R) deps dim).
Proof.
  unfold BackwardHmmLikelihood_DF.construct. cbv zeta. solve_readonly.
Qed.

Lemma Backward_construct_node deps dim s this :
  outcome (BackwardHmmLikelihood_DF.construct deps dim) s = Ok this ->
  this = backward_node deps dim.
Proof.
  unfold outcome, BackwardHmmLikelihood_DF.construct, bind, throw_unless.
  repeat (rewrite (readonly_run (dependencyValueConstCast _ _ _))
            by apply readonly_dependencyValueConstCast;
          destruct (outcome (dependencyValueConstCast _ _ _) s); simpl; [|done];
          repeat (case_bool_decide; simpl; [|done])).
  by intros [= <-].
Qed.

Lemma backward_stored_conforms s a t m va vt vm :
  backward_stored s a t m va vt vm ->
  Forall2 (conforms s) BackwardHmmLikelihood_DF.signature [Some a; Some t; Some m].
Proof. intros (Ha & Ht & Hm). repeat constructor; by eapply stored_conforms. Qed.

Lemma Backward_create_run a t m dim s va vt vm :
  backward_stored s a t m va vt vm ->
  BackwardHmmLikelihood_DF.create [Some a; Some t; Some m] dim s =
    match backward_dimension_error dim va vt vm with
    | Some err => (Err err, s)
    | None =>
        (self <- make_shared (backward_node [Some a; Some t; Some m] dim) ;;
         cachedAs TMatrixXd self) s
    end.
Proof.
  intros Hs. rewrite Backward_create_unfold, checked_conforms
    by by eapply backward_stored_conforms.
  unfold bind at 1. rewrite (Backward_construct_run _ _ _ _ _ _ _ _ Hs).
  by destruct (backward_dimension_error dim va vt vm).
Qed.

End BackwardRun.

(** ** Every [create] keeps the store well formed *)

(** ** Invariants that every [create] keeps

    An invariant of the store that is kept by the allocation of the nodes
    the classes construct, by the cache, by the write of [condLik_] and by
    evaluation is kept by each [create] of the five classes, on every
    branch: the proof follows the text of [create] and [build]. *)

Section Compositional.
Context {R : Type} `{EqDecision R, Inhabited R} {Cmp : Compute R}.
Context (I : Store R -> Prop) (P : Node R -> Prop).
Context (I_make_shared : forall n, P n -> preserves I (make_shared n)).
Context (I_cachedAs : forall T id, preserves I (cachedAs T id)).
Context (I_set_condLik : forall self c, preserves I (update_node self (set_condLik c))).
Context (I_evaluate : forall id, preserves I (getTargetValue id)).
Context (P_name : forall name, P (NumericConstant.construct TString (VString name))).
Context (P_CondLikelihood : forall deps dim, P (CondLikelihood.construct deps dim)).
Context (P_Forward : forall deps dim, P (ForwardHmmLikelihood_DF.construct deps dim)).
Context (P_ForwardD : forall deps dim, P (ForwardHmmDLikelihood_DF.construct deps dim)).
Context (P_ForwardD2 : forall deps dim, P (ForwardHmmD2Likelihood_DF.construct deps dim)).
Context (P_Backward : forall deps dim, P (backward_node deps dim)).
Implicit Types (s : Store R) (deps : list NodeRef) (dim : MatrixDimension)
  (self : NodeId) (name : string).

Lemma preserves_dependencyTargetValue T (this : Node R) i :
  preserves I (dependencyTargetValue T this i).
Proof.
  unfold dependencyTargetValue. apply preserves_bind; [|intros d; apply I_evaluate].
  apply readonly_preserves, readonly_dependencyAs.
Qed.

Lemma preserves_CondLikelihood_create deps dim :
  preserves I (CondLikelihood.create deps dim).
Proof.
  rewrite CondLikelihood_create_unfold. apply preserves_checked.
  apply preserves_bind; [by apply I_make_shared|]. intros self. apply I_cachedAs.
Qed.

(** What the three forward classes do first in [build]. *)
Lemma preserves_own name self (k : Node R -> NodeId -> M R unit) :
  (forall this condLik, preserves I (k this condLik)) ->
  preserves I
    (fname <- NumericConstant.create TString (VString name) ;;
     this <- dereference self ;;
     condLik <- CondLikelihood.create [Some self; Some fname] (targetDimension_ this) ;;
     update_node self (set_condLik (Some condLik)) ;;
     k this condLik).
Proof.
  intros Hk. apply preserves_bind.
  { apply preserves_bind; [by apply I_make_shared|]. intros c. apply I_cachedAs. }
  intros fname. apply preserves_bind; [apply readonly_preserves, readonly_dereference|].
  intros this. apply preserves_bind; [apply preserves_CondLikelihood_create|].
  intros condLik. apply preserves_bind; [apply I_set_condLik|]. intros _. apply Hk.
Qed.

Lemma preserves_Forward_build self : preserves I (ForwardHmmLikelihood_DF.build self).
Proof.
  apply (preserves_own "forwardCondLik" self (fun this _ => _)). intros this _.
  repeat (apply preserves_bind;
          [first [apply preserves_dependencyTargetValue|apply preserves_throw_unless]
          |intros ?]).
  apply preserves_throw_unless.
Qed.

Lemma preserves_built (construct : Node R) (build : NodeId -> M R unit) :
  P construct -> (forall self, preserves I (build self)) ->
  preserves I (sself <- make_shared construct ;; build sself ;; cachedAs TRowVectorXd sself).
Proof.
  intros Hn Hb. apply preserves_bind; [by apply I_make_shared|].
  intros sself. apply preserves_bind; [apply Hb|]. intros _. apply I_cachedAs.
Qed.

Lemma preserves_Backward_create deps dim :
  preserves I (BackwardHmmLikelihood_DF.create deps dim).
Proof.
  rewrite Backward_create_unfold. apply preserves_checked. intros s Hs.
  unfold final, bind.
  rewrite (readonly_run _ s (readonly_Backward_construct deps dim)).
  destruct (outcome (BackwardHmmLikelihood_DF.construct deps dim) s) as [this|err] eqn:Hc;
    [|done].
  rewrite (Backward_construct_node _ _ _ _ Hc).
  apply (preserves_bind I (make_shared _) (fun self => cachedAs TMatrixXd self));
    [by apply I_make_shared|intros; apply I_cachedAs|done].
Qed.

Lemma preserves_hmm_create t sig create deps dim :
  (t, sig, create) ∈ hmm_classes -> preserves I (create deps dim).
Proof.
  unfold hmm_classes. rewrite !elem_of_cons, elem_of_nil.
  intros [[= -> -> ->]|[[= -> -> ->]|[[= -> -> ->]|[[= -> -> ->]|[[= -> -> ->]|[]]]]]].
  - apply preserves_CondLikelihood_create.
  - rewrite Forward_create_unfold.
    apply preserves_checked, preserves_built; [done|apply preserves_Forward_build].
  - rewrite ForwardD_create_unfold. apply preserves_checked, preserves_built; [done|].
    intros self. apply (preserves_own "forwardDcondLik" self (fun _ _ => ret tt)).
    intros; apply preserves_ret.
  - rewrite ForwardD2_create_unfold. apply preserves_checked, preserves_built; [done|].
    intros self. apply (preserves_own "forwardD2condLik" self (fun _ _ => ret tt)).
    intros; apply preserves_ret.
  - apply preserves_Backward_create.
Qed.

End Compositional.

Section Soundness.
Context {R : Type} `{EqDecision R, Inhabited R} {Cmp : Compute R} `{!ComputeLaws R}.
Implicit Types (s : Store R) (deps : list NodeRef) (dim : MatrixDimension).

Lemma dimension_checks_safe (F : Node R) s0 :
  Forall2 (conforms s0) ForwardHmmLikelihood_DF.signature (dependencyNodes_ F) ->
  safe thrown (frame s0) (dimension_checks F).
Proof.
  intros Hc. unfold ForwardHmmLikelihood_DF.signature in Hc.
  apply Forall2_cons_inv_l in Hc as (d0 & l0 & (e & -> & n0 & Hn0 & Ht0) & Hc & Hd).
  apply Forall2_cons_inv_l in Hc as (d1 & l1 & (t & -> & n1 & Hn1 & Ht1) & Hc & ->).
  apply Forall2_cons_inv_l in Hc as (d2 & l2 & (m & -> & n2 & Hn2 & Ht2) & Hc & ->).
  apply Forall2_nil_inv_l in Hc as ->.
  unfold dimension_checks.
  apply safe_bind; [eapply safe_dependencyTargetValue; [by rewrite Hd|done..]|intros ?].
  apply safe_bind; [by apply safe_throw_unless|intros _].
  apply safe_bind; [eapply safe_dependencyTargetValue; [by rewrite Hd|done..]|intros ?].
  do 2 (apply safe_bind; [by apply safe_throw_unless|intros _]).
  apply safe_bind; [eapply safe_dependencyTargetValue; [by rewrite Hd|done..]|intros ?].
  apply safe_bind; [by apply safe_throw_unless|intros _].
  by apply safe_throw_unless.
Qed.

Lemma CondLikelihood_create_sound deps dim s :
  wf_store s -> valid_refs s deps ->
  sound s T_CondLikelihood deps (CondLikelihood.create deps dim s).
Proof.
  intros Hwf Hv. rewrite CondLikelihood_create_unfold, checked_run.
  destruct (signature_error _ _ deps s) eqn:Hsig.
  - apply sound_thrown; eauto using signature_error_thrown.
  - by apply (alloc_cachedAs_sound TMatrixXd (CondLikelihood.construct deps dim)).
Qed.

Lemma ForwardD_create_sound deps dim s :
  wf_store s -> valid_refs s deps ->
  sound s T_ForwardHmmDLikelihood_DF deps (ForwardHmmDLikelihood_DF.create deps dim s).
Proof.
  intros Hwf Hv. destruct (signature_error T_ForwardHmmDLikelihood_DF
    ForwardHmmDLikelihood_DF.signature deps s) eqn:Hsig.
  - rewrite ForwardD_create_unfold, checked_run, Hsig.
    apply sound_thrown; eauto using signature_error_thrown.
  - apply signature_error_None in Hsig. rewrite ForwardD_create_run by done.
    by apply (built_sound _ _ (ForwardHmmDLikelihood_DF.construct deps dim)).
Qed.

Lemma ForwardD2_create_sound deps dim s :
  wf_store s -> valid_refs s deps ->
  sound s T_ForwardHmmD2Likelihood_DF deps (ForwardHmmD2Likelihood_DF.create deps dim s).
Proof.
  intros Hwf Hv. destruct (signature_error T_ForwardHmmD2Likelihood_DF
    ForwardHmmD2Likelihood_DF.signature deps s) eqn:Hsig.
  - rewrite ForwardD2_create_unfold, checked_run, Hsig.
    apply sound_thrown; eauto using signature_error_thrown.
  - apply signature_error_None in Hsig. rewrite ForwardD2_create_run by done.
    by apply (built_sound _ _ (ForwardHmmD2Likelihood_DF.construct deps dim)).
Qed.

Lemma backward_dimension_error_thrown dim (va vt vm : Value R) err :
  backward_dimension_error dim va vt vm = Some err -> thrown err.
Proof.
  unfold backward_dimension_error.
  repeat (case_bool_decide; simpl; [|by intros [= <-]]). done.
Qed.

Lemma backward_conforms_stored deps s :
  Forall2 (conforms s) BackwardHmmLikelihood_DF.signature deps ->
  exists a t m va vt vm,
    deps = [Some a; Some t; Some m] /\ backward_stored s a t m va vt vm.
Proof.
  intros Hc. unfold BackwardHmmLikelihood_DF.signature in Hc.
  apply Forall2_cons_inv_l in Hc as (d0 & l0 & (a & -> & n0 & Hn0 & Ht0) & Hc & ->).
  apply Forall2_cons_inv_l in Hc as (d1 & l1 & (t & -> & n1 & Hn1 & Ht1) & Hc & ->).
  apply Forall2_cons_inv_l in Hc as (d2 & l2 & (m & -> & n2 & Hn2 & Ht2) & Hc & ->).
  apply Forall2_nil_inv_l in Hc as ->.
  exists a, t, m, (value_ n0), (value_ n1), (value_ n2).
  split; [done|]. split_and!; eexists; by split_and!.
Qed.

Lemma Backward_create_sound deps dim s :
  wf_store s -> valid_refs s deps ->
  sound s T_BackwardHmmLikelihood_DF deps (BackwardHmmLikelihood_DF.create deps dim s).
Proof.
  intros Hwf Hv. destruct (signature_error T_BackwardHmmLikelihood_DF
    BackwardHmmLikelihood_DF.signature deps s) eqn:Hsig.
  - rewrite Backward_create_unfold, checked_run, Hsig.
    apply sound_thrown; eauto using signature_error_thrown.
  - apply signature_error_None, backward_conforms_stored in Hsig
      as (a & t & m & va & vt & vm & -> & Hs).
    rewrite (Backward_create_run _ _ _ _ _ _ _ _ Hs).
    destruct (backward_dimension_error dim va vt vm) eqn:Hd.
    + apply sound_thrown; eauto using backward_dimension_error_thrown.
    + by apply (alloc_cachedAs_sound TMatrixXd (backward_node _ dim)).
Qed.

Lemma Forward_create_sound deps dim s :
  wf_store s -> valid_refs s deps ->
  sound s T_ForwardHmmLikelihood_DF deps (ForwardHmmLikelihood_DF.create deps dim s).
Proof.
  intros Hwf Hv. rewrite Forward_create_unfold, checked_run.
  destruct (signature_error _ _ deps s) eqn:Hsig.
  { apply sound_thrown; eauto using signature_error_thrown. }
  apply signature_error_None in Hsig.
  set (F := ForwardHmmLikelihood_DF.construct deps dim).
  set (s1 := owned "forwardCondLik" s F).
  unfold bind at 1. rewrite make_shared_run.
  unfold bind at 1. rewrite Forward_build_split.
  unfold bind at 1. change (own_condLik ?n _ _) with (own_condLik n (owner s) (alloc s F)).
  rewrite (own_condLik_run _ _ F) by done. fold s1.
  assert (extends s s1) as He by apply extends_owned.
  destruct (safe_run thrown (frame s1) (dimension_checks F) s1) as [Hfr Hth].
  { apply dimension_checks_safe. eapply Forall2_impl; [|exact Hsig].
    intros e d. by apply conforms_extends. }
  { done. }
  assert (wf_store (dimension_checks F s1).2) as Hwf3
    by (eapply wf_frame; [done|by apply wf_owned]).
  destruct (dimension_checks F s1) as [[[]|err] s3]; simpl in *.
  - pose proof Hfr as (_ & _ & Hnodes).
    destruct (Hnodes _ _ (owned_lookup_owner _ _ _)) as (n' & Hn' & [Hk _] & _).
    pose proof (cachedAs_sound TRowVectorXd (owner s) n' s s3 Hwf3) as Hs.
    rewrite (node_key_type _ _ Hk), (node_key_deps _ _ Hk) in Hs.
    apply Hs; [|done..]. etrans; [exact He|by apply frame_extends].
  - split_and!; [done| |done]. etrans; [exact He|by apply frame_extends].
Qed.

Lemma hmm_create_sound t sig create deps dim s :
  (t, sig, create) ∈ hmm_classes ->
  wf_store s -> valid_refs s deps -> sound s t deps (create deps dim s).
Proof.
  unfold hmm_classes. rewrite !elem_of_cons, elem_of_nil.
  intros [[= -> -> ->]|[[= -> -> ->]|[[= -> -> ->]|[[= -> -> ->]|[[= -> -> ->]|[]]]]]];
    auto using CondLikelihood_create_sound, Forward_create_sound,
      ForwardD_create_sound, ForwardD2_create_sound, Backward_create_sound.
Qed.

(** C1. The store invariant: whatever a [create] of the five classes does
    (return a node, throw on the dependencies, throw on the extents), it
    leaves the store well formed: dependencies point to older objects, the
    cache points to objects, and no two cached nodes are equal. *)
Theorem hmm_create_wf t sig create deps dim s :
  (t, sig, create) ∈ hmm_classes ->
  wf_store s -> valid_refs s deps -> wf_store (final (create deps dim) s).
Proof. intros Hin Hwf Hv. by destruct (hmm_create_sound _ _ _ deps dim s Hin). Qed.

(** Construction only adds: every object of the store a [create]
    started from is still there, with the same class, dependencies and
    dimension, and the cache it started from is a prefix of the final one. *)
Theorem hmm_create_extends t sig create deps dim s :
  (t, sig, create) ∈ hmm_classes ->
  wf_store s -> valid_refs s deps -> extends s (final (create deps dim) s).
Proof. intros Hin Hwf Hv. by destruct (hmm_create_sound _ _ _ deps dim s Hin) as (_ & ? & _). Qed.

(** A [create] that returns, returns a cached node of its class whose
    dependencies are the ones it was given. *)
Theorem hmm_create_created t sig create deps dim s c :
  (t, sig, create) ∈ hmm_classes ->
  wf_store s -> valid_refs s deps ->
  outcome (create deps dim) s = Ok c ->
  created (final (create deps dim) s) c t deps.
Proof.
  intros Hin Hwf Hv Hc.
  destruct (hmm_create_sound _ _ _ deps dim s Hin) as (_ & _ & Hs); [done..|].
  unfold outcome in Hc. by rewrite Hc in Hs.
Qed.

(** A [create] that fails, fails with one of the library's exceptions:
    on a well-formed store no [create] dereferences a null or dangling
    pointer or reads a dependency that is not there. *)
Theorem hmm_create_defined t sig create deps dim s e :
  (t, sig, create) ∈ hmm_classes ->
  wf_store s -> valid_refs s deps ->
  outcome (create deps dim) s = Err e -> thrown e.
Proof.
  intros Hin Hwf Hv Hc.
  destruct (hmm_create_sound _ _ _ deps dim s Hin) as (_ & _ & Hs); [done..|].
  unfold outcome in Hc. by rewrite Hc in Hs.
Qed.

End Soundness.

(** *** The invariant over the example inputs *)

Section SoundnessWitnesses.
Import Examples.

#[local] Existing Instance compute_nothing.

Lemma valid_hmm_deps : valid_refs hmm_store hmm_deps.
Proof.
  intros d Hd. repeat (apply elem_of_cons in Hd as [[= ->]|Hd]; [simpl; lia|]).
  by apply elem_of_nil in Hd.
Qed.

Lemma forward_class :
  (T_ForwardHmmLikelihood_DF, ForwardHmmLikelihood_DF.signature,
   ForwardHmmLikelihood_DF.create (R:=Z)) ∈ hmm_classes.
Proof. unfold hmm_classes. rewrite !elem_of_cons. auto. Qed.

Lemma backward_class :
  (T_BackwardHmmLikelihood_DF, BackwardHmmLikelihood_DF.signature,
   BackwardHmmLikelihood_DF.create (R:=Z)) ∈ hmm_classes.
Proof. unfold hmm_classes. rewrite !elem_of_cons. auto 10. Qed.

Lemma condLikelihood_class :
  (T_CondLikelihood, CondLikelihood.signature, CondLikelihood.create (R:=Z))
  ∈ hmm_classes.
Proof. unfold hmm_classes. rewrite !elem_of_cons. auto. Qed.

Lemma hmm_create_wf_witness :
  wf_store (final (ForwardHmmLikelihood_DF.create hmm_deps (mkDim 2 4)) hmm_store).
Proof.
  exact (hmm_create_wf _ _ _ hmm_deps (mkDim 2 4) hmm_store
           forward_class wf_hmm_store valid_hmm_deps).
Defined.

Lemma hmm_create_extends_witness :
  extends hmm_store (final (CondLikelihood.create [Some 2; Some 1] (mkDim 2 3)) hmm_store).
Proof.
  apply (hmm_create_extends _ _ _ [Some 2; Some 1] (mkDim 2 3) hmm_store
           condLikelihood_class wf_hmm_store).
  intros d Hd. repeat (apply elem_of_cons in Hd as [[= ->]|Hd]; [simpl; lia|]).
  by apply elem_of_nil in Hd.
Defined.

Lemma hmm_create_created_witness :
  created (final (ForwardHmmLikelihood_DF.create hmm_deps (mkDim 2 3)) hmm_store)
          3 T_ForwardHmmLikelihood_DF hmm_deps.
Proof.
  apply (hmm_create_created _ _ _ hmm_deps (mkDim 2 3) hmm_store 3
           forward_class wf_hmm_store valid_hmm_deps).
  reflexivity.
Defined.

Lemma hmm_create_defined_witness :
  let e := DependencyTypeError T_BackwardHmmLikelihood_DF 0
             (ExpectValue TRowVectorXd) (T_NumericConstant TVectorXd) in
  outcome (BackwardHmmLikelihood_DF.create hmm_deps (mkDim 2 3)) hmm_store = Err e
  /\ thrown e.
Proof.
  split; [reflexivity|].
  apply (hmm_create_defined _ _ _ hmm_deps (mkDim 2 3) hmm_store _
           backward_class wf_hmm_store valid_hmm_deps).
  reflexivity.
Defined.

End SoundnessWitnesses.

(** ** What [BackwardHmmLikelihood_DF::create] promises *)

Section BackwardProperties.
Context {R : Type} `{EqDecision R, Inhabited R}.
Implicit Types (s : Store R) (dim : MatrixDimension)
  (a t m : NodeId) (va vt vm : Value R).

#[local] Abbreviation backward_create a t m dim :=
  (BackwardHmmLikelihood_DF.create (R:=R) [Some a; Some t; Some m] dim).

Lemma backward_dimension_error_None dim va vt vm :
  backward_dimension_error dim va vt vm = None <->
  value_cols va = cols dim /\ value_rows vt = rows dim /\ value_cols vt = rows dim
  /\ value_rows vm = rows dim /\ value_cols vm = cols dim.
Proof.
  unfold backward_dimension_error. repeat case_bool_decide; simpl; intuition discriminate.
Qed.

Lemma backward_stored_valid s a t m va vt vm :
  backward_stored s a t m va vt vm -> valid_refs s [Some a; Some t; Some m].
Proof.
  intros (Ha & Ht & Hm) d Hd. apply stored_valid in Ha, Ht, Hm.
  repeat (apply elem_of_cons in Hd as [[= ->]|Hd]; [done|]).
  by apply elem_of_nil in Hd.
Qed.

(** C26. The dimension contract of the backward node: [create] succeeds
    exactly when the vector of forward likelihoods has as many columns as
    the target dimension, the transition matrix is square of the number of
    states, and the emission matrix has the target dimension.  The values
    are read as the dependencies store them; nothing is evaluated. *)
Theorem backward_create_checks_extents a t m dim s va vt vm :
  backward_stored s a t m va vt vm ->
  is_ok (outcome (backward_create a t m dim) s) = true <->
  value_cols va = cols dim /\ value_rows vt = rows dim /\ value_cols vt = rows dim
  /\ value_rows vm = rows dim /\ value_cols vm = cols dim.
Proof.
  intros Hs. rewrite <- backward_dimension_error_None. unfold outcome.
  rewrite (Backward_create_run _ _ _ _ _ _ _ _ Hs).
  destruct (backward_dimension_error dim va vt vm); simpl; [done|].
  rewrite (alloc_cachedAs_run TMatrixXd) by done.
  by destruct (cache_find _ _).
Qed.

(** C36. When the vector of forward likelihoods has the wrong number of
    columns, the exception reports the vector's number of rows and the
    number of states, not the two numbers that were compared; the store is
    left as it was. *)
Theorem backward_create_reports_rows a t m dim s va vt vm :
  backward_stored s a t m va vt vm ->
  value_cols va <> cols dim ->
  backward_create a t m dim s =
    (Err (BadSizeException
            "BackwardHmmLikelihood_DF: bad dimension for forward likelihoods vector"
            (value_rows va) (rows dim)), s).
Proof.
  intros Hs Hne. rewrite (Backward_create_run _ _ _ _ _ _ _ _ Hs).
  unfold backward_dimension_error. by rewrite bool_decide_eq_false_2.
Qed.

(** Structural sharing, exactly: the second of two identical requests
    for a backward node returns the node of the first and leaves the cache
    as the first left it. *)
Theorem backward_create_shares a t m dim s va vt vm :
  wf_store s -> backward_stored s a t m va vt vm ->
  backward_dimension_error dim va vt vm = None ->
  let mk := backward_create a t m dim in
  exists c, outcome mk s = Ok c /\ outcome mk (final mk s) = Ok c
    /\ nodeCache_ (final mk (final mk s)) = nodeCache_ (final mk s).
Proof.
  intros Hwf Hs Hd mk. unfold outcome, final, mk.
  rewrite (Backward_create_run _ _ _ _ _ _ _ _ Hs), Hd.
  destruct (alloc_cachedAs_spec TMatrixXd (backward_node [Some a; Some t; Some m] dim) s)
    as (c & Hrun & Hwf1 & He & Hheap & Hfind & _);
    [done..|by eapply backward_stored_valid|done|].
  rewrite Hrun. cbn [fst snd]. set (s1 := final _ s) in *.
  assert (backward_stored s1 a t m va vt vm) as Hs1.
  { destruct Hs as (Ha & Ht & Hm).
    split_and!; (eapply stored_lookup; [|done]); rewrite Hheap;
      apply lookup_app_l; by eapply stored_valid. }
  rewrite (Backward_create_run _ _ _ _ _ _ _ _ Hs1), Hd.
  rewrite (alloc_cachedAs_again TMatrixXd _ s1 c) by done. by exists c.
Qed.

End BackwardProperties.

(** *** The backward node over the example inputs *)

Section BackwardWitnesses.
Import Examples.

Lemma backward_create_checks_extents_witness :
  is_ok (outcome (BackwardHmmLikelihood_DF.create [Some 3; Some 1; Some 2] (mkDim 2 3))
                 backward_store) = true <->
  value_cols hmmScale = 3 /\ value_rows hmmTrans = 2 /\ value_cols hmmTrans = 2
  /\ value_rows hmmEmis = 2 /\ value_cols hmmEmis = 3.
Proof.
  exact (backward_create_checks_extents 3 1 2 (mkDim 2 3) backward_store
           hmmScale hmmTrans hmmEmis stored_backward_store).
Defined.

Lemma backward_create_reports_rows_witness :
  BackwardHmmLikelihood_DF.create [Some 3; Some 1; Some 2] (mkDim 2 4) backward_store =
    (Err (BadSizeException
            "BackwardHmmLikelihood_DF: bad dimension for forward likelihoods vector" 1 2),
     backward_store).
Proof.
  apply (backward_create_reports_rows 3 1 2 (mkDim 2 4) backward_store
           hmmScale hmmTrans hmmEmis stored_backward_store).
  vm_compute. lia.
Defined.

Lemma backward_create_shares_witness :
  let mk := BackwardHmmLikelihood_DF.create [Some 3; Some 1; Some 2] (mkDim 2 3) in
  exists c, outcome mk backward_store = Ok c /\ outcome mk (final mk backward_store) = Ok c
    /\ nodeCache_ (final mk (final mk backward_store)) = nodeCache_ (final mk backward_store).
Proof.
  apply (backward_create_shares 3 1 2 (mkDim 2 3) backward_store
           hmmScale hmmTrans hmmEmis wf_backward_store stored_backward_store).
  reflexivity.
Defined.

End BackwardWitnesses.

(** ** The derivative classes do not look at the dimension *)

Section DerivativeProperties.
Context {R : Type} `{EqDecision R, Inhabited R}.
Implicit Types (s : Store R) (deps : list NodeRef) (dim : MatrixDimension).

Lemma forwardD_buildable deps dim s :
  wf_store s -> Forall2 (conforms s) ForwardHmmDLikelihood_DF.signature deps ->
  buildable s (ForwardHmmDLikelihood_DF.construct deps dim).
Proof.
  intros Hwf Hc. split_and!; [done| |done..].
  eapply conforms_valid_refs; [|done]. by repeat constructor.
Qed.

(** C38. [ForwardHmmDLikelihood_DF::create] checks no extent, and the cache
    compares class and dependencies only: after a node has been created
    for one target dimension, a request for another dimension over the same
    dependencies returns that node, whose dimension is the first one. *)
Theorem forwardD_create_ignores_dimension deps dim dim' s :
  wf_store s -> Forall2 (conforms s) ForwardHmmDLikelihood_DF.signature deps ->
  cache_find s (ForwardHmmDLikelihood_DF.construct deps dim) = None ->
  let s1 := final (ForwardHmmDLikelihood_DF.create deps dim) s in
  let s2 := final (ForwardHmmDLikelihood_DF.create deps dim') s1 in
  exists c n,
    outcome (ForwardHmmDLikelihood_DF.create deps dim) s = Ok c
    /\ outcome (ForwardHmmDLikelihood_DF.create deps dim') s1 = Ok c
    /\ heap s2 !! c = Some n /\ targetDimension_ n = dim.
Proof.
  intros Hwf Hc Hmiss s1 s2. subst s1 s2. unfold outcome, final.
  pose proof (forwardD_buildable deps dim s Hwf Hc) as Hb.
  set (F := ForwardHmmDLikelihood_DF.construct deps dim) in *.
  set (F' := ForwardHmmDLikelihood_DF.construct (R:=R) deps dim').
  rewrite (ForwardD_create_run deps dim s) by done. fold F.
  set (s1 := (built "forwardDcondLik" s F).2).
  assert ((built "forwardDcondLik" s F).1 = Ok (owner s)) as Hr
    by (unfold built; by rewrite Hmiss).
  assert (Forall2 (conforms s1) ForwardHmmDLikelihood_DF.signature deps) as Hc1.
  { eapply Forall2_impl; [|exact Hc]. intros e d.
    apply conforms_extends, extends_built. }
  rewrite (ForwardD_create_run deps dim' s1) by (done || by apply wf_built).
  fold F'.
  assert (built "forwardDcondLik" s1 F' = (Ok (owner s), owned "forwardDcondLik" s1 F'))
    as ->.
  { pose proof (built_again _ _ _ _ Hb Hr) as Ha. fold s1 in Ha.
    unfold built. by rewrite (cache_find_key s1 F' F), Ha. }
  rewrite Hr. cbn [fst snd].
  exists (owner s), (set_condLik (Some (owned_ref s)) F). split_and!; [done..| |done].
  rewrite owned_lookup_old by (unfold s1; rewrite length_built; unfold owner; lia).
  unfold s1, built. rewrite Hmiss. apply owned_lookup_owner.
Qed.

End DerivativeProperties.

(** *** A derivative node over the example forward node *)

Section DerivativeWitnesses.
Import Examples.

#[local] Existing Instance compute_nothing.

(** The example store after its forward node (node 3) has been created. *)
Definition forward_store : Store Z :=
  final (ForwardHmmLikelihood_DF.create hmm_deps (mkDim 2 3)) hmm_store.

Definition forwardD_deps : list NodeRef :=
  [Some 0; Some 1; Some 2; Some 3; Some 0; Some 1; Some 2].

Lemma wf_forward_store : wf_store forward_store.
Proof.
  by destruct (hmm_create_sound _ _ _ hmm_deps (mkDim 2 3) hmm_store
                 forward_class wf_hmm_store valid_hmm_deps).
Qed.

Lemma forwardD_deps_conform :
  Forall2 (conforms forward_store) ForwardHmmDLikelihood_DF.signature forwardD_deps.
Proof. repeat constructor; (eexists; split; [done|]); eexists; by split. Qed.

Lemma forwardD_create_ignores_dimension_witness :
  let s1 := final (ForwardHmmDLikelihood_DF.create forwardD_deps (mkDim 2 3)) forward_store in
  let s2 := final (ForwardHmmDLikelihood_DF.create forwardD_deps (mkDim 5 7)) s1 in
  exists c n,
    outcome (ForwardHmmDLikelihood_DF.create forwardD_deps (mkDim 2 3)) forward_store = Ok c
    /\ outcome (ForwardHmmDLikelihood_DF.create forwardD_deps (mkDim 5 7)) s1 = Ok c
    /\ heap s2 !! c = Some n /\ targetDimension_ n = mkDim 2 3.
Proof.
  apply (forwardD_create_ignores_dimension forwardD_deps (mkDim 2 3) (mkDim 5 7)
           forward_store wf_forward_store forwardD_deps_conform).
  reflexivity.
Defined.

End DerivativeWitnesses.

(** ** [build] evaluates the dependencies *)

Section ForwardEvaluates.
Context {R : Type} `{EqDecision R, Inhabited R} {Cmp : Compute R} `{!ComputeLaws R}.
Implicit Types (s : Store R) (deps : list NodeRef) (dim : MatrixDimension).

Lemma forward_conforms_inv deps s :
  Forall2 (conforms s) ForwardHmmLikelihood_DF.signature deps ->
  exists e t m ne nt nm,
    deps = [Some e; Some t; Some m]
    /\ heap s !! e = Some ne /\ valueTypeOf (node_type ne) = TVectorXd
    /\ heap s !! t = Some nt /\ valueTypeOf (node_type nt) = TMatrixXd
    /\ heap s !! m = Some nm /\ valueTypeOf (node_type nm) = TMatrixXd.
Proof.
  intros Hc. unfold ForwardHmmLikelihood_DF.signature in Hc.
  apply Forall2_cons_inv_l in Hc as (d0 & l0 & (e & -> & ne & Hne & Hte) & Hc & ->).
  apply Forall2_cons_inv_l in Hc as (d1 & l1 & (t & -> & nt & Hnt & Htt) & Hc & ->).
  apply Forall2_cons_inv_l in Hc as (d2 & l2 & (m & -> & nm & Hnm & Htm) & Hc & ->).
  apply Forall2_nil_inv_l in Hc as ->. by exists e, t, m, ne, nt, nm.
Qed.

Lemma dimension_checks_evaluate (F : Node R) e t m s0 :
  dependencyNodes_ F = [Some e; Some t; Some m] ->
  Forall2 (conforms s0) ForwardHmmLikelihood_DF.signature (dependencyNodes_ F) ->
  hoare (fun s => frame s0 s /\ Forall (valid_at s) []) (dimension_checks F)
        (on_ok (fun s => frame s0 s /\ Forall (valid_at s) [m; t; e])).
Proof.
  intros Hd Hc. rewrite Hd in Hc.
  apply forward_conforms_inv in Hc
    as (? & ? & ? & ne & nt & nm & [= <- <- <-] & Hne & Hte & Hnt & Htt & Hnm & Htm).
  unfold dimension_checks.
  eapply hoare_on_ok_bind;
    [eapply hoare_dependencyTargetValue; [by rewrite Hd|done..]|intros hmmEq].
  eapply hoare_on_ok_bind; [apply hoare_on_ok_throw_unless|intros _].
  eapply hoare_on_ok_bind;
    [eapply hoare_dependencyTargetValue; [by rewrite Hd|done..]|intros hmmTrans].
  do 2 (eapply hoare_on_ok_bind; [apply hoare_on_ok_throw_unless|intros _]).
  eapply hoare_on_ok_bind;
    [eapply hoare_dependencyTargetValue; [by rewrite Hd|done..]|intros hmmEmis].
  eapply hoare_on_ok_bind; [apply hoare_on_ok_throw_unless|intros _].
  apply hoare_on_ok_throw_unless.
Qed.

(** [create] on dependencies that fit: the node and its
    conditional-likelihood node, the extent checks, the cache. *)
Lemma Forward_create_conforming deps dim s :
  wf_store s -> Forall2 (conforms s) ForwardHmmLikelihood_DF.signature deps ->
  let F := ForwardHmmLikelihood_DF.construct deps dim in
  ForwardHmmLikelihood_DF.create deps dim s =
    (dimension_checks F ;; cachedAs TRowVectorXd (owner s)) (owned "forwardCondLik" s F).
Proof.
  intros Hwf Hsig F.
  assert (valid_refs s deps) as Hv
    by (eapply conforms_valid_refs; [|done]; by repeat constructor).
  rewrite Forward_create_unfold, checked_conforms by done.
  unfold bind at 1. rewrite make_shared_run.
  unfold bind at 1. rewrite Forward_build_split.
  unfold bind at 1. change (own_condLik ?n _ _) with (own_condLik n (owner s) (alloc s F)).
  by rewrite (own_condLik_run _ _ F).
Qed.

(** C35. Creation evaluates: a [ForwardHmmLikelihood_DF::create] that
    returns has evaluated the three dependencies it was given, because
    [build] reads their extents with [getTargetValue]. *)
Theorem forward_create_evaluates deps dim s c :
  wf_store s ->
  outcome (ForwardHmmLikelihood_DF.create deps dim) s = Ok c ->
  forall d, Some d ∈ deps ->
    valid_at (final (ForwardHmmLikelihood_DF.create deps dim) s) d.
Proof.
  intros Hwf Hc d Hin. unfold outcome, final in *.
  destruct (signature_error T_ForwardHmmLikelihood_DF
              ForwardHmmLikelihood_DF.signature deps s) eqn:Hsig.
  { by rewrite Forward_create_unfold, checked_run, Hsig in Hc. }
  apply signature_error_None in Hsig.
  rewrite Forward_create_conforming in * by done.
  set (F := ForwardHmmLikelihood_DF.construct deps dim) in *.
  set (s1 := owned "forwardCondLik" s F) in *.
  destruct (forward_conforms_inv _ _ Hsig) as (e & t & m & _ & _ & _ & Hd & _).
  assert (Forall2 (conforms s1) ForwardHmmLikelihood_DF.signature deps) as Hsig1.
  { eapply Forall2_impl; [|exact Hsig]. intros x y.
    apply conforms_extends, extends_owned. }
  pose proof (dimension_checks_evaluate F e t m s1 Hd Hsig1 s1
                (conj (reflexivity _) (Forall_nil_2 _))) as Hev.
  unfold outcome, final, on_ok, bind in *.
  destruct (dimension_checks F s1) as [[[]|err] s3]; simpl in *; [|done].
  destruct Hev as [_ Hall]. unfold valid_at.
  change (cachedAs ?T ?i s3).2 with (final (cachedAs T i) s3). rewrite cachedAs_heap.
  assert (d ∈ [m; t; e]) as Hmem.
  { rewrite Hd in Hin. rewrite !elem_of_cons in Hin. rewrite !elem_of_cons.
    destruct Hin as [[= ->]|[[= ->]|[[= ->]|[]%elem_of_nil]]]; auto. }
  exact (proj1 (list.Forall_forall _ _) Hall d Hmem).
Qed.

End ForwardEvaluates.

Section ForwardEvaluatesWitness.
Import Examples.

#[local] Existing Instance compute_nothing.

(** The example store with its first node not evaluated yet. *)
Definition lazy_store : Store Z := store_update 0 (set_valid false) hmm_store.

Lemma wf_lazy_store : wf_store lazy_store.
Proof. eapply wf_frame; [apply frame_set_valid|apply wf_hmm_store]. Qed.

Lemma forward_create_evaluates_witness :
  ~ valid_at lazy_store 0
  /\ forall d, Some d ∈ hmm_deps ->
       valid_at (final (ForwardHmmLikelihood_DF.create hmm_deps (mkDim 2 3)) lazy_store) d.
Proof.
  split; [by intros (n & [= <-] & Hv)|].
  exact (forward_create_evaluates hmm_deps (mkDim 2 3) lazy_store 3 wf_lazy_store eq_refl).
Defined.

End ForwardEvaluatesWitness.
