(* ===== verification/Allocation.v ===== *)
(** * Allocation: how much a construction adds to the store

    Every [create] makes objects ([std::make_shared]) and may add
    references to the cache of the [Context].  [allocates h c m] bounds
    both: [m] adds at most [h] objects to the heap and at most [c]
    references to the cache, whether it returns or throws.  The bounds
    compose along [bind] by addition, so the bound of a [create] is read
    off its text.  The file proves the bounds of the primitives and of the
    five [create] of [HmmLikelihoodComputation.h]: none of them adds more
    than three objects and three cache entries. *)

From stdpp Require Import base tactics option list strings.
From S2P Require Import Prelude Values Numeric HmmRecursion DataFlow HmmLikelihood.

Section Allocation.
Context {R : Type} `{EqDecision R, Inhabited R}.
Implicit Types (s : Store R) (h c : nat) (deps : list NodeRef) (dim : MatrixDimension).

Definition grows h c s s' : Prop :=
  length (heap s') <= length (heap s) + h
  /\ length (nodeCache_ s') <= length (nodeCache_ s) + c.

Definition allocates {A} h c (m : M R A) : Prop := forall s, grows h c s (final m s).

Lemma allocates_weaken {A} h c h' c' (m : M R A) :
  h <= h' -> c <= c' -> allocates h c m -> allocates h' c' m.
Proof. intros Hh Hc Hm s. destruct (Hm s). split; lia. Qed.

Lemma allocates_bind {A B} h1 c1 h2 c2 (m : M R A) (k : A -> M R B) :
  allocates h1 c1 m -> (forall a, allocates h2 c2 (k a)) ->
  allocates (h1 + h2) (c1 + c2) (x <- m ;; k x).
Proof.
  intros Hm Hk s. specialize (Hm s). unfold grows, final, bind in *.
  destruct (m s) as [[a|e] s1]; simpl in *; [|lia].
  specialize (Hk a s1). unfold grows, final in Hk. lia.
Qed.

Lemma allocates_readonly {A} (m : M R A) : readonly m -> allocates 0 0 m.
Proof. intros Hm s. rewrite Hm. split; lia. Qed.

(** Evaluation and writes to a node allocate nothing. *)
Lemma allocates_frame {A} (m : M R A) : always frame m -> allocates 0 0 m.
Proof.
  intros Hm s. destruct (Hm s) as (HL & HC & _). split; [rewrite HL|rewrite HC]; lia.
Qed.

Lemma allocates_make_shared (n : Node R) : allocates 1 0 (make_shared n).
Proof. intros s. split; simpl; [rewrite length_app; simpl|]; lia. Qed.

Lemma allocates_update_node id (f : Node R -> Node R) : allocates 0 0 (update_node id f).
Proof. intros s. split; simpl; [rewrite length_alter|]; lia. Qed.

Lemma allocates_cachedAs T id : allocates 0 1 (cachedAs (R:=R) T id).
Proof.
  intros s. split; [by rewrite cachedAs_heap; lia|].
  unfold cachedAs, cached, final, bind, get.
  destruct (dereference id s) as [[n|e] s1] eqn:Hd;
    rewrite (readonly_run _ s (readonly_dereference id)) in Hd; injection Hd as _ <-;
    simpl; [|lia].
  destruct (cache_find s n) as [r|]; simpl.
  - rewrite (readonly_run _ s (readonly_convertRef T r)). simpl. lia.
  - rewrite (readonly_run _ _ (readonly_convertRef T id)). simpl.
    rewrite length_app. simpl. lia.
Qed.

Lemma allocates_NumericConstant_create T (v : Value R) :
  allocates 1 1 (NumericConstant.create T v).
Proof.
  unfold NumericConstant.create.
  apply (allocates_bind 1 0 0 1); [apply allocates_make_shared|].
  intros self. apply allocates_cachedAs.
Qed.

Lemma allocates_checked {A} h c ctx sig deps (k : M R A) :
  allocates h c k -> allocates h c (checked ctx sig deps k).
Proof.
  intros Hk s. unfold final. rewrite checked_run.
  destruct (signature_error _ _ _ _); [split; simpl; lia|apply Hk].
Qed.

Lemma allocates_getTargetValue `{!Compute R, !ComputeLaws R} id :
  allocates 0 0 (getTargetValue id).
Proof. apply allocates_frame, always_frame_getTargetValue. Qed.

Lemma allocates_dependencyTargetValue `{!Compute R, !ComputeLaws R} T (this : Node R) i :
  allocates 0 0 (dependencyTargetValue T this i).
Proof.
  unfold dependencyTargetValue.
  apply (allocates_bind 0 0 0 0); [apply allocates_readonly, readonly_dependencyAs|].
  intros d. apply allocates_getTargetValue.
Qed.

End Allocation.

Create HintDb alloc discriminated.

#[export] Hint Resolve allocates_make_shared allocates_update_node allocates_cachedAs
  allocates_NumericConstant_create allocates_getTargetValue
  allocates_dependencyTargetValue : alloc.

(** [solve_allocates] reads the bound off the text of the program: the
    bounds of the primitives, added along [bind]. *)
Ltac allocates_steps :=
  repeat lazymatch goal with
    | |- allocates _ _ (bind _ _) => eapply allocates_bind; [|intros ?]
    | |- allocates _ _ (checked _ _ _ _) => apply allocates_checked
    | |- allocates _ _ _ =>
        first [ solve [eauto with alloc]
              | apply allocates_readonly; solve [solve_readonly] ]
    end.

Ltac solve_allocates :=
  eapply allocates_weaken; [| |allocates_steps]; simpl; lia.

Section Classes.
Context {R : Type} `{EqDecision R, Inhabited R} {Cmp : Compute R} `{!ComputeLaws R}.
Implicit Types (s : Store R) (deps : list NodeRef) (dim : MatrixDimension).

Lemma allocates_CondLikelihood_create deps dim :
  allocates 1 1 (CondLikelihood.create (R:=R) deps dim).
Proof. rewrite CondLikelihood_create_unfold. solve_allocates. Qed.

Hint Resolve allocates_CondLikelihood_create : alloc.

Lemma allocates_Forward_create deps dim :
  allocates 3 3 (ForwardHmmLikelihood_DF.create deps dim).
Proof.
  rewrite Forward_create_unfold. unfold ForwardHmmLikelihood_DF.build. solve_allocates.
Qed.

Lemma allocates_ForwardD_create deps dim :
  allocates 3 3 (ForwardHmmDLikelihood_DF.create (R:=R) deps dim).
Proof.
  rewrite ForwardD_create_unfold. unfold ForwardHmmDLikelihood_DF.build. solve_allocates.
Qed.

Lemma allocates_ForwardD2_create deps dim :
  allocates 3 3 (ForwardHmmD2Likelihood_DF.create (R:=R) deps dim).
Proof.
  rewrite ForwardD2_create_unfold. unfold ForwardHmmD2Likelihood_DF.build.
  solve_allocates.
Qed.

Lemma allocates_Backward_create deps dim :
  allocates 1 1 (BackwardHmmLikelihood_DF.create (R:=R) deps dim).
Proof.
  rewrite Backward_create_unfold. apply allocates_checked.
  apply (allocates_bind 0 0 1 1);
    [apply allocates_readonly, readonly_Backward_construct|].
  intros this. solve_allocates.
Qed.

(** What a [create] of each class may add: the node, and for the forward
    classes the name constant and the conditional-likelihood node. *)
Definition allocation_bound (t : type_info) : nat :=
  match t with
  | T_CondLikelihood | T_BackwardHmmLikelihood_DF => 1
  | _ => 3
  end.

(** C33. The cost of a [create]: on every branch, each of the five classes
    adds to the heap and to the cache at most what [allocation_bound]
    says: three objects and three references for the forward classes, one
    of each for [CondLikelihood] and the backward class. *)
Theorem hmm_create_allocates t sig create deps dim s :
  (t, sig, create) ∈ hmm_classes ->
  let s' := final (create deps dim) s in
  length (heap s') <= length (heap s) + allocation_bound t
  /\ length (nodeCache_ s') <= length (nodeCache_ s) + allocation_bound t.
Proof.
  unfold hmm_classes. cbv zeta. rewrite !elem_of_cons, elem_of_nil.
  intros [[= -> -> ->]|[[= -> -> ->]|[[= -> -> ->]|[[= -> -> ->]|[[= -> -> ->]|[]]]]]].
  - apply allocates_CondLikelihood_create.
  - apply allocates_Forward_create.
  - apply allocates_ForwardD_create.
  - apply allocates_ForwardD2_create.
  - apply allocates_Backward_create.
Qed.

End Classes.

Lemma hmm_create_allocates_witness :
  let s' := final (ForwardHmmLikelihood_DF.create (Cmp := compute_nothing)
                     Examples.hmm_deps (mkDim 2 3)) Examples.hmm_store in
  length (heap s') <= length (heap Examples.hmm_store) + 3
  /\ length (nodeCache_ s') <= length (nodeCache_ Examples.hmm_store) + 3.
Proof.
  apply (hmm_create_allocates (Cmp := compute_nothing) T_ForwardHmmLikelihood_DF
           ForwardHmmLikelihood_DF.signature _ Examples.hmm_deps (mkDim 2 3)
           Examples.hmm_store).
  unfold hmm_classes. rewrite !elem_of_cons. auto.
Defined.
