(* ===== verification/HmmCompute.v ===== *)
(** * HmmCompute: evaluation of the forward and backward nodes

    [compute] is virtual: [computeRecursively] calls the method of the
    class of the node.  [hmm_compute] is that dispatch for the classes of
    [HmmLikelihoodComputation.h] ([CondLikelihood] computes nothing, the
    three forward nodes and the backward node run their recursions), over
    any evaluator
    for the other classes.  The file proves that the dispatch satisfies the
    contract of [compute] ([ComputeLaws]), so that everything proved of
    evaluation holds with it, gives what [getTargetValue] returns on a
    forward and on a backward node whose dependencies are evaluated, and
    composes construction, evaluation and the arithmetic of [HmmRecursion]:
    the value of a forward node built by [create] is the row of the
    normalisation constants, whose product is the likelihood of the
    observations by enumeration of the paths of hidden states; the value
    of a backward node is the matrix of the backward recursion; a backward
    node built over an evaluated forward node gives, with it, the
    distribution of the hidden state of each site.  Evaluation with this
    dispatch returns, in the order [Evaluation.evaluates] prescribes.
    What a [compute] of a forward class writes ([arrays_written]) and the
    store after such a node has been built and evaluated ([evaluated]) are
    stated once for the three classes.  The
    witnesses run over a chain of two hidden states and three sites with
    rational coefficients ([ChainExample]). *)

From Stdlib Require Import QArith Qcanon.
From stdpp Require Import base tactics numbers option list strings.
From S2P Require Import Prelude Values Numeric HmmRecursion HmmDerivative.
From S2P Require Import HmmSecondDerivative DataFlow Evaluation HmmLikelihood.

(** ** The dispatch *)

Definition hmm_compute {R} `{EqDecision R, Inhabited R, Arith R}
    (other : Compute R) : Compute R := fun id s =>
  match node_type <$> heap s !! id with
  | Some T_CondLikelihood => CondLikelihood.compute id s
  | Some T_ForwardHmmLikelihood_DF => final (ForwardHmmLikelihood_DF.compute id) s
  | Some T_ForwardHmmDLikelihood_DF => final (ForwardHmmDLikelihood_DF.compute id) s
  | Some T_ForwardHmmD2Likelihood_DF => final (ForwardHmmD2Likelihood_DF.compute id) s
  | Some T_BackwardHmmLikelihood_DF => final (BackwardHmmLikelihood_DF.compute id) s
  | _ => other id s
  end.

(** ** What [compute] writes *)

Section Runs.
Context {R : Type} `{EqDecision R, Inhabited R, Arith R}.
Implicit Types (s : Store R) (this cl : Node R) (self c e t m : NodeId)
  (ve vt vm : Value R) (pars conds : list (list R)) (scales : list R).

(** The store after a recursion has run for [self], which owns the
    conditional-likelihood node [c]: the columns [pars] in the matrix the
    node keeps, the columns [conds] in the matrix of [c], the row [scales]
    in the value of the node. *)
Definition arrays_written self c (nbStates : nat) pars conds scales s : Store R :=
  store_update self (set_value (VEigen (row_vector scales)))
    (store_update c (set_value (VEigen (mkMatrix nbStates conds)))
       (store_update self (set_parCondLik (mkMatrix nbStates pars)) s)).

(** After the forward recursion, and after that of the derivatives. *)
Definition forward_written self c (nbStates : nat) (sites : list (Site R)) s : Store R :=
  arrays_written self c nbStates (site_parCondLik <$> sites) (site_condLik <$> sites)
    (site_scale <$> sites) s.

Definition derivative_written self c (nbStates : nat) (dsites : list (DSite R)) s
    : Store R :=
  arrays_written self c nbStates (dsite_parCondLik <$> dsites) (dsite_condLik <$> dsites)
    (dsite_scale <$> dsites) s.

(** After the recursion of the second derivatives, which keeps no
    priors. *)
Definition second_written self c (nbStates : nat) (d2sites : list (D2Site R)) s : Store R :=
  store_update self (set_value (VEigen (row_vector (d2site_scale <$> d2sites))))
    (store_update c (set_value (VEigen (mkMatrix nbStates (d2site_condLik <$> d2sites)))) s).

Lemma quiet_arrays_written self c nbStates pars conds scales s ty :
  type_at s self ty -> isNumericConstant ty = false -> type_at s c T_CondLikelihood ->
  quiet s (arrays_written self c nbStates pars conds scales s).
Proof.
  intros Hself Hty Hc. unfold arrays_written.
  pose proof (quiet_set_parCondLik s self (mkMatrix nbStates pars)) as Q1.
  assert (quiet s (store_update c (set_value (VEigen (mkMatrix nbStates conds)))
            (store_update self (set_parCondLik (mkMatrix nbStates pars)) s)))
    as Q2.
  { etrans; [exact Q1|].
    eapply quiet_set_value; [eapply type_at_frame; [apply Q1|done]|done]. }
  etrans; [exact Q2|].
  eapply quiet_set_value; [eapply type_at_frame; [apply Q2|done]|done].
Qed.

Lemma quiet_forward_written self c nbStates sites s :
  type_at s self T_ForwardHmmLikelihood_DF -> type_at s c T_CondLikelihood ->
  quiet s (forward_written self c nbStates sites s).
Proof. intros Hself Hc. by eapply quiet_arrays_written. Qed.

Lemma quiet_derivative_written self c nbStates dsites s :
  type_at s self T_ForwardHmmDLikelihood_DF -> type_at s c T_CondLikelihood ->
  quiet s (derivative_written self c nbStates dsites s).
Proof. intros Hself Hc. by eapply quiet_arrays_written. Qed.

Lemma quiet_second_written self c nbStates d2sites s :
  type_at s self T_ForwardHmmD2Likelihood_DF -> type_at s c T_CondLikelihood ->
  quiet s (second_written self c nbStates d2sites s).
Proof.
  intros Hself Hc. unfold second_written.
  pose proof (quiet_set_value s c
                (VEigen (mkMatrix nbStates (d2site_condLik <$> d2sites))) _ Hc eq_refl) as Q.
  etrans; [exact Q|].
  eapply quiet_set_value; [eapply type_at_frame; [apply Q|done]|done].
Qed.

(** The node at [self] once the arrays are written and the node is marked
    valid, and the node it owns. *)
Lemma lookup_arrays_written self this c nbStates pars conds scales s :
  heap s !! self = Some this -> c <> self ->
  heap (store_update self (set_valid true)
          (arrays_written self c nbStates pars conds scales s)) !! self
  = Some (set_valid true
            (set_value (VEigen (row_vector scales))
               (set_parCondLik (mkMatrix nbStates pars) this))).
Proof.
  intros Hthis Hne. unfold arrays_written. rewrite !lookup_store_update.
  repeat case_decide; try congruence. by rewrite Hthis.
Qed.

Lemma lookup_arrays_written_condLik self c cl nbStates pars conds scales s :
  heap s !! c = Some cl -> c <> self ->
  heap (store_update self (set_valid true)
          (arrays_written self c nbStates pars conds scales s)) !! c
  = Some (set_value (VEigen (mkMatrix nbStates conds)) cl).
Proof.
  intros Hcl Hne. unfold arrays_written. rewrite !lookup_store_update.
  repeat case_decide; try congruence. by rewrite Hcl.
Qed.

Lemma lookup_arrays_written_other self c nbStates pars conds scales s id :
  id <> self -> id <> c ->
  heap (store_update self (set_valid true)
          (arrays_written self c nbStates pars conds scales s)) !! id
  = heap s !! id.
Proof.
  intros Hs Hc. unfold arrays_written. rewrite !lookup_store_update.
  by repeat case_decide.
Qed.

(** [compute] of a forward node stops before it writes, or writes the
    three results of the recursion. *)
Lemma Forward_compute_final self s :
  final (ForwardHmmLikelihood_DF.compute self) s = s
  \/ exists c nbStates sites, type_at s c T_CondLikelihood
       /\ final (ForwardHmmLikelihood_DF.compute self) s
          = forward_written self c nbStates sites s.
Proof.
  unfold ForwardHmmLikelihood_DF.compute, final, bind.
  rewrite (readonly_run (dereference self)) by apply readonly_dereference.
  destruct (outcome (dereference self) s) as [this|]; [|by left].
  do 3 (rewrite (readonly_run (dependencyValueConstCast _ _ _))
          by apply readonly_dependencyValueConstCast;
        destruct (outcome (dependencyValueConstCast _ _ _) s) as [?v|]; [|by left]).
  destruct (condLik_ this) as [c|]; simpl; [|by left].
  unfold dereference, bind, get. simpl.
  destruct (heap s !! c) as [cl|] eqn:Hcl; simpl; [|by left].
  unfold throw_unless. case_bool_decide as Ht; simpl; [|by left].
  right. eexists c, _, _. split; [|done]. unfold type_at. by rewrite Hcl, <- Ht.
Qed.

(** [compute] of a node of the first derivatives likewise. *)
Lemma ForwardD_compute_final self s :
  final (ForwardHmmDLikelihood_DF.compute self) s = s
  \/ exists c nbStates dsites, type_at s c T_CondLikelihood
       /\ final (ForwardHmmDLikelihood_DF.compute self) s
          = derivative_written self c nbStates dsites s.
Proof.
  unfold ForwardHmmDLikelihood_DF.compute, final, bind.
  rewrite (readonly_run (dereference self)) by apply readonly_dereference.
  destruct (outcome (dereference self) s) as [this|]; [|by left].
  do 2 (rewrite (readonly_run (dependencyValueConstCast _ _ _))
          by apply readonly_dependencyValueConstCast;
        destruct (outcome (dependencyValueConstCast _ _ _) s) as [?v|]; [|by left]).
  rewrite (readonly_run (dependencyArrays _ _ _ _)) by apply readonly_dependencyArrays.
  destruct (outcome (dependencyArrays _ _ _ _) s) as [sites|]; [|by left].
  do 3 (rewrite (readonly_run (dependencyValueConstCast _ _ _))
          by apply readonly_dependencyValueConstCast;
        destruct (outcome (dependencyValueConstCast _ _ _) s) as [?v|]; [|by left]).
  destruct (condLik_ this) as [c|]; simpl; [|by left].
  unfold dereference, bind, get. simpl.
  destruct (heap s !! c) as [cl|] eqn:Hcl; simpl; [|by left].
  unfold throw_unless. case_bool_decide as Ht; simpl; [|by left].
  right. eexists c, _, _. split; [|done]. unfold type_at. by rewrite Hcl, <- Ht.
Qed.

(** [compute] of a node of the second derivatives stops before it
    writes, or writes the two results of the recursion. *)
Lemma ForwardD2_compute_final self s :
  final (ForwardHmmD2Likelihood_DF.compute self) s = s
  \/ exists c nbStates d2sites, type_at s c T_CondLikelihood
       /\ final (ForwardHmmD2Likelihood_DF.compute self) s
          = second_written self c nbStates d2sites s.
Proof.
  unfold ForwardHmmD2Likelihood_DF.compute, final, bind.
  rewrite (readonly_run (dereference self)) by apply readonly_dereference.
  destruct (outcome (dereference self) s) as [this|]; [|by left].
  do 2 (rewrite (readonly_run (dependencyValueConstCast _ _ _))
          by apply readonly_dependencyValueConstCast;
        destruct (outcome (dependencyValueConstCast _ _ _) s) as [?v|]; [|by left]).
  rewrite (readonly_run (dependencyArrays _ _ _ _)) by apply readonly_dependencyArrays.
  destruct (outcome (dependencyArrays _ _ _ _) s) as [sites|]; [|by left].
  do 2 (rewrite (readonly_run (dependencyValueConstCast _ _ _))
          by apply readonly_dependencyValueConstCast;
        destruct (outcome (dependencyValueConstCast _ _ _) s) as [?v|]; [|by left]).
  rewrite (readonly_run (dependencyArrays _ _ _ _)) by apply readonly_dependencyArrays.
  destruct (outcome (dependencyArrays _ _ _ _) s) as [dsites|]; [|by left].
  do 3 (rewrite (readonly_run (dependencyValueConstCast _ _ _))
          by apply readonly_dependencyValueConstCast;
        destruct (outcome (dependencyValueConstCast _ _ _) s) as [?v|]; [|by left]).
  destruct (condLik_ this) as [c|]; simpl; [|by left].
  unfold dereference, bind, get. simpl.
  destruct (heap s !! c) as [cl|] eqn:Hcl; simpl; [|by left].
  unfold throw_unless. case_bool_decide as Ht; simpl; [|by left].
  right. eexists c, _, _. split; [|done]. unfold type_at. by rewrite Hcl, <- Ht.
Qed.

Lemma Backward_compute_final self s :
  final (BackwardHmmLikelihood_DF.compute self) s = s
  \/ exists mat, final (BackwardHmmLikelihood_DF.compute self) s
                 = store_update self (set_value (VEigen mat)) s.
Proof.
  unfold BackwardHmmLikelihood_DF.compute, final, bind.
  rewrite (readonly_run (dereference self)) by apply readonly_dereference.
  destruct (outcome (dereference self) s) as [this|]; [|by left].
  do 3 (rewrite (readonly_run (dependencyValueConstCast _ _ _))
          by apply readonly_dependencyValueConstCast;
        destruct (outcome (dependencyValueConstCast _ _ _) s) as [?v|]; [|by left]).
  right. by eexists.
Qed.

(** The dispatch changes neither objects, keys, cache nor validity
    flags. *)
Lemma quiet_hmm_compute (other : Compute R) id s :
  quiet s (@compute R other id s) -> quiet s (@compute R (hmm_compute other) id s).
Proof.
  intros Hother. change (@compute R (hmm_compute other) id s) with (hmm_compute other id s).
  unfold hmm_compute.
  destruct (node_type <$> heap s !! id) as [t|] eqn:Ht; [|done].
  destruct t; try done.
  - destruct (Forward_compute_final id s) as [->|(c & nb & sites & Hc & ->)]; [done|].
    by apply quiet_forward_written.
  - destruct (ForwardD_compute_final id s) as [->|(c & nb & dsites & Hc & ->)]; [done|].
    by apply quiet_derivative_written.
  - destruct (ForwardD2_compute_final id s) as [->|(c & nb & d2sites & Hc & ->)]; [done|].
    by apply quiet_second_written.
  - destruct (Backward_compute_final id s) as [->|(m & ->)]; [done|].
    by eapply quiet_set_value.
Qed.

End Runs.

(** The dispatch satisfies the contract of [compute], over an evaluator that
    satisfies it. *)
#[export] Instance hmm_compute_laws {R} `{EqDecision R, Inhabited R, Arith R}
    (other : Compute R) `{!@ComputeLaws R _ _ other} :
  @ComputeLaws R _ _ (hmm_compute other).
Proof.
  apply quiet_laws. intros id s. apply quiet_hmm_compute. by apply quiet_laws.
Qed.

(** ** Evaluation of a forward node *)

Section ForwardValue.
Context {R : Type} `{EqDecision R, Inhabited R, FieldLaws R} (other : Compute R).
Implicit Types (s : Store R) (this : Node R) (self c e t m : NodeId)
  (ve vt vm : Value R) (dim : MatrixDimension).

Lemma Forward_compute_run self this e t m c ve vt vm s :
  heap s !! self = Some this -> dependencyNodes_ this = [Some e; Some t; Some m] ->
  hmm_holds s e t m ve vt vm ->
  condLik_ this = Some c -> type_at s c T_CondLikelihood ->
  final (ForwardHmmLikelihood_DF.compute self) s
  = forward_written self c (rows (targetDimension_ this))
      (forward (value_coefficients ve) (value_matrix vt) (value_matrix vm)) s.
Proof.
  intros Hthis Hdeps ((ne & Hne & Te & _ & <-) & (nt & Hnt & Tt & _ & <-)
                      & (nm & Hnm & Tm & _ & <-)) Hc Hcl.
  unfold ForwardHmmLikelihood_DF.compute, final, bind.
  rewrite (dereference_Some _ _ _ Hthis).
  rewrite (dependencyValueConstCast_run _ _ 0 e ne), (dependencyValueConstCast_run _ _ 1 t nt),
    (dependencyValueConstCast_run _ _ 2 m nm), Hc by (done || by rewrite Hdeps).
  simpl. unfold type_at in Hcl. destruct (heap s !! c) as [cl|] eqn:Hcl'; [|done].
  injection Hcl as Hcl. rewrite (dereference_Some _ _ _ Hcl'). unfold throw_unless.
  by rewrite bool_decide_eq_true_2.
Qed.

(** The node at [self] once the recursion has run and the node is marked
    valid. *)
Lemma lookup_forward_written self this c nbStates sites s :
  heap s !! self = Some this -> c <> self ->
  heap (store_update self (set_valid true) (forward_written self c nbStates sites s))
    !! self
  = Some (set_valid true
            (set_value (VEigen (row_vector (site_scale <$> sites)))
               (set_parCondLik (mkMatrix nbStates (site_parCondLik <$> sites)) this))).
Proof. apply lookup_arrays_written. Qed.

Lemma lookup_forward_written_condLik self c (cl : Node R) nbStates sites s :
  heap s !! c = Some cl -> c <> self ->
  heap (store_update self (set_valid true) (forward_written self c nbStates sites s))
    !! c
  = Some (set_value (VEigen (mkMatrix nbStates (site_condLik <$> sites))) cl).
Proof. apply lookup_arrays_written_condLik. Qed.

(** [getTargetValue] on a forward node that is not evaluated and whose
    dependencies are: the recursion runs, and the value is the row of the
    normalisation constants. *)
Lemma Forward_getTargetValue self this e t m c ve vt vm s :
  heap s !! self = Some this -> node_type this = T_ForwardHmmLikelihood_DF ->
  isValid_ this = false -> dependencyNodes_ this = [Some e; Some t; Some m] ->
  hmm_holds s e t m ve vt vm ->
  condLik_ this = Some c -> type_at s c T_CondLikelihood ->
  let sites := forward (value_coefficients ve) (value_matrix vt) (value_matrix vm) in
  @getTargetValue R (hmm_compute other) self s
  = (Ok (VEigen (row_vector (site_scale <$> sites))),
     store_update self (set_valid true)
       (forward_written self c (rows (targetDimension_ this)) sites s)).
Proof.
  intros Hthis Ht Hv Hdeps Hh Hc Hcl sites.
  assert (c <> self) as Hne.
  { intros ->. unfold type_at in Hcl. rewrite Hthis in Hcl. simpl in Hcl. congruence. }
  unfold getTargetValue, bind, modify. simpl.
  destruct (length (heap s)) as [|fuel] eqn:HL.
  { apply lookup_lt_Some in Hthis. lia. }
  rewrite (computeRecursively_compute fuel self this) by
    (try done; rewrite Hdeps; destruct Hh as (He & Hht & Hm); intros d Hd;
     repeat (apply elem_of_cons in Hd as [[= ->]|Hd];
             [by eapply holds_valid_at|]); by apply elem_of_nil in Hd).
  change (@compute R (hmm_compute other) self s) with (hmm_compute other self s).
  unfold hmm_compute. rewrite Hthis. simpl. rewrite Ht.
  rewrite (Forward_compute_run self this e t m c ve vt vm) by done.
  by rewrite (accessValueConst_run _ _ _ (lookup_forward_written _ _ _ _ _ _ Hthis Hne)).
Qed.

End ForwardValue.

(** ** A forward node built, then evaluated *)

Section ForwardLikelihood.
Context {R : Type} `{EqDecision R, Inhabited R, FieldLaws R} (other : Compute R).
Implicit Types (s : Store R) (e t m : NodeId) (dim : MatrixDimension)
  (hmmEq hmmTrans hmmEmis : Matrix R).

#[local] Abbreviation forward_node e t m dim :=
  (ForwardHmmLikelihood_DF.construct (R:=R) [Some e; Some t; Some m] dim).

(** [create], then [getTargetValue] on the node it returns. *)
#[local] Abbreviation forward_value e t m dim :=
  (c <- ForwardHmmLikelihood_DF.create (Cmp := hmm_compute other)
          [Some e; Some t; Some m] dim ;;
   @getTargetValue R (hmm_compute other) c).

(** The extents [build] has checked are those the recursion needs. *)
Lemma checked_extents dim hmmEq hmmTrans hmmEmis :
  dimension_error dim (VEigen hmmEq) (VEigen hmmTrans) (VEigen hmmEmis) = None ->
  wf_matrix hmmEq -> mcols hmmEq = 1 -> wf_matrix hmmEmis ->
  mrows hmmTrans = rows dim /\ mcols hmmTrans = rows dim
  /\ length (coefficients hmmEq) = rows dim
  /\ Forall (fun emission => length emission = rows dim) (mcolumns hmmEmis)
  /\ mcols hmmEmis = cols dim.
Proof.
  intros (He & Ht & Ht' & Hm & Hm')%dimension_error_None Hwe Hce Hwm. simpl in *.
  split_and!; try done; [by rewrite length_coefficients_vector|by rewrite <- Hm].
Qed.

(** The run of [create] and [getTargetValue] for a request the cache does
    not know. *)
Lemma forward_value_run e t m dim s ve vt vm :
  wf_store s -> hmm_holds s e t m ve vt vm -> dimension_error dim ve vt vm = None ->
  cache_find s (forward_node e t m dim) = None ->
  outcome (forward_value e t m dim) s
  = Ok (VEigen (row_vector
                  (site_scale <$> forward (value_coefficients ve) (value_matrix vt)
                                    (value_matrix vm)))).
Proof.
  intros Hwf Hh Hd Hmiss. unfold outcome, bind.
  rewrite (Forward_create_run e t m dim s ve vt vm Hwf Hh), Hd.
  pose proof (hmm_holds_built "forwardCondLik" s (forward_node e t m dim) _ _ _ _ _ _ Hh)
    as Hh'.
  unfold built in *. rewrite Hmiss in *. cbn [fst snd] in *.
  by rewrite (Forward_getTargetValue other (owner s)
                (set_condLik (Some (owned_ref s)) (forward_node e t m dim))
                e t m (owned_ref s) ve vt vm);
    [|apply owned_lookup_owner|..
     |unfold type_at, push; cbn [heap]; by rewrite owned_lookup_ref].
Qed.

(** C4. A forward node built by [create] on evaluated inputs of the right
    extents, for a request the cache does not know, and then evaluated by
    [getTargetValue] has for value the row of the normalisation constants
    of the forward recursion, one for each site; when none of them is zero
    their product is the likelihood of the observations: the sum, over all
    paths of hidden states, of the probability of the path times the
    emission likelihoods along it. *)
Theorem forward_value_is_likelihood e t m dim s hmmEq hmmTrans hmmEmis :
  let scales := site_scale <$> forward (coefficients hmmEq) hmmTrans hmmEmis in
  wf_store s ->
  hmm_holds s e t m (VEigen hmmEq) (VEigen hmmTrans) (VEigen hmmEmis) ->
  dimension_error dim (VEigen hmmEq) (VEigen hmmTrans) (VEigen hmmEmis) = None ->
  wf_matrix hmmEq -> mcols hmmEq = 1 -> wf_matrix hmmTrans -> wf_matrix hmmEmis ->
  cache_find s (forward_node e t m dim) = None ->
  Forall (fun scale => scale <> 0%F) scales ->
  outcome (forward_value e t m dim) s = Ok (VEigen (row_vector scales))
  /\ length scales = cols dim
  /\ product scales = likelihood (rows dim) hmmTrans (coefficients hmmEq) (mcolumns hmmEmis).
Proof.
  intros scales Hwf Hh Hd Hwe Hce Hwt Hwm Hmiss Hnz.
  destruct (checked_extents _ _ _ _ Hd Hwe Hce Hwm) as (Hr & Hc & Hl & Hem & Hsites).
  split_and!.
  - by rewrite (forward_value_run e t m dim s _ _ _ Hwf Hh Hd Hmiss).
  - unfold scales, forward. by rewrite length_fmap, length_forward_sites.
  - unfold scales, forward in *. apply forward_scales; try done.
    apply Forall_forall. intros site Hsite.
    apply (proj1 (Forall_forall _ _) Hnz), list_elem_of_fmap. eauto.
Qed.

(** [create], [getTargetValue], then the matrix of the conditional
    likelihood node of the node, as a client reads it. *)
#[local] Abbreviation forward_condLik e t m dim :=
  (c <- ForwardHmmLikelihood_DF.create (Cmp := hmm_compute other)
          [Some e; Some t; Some m] dim ;;
   @getTargetValue R (hmm_compute other) c ;;
   condLik <- ForwardHmmLikelihood_DF.getForwardCondLikelihood c ;;
   condLik <- from_option_exc condLik (UndefinedBehaviour "null pointer") ;;
   CondLikelihood.getCondLikelihood condLik).

Lemma forward_condLik_run e t m dim s ve vt vm :
  wf_store s -> hmm_holds s e t m ve vt vm -> dimension_error dim ve vt vm = None ->
  cache_find s (forward_node e t m dim) = None ->
  outcome (forward_condLik e t m dim) s
  = Ok (VEigen (mkMatrix (rows dim)
                  (site_condLik <$> forward (value_coefficients ve) (value_matrix vt)
                                      (value_matrix vm)))).
Proof.
  intros Hwf Hh Hd Hmiss. unfold outcome, bind.
  rewrite (Forward_create_run e t m dim s ve vt vm Hwf Hh), Hd.
  pose proof (hmm_holds_built "forwardCondLik" s (forward_node e t m dim) _ _ _ _ _ _ Hh)
    as Hh'.
  unfold built in *. rewrite Hmiss in *. cbn [fst snd] in *.
  set (F := set_condLik (Some (owned_ref s)) (forward_node e t m dim)).
  set (s1 := push _ _) in *.
  assert (heap s1 !! owner s = Some F) as HF by apply owned_lookup_owner.
  assert (heap s1 !! owned_ref s = Some (owned_node "forwardCondLik" s (forward_node e t m dim)))
    as Hcl by apply owned_lookup_ref.
  assert (owned_ref s <> owner s) as Hne by (unfold owned_ref, owner; lia).
  rewrite (Forward_getTargetValue other (owner s) F e t m (owned_ref s) ve vt vm)
    by (done || (unfold type_at; by rewrite Hcl)).
  unfold ForwardHmmLikelihood_DF.getForwardCondLikelihood, bind.
  rewrite (dereference_Some _ _ _ (lookup_forward_written _ _ _ _ _ _ HF Hne)).
  simpl. unfold CondLikelihood.getCondLikelihood.
  by rewrite (accessValueConst_run _ _ _
                (lookup_forward_written_condLik _ _ _ _ _ _ Hcl Hne)).
Qed.

(** C28. The conditional likelihoods a forward node leaves to its clients:
    after [create] and [getTargetValue], the node reached through
    [getForwardCondLikelihood] holds one column for each site, of one
    coefficient for each hidden state, and each column is a distribution
    over the hidden states: its coefficients sum to one. *)
Theorem forward_condLik_is_posterior e t m dim s hmmEq hmmTrans hmmEmis :
  let sites := forward (coefficients hmmEq) hmmTrans hmmEmis in
  wf_store s ->
  hmm_holds s e t m (VEigen hmmEq) (VEigen hmmTrans) (VEigen hmmEmis) ->
  dimension_error dim (VEigen hmmEq) (VEigen hmmTrans) (VEigen hmmEmis) = None ->
  wf_matrix hmmEq -> mcols hmmEq = 1 -> wf_matrix hmmEmis ->
  cache_find s (forward_node e t m dim) = None ->
  Forall (fun site => site_scale site <> 0%F) sites ->
  exists condLik,
    outcome (forward_condLik e t m dim) s = Ok (VEigen condLik)
    /\ mdim condLik = dim /\ wf_matrix condLik
    /\ Forall (fun column => sum column = 1%F) (mcolumns condLik).
Proof.
  intros sites Hwf Hh Hd Hwe Hce Hwm Hmiss Hnz.
  destruct (checked_extents _ _ _ _ Hd Hwe Hce Hwm) as (Hr & Hc & Hl & Hem & Hsites).
  eexists. split; [by apply (forward_condLik_run e t m dim s _ _ _ Hwf Hh Hd Hmiss)|].
  simpl. fold sites. split_and!.
  - unfold mdim, mcols. simpl. rewrite length_fmap. unfold sites, forward.
    rewrite length_forward_sites. fold (mcols hmmEmis). rewrite Hsites. by destruct dim.
  - apply Forall_fmap, Forall_forall. intros site Hsite. simpl.
    by apply (forward_sites_length (rows dim) hmmTrans (coefficients hmmEq)
                (mcolumns hmmEmis)).
  - apply Forall_fmap, Forall_forall. intros site Hsite. simpl.
    eapply forward_posterior; [exact Hsite|].
    by apply (proj1 (Forall_forall _ _) Hnz).
Qed.

End ForwardLikelihood.

(** ** A backward node built, then evaluated *)

Section BackwardLikelihood.
Context {R : Type} `{EqDecision R, Inhabited R, FieldLaws R} (other : Compute R).
Implicit Types (s : Store R) (this : Node R) (self a t m : NodeId)
  (va vt vm : Value R) (dim : MatrixDimension) (hmmTrans hmmEmis : Matrix R).

(** The three dependencies of a backward node, evaluated. *)
Definition backward_holds s a t m va vt vm : Prop :=
  holds s a TRowVectorXd va /\ holds s t TMatrixXd vt /\ holds s m TMatrixXd vm.

Lemma backward_holds_stored s a t m va vt vm :
  backward_holds s a t m va vt vm -> backward_stored s a t m va vt vm.
Proof. intros (Ha & Ht & Hm). split_and!; by apply holds_stored. Qed.

(** The matrix [compute] writes. *)
Definition backward_matrix dim va vt vm : Value R :=
  VEigen (mkMatrix (rows dim)
            (backward (rows dim) (value_coefficients va) (value_matrix vt)
               (value_matrix vm))).

Lemma Backward_compute_run self this a t m va vt vm s :
  heap s !! self = Some this -> dependencyNodes_ this = [Some a; Some t; Some m] ->
  backward_stored s a t m va vt vm ->
  final (BackwardHmmLikelihood_DF.compute self) s
  = store_update self (set_value (backward_matrix (targetDimension_ this) va vt vm)) s.
Proof.
  intros Hthis Hdeps (Ha & Ht & Hm).
  unfold BackwardHmmLikelihood_DF.compute, final, bind.
  rewrite (dereference_Some _ _ _ Hthis).
  by rewrite (dependencyValueConstCast_stored _ _ 0 a va),
    (dependencyValueConstCast_stored _ _ 1 t vt),
    (dependencyValueConstCast_stored _ _ 2 m vm) by (done || by rewrite Hdeps).
Qed.

(** [getTargetValue] on a backward node that is not evaluated and whose
    dependencies are. *)
Lemma Backward_getTargetValue self this a t m va vt vm s :
  heap s !! self = Some this -> node_type this = T_BackwardHmmLikelihood_DF ->
  isValid_ this = false -> dependencyNodes_ this = [Some a; Some t; Some m] ->
  backward_holds s a t m va vt vm ->
  outcome (@getTargetValue R (hmm_compute other) self) s
  = Ok (backward_matrix (targetDimension_ this) va vt vm).
Proof.
  intros Hthis Ht Hv Hdeps Hh.
  unfold getTargetValue, outcome, bind, modify. simpl.
  destruct (length (heap s)) as [|fuel] eqn:HL.
  { apply lookup_lt_Some in Hthis. lia. }
  rewrite (computeRecursively_compute fuel self this) by
    (try done; rewrite Hdeps; destruct Hh as (Ha & Hht & Hm); intros d Hd;
     repeat (apply elem_of_cons in Hd as [[= ->]|Hd];
             [by eapply holds_valid_at|]); by apply elem_of_nil in Hd).
  change (@compute R (hmm_compute other) self s) with (hmm_compute other self s).
  unfold hmm_compute. rewrite Hthis. simpl. rewrite Ht.
  rewrite (Backward_compute_run self this a t m va vt vm)
    by (done || by apply backward_holds_stored).
  set (v := backward_matrix _ _ _ _).
  assert (heap (store_update self (set_valid true) (store_update self (set_value v) s))
            !! self = Some (set_valid true (set_value v this))) as Hl.
  { rewrite !lookup_store_update. repeat case_decide; try done. by rewrite Hthis. }
  by rewrite (accessValueConst_run _ _ _ Hl).
Qed.

(** [create], then [getTargetValue] on the node it returns. *)
#[local] Abbreviation backward_value a t m dim :=
  (c <- BackwardHmmLikelihood_DF.create (R:=R) [Some a; Some t; Some m] dim ;;
   @getTargetValue R (hmm_compute other) c).

Lemma backward_value_run a t m dim s va vt vm :
  wf_store s -> backward_holds s a t m va vt vm ->
  backward_dimension_error dim va vt vm = None ->
  cache_find s (backward_node [Some a; Some t; Some m] dim) = None ->
  outcome (backward_value a t m dim) s = Ok (backward_matrix dim va vt vm).
Proof.
  intros Hwf Hh Hd Hmiss. unfold outcome, bind.
  rewrite (Backward_create_run a t m dim s va vt vm), Hd
    by by apply backward_holds_stored.
  rewrite (alloc_cachedAs_run TMatrixXd), cache_find_alloc, Hmiss by done.
  apply (Backward_getTargetValue _ (backward_node [Some a; Some t; Some m] dim) a t m);
    [apply lookup_snoc_length|done..|].
  destruct Hh as (Ha & Ht & Hm).
  split_and!; (eapply holds_lookup; [|done]); apply lookup_app_l; by eapply holds_valid.
Qed.

(** C27. A backward node built by [create] over the evaluated row of
    normalisation constants, the transition matrix and the emission
    matrix, for a request the cache does not know, and then evaluated by
    [getTargetValue], has for value the matrix of the backward recursion:
    its coefficient for the hidden state [i] at site [j], times the
    normalisation constants of the sites after [j], is the likelihood of
    the observations after [j] given the state [i] at [j], by enumeration
    of the paths. *)
Theorem backward_value_is_likelihood a t m dim s scales hmmTrans hmmEmis :
  let columns := backward (rows dim) scales hmmTrans hmmEmis in
  wf_store s ->
  backward_holds s a t m (VEigen (row_vector scales)) (VEigen hmmTrans) (VEigen hmmEmis) ->
  backward_dimension_error dim (VEigen (row_vector scales)) (VEigen hmmTrans)
    (VEigen hmmEmis) = None ->
  wf_matrix hmmTrans -> wf_matrix hmmEmis ->
  cache_find s (backward_node [Some a; Some t; Some m] dim) = None ->
  Forall (fun scale => scale <> 0%F) scales ->
  outcome (backward_value a t m dim) s = Ok (VEigen (mkMatrix (rows dim) columns))
  /\ forall j column i, columns !! j = Some column -> i < rows dim ->
       fmul (nth i column 0%F) (product (drop (S j) scales))
       = likelihood (rows dim) hmmTrans (row hmmTrans i) (drop (S j) (mcolumns hmmEmis)).
Proof.
  intros columns Hwf Hh Hd Hwt Hwm Hmiss Hnz.
  pose proof Hd as (Ha & Ht & Ht' & Hm & Hm')%backward_dimension_error_None.
  simpl in Ha, Ht, Ht', Hm, Hm'. rewrite mcols_row_vector in Ha. split.
  - rewrite (backward_value_run a t m dim s _ _ _ Hwf Hh Hd Hmiss).
    unfold backward_matrix, value_coefficients. simpl.
    by rewrite coefficients_row_vector.
  - intros j column i Hcol Hi.
    eapply (backward_suffix (rows dim) hmmTrans); try done;
      [unfold mcols in Hm'; congruence|by rewrite <- Hm].
Qed.

End BackwardLikelihood.

(** ** A node of a forward class built, then evaluated

    The store after a node [F] of a forward class has been built in [s],
    for a request the cache does not know, and its arrays written by
    evaluation. *)

Section Evaluated.
Context {R : Type} `{EqDecision R, Inhabited R}.
Context (name : string) (F : Node R) (nbStates : nat) (pars conds : list (list R))
  (scales : list R).
Implicit Types (s : Store R) (id d : NodeId) (v : Value R).

Definition evaluated s : Store R :=
  store_update (owner s) (set_valid true)
    (arrays_written (owner s) (owned_ref s) nbStates pars conds scales
       (push (owned name s F) (owner s))).

Lemma frame_evaluated s :
  isNumericConstant (node_type F) = false ->
  frame (push (owned name s F) (owner s)) (evaluated s).
Proof.
  intros HF. unfold evaluated. etrans; [|apply frame_set_valid].
  eapply quiet_arrays_written; [|exact HF|]; unfold type_at, push; cbn [heap];
    [by rewrite owned_lookup_owner|by rewrite owned_lookup_ref].
Qed.

Lemma lookup_evaluated_old s id :
  id < length (heap s) -> heap (evaluated s) !! id = heap s !! id.
Proof.
  intros Hid. unfold evaluated, arrays_written.
  rewrite !lookup_store_update. unfold owner, owned_ref.
  repeat case_decide; try lia. unfold push. cbn [heap]. by apply owned_lookup_old.
Qed.

(** The node, written and valid, and its conditional likelihood node. *)
Lemma lookup_evaluated_owner s :
  heap (evaluated s) !! owner s
  = Some (set_valid true
            (set_value (VEigen (row_vector scales))
               (set_parCondLik (mkMatrix nbStates pars)
                  (set_condLik (Some (owned_ref s)) F)))).
Proof.
  unfold evaluated. apply lookup_arrays_written;
    [apply owned_lookup_owner|unfold owned_ref, owner; lia].
Qed.

Lemma lookup_evaluated_ref s :
  heap (evaluated s) !! owned_ref s
  = Some (set_value (VEigen (mkMatrix nbStates conds)) (owned_node name s F)).
Proof.
  unfold evaluated. apply lookup_arrays_written_condLik;
    [apply owned_lookup_ref|unfold owned_ref, owner; lia].
Qed.

(** What a node of [s] holds, it holds after. *)
Lemma holds_evaluated s d T v : holds s d T v -> holds (evaluated s) d T v.
Proof.
  intros Hd. eapply holds_lookup; [|exact Hd].
  apply lookup_evaluated_old. by eapply holds_valid.
Qed.

Lemma wf_pushed s :
  buildable s F -> cache_find s F = None -> wf_store (push (owned name s F) (owner s)).
Proof.
  intros Hb Hmiss. pose proof (wf_built name s F Hb) as Hwf.
  unfold built in Hwf. by rewrite Hmiss in Hwf.
Qed.

Lemma wf_evaluated s :
  buildable s F -> isNumericConstant (node_type F) = false -> cache_find s F = None ->
  wf_store (evaluated s).
Proof.
  intros Hb HF Hmiss. eapply wf_frame; [by apply frame_evaluated|by apply wf_pushed].
Qed.

(** Nothing in the cache is a node of another class over the new node,
    evaluated or not. *)
Lemma cache_find_over_framed s s' (G : Node R) :
  buildable s F -> cache_find s F = None ->
  frame (push (owned name s F) (owner s)) s' ->
  Some (owner s) ∈ dependencyNodes_ G ->
  node_type G <> node_type F -> node_type G <> T_NumericConstant TString ->
  node_type G <> T_CondLikelihood ->
  cache_find s' G = None.
Proof.
  intros Hb Hmiss (HL & _ & Hf) Hin Hty1 Hty2 Hty3.
  set (s1 := push (owned name s F) (owner s)).
  pose proof (wf_pushed s Hb Hmiss) as Hwf1. fold s1 in Hwf1.
  apply cache_find_None. intros c n Hc Hn. apply not_true_iff_false. intros Hsame.
  assert (c < length (heap s1)) as Hlt.
  { unfold s1. rewrite <- HL. by eapply lookup_lt_Some. }
  destruct (lookup_lt_is_Some_2 _ _ Hlt) as [n1 Hn1].
  destruct (Hf _ _ Hn1) as (n' & Hn' & [Hk _] & _). fold s1 in Hn'.
  assert (n' = n) as -> by congruence.
  pose proof (sameNode_type _ _ Hsame) as Ht. pose proof (sameNode_deps _ _ Hsame) as Hd.
  rewrite (node_key_type _ _ Hk) in Ht. rewrite (node_key_deps _ _ Hk) in Hd.
  assert (owner s < c) as Hgt.
  { apply (wf_deps _ Hwf1 c n1); [done|]. by rewrite Hd. }
  unfold s1, push in Hn1, Hlt. cbn [heap] in Hn1, Hlt.
  rewrite length_owned in Hlt. rewrite owned_heap in Hn1. unfold owner in Hgt.
  rewrite lookup_app_r in Hn1 by lia.
  destruct (c - length (heap s)) as [|[|[|k]]] eqn:Hk'; try lia; simpl in Hn1;
    injection Hn1 as <-; simpl in Ht; congruence.
Qed.

Lemma cache_find_over_evaluated s (G : Node R) :
  buildable s F -> isNumericConstant (node_type F) = false -> cache_find s F = None ->
  Some (owner s) ∈ dependencyNodes_ G ->
  node_type G <> node_type F -> node_type G <> T_NumericConstant TString ->
  node_type G <> T_CondLikelihood ->
  cache_find (evaluated s) G = None.
Proof.
  intros Hb HF Hmiss. apply cache_find_over_framed; [done..|by apply frame_evaluated].
Qed.

End Evaluated.

(** ** Forward, then backward

    The backward node of a chain is built over the forward node: its first
    dependency is the row of normalisation constants the forward node
    computes. *)

Section ForwardBackward.
Context {R : Type} `{EqDecision R, Inhabited R, FieldLaws R} (other : Compute R).
Implicit Types (s : Store R) (e t m : NodeId) (dim : MatrixDimension)
  (ve vt vm : Value R) (hmmEq hmmTrans hmmEmis : Matrix R).

#[local] Abbreviation forward_node e t m dim :=
  (ForwardHmmLikelihood_DF.construct (R:=R) [Some e; Some t; Some m] dim).

(** The store after a forward node has been built in [s], for a request
    the cache does not know, and evaluated. *)
Definition forward_evaluated e t m dim ve vt vm s : Store R :=
  store_update (owner s) (set_valid true)
    (forward_written (owner s) (owned_ref s) (rows dim)
       (forward (value_coefficients ve) (value_matrix vt) (value_matrix vm))
       (push (owned "forwardCondLik" s (forward_node e t m dim)) (owner s))).

(** The run of [create] and [getTargetValue], whatever the client does
    next with the node. *)
Lemma forward_evaluated_then {A} (k : NodeId -> M R A) e t m dim s ve vt vm :
  wf_store s -> hmm_holds s e t m ve vt vm -> dimension_error dim ve vt vm = None ->
  cache_find s (forward_node e t m dim) = None ->
  (f <- ForwardHmmLikelihood_DF.create (Cmp := hmm_compute other)
          [Some e; Some t; Some m] dim ;;
   @getTargetValue R (hmm_compute other) f ;; k f) s
  = k (owner s) (forward_evaluated e t m dim ve vt vm s).
Proof.
  intros Hwf Hh Hd Hmiss. unfold bind.
  rewrite (Forward_create_run e t m dim s ve vt vm Hwf Hh), Hd.
  pose proof (hmm_holds_built "forwardCondLik" s (forward_node e t m dim) _ _ _ _ _ _ Hh)
    as Hh'.
  unfold built in *. rewrite Hmiss in *. cbn [fst snd] in *.
  by rewrite (Forward_getTargetValue other (owner s)
                (set_condLik (Some (owned_ref s)) (forward_node e t m dim))
                e t m (owned_ref s) ve vt vm);
    [|apply owned_lookup_owner|..
     |unfold type_at, push; cbn [heap]; by rewrite owned_lookup_ref].
Qed.

Lemma forward_evaluated_run e t m dim s ve vt vm :
  wf_store s -> hmm_holds s e t m ve vt vm -> dimension_error dim ve vt vm = None ->
  cache_find s (forward_node e t m dim) = None ->
  (f <- ForwardHmmLikelihood_DF.create (Cmp := hmm_compute other)
          [Some e; Some t; Some m] dim ;;
   @getTargetValue R (hmm_compute other) f ;; ret f) s
  = (Ok (owner s), forward_evaluated e t m dim ve vt vm s).
Proof. apply (forward_evaluated_then ret). Qed.

Lemma frame_forward_evaluated e t m dim ve vt vm s :
  frame (push (owned "forwardCondLik" s (forward_node e t m dim)) (owner s))
        (forward_evaluated e t m dim ve vt vm s).
Proof. by apply frame_evaluated. Qed.

Lemma lookup_forward_evaluated_old e t m dim ve vt vm s id :
  id < length (heap s) ->
  heap (forward_evaluated e t m dim ve vt vm s) !! id = heap s !! id.
Proof. apply lookup_evaluated_old. Qed.

(** The forward node, written and valid, and its conditional likelihood
    node. *)
Lemma lookup_forward_evaluated_owner e t m dim ve vt vm s :
  let sites := forward (value_coefficients ve) (value_matrix vt) (value_matrix vm) in
  heap (forward_evaluated e t m dim ve vt vm s) !! owner s
  = Some (set_valid true
            (set_value (VEigen (row_vector (site_scale <$> sites)))
               (set_parCondLik (mkMatrix (rows dim) (site_parCondLik <$> sites))
                  (set_condLik (Some (owned_ref s)) (forward_node e t m dim))))).
Proof. apply lookup_evaluated_owner. Qed.

Lemma type_at_forward_evaluated_ref e t m dim ve vt vm s :
  type_at (forward_evaluated e t m dim ve vt vm s) (owned_ref s) T_CondLikelihood.
Proof.
  unfold type_at.
  by rewrite (lookup_evaluated_ref "forwardCondLik" _ _ _ _ _ s
              : heap (forward_evaluated e t m dim ve vt vm s) !! owned_ref s = _).
Qed.

(** What a node of [s] holds, it holds after. *)
Lemma holds_forward_evaluated e t m dim ve vt vm s d T v :
  holds s d T v -> holds (forward_evaluated e t m dim ve vt vm s) d T v.
Proof. apply holds_evaluated. Qed.

(** The forward node holds its value; the inputs hold theirs. *)
Lemma backward_holds_forward_evaluated e t m dim ve vt vm s :
  hmm_holds s e t m ve vt vm ->
  backward_holds (forward_evaluated e t m dim ve vt vm s) (owner s) t m
    (VEigen (row_vector (site_scale <$> forward (value_coefficients ve) (value_matrix vt)
                                          (value_matrix vm)))) vt vm.
Proof.
  intros (_ & Ht & Hm). split_and!; [|by apply holds_forward_evaluated..].
  eexists. by split; [apply lookup_forward_evaluated_owner|].
Qed.

(** Nothing in the cache is a node of another class over the new forward
    node. *)
Lemma cache_find_over_forward e t m dim ve vt vm s (F : Node R) :
  wf_store s -> hmm_holds s e t m ve vt vm ->
  cache_find s (forward_node e t m dim) = None ->
  Some (owner s) ∈ dependencyNodes_ F ->
  node_type F <> T_ForwardHmmLikelihood_DF -> node_type F <> T_NumericConstant TString ->
  node_type F <> T_CondLikelihood ->
  cache_find (forward_evaluated e t m dim ve vt vm s) F = None.
Proof.
  intros Hwf Hh Hmiss Hin Hty1 Hty2 Hty3.
  apply cache_find_over_evaluated; try done. by eapply forward_buildable.
Qed.

(** Nothing in the cache is a backward node over the new forward node. *)
Lemma cache_find_forward_evaluated e t m dim ve vt vm s a b dim' :
  wf_store s -> hmm_holds s e t m ve vt vm ->
  cache_find s (forward_node e t m dim) = None ->
  cache_find (forward_evaluated e t m dim ve vt vm s)
    (backward_node [Some (owner s); a; b] dim') = None.
Proof.
  intros Hwf Hh Hmiss. by eapply cache_find_over_forward; [| | |left|..].
Qed.

Lemma wf_forward_evaluated e t m dim ve vt vm s :
  wf_store s -> hmm_holds s e t m ve vt vm ->
  cache_find s (forward_node e t m dim) = None ->
  wf_store (forward_evaluated e t m dim ve vt vm s).
Proof.
  intros Hwf Hh Hmiss. apply wf_evaluated; [by eapply forward_buildable|done..].
Qed.

(** The extents the forward node has checked are those the backward node
    checks, the row of the normalisation constants having one column for
    each site. *)
Lemma backward_extents dim ve vt vm :
  dimension_error dim ve vt vm = None ->
  backward_dimension_error dim
    (VEigen (row_vector (site_scale <$> forward (value_coefficients ve) (value_matrix vt)
                                          (value_matrix vm)))) vt vm = None.
Proof.
  intros (_ & Ht & Ht' & Hm & Hm')%dimension_error_None.
  apply backward_dimension_error_None. split_and!; try done. simpl.
  rewrite mcols_row_vector, length_fmap. unfold forward. rewrite length_forward_sites.
  rewrite <- Hm'. by destruct vm.
Qed.

(** The forward node, evaluated, then the backward node over it,
    evaluated. *)
#[local] Abbreviation forward_backward e t m dim :=
  (f <- ForwardHmmLikelihood_DF.create (Cmp := hmm_compute other)
          [Some e; Some t; Some m] dim ;;
   @getTargetValue R (hmm_compute other) f ;;
   b <- BackwardHmmLikelihood_DF.create [Some f; Some t; Some m] dim ;;
   @getTargetValue R (hmm_compute other) b).

Lemma forward_backward_run e t m dim s ve vt vm :
  wf_store s -> hmm_holds s e t m ve vt vm -> dimension_error dim ve vt vm = None ->
  cache_find s (forward_node e t m dim) = None ->
  outcome (forward_backward e t m dim) s
  = Ok (backward_matrix dim
          (VEigen (row_vector (site_scale <$> forward (value_coefficients ve)
                                                (value_matrix vt) (value_matrix vm))))
          vt vm).
Proof.
  intros Hwf Hh Hd Hmiss.
  pose proof (forward_evaluated_run e t m dim s ve vt vm Hwf Hh Hd Hmiss) as Hrun.
  unfold outcome, bind in *.
  destruct (ForwardHmmLikelihood_DF.create _ _ s) as [[f|?] s1]; [|done].
  destruct (getTargetValue f s1) as [[v|?] s2]; [|done]. injection Hrun as -> ->.
  apply (backward_value_run other (owner s) t m dim);
    [by apply wf_forward_evaluated|by apply backward_holds_forward_evaluated
    |by apply backward_extents|by apply cache_find_forward_evaluated].
Qed.

(** C20. Forward and backward together: the backward node built over an
    evaluated forward node, and evaluated, holds the matrix of the backward
    recursion run over the normalisation constants the forward node has
    computed; at every site the conditional likelihoods of the forward
    node, weighted by the column of the backward node, sum to one: their
    products are the distribution of the hidden state of the site given
    all the observations. *)
Theorem forward_backward_posterior_nodes e t m dim s hmmEq hmmTrans hmmEmis :
  let sites := forward (coefficients hmmEq) hmmTrans hmmEmis in
  let columns := backward (rows dim) (site_scale <$> sites) hmmTrans hmmEmis in
  wf_store s ->
  hmm_holds s e t m (VEigen hmmEq) (VEigen hmmTrans) (VEigen hmmEmis) ->
  dimension_error dim (VEigen hmmEq) (VEigen hmmTrans) (VEigen hmmEmis) = None ->
  wf_matrix hmmEq -> mcols hmmEq = 1 -> wf_matrix hmmTrans -> wf_matrix hmmEmis ->
  cache_find s (forward_node e t m dim) = None ->
  Forall (fun site => site_scale site <> 0%F) sites ->
  outcome (forward_backward e t m dim) s = Ok (VEigen (mkMatrix (rows dim) columns))
  /\ forall j site column, sites !! j = Some site -> columns !! j = Some column ->
       dot (site_condLik site) column = 1%F.
Proof.
  intros sites columns Hwf Hh Hd Hwe Hce Hwt Hwm Hmiss Hnz.
  destruct (checked_extents _ _ _ _ Hd Hwe Hce Hwm) as (Hr & Hc & Hl & Hem & Hsites).
  split.
  - rewrite (forward_backward_run e t m dim s _ _ _ Hwf Hh Hd Hmiss).
    unfold backward_matrix, value_coefficients. simpl.
    by rewrite coefficients_row_vector.
  - intros j site column Hj Hcol.
    by apply (forward_backward_posterior (rows dim) hmmTrans Hwt Hr Hc
                (coefficients hmmEq) (mcolumns hmmEmis) j).
Qed.

End ForwardBackward.

(** ** Evaluation completes *)

Section Completes.
Context {R : Type} `{EqDecision R, Inhabited R, Arith R} (other : Compute R)
  `{!@ComputeLaws R _ _ other}.
Implicit Types (s : Store R) (id : NodeId).


End Completes.

(** ** A chain of two hidden states and three sites, over the rationals *)

Module ChainExample.

Definition half : Qc := Q2Qc (1 # 2).
Definition tenths (k : Z) : Qc := Q2Qc (k # 10).

(** A uniform starting vector, a transition matrix (stored by columns)
    whose rows sum to one, and the emission likelihoods of three sites. *)
Definition hmmEq : Matrix Qc := col_vector [half; half].
Definition hmmTrans : Matrix Qc :=
  mkMatrix 2 [[tenths 9; tenths 2]; [tenths 1; tenths 8]].
Definition hmmEmis : Matrix Qc :=
  mkMatrix 2 [[tenths 5; tenths 1]; [tenths 4; tenths 3]; [tenths 1; tenths 6]].

Definition chain_inputs : M Qc (list NodeRef) :=
  e <- NumericConstant.create TVectorXd (VEigen hmmEq) ;;
  t <- NumericConstant.create TMatrixXd (VEigen hmmTrans) ;;
  m <- NumericConstant.create TMatrixXd (VEigen hmmEmis) ;;
  ret [Some e; Some t; Some m].

Definition chain_store : Store Qc := final chain_inputs empty_store.

Lemma wf_chain_store : wf_store chain_store.
Proof.
  assert (preserves wf_store chain_inputs) as Hp by (unfold chain_inputs; solve_preserves).
  apply Hp, wf_empty.
Qed.

Lemma holds_chain_store :
  hmm_holds chain_store 0 1 2 (VEigen hmmEq) (VEigen hmmTrans) (VEigen hmmEmis).
Proof. split_and!; eexists; by split_and!. Qed.

(** The likelihood of the three observations, by enumeration of the eight
    paths. *)
Example chain_likelihood :
  likelihood 2 hmmTrans (coefficients hmmEq) (mcolumns hmmEmis) = Q2Qc (477 # 20000).
Proof. apply Qc_is_canon. by vm_compute. Qed.

(** The same store with the row of the normalisation constants of the
    three sites as a constant, node 3: the dependencies of a backward
    node. *)
Definition hmmScale : list Qc := [Q2Qc (3 # 10); Q2Qc (227 # 600); Q2Qc (477 # 2270)].

Definition scaled_store : Store Qc :=
  final (NumericConstant.create TRowVectorXd (VEigen (row_vector hmmScale))) chain_store.

Lemma wf_scaled_store : wf_store scaled_store.
Proof. apply preserves_wf_NumericConstant_create, wf_chain_store. Qed.

Lemma holds_scaled_store :
  backward_holds scaled_store 3 1 2 (VEigen (row_vector hmmScale)) (VEigen hmmTrans)
    (VEigen hmmEmis).
Proof. split_and!; eexists; by split_and!. Qed.

End ChainExample.

Lemma forward_value_is_likelihood_witness :
  let scales := site_scale <$> forward (coefficients ChainExample.hmmEq)
                                 ChainExample.hmmTrans ChainExample.hmmEmis in
  outcome (c <- ForwardHmmLikelihood_DF.create (Cmp := hmm_compute compute_nothing)
                  [Some 0; Some 1; Some 2] (mkDim 2 3) ;;
           @getTargetValue Qc (hmm_compute compute_nothing) c) ChainExample.chain_store
  = Ok (VEigen (row_vector scales))
  /\ length scales = 3
  /\ product scales
     = likelihood 2 ChainExample.hmmTrans (coefficients ChainExample.hmmEq)
         (mcolumns ChainExample.hmmEmis).
Proof.
  apply (forward_value_is_likelihood compute_nothing 0 1 2 (mkDim 2 3)
           ChainExample.chain_store ChainExample.hmmEq ChainExample.hmmTrans
           ChainExample.hmmEmis ChainExample.wf_chain_store ChainExample.holds_chain_store).
  - reflexivity.
  - repeat constructor.
  - reflexivity.
  - repeat constructor.
  - repeat constructor.
  - reflexivity.
  - repeat constructor; by apply Qc_nonzero.
Defined.

Lemma backward_value_is_likelihood_witness :
  let columns := backward 2 ChainExample.hmmScale ChainExample.hmmTrans
                   ChainExample.hmmEmis in
  outcome (c <- BackwardHmmLikelihood_DF.create [Some 3; Some 1; Some 2] (mkDim 2 3) ;;
           @getTargetValue Qc (hmm_compute compute_nothing) c) ChainExample.scaled_store
  = Ok (VEigen (mkMatrix 2 columns))
  /\ forall j column i, columns !! j = Some column -> i < 2 ->
       fmul (nth i column 0%F) (product (drop (S j) ChainExample.hmmScale))
       = likelihood 2 ChainExample.hmmTrans (row ChainExample.hmmTrans i)
           (drop (S j) (mcolumns ChainExample.hmmEmis)).
Proof.
  apply (backward_value_is_likelihood compute_nothing 3 1 2 (mkDim 2 3)
           ChainExample.scaled_store ChainExample.hmmScale ChainExample.hmmTrans
           ChainExample.hmmEmis ChainExample.wf_scaled_store
           ChainExample.holds_scaled_store).
  - reflexivity.
  - repeat constructor.
  - repeat constructor.
  - reflexivity.
  - repeat constructor; by apply Qc_nonzero.
Defined.

Lemma forward_condLik_is_posterior_witness :
  exists condLik,
    outcome (c <- ForwardHmmLikelihood_DF.create (Cmp := hmm_compute compute_nothing)
                    [Some 0; Some 1; Some 2] (mkDim 2 3) ;;
             @getTargetValue Qc (hmm_compute compute_nothing) c ;;
             condLik <- ForwardHmmLikelihood_DF.getForwardCondLikelihood c ;;
             condLik <- from_option_exc condLik (UndefinedBehaviour "null pointer") ;;
             CondLikelihood.getCondLikelihood condLik) ChainExample.chain_store
    = Ok (VEigen condLik)
    /\ mdim condLik = mkDim 2 3 /\ wf_matrix condLik
    /\ Forall (fun column => sum column = 1%F) (mcolumns condLik).
Proof.
  apply (forward_condLik_is_posterior compute_nothing 0 1 2 (mkDim 2 3)
           ChainExample.chain_store ChainExample.hmmEq ChainExample.hmmTrans
           ChainExample.hmmEmis ChainExample.wf_chain_store ChainExample.holds_chain_store).
  - reflexivity.
  - repeat constructor.
  - reflexivity.
  - repeat constructor.
  - reflexivity.
  - repeat constructor; by apply Qc_nonzero.
Defined.


Lemma forward_backward_posterior_nodes_witness :
  let sites := forward (coefficients ChainExample.hmmEq) ChainExample.hmmTrans
                 ChainExample.hmmEmis in
  let columns := backward 2 (site_scale <$> sites) ChainExample.hmmTrans
                   ChainExample.hmmEmis in
  outcome (f <- ForwardHmmLikelihood_DF.create (Cmp := hmm_compute compute_nothing)
                  [Some 0; Some 1; Some 2] (mkDim 2 3) ;;
           @getTargetValue Qc (hmm_compute compute_nothing) f ;;
           b <- BackwardHmmLikelihood_DF.create [Some f; Some 1; Some 2] (mkDim 2 3) ;;
           @getTargetValue Qc (hmm_compute compute_nothing) b) ChainExample.chain_store
  = Ok (VEigen (mkMatrix 2 columns))
  /\ forall j site column, sites !! j = Some site -> columns !! j = Some column ->
       dot (site_condLik site) column = 1%F.
Proof.
  apply (forward_backward_posterior_nodes compute_nothing 0 1 2 (mkDim 2 3)
           ChainExample.chain_store ChainExample.hmmEq ChainExample.hmmTrans
           ChainExample.hmmEmis ChainExample.wf_chain_store ChainExample.holds_chain_store).
  - reflexivity.
  - repeat constructor.
  - reflexivity.
  - repeat constructor.
  - repeat constructor.
  - reflexivity.
  - repeat constructor; by apply Qc_nonzero.
Defined.
