(* ===== verification/HmmDerivativeCompute.v ===== *)
(** * HmmDerivativeCompute: evaluation of the node of the first derivatives

    A [ForwardHmmDLikelihood_DF] node is built over the three inputs of a
    forward node, the forward node itself and the derivatives of the three
    inputs.  The file gives what [ForwardHmmDLikelihood_DF.compute] writes
    when the dependencies are evaluated ([ForwardD_compute_run]), what
    [getTargetValue] returns on such a node ([ForwardD_getTargetValue]),
    and composes construction and evaluation of the two nodes with the
    arithmetic of [HmmDerivative]: the forward node is built and
    evaluated, the node of the derivatives is built over it and evaluated;
    its value is the row of the derivatives of the normalisation
    constants, and the sum of these derivatives, each over its constant,
    is the derivative of the likelihood by enumeration of the paths over
    that likelihood ([forwardD_value_is_derivative]).  The witness runs
    over the chain of [HmmDerivative.DerivativeExample]. *)

From Stdlib Require Import QArith Qcanon.
From stdpp Require Import base tactics numbers option list strings.
From S2P Require Import Prelude Values Numeric HmmRecursion HmmDerivative.
From S2P Require Import HmmSecondDerivative DataFlow Evaluation HmmLikelihood HmmCompute.

(** ** The arrays of an evaluated node of a forward class *)

Section Arrays.
Context {R S : Type} `{EqDecision R, Inhabited R}.
Context (t : type_info) (mk : list R -> list R -> R -> S) (par cond : S -> list R)
  (scale : S -> R).
Implicit Types (s : Store R) (this : Node R) (f fc : NodeId) (sites : list S)
  (nbStates : nat).

(** The node [f] of class [t], evaluated, and the conditional likelihood
    node [fc] it owns hold the three arrays of [sites]. *)
Definition arrays_hold s f fc nbStates sites : Prop :=
  exists fthis fcl,
    heap s !! f = Some fthis /\ node_type fthis = t
    /\ isValid_ fthis = true /\ condLik_ fthis = Some fc
    /\ parCondLik_ fthis = mkMatrix nbStates (par <$> sites)
    /\ value_ fthis = VEigen (row_vector (scale <$> sites))
    /\ heap s !! fc = Some fcl
    /\ value_ fcl = VEigen (mkMatrix nbStates (cond <$> sites)).

Lemma arrays_hold_lookup s s' f fc nbStates sites :
  heap s' !! f = heap s !! f -> heap s' !! fc = heap s !! fc ->
  arrays_hold s f fc nbStates sites -> arrays_hold s' f fc nbStates sites.
Proof.
  intros Hf Hfc (fthis & fcl & ? & ? & ? & ? & ? & ? & ? & ?).
  exists fthis, fcl. by rewrite Hf, Hfc.
Qed.

(** Construction of another node changes nothing of it. *)
Lemma arrays_hold_built name s (F : Node R) f fc nbStates sites :
  arrays_hold s f fc nbStates sites ->
  arrays_hold (built name s F).2 f fc nbStates sites.
Proof.
  intros Hf. eapply arrays_hold_lookup; [..|exact Hf]; apply built_lookup_old;
    destruct Hf as (fthis & fcl & Hfl & _ & _ & _ & _ & _ & Hcl & _);
    by eapply lookup_lt_Some.
Qed.

Lemma arrays_hold_valid_at s f fc nbStates sites :
  arrays_hold s f fc nbStates sites -> valid_at s f.
Proof. intros (fthis & _ & ? & _ & ? & _). by exists fthis. Qed.

Lemma arrays_hold_type_at s f fc nbStates sites :
  arrays_hold s f fc nbStates sites -> type_at s f t.
Proof. intros (fthis & _ & Hf & Ht & _). unfold type_at. by rewrite Hf, <- Ht. Qed.

(** Once built and evaluated, a node holds the arrays written, and the
    nodes of before hold what they held. *)
Lemma arrays_hold_evaluated name (F : Node R) nbStates sites s :
  node_type F = t ->
  arrays_hold
    (evaluated name F nbStates (par <$> sites) (cond <$> sites) (scale <$> sites) s)
    (owner s) (owned_ref s) nbStates sites.
Proof.
  intros HF. eexists _, _.
  split_and!; [apply lookup_evaluated_owner|done..|apply lookup_evaluated_ref|done].
Qed.

Lemma arrays_hold_kept name (F : Node R) n pars conds scales s f fc nbStates sites :
  arrays_hold s f fc nbStates sites ->
  arrays_hold (evaluated name F n pars conds scales s) f fc nbStates sites.
Proof.
  intros Hf. eapply arrays_hold_lookup; [..|exact Hf]; apply lookup_evaluated_old;
    destruct Hf as (fthis & fcl & Hfl & _ & _ & _ & _ & _ & Hcl & _);
    by eapply lookup_lt_Some.
Qed.

Lemma arrays_hold_valid s f fc nbStates sites :
  arrays_hold s f fc nbStates sites -> f < length (heap s).
Proof. intros (fthis & _ & Hf & _). by eapply lookup_lt_Some. Qed.

(** Another node reads the sites back. *)
Lemma dependencyArrays_run this i s f fc nbStates sites :
  (forall site, mk (par site) (cond site) (scale site) = site) ->
  valueTypeOf t = TRowVectorXd ->
  dependencyNodes_ this !! i = Some (Some f) -> arrays_hold s f fc nbStates sites ->
  dependencyArrays mk t this i s = (Ok sites, s).
Proof.
  intros Hmk Ht Hi (fthis & fcl & Hf & Tf & _ & Hfc & Hpar & Hval & Hfcl & Hcond).
  unfold dependencyArrays, bind.
  rewrite (dependencyAs_run _ _ i f fthis) by (done || by rewrite Tf).
  rewrite (dereference_Some _ _ _ Hf). unfold throw_unless.
  rewrite bool_decide_eq_true_2, Hfc by done. cbn [from_option_exc ret].
  unfold CondLikelihood.getCondLikelihood. rewrite (accessValueConst_run _ _ _ Hfcl).
  rewrite Hpar, Hval, Hcond. unfold value_coefficients. simpl.
  by rewrite coefficients_row_vector, read_arrays_written.
Qed.

End Arrays.

(** The forward node holds its sites, the node of the first derivatives
    their derivatives. *)
Abbreviation forward_holds :=
  (arrays_hold T_ForwardHmmLikelihood_DF site_parCondLik site_condLik site_scale).

Abbreviation derivative_holds :=
  (arrays_hold T_ForwardHmmDLikelihood_DF dsite_parCondLik dsite_condLik dsite_scale).

Lemma hmm_holds_evaluated {R} `{EqDecision R, Inhabited R} name (F : Node R) n pars conds
    scales (s : Store R) a b c va vb vc :
  hmm_holds s a b c va vb vc ->
  hmm_holds (evaluated name F n pars conds scales s) a b c va vb vc.
Proof. intros (Ha & Hb & Hc). split_and!; by apply holds_evaluated. Qed.

Lemma mkSite_eta {R} (site : Site R) :
  mkSite (site_parCondLik site) (site_condLik site) (site_scale site) = site.
Proof. by destruct site. Qed.

Lemma mkDSite_eta {R} (dsite : DSite R) :
  mkDSite (dsite_parCondLik dsite) (dsite_condLik dsite) (dsite_scale dsite) = dsite.
Proof. by destruct dsite. Qed.

(** ** Evaluation of a node of the derivatives *)

Section DerivativeValue.
Context {R : Type} `{EqDecision R, Inhabited R, Arith R} (other : Compute R).
Implicit Types (s : Store R) (this : Node R) (self c e t m f fc de dt dm : NodeId)
  (ve vt vm vde vdt vdm : Value R) (sites : list (Site R)) (nbStates : nat).

(** [compute] on evaluated dependencies: the recursion of the derivatives
    over the sites the forward node holds. *)
Lemma ForwardD_compute_run self this e t m f fc de dt dm c nbStates sites
    vt vm vde vdt vdm s :
  heap s !! self = Some this ->
  dependencyNodes_ this
  = [Some e; Some t; Some m; Some f; Some de; Some dt; Some dm] ->
  holds s t TMatrixXd vt -> holds s m TMatrixXd vm ->
  forward_holds s f fc nbStates sites -> hmm_holds s de dt dm vde vdt vdm ->
  condLik_ this = Some c -> type_at s c T_CondLikelihood ->
  final (ForwardHmmDLikelihood_DF.compute self) s
  = derivative_written self c (rows (targetDimension_ this))
      (forwardD (value_matrix vt) (value_matrix vdt) sites (value_coefficients vde)
         (value_matrix vm) (value_matrix vdm)) s.
Proof.
  intros Hthis Hdeps (nt & Hnt & Tt & _ & <-) (nm & Hnm & Tm & _ & <-) Hf
    ((nde & Hnde & Tde & _ & <-) & (ndt & Hndt & Tdt & _ & <-)
     & (ndm & Hndm & Tdm & _ & <-)) Hc Hcl.
  unfold ForwardHmmDLikelihood_DF.compute, final, bind.
  rewrite (dereference_Some _ _ _ Hthis).
  rewrite (dependencyValueConstCast_run _ _ 1 t nt),
    (dependencyValueConstCast_run _ _ 2 m nm) by (done || by rewrite Hdeps).
  rewrite (dependencyArrays_run T_ForwardHmmLikelihood_DF mkSite _ _ _ this 3 s f fc nbStates
             sites mkSite_eta eq_refl)
    by (done || by rewrite Hdeps).
  rewrite (dependencyValueConstCast_run _ _ 4 de nde),
    (dependencyValueConstCast_run _ _ 5 dt ndt),
    (dependencyValueConstCast_run _ _ 6 dm ndm), Hc by (done || by rewrite Hdeps).
  simpl. unfold type_at in Hcl. destruct (heap s !! c) as [cl|] eqn:Hcl'; [|done].
  injection Hcl as Hcl. rewrite (dereference_Some _ _ _ Hcl'). unfold throw_unless.
  by rewrite bool_decide_eq_true_2.
Qed.

(** [getTargetValue] on a node of the derivatives that is not evaluated
    and whose dependencies are: the recursion runs, and the value is the
    row of the derivatives of the normalisation constants. *)
Lemma ForwardD_getTargetValue self this e t m f fc de dt dm c nbStates sites
    ve vt vm vde vdt vdm s :
  heap s !! self = Some this -> node_type this = T_ForwardHmmDLikelihood_DF ->
  isValid_ this = false ->
  dependencyNodes_ this
  = [Some e; Some t; Some m; Some f; Some de; Some dt; Some dm] ->
  hmm_holds s e t m ve vt vm -> forward_holds s f fc nbStates sites ->
  hmm_holds s de dt dm vde vdt vdm ->
  condLik_ this = Some c -> type_at s c T_CondLikelihood ->
  let dsites := forwardD (value_matrix vt) (value_matrix vdt) sites (value_coefficients vde)
                  (value_matrix vm) (value_matrix vdm) in
  @getTargetValue R (hmm_compute other) self s
  = (Ok (VEigen (row_vector (dsite_scale <$> dsites))),
     store_update self (set_valid true)
       (derivative_written self c (rows (targetDimension_ this)) dsites s)).
Proof.
  intros Hthis Ht Hv Hdeps Hh Hf Hd Hc Hcl dsites.
  assert (c <> self) as Hne.
  { intros ->. unfold type_at in Hcl. rewrite Hthis in Hcl. simpl in Hcl. congruence. }
  unfold getTargetValue, bind, modify. simpl.
  destruct (length (heap s)) as [|fuel] eqn:HL.
  { apply lookup_lt_Some in Hthis. lia. }
  rewrite (computeRecursively_compute fuel self this) by
    (try done; rewrite Hdeps; destruct Hh as (? & ? & ?), Hd as (? & ? & ?);
     intros d Hin;
     repeat (apply elem_of_cons in Hin as [[= ->]|Hin];
             [first [by eapply holds_valid_at|by eapply arrays_hold_valid_at]|]);
     by apply elem_of_nil in Hin).
  change (@compute R (hmm_compute other) self s) with (hmm_compute other self s).
  unfold hmm_compute. rewrite Hthis. simpl. rewrite Ht.
  destruct Hh as (_ & Hht & Hhm).
  rewrite (ForwardD_compute_run self this e t m f fc de dt dm c nbStates sites
             vt vm vde vdt vdm) by done.
  unfold derivative_written.
  by rewrite (accessValueConst_run _ _ _ (lookup_arrays_written _ _ _ _ _ _ _ _ Hthis Hne)).
Qed.

#[local] Abbreviation derivative_node e t m f de dt dm dim :=
  (ForwardHmmDLikelihood_DF.construct (R:=R)
     [Some e; Some t; Some m; Some f; Some de; Some dt; Some dm] dim).

(** The store after a node of the derivatives has been built in [s] over
    a forward node that holds [sites], for a request the cache does not
    know, and evaluated. *)
Definition derivative_evaluated e t m f de dt dm dim sites vt vm vde vdt vdm s : Store R :=
  let dsites := forwardD (value_matrix vt) (value_matrix vdt) sites (value_coefficients vde)
                  (value_matrix vm) (value_matrix vdm) in
  evaluated "forwardDcondLik" (derivative_node e t m f de dt dm dim) (rows dim)
    (dsite_parCondLik <$> dsites) (dsite_condLik <$> dsites) (dsite_scale <$> dsites) s.

(** The dependencies conform to the signature of the class. *)
Lemma derivative_conforms e t m f de dt dm s ve vt vm vde vdt vdm :
  hmm_holds s e t m ve vt vm -> type_at s f T_ForwardHmmLikelihood_DF ->
  hmm_holds s de dt dm vde vdt vdm ->
  Forall2 (conforms s) ForwardHmmDLikelihood_DF.signature
    [Some e; Some t; Some m; Some f; Some de; Some dt; Some dm].
Proof.
  intros (He & Ht & Hm) Hf (Hde & Hdt & Hdm).
  repeat constructor; try by eapply holds_conforms.
  exists f. split; [done|]. unfold type_at in Hf.
  destruct (heap s !! f) as [n|]; [|done]. exists n. split; [done|]. by injection Hf.
Qed.

Lemma derivative_buildable e t m f fc de dt dm dim nbStates sites s ve vt vm vde vdt vdm :
  wf_store s -> hmm_holds s e t m ve vt vm -> forward_holds s f fc nbStates sites ->
  hmm_holds s de dt dm vde vdt vdm ->
  buildable s (derivative_node e t m f de dt dm dim).
Proof.
  intros Hwf Hh Hf Hdh. split_and!; [done| |done..].
  eapply conforms_valid_refs; [|eapply derivative_conforms; [done| |done]];
    [by repeat constructor|by eapply arrays_hold_type_at].
Qed.

(** [create], then [getTargetValue] on the node it returns, whatever the
    client does next with the node and its value. *)
Lemma derivative_value_then {A} (k : NodeId -> Value R -> M R A)
    e t m f fc de dt dm dim nbStates sites ve vt vm vde vdt vdm s :
  wf_store s -> hmm_holds s e t m ve vt vm -> forward_holds s f fc nbStates sites ->
  hmm_holds s de dt dm vde vdt vdm ->
  cache_find s (derivative_node e t m f de dt dm dim) = None ->
  let dsites := forwardD (value_matrix vt) (value_matrix vdt) sites (value_coefficients vde)
                  (value_matrix vm) (value_matrix vdm) in
  (d <- ForwardHmmDLikelihood_DF.create
          [Some e; Some t; Some m; Some f; Some de; Some dt; Some dm] dim ;;
   v <- @getTargetValue R (hmm_compute other) d ;; k d v) s
  = k (owner s) (VEigen (row_vector (dsite_scale <$> dsites)))
      (derivative_evaluated e t m f de dt dm dim sites vt vm vde vdt vdm s).
Proof.
  intros Hwf Hh Hf Hdh Hmiss dsites.
  set (F := derivative_node e t m f de dt dm dim) in *.
  unfold bind. rewrite (ForwardD_create_run _ dim s Hwf).
  2:{ eapply derivative_conforms; [done| |done]. by eapply arrays_hold_type_at. }
  fold F.
  pose proof (hmm_holds_built "forwardDcondLik" s F _ _ _ _ _ _ Hh) as Hh2.
  pose proof (hmm_holds_built "forwardDcondLik" s F _ _ _ _ _ _ Hdh) as Hdh2.
  pose proof (arrays_hold_built _ _ _ _ "forwardDcondLik" s F _ _ _ _ Hf) as Hf2.
  unfold built in *. rewrite Hmiss in *. cbn [fst snd] in *.
  by rewrite (ForwardD_getTargetValue (owner s)
                (set_condLik (Some (owned_ref s)) F) e t m f fc
                de dt dm (owned_ref s) nbStates sites ve vt vm vde vdt vdm);
    [|apply owned_lookup_owner|..
     |unfold type_at, push; cbn [heap]; by rewrite owned_lookup_ref].
Qed.

End DerivativeValue.

(** ** A forward node built and evaluated, then the node of its
       derivatives *)

Section ForwardDerivative.
Context {R : Type} `{EqDecision R, Inhabited R, FieldLaws R} (other : Compute R).
Implicit Types (s : Store R) (e t m de dt dm : NodeId) (dim : MatrixDimension)
  (ve vt vm vde vdt vdm : Value R) (hmmEq hmmTrans hmmEmis dEq dTrans dEmis : Matrix R).

#[local] Abbreviation forward_node e t m dim :=
  (ForwardHmmLikelihood_DF.construct (R:=R) [Some e; Some t; Some m] dim).

(** The forward node, evaluated, then the node of the derivatives over
    it, evaluated. *)
#[local] Abbreviation forward_derivative e t m de dt dm dim :=
  (f <- ForwardHmmLikelihood_DF.create (Cmp := hmm_compute other)
          [Some e; Some t; Some m] dim ;;
   @getTargetValue R (hmm_compute other) f ;;
   d <- ForwardHmmDLikelihood_DF.create
          [Some e; Some t; Some m; Some f; Some de; Some dt; Some dm] dim ;;
   @getTargetValue R (hmm_compute other) d).

(** Once built and evaluated, the forward node holds the sites of the
    forward recursion. *)
Lemma forward_holds_forward_evaluated e t m dim ve vt vm s :
  forward_holds (forward_evaluated e t m dim ve vt vm s) (owner s) (owned_ref s) (rows dim)
    (forward (value_coefficients ve) (value_matrix vt) (value_matrix vm)).
Proof.
  by apply (arrays_hold_evaluated T_ForwardHmmLikelihood_DF site_parCondLik site_condLik
              site_scale "forwardCondLik").
Qed.

Lemma hmm_holds_forward_evaluated e t m dim ve vt vm s a b c va vb vc :
  hmm_holds s a b c va vb vc ->
  hmm_holds (forward_evaluated e t m dim ve vt vm s) a b c va vb vc.
Proof. apply hmm_holds_evaluated. Qed.

(** Nothing in the cache is a node of the derivatives over the new
    forward node. *)
Lemma derivative_miss e t m de dt dm dim ve vt vm s :
  wf_store s -> hmm_holds s e t m ve vt vm ->
  cache_find s (forward_node e t m dim) = None ->
  cache_find (forward_evaluated e t m dim ve vt vm s)
    (ForwardHmmDLikelihood_DF.construct
       [Some e; Some t; Some m; Some (owner s); Some de; Some dt; Some dm] dim) = None.
Proof.
  intros Hwf Hh Hmiss. apply cache_find_over_forward; try done. do 3 right. left.
Qed.

(** The run of the two constructions and the two evaluations, for a
    request of a forward node the cache does not know, whatever the
    client does next. *)
Lemma forward_derivative_then {A} (k : NodeId -> NodeId -> Value R -> M R A)
    e t m de dt dm dim s ve vt vm vde vdt vdm :
  wf_store s -> hmm_holds s e t m ve vt vm -> hmm_holds s de dt dm vde vdt vdm ->
  dimension_error dim ve vt vm = None ->
  cache_find s (forward_node e t m dim) = None ->
  let sites := forward (value_coefficients ve) (value_matrix vt) (value_matrix vm) in
  let dsites := forwardD (value_matrix vt) (value_matrix vdt) sites (value_coefficients vde)
                  (value_matrix vm) (value_matrix vdm) in
  let s1 := forward_evaluated e t m dim ve vt vm s in
  (f <- ForwardHmmLikelihood_DF.create (Cmp := hmm_compute other)
          [Some e; Some t; Some m] dim ;;
   @getTargetValue R (hmm_compute other) f ;;
   d <- ForwardHmmDLikelihood_DF.create
          [Some e; Some t; Some m; Some f; Some de; Some dt; Some dm] dim ;;
   v <- @getTargetValue R (hmm_compute other) d ;; k f d v) s
  = k (owner s) (owner s1) (VEigen (row_vector (dsite_scale <$> dsites)))
      (derivative_evaluated e t m (owner s) de dt dm dim sites vt vm vde vdt vdm s1).
Proof.
  intros Hwf Hh Hdh Hd Hmiss sites dsites s1.
  rewrite (forward_evaluated_then other
             (fun f => d <- ForwardHmmDLikelihood_DF.create
                             [Some e; Some t; Some m; Some f; Some de; Some dt; Some dm]
                             dim ;;
                       v <- @getTargetValue R (hmm_compute other) d ;; k f d v)
             e t m dim s ve vt vm Hwf Hh Hd Hmiss).
  apply (derivative_value_then other (k (owner s)) e t m (owner s) (owned_ref s) de dt dm
           dim (rows dim) sites ve vt vm vde vdt vdm);
    [by apply wf_forward_evaluated|by apply hmm_holds_forward_evaluated
    |apply forward_holds_forward_evaluated|by apply hmm_holds_forward_evaluated
    |by eapply derivative_miss].
Qed.

Lemma forward_derivative_run e t m de dt dm dim s ve vt vm vde vdt vdm :
  wf_store s -> hmm_holds s e t m ve vt vm -> hmm_holds s de dt dm vde vdt vdm ->
  dimension_error dim ve vt vm = None ->
  cache_find s (forward_node e t m dim) = None ->
  outcome (forward_derivative e t m de dt dm dim) s
  = Ok (VEigen (row_vector
          (dsite_scale <$>
             forwardD (value_matrix vt) (value_matrix vdt)
               (forward (value_coefficients ve) (value_matrix vt) (value_matrix vm))
               (value_coefficients vde) (value_matrix vm) (value_matrix vdm)))).
Proof.
  intros Hwf Hh Hdh Hd Hmiss.
  pose proof (forward_derivative_then (fun _ _ v => ret v) e t m de dt dm dim s
                ve vt vm vde vdt vdm Hwf Hh Hdh Hd Hmiss) as Hrun.
  unfold outcome. unfold bind in *.
  destruct (ForwardHmmLikelihood_DF.create _ _ s) as [[f|?] s1]; [|done].
  destruct (getTargetValue f s1) as [[v|?] s2]; [|done].
  destruct (ForwardHmmDLikelihood_DF.create _ _ s2) as [[d|?] s3]; [|done].
  destruct (getTargetValue d s3) as [[v'|?] s4]; [|done]. by injection Hrun as -> _.
Qed.

(** C8. The node of the first derivatives.  A forward node is built by
    [create] on evaluated inputs of the right extents, for a request the
    cache does not know, and evaluated; a node of the derivatives is built
    over the inputs, the forward node and evaluated derivatives of the
    inputs, of the shapes of the inputs, and evaluated by
    [getTargetValue].  Its value is the row of the derivatives of the
    normalisation constants, one for each site, computed from the arrays
    the forward node keeps; when no constant is zero, the sum of the
    derivatives, each over its constant, is the derivative of the
    likelihood of the observations (the sum over all paths of hidden
    states, on the inputs paired with their derivatives) over that
    likelihood: the derivative of the logarithm of the likelihood. *)
Theorem forwardD_value_is_derivative e t m de dt dm dim s
    hmmEq hmmTrans hmmEmis dEq dTrans dEmis :
  let sites := forward (coefficients hmmEq) hmmTrans hmmEmis in
  let dscales :=
    dsite_scale <$> forwardD hmmTrans dTrans sites (coefficients dEq) hmmEmis dEmis in
  wf_store s ->
  hmm_holds s e t m (VEigen hmmEq) (VEigen hmmTrans) (VEigen hmmEmis) ->
  hmm_holds s de dt dm (VEigen dEq) (VEigen dTrans) (VEigen dEmis) ->
  dimension_error dim (VEigen hmmEq) (VEigen hmmTrans) (VEigen hmmEmis) = None ->
  wf_matrix hmmEq -> mcols hmmEq = 1 -> wf_matrix hmmTrans -> wf_matrix hmmEmis ->
  same_shape hmmEq dEq -> same_shape hmmTrans dTrans -> same_shape hmmEmis dEmis ->
  cache_find s (forward_node e t m dim) = None ->
  Forall (fun site => site_scale site <> 0%F) sites ->
  outcome (forward_derivative e t m de dt dm dim) s = Ok (VEigen (row_vector dscales))
  /\ length dscales = cols dim
  /\ sum (zip_with fdiv dscales (site_scale <$> sites))
     = (tangent (likelihood (rows dim) (dual_matrix hmmTrans dTrans)
                   (duals (coefficients hmmEq) (coefficients dEq))
                   (zip_with duals (mcolumns hmmEmis) (mcolumns dEmis)))
        / likelihood (rows dim) hmmTrans (coefficients hmmEq) (mcolumns hmmEmis))%F.
Proof.
  intros sites dscales Hwf Hh Hdh Hd Hwe Hce Hwt Hwm Hse [Hrt Hst] [_ Hsm] Hmiss Hnz.
  destruct (checked_extents _ _ _ _ Hd Hwe Hce Hwm) as (Hr & Hc & Hl & Hem & Hsites).
  split_and!.
  - by rewrite (forward_derivative_run e t m de dt dm dim s _ _ _ _ _ _ Hwf Hh Hdh Hd Hmiss).
  - unfold dscales, forwardD, sites, forward.
    rewrite length_fmap, length_forwardD_sites, length_forward_sites; [done|..];
      rewrite length_forward_sites; [done|]. symmetry. by eapply Forall2_length.
  - apply forwardD_dlog_likelihood; try done. by apply same_shape_coefficients.
Qed.

End ForwardDerivative.

(** ** The chain of two hidden states, with the derivatives of its inputs *)

Module DerivativeChain.

(** The derivatives of the three inputs of [ChainExample] with respect to
    the probability of leaving the first hidden state, as constants
    (nodes 3, 4 and 5) beside the inputs (nodes 0, 1 and 2). *)
Definition dEq : Matrix Qc := col_vector DerivativeExample.dEq.
Definition dTrans : Matrix Qc := DerivativeExample.dTrans.
Definition dEmis : Matrix Qc := mkMatrix 2 DerivativeExample.dEmis.

Definition derivative_inputs : M Qc (list NodeRef) :=
  de <- NumericConstant.create TVectorXd (VEigen dEq) ;;
  dt <- NumericConstant.create TMatrixXd (VEigen dTrans) ;;
  dm <- NumericConstant.create TMatrixXd (VEigen dEmis) ;;
  ret [Some de; Some dt; Some dm].

Definition derivative_store : Store Qc :=
  final derivative_inputs ChainExample.chain_store.

(** The forward node, evaluated, then the node of the derivatives over
    it, evaluated. *)
Definition derivative_value : M Qc (Value Qc) :=
  f <- ForwardHmmLikelihood_DF.create (Cmp := hmm_compute compute_nothing)
         [Some 0; Some 1; Some 2] (mkDim 2 3) ;;
  @getTargetValue Qc (hmm_compute compute_nothing) f ;;
  d <- ForwardHmmDLikelihood_DF.create
         [Some 0; Some 1; Some 2; Some f; Some 3; Some 4; Some 5] (mkDim 2 3) ;;
  @getTargetValue Qc (hmm_compute compute_nothing) d.

Lemma wf_derivative_store : wf_store derivative_store.
Proof.
  assert (preserves wf_store derivative_inputs) as Hp
    by (unfold derivative_inputs; solve_preserves).
  apply Hp, ChainExample.wf_chain_store.
Qed.

Lemma holds_derivative_store :
  hmm_holds derivative_store 0 1 2 (VEigen ChainExample.hmmEq)
    (VEigen ChainExample.hmmTrans) (VEigen ChainExample.hmmEmis)
  /\ hmm_holds derivative_store 3 4 5 (VEigen dEq) (VEigen dTrans) (VEigen dEmis).
Proof. split; split_and!; eexists; by split_and!. Qed.

(** The value of the node: the derivatives of the three normalisation
    constants. *)
Example derivative_value_run :
  match outcome derivative_value derivative_store with
  | Ok v => this <$> value_coefficients v
  | Err _ => []
  end = [0; -1 # 12; 33938 # 51529]%Q.
Proof. by vm_compute. Qed.

End DerivativeChain.

Lemma forwardD_value_is_derivative_witness :
  let sites := forward (coefficients ChainExample.hmmEq) ChainExample.hmmTrans
                 ChainExample.hmmEmis in
  let dscales :=
    dsite_scale <$> forwardD ChainExample.hmmTrans DerivativeChain.dTrans sites
                      (coefficients DerivativeChain.dEq) ChainExample.hmmEmis
                      DerivativeChain.dEmis in
  outcome DerivativeChain.derivative_value DerivativeChain.derivative_store
  = Ok (VEigen (row_vector dscales))
  /\ length dscales = 3
  /\ sum (zip_with fdiv dscales (site_scale <$> sites))
     = (tangent (likelihood 2 (dual_matrix ChainExample.hmmTrans DerivativeChain.dTrans)
                   (duals (coefficients ChainExample.hmmEq)
                      (coefficients DerivativeChain.dEq))
                   (zip_with duals (mcolumns ChainExample.hmmEmis)
                      (mcolumns DerivativeChain.dEmis)))
        / likelihood 2 ChainExample.hmmTrans (coefficients ChainExample.hmmEq)
            (mcolumns ChainExample.hmmEmis))%F.
Proof.
  apply (forwardD_value_is_derivative compute_nothing 0 1 2 3 4 5 (mkDim 2 3)
           DerivativeChain.derivative_store ChainExample.hmmEq ChainExample.hmmTrans
           ChainExample.hmmEmis DerivativeChain.dEq DerivativeChain.dTrans
           DerivativeChain.dEmis DerivativeChain.wf_derivative_store
           (proj1 DerivativeChain.holds_derivative_store)
           (proj2 DerivativeChain.holds_derivative_store)).
  - reflexivity.
  - repeat constructor.
  - reflexivity.
  - repeat constructor.
  - repeat constructor.
  - repeat constructor.
  - repeat constructor.
  - repeat constructor.
  - reflexivity.
  - repeat constructor; by apply Qc_nonzero.
Defined.
