(* ===== verification/HmmSecondDerivativeCompute.v ===== *)
(** * HmmSecondDerivativeCompute: evaluation of the node of the second
      derivatives

    A [ForwardHmmD2Likelihood_DF] node is built over eleven dependencies:
    the three inputs, the forward node, the first derivatives of the
    inputs, the node of the first derivatives, and the second derivatives
    of the inputs.  The file gives what its [compute] writes when the
    dependencies are evaluated ([ForwardD2_compute_run]), what
    [getTargetValue] returns on such a node ([ForwardD2_getTargetValue]),
    and composes the three constructions and the three evaluations with
    the arithmetic of [HmmSecondDerivative]: the value of the third node is
    the row of the second derivatives of the normalisation constants, from
    which, with the values of the two other nodes, the second derivative
    of the logarithm of the likelihood by enumeration of the paths is
    obtained ([forwardD2_value_is_second_derivative]).  The witness runs
    over the chain of [HmmDerivativeCompute.DerivativeChain]. *)

From Stdlib Require Import QArith Qcanon.
From stdpp Require Import base tactics numbers option list strings.
From S2P Require Import Prelude Values Numeric HmmRecursion HmmDerivative.
From S2P Require Import HmmSecondDerivative DataFlow Evaluation HmmLikelihood HmmCompute.
From S2P Require Import HmmDerivativeCompute.

(** ** Evaluation of a node of the second derivatives *)

Section SecondValue.
Context {R : Type} `{EqDecision R, Inhabited R, Arith R} (other : Compute R).
Implicit Types (s : Store R) (this : Node R)
  (self c e t m f fc de dt dm d dc d2e d2t d2m : NodeId)
  (ve vt vm vde vdt vdm vd2e vd2t vd2m : Value R) (sites : list (Site R))
  (dsites : list (DSite R)) (nbStates : nat) (dim : MatrixDimension).

(** The eleven dependencies. *)
#[local] Abbreviation second_deps e t m f de dt dm d d2e d2t d2m :=
  [Some e; Some t; Some m; Some f; Some de; Some dt; Some dm; Some d;
   Some d2e; Some d2t; Some d2m].

#[local] Abbreviation second_node e t m f de dt dm d d2e d2t d2m dim :=
  (ForwardHmmD2Likelihood_DF.construct (R:=R)
     (second_deps e t m f de dt dm d d2e d2t d2m) dim).

(** The second derivatives the node computes from the values of its
    dependencies. *)
#[local] Abbreviation second_sites vt vm vdt vdm vd2e vd2t vd2m sites dsites :=
  (forwardD2 (value_matrix vt) (value_matrix vdt) (value_matrix vd2t) sites dsites
     (value_coefficients vd2e) (value_matrix vm) (value_matrix vdm) (value_matrix vd2m)).

(** What the dependencies of the node hold: the inputs and their
    derivatives evaluated, the forward node and the node of the first
    derivatives their arrays. *)
Record second_holds s e t m f fc de dt dm d dc d2e d2t d2m
    ve vt vm vde vdt vdm vd2e vd2t vd2m nbStates sites dsites : Prop := {
  holds_inputs : hmm_holds s e t m ve vt vm;
  holds_forward : forward_holds s f fc nbStates sites;
  holds_firsts : hmm_holds s de dt dm vde vdt vdm;
  holds_derivative : derivative_holds s d dc nbStates dsites;
  holds_seconds : hmm_holds s d2e d2t d2m vd2e vd2t vd2m;
}.

(** A node of a class conforms to the expectation of that class. *)
Lemma type_at_conforms s id (t : type_info) :
  type_at s id t -> conforms s (ExpectNode t) (Some id).
Proof.
  unfold type_at. intros Ht. exists id. split; [done|].
  destruct (heap s !! id) as [n|]; [|done]. exists n. split; [done|]. by injection Ht.
Qed.

(** The dependencies conform to the signature of the class when the
    inputs are evaluated and the two nodes are of their classes,
    evaluated or not. *)
Lemma second_conforms_types s e t m f de dt dm d d2e d2t d2m
    ve vt vm vde vdt vdm vd2e vd2t vd2m :
  hmm_holds s e t m ve vt vm -> type_at s f T_ForwardHmmLikelihood_DF ->
  hmm_holds s de dt dm vde vdt vdm -> type_at s d T_ForwardHmmDLikelihood_DF ->
  hmm_holds s d2e d2t d2m vd2e vd2t vd2m ->
  Forall2 (conforms s) ForwardHmmD2Likelihood_DF.signature
    (second_deps e t m f de dt dm d d2e d2t d2m).
Proof.
  intros (? & ? & ?) Hf (? & ? & ?) Hd (? & ? & ?).
  repeat constructor; first [by eapply holds_conforms|by apply type_at_conforms].
Qed.

Section Held.
Context {s e t m f fc de dt dm d dc d2e d2t d2m}
  {ve vt vm vde vdt vdm vd2e vd2t vd2m} {nbStates sites dsites}
  (Hh : second_holds s e t m f fc de dt dm d dc d2e d2t d2m
          ve vt vm vde vdt vdm vd2e vd2t vd2m nbStates sites dsites).

(** Every dependency is evaluated. *)
Lemma second_deps_valid dep :
  Some dep ∈ second_deps e t m f de dt dm d d2e d2t d2m -> valid_at s dep.
Proof.
  destruct Hh as [(? & ? & ?) ? (? & ? & ?) ? (? & ? & ?)]. intros Hin.
  repeat (apply elem_of_cons in Hin as [[= ->]|Hin];
          [first [by eapply holds_valid_at|by eapply arrays_hold_valid_at]|]).
  by apply elem_of_nil in Hin.
Qed.

(** The dependencies conform to the signature of the class. *)
Lemma second_conforms :
  Forall2 (conforms s) ForwardHmmD2Likelihood_DF.signature
    (second_deps e t m f de dt dm d d2e d2t d2m).
Proof.
  destruct Hh as [? Hf ? Hd ?].
  eapply second_conforms_types; [done| |done| |done]; by eapply arrays_hold_type_at.
Qed.

(** The node after [compute] and the mark of validity. *)
Lemma lookup_second_written self this c n (l : list (D2Site R)) :
  heap s !! self = Some this -> c <> self ->
  heap (store_update self (set_valid true) (second_written self c n l s)) !! self
  = Some (set_valid true (set_value (VEigen (row_vector (d2site_scale <$> l))) this)).
Proof.
  intros Hthis Hne. unfold second_written. rewrite !lookup_store_update.
  repeat case_decide; try congruence. by rewrite Hthis.
Qed.

(** [compute] on evaluated dependencies: the recursion of the second
    derivatives over the sites the two other nodes hold. *)
Lemma ForwardD2_compute_run self this c :
  heap s !! self = Some this ->
  dependencyNodes_ this = second_deps e t m f de dt dm d d2e d2t d2m ->
  condLik_ this = Some c -> type_at s c T_CondLikelihood ->
  final (ForwardHmmD2Likelihood_DF.compute self) s
  = second_written self c (rows (targetDimension_ this))
      (second_sites vt vm vdt vdm vd2e vd2t vd2m sites dsites) s.
Proof.
  intros Hthis Hdeps Hc Hcl.
  destruct Hh as [(_ & (nt & Hnt & Tt & _ & <-) & (nm & Hnm & Tm & _ & <-)) Hf
                  (_ & (ndt & Hndt & Tdt & _ & <-) & (ndm & Hndm & Tdm & _ & <-)) Hd
                  ((n2e & Hn2e & T2e & _ & <-) & (n2t & Hn2t & T2t & _ & <-)
                   & (n2m & Hn2m & T2m & _ & <-))].
  unfold ForwardHmmD2Likelihood_DF.compute, final, bind.
  rewrite (dereference_Some _ _ _ Hthis).
  rewrite (dependencyValueConstCast_run _ _ 1 t nt),
    (dependencyValueConstCast_run _ _ 2 m nm) by (done || by rewrite Hdeps).
  rewrite (dependencyArrays_run T_ForwardHmmLikelihood_DF mkSite _ _ _ this 3 s f fc nbStates
             sites mkSite_eta eq_refl) by (done || by rewrite Hdeps).
  rewrite (dependencyValueConstCast_run _ _ 5 dt ndt),
    (dependencyValueConstCast_run _ _ 6 dm ndm) by (done || by rewrite Hdeps).
  rewrite (dependencyArrays_run T_ForwardHmmDLikelihood_DF mkDSite _ _ _ this 7 s d dc
             nbStates dsites mkDSite_eta eq_refl) by (done || by rewrite Hdeps).
  rewrite (dependencyValueConstCast_run _ _ 8 d2e n2e),
    (dependencyValueConstCast_run _ _ 9 d2t n2t),
    (dependencyValueConstCast_run _ _ 10 d2m n2m), Hc by (done || by rewrite Hdeps).
  simpl. unfold type_at in Hcl. destruct (heap s !! c) as [cl|] eqn:Hcl'; [|done].
  injection Hcl as Hcl. rewrite (dereference_Some _ _ _ Hcl'). unfold throw_unless.
  by rewrite bool_decide_eq_true_2.
Qed.

(** [getTargetValue] on a node of the second derivatives that is not
    evaluated and whose dependencies are: the recursion runs, and the
    value is the row of the second derivatives of the normalisation
    constants. *)
Lemma ForwardD2_getTargetValue self this c :
  heap s !! self = Some this -> node_type this = T_ForwardHmmD2Likelihood_DF ->
  isValid_ this = false ->
  dependencyNodes_ this = second_deps e t m f de dt dm d d2e d2t d2m ->
  condLik_ this = Some c -> type_at s c T_CondLikelihood ->
  outcome (@getTargetValue R (hmm_compute other) self) s
  = Ok (VEigen (row_vector
          (d2site_scale <$> second_sites vt vm vdt vdm vd2e vd2t vd2m sites dsites))).
Proof.
  intros Hthis Ht Hv Hdeps Hc Hcl.
  assert (c <> self) as Hne.
  { intros ->. unfold type_at in Hcl. rewrite Hthis in Hcl. simpl in Hcl. congruence. }
  unfold outcome, getTargetValue, bind, modify. simpl.
  destruct (length (heap s)) as [|fuel] eqn:HL.
  { apply lookup_lt_Some in Hthis. lia. }
  rewrite (computeRecursively_compute fuel self this)
    by (try done; rewrite Hdeps; apply second_deps_valid).
  change (@compute R (hmm_compute other) self s) with (hmm_compute other self s).
  unfold hmm_compute. rewrite Hthis. simpl. rewrite Ht.
  rewrite (ForwardD2_compute_run self this c) by done.
  by rewrite (accessValueConst_run _ _ _ (lookup_second_written _ _ _ _ _ Hthis Hne)).
Qed.

End Held.

(** Construction of another node changes nothing of what the dependencies
    hold. *)
Lemma second_holds_built name (F : Node R) s e t m f fc de dt dm d dc d2e d2t d2m
    ve vt vm vde vdt vdm vd2e vd2t vd2m nbStates sites dsites :
  second_holds s e t m f fc de dt dm d dc d2e d2t d2m
    ve vt vm vde vdt vdm vd2e vd2t vd2m nbStates sites dsites ->
  second_holds (built name s F).2 e t m f fc de dt dm d dc d2e d2t d2m
    ve vt vm vde vdt vdm vd2e vd2t vd2m nbStates sites dsites.
Proof.
  intros [? ? ? ? ?]. split; by first [apply hmm_holds_built|apply arrays_hold_built].
Qed.

(** [create], then [getTargetValue] on the node it returns, for a request
    the cache does not know. *)
Lemma second_value_run s e t m f fc de dt dm d dc d2e d2t d2m
    ve vt vm vde vdt vdm vd2e vd2t vd2m nbStates sites dsites dim :
  second_holds s e t m f fc de dt dm d dc d2e d2t d2m
    ve vt vm vde vdt vdm vd2e vd2t vd2m nbStates sites dsites ->
  wf_store s ->
  cache_find s (second_node e t m f de dt dm d d2e d2t d2m dim) = None ->
  outcome (n <- ForwardHmmD2Likelihood_DF.create
                  (second_deps e t m f de dt dm d d2e d2t d2m) dim ;;
           @getTargetValue R (hmm_compute other) n) s
  = Ok (VEigen (row_vector
          (d2site_scale <$> second_sites vt vm vdt vdm vd2e vd2t vd2m sites dsites))).
Proof.
  intros Hh Hwf Hmiss. unfold outcome at 1, bind.
  rewrite (ForwardD2_create_run _ dim s Hwf (second_conforms Hh)).
  set (F := second_node e t m f de dt dm d d2e d2t d2m dim) in *.
  pose proof (second_holds_built "forwardD2condLik" F _ _ _ _ _ _ _ _ _ _ _ _ _ _
                _ _ _ _ _ _ _ _ _ _ _ _ Hh) as Hh2.
  unfold built in *. rewrite Hmiss in *. cbn [fst snd] in *.
  apply (ForwardD2_getTargetValue Hh2 (owner s) (set_condLik (Some (owned_ref s)) F)
           (owned_ref s));
    [apply owned_lookup_owner|done..
    |unfold type_at, push; cbn [heap]; by rewrite owned_lookup_ref].
Qed.

End SecondValue.

(** ** The three nodes, each built over the one before and evaluated *)

Section ForwardSecond.
Context {R : Type} `{EqDecision R, Inhabited R, FieldLaws R} (other : Compute R).
Implicit Types (s : Store R) (e t m de dt dm d2e d2t d2m : NodeId) (dim : MatrixDimension)
  (ve vt vm vde vdt vdm vd2e vd2t vd2m : Value R)
  (hmmEq hmmTrans hmmEmis dEq dTrans dEmis d2Eq d2Trans d2Emis : Matrix R).

#[local] Abbreviation forward_node e t m dim :=
  (ForwardHmmLikelihood_DF.construct (R:=R) [Some e; Some t; Some m] dim).

(** The forward node, the node of the first derivatives over it and the
    node of the second derivatives over both, each evaluated. *)
#[local] Abbreviation forward_second e t m de dt dm d2e d2t d2m dim :=
  (f <- ForwardHmmLikelihood_DF.create (Cmp := hmm_compute other)
          [Some e; Some t; Some m] dim ;;
   @getTargetValue R (hmm_compute other) f ;;
   d <- ForwardHmmDLikelihood_DF.create
          [Some e; Some t; Some m; Some f; Some de; Some dt; Some dm] dim ;;
   @getTargetValue R (hmm_compute other) d ;;
   d2 <- ForwardHmmD2Likelihood_DF.create
           [Some e; Some t; Some m; Some f; Some de; Some dt; Some dm; Some d;
            Some d2e; Some d2t; Some d2m] dim ;;
   @getTargetValue R (hmm_compute other) d2).

Section Evaluated.
Context {s e t m de dt dm d2e d2t d2m dim ve vt vm vde vdt vdm vd2e vd2t vd2m}
  (Hwf : wf_store s) (Hh : hmm_holds s e t m ve vt vm)
  (Hdh : hmm_holds s de dt dm vde vdt vdm) (Hd2h : hmm_holds s d2e d2t d2m vd2e vd2t vd2m)
  (Hmiss : cache_find s (forward_node e t m dim) = None).

#[local] Abbreviation sites :=
  (forward (value_coefficients ve) (value_matrix vt) (value_matrix vm)).
#[local] Abbreviation s1 := (forward_evaluated e t m dim ve vt vm s).
#[local] Abbreviation s2 :=
  (derivative_evaluated e t m (owner s) de dt dm dim sites vt vm vde vdt vdm s1).

#[local] Abbreviation derivative_node :=
  (ForwardHmmDLikelihood_DF.construct (R:=R)
     [Some e; Some t; Some m; Some (owner s); Some de; Some dt; Some dm] dim).

Lemma derivative_node_buildable : buildable s1 derivative_node.
Proof.
  eapply derivative_buildable;
    [by apply wf_forward_evaluated|by apply hmm_holds_forward_evaluated
    |apply forward_holds_forward_evaluated|by apply hmm_holds_forward_evaluated].
Qed.

Lemma derivative_node_miss : cache_find s1 derivative_node = None.
Proof. by eapply derivative_miss. Qed.

(** Once the two first nodes are evaluated, the store is well formed and
    the dependencies of the third hold what it reads. *)
Lemma wf_derivative_evaluated : wf_store s2.
Proof.
  apply wf_evaluated; [apply derivative_node_buildable|done|apply derivative_node_miss].
Qed.

Lemma second_holds_derivative_evaluated :
  second_holds s2 e t m (owner s) (owned_ref s) de dt dm (owner s1) (owned_ref s1)
    d2e d2t d2m ve vt vm vde vdt vdm vd2e vd2t vd2m (rows dim) sites
    (forwardD (value_matrix vt) (value_matrix vdt) sites (value_coefficients vde)
       (value_matrix vm) (value_matrix vdm)).
Proof.
  split; try by apply hmm_holds_evaluated, hmm_holds_forward_evaluated.
  - apply arrays_hold_kept, forward_holds_forward_evaluated.
  - by apply (arrays_hold_evaluated T_ForwardHmmDLikelihood_DF dsite_parCondLik
                dsite_condLik dsite_scale "forwardDcondLik").
Qed.

(** Nothing in the cache is a node of the second derivatives over the
    new node of the first. *)
Lemma second_miss :
  cache_find s2
    (ForwardHmmD2Likelihood_DF.construct
       [Some e; Some t; Some m; Some (owner s); Some de; Some dt; Some dm;
        Some (owner s1); Some d2e; Some d2t; Some d2m] dim) = None.
Proof.
  apply cache_find_over_evaluated;
    [apply derivative_node_buildable|done|apply derivative_node_miss| |done..].
  do 7 right. left.
Qed.

End Evaluated.

(** The run of the three constructions and the three evaluations, for a
    request of a forward node the cache does not know. *)
Lemma forward_second_run e t m de dt dm d2e d2t d2m dim s
    ve vt vm vde vdt vdm vd2e vd2t vd2m :
  wf_store s -> hmm_holds s e t m ve vt vm -> hmm_holds s de dt dm vde vdt vdm ->
  hmm_holds s d2e d2t d2m vd2e vd2t vd2m ->
  dimension_error dim ve vt vm = None ->
  cache_find s (forward_node e t m dim) = None ->
  let sites := forward (value_coefficients ve) (value_matrix vt) (value_matrix vm) in
  let dsites := forwardD (value_matrix vt) (value_matrix vdt) sites (value_coefficients vde)
                  (value_matrix vm) (value_matrix vdm) in
  outcome (forward_second e t m de dt dm d2e d2t d2m dim) s
  = Ok (VEigen (row_vector
          (d2site_scale <$>
             forwardD2 (value_matrix vt) (value_matrix vdt) (value_matrix vd2t) sites dsites
               (value_coefficients vd2e) (value_matrix vm) (value_matrix vdm)
               (value_matrix vd2m)))).
Proof.
  intros Hwf Hh Hdh Hd2h Hd Hmiss sites dsites. unfold outcome.
  rewrite (forward_derivative_then other
             (fun f d _ =>
                d2 <- ForwardHmmD2Likelihood_DF.create
                        [Some e; Some t; Some m; Some f; Some de; Some dt; Some dm; Some d;
                         Some d2e; Some d2t; Some d2m] dim ;;
                @getTargetValue R (hmm_compute other) d2)
             e t m de dt dm dim s ve vt vm vde vdt vdm Hwf Hh Hdh Hd Hmiss).
  eapply (second_value_run other);
    [by apply second_holds_derivative_evaluated|by apply wf_derivative_evaluated
    |by apply second_miss].
Qed.

(** C9. The node of the second derivatives.  A forward node is built by
    [create] on evaluated inputs of the right extents, for a request the
    cache does not know, and evaluated; the node of the first derivatives
    is built over it and evaluated; the node of the second derivatives is
    built over the inputs, the two nodes and the evaluated first and second
    derivatives of the inputs, of the shapes of the inputs, and evaluated
    by [getTargetValue].  Its value is the row of the second derivatives
    of the normalisation constants, one for each site, computed from the
    arrays the two other nodes keep; when no constant is zero, the sum of
    the second derivatives, each over its constant, less the sum of the
    squares of the first derivatives, each over its constant, is the
    second derivative of the logarithm of the likelihood of the
    observations, the likelihood and its two derivatives being the sum
    over all paths of hidden states on the inputs joined with their
    derivatives. *)
Theorem forwardD2_value_is_second_derivative e t m de dt dm d2e d2t d2m dim s
    hmmEq hmmTrans hmmEmis dEq dTrans dEmis d2Eq d2Trans d2Emis :
  let sites := forward (coefficients hmmEq) hmmTrans hmmEmis in
  let dsites := forwardD hmmTrans dTrans sites (coefficients dEq) hmmEmis dEmis in
  let d2scales :=
    d2site_scale <$> forwardD2 hmmTrans dTrans d2Trans sites dsites (coefficients d2Eq)
                       hmmEmis dEmis d2Emis in
  let L := likelihood (rows dim) (jet_matrix hmmTrans dTrans d2Trans)
             (jets (coefficients hmmEq) (coefficients dEq) (coefficients d2Eq))
             (jet_columns (mcolumns hmmEmis) (mcolumns dEmis) (mcolumns d2Emis)) in
  wf_store s ->
  hmm_holds s e t m (VEigen hmmEq) (VEigen hmmTrans) (VEigen hmmEmis) ->
  hmm_holds s de dt dm (VEigen dEq) (VEigen dTrans) (VEigen dEmis) ->
  hmm_holds s d2e d2t d2m (VEigen d2Eq) (VEigen d2Trans) (VEigen d2Emis) ->
  dimension_error dim (VEigen hmmEq) (VEigen hmmTrans) (VEigen hmmEmis) = None ->
  wf_matrix hmmEq -> mcols hmmEq = 1 -> wf_matrix hmmTrans -> wf_matrix hmmEmis ->
  derivatives_fit hmmTrans dTrans d2Trans
    (coefficients hmmEq) (coefficients dEq) (coefficients d2Eq)
    (mcolumns hmmEmis) (mcolumns dEmis) (mcolumns d2Emis) ->
  cache_find s (forward_node e t m dim) = None ->
  Forall (fun site => site_scale site <> 0%F) sites ->
  outcome (forward_second e t m de dt dm d2e d2t d2m dim) s
  = Ok (VEigen (row_vector d2scales))
  /\ length d2scales = cols dim
  /\ (sum (zip_with fdiv d2scales (site_scale <$> sites))
      - sum ((fun q => q * q) <$> zip_with fdiv (dsite_scale <$> dsites)
                                    (site_scale <$> sites))
      = jet2 L / jet0 L - jet1 L / jet0 L * (jet1 L / jet0 L))%F.
Proof.
  intros sites dsites d2scales L Hwf Hh Hdh Hd2h Hd Hwe Hce Hwt Hwm Hfit Hmiss Hnz.
  destruct (checked_extents _ _ _ _ Hd Hwe Hce Hwm) as (Hr & Hc & Hl & Hem & Hsites).
  split_and!.
  - by rewrite (forward_second_run e t m de dt dm d2e d2t d2m dim s _ _ _ _ _ _ _ _ _
                  Hwf Hh Hdh Hd2h Hd Hmiss).
  - destruct Hfit as (_ & _ & _ & _ & Hde%Forall2_length & Hd2e%Forall2_length).
    unfold d2scales, forwardD2, dsites, forwardD, sites, forward.
    pose proof (length_forward_sites hmmTrans (coefficients hmmEq) (mcolumns hmmEmis)) as Hls.
    rewrite length_fmap, length_forwardD2_sites; rewrite ?length_forwardD_sites;
      by first [congruence|rewrite Hls].
  - by apply forwardD2_dlog2_likelihood.
Qed.

End ForwardSecond.

(** ** The chain of two hidden states, with the two derivatives of its
       inputs *)

Module SecondChain.

(** The second derivatives of the three inputs of [ChainExample] with
    respect to the probability of leaving the first hidden state are zero.
    Those of the starting vector and of the emission likelihoods are the
    constants of their first derivatives, which the cache returns (nodes 3
    and 5) in place of the nodes allocated for the requests; that of the
    transition matrix is a new constant (node 7). *)
Definition d2Eq : Matrix Qc := col_vector SecondDerivativeExample.d2Eq.
Definition d2Trans : Matrix Qc := SecondDerivativeExample.d2Trans.
Definition d2Emis : Matrix Qc := mkMatrix 2 SecondDerivativeExample.d2Emis.

Definition second_inputs : M Qc (list NodeRef) :=
  d2e <- NumericConstant.create TVectorXd (VEigen d2Eq) ;;
  d2t <- NumericConstant.create TMatrixXd (VEigen d2Trans) ;;
  d2m <- NumericConstant.create TMatrixXd (VEigen d2Emis) ;;
  ret [Some d2e; Some d2t; Some d2m].

Definition second_store : Store Qc :=
  final second_inputs DerivativeChain.derivative_store.

Example second_inputs_run :
  outcome second_inputs DerivativeChain.derivative_store = Ok [Some 3; Some 7; Some 5].
Proof. by vm_compute. Qed.

(** The three nodes, each built over the one before and evaluated. *)
Definition second_value : M Qc (Value Qc) :=
  f <- ForwardHmmLikelihood_DF.create (Cmp := hmm_compute compute_nothing)
         [Some 0; Some 1; Some 2] (mkDim 2 3) ;;
  @getTargetValue Qc (hmm_compute compute_nothing) f ;;
  d <- ForwardHmmDLikelihood_DF.create
         [Some 0; Some 1; Some 2; Some f; Some 3; Some 4; Some 5] (mkDim 2 3) ;;
  @getTargetValue Qc (hmm_compute compute_nothing) d ;;
  d2 <- ForwardHmmD2Likelihood_DF.create
          [Some 0; Some 1; Some 2; Some f; Some 3; Some 4; Some 5; Some d;
           Some 3; Some 7; Some 5] (mkDim 2 3) ;;
  @getTargetValue Qc (hmm_compute compute_nothing) d2.

Lemma wf_second_store : wf_store second_store.
Proof.
  assert (preserves wf_store second_inputs) as Hp
    by (unfold second_inputs; solve_preserves).
  apply Hp, DerivativeChain.wf_derivative_store.
Qed.

Lemma holds_second_store :
  hmm_holds second_store 0 1 2 (VEigen ChainExample.hmmEq)
    (VEigen ChainExample.hmmTrans) (VEigen ChainExample.hmmEmis)
  /\ hmm_holds second_store 3 4 5 (VEigen DerivativeChain.dEq)
       (VEigen DerivativeChain.dTrans) (VEigen DerivativeChain.dEmis)
  /\ hmm_holds second_store 3 7 5 (VEigen d2Eq) (VEigen d2Trans) (VEigen d2Emis).
Proof. split_and!; split_and!; eexists; by split_and!. Qed.

(** The value of the node: the second derivatives of the three
    normalisation constants. *)
Example second_chain_value :
  match outcome second_value second_store with
  | Ok v => this <$> value_coefficients v
  | Err _ => []
  end = [0; 0; -6912000 # 11697083]%Q.
Proof. by vm_compute. Qed.

End SecondChain.

Lemma forwardD2_value_is_second_derivative_witness :
  let sites := forward (coefficients ChainExample.hmmEq) ChainExample.hmmTrans
                 ChainExample.hmmEmis in
  let dsites := forwardD ChainExample.hmmTrans DerivativeChain.dTrans sites
                  (coefficients DerivativeChain.dEq) ChainExample.hmmEmis
                  DerivativeChain.dEmis in
  let d2scales :=
    d2site_scale <$> forwardD2 ChainExample.hmmTrans DerivativeChain.dTrans
                       SecondChain.d2Trans sites dsites (coefficients SecondChain.d2Eq)
                       ChainExample.hmmEmis DerivativeChain.dEmis SecondChain.d2Emis in
  let L := likelihood 2
             (jet_matrix ChainExample.hmmTrans DerivativeChain.dTrans SecondChain.d2Trans)
             (jets (coefficients ChainExample.hmmEq) (coefficients DerivativeChain.dEq)
                (coefficients SecondChain.d2Eq))
             (jet_columns (mcolumns ChainExample.hmmEmis) (mcolumns DerivativeChain.dEmis)
                (mcolumns SecondChain.d2Emis)) in
  outcome SecondChain.second_value SecondChain.second_store
  = Ok (VEigen (row_vector d2scales))
  /\ length d2scales = 3
  /\ (sum (zip_with fdiv d2scales (site_scale <$> sites))
      - sum ((fun q => q * q) <$> zip_with fdiv (dsite_scale <$> dsites)
                                    (site_scale <$> sites))
      = jet2 L / jet0 L - jet1 L / jet0 L * (jet1 L / jet0 L))%F.
Proof.
  apply (forwardD2_value_is_second_derivative compute_nothing 0 1 2 3 4 5 3 7 5 (mkDim 2 3)
           SecondChain.second_store ChainExample.hmmEq ChainExample.hmmTrans
           ChainExample.hmmEmis DerivativeChain.dEq DerivativeChain.dTrans
           DerivativeChain.dEmis SecondChain.d2Eq SecondChain.d2Trans SecondChain.d2Emis
           SecondChain.wf_second_store
           (proj1 SecondChain.holds_second_store)
           (proj1 (proj2 SecondChain.holds_second_store))
           (proj2 (proj2 SecondChain.holds_second_store))).
  - reflexivity.
  - repeat constructor.
  - reflexivity.
  - repeat constructor.
  - repeat constructor.
  - repeat split; repeat constructor.
  - reflexivity.
  - repeat constructor; by apply Qc_nonzero.
Defined.
