(* ===== verification/HmmGraph.v ===== *)
(** * HmmGraph: the graph of the second derivative, evaluated on demand

    A client that wants the second derivative of the likelihood of a chain
    builds three nodes, the forward node, the node of the first
    derivatives over it and the node of the second derivatives over both,
    and asks the last one for its value.  [computeRecursively] then goes
    through the eleven dependencies of that node in their order: the
    forward node comes before the node of the first derivatives, which
    reads its arrays, and both come before [compute] runs for the node of
    the second derivatives.

    The file states this for any store in which the three nodes are wired
    as [create] wires them ([wired]), whatever has been evaluated before:
    the invariant [coherent_cone] says that a node of the three that is
    valid holds what the recursions give on the values the inputs hold
    now.  From it, [getTargetValue] on the node of the second derivatives
    returns the second derivatives for the inputs of the moment and keeps
    the invariant ([second_on_demand]).  The invariant holds after the three
    [create], where no node is valid, which gives the value of a graph that
    is built first and evaluated afterwards, by one call
    ([forwardD2_lazy_value]). *)

From Stdlib Require Import QArith Qcanon.
From stdpp Require Import base tactics numbers option list strings.
From S2P Require Import Prelude Values Numeric HmmRecursion HmmDerivative.
From S2P Require Import HmmSecondDerivative DataFlow Evaluation HmmLikelihood HmmCompute.
From S2P Require Import HmmDerivativeCompute HmmSecondDerivativeCompute.

(** ** The nodes of the graph and the values of its inputs *)

(** The nine inputs, the three nodes and the conditional-likelihood nodes
    they own, and the target dimension they were created with. *)
Record Wiring : Type := mkWiring {
  w_eq : NodeId; w_trans : NodeId; w_emis : NodeId;
  w_dEq : NodeId; w_dTrans : NodeId; w_dEmis : NodeId;
  w_d2Eq : NodeId; w_d2Trans : NodeId; w_d2Emis : NodeId;
  w_forward : NodeId; w_forwardCondLik : NodeId;
  w_first : NodeId; w_firstCondLik : NodeId;
  w_second : NodeId; w_secondCondLik : NodeId;
  w_dim : MatrixDimension;
}.

Record Inputs (R : Type) : Type := mkInputs {
  in_eq : Value R; in_trans : Value R; in_emis : Value R;
  in_dEq : Value R; in_dTrans : Value R; in_dEmis : Value R;
  in_d2Eq : Value R; in_d2Trans : Value R; in_d2Emis : Value R;
}.
Arguments mkInputs {R}.
Arguments in_eq {R}.
Arguments in_trans {R}.
Arguments in_emis {R}.
Arguments in_dEq {R}.
Arguments in_dTrans {R}.
Arguments in_dEmis {R}.
Arguments in_d2Eq {R}.
Arguments in_d2Trans {R}.
Arguments in_d2Emis {R}.

(** The dependency vectors of the three nodes. *)
Definition deps_forward (w : Wiring) : list NodeRef :=
  [Some (w_eq w); Some (w_trans w); Some (w_emis w)].

Definition deps_first (w : Wiring) : list NodeRef :=
  deps_forward w ++ [Some (w_forward w); Some (w_dEq w); Some (w_dTrans w); Some (w_dEmis w)].

Definition deps_second (w : Wiring) : list NodeRef :=
  deps_first w ++ [Some (w_first w); Some (w_d2Eq w); Some (w_d2Trans w); Some (w_d2Emis w)].

Definition inputs (w : Wiring) : list NodeId :=
  [w_eq w; w_trans w; w_emis w; w_dEq w; w_dTrans w; w_dEmis w;
   w_d2Eq w; w_d2Trans w; w_d2Emis w].

Definition cone (w : Wiring) : list NodeId :=
  [w_forward w; w_forwardCondLik w; w_first w; w_firstCondLik w;
   w_second w; w_secondCondLik w].

(** The six nodes are six objects, and none of them is an input. *)
Definition apart (w : Wiring) : Prop :=
  NoDup (cone w) /\ Forall (fun i => i ∉ cone w) (inputs w).

#[export] Instance apart_dec w : Decision (apart w).
Proof. unfold apart. apply _. Defined.

(** Membership in a list that is written out, and inclusion of such
    lists. *)
Ltac solve_elem := repeat first [by left|right].
Ltac elem_cases H :=
  repeat (apply elem_of_cons in H as [H|H]); [..|by apply elem_of_nil in H].
Ltac solve_sub :=
  let x := fresh "x" in
  let Hx := fresh "Hx" in
  intros x Hx; elem_cases Hx; subst; solve_elem.

(** The nodes of a sublist of the cone that is written out are not
    inputs, and the other nodes of the cone are not among them. *)
Lemma apart_inputs w ids :
  apart w -> ids ⊆ cone w -> Forall (fun i => i ∉ ids) (inputs w).
Proof.
  intros [_ Hin] Hsub. eapply Forall_impl; [exact Hin|].
  intros i Hi Hids. by apply Hi, Hsub.
Qed.

(** The nodes of the cone outside each of the three pairs (a node and the
    conditional-likelihood node it owns). *)
Lemma apart_others w :
  apart w ->
  Forall (fun i => i ∉ [w_forward w; w_forwardCondLik w])
    [w_first w; w_firstCondLik w; w_second w; w_secondCondLik w]
  /\ Forall (fun i => i ∉ [w_first w; w_firstCondLik w])
       [w_forward w; w_forwardCondLik w; w_second w; w_secondCondLik w]
  /\ Forall (fun i => i ∉ [w_second w; w_secondCondLik w])
       [w_forward w; w_forwardCondLik w; w_first w; w_firstCondLik w].
Proof.
  intros [Hnd _]. unfold cone in Hnd.
  repeat (apply NoDup_cons in Hnd as [? Hnd]). clear Hnd.
  repeat match goal with H : _ ∉ _ |- _ => rewrite !not_elem_of_cons in H end.
  destruct_and!. rewrite !Forall_cons, !not_elem_of_cons.
  split_and!; first [done|by apply not_eq_sym|apply not_elem_of_nil|apply Forall_nil_2].
Qed.

(** What [apart] says, one fact for each node and each pair. *)
Ltac apart_facts Ha :=
  let H1 := fresh "Hothers" in
  let H2 := fresh "Hothers" in
  let H3 := fresh "Hothers" in
  let I1 := fresh "Hinputs" in
  let I2 := fresh "Hinputs" in
  let I3 := fresh "Hinputs" in
  destruct (apart_others _ Ha) as (H1 & H2 & H3);
  pose proof (apart_inputs _ [w_forward _; w_forwardCondLik _] Ha ltac:(solve_sub)) as I1;
  pose proof (apart_inputs _ [w_first _; w_firstCondLik _] Ha ltac:(solve_sub)) as I2;
  pose proof (apart_inputs _ [w_second _; w_secondCondLik _] Ha ltac:(solve_sub)) as I3;
  rewrite !Forall_cons in H1, H2, H3; destruct_and!.

Section Graph.
Context {R : Type} `{EqDecision R, Inhabited R, Arith R}.
Implicit Types (s : Store R) (w : Wiring) (v : Inputs R) (id c : NodeId)
  (ids : list NodeId).

(** What the recursions give on the values of the inputs. *)
Definition sites_of v : list (Site R) :=
  forward (value_coefficients (in_eq v)) (value_matrix (in_trans v))
    (value_matrix (in_emis v)).

Definition dsites_of v : list (DSite R) :=
  forwardD (value_matrix (in_trans v)) (value_matrix (in_dTrans v)) (sites_of v)
    (value_coefficients (in_dEq v)) (value_matrix (in_emis v)) (value_matrix (in_dEmis v)).

Definition d2sites_of v : list (D2Site R) :=
  forwardD2 (value_matrix (in_trans v)) (value_matrix (in_dTrans v))
    (value_matrix (in_d2Trans v)) (sites_of v) (dsites_of v)
    (value_coefficients (in_d2Eq v))
    (value_matrix (in_emis v)) (value_matrix (in_dEmis v)) (value_matrix (in_d2Emis v)).

(** The value of the node of the second derivatives. *)
Definition second_value v : Value R :=
  VEigen (row_vector (d2site_scale <$> d2sites_of v)).

(** A node of class [t] over [deps] that owns [c]. *)
Definition node_at s id (t : type_info) (deps : list NodeRef) c (dim : MatrixDimension)
    : Prop :=
  exists n, heap s !! id = Some n /\ node_type n = t /\ dependencyNodes_ n = deps
            /\ condLik_ n = Some c /\ targetDimension_ n = dim.

(** The three nodes as [create] makes them. *)
Record wired s w : Prop := {
  wired_forward :
    node_at s (w_forward w) T_ForwardHmmLikelihood_DF (deps_forward w)
      (w_forwardCondLik w) (w_dim w);
  wired_first :
    node_at s (w_first w) T_ForwardHmmDLikelihood_DF (deps_first w)
      (w_firstCondLik w) (w_dim w);
  wired_second :
    node_at s (w_second w) T_ForwardHmmD2Likelihood_DF (deps_second w)
      (w_secondCondLik w) (w_dim w);
  wired_forwardCondLik : type_at s (w_forwardCondLik w) T_CondLikelihood;
  wired_firstCondLik : type_at s (w_firstCondLik w) T_CondLikelihood;
  wired_secondCondLik : type_at s (w_secondCondLik w) T_CondLikelihood;
}.

(** The inputs are evaluated and hold the values [v]. *)
Record inputs_hold s w v : Prop := {
  hold_inputs :
    hmm_holds s (w_eq w) (w_trans w) (w_emis w) (in_eq v) (in_trans v) (in_emis v);
  hold_firsts :
    hmm_holds s (w_dEq w) (w_dTrans w) (w_dEmis w) (in_dEq v) (in_dTrans v) (in_dEmis v);
  hold_seconds :
    hmm_holds s (w_d2Eq w) (w_d2Trans w) (w_d2Emis w)
      (in_d2Eq v) (in_d2Trans v) (in_d2Emis v);
}.

(** A node of the three that is valid holds what the recursions give on
    the values of the inputs. *)
Record coherent_cone s w v : Prop := {
  coherent_forward :
    valid_at s (w_forward w) ->
    forward_holds s (w_forward w) (w_forwardCondLik w) (rows (w_dim w)) (sites_of v);
  coherent_first :
    valid_at s (w_first w) ->
    derivative_holds s (w_first w) (w_firstCondLik w) (rows (w_dim w)) (dsites_of v);
  coherent_second :
    valid_at s (w_second w) -> holds s (w_second w) TRowVectorXd (second_value v);
}.

(** ** Stores that differ at some nodes only *)

Definition off ids s s' : Prop := forall i, i ∉ ids -> heap s' !! i = heap s !! i.

Lemma off_refl ids s : off ids s s.
Proof. by intros i _. Qed.

Lemma off_weaken ids ids' s s' : ids ⊆ ids' -> off ids s s' -> off ids' s s'.
Proof. intros Hsub Hoff i Hi. apply Hoff. intros Hin. by apply Hi, Hsub. Qed.

Lemma off_trans ids s1 s2 s3 : off ids s1 s2 -> off ids s2 s3 -> off ids s1 s3.
Proof. intros H12 H23 i Hi. by rewrite H23, H12. Qed.

Lemma off_arrays_written self c n pars conds scales s :
  off [self; c] s
    (store_update self (set_valid true) (arrays_written self c n pars conds scales s)).
Proof.
  intros i Hi. apply lookup_arrays_written_other; intros ->; apply Hi; solve_elem.
Qed.

Lemma off_second_written self c n (l : list (D2Site R)) s :
  off [self; c] s (store_update self (set_valid true) (second_written self c n l s)).
Proof.
  intros i Hi. unfold second_written. rewrite !lookup_store_update.
  repeat case_decide; try done; subst; exfalso; apply Hi; solve_elem.
Qed.

Section Off.
Context {ids s s'} (Hoff : off ids s s').

Lemma holds_off d T x : d ∉ ids -> holds s d T x -> holds s' d T x.
Proof. intros Hd. apply holds_lookup. by apply Hoff. Qed.

Lemma hmm_holds_off a b c va vb vc :
  a ∉ ids -> b ∉ ids -> c ∉ ids ->
  hmm_holds s a b c va vb vc -> hmm_holds s' a b c va vb vc.
Proof. intros Ha Hb Hc (? & ? & ?). split_and!; by apply holds_off. Qed.

Lemma valid_at_off d : d ∉ ids -> valid_at s' d -> valid_at s d.
Proof. intros Hd. unfold valid_at. by rewrite (Hoff d Hd). Qed.

Lemma arrays_hold_off {S} t (par cond : S -> list R) (scale : S -> R) f fc n sites :
  f ∉ ids -> fc ∉ ids ->
  arrays_hold t par cond scale s f fc n sites ->
  arrays_hold t par cond scale s' f fc n sites.
Proof. intros Hf Hfc. apply arrays_hold_lookup; by apply Hoff. Qed.

End Off.

(** ** What evaluation keeps *)

Lemma node_at_frame s s' id t deps c dim :
  frame s s' -> node_at s id t deps c dim -> node_at s' id t deps c dim.
Proof.
  intros (_ & _ & Hf) (n & Hn & Ht & Hd & Hc & Hdim).
  destruct (Hf _ _ Hn) as (n' & Hn' & [Hk Hdim'] & Hc'). exists n'.
  split_and!; [done|by rewrite (node_key_type _ _ Hk)|by rewrite (node_key_deps _ _ Hk)
              |congruence..].
Qed.

Lemma wired_frame s s' w : frame s s' -> wired s w -> wired s' w.
Proof.
  intros Hf [? ? ? ? ? ?].
  split; by first [eapply node_at_frame|eapply type_at_frame].
Qed.

(** ** One node evaluated *)

Section Stages.
Context (other : Compute R).
#[local] Abbreviation evaluate_node fuel id s :=
  (@computeRecursively R (hmm_compute other) fuel id s).

(** A node that owns [c], once a recursion has written its arrays, holds
    them. *)
Lemma arrays_hold_written {S} t (par cond : S -> list R) (scale : S -> R)
    self this c n sites s :
  heap s !! self = Some this -> node_type this = t -> condLik_ this = Some c ->
  type_at s c T_CondLikelihood -> t <> T_CondLikelihood ->
  arrays_hold t par cond scale
    (store_update self (set_valid true)
       (arrays_written self c n (par <$> sites) (cond <$> sites) (scale <$> sites) s))
    self c n sites.
Proof.
  intros Hthis Ht Hc Hcl Hty. unfold type_at in Hcl.
  destruct (heap s !! c) as [cl|] eqn:Hcl'; [|done].
  assert (c <> self) as Hne by (intros ->; simplify_eq/=; congruence).
  eexists _, _.
  split_and!; [by apply lookup_arrays_written|done..
              |by apply lookup_arrays_written_condLik|done].
Qed.

(** The inputs of a node are evaluated. *)
Lemma inputs_valid s w v d :
  inputs_hold s w v -> d ∈ inputs w -> valid_at s d.
Proof.
  intros [(? & ? & ?) (? & ? & ?) (? & ? & ?)] Hd. unfold inputs in Hd.
  repeat (apply elem_of_cons in Hd as [->|Hd]; [by eapply holds_valid_at|]).
  by apply elem_of_nil in Hd.
Qed.

Lemma inputs_hold_off ids s s' w v :
  off ids s s' -> Forall (fun i => i ∉ ids) (inputs w) ->
  inputs_hold s w v -> inputs_hold s' w v.
Proof.
  unfold inputs. rewrite !Forall_cons. intros Hoff Hin [? ? ?]. destruct_and!.
  split; by eapply hmm_holds_off.
Qed.

(** [compute] of an invalid node over evaluated dependencies. *)
Lemma evaluate_node_compute fuel id this s s1 :
  heap s !! id = Some this -> isValid_ this = false ->
  (forall d, Some d ∈ dependencyNodes_ this -> valid_at s d) ->
  hmm_compute other id s = s1 ->
  evaluate_node (S fuel) id s = store_update id (set_valid true) s1.
Proof.
  intros Hthis Hv Hdeps <-.
  by apply (computeRecursively_compute (Compute0 := hmm_compute other) fuel id this).
Qed.

(** A node of a class that keeps arrays: left as it is when valid and
    coherent, computed otherwise. *)
Lemma stage_arrays {A} t (par cond : A -> list R) (scale : A -> R)
    fuel self c dim deps sites s :
  node_at s self t deps c dim -> type_at s c T_CondLikelihood ->
  t <> T_CondLikelihood -> isNumericConstant t = false ->
  (valid_at s self -> arrays_hold t par cond scale s self c (rows dim) sites) ->
  (forall d, Some d ∈ deps -> valid_at s d) ->
  hmm_compute other self s
  = arrays_written self c (rows dim) (par <$> sites) (cond <$> sites) (scale <$> sites) s ->
  let s' := evaluate_node (S fuel) self s in
  arrays_hold t par cond scale s' self c (rows dim) sites
  /\ frame s s' /\ off [self; c] s s'.
Proof.
  intros (this & Hthis & Ht & Hd & Hc & Hdim) Hcl Hty Hnc Hco Hdeps Hrun s'.
  destruct (isValid_ this) eqn:Hv; subst s'.
  { rewrite (computeRecursively_valid _ _ _ _ Hthis Hv).
    split_and!; [|done|apply off_refl]. apply Hco. by exists this. }
  rewrite (evaluate_node_compute fuel _ this s _ Hthis Hv) by (by rewrite ?Hd).
  split_and!; [by eapply arrays_hold_written| |apply off_arrays_written].
  etrans; [|apply frame_set_valid].
  apply (quiet_arrays_written _ _ _ _ _ _ _ t); [|done..].
  unfold type_at. by rewrite Hthis, <- Ht.
Qed.

(** The dispatch of [compute] on a node of a class. *)
Lemma node_at_type s id t deps c dim :
  node_at s id t deps c dim -> node_type <$> heap s !! id = Some t.
Proof. intros (this & -> & <- & _). done. Qed.

(** The forward node. *)
Lemma stage_forward fuel s w v :
  wired s w -> inputs_hold s w v -> coherent_cone s w v ->
  let s' := evaluate_node (S fuel) (w_forward w) s in
  forward_holds s' (w_forward w) (w_forwardCondLik w) (rows (w_dim w)) (sites_of v)
  /\ frame s s' /\ off [w_forward w; w_forwardCondLik w] s s'.
Proof.
  intros Hw Hin Hco.
  apply (stage_arrays _ _ _ _ fuel _ _ _ (deps_forward w));
    [apply (wired_forward _ _ Hw)|apply (wired_forwardCondLik _ _ Hw)|done..
    |apply (coherent_forward _ _ _ Hco)| |].
  - intros d Hd. apply (inputs_valid s w v _ Hin).
    unfold deps_forward in Hd. elem_cases Hd; simplify_eq; unfold inputs; solve_elem.
  - destruct (wired_forward _ _ Hw) as (this & Hthis & Ht & Hd & Hc & Hdim).
    unfold hmm_compute. rewrite Hthis. simpl. rewrite Ht, <- Hdim.
    by apply (Forward_compute_run _ this (w_eq w) (w_trans w) (w_emis w) _
                (in_eq v) (in_trans v) (in_emis v));
      [..|apply (hold_inputs _ _ _ Hin)| |apply (wired_forwardCondLik _ _ Hw)].
Qed.

(** The node of the first derivatives, over a forward node that holds its
    arrays. *)
Lemma stage_first fuel s w v :
  wired s w -> inputs_hold s w v ->
  forward_holds s (w_forward w) (w_forwardCondLik w) (rows (w_dim w)) (sites_of v) ->
  (valid_at s (w_first w) ->
   derivative_holds s (w_first w) (w_firstCondLik w) (rows (w_dim w)) (dsites_of v)) ->
  let s' := evaluate_node (S fuel) (w_first w) s in
  derivative_holds s' (w_first w) (w_firstCondLik w) (rows (w_dim w)) (dsites_of v)
  /\ frame s s' /\ off [w_first w; w_firstCondLik w] s s'.
Proof.
  intros Hw Hin Hf Hco.
  apply (stage_arrays _ _ _ _ fuel _ _ _ (deps_first w));
    [apply (wired_first _ _ Hw)|apply (wired_firstCondLik _ _ Hw)|done..| |].
  - intros d Hd. unfold deps_first, deps_forward in Hd. simpl in Hd.
    elem_cases Hd; simplify_eq;
      first [by eapply arrays_hold_valid_at
            |apply (inputs_valid s w v _ Hin); unfold inputs; solve_elem].
  - destruct (wired_first _ _ Hw) as (this & Hthis & Ht & Hd & Hc & Hdim).
    destruct (hold_inputs _ _ _ Hin) as (_ & Ht' & Hm').
    unfold hmm_compute. rewrite Hthis. simpl. rewrite Ht, <- Hdim.
    by apply (ForwardD_compute_run _ this (w_eq w) (w_trans w) (w_emis w) (w_forward w)
                (w_forwardCondLik w) (w_dEq w) (w_dTrans w) (w_dEmis w)
                (w_firstCondLik w) (rows (w_dim w)) (sites_of v) (in_trans v) (in_emis v) (in_dEq v) (in_dTrans v) (in_dEmis v));
      [..|apply (hold_firsts _ _ _ Hin)| |apply (wired_firstCondLik _ _ Hw)].
Qed.

(** ** The dependencies of the node of the second derivatives *)

Lemma deps_second_eq w :
  deps_second w
  = [Some (w_eq w); Some (w_trans w); Some (w_emis w); Some (w_forward w);
     Some (w_dEq w); Some (w_dTrans w); Some (w_dEmis w); Some (w_first w);
     Some (w_d2Eq w); Some (w_d2Trans w); Some (w_d2Emis w)].
Proof. reflexivity. Qed.

Lemma computeDependencies_cons fuel d deps s :
  @computeDependencies R (hmm_compute other) fuel (Some d :: deps) s
  = @computeDependencies R (hmm_compute other) fuel deps (evaluate_node fuel d s).
Proof. reflexivity. Qed.

(** A dependency that is evaluated is passed over. *)
Lemma computeDependencies_valid fuel d deps s :
  valid_at s d ->
  @computeDependencies R (hmm_compute other) fuel (Some d :: deps) s
  = @computeDependencies R (hmm_compute other) fuel deps s.
Proof.
  intros (n & Hn & Hv). rewrite computeDependencies_cons.
  by rewrite (computeRecursively_valid _ _ _ _ Hn Hv).
Qed.

(** The dependencies in their order: the inputs are evaluated already,
    the forward node is evaluated before the node of the first
    derivatives, which reads its arrays. *)
Lemma dependencies_evaluated fuel s w v :
  wired s w -> apart w -> inputs_hold s w v -> coherent_cone s w v ->
  let s2 := @computeDependencies R (hmm_compute other) (S fuel) (deps_second w) s in
  frame s s2
  /\ off [w_forward w; w_forwardCondLik w; w_first w; w_firstCondLik w] s s2
  /\ forward_holds s2 (w_forward w) (w_forwardCondLik w) (rows (w_dim w)) (sites_of v)
  /\ derivative_holds s2 (w_first w) (w_firstCondLik w) (rows (w_dim w)) (dsites_of v).
Proof.
  intros Hw Ha Hin Hco. apart_facts Ha.
  destruct (stage_forward fuel s w v Hw Hin Hco) as (Hf1 & Hfr1 & Hoff1).
  set (s1 := evaluate_node (S fuel) (w_forward w) s) in *.
  assert (inputs_hold s1 w v) as Hin1 by (by eapply inputs_hold_off).
  destruct (stage_first fuel s1 w v) as (Hd2 & Hfr2 & Hoff2);
    [by eapply wired_frame|done..| |].
  { intros Hv. eapply arrays_hold_off; [exact Hoff1|done..|].
    apply (coherent_first _ _ _ Hco). by eapply valid_at_off. }
  set (s2 := evaluate_node (S fuel) (w_first w) s1) in *.
  assert (inputs_hold s2 w v) as Hin2 by (by eapply inputs_hold_off).
  assert (@computeDependencies R (hmm_compute other) (S fuel) (deps_second w) s = s2) as ->.
  { rewrite deps_second_eq.
    rewrite 3!computeDependencies_valid, computeDependencies_cons,
      3!computeDependencies_valid, computeDependencies_cons, 3!computeDependencies_valid;
      first [done|eapply inputs_valid; [eassumption|unfold inputs; solve_elem]]. }
  split_and!; [by etrans| |by eapply arrays_hold_off|done].
  eapply off_trans; (eapply off_weaken; [|eassumption]); solve_sub.
Qed.

(** ** The node of the second derivatives *)

(** What [compute] of the node of the second derivatives leaves. *)
Lemma second_written_holds self this c n (l : list (D2Site R)) s :
  heap s !! self = Some this -> node_type this = T_ForwardHmmD2Likelihood_DF ->
  type_at s c T_CondLikelihood ->
  let s' := store_update self (set_valid true) (second_written self c n l s) in
  frame s s' /\ holds s' self TRowVectorXd (VEigen (row_vector (d2site_scale <$> l))).
Proof.
  intros Hthis Ht Hcl s'.
  assert (c <> self) as Hne.
  { intros ->. unfold type_at in Hcl. rewrite Hthis in Hcl. simpl in Hcl. congruence. }
  split.
  - etrans; [|apply frame_set_valid]. apply quiet_second_written; [|done].
    unfold type_at. by rewrite Hthis, <- Ht.
  - eexists. split; [by apply lookup_second_written|]. simpl. by rewrite Ht.
Qed.

(** What the [compute] of the node reads. *)
Lemma second_holds_of s w v :
  inputs_hold s w v ->
  forward_holds s (w_forward w) (w_forwardCondLik w) (rows (w_dim w)) (sites_of v) ->
  derivative_holds s (w_first w) (w_firstCondLik w) (rows (w_dim w)) (dsites_of v) ->
  second_holds s (w_eq w) (w_trans w) (w_emis w) (w_forward w) (w_forwardCondLik w)
    (w_dEq w) (w_dTrans w) (w_dEmis w) (w_first w) (w_firstCondLik w)
    (w_d2Eq w) (w_d2Trans w) (w_d2Emis w)
    (in_eq v) (in_trans v) (in_emis v) (in_dEq v) (in_dTrans v) (in_dEmis v)
    (in_d2Eq v) (in_d2Trans v) (in_d2Emis v) (rows (w_dim w)) (sites_of v) (dsites_of v).
Proof. intros [? ? ?] ? ?. by split. Qed.

(** [computeRecursively] on the node of the second derivatives, when it is
    not valid: the dependencies in their order, then the recursion. *)
Lemma evaluate_second fuel s w v this :
  wired s w -> apart w -> inputs_hold s w v -> coherent_cone s w v ->
  heap s !! w_second w = Some this -> isValid_ this = false ->
  let s' := evaluate_node (S (S fuel)) (w_second w) s in
  frame s s' /\ inputs_hold s' w v
  /\ forward_holds s' (w_forward w) (w_forwardCondLik w) (rows (w_dim w)) (sites_of v)
  /\ derivative_holds s' (w_first w) (w_firstCondLik w) (rows (w_dim w)) (dsites_of v)
  /\ holds s' (w_second w) TRowVectorXd (second_value v).
Proof.
  intros Hw Ha Hin Hco Hthis Hv s'. subst s'.
  destruct (wired_second _ _ Hw) as (this' & Hthis' & Ht & Hd & Hc & Hdim).
  assert (this' = this) as -> by congruence.
  rewrite (computeRecursively_S (Cmp := hmm_compute other) _ _ this) by done. rewrite Hd.
  destruct (dependencies_evaluated fuel s w v Hw Ha Hin Hco) as (Hfr & Hoff & Hf & Hd1).
  set (s2 := computeDependencies (S fuel) (deps_second w) s) in *.
  apart_facts Ha.
  assert (inputs_hold s2 w v) as Hin2.
  { eapply inputs_hold_off; [exact Hoff| |done]. by apply apart_inputs; [|solve_sub]. }
  assert (heap s2 !! w_second w = Some this) as Hthis2.
  { rewrite Hoff; [done|]. rewrite !not_elem_of_cons in *. by destruct_and!. }
  pose proof (wired_frame _ _ _ Hfr Hw) as Hw2.
  assert (hmm_compute other (w_second w) s2
          = second_written (w_second w) (w_secondCondLik w) (rows (w_dim w))
              (d2sites_of v) s2) as Hrun.
  { unfold hmm_compute. rewrite Hthis2. simpl. rewrite Ht, <- Hdim.
    by apply (ForwardD2_compute_run (second_holds_of s2 w v Hin2 Hf Hd1) _ this
                (w_secondCondLik w)); [..|apply (wired_secondCondLik _ _ Hw2)]. }
  change (compute (w_second w) s2) with (hmm_compute other (w_second w) s2).
  rewrite Hrun.
  destruct (second_written_holds (w_second w) this (w_secondCondLik w) (rows (w_dim w))
              (d2sites_of v) s2 Hthis2 Ht (wired_secondCondLik _ _ Hw2)) as (Hfr3 & Hval).
  pose proof (off_second_written (w_second w) (w_secondCondLik w) (rows (w_dim w))
                (d2sites_of v) s2) as Hoff3.
  split_and!; [by etrans|by eapply inputs_hold_off; [exact Hoff3|..]
              |by eapply arrays_hold_off; [exact Hoff3|..]..|exact Hval].
Qed.

(** [getTargetValue] on the node of the second derivatives when it is not
    valid: the three nodes are evaluated, in their order, as far as they
    were not, and hold their arrays afterwards. *)
Lemma second_computed s w v :
  wired s w -> apart w -> inputs_hold s w v -> coherent_cone s w v ->
  ~ valid_at s (w_second w) ->
  let s' := final (@getTargetValue R (hmm_compute other) (w_second w)) s in
  outcome (@getTargetValue R (hmm_compute other) (w_second w)) s = Ok (second_value v)
  /\ frame s s' /\ inputs_hold s' w v
  /\ forward_holds s' (w_forward w) (w_forwardCondLik w) (rows (w_dim w)) (sites_of v)
  /\ derivative_holds s' (w_first w) (w_firstCondLik w) (rows (w_dim w)) (dsites_of v)
  /\ holds s' (w_second w) TRowVectorXd (second_value v).
Proof.
  intros Hw Ha Hin Hco Hnv s'. subst s'.
  destruct (wired_second _ _ Hw) as (this & Hthis & _).
  destruct (wired_forward _ _ Hw) as (fthis & Hfthis & _).
  assert (isValid_ this = false) as Hv.
  { destruct (isValid_ this) eqn:Hv; [|done]. destruct Hnv. by exists this. }
  assert (w_forward w <> w_second w) as Hne.
  { apart_facts Ha. rewrite !not_elem_of_cons in *. by destruct_and!. }
  destruct (length (heap s)) as [|[|fuel]] eqn:HL;
    [apply lookup_lt_Some in Hthis; lia
    |apply lookup_lt_Some in Hthis, Hfthis; lia|].
  destruct (evaluate_second fuel s w v this Hw Ha Hin Hco Hthis Hv)
    as (Hfr & Hin' & Hf' & Hd' & Hval).
  rewrite getTargetValue_final, HL. unfold outcome, getTargetValue, bind, modify. simpl.
  rewrite HL. set (s' := evaluate_node (S (S fuel)) (w_second w) s) in *.
  pose proof Hval as (n & Hn & Hty & Hvn & Hvalue).
  rewrite (accessValueConst_run _ _ _ Hn). simpl. split_and!; [congruence|done..].
Qed.

(** [getTargetValue] on the node of the second derivatives, in any store
    in which what is valid is coherent: the value is that of the inputs of
    the moment, and what is valid afterwards is coherent. *)
Lemma second_on_demand s w v :
  wired s w -> apart w -> inputs_hold s w v -> coherent_cone s w v ->
  let s' := final (@getTargetValue R (hmm_compute other) (w_second w)) s in
  outcome (@getTargetValue R (hmm_compute other) (w_second w)) s = Ok (second_value v)
  /\ frame s s' /\ inputs_hold s' w v /\ coherent_cone s' w v
  /\ valid_at s' (w_second w).
Proof.
  intros Hw Ha Hin Hco s'. subst s'.
  destruct (wired_second _ _ Hw) as (this & Hthis & _).
  destruct (isValid_ this) eqn:Hv.
  { unfold outcome, final. rewrite (getTargetValue_valid _ _ _ Hthis Hv). simpl.
    destruct (coherent_second _ _ _ Hco) as (n & Hn & _ & _ & Hval); [by exists this|].
    split_and!; [congruence|done..|by exists this]. }
  destruct (second_computed s w v Hw Ha Hin Hco) as (Hrun & Hfr & Hin' & Hf & Hd & Hval).
  { intros (n & Hn & Hvn). congruence. }
  split_and!; [done..|by split|by eapply holds_valid_at].
Qed.

End Stages.

End Graph.

(** ** The graph as the three [create] leave it *)

Section Built.
Context {R : Type} `{EqDecision R, Inhabited R, Arith R}.
Implicit Types (s : Store R) (F : Node R) (name : string) (id : NodeId).

Lemma built_miss name s F :
  cache_find s F = None -> built name s F = (Ok (owner s), (built name s F).2).
Proof. intros Hmiss. unfold built. by rewrite Hmiss. Qed.

Lemma built_pushed name s F :
  cache_find s F = None -> (built name s F).2 = push (owned name s F) (owner s).
Proof. intros Hmiss. unfold built. by rewrite Hmiss. Qed.

Lemma heap_built name s F : heap (built name s F).2 = heap (owned name s F).
Proof. unfold built. by destruct (cache_find s F). Qed.

(** The new node and the conditional-likelihood node it owns. *)
Lemma node_at_built name s F :
  node_at (built name s F).2 (owner s) (node_type F) (dependencyNodes_ F)
    (owned_ref s) (targetDimension_ F).
Proof. eexists. rewrite heap_built. split; [apply owned_lookup_owner|done]. Qed.

Lemma type_at_built_ref name s F :
  type_at (built name s F).2 (owned_ref s) T_CondLikelihood.
Proof. unfold type_at. by rewrite heap_built, owned_lookup_ref. Qed.

Lemma invalid_built name s F :
  isValid_ F = false -> ~ valid_at (built name s F).2 (owner s).
Proof.
  intros HF (n & Hn & Hv). rewrite heap_built, owned_lookup_owner in Hn.
  injection Hn as <-. simpl in Hv. congruence.
Qed.

(** The nodes of before. *)
Lemma node_at_built_old name s F id t deps c dim :
  node_at s id t deps c dim -> node_at (built name s F).2 id t deps c dim.
Proof.
  intros (n & Hn & ?). exists n. split; [|done].
  rewrite built_lookup_old; [done|by eapply lookup_lt_Some].
Qed.

Lemma type_at_built_old name s F id t :
  type_at s id t -> type_at (built name s F).2 id t.
Proof.
  unfold type_at. intros Ht. rewrite built_lookup_old; [done|].
  destruct (heap s !! id) eqn:E; [by eapply lookup_lt_Some|done].
Qed.

Lemma valid_at_built_old name s F id :
  id < length (heap s) -> valid_at (built name s F).2 id -> valid_at s id.
Proof. intros Hid. unfold valid_at. by rewrite built_lookup_old. Qed.

End Built.

Section BuiltGraph.
Context {R : Type} `{EqDecision R, Inhabited R, Arith R} (other : Compute R).
Context (s : Store R) (e t m de dt dm d2e d2t d2m : NodeId) (dim : MatrixDimension)
  (v : Inputs R).

#[local] Abbreviation forward_node :=
  (ForwardHmmLikelihood_DF.construct (R:=R) [Some e; Some t; Some m] dim).

(** The store after the forward node has been created. *)
Definition built_forward : Store R := (built "forwardCondLik" s forward_node).2.

#[local] Abbreviation first_node :=
  (ForwardHmmDLikelihood_DF.construct (R:=R)
     [Some e; Some t; Some m; Some (owner s); Some de; Some dt; Some dm] dim).

(** The store after the node of the first derivatives has been created
    over it. *)
Definition built_first : Store R := (built "forwardDcondLik" built_forward first_node).2.

#[local] Abbreviation second_node :=
  (ForwardHmmD2Likelihood_DF.construct (R:=R)
     [Some e; Some t; Some m; Some (owner s); Some de; Some dt; Some dm;
      Some (owner built_forward); Some d2e; Some d2t; Some d2m] dim).

(** The store after the node of the second derivatives has been created
    over both. *)
Definition built_second : Store R := (built "forwardD2condLik" built_first second_node).2.

(** The nodes of the graph: a [create] allocates the node, the name of
    its conditional-likelihood node and that node, in this order. *)
Definition built_wiring : Wiring :=
  mkWiring e t m de dt dm d2e d2t d2m (owner s) (owned_ref s)
    (owner built_forward) (owned_ref built_forward)
    (owner built_first) (owned_ref built_first) dim.

(** The three [create], then [getTargetValue] on the last node. *)
Definition lazy_second : M R (Value R) :=
  f <- ForwardHmmLikelihood_DF.create (Cmp := hmm_compute other)
         [Some e; Some t; Some m] dim ;;
  d <- ForwardHmmDLikelihood_DF.create
         [Some e; Some t; Some m; Some f; Some de; Some dt; Some dm] dim ;;
  d2 <- ForwardHmmD2Likelihood_DF.create
          [Some e; Some t; Some m; Some f; Some de; Some dt; Some dm; Some d;
           Some d2e; Some d2t; Some d2m] dim ;;
  @getTargetValue R (hmm_compute other) d2.

Context (Hwf : wf_store s)
  (Hh : hmm_holds s e t m (in_eq v) (in_trans v) (in_emis v))
  (Hdh : hmm_holds s de dt dm (in_dEq v) (in_dTrans v) (in_dEmis v))
  (Hd2h : hmm_holds s d2e d2t d2m (in_d2Eq v) (in_d2Trans v) (in_d2Emis v))
  (Hmiss : cache_find s forward_node = None).

Lemma forward_node_buildable : buildable s forward_node.
Proof. split_and!; [done|by eapply hmm_holds_valid|done..]. Qed.

Lemma wf_built_forward : wf_store built_forward.
Proof. apply wf_built, forward_node_buildable. Qed.

Lemma first_conforms :
  Forall2 (conforms built_forward) ForwardHmmDLikelihood_DF.signature
    (dependencyNodes_ first_node).
Proof.
  eapply derivative_conforms; [by apply hmm_holds_built| |by apply hmm_holds_built].
  apply (node_at_type _ _ _ _ _ _ (node_at_built "forwardCondLik" s forward_node)).
Qed.

Lemma first_node_buildable : buildable built_forward first_node.
Proof.
  split_and!; [apply wf_built_forward| |done..].
  eapply conforms_valid_refs; [|apply first_conforms]. by repeat constructor.
Qed.

Lemma first_node_miss : cache_find built_forward first_node = None.
Proof.
  apply (cache_find_over_framed "forwardCondLik" forward_node s);
    [apply forward_node_buildable|done| | |done..].
  - unfold built_forward. by rewrite built_pushed.
  - simpl. solve_elem.
Qed.

Lemma wf_built_first : wf_store built_first.
Proof. apply wf_built, first_node_buildable. Qed.

Lemma second_node_conforms :
  Forall2 (conforms built_first) ForwardHmmD2Likelihood_DF.signature
    (dependencyNodes_ second_node).
Proof.
  eapply second_conforms_types;
    [by do 2 apply hmm_holds_built| |by do 2 apply hmm_holds_built|
    |by do 2 apply hmm_holds_built].
  - apply type_at_built_old.
    apply (node_at_type _ _ _ _ _ _ (node_at_built "forwardCondLik" s forward_node)).
  - apply (node_at_type _ _ _ _ _ _
             (node_at_built "forwardDcondLik" built_forward first_node)).
Qed.

Lemma second_node_buildable : buildable built_first second_node.
Proof.
  split_and!; [apply wf_built_first| |done..].
  eapply conforms_valid_refs; [|apply second_node_conforms]. by repeat constructor.
Qed.

Lemma second_node_miss : cache_find built_first second_node = None.
Proof.
  apply (cache_find_over_framed "forwardDcondLik" first_node built_forward);
    [apply first_node_buildable|apply first_node_miss| | |done..].
  - unfold built_first. by rewrite (built_pushed _ _ _ first_node_miss).
  - simpl. solve_elem.
Qed.

(** The graph of the three nodes, none of them evaluated. *)
Lemma wired_built : wired built_second built_wiring.
Proof.
  split.
  - do 2 apply node_at_built_old. apply (node_at_built "forwardCondLik" s forward_node).
  - apply node_at_built_old. apply (node_at_built "forwardDcondLik" built_forward first_node).
  - apply (node_at_built "forwardD2condLik" built_first second_node).
  - do 2 apply type_at_built_old. apply type_at_built_ref.
  - apply type_at_built_old. apply type_at_built_ref.
  - apply type_at_built_ref.
Qed.

Lemma apart_built : apart built_wiring.
Proof.
  destruct Hh as (He%holds_valid & Ht%holds_valid & Hm%holds_valid).
  destruct Hdh as (Hde%holds_valid & Hdt%holds_valid & Hdm%holds_valid).
  destruct Hd2h as (Hd2e%holds_valid & Hd2t%holds_valid & Hd2m%holds_valid).
  unfold apart, cone, inputs, built_wiring, owner, owned_ref, built_first, built_forward.
  simpl. rewrite !length_built. split.
  - repeat (apply NoDup_cons; split; [rewrite ?not_elem_of_cons; split_and?;
                                      first [lia|apply not_elem_of_nil]|]).
    apply NoDup_nil_2.
  - repeat (apply Forall_cons; split; [rewrite ?not_elem_of_cons; split_and?;
                                       first [lia|apply not_elem_of_nil]|]).
    apply Forall_nil_2.
Qed.

Lemma inputs_hold_built : inputs_hold built_second built_wiring v.
Proof. split; simpl; by do 3 apply hmm_holds_built. Qed.

Lemma coherent_built : coherent_cone built_second built_wiring v.
Proof.
  split; simpl; intros Hv; exfalso; unfold built_second, built_first in Hv.
  - apply (invalid_built "forwardCondLik" s forward_node); [done|].
    by do 2 (apply valid_at_built_old in Hv;
             [|unfold built_forward; rewrite ?length_built; unfold owner; lia]).
  - apply (invalid_built "forwardDcondLik" built_forward first_node); [done|].
    by apply valid_at_built_old in Hv; [|rewrite length_built; unfold owner; lia].
  - by apply (invalid_built "forwardD2condLik" built_first second_node).
Qed.

Lemma coherent_built_invalid : ~ valid_at built_second (owner built_first).
Proof. by apply (invalid_built "forwardD2condLik" built_first second_node). Qed.

(** The three [create] return the node of the second derivatives that has
    just been made. *)
Lemma creates_run {A} (k : NodeId -> M R A) :
  dimension_error dim (in_eq v) (in_trans v) (in_emis v) = None ->
  (f <- ForwardHmmLikelihood_DF.create (Cmp := hmm_compute other)
          [Some e; Some t; Some m] dim ;;
   d <- ForwardHmmDLikelihood_DF.create
          [Some e; Some t; Some m; Some f; Some de; Some dt; Some dm] dim ;;
   d2 <- ForwardHmmD2Likelihood_DF.create
           [Some e; Some t; Some m; Some f; Some de; Some dt; Some dm; Some d;
            Some d2e; Some d2t; Some d2m] dim ;;
   k d2) s
  = k (owner built_first) built_second.
Proof.
  intros Hd. unfold bind at 1.
  rewrite (Forward_create_run e t m dim s _ _ _ Hwf Hh), Hd, (built_miss _ _ _ Hmiss).
  fold built_forward. unfold bind at 1.
  rewrite (ForwardD_create_run _ dim _ wf_built_forward first_conforms),
    (built_miss _ _ _ first_node_miss).
  fold built_first. unfold bind at 1.
  by rewrite (ForwardD2_create_run _ dim _ wf_built_first second_node_conforms),
    (built_miss _ _ _ second_node_miss).
Qed.

Lemma wf_built_second : wf_store built_second.
Proof. apply wf_built, second_node_buildable. Qed.

(** The objects of before are as they were. *)
Lemma built_second_old id :
  id < length (heap s) -> heap built_second !! id = heap s !! id.
Proof.
  intros Hid. unfold built_second, built_first, built_forward.
  rewrite !built_lookup_old; [done|rewrite ?length_built; lia..].
Qed.

Lemma lazy_second_eq :
  dimension_error dim (in_eq v) (in_trans v) (in_emis v) = None ->
  lazy_second s = @getTargetValue R (hmm_compute other) (owner built_first) built_second.
Proof. intros Hd. unfold lazy_second. by rewrite (creates_run _ Hd). Qed.

(** The inputs are objects of before. *)
Lemma inputs_old id : id ∈ inputs built_wiring -> id < length (heap s).
Proof.
  destruct Hh as (? & ? & ?), Hdh as (? & ? & ?), Hd2h as (? & ? & ?).
  intros Hid. unfold inputs in Hid. simpl in Hid.
  elem_cases Hid; subst; by eapply holds_valid.
Qed.


End BuiltGraph.

(** ** The chain of two hidden states, built and then evaluated *)

Module LazyChain.

(** The values of the inputs of [SecondChain]. *)
Definition values : Inputs Qc :=
  mkInputs (VEigen ChainExample.hmmEq) (VEigen ChainExample.hmmTrans)
    (VEigen ChainExample.hmmEmis)
    (VEigen DerivativeChain.dEq) (VEigen DerivativeChain.dTrans)
    (VEigen DerivativeChain.dEmis)
    (VEigen SecondChain.d2Eq) (VEigen SecondChain.d2Trans) (VEigen SecondChain.d2Emis).

(** The three nodes over the inputs 0, 1, 2, the first derivatives 3, 4, 5
    and the second derivatives 3, 7, 5; the last one evaluated. *)
Definition lazy_value : M Qc (Value Qc) :=
  lazy_second compute_nothing 0 1 2 3 4 5 3 7 5 (mkDim 2 3).

(** The nodes: the store has nine objects; the forward node is node 9,
    the node of the first derivatives node 12, the node of the second
    derivatives node 15. *)
Example lazy_wiring :
  built_wiring SecondChain.second_store 0 1 2 3 4 5 3 7 5 (mkDim 2 3)
  = mkWiring 0 1 2 3 4 5 3 7 5 9 11 12 14 15 17 (mkDim 2 3).
Proof. by vm_compute. Qed.

(** One evaluation gives the second derivatives of the three
    normalisation constants, and has evaluated the two other nodes. *)
Example lazy_value_run :
  match outcome lazy_value SecondChain.second_store with
  | Ok x => this <$> value_coefficients x
  | Err _ => []
  end = [0; 0; -6912000 # 11697083]%Q
  /\ (isValid_ <$> heap (final lazy_value SecondChain.second_store) !! 9) = Some true
  /\ (isValid_ <$> heap (final lazy_value SecondChain.second_store) !! 12) = Some true.
Proof. by vm_compute. Qed.

End LazyChain.

