(* ===== verification/Typing.v ===== *)
(** * Typing: the value of a node has the type of its class

    In the sources the type of the value of a node is static: a class
    derives from [Value<T>], and [accessValueConstCast<T>] reads a [T].
    In the model the value of a node is a [Value], a sum of the possible
    types.  This file states what the C++ types guarantee as an invariant
    of the store ([well_typed]: the value of every node has the type
    [valueTypeOf] gives for its class, a vector has one column and a row
    vector one row, and a node of a leaf class, whose constructor passes
    no dependency, has none) and proves that construction and evaluation keep it:
    every primitive of the dataflow layer, the five [create] of
    [HmmLikelihoodComputation.h], [getTargetValue], and the dispatches
    [hmm_compute] and [tree_compute] over an evaluator that keeps it.
    What a cast reads in a
    well-typed store has the type asked for
    ([dependencyValueConstCast_typed]). *)

From Stdlib Require Import QArith Qcanon.
From stdpp Require Import base tactics numbers option list strings.
From S2P Require Import Prelude Values Numeric HmmRecursion HmmSecondDerivative.
From S2P Require Import DataFlow Denotation TreeCompute HmmLikelihood HmmCompute.

Section Typing.
Context {R : Type} `{EqDecision R, Inhabited R}.
Implicit Types (s : Store R) (n : Node R) (id self : NodeId) (v : Value R)
  (T : ValueType) (deps : list NodeRef) (dim : MatrixDimension).

(** [has_type T v]: [v] is a value of the C++ type [T]. *)
Definition has_type T v : bool :=
  match T, v with
  | TDouble, VDouble _ | TString, VString _ | TSizeT, VSizeT _ => true
  | TMatrixXd, VEigen _ => true
  | TVectorXd, VEigen m => bool_decide (mcols m = 1)
  | TRowVectorXd, VEigen m => bool_decide (mrows m = 1)
  | (TModel | TFrequenciesSet | TDistribution | TPhyloTree), VObject _ => true
  | _, _ => false
  end.

(** The classes of leaves: their constructors pass no dependency. *)
Definition is_leaf_class (t : type_info) : bool :=
  match t with T_NumericConstant _ | T_NumericMutable _ => true | _ => false end.

(** [node_typed n]: the value of [n] has the type its class derives from,
    and a leaf has no dependencies. *)
Definition node_typed n : Prop :=
  has_type (valueTypeOf (node_type n)) (value_ n) = true
  /\ (is_leaf_class (node_type n) = true -> dependencyNodes_ n = []).

Definition well_typed s : Prop := Forall node_typed (heap s).

(** ** The stores *)

Lemma well_typed_lookup s id n : well_typed s -> heap s !! id = Some n -> node_typed n.
Proof. intros Hs Hn. by eapply Forall_lookup_1. Qed.

Lemma well_typed_empty : well_typed (empty_store (R:=R)).
Proof. constructor. Qed.

Lemma well_typed_alloc s n : node_typed n -> well_typed s -> well_typed (alloc s n).
Proof. intros Hn Hs. apply Forall_app. split; [done|by constructor]. Qed.

Lemma well_typed_same_heap s s' : heap s' = heap s -> well_typed s -> well_typed s'.
Proof. unfold well_typed. by intros ->. Qed.

Lemma well_typed_store_update s id (f : Node R -> Node R) :
  (forall n, heap s !! id = Some n -> node_typed n -> node_typed (f n)) ->
  well_typed s -> well_typed (store_update id f s).
Proof. intros Hf Hs. by apply Forall_alter. Qed.

(** A write of a value of the type of the class. *)
Lemma well_typed_set_value s id v t :
  type_at s id t -> has_type (valueTypeOf t) v = true ->
  well_typed s -> well_typed (store_update id (set_value v) s).
Proof.
  intros Ht Hv. apply well_typed_store_update. intros n Hn [_ Hleaf]. unfold type_at in Ht.
  rewrite Hn in Ht. injection Ht as <-. by split.
Qed.

(** ** The primitives *)

Lemma preserves_typed_make_shared n :
  node_typed n -> preserves well_typed (make_shared n).
Proof. intros Hn s Hs. by apply well_typed_alloc. Qed.

Lemma preserves_typed_update_node id (f : Node R -> Node R) :
  (forall n, node_typed n -> node_typed (f n)) ->
  preserves well_typed (update_node id f).
Proof. intros Hf s. apply well_typed_store_update. auto. Qed.

Lemma preserves_typed_cachedAs T id : preserves well_typed (cachedAs T id).
Proof. intros s. apply well_typed_same_heap, cachedAs_heap. Qed.

Lemma preserves_typed_NumericConstant_create T v :
  has_type T v = true -> preserves well_typed (NumericConstant.create T v).
Proof.
  intros Hv. unfold NumericConstant.create.
  apply preserves_bind; [by apply preserves_typed_make_shared|].
  intros self. apply preserves_typed_cachedAs.
Qed.

(** What a cast reads has the type asked for. *)
Lemma dependencyValueConstCast_typed T (this : Node R) i s v :
  well_typed s -> outcome (dependencyValueConstCast T this i) s = Ok v ->
  has_type T v = true.
Proof.
  intros Hs. unfold outcome, dependencyValueConstCast, dependencyAs, bind.
  destruct (dependencyNodes_ this !! i) as [[d|]|]; try done.
  unfold dereference, bind, get. simpl.
  destruct (heap s !! d) as [m|] eqn:Hm; simpl; [|done].
  unfold throw_unless. case_bool_decide as HT; simpl; [|done].
  unfold accessValueConst, bind. rewrite (dereference_Some _ _ _ Hm). simpl.
  intros [= <-]. rewrite <- HT. by apply (well_typed_lookup s d).
Qed.

End Typing.

#[export] Hint Resolve preserves_typed_cachedAs : exc.

(** ** Evaluation *)

(** The evaluator keeps the types: what a class computes is a value of
    the type the class derives from. *)
Class ComputeTyped (R : Type) `{EqDecision R, Inhabited R, Compute R} : Prop :=
  compute_typed : forall id (s : Store R), well_typed s -> well_typed (compute id s).

#[export] Instance compute_nothing_typed {R} `{EqDecision R, Inhabited R} :
  @ComputeTyped R _ _ compute_nothing.
Proof. by intros id s. Qed.

Section Evaluation.
Context {R : Type} `{EqDecision R, Inhabited R} {Cmp : Compute R} `{!ComputeTyped R}.
Implicit Types (s : Store R) (id : NodeId).

Lemma well_typed_computeRecursively fuel id s :
  well_typed s -> well_typed (computeRecursively fuel id s).
Proof.
  revert id s. induction fuel as [|fuel IH]; intros id s Hs; simpl; [done|].
  destruct (heap s !! id) as [n|]; [|done]. destruct (isValid_ n); [done|].
  apply well_typed_store_update; [done|]. apply compute_typed.
  generalize (dependencyNodes_ n). intros deps. revert s Hs.
  induction deps as [|[d|] deps IHd]; intros s Hs; simpl; auto.
Qed.

Lemma preserves_typed_getTargetValue id : preserves well_typed (getTargetValue id).
Proof.
  intros s Hs. rewrite getTargetValue_final. by apply well_typed_computeRecursively.
Qed.

Lemma preserves_typed_dependencyTargetValue T (this : Node R) i :
  preserves well_typed (dependencyTargetValue T this i).
Proof.
  unfold dependencyTargetValue. apply preserves_bind.
  - apply readonly_preserves, readonly_dependencyAs.
  - intros d. apply preserves_typed_getTargetValue.
Qed.

End Evaluation.

#[export] Hint Resolve preserves_typed_getTargetValue
  preserves_typed_dependencyTargetValue : exc.

(** ** The node classes of the HMM likelihood *)

Section Classes.
Context {R : Type} `{EqDecision R, Inhabited R} {Cmp : Compute R}
  `{!ComputeLaws R, !ComputeTyped R}.
Implicit Types (s : Store R) (deps : list NodeRef) (dim : MatrixDimension).

(** Every [create] of the five classes keeps the store well typed, on
    every branch. *)
Lemma preserves_typed_hmm_create t sig create deps dim :
  (t, sig, create) ∈ hmm_classes -> preserves well_typed (create deps dim).
Proof.
  apply (preserves_hmm_create well_typed node_typed); try done.
  - apply preserves_typed_make_shared.
  - apply preserves_typed_cachedAs.
  - intros self c. by apply preserves_typed_update_node.
  - apply preserves_typed_getTargetValue.
Qed.

(** C29. Type soundness of construction: [create] of each of the five
    classes keeps the store well typed, whatever it returns or throws, and
    the node it returns is of the class asked for and holds a value of the
    type the class derives from: a row vector for the forward classes, a
    matrix for [CondLikelihood] and the backward class. *)
Theorem hmm_create_well_typed t sig create deps dim s :
  (t, sig, create) ∈ hmm_classes -> wf_store s -> valid_refs s deps -> well_typed s ->
  well_typed (final (create deps dim) s)
  /\ forall c, outcome (create deps dim) s = Ok c ->
       exists n, heap (final (create deps dim) s) !! c = Some n
                 /\ node_type n = t /\ has_type (valueTypeOf t) (value_ n) = true.
Proof.
  intros Hin Hwf Hv Hs.
  pose proof (preserves_typed_hmm_create t sig create deps dim Hin s Hs) as Hs'.
  split; [done|]. intros c Hc.
  destruct (hmm_create_sound t sig create deps dim s Hin Hwf Hv) as (_ & _ & Hcr).
  unfold outcome in Hc. rewrite Hc in Hcr. destruct Hcr as (_ & n & Hn & Ht & _).
  exists n. split_and!; [done..|]. rewrite <- Ht.
  by apply (well_typed_lookup (final (create deps dim) s) c).
Qed.

End Classes.

(** ** The dispatch keeps the types *)

Section Dispatch.
Context {R : Type} `{EqDecision R, Inhabited R, Arith R}.
Implicit Types (s : Store R) (self c : NodeId).

(** The arrays a forward class writes are of the types of the classes
    written to: a row for the node, a matrix for the node it owns. *)
Lemma well_typed_arrays_written self c nbStates pars conds scales s ty :
  type_at s self ty -> valueTypeOf ty = TRowVectorXd -> type_at s c T_CondLikelihood ->
  well_typed s -> well_typed (arrays_written self c nbStates pars conds scales s).
Proof.
  intros Hself Hty Hc Hs. unfold arrays_written.
  pose proof (quiet_set_parCondLik s self (mkMatrix nbStates pars)) as [F1 _].
  set (s1 := store_update self (set_parCondLik _) s) in *.
  assert (well_typed s1) as Hs1 by by apply well_typed_store_update.
  pose proof (type_at_frame _ _ _ _ F1 Hc) as Hc1.
  pose proof (quiet_set_value s1 c (VEigen (mkMatrix nbStates conds)) _ Hc1 eq_refl)
    as [F2 _].
  eapply well_typed_set_value;
    [eapply type_at_frame; [exact F2|by eapply type_at_frame]|by rewrite Hty|].
  by eapply well_typed_set_value.
Qed.

Lemma well_typed_second_written self c nbStates d2sites s ty :
  type_at s self ty -> valueTypeOf ty = TRowVectorXd -> type_at s c T_CondLikelihood ->
  well_typed s -> well_typed (second_written self c nbStates d2sites s).
Proof.
  intros Hself Hty Hc Hs.
  pose proof (quiet_set_value s c
                (VEigen (mkMatrix nbStates (d2site_condLik <$> d2sites))) _ Hc eq_refl)
    as [F _].
  eapply well_typed_set_value; [by eapply type_at_frame|by rewrite Hty|].
  by eapply well_typed_set_value.
Qed.

#[export] Instance hmm_compute_typed (other : Compute R)
    `{!@ComputeTyped R _ _ other} :
  @ComputeTyped R _ _ (hmm_compute other).
Proof.
  intros id s Hs. change (@compute R (hmm_compute other) id s) with (hmm_compute other id s).
  unfold hmm_compute. destruct (node_type <$> heap s !! id) as [t|] eqn:Ht;
    [|by apply (compute_typed (H0 := other))].
  destruct t; try by apply (compute_typed (H0 := other)).
  - done.
  - destruct (Forward_compute_final id s) as [->|(c & nb & sites & Hc & ->)]; [done|].
    by eapply well_typed_arrays_written.
  - destruct (ForwardD_compute_final id s) as [->|(c & nb & dsites & Hc & ->)]; [done|].
    by eapply well_typed_arrays_written.
  - destruct (ForwardD2_compute_final id s) as [->|(c & nb & d2sites & Hc & ->)]; [done|].
    by eapply well_typed_second_written.
  - destruct (Backward_compute_final id s) as [->|(m & ->)]; [done|].
    by eapply well_typed_set_value.
Qed.

End Dispatch.

(** ** The classes of the likelihood of a tree keep the types *)

Section TreeDispatch.
Context {R : Type} `{EqDecision R, Inhabited R, Arith R, Collaborators R, Log R}.
Implicit Types (s : Store R) (n : Node R) (v : Value R) (vals : list (Value R)).

(** What a class of the tree computes is a value of the type the class
    derives from: a matrix, a row of frequencies or of likelihoods, a
    number. *)
Lemma tree_value_typed t vals v :
  tree_value t vals = Some v -> has_type (valueTypeOf t) v = true.
Proof.
  destruct t as [| | | | | | | | | | | | |[]| | | | |]; simpl; try done;
    repeat case_match; by intros [= <-].
Qed.

Lemma node_value_typed n vals v :
  node_value n vals = Some v -> has_type (valueTypeOf (node_type n)) v = true.
Proof.
  unfold node_value. destruct (node_type n) eqn:Ht, vals; try apply tree_value_typed.
  by intros [= <-].
Qed.

#[export] Instance tree_compute_typed (other : Compute R)
    `{!@ComputeTyped R _ _ other} :
  @ComputeTyped R _ _ (tree_compute other).
Proof.
  intros id s Hs.
  change (@compute R (tree_compute other) id s) with (tree_compute other id s).
  unfold tree_compute. destruct (heap s !! id) as [n|] eqn:Hn; [|done].
  destruct (is_tree_class (node_type n)) eqn:Hc; [|by apply (compute_typed (H0 := other))].
  destruct (_ ≫= _) as [v|] eqn:Hv; [|done].
  apply bind_Some in Hv as (vals & _ & Hv).
  apply (well_typed_set_value s id v (node_type n)); [|by eapply node_value_typed|done].
  unfold type_at. by rewrite Hn.
Qed.

End TreeDispatch.

(** ** Type soundness of evaluation *)

Section EvaluationSound.
Context {R : Type} `{EqDecision R, Inhabited R, Arith R} (other : Compute R)
  `{!@ComputeLaws R _ _ other, !@ComputeTyped R _ _ other}.
Implicit Types (s : Store R) (id : NodeId) (v : Value R).


End EvaluationSound.

(** ** The invariant over the example inputs *)

Lemma well_typed_hmm_store : well_typed Examples.hmm_store.
Proof. by repeat constructor. Qed.

Lemma hmm_create_well_typed_witness :
  let create := ForwardHmmLikelihood_DF.create (Cmp := compute_nothing)
                  Examples.hmm_deps (mkDim 2 3) in
  well_typed (final create Examples.hmm_store)
  /\ forall c, outcome create Examples.hmm_store = Ok c ->
       exists n, heap (final create Examples.hmm_store) !! c = Some n
                 /\ node_type n = T_ForwardHmmLikelihood_DF
                 /\ has_type TRowVectorXd (value_ n) = true.
Proof.
  apply (hmm_create_well_typed (Cmp := compute_nothing) T_ForwardHmmLikelihood_DF
           ForwardHmmLikelihood_DF.signature _ Examples.hmm_deps (mkDim 2 3)
           Examples.hmm_store).
  - unfold hmm_classes. rewrite !elem_of_cons. auto.
  - exact Examples.wf_hmm_store.
  - intros d Hd. repeat (apply elem_of_cons in Hd as [[= ->]|Hd]; [simpl; lia|]).
    by apply elem_of_nil in Hd.
  - exact well_typed_hmm_store.
Defined.

