(* ===== verification/Session.v ===== *)
(** * Session: what a client does to a graph, one operation after another

    A client of the dataflow layer holds references to nodes and does five
    things with them: it makes constants and mutable leaves, asks a class
    for a node over some dependencies ([create]), asks a node for its
    value ([getTargetValue]), and gives a mutable leaf a new value
    ([setValue]).  This file puts the operations in sequence: [step] is one
    operation on a store, [reachable] the stores a client can get to from
    the empty one, [session] the function that runs a list of operations.

    What an operation needs in order to be meaningful is what the C++ type
    system and the ownership of references give the client for free, and
    what [permitted] checks: a value has the type of the node it is given
    to, a reference points to an object, and the receiver of [setValue] is
    a [NumericMutable].

    The theorems: every reachable store is well formed, consistent (a
    valid node has valid dependencies, which is what makes the early exit
    of [invalidateRecursively] right) and well typed
    ([reachable_invariant]), by induction on the operations; and a forward
    node of a hidden Markov model that has been evaluated, given a new
    matrix of emission likelihoods and evaluated again holds the
    normalisation constants for the new matrix ([forward_reevaluated]). *)

From Stdlib Require Import QArith Qcanon.
From stdpp Require Import base tactics numbers option list strings relations.
From S2P Require Import Prelude Values Numeric HmmRecursion DataFlow Evaluation.
From S2P Require Import Invalidation HmmLikelihood HmmCompute Typing.

Section Machine.
Context {R : Type} `{EqDecision R, Inhabited R} {Cmp : Compute R}
  `{!ComputeLaws R, !ComputeTyped R}.
Implicit Types (s : Store R) (n : Node R) (id : NodeId) (v : Value R) (T : ValueType)
  (deps : list NodeRef) (dim : MatrixDimension).

(** ** Operations *)

Inductive HmmClass : Type :=
| CondLikelihoodClass
| ForwardClass
| ForwardDClass
| ForwardD2Class
| BackwardClass.

Definition class_entry (c : HmmClass)
    : type_info * list Expected * (list NodeRef -> MatrixDimension -> M R NodeId) :=
  match c with
  | CondLikelihoodClass =>
      (T_CondLikelihood, CondLikelihood.signature, CondLikelihood.create)
  | ForwardClass =>
      (T_ForwardHmmLikelihood_DF, ForwardHmmLikelihood_DF.signature,
       ForwardHmmLikelihood_DF.create)
  | ForwardDClass =>
      (T_ForwardHmmDLikelihood_DF, ForwardHmmDLikelihood_DF.signature,
       ForwardHmmDLikelihood_DF.create)
  | ForwardD2Class =>
      (T_ForwardHmmD2Likelihood_DF, ForwardHmmD2Likelihood_DF.signature,
       ForwardHmmD2Likelihood_DF.create)
  | BackwardClass =>
      (T_BackwardHmmLikelihood_DF, BackwardHmmLikelihood_DF.signature,
       BackwardHmmLikelihood_DF.create)
  end.

Inductive Operation : Type :=
(** [NumericConstant<T>::create (c, v)] *)
| NewConstant (T : ValueType) (v : Value R)
(** [NumericMutable<T>::create (c, v)] *)
| NewMutable (T : ValueType) (v : Value R)
(** [Class::create (c, deps, dim)] *)
| Create (c : HmmClass) (deps : list NodeRef) (dim : MatrixDimension)
(** [id->getTargetValue ()] *)
| Evaluate (id : NodeId)
(** [id->setValue (v)], for [id] a [NumericMutable<T>] *)
| SetValue (id : NodeId) (T : ValueType) (v : Value R).

(** The store after an operation, whether it returned or threw. *)
Definition perform (op : Operation) s : Store R :=
  match op with
  | NewConstant T v => final (NumericConstant.create T v) s
  | NewMutable T v => final (NumericMutable.create T v) s
  | Create c deps dim => final ((class_entry c).2 deps dim) s
  | Evaluate id => final (getTargetValue id) s
  | SetValue id T v => final (NumericMutable.setValue id v) s
  end.

Definition points_to s (r : NodeRef) : bool :=
  match r with Some d => bool_decide (d < length (heap s)) | None => true end.

(** What the types of the program give: values of the type of the node,
    references to objects, [setValue] on a mutable leaf. *)
Definition permitted (op : Operation) s : bool :=
  match op with
  | NewConstant T v | NewMutable T v => has_type T v
  | Create c deps dim => forallb (points_to s) deps
  | Evaluate id => bool_decide (id < length (heap s))
  | SetValue id T v =>
      has_type T v
      && bool_decide (node_type <$> heap s !! id = Some (T_NumericMutable T))
  end.

Inductive step : Store R -> Operation -> Store R -> Prop :=
| step_perform s op : permitted op s = true -> step s op (perform op s).

Inductive reachable : Store R -> Prop :=
| reachable_empty : reachable empty_store
| reachable_step s op s' : reachable s -> step s op s' -> reachable s'.

(** A list of operations, run as long as they are permitted. *)
Fixpoint session (ops : list Operation) s : option (Store R) :=
  match ops with
  | [] => Some s
  | op :: ops => if permitted op s then session ops (perform op s) else None
  end.

(** ** The invariant *)

Record invariant s : Prop := {
  inv_wf : wf_store s;
  inv_consistent : consistent s;
  inv_typed : well_typed s;
}.

Lemma class_entry_in c : class_entry c ∈ hmm_classes.
Proof. unfold hmm_classes. destruct c; simpl; rewrite !elem_of_cons; auto 10. Qed.

Lemma class_entry_eta c :
  class_entry c = ((class_entry c).1.1, (class_entry c).1.2, (class_entry c).2).
Proof. by destruct c. Qed.

Lemma points_to_valid_refs s deps :
  forallb (points_to s) deps = true -> valid_refs s deps.
Proof.
  intros Hall%Is_true_true d Hd. rewrite forallb_True in Hall.
  eapply Forall_forall in Hall; [|exact Hd]. simpl in Hall.
  by apply bool_decide_spec in Hall.
Qed.

(** A program that keeps [settled] and ends in a well-formed store keeps
    [consistent]. *)
Lemma settled_consistent {A} (m : M R A) s :
  preserves settled m -> consistent s -> wf_store (final m s) ->
  consistent (final m s).
Proof. intros Hm Hc Hwf. apply Hm; [by intros _|by apply wf_acyclic]. Qed.

Lemma preserves_settled_hmm_create t sig create deps dim :
  (t, sig, create) ∈ hmm_classes -> preserves settled (create deps dim).
Proof.
  apply (preserves_hmm_create settled fresh); try (by intros; left).
  - apply preserves_settled_make_shared.
  - apply preserves_settled_cachedAs.
  - apply preserves_settled_set_condLik.
  - apply preserves_settled_getTargetValue.
  - intros name. by right.
Qed.

Lemma well_typed_touched s s' C : touched s s' C -> well_typed s -> well_typed s'.
Proof.
  intros Ht Hs. apply Forall_lookup. intros i n' Hn'.
  destruct (touched_lookup _ _ _ _ _ Ht Hn')
    as (n & Hn & Hd & Hk & _ & _ & Hv & _).
  destruct (well_typed_lookup s i n Hs Hn) as [Hty Hleaf].
  split; rewrite (node_key_type _ _ Hk); [by rewrite Hv|by rewrite Hd].
Qed.

Lemma NewConstant_invariant T v s :
  has_type T v = true -> invariant s -> invariant (final (NumericConstant.create T v) s).
Proof.
  intros Hv [Hwf Hc Ht].
  assert (wf_store (final (NumericConstant.create T v) s)) as Hwf'
    by by apply preserves_wf_NumericConstant_create.
  split; [done| |by apply preserves_typed_NumericConstant_create].
  apply settled_consistent; [|done..]. unfold NumericConstant.create.
  apply preserves_bind; [apply preserves_settled_make_shared; by right|].
  intros self. apply preserves_settled_cachedAs.
Qed.

Lemma NewMutable_invariant T v s :
  has_type T v = true -> invariant s -> invariant (final (NumericMutable.create T v) s).
Proof.
  intros Hv [Hwf Hc Ht]. split.
  - apply wf_alloc; [done|by intros d ?%elem_of_nil|by intros c [=]].
  - apply consistent_alloc; [|done]. by intros _ d ?%elem_of_nil.
  - by apply well_typed_alloc.
Qed.

Lemma Create_invariant c deps dim s :
  valid_refs s deps -> invariant s -> invariant (final ((class_entry c).2 deps dim) s).
Proof.
  intros Hv [Hwf Hc Ht]. pose proof (class_entry_in c) as Hin.
  rewrite class_entry_eta in Hin.
  destruct (hmm_create_sound _ _ _ deps dim s Hin Hwf Hv) as (Hwf' & _).
  split; [done| |by eapply preserves_typed_hmm_create].
  apply settled_consistent; [by eapply preserves_settled_hmm_create|done..].
Qed.

Lemma Evaluate_invariant id s :
  invariant s -> invariant (final (getTargetValue id) s).
Proof.
  intros [Hwf Hc Ht]. split.
  - by apply preserves_wf_getTargetValue.
  - by apply consistent_getTargetValue; [apply wf_acyclic|].
  - by apply preserves_typed_getTargetValue.
Qed.

Lemma SetValue_invariant id T v s :
  has_type T v = true -> type_at s id (T_NumericMutable T) ->
  invariant s -> invariant (final (NumericMutable.setValue id v) s).
Proof.
  intros Hv Hty [Hwf Hc Ht]. unfold type_at in Hty.
  destruct (heap s !! id) as [n|] eqn:Hn; [|done]. injection Hty as Hty.
  destruct (well_typed_lookup s id n Ht Hn) as [_ Hleaf].
  destruct (setValue_spec id v n T s Hwf Hc Hn Hty) as (_ & Hf & Hc' & _);
    [apply Hleaf; by rewrite Hty|].
  split; [by eapply wf_frame|done|].
  unfold final. rewrite (setValue_run _ _ _ _ Hn). cbn [snd].
  pose proof (touched_invalidateRecursively (length (heap s)) id s) as Htch.
  fold (invalidate id s) in Htch.
  assert (type_at (invalidate id s) id (T_NumericMutable T)) as Hty'.
  { eapply type_at_frame; [by eapply touched_frame|]. unfold type_at.
    by rewrite Hn, <- Hty. }
  apply well_typed_store_update; [by intros m _ [??]|].
  eapply well_typed_set_value; [done..|]. by eapply well_typed_touched.
Qed.

Lemma perform_invariant op s :
  permitted op s = true -> invariant s -> invariant (perform op s).
Proof.
  destruct op as [T v|T v|c deps dim|id|id T v]; simpl; intros Hp Hs.
  - by apply NewConstant_invariant.
  - by apply NewMutable_invariant.
  - apply Create_invariant; [by apply points_to_valid_refs|done].
  - by apply Evaluate_invariant.
  - apply andb_true_iff in Hp as [Hv Hty%bool_decide_eq_true].
    by apply (SetValue_invariant id T).
Qed.

Lemma invariant_empty : invariant (empty_store (R:=R)).
Proof. split; [apply wf_empty|apply consistent_empty|apply well_typed_empty]. Qed.

Lemma session_reachable ops s s' :
  reachable s -> session ops s = Some s' -> reachable s'.
Proof.
  revert s. induction ops as [|op ops IH]; intros s Hs; simpl; [by intros [= <-]|].
  destruct (permitted op s) eqn:Hp; [|done]. apply IH.
  by eapply reachable_step; [|constructor].
Qed.

Lemma session_invariant ops s s' :
  invariant s -> session ops s = Some s' -> invariant s'.
Proof.
  revert s. induction ops as [|op ops IH]; intros s Hs; simpl; [by intros [= <-]|].
  destruct (permitted op s) eqn:Hp; [|done]. by apply IH, perform_invariant.
Qed.

(** C12. The invariant of a session.  Whatever a client does, constants
    and mutable leaves made, nodes of the five classes created (returned
    or refused with an exception), nodes evaluated, leaves given new
    values, in any order, the store stays well formed, every valid node
    has valid dependencies, and every node holds a value of the type of
    its class. *)
Theorem reachable_invariant s :
  reachable s -> wf_store s /\ consistent s /\ well_typed s.
Proof.
  intros Hs. cut (invariant s); [by intros []|].
  induction Hs as [|s op s' _ IH Hstep]; [apply invariant_empty|].
  destruct Hstep as [s op Hp]. by apply perform_invariant.
Qed.

End Machine.

(** ** An evaluated forward node, after a change of the emissions *)

Section Reevaluation.
Context {R : Type} `{EqDecision R, Inhabited R, FieldLaws R} (other : Compute R)
  `{!@ComputeLaws R _ _ other}.
Implicit Types (s : Store R) (e t m : NodeId) (dim : MatrixDimension)
  (ve vt vm : Value R) (hmmEq hmmTrans hmmEmis : Matrix R).

#[local] Abbreviation forward_node e t m dim :=
  (ForwardHmmLikelihood_DF.construct (R:=R) [Some e; Some t; Some m] dim).

(** [create], [getTargetValue], [setValue] on the emission leaf, and
    [getTargetValue] again. *)
Definition reevaluated e t m dim vm' : M R (Value R) :=
  c <- ForwardHmmLikelihood_DF.create (Cmp := hmm_compute other)
         [Some e; Some t; Some m] dim ;;
  @getTargetValue R (hmm_compute other) c ;;
  NumericMutable.setValue m vm' ;;
  @getTargetValue R (hmm_compute other) c.

Lemma consistent_forward_evaluated e t m dim ve vt vm s :
  wf_store s -> consistent s -> hmm_holds s e t m ve vt vm ->
  dimension_error dim ve vt vm = None -> cache_find s (forward_node e t m dim) = None ->
  consistent (forward_evaluated e t m dim ve vt vm s).
Proof.
  intros Hwf Hc Hh Hd Hmiss.
  pose proof (forward_evaluated_run other e t m dim s ve vt vm Hwf Hh Hd Hmiss) as Hrun.
  apply (f_equal snd) in Hrun. cbn [snd] in Hrun. rewrite <- Hrun.
  apply settled_consistent; [|done|].
  - apply preserves_bind;
      [apply (preserves_settled_hmm_create _ _ _ _ _ (class_entry_in ForwardClass))|].
    intros f. apply preserves_bind; [apply preserves_settled_getTargetValue|].
    intros _. apply preserves_ret.
  - unfold final. rewrite Hrun. by apply wf_forward_evaluated.
Qed.

(** An input that does not depend on the emission leaf holds its value
    after the node is built and evaluated and the leaf is changed. *)
Lemma holds_after_setValue e t m dim ve vt vm s d T v s' :
  wf_store s -> hmm_holds s e t m ve vt vm ->
  cache_find s (forward_node e t m dim) = None ->
  (forall i, ~ downstream (forward_evaluated e t m dim ve vt vm s) m i ->
     heap s' !! i = heap (forward_evaluated e t m dim ve vt vm s) !! i) ->
  holds s d T v -> ~ downstream s m d -> holds s' d T v.
Proof.
  intros Hwf Hh Hmiss Hout Hd Hnd. pose proof (holds_valid _ _ _ _ Hd) as Hlt.
  eapply holds_lookup; [|exact Hd].
  rewrite Hout, lookup_forward_evaluated_old; [done..|].
  intros Hdown. apply Hnd.
  eapply downstream_old; [by apply wf_forward_evaluated| |done..].
  intros j Hj. by apply lookup_forward_evaluated_old.
Qed.

(** The run of [reevaluated]: the second evaluation runs the recursion on
    the new emissions. *)
Lemma reevaluated_run e t m dim s ve vt vm vm' :
  wf_store s -> consistent s -> well_typed s ->
  hmm_holds s e t m ve vt vm -> type_at s m (T_NumericMutable TMatrixXd) ->
  ~ downstream s m e -> ~ downstream s m t ->
  dimension_error dim ve vt vm = None -> cache_find s (forward_node e t m dim) = None ->
  outcome (reevaluated e t m dim vm') s
  = Ok (VEigen (row_vector
                  (site_scale <$> forward (value_coefficients ve) (value_matrix vt)
                                    (value_matrix vm')))).
Proof.
  intros Hwf Hc Hty Hh Hmut Hne Hnt Hd Hmiss.
  unfold outcome, reevaluated.
  rewrite (forward_evaluated_then other
             (fun c => NumericMutable.setValue m vm' ;; getTargetValue c)
             e t m dim s ve vt vm) by done.
  set (s2 := forward_evaluated e t m dim ve vt vm s).
  unfold type_at in Hmut. destruct (heap s !! m) as [nm|] eqn:Hnm; [|done].
  injection Hmut as Hmut. pose proof (lookup_lt_Some _ _ _ Hnm) as Hlt.
  assert (heap s2 !! m = Some nm) as Hnm2
    by (unfold s2; by rewrite lookup_forward_evaluated_old).
  destruct (well_typed_lookup s m nm Hty Hnm) as [_ Hleaf].
  destruct (setValue_spec m vm' nm TMatrixXd s2) as (Hok & Hf & _ & Hself & Hin & Hout);
    [by apply wf_forward_evaluated|by apply consistent_forward_evaluated|done..
    |apply Hleaf; by rewrite Hmut|].
  set (s3 := final (NumericMutable.setValue m vm') s2) in *.
  unfold bind at 1.
  assert (NumericMutable.setValue m vm' s2 = (Ok tt, s3)) as ->
    by (unfold s3, final; by rewrite (setValue_run _ _ _ _ Hnm2)).
  assert (owner s <> m) as Hom by (unfold owner; lia).
  pose proof (lookup_forward_evaluated_owner e t m dim ve vt vm s) as Hown.
  fold s2 in Hown. cbv zeta in Hown.
  match type of Hown with _ = Some ?n => set (this := n) in Hown end.
  assert (heap s3 !! owner s = Some (set_valid false this)) as Hown3.
  { rewrite Hin, Hown; [done..|]. apply rtc_once. exists this. split; [done|].
    simpl. set_solver. }
  rewrite (Forward_getTargetValue other (owner s) (set_valid false this) e t m
             (owned_ref s) ve vt vm'); [done..| |done|].
  - destruct Hh as (He & Ht & Hm). split_and!.
    + by apply (holds_after_setValue e t m dim ve vt vm s e _ _ s3).
    + by apply (holds_after_setValue e t m dim ve vt vm s t _ _ s3).
    + eexists. split; [exact Hself|]. simpl. by rewrite Hmut.
  - eapply type_at_frame; [exact Hf|]. apply type_at_forward_evaluated_ref.
Qed.

(** C17. A change of the emissions reaches the likelihood.  A forward node
    is created over a starting vector, a transition matrix and a mutable
    leaf that holds the emission likelihoods, and evaluated; the client
    gives the leaf another matrix of the same extents with [setValue] and
    asks the node for its value again.  When the other two inputs do not
    depend on the leaf, the second value is the row of the normalisation
    constants of the forward recursion on the new emissions, and, when
    none is zero, their product is the likelihood of the new observations:
    the value cached by the first evaluation is not served again. *)
Theorem forward_reevaluated e t m dim s hmmEq hmmTrans hmmEmis hmmEmis' :
  let scales := site_scale <$> forward (coefficients hmmEq) hmmTrans hmmEmis' in
  wf_store s -> consistent s -> well_typed s ->
  hmm_holds s e t m (VEigen hmmEq) (VEigen hmmTrans) (VEigen hmmEmis) ->
  type_at s m (T_NumericMutable TMatrixXd) ->
  ~ downstream s m e -> ~ downstream s m t ->
  dimension_error dim (VEigen hmmEq) (VEigen hmmTrans) (VEigen hmmEmis) = None ->
  dimension_error dim (VEigen hmmEq) (VEigen hmmTrans) (VEigen hmmEmis') = None ->
  wf_matrix hmmEq -> mcols hmmEq = 1 -> wf_matrix hmmTrans -> wf_matrix hmmEmis' ->
  cache_find s (forward_node e t m dim) = None ->
  Forall (fun scale => scale <> 0%F) scales ->
  outcome (reevaluated e t m dim (VEigen hmmEmis')) s = Ok (VEigen (row_vector scales))
  /\ product scales
     = likelihood (rows dim) hmmTrans (coefficients hmmEq) (mcolumns hmmEmis').
Proof.
  intros scales Hwf Hc Hty Hh Hmut Hne Hnt Hd Hd' Hwe Hce Hwt Hwm Hmiss Hnz.
  destruct (checked_extents _ _ _ _ Hd' Hwe Hce Hwm) as (Hr & Hcl & Hl & Hem & _).
  split; [by rewrite (reevaluated_run e t m dim s _ _ _ _ Hwf Hc Hty Hh)|].
  unfold scales, forward in *. apply forward_scales; try done.
  apply Forall_forall. intros site Hsite.
  apply (proj1 (Forall_forall _ _) Hnz), list_elem_of_fmap. eauto.
Qed.

End Reevaluation.

(** ** A session over the rationals *)

Module SessionExample.
Import ChainExample.

#[local] Existing Instance compute_nothing.
#[local] Abbreviation hmm := (hmm_compute (R:=Qc) compute_nothing).

(** Other emission likelihoods for the three sites of [ChainExample]. *)
Definition hmmEmis' : Matrix Qc :=
  mkMatrix 2 [[tenths 2; tenths 7]; [tenths 4; tenths 3]; [tenths 9; tenths 1]].

(** The three inputs as mutable leaves, nodes 0, 1 and 2. *)
Definition inputs : list (@Operation Qc) :=
  [NewMutable TVectorXd (VEigen hmmEq); NewMutable TMatrixXd (VEigen hmmTrans);
   NewMutable TMatrixXd (VEigen hmmEmis)].

(** A forward node over them, node 3, evaluated, then the emissions
    changed and the node evaluated again. *)
Definition operations : list (@Operation Qc) :=
  inputs ++ [Create ForwardClass [Some 0; Some 1; Some 2] (mkDim 2 3); Evaluate 3;
             SetValue 2 TMatrixXd (VEigen hmmEmis'); Evaluate 3].

Definition after (ops : list (@Operation Qc)) : Store Qc :=
  default empty_store (session (Cmp := hmm) ops empty_store).

Lemma session_inputs : session (Cmp := hmm) inputs empty_store = Some (after inputs).
Proof. reflexivity. Qed.

Lemma session_operations :
  session (Cmp := hmm) operations empty_store = Some (after operations).
Proof.
  unfold after. by destruct (session operations empty_store) eqn:E; [|vm_compute in E].
Qed.

Lemma invariant_inputs : invariant (after inputs).
Proof.
  exact (session_invariant (Cmp := hmm) inputs _ _ invariant_empty session_inputs).
Qed.

Lemma holds_inputs :
  hmm_holds (after inputs) 0 1 2 (VEigen hmmEq) (VEigen hmmTrans) (VEigen hmmEmis).
Proof. split_and!; eexists; by split_and!. Qed.

Lemma inputs_independent d : d < 2 -> ~ downstream (after inputs) 2 d.
Proof.
  intros Hd Hdown%downstream_le; [lia|]. apply (inv_wf _ invariant_inputs).
Qed.

(** The likelihood of the observations with the new emissions. *)
Example session_likelihood :
  likelihood 2 hmmTrans (coefficients hmmEq) (mcolumns hmmEmis') = Q2Qc (751 # 10000).
Proof. apply Qc_is_canon. by vm_compute. Qed.

End SessionExample.

Lemma reachable_invariant_witness :
  wf_store (SessionExample.after SessionExample.operations)
  /\ consistent (SessionExample.after SessionExample.operations)
  /\ well_typed (SessionExample.after SessionExample.operations).
Proof.
  apply (reachable_invariant (Cmp := hmm_compute compute_nothing)).
  exact (session_reachable _ _ _ reachable_empty SessionExample.session_operations).
Defined.

Lemma forward_reevaluated_witness :
  let scales := site_scale <$> forward (coefficients ChainExample.hmmEq)
                                 ChainExample.hmmTrans SessionExample.hmmEmis' in
  outcome (reevaluated compute_nothing 0 1 2 (mkDim 2 3) (VEigen SessionExample.hmmEmis'))
    (SessionExample.after SessionExample.inputs)
  = Ok (VEigen (row_vector scales))
  /\ product scales
     = likelihood 2 ChainExample.hmmTrans (coefficients ChainExample.hmmEq)
         (mcolumns SessionExample.hmmEmis').
Proof.
  destruct SessionExample.invariant_inputs as [Hwf Hc Hty].
  apply (forward_reevaluated compute_nothing 0 1 2 (mkDim 2 3)
           (SessionExample.after SessionExample.inputs) ChainExample.hmmEq
           ChainExample.hmmTrans ChainExample.hmmEmis SessionExample.hmmEmis'
           Hwf Hc Hty SessionExample.holds_inputs).
  - reflexivity.
  - apply SessionExample.inputs_independent. lia.
  - apply SessionExample.inputs_independent. lia.
  - reflexivity.
  - reflexivity.
  - repeat constructor.
  - reflexivity.
  - repeat constructor.
  - repeat constructor.
  - reflexivity.
  - repeat constructor; by apply Qc_nonzero.
Defined.
