(* ===== verification/HmmUpdate.v ===== *)
(** * HmmUpdate: the second derivative after the inputs have changed

    A client evaluates the node of the second derivatives, gives an input
    another value with [setValue] and asks for the value again, any number
    of times.  [setValue] makes invalid what is downstream of the leaf:
    the three nodes when the leaf is an input of the forward node, the
    nodes of the derivatives only when it is the derivative of an input.
    What stays valid was computed from inputs that have not changed.

    The file proves that [setValue] keeps the invariant of [HmmGraph], with
    the value given in the place of the old one ([cone_setValue]), so that
    every evaluation of a session returns the second derivatives for the
    values the inputs hold at that moment ([second_session_values]). *)

From Stdlib Require Import QArith Qcanon.
From stdpp Require Import base tactics numbers option list strings relations.
From S2P Require Import Prelude Values Numeric HmmRecursion HmmDerivative.
From S2P Require Import HmmSecondDerivative DataFlow Evaluation Invalidation HmmLikelihood.
From S2P Require Import HmmCompute HmmDerivativeCompute HmmSecondDerivativeCompute.
From S2P Require Import HmmGraph Typing Session.

(** ** What [setValue] leaves of the other nodes *)

Section SetValueFacts.
Context {R : Type} `{EqDecision R, Inhabited R}.
Implicit Types (s : Store R) (n : Node R) (x i : NodeId) (vx : Value R) (T : ValueType).

(** A leaf a client may give a value to. *)
Definition mutable_leaf s x : Prop :=
  exists n T, heap s !! x = Some n /\ node_type n = T_NumericMutable T
              /\ dependencyNodes_ n = [].

Lemma mutable_leaf_frame s s' x : frame s s' -> mutable_leaf s x -> mutable_leaf s' x.
Proof.
  intros (_ & _ & Hf) (n & T & Hn & Ht & Hd). destruct (Hf _ _ Hn) as (n' & Hn' & [Hk _] & _).
  exists n', T.
  split_and!; [done|by rewrite (node_key_type _ _ Hk)|by rewrite (node_key_deps _ _ Hk)].
Qed.

Section Spec.
Context {s x} (vx : Value R) (Hwf : wf_store s) (Hc : consistent s)
  (Hx : mutable_leaf s x).

#[local] Abbreviation after := (final (NumericMutable.setValue x vx) s).

Lemma setValue_returns : NumericMutable.setValue x vx s = (Ok tt, after).
Proof.
  destruct Hx as (n & T & Hn & _). unfold final. by rewrite (setValue_run _ _ _ _ Hn).
Qed.

Lemma setValue_frame : frame s after /\ consistent after.
Proof.
  destruct Hx as (n & T & Hn & Ht & Hd).
  by destruct (setValue_spec x vx n T s Hwf Hc Hn Ht Hd) as (_ & ? & ? & _).
Qed.

(** The leaf holds the value given. *)
Lemma setValue_holds T' old : holds s x T' old -> holds after x T' vx.
Proof.
  destruct Hx as (n & T & Hn & Ht & Hd). intros (n' & Hn' & HT & _).
  assert (n' = n) as -> by congruence.
  destruct (setValue_spec x vx n T s Hwf Hc Hn Ht Hd) as (_ & _ & _ & Hself & _).
  eexists. split; [exact Hself|done].
Qed.

(** Another node is as it was, but for its validity. *)
Lemma setValue_lookup i :
  i <> x ->
  heap after !! i = heap s !! i \/ heap after !! i = set_valid false <$> heap s !! i.
Proof.
  intros Hi. destruct Hx as (n & T & Hn & _).
  unfold final. rewrite (setValue_run _ _ _ _ Hn). cbn [snd].
  rewrite !lookup_store_update, !decide_False by done.
  destruct (invalidate_spec x s Hwf Hc) as ([_ Ht] & _).
  destruct (Ht i) as [->|[_ ->]]; auto.
Qed.

(** A node that is valid afterwards is not downstream of the leaf, and is
    as it was. *)
Lemma setValue_valid i :
  i <> x -> valid_at after i -> heap after !! i = heap s !! i /\ ~ downstream s x i.
Proof.
  intros Hi (m & Hm & Hv). destruct Hx as (n & T & Hn & Ht & Hd).
  destruct (setValue_spec x vx n T s Hwf Hc Hn Ht Hd) as (_ & _ & _ & _ & Hin & _).
  assert (heap after !! i <> set_valid false <$> heap s !! i) as Hne.
  { rewrite Hm. destruct (heap s !! i); [|done]. simpl. intros [= ->]. done. }
  split; [by destruct (setValue_lookup i Hi)|]. intros Hdown. by apply Hne, Hin.
Qed.

(** A node that is not downstream of the leaf holds what it held. *)
Lemma setValue_holds_other i T' old :
  ~ downstream s x i -> holds s i T' old -> holds after i T' old.
Proof.
  intros Hi. apply holds_lookup. destruct Hx as (n & T & Hn & Ht & Hd).
  destruct (setValue_spec x vx n T s Hwf Hc Hn Ht Hd) as (_ & _ & _ & _ & _ & Hout).
  by apply Hout.
Qed.

(** A node over the leaf is not valid afterwards. *)
Lemma setValue_invalid i m :
  heap s !! i = Some m -> Some x ∈ dependencyNodes_ m -> ~ valid_at after i.
Proof.
  intros Hm Hd Hv.
  assert (i <> x) as Hi.
  { intros ->. destruct Hx as (n & T & Hn & _ & Hnd). simplify_eq.
    rewrite Hnd in Hd. by apply elem_of_nil in Hd. }
  destruct (setValue_valid i Hi Hv) as [_ Hnd]. apply Hnd, rtc_once. by exists m.
Qed.

End Spec.

End SetValueFacts.

(** ** The invariant of the graph after a change *)

Section Cone.
Context {R : Type} `{EqDecision R, Inhabited R, Arith R}.
Implicit Types (s : Store R) (w : Wiring) (v : Inputs R) (x i : NodeId) (vx : Value R).

(** The values of the inputs after the leaf [x] has been given [vx]: an
    input that is this leaf has the new value, in every place it takes. *)
Definition set_input w x vx v : Inputs R :=
  let pick i old := if decide (i = x) then vx else old in
  mkInputs (pick (w_eq w) (in_eq v)) (pick (w_trans w) (in_trans v))
    (pick (w_emis w) (in_emis v))
    (pick (w_dEq w) (in_dEq v)) (pick (w_dTrans w) (in_dTrans v))
    (pick (w_dEmis w) (in_dEmis v))
    (pick (w_d2Eq w) (in_d2Eq v)) (pick (w_d2Trans w) (in_d2Trans v))
    (pick (w_d2Emis w) (in_d2Emis v)).

(** No input other than the leaf depends on it. *)
Definition independent s w x : Prop :=
  Forall (fun i => i <> x -> ~ downstream s x i) (inputs w).

Lemma independent_frame s s' w x : frame s s' -> independent s w x -> independent s' w x.
Proof.
  intros Hf Hind. eapply Forall_impl; [exact Hind|]. intros i Hi Hne Hd.
  apply (Hi Hne). by apply (downstream_frame s s').
Qed.

(** An evaluated node that keeps arrays holds them when the node that
    stores one of them has only lost its validity. *)
Lemma arrays_hold_flags {A} t (par cond : A -> list R) (scale : A -> R)
    s s' f fc n sites :
  heap s' !! f = heap s !! f ->
  heap s' !! fc = heap s !! fc \/ heap s' !! fc = set_valid false <$> heap s !! fc ->
  arrays_hold t par cond scale s f fc n sites ->
  arrays_hold t par cond scale s' f fc n sites.
Proof.
  intros Hf [Hfc|Hfc]; [by apply arrays_hold_lookup|].
  intros (fthis & fcl & ? & ? & ? & ? & ? & ? & Hcl & ?).
  exists fthis, (set_valid false fcl). rewrite Hf, Hfc, Hcl. by split_and!.
Qed.

Section Change.
Context {s w v x} (vx : Value R) (Hwf : wf_store s) (Hc : consistent s)
  (Hx : mutable_leaf s x) (Hw : wired s w).

#[local] Abbreviation after := (final (NumericMutable.setValue x vx) s).

Lemma holds_set_input i T old :
  (i <> x -> ~ downstream s x i) -> holds s i T old ->
  holds after i T (if decide (i = x) then vx else old).
Proof.
  intros Hi Hold. case_decide as Hix.
  - subst. by eapply setValue_holds.
  - by apply setValue_holds_other; [..|apply Hi|].
Qed.

Lemma graph_inputs_setValue :
  independent s w x -> inputs_hold s w v -> inputs_hold after w (set_input w x vx v).
Proof.
  unfold independent, inputs. rewrite !Forall_cons.
  intros Hind [(? & ? & ?) (? & ? & ?) (? & ? & ?)]. destruct_and!.
  split; split_and!; by apply holds_set_input.
Qed.

(** A node of the graph is not the leaf. *)
Lemma node_at_not_leaf i t deps c dim :
  node_at s i t deps c dim -> (forall T, t <> T_NumericMutable T) -> i <> x.
Proof.
  intros (n & Hn & Ht & _) Hty ->. destruct Hx as (m & T & Hm & HT & _).
  simplify_eq. by apply (Hty T).
Qed.

Lemma type_at_not_leaf i t :
  type_at s i t -> (forall T, t <> T_NumericMutable T) -> i <> x.
Proof.
  unfold type_at. intros Ht Hty ->. destruct Hx as (m & T & Hm & HT & _).
  rewrite Hm in Ht. simplify_eq/=. by apply (Hty T).
Qed.

(** A node of the graph that is valid after the change was valid, is as
    it was, and the leaf is none of its dependencies. *)
Lemma node_at_valid_after i t deps c dim :
  node_at s i t deps c dim -> (forall T, t <> T_NumericMutable T) -> valid_at after i ->
  valid_at s i /\ heap after !! i = heap s !! i /\ Some x ∉ deps.
Proof.
  intros Hi Hty Hv. pose proof (node_at_not_leaf _ _ _ _ _ Hi Hty) as Hne.
  destruct (setValue_valid vx Hwf Hc Hx i Hne Hv) as [Hsame Hnd].
  destruct Hi as (n & Hn & _ & Hd & _).
  split_and!; [unfold valid_at in *; by rewrite <- Hsame|done|].
  intros Hin. apply (setValue_invalid vx Hwf Hc Hx i n Hn); [by rewrite Hd|done].
Qed.

(** What is valid after the change is coherent with the values after the
    change: it was computed from inputs that are not the leaf. *)
Lemma cone_coherent_setValue :
  coherent_cone s w v -> coherent_cone after w (set_input w x vx v).
Proof.
  intros [Hf Hd Hs].
  split; intros Hv;
    [destruct (node_at_valid_after _ _ _ _ _ (wired_forward _ _ Hw) ltac:(done) Hv)
       as (Hvs & Hsame & Hnd)
    |destruct (node_at_valid_after _ _ _ _ _ (wired_first _ _ Hw) ltac:(done) Hv)
       as (Hvs & Hsame & Hnd)
    |destruct (node_at_valid_after _ _ _ _ _ (wired_second _ _ Hw) ltac:(done) Hv)
       as (Hvs & Hsame & Hnd)];
    unfold deps_second, deps_first, deps_forward in Hnd; simpl in Hnd;
    rewrite !not_elem_of_cons in Hnd; destruct_and!.
  - replace (sites_of (set_input w x vx v)) with (sites_of v)
      by (unfold sites_of, set_input; simpl; by rewrite !decide_False by congruence).
    eapply arrays_hold_flags; [exact Hsame| |by apply Hf].
    apply (setValue_lookup vx Hwf Hc Hx).
    by apply (type_at_not_leaf _ _ (wired_forwardCondLik _ _ Hw)).
  - replace (dsites_of (set_input w x vx v)) with (dsites_of v)
      by (unfold dsites_of, sites_of, set_input; simpl;
          by rewrite !decide_False by congruence).
    eapply arrays_hold_flags; [exact Hsame| |by apply Hd].
    apply (setValue_lookup vx Hwf Hc Hx).
    by apply (type_at_not_leaf _ _ (wired_firstCondLik _ _ Hw)).
  - replace (second_value (set_input w x vx v)) with (second_value v)
      by (unfold second_value, d2sites_of, dsites_of, sites_of, set_input; simpl;
          by rewrite !decide_False by congruence).
    eapply holds_lookup; [exact Hsame|by apply Hs].
Qed.

End Change.

(** ** The invariant of a session on the graph *)

(** The store is well formed and consistent, the three nodes are wired,
    the inputs hold [v], and what is valid of the three nodes is coherent
    with [v]. *)
Record settled_graph s w v : Prop := {
  sg_wf : wf_store s;
  sg_consistent : consistent s;
  sg_wired : wired s w;
  sg_inputs : inputs_hold s w v;
  sg_coherent : coherent_cone s w v;
}.

(** [setValue] keeps the invariant, with the new value among the
    inputs. *)
Lemma cone_setValue s w v x vx :
  settled_graph s w v -> mutable_leaf s x -> independent s w x ->
  let s' := final (NumericMutable.setValue x vx) s in
  NumericMutable.setValue x vx s = (Ok tt, s') /\ frame s s'
  /\ settled_graph s' w (set_input w x vx v).
Proof.
  intros [Hwf Hc Hw Hin Hco] Hx Hind s'.
  destruct (setValue_frame vx Hwf Hc Hx) as [Hfr Hc'].
  split_and!; [by apply setValue_returns|done|].
  split; [by eapply wf_frame|done|by eapply wired_frame|by apply graph_inputs_setValue
         |by apply cone_coherent_setValue].
Qed.

End Cone.

(** ** Construction keeps consistency *)

Section BuiltConsistent.
Context {R : Type} `{EqDecision R, Inhabited R}.
Implicit Types (s : Store R) (F : Node R) (name : string).

(** The new nodes are not valid, but for the name, which is a constant
    without dependencies: a valid node still has valid dependencies. *)
Lemma consistent_built name s F :
  isValid_ F = false -> consistent s -> consistent (built name s F).2.
Proof.
  intros HF Hc i n d Hn Hv Hd. rewrite heap_built, owned_heap in Hn.
  apply lookup_app_Some in Hn as [Hn|[Hge Hn]].
  - destruct (Hc i n d Hn Hv Hd) as (m & Hm & Hvm). exists m. split; [|done].
    rewrite built_lookup_old; [done|by eapply lookup_lt_Some].
  - destruct (i - length (heap s)) as [|[|[|k]]]; simpl in Hn; simplify_eq/=;
      first [congruence|by apply elem_of_nil in Hd].
Qed.

End BuiltConsistent.

(** ** Rounds of a change and an evaluation *)

Section Rounds.
Context {R : Type} `{EqDecision R, Inhabited R, Arith R} (other : Compute R)
  `{!@ComputeLaws R _ _ other}.
Implicit Types (s : Store R) (w : Wiring) (v : Inputs R) (c : NodeId * Value R)
  (changes : list (NodeId * Value R)).

(** One round: a leaf is given a value, and the node of the second
    derivatives is asked for its value. *)
Definition round (d2 : NodeId) c : M R (Value R) :=
  NumericMutable.setValue c.1 c.2 ;;
  @getTargetValue R (hmm_compute other) d2.

(** The values of the inputs after each change. *)
Fixpoint inputs_after w changes v : list (Inputs R) :=
  match changes with
  | [] => []
  | c :: rest => let v' := set_input w c.1 c.2 v in v' :: inputs_after w rest v'
  end.

(** A change the invariant allows: of a mutable leaf no other input
    depends on. *)
Definition allowed s w c : Prop := mutable_leaf s c.1 /\ independent s w c.1.

Lemma allowed_frame s s' w c : frame s s' -> allowed s w c -> allowed s' w c.
Proof. intros Hf [? ?]. split; [by eapply mutable_leaf_frame|by eapply independent_frame]. Qed.

(** Evaluation keeps the invariant and returns the value for the inputs
    of the moment. *)
Lemma settled_evaluated s w v :
  settled_graph s w v -> apart w ->
  let s' := final (@getTargetValue R (hmm_compute other) (w_second w)) s in
  @getTargetValue R (hmm_compute other) (w_second w) s = (Ok (second_value v), s')
  /\ frame s s' /\ settled_graph s' w v.
Proof.
  intros [Hwf Hc Hw Hin Hco] Ha s'.
  destruct (second_on_demand other s w v Hw Ha Hin Hco) as (Hrun & Hfr & Hin' & Hco' & _).
  split_and!; [|done|].
  - rewrite (surjective_pairing (getTargetValue _ s)). by f_equal.
  - split; [by apply preserves_wf_getTargetValue
           |by apply consistent_getTargetValue; [apply wf_acyclic|]
           |by eapply wired_frame|done..].
Qed.

Lemma second_round_run s w v c :
  settled_graph s w v -> apart w -> allowed s w c ->
  let v' := set_input w c.1 c.2 v in
  let s' := final (round (w_second w) c) s in
  round (w_second w) c s = (Ok (second_value v'), s')
  /\ frame s s' /\ settled_graph s' w v'.
Proof.
  intros Hs Ha [Hx Hind] v' s'. subst s'.
  destruct (cone_setValue s w v c.1 c.2 Hs Hx Hind) as (Hset & Hfr1 & Hs1).
  destruct (settled_evaluated _ w v' Hs1 Ha) as (Hget & Hfr2 & Hs2).
  unfold final, round, bind. rewrite Hset, Hget. cbn [fst snd].
  split_and!; [done|by etrans|done].
Qed.

(** Every round returns the second derivatives for the values the inputs
    hold after its change. *)
Lemma second_rounds_run s w v changes :
  settled_graph s w v -> apart w -> Forall (allowed s w) changes ->
  outcome (mapM (round (w_second w)) changes) s
  = Ok (second_value <$> inputs_after w changes v).
Proof.
  intros Hs Ha. revert s v Hs.
  induction changes as [|c changes IH]; intros s v Hs Hall; [done|].
  apply Forall_cons in Hall as [Hc Hall].
  destruct (second_round_run s w v c Hs Ha Hc) as (Hrun & Hfr & Hs').
  specialize (IH _ _ Hs' (Forall_impl _ _ _ Hall (fun c => allowed_frame _ _ w c Hfr))).
  unfold outcome in *. simpl. unfold bind at 1. rewrite Hrun. unfold bind at 1.
  destruct (mapM (round (w_second w)) changes _) as [[rs|err] s2]; by simplify_eq/=.
Qed.

(** ** The session of a client *)

(** The three nodes are created, the last one is asked for its value, and
    then, for each change, a leaf is given a value and the node is asked
    again. *)
Definition second_session (e t m de dt dm d2e d2t d2m : NodeId) (dim : MatrixDimension)
    changes : M R (list (Value R)) :=
  f <- ForwardHmmLikelihood_DF.create (Cmp := hmm_compute other)
         [Some e; Some t; Some m] dim ;;
  d <- ForwardHmmDLikelihood_DF.create
         [Some e; Some t; Some m; Some f; Some de; Some dt; Some dm] dim ;;
  d2 <- ForwardHmmD2Likelihood_DF.create
          [Some e; Some t; Some m; Some f; Some de; Some dt; Some dm; Some d;
           Some d2e; Some d2t; Some d2m] dim ;;
  r <- @getTargetValue R (hmm_compute other) d2 ;;
  rs <- mapM (round d2) changes ;;
  ret (r :: rs).

Section Built.
Context (s : Store R) (e t m de dt dm d2e d2t d2m : NodeId) (dim : MatrixDimension)
  (v : Inputs R).
Context (Hwf : wf_store s) (Hc : consistent s)
  (Hh : hmm_holds s e t m (in_eq v) (in_trans v) (in_emis v))
  (Hdh : hmm_holds s de dt dm (in_dEq v) (in_dTrans v) (in_dEmis v))
  (Hd2h : hmm_holds s d2e d2t d2m (in_d2Eq v) (in_d2Trans v) (in_d2Emis v))
  (Hmiss : cache_find s (ForwardHmmLikelihood_DF.construct [Some e; Some t; Some m] dim)
           = None).

#[local] Abbreviation w := (built_wiring s e t m de dt dm d2e d2t d2m dim).
#[local] Abbreviation s3 := (built_second s e t m de dt dm d2e d2t d2m dim).

(** The invariant holds of the graph as the three [create] leave it. *)
Lemma settled_built : settled_graph s3 w v.
Proof.
  split; [by eapply wf_built_second| |by apply wired_built|by apply inputs_hold_built
         |by eapply coherent_built].
  by do 3 (apply consistent_built; [done|]).
Qed.

(** A change that is allowed before the graph is built is allowed
    after. *)
Lemma allowed_built c : allowed s w c -> allowed s3 w c.
Proof.
  intros [(n & T & Hn & Ht & Hd) Hind].
  pose proof (built_second_old s e t m de dt dm d2e d2t d2m dim) as Hold.
  split.
  - exists n, T. by rewrite Hold by (by eapply lookup_lt_Some).
  - apply Forall_forall. intros i Hi Hne Hdown.
    eapply Forall_forall in Hind; [|exact Hi]. apply (Hind Hne).
    apply (downstream_old s s3); [by eapply wf_built_second|done| |done].
    by apply (inputs_old s e t m de dt dm d2e d2t d2m dim v).
Qed.

End Built.


(** Inputs that are leaves depend on no leaf. *)
Lemma independent_leaves s w x :
  Forall (fun i => exists n, heap s !! i = Some n /\ dependencyNodes_ n = []) (inputs w) ->
  independent s w x.
Proof.
  intros Hl. eapply Forall_impl; [exact Hl|]. intros i (n & Hn & Hd) Hne Hdown.
  by apply Hne, (downstream_leaf s x i n).
Qed.

End Rounds.

(** ** A session over the rationals *)

Module UpdateExample.
Import ChainExample.

#[local] Existing Instance compute_nothing.
#[local] Abbreviation hmm := (hmm_compute (R:=Qc) compute_nothing).

(** The nine inputs of the chain of [SecondChain] as mutable leaves, nodes
    0 to 8. *)
Definition leaves : list (@Operation Qc) :=
  [NewMutable TVectorXd (VEigen hmmEq); NewMutable TMatrixXd (VEigen hmmTrans);
   NewMutable TMatrixXd (VEigen hmmEmis);
   NewMutable TVectorXd (VEigen DerivativeChain.dEq);
   NewMutable TMatrixXd (VEigen DerivativeChain.dTrans);
   NewMutable TMatrixXd (VEigen DerivativeChain.dEmis);
   NewMutable TVectorXd (VEigen SecondChain.d2Eq);
   NewMutable TMatrixXd (VEigen SecondChain.d2Trans);
   NewMutable TMatrixXd (VEigen SecondChain.d2Emis)].

Definition leaves_store : Store Qc :=
  default empty_store (session (Cmp := hmm) leaves empty_store).

Definition values : Inputs Qc :=
  mkInputs (VEigen hmmEq) (VEigen hmmTrans) (VEigen hmmEmis)
    (VEigen DerivativeChain.dEq) (VEigen DerivativeChain.dTrans)
    (VEigen DerivativeChain.dEmis)
    (VEigen SecondChain.d2Eq) (VEigen SecondChain.d2Trans) (VEigen SecondChain.d2Emis).

(** Another second derivative of the transition matrix. *)
Definition d2Trans' : Matrix Qc := mkMatrix 2 [[- (1); 0]; [1; 0]]%F.

(** The emission likelihoods change, then the second derivative of the
    transition matrix. *)
Definition changes : list (NodeId * Value Qc) :=
  [(2, VEigen SessionExample.hmmEmis'); (7, VEigen d2Trans')].

Definition session_values : M Qc (list (Value Qc)) :=
  second_session compute_nothing 0 1 2 3 4 5 6 7 8 (mkDim 2 3) changes.

Lemma session_leaves : session (Cmp := hmm) leaves empty_store = Some leaves_store.
Proof. reflexivity. Qed.

Lemma invariant_leaves : invariant leaves_store.
Proof.
  exact (session_invariant (Cmp := hmm) leaves _ _ invariant_empty session_leaves).
Qed.

Lemma holds_leaves :
  hmm_holds leaves_store 0 1 2 (in_eq values) (in_trans values) (in_emis values)
  /\ hmm_holds leaves_store 3 4 5 (in_dEq values) (in_dTrans values) (in_dEmis values)
  /\ hmm_holds leaves_store 6 7 8 (in_d2Eq values) (in_d2Trans values) (in_d2Emis values).
Proof. split_and!; split_and!; eexists; by split_and!. Qed.

Lemma allowed_changes :
  Forall (allowed leaves_store
            (built_wiring leaves_store 0 1 2 3 4 5 6 7 8 (mkDim 2 3))) changes.
Proof.
  assert (Hl : forall x, independent leaves_store
            (built_wiring leaves_store 0 1 2 3 4 5 6 7 8 (mkDim 2 3)) x).
  { intros x. apply independent_leaves. repeat apply Forall_cons_2;
      [by eexists..|apply Forall_nil_2]. }
  repeat apply Forall_cons_2; [split; [by eexists _, _|apply Hl]..|apply Forall_nil_2].
Qed.

(** The second derivatives of the three normalisation constants: at the
    beginning, with the new emission likelihoods, and with the new second
    derivative of the transition matrix as well. *)
Example session_values_run :
  match outcome session_values leaves_store with
  | Ok rows => (fun x => this <$> value_coefficients x) <$> rows
  | Err _ => []
  end = [[0; 0; -6912000 # 11697083]; [0; 0; 1244160 # 3442951];
         [0; -1 # 45; -1899376 # 17214755]]%Q.
Proof. by vm_compute. Qed.

End UpdateExample.


