(* ===== verification/TreeLikelihood.v ===== *)
(** * TreeLikelihood: the builder of the likelihood graph of a tree

    Models [src/src/Bpp/NewPhyl/HomogeneousLikelihoodExample.h]: the
    recursion helper [HomogeneousLikelihoodNodesHelper] with its three
    member functions, and [makeHomogeneousLikelihoodNodes].

    The tree, the sites and the model are collaborators whose sources are
    not part of the development; they appear as records of the operations
    the builder calls.  The two mutually recursive member functions recurse
    on the tree; the model bounds the recursion by [fuel], and
    [makeForwardLikelihoodNode] takes the other function as an argument. *)

From stdpp Require Import base tactics option list strings pretty.
From S2P Require Import Prelude Values DataFlow Expression Construction.

(** ** The collaborators *)

Abbreviation NodeIndex := nat.
Abbreviation EdgeIndex := nat.

(** [PhyloTree]: what the builder asks of the topology.  [getName] is
    [getNode (index)->getName ()], which throws for a node without name. *)
Record PhyloTree : Type := mkPhyloTree {
  isRooted : bool;
  getRootIndex : NodeIndex;
  getBranches : NodeIndex -> list EdgeIndex;
  getSon : EdgeIndex -> NodeIndex;
  getName : NodeIndex -> option string;
}.

(** [dataflow::ConfiguredPhyloTree]: a node of the graph whose dependencies
    are the parameters of the tree, the tree it holds ([getValue ()]), and
    the index of a parameter by name. *)
Record ConfiguredPhyloTree : Type := mkConfiguredPhyloTree {
  treeNode : NodeId;
  treeValue : PhyloTree;
  getParameterIndex : string -> option nat;
}.

(** [dataflow::ConfiguredModel]: a node of the graph, and of the model it
    holds the number of states and the alphabet state of each of them
    ([getStateMap ().getAlphabetStateAsInt]). *)
Record ConfiguredModel : Type := mkConfiguredModel {
  modelNode : NodeId;
  getNumberOfStates : nat;
  getAlphabetStateAsInt : nat -> Z;
}.

(** [AlignedValuesContainer]: the observed data. *)
Record AlignedValuesContainer (R : Type) : Type := mkSites {
  getNumberOfSites : nat;
  getSequencePosition : string -> option nat;
  getStateValueAt : nat -> nat -> Z -> R;
}.

Arguments getNumberOfSites {R} _.
Arguments getSequencePosition {R} _ _.
Arguments getStateValueAt {R} _ _ _ _.

(** ** The helper *)

Record HomogeneousLikelihoodNodesHelper (R : Type) : Type := mkHelper {
  totalLogLikelihood : NodeRef;
  sites : AlignedValuesContainer R;
  tree : ConfiguredPhyloTree;
  model : ConfiguredModel;
  rootFreqs : NodeRef;
  rate : NodeRef;
  likelihoodMatrixDim : MatrixDimension;
  nbState : nat;
  nbSite : nat;
}.

Arguments totalLogLikelihood {R} _.
Arguments sites {R} _.
Arguments tree {R} _.
Arguments model {R} _.
Arguments rootFreqs {R} _.
Arguments rate {R} _.
Arguments likelihoodMatrixDim {R} _.
Arguments nbState {R} _.
Arguments nbSite {R} _.

Section Builder.
Context {R : Type} `{EqDecision R, Inhabited R}.

(** [Node_DF::dependency (i)]: the [i]-th dependency, null or not. *)
Definition dependency (self : NodeId) (i : nat) : M R NodeRef :=
  this <- dereference self ;;
  from_option_exc (dependencyNodes_ this !! i) (UndefinedBehaviour "dependency index").

Section WithHelper.
Variable h : HomogeneousLikelihoodNodesHelper R.

(** The matrix of a leaf: for each site and state, what the sites say of
    the sequence of that name. *)
Definition makeInitialConditionalLikelihood (sequenceName : string) : M R NodeId :=
  sequenceIndex <- from_option_exc (getSequencePosition (sites h) sequenceName)
                     (SequenceNotFoundException sequenceName) ;;
  let initCondLik :=
    matrix_init (nbState h) (nbSite h)
      (fun state site =>
         getStateValueAt (sites h) site sequenceIndex
           (getAlphabetStateAsInt (model h) state)) in
  NumericConstant.create TMatrixXd (VEigen initCondLik).

(** The name of the parameter that holds the length of a branch. *)
Definition brLenName (index : EdgeIndex) : string := "BrLen" +:+ pretty index.

(** The forward likelihood of a branch: the transition matrix of the
    branch applied to the conditional likelihood of the node below it,
    [makeConditionalLikelihoodNode], here the argument [rec]. *)
Definition makeForwardLikelihoodNode (rec : NodeIndex -> M R NodeId)
    (index : EdgeIndex) : M R NodeId :=
  parameterIndex <- from_option_exc (getParameterIndex (tree h) (brLenName index))
                      (ParameterNotFoundException (brLenName index)) ;;
  brlen <- dependency (treeNode (tree h)) parameterIndex ;;
  childConditionalLikelihood <- rec (getSon (treeValue (tree h)) index) ;;
  transitionMatrix <-
    create_rule T_TransitionMatrixFromModel [Some (modelNode (model h)); brlen]
                (transitionMatrixDimension (nbState h)) ;;
  create_rule T_ForwardLikelihoodFromConditional
              [Some transitionMatrix; Some childConditionalLikelihood]
              (likelihoodMatrixDim h).

(** The conditional likelihood of a node: the matrix of the sequence for
    a leaf, the product of the forward likelihoods of the branches below
    it for an inner node. *)
Fixpoint makeConditionalLikelihoodNode (fuel : nat) (index : NodeIndex) : M R NodeId :=
  match fuel with
  | 0 => throw OutOfFuel
  | S fuel' =>
      let childBranchIndexes := getBranches (treeValue (tree h)) index in
      if bool_decide (childBranchIndexes = []) then
        name <- from_option_exc (getName (treeValue (tree h)) index)
                  (Exception "PhyloNode::getName: no name associated to this node.") ;;
        makeInitialConditionalLikelihood name
      else
        deps <- mapM (makeForwardLikelihoodNode (makeConditionalLikelihoodNode fuel'))
                     childBranchIndexes ;;
        create_rule T_ConditionalLikelihoodFromChildrenForward (Some <$> deps)
                    (likelihoodMatrixDim h)
  end.

End WithHelper.

(** [makeHomogeneousLikelihoodNodes (c, sites, tree, model, rootFreqs)]:
    the node of minus the logarithm of the likelihood of the sites. *)
Definition makeHomogeneousLikelihoodNodes (fuel : nat)
    (sites : AlignedValuesContainer R) (tree : ConfiguredPhyloTree)
    (model : ConfiguredModel) (rootFreqs : NodeRef) : M R NodeId :=
  let nbState := getNumberOfStates model in
  let nbSite := getNumberOfSites sites in
  let likelihoodMatrixDim := conditionalLikelihoodDimension nbState nbSite in
  throw_unless (isRooted (treeValue tree)) (Exception "PhyloTree must be rooted") ;;
  let helper := mkHelper R None sites tree model rootFreqs None
                         likelihoodMatrixDim nbState nbSite in
  rootConditionalLikelihoods <-
    makeConditionalLikelihoodNode helper fuel (getRootIndex (treeValue tree)) ;;
  rFreqs <-
    match rootFreqs with
    | Some _ =>
        create_rule T_FrequenciesFromFrequenciesSet [rootFreqs]
                    (rowVectorDimension nbState)
    | None =>
        create_rule T_EquilibriumFrequenciesFromModel [Some (modelNode model)]
                    (rowVectorDimension nbState)
    end ;;
  siteLikelihoods <-
    create_rule T_LikelihoodFromRootConditional
                [Some rFreqs; Some rootConditionalLikelihoods]
                (rowVectorDimension nbSite) ;;
  totalLogLikelihood <-
    create_rule T_TotalLogLikelihood [Some siteLikelihoods] (rowVectorDimension nbSite) ;;
  create_rule (T_CWiseNegate TDouble) [Some totalLogLikelihood] scalarDimension.

(** The helper [makeHomogeneousLikelihoodNodes] initialises. *)
Definition helper_of (sites : AlignedValuesContainer R) (tree : ConfiguredPhyloTree)
    (model : ConfiguredModel) (rootFreqs : NodeRef) : HomogeneousLikelihoodNodesHelper R :=
  mkHelper R None sites tree model rootFreqs None
    (conditionalLikelihoodDimension (getNumberOfStates model) (getNumberOfSites sites))
    (getNumberOfStates model) (getNumberOfSites sites).

End Builder.

(** * The expression of the likelihood

    What the graph is to compute, as an expression over the inputs: the
    expression of the model [modelT], of each parameter of the tree
    [paramTs] and of the root frequencies [rootFreqsT].  No store, no
    cache, no exception: a name that does not resolve gives no
    expression. *)

Section Specification.
Context {R : Type}.
Variable h : HomogeneousLikelihoodNodesHelper R.
Variables (modelT : Term R) (paramTs : list (option (Term R)))
  (rootFreqsT : option (Term R)).

(** The constant matrix of a leaf. *)
Definition leaf_term (name : string) : option (Term R) :=
  sequenceIndex ← getSequencePosition (sites h) name;
  Some (TNode (T_NumericConstant TMatrixXd)
          (Some (VEigen (matrix_init (nbState h) (nbSite h)
             (fun state site =>
                getStateValueAt (sites h) site sequenceIndex
                  (getAlphabetStateAsInt (model h) state)))))
          []).

(** The transition matrix of a branch: the model at the length of the
    branch. *)
Definition transition_term (e : EdgeIndex) : option (Term R) :=
  i ← getParameterIndex (tree h) (brLenName e);
  brlen ← paramTs !! i;
  Some (TNode T_TransitionMatrixFromModel None [Some modelT; brlen]).

(** The forward likelihood of a branch, given the conditional likelihoods
    of the nodes. *)
Definition forward_term (rec : NodeIndex -> option (Term R)) (e : EdgeIndex)
    : option (Term R) :=
  transitionMatrix ← transition_term e;
  child ← rec (getSon (treeValue (tree h)) e);
  Some (TNode T_ForwardLikelihoodFromConditional None
          [Some transitionMatrix; Some child]).

Fixpoint conditional_term (fuel : nat) (index : NodeIndex) : option (Term R) :=
  match fuel with
  | 0 => None
  | S fuel' =>
      let childBranchIndexes := getBranches (treeValue (tree h)) index in
      if bool_decide (childBranchIndexes = []) then
        name ← getName (treeValue (tree h)) index; leaf_term name
      else
        deps ← list.mapM (forward_term (conditional_term fuel')) childBranchIndexes;
        Some (TNode T_ConditionalLikelihoodFromChildrenForward None (Some <$> deps))
  end.

Definition frequencies_term : Term R :=
  match rootFreqs h with
  | Some _ => TNode T_FrequenciesFromFrequenciesSet None [rootFreqsT]
  | None => TNode T_EquilibriumFrequenciesFromModel None [Some modelT]
  end.

(** The likelihood of each site, the logarithm of their product, and its
    negation, over the frequencies and the conditional likelihood of the
    root. *)
Definition site_term (freqs root : Term R) : Term R :=
  TNode T_LikelihoodFromRootConditional None [Some freqs; Some root].

Definition total_term (freqs root : Term R) : Term R :=
  TNode T_TotalLogLikelihood None [Some (site_term freqs root)].

Definition negated_term (freqs root : Term R) : Term R :=
  TNode (T_CWiseNegate TDouble) None [Some (total_term freqs root)].

(** Minus the logarithm of the likelihood of the sites. *)
Definition likelihood_term (fuel : nat) : option (Term R) :=
  negated_term frequencies_term
    <$> conditional_term fuel (getRootIndex (treeValue (tree h))).

End Specification.

(** * Properties *)

(** The nodes of a tree: the root, and the sons of the branches of a
    node. *)
Inductive reachable (t : PhyloTree) : NodeIndex -> Prop :=
| reachable_root : reachable t (getRootIndex t)
| reachable_son n e :
    reachable t n -> e ∈ getBranches t n -> reachable t (getSon t e).

(** A rank that decreases from a node to its sons: the tree is finite and
    has no cycle. *)
Definition ranked (t : PhyloTree) (rank : NodeIndex -> nat) : Prop :=
  forall n e, reachable t n -> e ∈ getBranches t n -> rank (getSon t e) < rank n.

Section Inputs.
Context {R : Type} `{EqDecision R, Inhabited R}.
Variable h : HomogeneousLikelihoodNodesHelper R.
Variable ok : Error -> Prop.
Variables (modelT : Term R) (paramTs : list (option (Term R)))
  (rootFreqsT : option (Term R)).
Implicit Types (s : Store R).

(** The node of the tree exists and has a dependency for every parameter
    it names. *)
Definition params_in_range s : Prop :=
  exists n, heap s !! treeNode (tree h) = Some n
    /\ forall name i, getParameterIndex (tree h) name = Some i ->
         i < length (dependencyNodes_ n).

(** What the builder is given exists. *)
Definition wf_inputs s : Prop :=
  modelNode (model h) < length (heap s) /\ params_in_range s
  /\ valid_refs s [rootFreqs h].

(** What the builder is given is of the classes it expects: the model, the
    parameters of the tree (numbers, none of them null), the root
    frequencies when there are any. *)
Definition typed_inputs s : Prop :=
  conforms s (ExpectNode T_ConfiguredModel) (Some (modelNode (model h)))
  /\ (exists n, heap s !! treeNode (tree h) = Some n
        /\ forall i r, dependencyNodes_ n !! i = Some r ->
             conforms s (ExpectValue TDouble) r)
  /\ (rootFreqs h = None
      \/ conforms s (ExpectNode T_ConfiguredFrequenciesSet) (rootFreqs h)).

(** The expressions of what the builder is given. *)
Definition inputs_denote s : Prop :=
  denotes s (modelNode (model h)) modelT
  /\ (exists n, heap s !! treeNode (tree h) = Some n
        /\ Forall2 (denotes_ref s) (dependencyNodes_ n) paramTs)
  /\ denotes_ref s (rootFreqs h) rootFreqsT.

(** The two readings of the logic: every exception of the library is
    admitted (safety), or the inputs are of the expected classes
    (success). *)
Definition inputs s : Prop :=
  wf_inputs s /\ ((forall e, thrown e -> ok e) \/ typed_inputs s) /\ inputs_denote s.

(** The names the builder looks up resolve, or the exceptions thrown when
    they do not are admitted. *)
Definition resolves : Prop :=
  forall n, reachable (treeValue (tree h)) n ->
    (forall e, e ∈ getBranches (treeValue (tree h)) n ->
       getParameterIndex (tree h) (brLenName e) = None ->
       ok (ParameterNotFoundException (brLenName e)))
    /\ (getBranches (treeValue (tree h)) n = [] ->
        match getName (treeValue (tree h)) n with
        | None => ok (Exception "PhyloNode::getName: no name associated to this node.")
        | Some name =>
            getSequencePosition (sites h) name = None ->
            ok (SequenceNotFoundException name)
        end).

Lemma extends_same_deps s s' id n :
  extends s s' -> heap s !! id = Some n ->
  exists n', heap s' !! id = Some n' /\ dependencyNodes_ n' = dependencyNodes_ n
             /\ node_type n' = node_type n.
Proof.
  intros [He _] Hn. destruct (He _ _ Hn) as (n' & Hn' & [Hk _]).
  exists n'. by rewrite (node_key_deps _ _ Hk), (node_key_type _ _ Hk).
Qed.

Lemma stable_params_in_range : stable params_in_range.
Proof.
  intros s s' He (n & Hn & Hi).
  destruct (extends_same_deps _ _ _ _ He Hn) as (n' & Hn' & Hd & _).
  exists n'. by rewrite Hd.
Qed.

Lemma stable_wf_inputs : stable wf_inputs.
Proof.
  apply stable_and; [apply stable_valid|].
  apply stable_and; [apply stable_params_in_range|apply stable_valid_refs].
Qed.

Lemma stable_typed_inputs : stable typed_inputs.
Proof.
  apply stable_and; [apply stable_conforms|]. apply stable_and.
  - intros s s' He (n & Hn & Hi).
    destruct (extends_same_deps _ _ _ _ He Hn) as (n' & Hn' & Hd & _).
    exists n'. split; [done|]. rewrite Hd. intros i r Hr.
    eapply conforms_extends; eauto.
  - apply stable_or; [apply stable_pure|apply stable_conforms].
Qed.

Lemma stable_inputs_denote : stable inputs_denote.
Proof.
  apply stable_and; [apply stable_denotes|].
  apply stable_and; [|apply stable_denotes_ref].
  intros s s' He (n & Hn & Hts).
  destruct (extends_same_deps _ _ _ _ He Hn) as (n' & Hn' & Hd & _).
  exists n'. split; [done|]. rewrite Hd. by eapply denotes_refs_extends.
Qed.

Lemma stable_inputs : stable inputs.
Proof.
  apply stable_and; [apply stable_wf_inputs|]. apply stable_and.
  - apply stable_or; [apply stable_pure|apply stable_typed_inputs].
  - apply stable_inputs_denote.
Qed.

End Inputs.

#[export] Hint Resolve stable_inputs : stable.

(** What exists in a well-formed store has an expression. *)
Lemma inputs_denote_total {R} `{EqDecision R, Inhabited R}
    (h : HomogeneousLikelihoodNodesHelper R) (s : Store R) :
  wf_store s -> wf_inputs h s ->
  exists modelT paramTs rootFreqsT, inputs_denote h modelT paramTs rootFreqsT s.
Proof.
  intros Hwf (Hm & (n & Hn & _) & Hrf).
  destruct (expression_total s _ Hwf Hm) as [modelT HmT].
  destruct (denotes_refs_total s (dependencyNodes_ n) Hwf) as [paramTs Hp].
  { intros d Hd. pose proof (wf_deps _ Hwf _ _ _ Hn Hd).
    apply lookup_lt_Some in Hn. lia. }
  destruct (denotes_refs_total s [rootFreqs h] Hwf Hrf)
    as [ts (rT & ? & HrT & _ & ->)%Forall2_cons_inv_l].
  exists modelT, paramTs, rT. split_and!; [done|by exists n|done].
Qed.

(** ** The member functions in the logic of construction *)

Section Steps.
Context {R : Type} `{EqDecision R, Inhabited R}.
Variable h : HomogeneousLikelihoodNodesHelper R.
Variable ok : Error -> Prop.
Variables (modelT : Term R) (paramTs : list (option (Term R)))
  (rootFreqsT : option (Term R)).
Implicit Types (s : Store R).

#[local] Abbreviation given := (inputs h ok modelT paramTs rootFreqsT).

(** A matrix-valued node: what the member functions return. *)
Definition is_matrix (c : NodeId) s : Prop :=
  conforms s (ExpectValue TMatrixXd) (Some c).

Lemma readonly_dependency self i : readonly (dependency (R:=R) self i).
Proof. unfold dependency. solve_readonly. Qed.

Lemma builds_dependency name i :
  getParameterIndex (tree h) name = Some i ->
  builds ok given (dependency (treeNode (tree h)) i)
    (fun r s => valid_refs s [r]
                /\ ((forall e, thrown e -> ok e) \/ conforms s (ExpectValue TDouble) r)
                /\ exists bt, paramTs !! i = Some bt /\ denotes_ref s r bt).
Proof.
  intros Hi. apply builds_readonly; [apply readonly_dependency|].
  intros s Hwf ((Hm & (n & Hn & Hr) & Hf) & Hmode & (_ & (n' & Hn' & Hts) & _)).
  rewrite Hn in Hn'. injection Hn' as <-.
  unfold outcome, dependency, bind. rewrite (dereference_Some _ _ _ Hn).
  destruct (lookup_lt_is_Some_2 (dependencyNodes_ n) i) as [r Hri]; [by eapply Hr|].
  rewrite Hri. simpl. split; [split_and!|].
  - intros d <-%list_elem_of_singleton.
    pose proof (wf_deps _ Hwf _ _ d Hn (list_elem_of_lookup_2 _ _ _ Hri)).
    apply lookup_lt_Some in Hn. lia.
  - destruct Hmode as [?|(_ & (n' & Hn' & Ht) & _)]; [by left|right].
    rewrite Hn in Hn'. injection Hn' as <-. by eapply Ht.
  - destruct (Forall2_lookup_l _ _ _ _ _ Hts Hri) as (bt & ? & ?). by exists bt.
  - intros s' He. destruct (extends_same_deps _ _ _ _ He Hn) as (n' & Hn' & Hd & _).
    by rewrite (dereference_Some _ _ _ Hn'), Hd, Hri.
Qed.

Lemma builds_makeInitialConditionalLikelihood name :
  (getSequencePosition (sites h) name = None -> ok (SequenceNotFoundException name)) ->
  builds ok given (makeInitialConditionalLikelihood h name)
    (node_of TMatrixXd (leaf_term h name)).
Proof.
  intros Hname. unfold makeInitialConditionalLikelihood, leaf_term.
  eapply builds_bind; [solve_stable|by apply builds_from_option|intros idx].
  cbv beta. apply builds_assume. intros ->. simpl.
  eapply builds_conseq;
    [apply (builds_NumericConstant_create ok (fun _ => True))|done| |done].
  intros c s Hwf [Hc Hs]. split; [by eapply stored_conforms|].
  eexists. split; [done|]. by apply constant_denotes.
Qed.

(** The transition matrix of a branch whose length is the reference
    [brlen]. *)
Lemma builds_transition_matrix (P : Store R -> Prop) i brlen :
  stable P ->
  (forall s, P s ->
     given s /\ valid_refs s [brlen]
     /\ ((forall e, thrown e -> ok e) \/ conforms s (ExpectValue TDouble) brlen)
     /\ exists bt, paramTs !! i = Some bt /\ denotes_ref s brlen bt) ->
  builds ok P
    (create_rule T_TransitionMatrixFromModel [Some (modelNode (model h)); brlen]
                 (transitionMatrixDimension (nbState h)))
    (fun c s =>
       created s c T_TransitionMatrixFromModel [Some (modelNode (model h)); brlen]
       /\ node_of TMatrixXd
            (brlen ← paramTs !! i;
             Some (TNode T_TransitionMatrixFromModel None [Some modelT; brlen])) c s).
Proof.
  intros HP Hpre. apply builds_create_rule_term; [done..|].
  intros s (((Hm & _) & Hmode & (HmT & _)) & Hb & Hbt & bt & -> & Hbden)%Hpre.
  split_and!.
  - apply valid_refs_cons; [done|]. intros d Hd. by apply Hb.
  - destruct Hmode as [?|(? & _)]; [by left|].
    destruct Hbt as [?|?]; [by left|right]. by repeat constructor.
  - exists [Some modelT; bt]. split; [|done]. by repeat constructor.
Qed.

Lemma builds_makeForwardLikelihoodNode rec recT e :
  (getParameterIndex (tree h) (brLenName e) = None ->
   ok (ParameterNotFoundException (brLenName e))) ->
  builds ok given (rec (getSon (treeValue (tree h)) e))
    (node_of TMatrixXd (recT (getSon (treeValue (tree h)) e))) ->
  builds ok given (makeForwardLikelihoodNode h rec e)
    (node_of TMatrixXd (forward_term h modelT paramTs recT e)).
Proof.
  intros Hparam Hrec. unfold makeForwardLikelihoodNode, forward_term, transition_term.
  eapply builds_bind; [solve_stable|by apply builds_from_option|intros i].
  cbv beta. apply builds_assume. intros Hi. rewrite Hi. simpl.
  eapply builds_bind; [solve_stable|by eapply builds_dependency|intros brlen].
  eapply builds_bind; [solve_stable| |intros child].
  { eapply builds_conseq; [apply Hrec|by intros ? []|done..]. }
  eapply builds_bind; [solve_stable| |intros transitionMatrix].
  { apply (builds_transition_matrix _ i); [solve_stable|]. by intros s [[? ?] _]. }
  apply builds_create_rule_node; [done..|solve_stable|].
  intros s ((_ & Hc & ct & HcT & Hcden) & Ht & Htm & tmT & HtmT & Htden). split_and!.
  - apply valid_refs_cons; [by eapply created_valid|].
    apply valid_refs_cons; [|apply valid_refs_nil].
    by apply (valid_refs_conforms s (ExpectValue TMatrixXd)).
  - right. by repeat constructor.
  - exists [Some tmT; Some ct]. split; [by repeat constructor|].
    by rewrite HtmT, HcT.
Qed.

(** The nodes of the branches below a node: they exist, they are
    matrices, and their expressions are those of the branches. *)
Lemma children_terms (f : EdgeIndex -> option (Term R)) bs (cs : list NodeId) s :
  Forall2 (fun e c => node_of TMatrixXd (f e) c s) bs cs ->
  valid_refs s (Some <$> cs)
  /\ Forall2 (conforms s)
       (rule_signature T_ConditionalLikelihoodFromChildrenForward (length (Some <$> cs)))
       (Some <$> cs)
  /\ exists fs, list.mapM f bs = Some fs
                /\ Forall2 (denotes_ref s) (Some <$> cs) (Some <$> fs).
Proof.
  intros Hall. simpl. rewrite length_fmap.
  induction Hall as [|e c bs cs [Hc (t & Ht & Hden)] _ (IHv & IHc & fs & Hfs & IHd)]; simpl.
  - split_and!; [apply valid_refs_nil|constructor|]. exists []. by split; [|constructor].
  - split_and!; [|by constructor|].
    + apply valid_refs_cons; [|done].
      by apply (valid_refs_conforms s (ExpectValue TMatrixXd)).
    + exists (t :: fs). rewrite Ht, Hfs. by split; [|constructor].
Qed.

Variable rank : NodeIndex -> nat.

Lemma builds_makeConditionalLikelihoodNode fuel index :
  resolves h ok -> reachable (treeValue (tree h)) index ->
  ok OutOfFuel \/ (ranked (treeValue (tree h)) rank /\ rank index < fuel) ->
  builds ok given (makeConditionalLikelihoodNode h fuel index)
    (node_of TMatrixXd (conditional_term h modelT paramTs fuel index)).
Proof.
  intros Hres. revert index.
  induction fuel as [|fuel IH]; intros index Hreach Hfuel; simpl.
  { apply builds_throw. destruct Hfuel as [?|[_ ?]]; [done|lia]. }
  destruct (Hres _ Hreach) as [Hparams Hleaf]. case_bool_decide as Hb.
  - specialize (Hleaf Hb).
    eapply builds_bind; [solve_stable|apply builds_from_option|intros name].
    { intros Hn. by rewrite Hn in Hleaf. }
    cbv beta. apply builds_assume. intros Hn. rewrite Hn in Hleaf |- *.
    by apply builds_makeInitialConditionalLikelihood.
  - eapply builds_bind; [solve_stable|apply builds_mapM|intros deps].
    + solve_stable.
    + intros e c. apply stable_node_of.
    + intros e He. apply builds_makeForwardLikelihoodNode; [by apply Hparams|].
      apply IH; [by eapply reachable_son|].
      destruct Hfuel as [?|[Hr Hlt]]; [by left|right]. split; [done|].
      specialize (Hr _ _ Hreach He). lia.
    + apply builds_create_rule_node; [done..|solve_stable|].
      intros s (_ & (Hv & Hc & fs & Hfs & Hden)%children_terms). split_and!; [done|by right|].
      exists (Some <$> fs). by rewrite Hfs.
Qed.

End Steps.

(** ** [makeHomogeneousLikelihoodNodes] *)

Section Top.
Context {R : Type} `{EqDecision R, Inhabited R}.
Implicit Types (s : Store R) (ok : Error -> Prop)
  (sites : AlignedValuesContainer R) (tree : ConfiguredPhyloTree)
  (model : ConfiguredModel) (rootFreqs : NodeRef).
Variables (modelT : Term R) (paramTs : list (option (Term R)))
  (rootFreqsT : option (Term R)).

(** The node returned: the negation of a node. *)
Definition is_negated (c : NodeId) s : Prop :=
  exists total, created s c (T_CWiseNegate TDouble) [Some total].

Lemma builds_root_frequencies ok sites tree model rootFreqs :
  let h := helper_of sites tree model rootFreqs in
  builds ok (inputs h ok modelT paramTs rootFreqsT)
    match rootFreqs with
    | Some _ =>
        create_rule T_FrequenciesFromFrequenciesSet [rootFreqs]
                    (rowVectorDimension (getNumberOfStates model))
    | None =>
        create_rule T_EquilibriumFrequenciesFromModel [Some (modelNode model)]
                    (rowVectorDimension (getNumberOfStates model))
    end
    (node_of TRowVectorXd (Some (frequencies_term h modelT rootFreqsT))).
Proof.
  intros h. unfold frequencies_term. simpl.
  destruct rootFreqs as [rf|]; (apply builds_create_rule_node; [done..|solve_stable|]);
    intros s ((Hm & _ & Hrf) & Hmode & (HmT & _ & HrT)); simpl in *; split_and!.
  - done.
  - destruct Hmode as [?|(_ & _ & [?|?])]; [by left|done|right]. by repeat constructor.
  - exists [rootFreqsT]. by repeat constructor.
  - apply valid_refs_cons; [done|apply valid_refs_nil].
  - destruct Hmode as [?|(? & _)]; [by left|right]. by repeat constructor.
  - exists [Some modelT]. by repeat constructor.
Qed.

(** The three nodes above the conditional likelihood of the root. *)
Lemma builds_total (P : Store R -> Prop) ok (nbSite : nat) rFreqs root freqsT rootT :
  stable P ->
  (forall s, P s -> node_of TRowVectorXd (Some freqsT) rFreqs s
                    /\ node_of TMatrixXd rootT root s) ->
  builds ok P
    (siteLikelihoods <-
       create_rule T_LikelihoodFromRootConditional [Some rFreqs; Some root]
                   (rowVectorDimension nbSite) ;;
     totalLogLikelihood <-
       create_rule T_TotalLogLikelihood [Some siteLikelihoods] (rowVectorDimension nbSite) ;;
     create_rule (T_CWiseNegate TDouble) [Some totalLogLikelihood] scalarDimension)
    (fun c s => is_negated c s /\ node_of TDouble (negated_term freqsT <$> rootT) c s).
Proof.
  intros HP Hpre.
  eapply builds_bind; [done| |intros siteLikelihoods].
  { apply (builds_create_rule_node _ _ _ _ _ TRowVectorXd (site_term freqsT <$> rootT));
      [done..|].
    intros s ([Hf (ft & [= <-] & Hfden)] & Hr & rt & -> & Hrden)%Hpre.
    split_and!; [solve_valid_refs|right; by repeat constructor|].
    exists [Some freqsT; Some rt]. by repeat constructor. }
  eapply builds_bind; [solve_stable| |intros total].
  { apply (builds_create_rule_node _ _ _ _ _ TDouble (total_term freqsT <$> rootT));
      [done..|solve_stable|].
    intros s (_ & Hs & st & Hst & Hsden).
    split_and!; [solve_valid_refs|right; by repeat constructor|].
    destruct rootT as [rt|]; [|done]. injection Hst as <-.
    exists [Some (site_term freqsT rt)]. by repeat constructor. }
  eapply builds_post.
  { apply (builds_create_rule_term _ _ _ _ _ TDouble (negated_term freqsT <$> rootT));
      [done..|solve_stable|].
    intros s (_ & Ht & tt & Htt & Htden).
    split_and!; [solve_valid_refs|right; by repeat constructor|].
    destruct rootT as [rt|]; [|done]. injection Htt as <-.
    exists [Some (total_term freqsT rt)]. by repeat constructor. }
  intros c s _ [Hc Hn]. split; [by exists total|done].
Qed.

Lemma builds_makeHomogeneousLikelihoodNodes ok rank fuel sites tree model rootFreqs :
  let h := helper_of sites tree model rootFreqs in
  (isRooted (treeValue tree) = false -> ok (Exception "PhyloTree must be rooted")) ->
  resolves h ok ->
  ok OutOfFuel
  \/ (ranked (treeValue tree) rank /\ rank (getRootIndex (treeValue tree)) < fuel) ->
  builds ok (inputs h ok modelT paramTs rootFreqsT)
    (makeHomogeneousLikelihoodNodes fuel sites tree model rootFreqs)
    (fun c s =>
       is_negated c s
       /\ node_of TDouble (likelihood_term h modelT paramTs rootFreqsT fuel) c s).
Proof.
  intros h Hrooted Hres Hfuel. unfold makeHomogeneousLikelihoodNodes, likelihood_term.
  fold (helper_of sites tree model rootFreqs). fold h.
  eapply builds_bind; [solve_stable|by apply builds_throw_unless|intros u].
  eapply builds_bind; [solve_stable| |intros root].
  { eapply builds_conseq;
      [by apply (builds_makeConditionalLikelihoodNode _ ok modelT paramTs rootFreqsT
                   rank fuel); [|apply reachable_root|]|by intros ? []|done..]. }
  eapply builds_bind; [solve_stable| |intros rFreqs].
  { eapply builds_conseq; [apply builds_root_frequencies|by intros ? [[] ?]|done..]. }
  apply builds_total; [solve_stable|]. by intros s [[_ ?] ?].
Qed.

End Top.

(** ** What the builder promises *)

Section BuilderProperties.
Context {R : Type} `{EqDecision R, Inhabited R}.
Implicit Types (s : Store R)
  (sites : AlignedValuesContainer R) (tree : ConfiguredPhyloTree)
  (model : ConfiguredModel) (rootFreqs : NodeRef).

(** C30. Unrooted-tree rejection: for a tree that is not rooted the builder
    throws [Exception ("PhyloTree must be rooted")] before it builds
    anything: the store is the one it was given. *)
Theorem unrooted_tree_rejected fuel sites tree model rootFreqs s :
  isRooted (treeValue tree) = false ->
  makeHomogeneousLikelihoodNodes fuel sites tree model rootFreqs s
  = (Err (Exception "PhyloTree must be rooted"), s).
Proof. intros Hr. unfold makeHomogeneousLikelihoodNodes, bind. by rewrite Hr. Qed.

(** The builder in the reading of safety: what the logic gives for a
    finite tree and inputs that exist. *)
Lemma tree_build_run rank fuel sites tree model rootFreqs modelT paramTs rootFreqsT s :
  let h := helper_of sites tree model rootFreqs in
  let mk := makeHomogeneousLikelihoodNodes fuel sites tree model rootFreqs in
  wf_store s -> wf_inputs h s -> inputs_denote h modelT paramTs rootFreqsT s ->
  ranked (treeValue tree) rank -> rank (getRootIndex (treeValue tree)) < fuel ->
  wf_store (final mk s) /\ extends s (final mk s)
  /\ match outcome mk s with
     | Ok c =>
         (is_negated c (final mk s)
          /\ node_of TDouble (likelihood_term h modelT paramTs rootFreqsT fuel) c
               (final mk s))
         /\ replays mk c (final mk s)
     | Err e => thrown e
     end.
Proof.
  intros h mk Hwf Hin Hden Hrank Hfuel.
  assert (resolves h thrown) as Hres.
  { intros n Hn. split; [done|]. intros _. by destruct (getName _ n). }
  assert (inputs h thrown modelT paramTs rootFreqsT s) as Hgiven
    by (split_and!; [exact Hin|by left|exact Hden]).
  exact (builds_makeHomogeneousLikelihoodNodes modelT paramTs rootFreqsT thrown rank fuel
           sites tree model rootFreqs (fun _ => I) Hres (or_intror (conj Hrank Hfuel))
           s Hwf Hgiven).
Qed.

(** C13. Safety and termination of the builder: on a finite tree without
    cycles (a rank decreases from each node to its sons), with fuel above
    the rank of the root, from a well-formed store that holds the model,
    the tree with its parameters and the root frequencies, the builder
    ends in a well-formed store that extends the first one, and either
    returns the node of a negation or throws one of the library's
    exceptions; the recursion does not run out of fuel and no pointer is
    misused. *)
Theorem tree_build_safe rank fuel sites tree model rootFreqs s :
  wf_store s -> wf_inputs (helper_of sites tree model rootFreqs) s ->
  ranked (treeValue tree) rank -> rank (getRootIndex (treeValue tree)) < fuel ->
  let mk := makeHomogeneousLikelihoodNodes fuel sites tree model rootFreqs in
  wf_store (final mk s) /\ extends s (final mk s)
  /\ match outcome mk s with
     | Ok c => is_negated c (final mk s)
     | Err e => thrown e
     end.
Proof.
  intros Hwf Hin Hrank Hfuel mk.
  destruct (inputs_denote_total _ s Hwf Hin) as (modelT & paramTs & rT & Hden).
  destruct (tree_build_run rank fuel sites tree model rootFreqs modelT paramTs rT s)
    as (? & ? & Hr); [done..|].
  split_and!; [done..|]. fold mk in Hr. destruct (outcome mk s); [|done].
  by destruct Hr as [[? _] _].
Qed.

(** C15. Success of the builder: if moreover the tree is rooted, the model,
    the parameters of the tree and the root frequencies are of the
    expected classes, every branch has its length parameter, and every
    leaf has a name that the sites know, then the builder returns the node
    of a negation. *)
Theorem tree_build_succeeds rank fuel sites tree model rootFreqs s :
  wf_store s ->
  wf_inputs (helper_of sites tree model rootFreqs) s ->
  typed_inputs (helper_of sites tree model rootFreqs) s ->
  isRooted (treeValue tree) = true ->
  resolves (helper_of sites tree model rootFreqs) (fun _ => False) ->
  ranked (treeValue tree) rank -> rank (getRootIndex (treeValue tree)) < fuel ->
  let mk := makeHomogeneousLikelihoodNodes fuel sites tree model rootFreqs in
  exists c, outcome mk s = Ok c /\ is_negated c (final mk s).
Proof.
  intros Hwf Hin Hty Hrooted Hres Hrank Hfuel mk.
  destruct (inputs_denote_total _ s Hwf Hin) as (modelT & paramTs & rT & Hden).
  destruct (builds_makeHomogeneousLikelihoodNodes modelT paramTs rT (fun _ => False)
              rank fuel sites tree model rootFreqs) with (s := s) as (_ & _ & Hr);
    [by rewrite Hrooted|done|by right|done|by split_and!; [|right|]|].
  fold mk in Hr. destruct (outcome mk s) as [c|]; [|done].
  exists c. by destruct Hr as [[? _] _].
Qed.

(** C3. The graph built computes the likelihood of the tree: the node
    returned by the builder unfolds, along its dependencies and whatever
    the cache shared, to the expression [likelihood_term]: the negation of
    the logarithm of the likelihood of the sites, over the root frequencies
    and the conditional likelihood of the root, which is the constant
    matrix of the sequence at a leaf and, at an inner node, the combination
    of the forward likelihoods of its branches, each the transition matrix
    of the model at the length of the branch applied to the conditional
    likelihood of the son. *)
Theorem tree_build_denotes rank fuel sites tree model rootFreqs modelT paramTs rootFreqsT
    s c :
  let h := helper_of sites tree model rootFreqs in
  let mk := makeHomogeneousLikelihoodNodes fuel sites tree model rootFreqs in
  wf_store s -> wf_inputs h s -> inputs_denote h modelT paramTs rootFreqsT s ->
  ranked (treeValue tree) rank -> rank (getRootIndex (treeValue tree)) < fuel ->
  outcome mk s = Ok c ->
  exists t, likelihood_term h modelT paramTs rootFreqsT fuel = Some t
            /\ denotes (final mk s) c t.
Proof.
  intros h mk Hwf Hin Hden Hrank Hfuel Hc.
  destruct (tree_build_run rank fuel sites tree model rootFreqs modelT paramTs
              rootFreqsT s) as (_ & _ & Hr); [done..|].
  fold mk in Hr. rewrite Hc in Hr. by destruct Hr as [[_ [_ ?]] _].
Qed.

(** C16. Determinism and structural sharing: once the builder has returned
    a node, building again from the same tree, model and sites, in the
    store it left or in any well-formed store that has grown from it,
    returns the same node and adds nothing to the cache. *)
Theorem tree_build_shares rank fuel sites tree model rootFreqs s c s' :
  let mk := makeHomogeneousLikelihoodNodes fuel sites tree model rootFreqs in
  wf_store s -> wf_inputs (helper_of sites tree model rootFreqs) s ->
  ranked (treeValue tree) rank -> rank (getRootIndex (treeValue tree)) < fuel ->
  outcome mk s = Ok c -> wf_store s' -> extends (final mk s) s' ->
  outcome mk s' = Ok c /\ nodeCache_ (final mk s') = nodeCache_ s'.
Proof.
  intros mk Hwf Hin Hrank Hfuel Hc Hwf' He.
  destruct (inputs_denote_total _ s Hwf Hin) as (modelT & paramTs & rT & Hden).
  destruct (tree_build_run rank fuel sites tree model rootFreqs modelT paramTs rT s)
    as (_ & _ & Hr); [done..|].
  fold mk in Hr. rewrite Hc in Hr. destruct Hr as [_ Hagain].
  by destruct (Hagain s' Hwf' He) as (? & ? & _).
Qed.

(** A leaf whose name the sites do not know: the builder throws
    [SequenceNotFoundException] with that name and adds nothing to the
    store. *)
Theorem leaf_unknown_sequence (h : HomogeneousLikelihoodNodesHelper R) name s :
  getSequencePosition (TreeLikelihood.sites h) name = None ->
  makeInitialConditionalLikelihood h name s = (Err (SequenceNotFoundException name), s).
Proof. intros Hn. unfold makeInitialConditionalLikelihood, bind. by rewrite Hn. Qed.

(** The matrix of a leaf: a constant node of [nbState] rows and
    [nbSite] columns whose coefficient at a state and a site is the value
    the sites give for that site, the sequence of the leaf and the
    alphabet state of that state. *)
Theorem leaf_matrix (h : HomogeneousLikelihoodNodesHelper R) name sequenceIndex s :
  getSequencePosition (TreeLikelihood.sites h) name = Some sequenceIndex ->
  let mk := makeInitialConditionalLikelihood h name in
  exists c m,
    outcome mk s = Ok c /\ stored (final mk s) c TMatrixXd (VEigen m)
    /\ mrows m = nbState h /\ mcols m = nbSite h
    /\ forall state site, state < nbState h -> site < nbSite h ->
         coeff m state site
         = Some (getStateValueAt (TreeLikelihood.sites h) site sequenceIndex
                   (getAlphabetStateAsInt (TreeLikelihood.model h) state)).
Proof.
  intros Hn mk. unfold mk, outcome, final, makeInitialConditionalLikelihood, bind.
  rewrite Hn. simpl.
  set (m := matrix_init (nbState h) (nbSite h) _).
  destruct (NumericConstant_create_spec TMatrixXd (VEigen m) s)
    as (c & n & Hrun & Hc & Ht & Hv & _).
  rewrite Hrun. exists c, m. split_and!; [done| |done|apply mcols_matrix_init|].
  - exists n. by rewrite Ht.
  - intros state site Hs Hj. unfold m. by rewrite coeff_matrix_init.
Qed.

Lemma makeForwardLikelihoodNode_ext (h : HomogeneousLikelihoodNodesHelper R)
    (rec rec' : NodeIndex -> M R NodeId) e s :
  (forall s', rec (getSon (treeValue (TreeLikelihood.tree h)) e) s'
              = rec' (getSon (treeValue (TreeLikelihood.tree h)) e) s') ->
  makeForwardLikelihoodNode h rec e s = makeForwardLikelihoodNode h rec' e s.
Proof.
  intros Hrec. unfold makeForwardLikelihoodNode, bind.
  destruct (from_option_exc _ _ s) as [[i|?] s1]; [|done].
  destruct (dependency _ i s1) as [[brlen|?] s2]; [|done]. by rewrite Hrec.
Qed.

Lemma makeConditionalLikelihoodNode_fuel (h : HomogeneousLikelihoodNodesHelper R)
    rank fuel fuel' index s :
  ranked (treeValue (TreeLikelihood.tree h)) rank ->
  reachable (treeValue (TreeLikelihood.tree h)) index ->
  rank index < fuel -> rank index < fuel' ->
  makeConditionalLikelihoodNode h fuel index s
  = makeConditionalLikelihoodNode h fuel' index s.
Proof.
  intros Hrank. revert fuel' index s.
  induction fuel as [|fuel IH]; intros [|fuel'] index s Hreach Hf Hf'; try lia.
  simpl. case_bool_decide; [done|]. unfold bind.
  rewrite (mapM_ext _ (makeForwardLikelihoodNode h (makeConditionalLikelihoodNode h fuel')));
    [done|].
  intros e s' He. apply makeForwardLikelihoodNode_ext. intros s''.
  pose proof (Hrank _ _ Hreach He).
  apply IH; [by eapply reachable_son|lia..].
Qed.


End BuilderProperties.

(** * A tree of two leaves

    The root, node 0, has the branches 1 and 2 to the leaves 1 and 2, named
    A and B.  The store holds the model (object 0), the two branch lengths
    (objects 1 and 2) and the tree (object 3), whose dependencies are the
    branch lengths.  Two states, three sites, integers for the scalars. *)

Module TreeExamples.

Definition leaf_node (t : type_info) (v : Value Z) : Node Z :=
  mkNode t [] true v scalarDimension None empty_matrix.

Definition tree_store : Store Z :=
  mkStore [leaf_node T_ConfiguredModel (VObject 0);
           leaf_node (T_NumericMutable TDouble) (VDouble 1%Z);
           leaf_node (T_NumericMutable TDouble) (VDouble 2%Z);
           mkNode T_ConfiguredPhyloTree [Some 1; Some 2] true (VObject 1)
                  scalarDimension None empty_matrix]
          [].

Definition two_leaves (rooted : bool) : PhyloTree :=
  mkPhyloTree rooted 0
    (fun n => if decide (n = 0) then [1; 2] else [])
    (fun e => e)
    (fun n => if decide (n = 1) then Some "A"
              else if decide (n = 2) then Some "B" else None).

Definition example_tree (rooted : bool) : ConfiguredPhyloTree :=
  mkConfiguredPhyloTree 3 (two_leaves rooted)
    (fun name => if decide (name = "BrLen1") then Some 0
                 else if decide (name = "BrLen2") then Some 1 else None).

Definition example_model : ConfiguredModel :=
  mkConfiguredModel 0 2 (fun state => Z.of_nat state).

Definition example_sites : AlignedValuesContainer Z :=
  mkSites Z 3
    (fun name => if decide (name = "A") then Some 0
                 else if decide (name = "B") then Some 1 else None)
    (fun site sequence state =>
       (100 * Z.of_nat sequence + 10 * Z.of_nat site + state)%Z).

Definition example_rank (n : NodeIndex) : nat := if decide (n = 0) then 1 else 0.

Abbreviation example_helper rooted :=
  (helper_of example_sites (example_tree rooted) example_model None).

Lemma wf_tree_store : wf_store tree_store.
Proof.
  split; simpl; [| |by intros ? ?%elem_of_nil|constructor].
  - intros i nd d Hn Hd.
    destruct i as [|[|[|[|i]]]]; simplify_eq/=; try (by apply elem_of_nil in Hd).
    rewrite !elem_of_cons, elem_of_nil in Hd. destruct Hd as [[= ->]|[[= ->]|[]]]; lia.
  - intros i nd c Hn Hc. by destruct i as [|[|[|[|i]]]]; simplify_eq/=.
Qed.

Lemma reachable_two_leaves rooted n :
  reachable (two_leaves rooted) n -> n = 0 \/ n = 1 \/ n = 2.
Proof.
  induction 1 as [|m e _ IH He]; [by left|]. simpl in *.
  case_decide; [|by apply elem_of_nil in He].
  rewrite !elem_of_cons, elem_of_nil in He. destruct He as [->|[->|[]]]; auto.
Qed.

Lemma ranked_two_leaves rooted : ranked (two_leaves rooted) example_rank.
Proof.
  intros n e _ He. simpl in *. unfold example_rank.
  case_decide as Hn; [subst n|by apply elem_of_nil in He].
  rewrite !elem_of_cons, elem_of_nil in He.
  destruct He as [->|[->|[]]]; vm_compute; lia.
Qed.

Lemma wf_inputs_example rooted : wf_inputs (example_helper rooted) tree_store.
Proof.
  split_and!; simpl; [lia| |by intros d [= ]%list_elem_of_singleton].
  eexists. split; [done|]. intros name i. simpl.
  repeat case_decide; intros [= <-]; lia.
Qed.

Lemma typed_inputs_example rooted : typed_inputs (example_helper rooted) tree_store.
Proof.
  split_and!; [eexists; split; [done|]; by eexists| |by left].
  eexists. split; [done|]. intros [|[|]] r [= <-]; eexists; split; try done;
    by eexists.
Qed.

Lemma resolves_example rooted : resolves (example_helper rooted) (fun _ => False).
Proof.
  intros n [-> | [-> | ->]]%reachable_two_leaves; split; try done; simpl.
  all: intros e; rewrite ?elem_of_cons, elem_of_nil; by intros [->|[->|[]]] || intros [].
Qed.

Lemma inputs_denote_example rooted :
  inputs_denote (example_helper rooted) (TInput 0) [Some (TInput 1); Some (TInput 2)]
                None tree_store.
Proof.
  split_and!; [done| |done]. eexists. split; [done|]. by repeat constructor.
Qed.

(** The graph of the example: what the builder leaves in the store. *)
Definition example_graph : Store Z :=
  final (makeHomogeneousLikelihoodNodes 2 example_sites (example_tree true)
           example_model None) tree_store.

Lemma wf_example_graph : wf_store example_graph.
Proof.
  destruct (tree_build_run example_rank 2 example_sites (example_tree true) example_model
              None (TInput 0) [Some (TInput 1); Some (TInput 2)] None tree_store
              wf_tree_store (wf_inputs_example true) (inputs_denote_example true)
              (ranked_two_leaves true)) as [Hwf _]; [vm_compute; lia|exact Hwf].
Qed.

End TreeExamples.

Section BuilderWitnesses.
Import TreeExamples.

Lemma unrooted_tree_rejected_witness :
  makeHomogeneousLikelihoodNodes 2 example_sites (example_tree false) example_model None
                                 tree_store
  = (Err (Exception "PhyloTree must be rooted"), tree_store).
Proof. by apply unrooted_tree_rejected. Defined.

Lemma tree_build_safe_witness :
  let mk := makeHomogeneousLikelihoodNodes 2 example_sites (example_tree true)
                                           example_model None in
  wf_store (final mk tree_store) /\ extends tree_store (final mk tree_store)
  /\ match outcome mk tree_store with
     | Ok c => is_negated c (final mk tree_store)
     | Err e => thrown e
     end.
Proof.
  apply (tree_build_safe example_rank 2 example_sites (example_tree true) example_model
           None tree_store wf_tree_store (wf_inputs_example true)
           (ranked_two_leaves true)).
  vm_compute. lia.
Defined.

Lemma tree_build_succeeds_witness :
  let mk := makeHomogeneousLikelihoodNodes 2 example_sites (example_tree true)
                                           example_model None in
  exists c, outcome mk tree_store = Ok c /\ is_negated c (final mk tree_store).
Proof.
  apply (tree_build_succeeds example_rank 2 example_sites (example_tree true)
           example_model None tree_store wf_tree_store (wf_inputs_example true)
           (typed_inputs_example true) eq_refl (resolves_example true)
           (ranked_two_leaves true)).
  vm_compute. lia.
Defined.

Lemma leaf_unknown_sequence_witness :
  makeInitialConditionalLikelihood (example_helper true) "C" tree_store
  = (Err (SequenceNotFoundException "C"), tree_store).
Proof. by apply leaf_unknown_sequence. Defined.

Lemma leaf_matrix_witness :
  let mk := makeInitialConditionalLikelihood (example_helper true) "B" in
  exists c m,
    outcome mk tree_store = Ok c /\ stored (final mk tree_store) c TMatrixXd (VEigen m)
    /\ mrows m = 2 /\ mcols m = 3
    /\ forall state site, state < 2 -> site < 3 ->
         coeff m state site
         = Some (100 * 1 + 10 * Z.of_nat site + Z.of_nat state)%Z.
Proof. by apply (leaf_matrix (example_helper true) "B" 1 tree_store). Defined.


Lemma tree_build_denotes_witness :
  let h := example_helper true in
  let mk := makeHomogeneousLikelihoodNodes 2 example_sites (example_tree true)
                                           example_model None in
  exists t,
    likelihood_term h (TInput 0) [Some (TInput 1); Some (TInput 2)] None 2 = Some t
    /\ denotes (final mk tree_store) 14 t.
Proof.
  apply (tree_build_denotes example_rank 2 example_sites (example_tree true)
           example_model None (TInput 0) [Some (TInput 1); Some (TInput 2)] None
           tree_store 14 wf_tree_store (wf_inputs_example true)
           (inputs_denote_example true) (ranked_two_leaves true));
    [vm_compute; lia|reflexivity].
Defined.

Lemma tree_build_shares_witness :
  let mk := makeHomogeneousLikelihoodNodes 2 example_sites (example_tree true)
                                           example_model None in
  outcome mk example_graph = Ok 14
  /\ nodeCache_ (final mk example_graph) = nodeCache_ example_graph.
Proof.
  apply (tree_build_shares example_rank 2 example_sites (example_tree true)
           example_model None tree_store 14 example_graph wf_tree_store
           (wf_inputs_example true) (ranked_two_leaves true));
    [vm_compute; lia|reflexivity|apply wf_example_graph|reflexivity].
Defined.

End BuilderWitnesses.
