(* ===== verification/TreeValue.v ===== *)
(** * TreeValue: the graph of the likelihood of a tree computes the likelihood

    [TreeLikelihood] proves which expression the node that
    [makeHomogeneousLikelihoodNodes] returns stands for; [TreeCompute] says
    what the classes of that expression compute; [Denotation] proves that
    evaluation computes the value of the expression; [Felsenstein] proves
    that the recursion on vectors is the sum over the labellings of the
    tree.  This file puts them together: the value [getTargetValue]
    returns for the node of the builder is minus the sum, over the sites,
    of the logarithm of the likelihood of the site, which is the sum over
    all the ways of giving a state to each node of the tree of the
    frequency of the state of the root, times the transition probabilities
    along the branches, times the likelihoods of the observations at the
    leaves ([tree_value_is_likelihood]). *)

From Stdlib Require Import QArith Qcanon.
From stdpp Require Import base tactics numbers option list strings.
From S2P Require Import Prelude Values Numeric Felsenstein DataFlow Evaluation Expression.
From S2P Require Import Denotation Incremental Construction TreeCompute TreeLikelihood.

(** ** The builder only adds nodes that are not evaluated *)

Section Grows.
Context {R : Type} `{EqDecision R, Inhabited R}.
Implicit Types (s : Store R) (h : HomogeneousLikelihoodNodesHelper R).

Lemma always_grows_create_node t sig deps dim :
  is_source t = false -> always grows (create_node (R:=R) t sig deps dim).
Proof.
  intros [Hin Hc]%orb_false_elim. unfold create_node.
  apply always_checked; [apply _|]. apply always_bind; [apply _| |intros self].
  - apply always_grows_make_shared. unfold fresh_node. simpl. by rewrite Hc.
  - apply always_grows_cachedAs.
Qed.

Lemma always_grows_create_rule t deps dim :
  is_tree_class t = true -> always grows (create_rule (R:=R) t deps dim).
Proof.
  intros Ht. apply always_grows_create_node.
  by destruct t as [| | | | | | | | | | | | |[]| | | | |].
Qed.

Lemma always_grows_makeInitialConditionalLikelihood h name :
  always grows (makeInitialConditionalLikelihood h name).
Proof. unfold makeInitialConditionalLikelihood. solve_always. Qed.

Lemma always_grows_makeForwardLikelihoodNode h rec e :
  (forall index, always grows (rec index)) ->
  always grows (makeForwardLikelihoodNode h rec e).
Proof.
  intros Hrec. unfold makeForwardLikelihoodNode.
  solve_always; try by apply always_grows_create_rule.
  apply readonly_always; [apply _|apply readonly_dependency].
Qed.

Lemma always_grows_makeConditionalLikelihoodNode h fuel index :
  always grows (makeConditionalLikelihoodNode h fuel index).
Proof.
  revert index. induction fuel as [|fuel IH]; intros index; simpl; [solve_always|].
  case_bool_decide; [solve_always; apply always_grows_makeInitialConditionalLikelihood|].
  solve_always; [by apply always_grows_makeForwardLikelihoodNode|].
  by apply always_grows_create_rule.
Qed.

Lemma always_grows_makeHomogeneousLikelihoodNodes fuel sites tree model rootFreqs :
  always grows (makeHomogeneousLikelihoodNodes (R:=R) fuel sites tree model rootFreqs).
Proof.
  unfold makeHomogeneousLikelihoodNodes.
  solve_always; try by apply always_grows_create_rule.
  apply always_grows_makeConditionalLikelihoodNode.
Qed.

End Grows.

(** ** The value of the expression of the likelihood *)

Section TermValue.
Context {R : Type} `{FieldLaws R, Collaborators R, Log R}.
Variable h : HomogeneousLikelihoodNodesHelper R.
Variables (modelT : Term R) (paramTs : list (option (Term R)))
  (rootFreqsT : option (Term R)).
Variable env : NodeId -> option (Value R).
Variables (modelObject : nat) (brlen : EdgeIndex -> R) (freqs : list R).
Implicit Types (fuel site : nat) (index : NodeIndex) (e : EdgeIndex) (t : Term R).

#[local] Open Scope field_scope.

(** The matrix of transition probabilities of a branch. *)
Definition branch_matrix e : Matrix R :=
  transitionProbabilities modelObject (brlen e).

(** What the sites say of the sequence of a leaf at a site, for each
    state. *)
Definition observation site index : list R :=
  match getName (treeValue (tree h)) index ≫= getSequencePosition (sites h) with
  | Some sequenceIndex =>
      (fun state => getStateValueAt (sites h) site sequenceIndex
                      (getAlphabetStateAsInt (model h) state)) <$> seq 0 (nbState h)
  | None => []
  end.

(** The conditional likelihood of a node at a site, by pruning. *)
Definition conditional_at fuel index site : list R :=
  conditional (getBranches (treeValue (tree h))) (getSon (treeValue (tree h)))
    branch_matrix (observation site) fuel index.

Definition conditional_matrix fuel index : Matrix R :=
  by_columns (nbState h) (nbSite h) (conditional_at fuel index).

(** The likelihood of each site, and minus the sum of their logarithms. *)
Definition site_likelihoods fuel : list R :=
  (fun site => dot freqs (conditional_at fuel (getRootIndex (treeValue (tree h))) site))
    <$> seq 0 (nbSite h).

Definition minus_log_likelihood fuel : R := - sum (ln <$> site_likelihoods fuel).

(** *** What the inputs hold *)

Hypothesis model_value : term_value env modelT = Some (VObject modelObject).
Hypothesis brlen_value : forall e i ot,
  getParameterIndex (tree h) (brLenName e) = Some i -> paramTs !! i = Some ot ->
  exists t, ot = Some t /\ term_value env t = Some (VDouble (brlen e)).
Hypothesis branch_matrix_rows : forall e, mrows (branch_matrix e) = nbState h.

Lemma transition_term_value e t :
  transition_term h modelT paramTs e = Some t ->
  term_value env t = Some (VEigen (branch_matrix e)).
Proof.
  unfold transition_term.
  destruct (getParameterIndex (tree h) (brLenName e)) as [i|] eqn:Hi; [simpl|done].
  destruct (paramTs !! i) as [ot|] eqn:Hot; [simpl|done]. intros [= <-].
  destruct (brlen_value e i ot Hi Hot) as (t & -> & Ht).
  rewrite term_value_TNode. unfold term_values. simpl. by rewrite model_value, Ht.
Qed.

Lemma forward_term_value rec e t (C : Matrix R) :
  forward_term h modelT paramTs rec e = Some t ->
  (forall c, rec (getSon (treeValue (tree h)) e) = Some c ->
     term_value env c = Some (VEigen C)) ->
  term_value env t = Some (VEigen (mmul (branch_matrix e) C)).
Proof.
  unfold forward_term. intros Ht Hrec.
  destruct (transition_term h modelT paramTs e) as [tm|] eqn:Htm; [simpl in Ht|done].
  destruct (rec _) as [c|] eqn:Hc; [simpl in Ht|done]. injection Ht as <-.
  rewrite term_value_TNode. unfold term_values. simpl.
  by rewrite (transition_term_value e tm Htm), (Hrec c eq_refl).
Qed.

Lemma forward_terms_value rec (C : NodeIndex -> Matrix R) bs deps :
  list.mapM (forward_term h modelT paramTs rec) bs = Some deps ->
  (forall e c, e ∈ bs -> rec (getSon (treeValue (tree h)) e) = Some c ->
     term_value env c = Some (VEigen (C (getSon (treeValue (tree h)) e)))) ->
  term_values env (Some <$> deps)
  = Some ((fun e => VEigen (mmul (branch_matrix e) (C (getSon (treeValue (tree h)) e))))
            <$> bs).
Proof.
  intros Hdeps%mapM_Some_1 Hrec. apply mapM_Some_2.
  induction Hdeps as [|e t bs deps Ht _ IH]; csimpl; constructor.
  - simpl. apply (forward_term_value rec e t _ Ht). intros c. apply Hrec. left.
  - apply IH. intros e' c He'. apply Hrec. by right.
Qed.

Lemma matrices_fmap {A} (f : A -> Matrix R) (l : list A) :
  matrices ((fun a => VEigen (f a)) <$> l) = Some (f <$> l).
Proof.
  unfold matrices. apply mapM_Some_2. induction l as [|a l IH]; csimpl; by constructor.
Qed.

(** The conditional likelihood of a node: the matrix whose column at a
    site is the vector the pruning recursion gives. *)
Lemma conditional_term_value fuel index t :
  conditional_term h modelT paramTs fuel index = Some t ->
  term_value env t = Some (VEigen (conditional_matrix fuel index)).
Proof.
  revert index t. induction fuel as [|fuel IH]; intros index t; [done|]. simpl.
  case_bool_decide as Hb.
  - destruct (getName (treeValue (tree h)) index) as [name|] eqn:Hname; [simpl|done].
    unfold leaf_term.
    destruct (getSequencePosition (sites h) name) as [sequenceIndex|] eqn:Hseq;
      [simpl|done].
    intros [= <-]. simpl. do 2 f_equal. rewrite matrix_init_by_columns.
    apply by_columns_ext. intros site _. unfold conditional_at, observation. simpl.
    by rewrite Hb, Hname; simpl; rewrite Hseq.
  - destruct (list.mapM _ _) as [deps|] eqn:Hdeps; [simpl|done]. intros [= <-].
    rewrite term_value_TNode. simpl.
    rewrite (forward_terms_value _ (conditional_matrix fuel) _ deps Hdeps)
      by (intros e c _; apply IH).
    simpl. unfold class_value, tree_class_value, tree_value.
    rewrite matrices_fmap.
    destruct (getBranches (treeValue (tree h)) index) as [|e es] eqn:Hbs; [done|].
    csimpl. do 2 f_equal. unfold conditional_matrix.
    rewrite mmul_by_columns, branch_matrix_rows.
    rewrite (list_fmap_ext _ (by_columns (nbState h) (nbSite h)
               ∘ (fun e site => apply (branch_matrix e)
                    (conditional_at fuel (getSon (treeValue (tree h)) e) site))) es)
      by (intros _ e' _; simpl; by rewrite mmul_by_columns, branch_matrix_rows).
    rewrite list_fmap_compose, foldl_cwise_matrix_by_columns.
    apply by_columns_ext. intros site _. unfold conditional_at at 3. simpl.
    by rewrite Hbs, <- list_fmap_compose.
Qed.

Hypothesis freqs_value :
  term_value env (frequencies_term h modelT rootFreqsT)
  = Some (VEigen (row_vector freqs)).

(** The expression of the builder has for value minus the sum of the
    logarithms of the likelihoods of the sites. *)
Lemma likelihood_term_value fuel t :
  likelihood_term h modelT paramTs rootFreqsT fuel = Some t ->
  term_value env t = Some (VDouble (minus_log_likelihood fuel)).
Proof.
  unfold likelihood_term.
  destruct (conditional_term h modelT paramTs fuel _) as [root|] eqn:Hroot; [simpl|done].
  intros [= <-]. unfold negated_term, total_term, site_term.
  rewrite !term_value_TNode. unfold term_values. simpl.
  rewrite freqs_value, (conditional_term_value fuel _ root Hroot). simpl.
  unfold class_value, tree_class_value. simpl.
  rewrite !coefficients_row_vector. unfold minus_log_likelihood, site_likelihoods.
  by rewrite <- !list_fmap_compose.
Qed.

End TermValue.

(** ** The builder, then evaluation *)

Section Composition.
Context {R : Type} `{EqDecision R, Inhabited R, FieldLaws R, Collaborators R, Log R}.
Context (other : Compute R) `{!@ComputeLaws R _ _ other}.
Implicit Types (s : Store R) (h : HomogeneousLikelihoodNodesHelper R)
  (brlen : EdgeIndex -> R) (freqs : list R).

#[local] Open Scope field_scope.

(** What the inputs of the builder hold: the model is the object
    [modelObject]; the parameter of each branch holds the length of the
    branch; the frequencies are those of the frequency set given for the
    root, or the equilibrium frequencies of the model. *)
Definition inputs_hold h s (modelObject : nat) brlen freqs : Prop :=
  value_of s (modelNode (model h)) = Some (VObject modelObject)
  /\ (exists n, heap s !! treeNode (tree h) = Some n
        /\ forall e i, getParameterIndex (tree h) (brLenName e) = Some i ->
             exists d, dependencyNodes_ n !! i = Some (Some d)
                       /\ value_of s d = Some (VDouble (brlen e)))
  /\ match rootFreqs h with
     | Some r => exists freqsObject,
         value_of s r = Some (VObject freqsObject) /\ freqs = frequencies freqsObject
     | None => freqs = equilibriumFrequencies modelObject
     end.

Lemma value_of_denotes s id t :
  denotes s id t -> value_of s id = term_value (input_value s) t.
Proof. intros Ht. unfold value_of. by rewrite Ht. Qed.

(** The expression of the frequencies has the frequencies for value. *)
Lemma frequencies_term_value h s modelT paramTs rootFreqsT modelObject brlen freqs :
  inputs_denote h modelT paramTs rootFreqsT s ->
  inputs_hold h s modelObject brlen freqs ->
  term_value (input_value s) (frequencies_term h modelT rootFreqsT)
  = Some (VEigen (row_vector freqs)).
Proof.
  intros (HmT & _ & HrT) (Hm & _ & Hr). unfold frequencies_term.
  rewrite (value_of_denotes _ _ _ HmT) in Hm.
  destruct (rootFreqs h) as [r|]; rewrite term_value_TNode; unfold term_values; simpl.
  - destruct Hr as (q & Hq & ->). destruct rootFreqsT as [t|]; [simpl|done].
    rewrite (value_of_denotes _ _ _ HrT) in Hq. by rewrite Hq.
  - by rewrite Hm, Hr.
Qed.

(** The expressions of the parameters have the lengths of the branches
    for values. *)
Lemma brlen_term_value h s modelT paramTs rootFreqsT modelObject brlen freqs e i ot :
  inputs_denote h modelT paramTs rootFreqsT s ->
  inputs_hold h s modelObject brlen freqs ->
  getParameterIndex (tree h) (brLenName e) = Some i -> paramTs !! i = Some ot ->
  exists t, ot = Some t /\ term_value (input_value s) t = Some (VDouble (brlen e)).
Proof.
  intros (_ & (n & Hn & Hts) & _) (_ & (n' & Hn' & Hlen) & _) Hi Hot.
  assert (n' = n) as -> by congruence.
  destruct (Hlen e i Hi) as (d & Hd & Hv).
  destruct (Forall2_lookup_l _ _ _ _ _ Hts Hd) as (ot' & Hot' & Href).
  assert (ot' = ot) as -> by congruence. destruct ot as [t|]; [|done].
  exists t. split; [done|]. by rewrite <- (value_of_denotes _ _ _ Href).
Qed.

(** The builder returns a node of the expression of the likelihood. *)
Lemma tree_build_returns rank fuel sites tree model rootFreqs modelT paramTs rootFreqsT s :
  let h := helper_of sites tree model rootFreqs in
  let mk := makeHomogeneousLikelihoodNodes fuel sites tree model rootFreqs in
  wf_store s -> wf_inputs h s -> typed_inputs h s ->
  inputs_denote h modelT paramTs rootFreqsT s ->
  isRooted (treeValue tree) = true -> resolves h (fun _ => False) ->
  ranked (treeValue tree) rank -> rank (getRootIndex (treeValue tree)) < fuel ->
  exists c t, outcome mk s = Ok c /\ wf_store (final mk s) /\ extends s (final mk s)
    /\ likelihood_term h modelT paramTs rootFreqsT fuel = Some t
    /\ denotes (final mk s) c t.
Proof.
  intros h mk Hwf Hin Hty Hden Hrooted Hres Hrank Hfuel.
  destruct (builds_makeHomogeneousLikelihoodNodes modelT paramTs rootFreqsT
              (fun _ => False) rank fuel sites tree model rootFreqs) with (s := s)
    as (Hwf' & He & Hr);
    [by rewrite Hrooted|done|by right|done|by split_and!; [|right|]|].
  fold mk in Hr, Hwf', He. destruct (outcome mk s) as [c|]; [|done].
  destruct Hr as [[_ [_ (t & Ht & Hc)]] _]. by exists c, t.
Qed.

(** What continues a store keeps what its inputs hold. *)
Lemma inputs_hold_continues h s s' modelObject brlen freqs :
  continues s s' -> inputs_hold h s modelObject brlen freqs ->
  inputs_hold h s' modelObject brlen freqs.
Proof.
  intros ([He _] & Hv) (Hm & (n & Hn & Hlen) & Hr).
  assert (forall i v, value_of s i = Some v -> value_of s' i = Some v) as Hkeep.
  { intros i v Hi. rewrite Hv; [done|by eapply value_of_Some_lt]. }
  split_and!; [by apply Hkeep| |].
  - destruct (extends_same_deps _ _ _ _ He Hn) as (n' & Hn' & Hd & _).
    exists n'. split; [done|]. intros e i Hi. rewrite Hd.
    destruct (Hlen e i Hi) as (d & Hdi & Hdv). exists d. auto.
  - destruct (rootFreqs h) as [r|]; [|done]. destruct Hr as (q & Hq & ->).
    exists q. auto.
Qed.

(** The value of a node of the expression of the likelihood, in a store
    whose inputs hold the model, the lengths and the frequencies. *)
Lemma likelihood_value_of h s modelT paramTs rootFreqsT modelObject brlen freqs fuel c t :
  inputs_denote h modelT paramTs rootFreqsT s ->
  inputs_hold h s modelObject brlen freqs ->
  (forall e, mrows (transitionProbabilities modelObject (brlen e)) = nbState h) ->
  likelihood_term h modelT paramTs rootFreqsT fuel = Some t -> denotes s c t ->
  value_of s c = Some (VDouble (minus_log_likelihood h modelObject brlen freqs fuel)).
Proof.
  intros Hden Hhold Hrows Ht Hct. rewrite (value_of_denotes _ _ _ Hct).
  apply (likelihood_term_value h modelT paramTs rootFreqsT); try done.
  - by destruct Hden as (HmT & _); destruct Hhold as (Hm & _);
      rewrite <- (value_of_denotes _ _ _ HmT).
  - intros e i ot. by eapply brlen_term_value.
  - by eapply frequencies_term_value.
Qed.

(** The builder, then [getTargetValue] on the node it returns. *)
Definition likelihood_value fuel (sites : AlignedValuesContainer R) tree model rootFreqs
    : M R (Value R) :=
  c <- makeHomogeneousLikelihoodNodes fuel sites tree model rootFreqs ;;
  @getTargetValue R (tree_compute other) c.

(** The two runs of [likelihood_value]: the builder returns a node of the
    expression of the likelihood in a store that has grown, evaluation
    returns the value of the expression in a store that continues it. *)
Lemma likelihood_value_runs rank fuel sites tree model rootFreqs s modelObject brlen freqs :
  let h := helper_of sites tree model rootFreqs in
  let mk := makeHomogeneousLikelihoodNodes fuel sites tree model rootFreqs in
  wf_store s -> coherent s -> constants_valid s ->
  wf_inputs h s -> typed_inputs h s -> inputs_hold h s modelObject brlen freqs ->
  (forall e, mrows (transitionProbabilities modelObject (brlen e))
             = getNumberOfStates model) ->
  isRooted (treeValue tree) = true -> resolves h (fun _ => False) ->
  ranked (treeValue tree) rank -> rank (getRootIndex (treeValue tree)) < fuel ->
  exists c s1 s2 modelT paramTs rootFreqsT t,
    mk s = (Ok c, s1)
    /\ @getTargetValue R (tree_compute other) c s1
       = (Ok (VDouble (minus_log_likelihood h modelObject brlen freqs fuel)), s2)
    /\ inputs_denote h modelT paramTs rootFreqsT s
    /\ likelihood_term h modelT paramTs rootFreqsT fuel = Some t /\ denotes s1 c t
    /\ wf_store s1 /\ grows s s1 /\ continues s s1
    /\ wf_store s2 /\ coherent s2 /\ constants_valid s2
    /\ frame s1 s2 /\ continues s1 s2.
Proof.
  intros h mk Hwf Hc Hs Hin Hty Hhold Hrows Hrooted Hres Hrank Hfuel.
  destruct (inputs_denote_total h s Hwf Hin) as (modelT & paramTs & rT & Hden).
  destruct (tree_build_returns rank fuel sites tree model rootFreqs modelT paramTs rT s)
    as (c & t & Hok & Hwf' & He & Ht & Hct); [done..|].
  fold mk in Hok, Hwf', He, Hct.
  pose proof (always_grows_makeHomogeneousLikelihoodNodes fuel sites tree model
                rootFreqs s) as Hg. fold mk in Hg.
  pose proof (continues_grows _ _ Hwf Hwf' He Hg) as Hcont.
  pose proof (likelihood_value_of h (final mk s) modelT paramTs rT modelObject brlen
                freqs fuel c t (stable_inputs_denote h modelT paramTs rT _ _ He Hden)
                (inputs_hold_continues _ _ _ _ _ _ Hcont Hhold) Hrows Ht Hct) as Hv.
  destruct (getTargetValue_value (Cmp := tree_compute other) c (final mk s) _ Hwf'
              (coherent_grows _ _ Hwf Hwf' He Hg Hc) (constants_valid_grows _ _ Hg Hs) Hv)
    as (Hout & Hwf2 & Hc2 & Hs2 & Hk2).
  pose proof (always_frame_getTargetValue (Compute0 := tree_compute other) c
                (final mk s)) as Hf2.
  exists c, (final mk s), (final (@getTargetValue R (tree_compute other) c) (final mk s)),
    modelT, paramTs, rT, t.
  split_and!; try done.
  - rewrite <- Hok. apply surjective_pairing.
  - rewrite <- Hout. apply surjective_pairing.
  - by apply continues_frame.
Qed.

(** The run of [likelihood_value]: the value of the expression of the
    likelihood. *)
Lemma likelihood_value_run rank fuel sites tree model rootFreqs s modelObject brlen freqs :
  let h := helper_of sites tree model rootFreqs in
  wf_store s -> coherent s -> constants_valid s ->
  wf_inputs h s -> typed_inputs h s -> inputs_hold h s modelObject brlen freqs ->
  (forall e, mrows (transitionProbabilities modelObject (brlen e))
             = getNumberOfStates model) ->
  isRooted (treeValue tree) = true -> resolves h (fun _ => False) ->
  ranked (treeValue tree) rank -> rank (getRootIndex (treeValue tree)) < fuel ->
  outcome (likelihood_value fuel sites tree model rootFreqs) s
  = Ok (VDouble (minus_log_likelihood h modelObject brlen freqs fuel)).
Proof.
  intros h Hwf Hc Hs Hin Hty Hhold Hrows Hrooted Hres Hrank Hfuel.
  destruct (likelihood_value_runs rank fuel sites tree model rootFreqs s modelObject
              brlen freqs) as (c & s1 & s2 & _ & _ & _ & _ & Hmk & Hget & _); [done..|].
  unfold likelihood_value, outcome. by rewrite (bind_ok _ _ _ _ _ Hmk), Hget.
Qed.

(** C5. The graph of the builder computes the likelihood of the tree.
    From a well-formed store whose valid nodes hold the values of their
    expressions, with a rooted finite tree, a model that is the object
    [modelObject], a length for every branch in the parameter of the
    branch and names the sites know, the builder returns a node, and
    [getTargetValue] on that node returns minus the sum, over the sites, of
    the logarithm of the likelihood of the tree at the site: the sum, over
    all the ways of giving a state to every node of the tree, of the
    frequency of the state of the root times the transition probabilities
    along the branches times the likelihoods of the observations at the
    leaves.  The transition matrices are square with one row for each
    state and there is one frequency for each state. *)
Theorem tree_value_is_likelihood rank fuel sites tree model rootFreqs s modelObject brlen
    freqs :
  let h := helper_of sites tree model rootFreqs in
  let P e := transitionProbabilities modelObject (brlen e) in
  let likelihood site :=
    tree_likelihood (getNumberOfStates model) (getBranches (treeValue tree))
      (getSon (treeValue tree)) P (observation h site) freqs fuel
      (getRootIndex (treeValue tree)) in
  wf_store s -> coherent s -> constants_valid s ->
  wf_inputs h s -> typed_inputs h s -> inputs_hold h s modelObject brlen freqs ->
  (forall e, mrows (P e) = getNumberOfStates model) ->
  (forall e, mcols (P e) = getNumberOfStates model) ->
  length freqs = getNumberOfStates model ->
  isRooted (treeValue tree) = true -> resolves h (fun _ => False) ->
  ranked (treeValue tree) rank -> rank (getRootIndex (treeValue tree)) < fuel ->
  outcome (likelihood_value fuel sites tree model rootFreqs) s
  = Ok (VDouble (- sum (ln <$> (likelihood <$> seq 0 (getNumberOfSites sites))))).
Proof.
  intros h P likelihood Hwf Hc Hs Hin Hty Hhold Hrows Hcols Hfreqs Hrooted Hres Hrank
    Hfuel.
  rewrite (likelihood_value_run rank fuel sites tree model rootFreqs s modelObject brlen
             freqs) by done.
  unfold minus_log_likelihood, site_likelihoods.
  rewrite (list_fmap_ext _ likelihood); [done|]. intros _ site _.
  by apply (pruning_is_likelihood (getNumberOfStates model)).
Qed.

End Composition.

(** ** A tree of two leaves, over the rationals

    The tree of [TreeExamples]: the root with the branches 1 and 2 to the
    leaves A and B.  Two states, three sites.  The model gives a branch of
    length [t] the matrix with [1 - t] on the diagonal and [t] off it, and
    the two states the same frequency.  A leaf observes one state at each
    site: the likelihood of that state is one, of the other zero. *)

Module TreeValueExample.
Import TreeExamples.

Definition tenth (k : Z) : Qc := Q2Qc (k # 10).

Definition example_collaborators : Collaborators Qc := {|
  transitionProbabilities _ t := mkMatrix 2 [[(1 - t)%Qc; t]; [t; (1 - t)%Qc]];
  equilibriumFrequencies _ := [tenth 5; tenth 5];
  frequencies _ := [tenth 5; tenth 5];
|}.

(** The logarithm has no rational values; the example takes the first
    term of its series at 1.  The theorems assume nothing of [ln]. *)
Definition example_log : Log Qc := fun x => (x - 1)%Qc.

Definition input_node (t : type_info) (v : Value Qc) : Node Qc :=
  mkNode t [] true v scalarDimension None empty_matrix.

(** The model (object 0), the two branch lengths and the tree, whose
    dependencies are the branch lengths. *)
Definition inputs_store : Store Qc :=
  mkStore [input_node T_ConfiguredModel (VObject 0);
           input_node (T_NumericMutable TDouble) (VDouble (tenth 1));
           input_node (T_NumericMutable TDouble) (VDouble (tenth 2));
           mkNode T_ConfiguredPhyloTree [Some 1; Some 2] true (VObject 1)
                  scalarDimension None empty_matrix]
          [].

(** The states observed: A shows 0, 1, 0 and B shows 0, 0, 1. *)
Definition observed (site sequence : nat) : Z :=
  match sequence, site with
  | 0, 1 | 1, 2 => 1
  | _, _ => 0
  end.

Definition observed_sites : AlignedValuesContainer Qc :=
  mkSites Qc 3
    (fun name => if decide (name = "A") then Some 0
                 else if decide (name = "B") then Some 1 else None)
    (fun site sequence state =>
       if decide (state = observed site sequence) then 1%Qc else 0%Qc).

(** The length of a branch: the value of its parameter. *)
Definition lengths (e : EdgeIndex) : Qc :=
  match getParameterIndex (example_tree true) (brLenName e) with
  | Some 0 => tenth 1
  | _ => tenth 2
  end.

Abbreviation helper :=
  (helper_of observed_sites (example_tree true) example_model None).

Lemma wf_inputs_store : wf_store inputs_store.
Proof.
  split; simpl; [| |by intros ? ?%elem_of_nil|constructor].
  - intros i nd d Hn Hd.
    destruct i as [|[|[|[|i]]]]; simplify_eq/=; try (by apply elem_of_nil in Hd).
    rewrite !elem_of_cons, elem_of_nil in Hd. destruct Hd as [[= ->]|[[= ->]|[]]]; lia.
  - intros i nd c Hn Hc. by destruct i as [|[|[|[|i]]]]; simplify_eq/=.
Qed.

Lemma sources_inputs_store id n :
  heap inputs_store !! id = Some n -> is_source (node_type n) = true.
Proof. by destruct id as [|[|[|[|i]]]]; intros [= <-]. Qed.

Lemma constants_valid_inputs_store : constants_valid inputs_store.
Proof. intros id n Hn Hc. destruct id as [|[|[|[|i]]]]; by simplify_eq/=. Qed.

Lemma wf_inputs_helper : wf_inputs helper inputs_store.
Proof.
  split_and!; simpl; [lia| |by intros d [= ]%list_elem_of_singleton].
  eexists. split; [done|]. intros name i. simpl.
  repeat case_decide; intros [= <-]; lia.
Qed.

Lemma typed_inputs_helper : typed_inputs helper inputs_store.
Proof.
  split_and!; [eexists; split; [done|]; by eexists| |by left].
  eexists. split; [done|]. intros [|[|]] r [= <-]; eexists; split; try done;
    by eexists.
Qed.

Lemma resolves_helper : resolves helper (fun _ => False).
Proof.
  intros n [-> | [-> | ->]]%reachable_two_leaves; split; try done; simpl.
  all: intros e; rewrite ?elem_of_cons, elem_of_nil; by intros [->|[->|[]]] || intros [].
Qed.

#[local] Existing Instances example_collaborators example_log.

Lemma coherent_inputs_store : coherent inputs_store.
Proof. apply coherent_sources; [apply wf_inputs_store|apply sources_inputs_store]. Qed.

Lemma inputs_hold_helper :
  inputs_hold helper inputs_store 0 lengths [tenth 5; tenth 5].
Proof.
  split_and!; [done| |done]. eexists. split; [done|]. intros e i. unfold lengths. simpl.
  repeat case_decide; intros [= <-]; by eexists.
Qed.

(** The likelihoods of the three sites, by enumeration of the states of
    the root and of the leaves, and the value the graph computes. *)
Example example_site_likelihoods :
  Qcanon.this
    <$> ((fun site =>
            tree_likelihood 2 (getBranches (two_leaves true)) (getSon (two_leaves true))
              (fun e => transitionProbabilities 0 (lengths e))
              (observation helper site) [tenth 5; tenth 5] 2 0) <$> seq 0 3)
  = [37 # 100; 13 # 100; 13 # 100]%Q.
Proof. by vm_compute. Qed.

Example example_likelihood_value :
  outcome (likelihood_value compute_nothing 2 observed_sites (example_tree true)
             example_model None) inputs_store
  = Ok (VDouble (Q2Qc (237 # 100))).
Proof. vm_compute. f_equal. Qed.

End TreeValueExample.

#[local] Existing Instances TreeValueExample.example_collaborators
  TreeValueExample.example_log.

Lemma tree_value_is_likelihood_witness :
  let likelihood site :=
    tree_likelihood 2 (getBranches (TreeExamples.two_leaves true))
      (getSon (TreeExamples.two_leaves true))
      (fun e => transitionProbabilities 0 (TreeValueExample.lengths e))
      (observation TreeValueExample.helper site)
      [TreeValueExample.tenth 5; TreeValueExample.tenth 5] 2 0 in
  outcome (likelihood_value compute_nothing 2 TreeValueExample.observed_sites
             (TreeExamples.example_tree true) TreeExamples.example_model None)
    TreeValueExample.inputs_store
  = Ok (VDouble (- sum (ln <$> (likelihood <$> seq 0 3)))%F).
Proof.
  apply (tree_value_is_likelihood compute_nothing TreeExamples.example_rank 2
           TreeValueExample.observed_sites (TreeExamples.example_tree true)
           TreeExamples.example_model None TreeValueExample.inputs_store 0
           TreeValueExample.lengths
           [TreeValueExample.tenth 5; TreeValueExample.tenth 5]
           TreeValueExample.wf_inputs_store TreeValueExample.coherent_inputs_store
           TreeValueExample.constants_valid_inputs_store
           TreeValueExample.wf_inputs_helper TreeValueExample.typed_inputs_helper
           TreeValueExample.inputs_hold_helper).
  - reflexivity.
  - reflexivity.
  - reflexivity.
  - reflexivity.
  - apply TreeValueExample.resolves_helper.
  - apply TreeExamples.ranked_two_leaves.
  - vm_compute. lia.
Defined.
