(* ===== verification/TreeUpdate.v ===== *)
(** * TreeUpdate: the likelihood of a tree along a session of changes

    The graph of the likelihood is built once and evaluated many times,
    each time after a change of a parameter.  This file follows such a
    session: the builder, [getTargetValue], and then rounds of [setValue]
    on a mutable leaf that holds the length of a branch followed by
    [getTargetValue] ([likelihood_session]).  Every evaluation returns
    the likelihood of the tree with the lengths of the moment
    ([tree_session_values]): what an earlier evaluation left in the nodes
    downstream of the leaf is not used, what it left in the others is.

    A leaf the session may change ([parameter_leaf]) is not upstream of
    the model, of the frequencies or of the parameter of a branch other
    than its own.  The tree node itself depends on the leaf and is made
    invalid, which does not matter: the builder reads the parameters of
    the tree, not its value.

    The invariant of the session is [evaluated]: the store is well
    formed, its valid nodes have valid dependencies and hold the values of
    their expressions, the inputs hold the model, the lengths of the
    moment and the frequencies, and the node of the builder stands for
    the expression of the likelihood. *)

From Stdlib Require Import QArith Qcanon.
From stdpp Require Import base tactics numbers option list strings relations.
From S2P Require Import Prelude Values Numeric Felsenstein DataFlow Evaluation Invalidation.
From S2P Require Import Expression Denotation Incremental Construction TreeCompute.
From S2P Require Import TreeLikelihood TreeValue.

(** ** The parameters of the branches *)

Section Parameters.
Context {R : Type} `{EqDecision R, Inhabited R} {CV : ClassValue R}.
Implicit Types (s : Store R) (h : HomogeneousLikelihoodNodesHelper R)
  (brlen : EdgeIndex -> R) (m d : NodeId) (x : R) (e : EdgeIndex).

(** The node that holds the length of a branch: the dependency of the
    tree node at the index of the parameter of the branch. *)
Definition parameter_node h s e : option NodeId :=
  n ← heap s !! treeNode (tree h);
  i ← getParameterIndex (tree h) (brLenName e);
  mjoin (dependencyNodes_ n !! i).

(** The lengths after the leaf [m] got the value [x], for branches whose
    parameters are the nodes [param]. *)
Definition set_length (param : EdgeIndex -> option NodeId) m x brlen : EdgeIndex -> R :=
  fun e => if decide (param e = Some m) then x else brlen e.

(** A leaf the session may change: a mutable number without dependencies
    that is not upstream of the model, of the frequencies, or of the
    parameter of a branch other than its own. *)
Definition parameter_leaf h s m : Prop :=
  (exists n, heap s !! m = Some n /\ node_type n = T_NumericMutable TDouble
             /\ dependencyNodes_ n = [])
  /\ ~ downstream s m (modelNode (model h))
  /\ match rootFreqs h with Some r => ~ downstream s m r | None => True end
  /\ forall e d, parameter_node h s e = Some d -> d <> m -> ~ downstream s m d.

Lemma parameter_node_extends h s s' e :
  extends s s' -> is_Some (heap s !! treeNode (tree h)) ->
  parameter_node h s' e = parameter_node h s e.
Proof.
  intros He [n Hn]. destruct (extends_same_deps _ _ _ _ He Hn) as (n' & Hn' & Hd & _).
  unfold parameter_node. by rewrite Hn, Hn'; simpl; rewrite Hd.
Qed.

Lemma parameter_node_lt h s e d :
  wf_store s -> parameter_node h s e = Some d -> d < length (heap s).
Proof.
  intros Hwf. unfold parameter_node.
  destruct (heap s !! treeNode (tree h)) as [n|] eqn:Hn; [simpl|done].
  destruct (getParameterIndex _ _) as [i|]; [simpl|done].
  destruct (dependencyNodes_ n !! i) as [[d'|]|] eqn:Hd; [|done..]. intros [= ->].
  pose proof (wf_deps s Hwf _ n d Hn (list_elem_of_lookup_2 _ _ _ Hd)).
  apply lookup_lt_Some in Hn. lia.
Qed.

(** The leaves of a store are those of a store with the same graph. *)
Lemma parameter_leaf_same_graph h s s' m :
  wf_store s -> wf_inputs h s -> same_graph s s' ->
  parameter_leaf h s m -> parameter_leaf h s' m.
Proof.
  intros Hwf (Hmod & (nt & Hnt & _) & Hrf) [He Hd] ((n & Hn & Ht & Hdeps) & Hm & Hr & Hp).
  split_and!.
  - destruct (extends_same_deps _ _ _ _ He Hn) as (n' & Hn' & Hd' & Ht').
    exists n'. by rewrite Hd', Ht'.
  - intros H'. by apply Hm, Hd.
  - destruct (rootFreqs h) as [r|]; [|done]. intros H'. apply Hr, Hd; [|done].
    apply Hrf. by left.
  - intros e d. rewrite (parameter_node_extends h s s') by done. intros Hpn Hne H'.
    apply (Hp e d Hpn Hne), Hd; [|done]. by eapply parameter_node_lt.
Qed.

End Parameters.

(** ** A round: a change, then evaluation *)

Section Update.
Context {R : Type} `{EqDecision R, Inhabited R, FieldLaws R, Collaborators R, Log R}.
Context (other : Compute R) `{!@ComputeLaws R _ _ other}.
Implicit Types (s : Store R) (h : HomogeneousLikelihoodNodesHelper R)
  (brlen : EdgeIndex -> R) (freqs : list R) (m c : NodeId) (x : R) (t : Term R)
  (us : list (NodeId * R)).

#[local] Open Scope field_scope.

(** What the inputs hold after the change. *)
Lemma inputs_hold_setValue h s param m x modelObject brlen freqs :
  (forall e, param e = parameter_node h s e) ->
  wf_store s -> consistent s -> parameter_leaf h s m ->
  inputs_hold h s modelObject brlen freqs ->
  inputs_hold h (final (NumericMutable.setValue m (VDouble x)) s) modelObject
    (set_length param m x brlen) freqs.
Proof.
  intros Hparam Hwf Hc ((n & Hn & Ht & Hd) & Hum & Hur & Hup)
    (Hm & (n0 & Hn0 & Hlen) & Hr).
  pose proof (value_of_setValue_outside m (VDouble x) n TDouble s Hwf Hc Hn Ht Hd)
    as Hkeep.
  pose proof (frame_extends _ _ (frame_setValue m (VDouble x) n TDouble s Hwf Hc Hn Ht Hd))
    as He.
  split_and!; [by rewrite Hkeep| |].
  - destruct (extends_same_deps _ _ _ _ He Hn0) as (n' & Hn' & Hd' & _).
    exists n'. split; [done|]. intros e i Hi. rewrite Hd'.
    destruct (Hlen e i Hi) as (d & Hdi & Hdv). exists d. split; [done|].
    assert (parameter_node h s e = Some d) as Hpn
      by (unfold parameter_node; by rewrite Hn0; simpl; rewrite Hi; simpl; rewrite Hdi).
    unfold set_length. rewrite Hparam, Hpn. destruct (decide (Some d = Some m)) as [[= ->]|Hne].
    + by apply (value_of_setValue_self m (VDouble x) n TDouble).
    + rewrite Hkeep; [done|]. apply (Hup e d Hpn). congruence.
  - destruct (rootFreqs h) as [r|]; [|done]. destruct Hr as (q & Hq & ->).
    exists q. by rewrite Hkeep.
Qed.

(** The invariant of a session: the graph of the likelihood is there and
    every value in it is right, for the lengths [brlen]. *)
Record evaluated h fuel c modelObject freqs brlen s : Prop := {
  ev_wf : wf_store s;
  ev_consistent : consistent s;
  ev_coherent : coherent s;
  ev_constants : constants_valid s;
  ev_hold : inputs_hold h s modelObject brlen freqs;
  ev_denotes : exists modelT paramTs rootFreqsT t,
    inputs_denote h modelT paramTs rootFreqsT s
    /\ likelihood_term h modelT paramTs rootFreqsT fuel = Some t /\ denotes s c t;
}.

Definition round c m x : M R (Value R) :=
  NumericMutable.setValue m (VDouble x) ;; @getTargetValue R (tree_compute other) c.

(** A round returns the likelihood for the new lengths and keeps the
    invariant, for the new lengths. *)
Lemma round_run h fuel c modelObject freqs brlen s param m x :
  (forall l, mrows (transitionProbabilities modelObject l) = nbState h) ->
  (forall e, param e = parameter_node h s e) ->
  evaluated h fuel c modelObject freqs brlen s -> parameter_leaf h s m ->
  let brlen' := set_length param m x brlen in
  exists s', round c m x s
             = (Ok (VDouble (minus_log_likelihood h modelObject brlen' freqs fuel)), s')
    /\ frame s s' /\ evaluated h fuel c modelObject freqs brlen' s'.
Proof.
  intros Hrows Hparam
    [Hwf Hcons Hc Hs Hhold (modelT & paramTs & rT & t & Hden & Hterm & Hct)] Hleaf brlen'.
  pose proof Hleaf as ((n & Hn & Ht & Hd) & _).
  destruct (setValue_spec m (VDouble x) n TDouble s Hwf Hcons Hn Ht Hd)
    as (Hok & Hf & Hcons1 & _).
  set (s1 := final (NumericMutable.setValue m (VDouble x)) s) in *.
  pose proof (frame_extends _ _ Hf) as He.
  pose proof (stable_inputs_denote h modelT paramTs rT _ _ He Hden) as Hden1.
  pose proof (inputs_hold_setValue h s param m x _ _ _ Hparam Hwf Hcons Hleaf Hhold)
    as Hhold1.
  fold s1 brlen' in Hhold1.
  pose proof (likelihood_value_of h s1 modelT paramTs rT modelObject brlen' freqs fuel c t
                Hden1 Hhold1 (fun e => Hrows _) Hterm (denotes_extends _ _ _ _ He Hct))
    as Hv.
  destruct (getTargetValue_value (Cmp := tree_compute other) c s1 _ (wf_frame _ _ Hf Hwf)
              (coherent_setValue m (VDouble x) n TDouble s Hwf Hcons Hn Ht Hd Hc)
              (constants_valid_setValue m (VDouble x) n TDouble s Hwf Hcons Hn Ht Hd Hs)
              Hv) as (Hout & Hwf2 & Hc2 & Hs2 & Hk2).
  pose proof (always_frame_getTargetValue (Compute0 := tree_compute other) c s1) as Hf2.
  exists (final (@getTargetValue R (tree_compute other) c) s1). split_and!.
  - unfold round. rewrite (bind_ok _ _ _ tt s1) by (rewrite <- Hok; apply surjective_pairing).
    rewrite <- Hout. apply surjective_pairing.
  - by trans s1.
  - split; [done| |done..| |].
    + apply consistent_getTargetValue; [by apply wf_acyclic, (wf_frame s)|done].
    + apply (inputs_hold_continues h s1); [by apply continues_frame|done].
    + exists modelT, paramTs, rT, t. pose proof (frame_extends _ _ Hf2) as He2.
      split_and!; [by apply (stable_inputs_denote h modelT paramTs rT s1)|done|].
      apply (denotes_extends s); [by trans s1|done].
Qed.

(** ** A session: the builder, evaluation, and rounds *)

Fixpoint rounds c us : M R (list (Value R)) :=
  match us with
  | [] => ret []
  | (m, x) :: us' => v <- round c m x ;; vs <- rounds c us' ;; ret (v :: vs)
  end.

Definition likelihood_session fuel (sites : AlignedValuesContainer R) tree model rootFreqs
    us : M R (list (Value R)) :=
  c <- makeHomogeneousLikelihoodNodes fuel sites tree model rootFreqs ;;
  v <- @getTargetValue R (tree_compute other) c ;;
  vs <- rounds c us ;;
  ret (v :: vs).

(** The lengths after each change of a list. *)
Fixpoint lengths_after (param : EdgeIndex -> option NodeId) brlen us
    : list (EdgeIndex -> R) :=
  match us with
  | [] => []
  | (m, x) :: us' =>
      let brlen' := set_length param m x brlen in brlen' :: lengths_after param brlen' us'
  end.

(** The values a monadic map returns, from those of its tail. *)
Lemma outcome_cons {A} (k : M R (list A)) (a : A) l s :
  outcome k s = Ok l -> outcome (vs <- k ;; ret (a :: vs)) s = Ok (a :: l).
Proof. unfold outcome, bind, ret. destruct (k s) as [[l'|e] s']; simpl; congruence. Qed.

(** The rounds of a session return the likelihoods for the lengths after
    each change. *)
Lemma rounds_run h fuel c modelObject freqs s0 us brlen s :
  (forall l, mrows (transitionProbabilities modelObject l) = nbState h) ->
  wf_store s0 -> wf_inputs h s0 -> Forall (fun u => parameter_leaf h s0 u.1) us ->
  same_graph s0 s -> evaluated h fuel c modelObject freqs brlen s ->
  outcome (rounds c us) s
  = Ok ((fun b => VDouble (minus_log_likelihood h modelObject b freqs fuel))
          <$> lengths_after (parameter_node h s0) brlen us).
Proof.
  intros Hrows Hwf0 Hin0 Hus. revert brlen s.
  induction Hus as [|[m x] us Hm _ IH]; intros brlen s Hg Hev; [done|]. simpl in *.
  destruct (round_run h fuel c modelObject freqs brlen s (parameter_node h s0) m x Hrows)
    as (s' & Hrun & Hf & Hev'); [|done|by apply (parameter_leaf_same_graph h s0)|].
  { intros e. symmetry. apply parameter_node_extends; [apply Hg|].
    by destruct Hin0 as (_ & (n & -> & _) & _). }
  unfold outcome at 1. rewrite (bind_ok _ _ _ _ _ Hrun). apply outcome_cons, IH; [|done].
  eapply same_graph_trans; [done|by apply same_graph_frame].
Qed.

(** The session returns the likelihood for the lengths given, and then
    those for the lengths after each change. *)
Lemma likelihood_session_run rank fuel sites tree model rootFreqs s modelObject brlen freqs
    us :
  let h := helper_of sites tree model rootFreqs in
  wf_store s -> consistent s -> coherent s -> constants_valid s ->
  wf_inputs h s -> typed_inputs h s -> inputs_hold h s modelObject brlen freqs ->
  Forall (fun u => parameter_leaf h s u.1) us ->
  (forall l, mrows (transitionProbabilities modelObject l) = getNumberOfStates model) ->
  isRooted (treeValue tree) = true -> resolves h (fun _ => False) ->
  ranked (treeValue tree) rank -> rank (getRootIndex (treeValue tree)) < fuel ->
  outcome (likelihood_session fuel sites tree model rootFreqs us) s
  = Ok ((fun b => VDouble (minus_log_likelihood h modelObject b freqs fuel))
          <$> brlen :: lengths_after (parameter_node h s) brlen us).
Proof.
  intros h Hwf Hcons Hc Hs Hin Hty Hhold Hus Hrows Hrooted Hres Hrank Hfuel.
  destruct (likelihood_value_runs other rank fuel sites tree model rootFreqs s
              modelObject brlen freqs)
    as (c & s1 & s2 & modelT & paramTs & rT & t & Hmk & Hget & Hden & Hterm & Hct
        & Hwf1 & Hg & Hcont1 & Hwf2 & Hc2 & Hs2 & Hf2 & Hcont2); [done..|].
  pose proof (continues_trans _ _ _ Hcont1 Hcont2) as [Hsame Hvals].
  assert (evaluated h fuel c modelObject freqs brlen s2) as Hev.
  { split; [done| |done..| |].
    - replace s2 with (final (@getTargetValue R (tree_compute other) c) s1)
        by (unfold final; by rewrite Hget).
      apply consistent_getTargetValue; [by apply wf_acyclic|by eapply consistent_grows].
    - by apply (inputs_hold_continues h s); [split|].
    - exists modelT, paramTs, rT, t.
      split_and!; [|done|exact (denotes_extends s1 s2 c t (frame_extends _ _ Hf2) Hct)].
      exact (stable_inputs_denote h modelT paramTs rT s s2 (proj1 Hsame) Hden). }
  unfold likelihood_session, outcome at 1.
  rewrite (bind_ok _ _ _ _ _ Hmk), (bind_ok _ _ _ _ _ Hget). simpl.
  by apply outcome_cons, (rounds_run h fuel c modelObject freqs s).
Qed.

(** C6. The likelihood along a session of changes.  The builder,
    [getTargetValue] on the node it returns, and then any number of
    rounds, each [setValue] of a new length on a mutable leaf that is the
    parameter of a branch followed by [getTargetValue] on the node: every
    evaluation returns minus the sum, over the sites, of the logarithm of
    the likelihood of the tree with the lengths of the moment, the
    likelihood being the sum over all the ways of giving a state to every
    node.  The values an evaluation leaves in the graph never show in a
    later one when they depend on a length that changed. *)
Theorem tree_session_values rank fuel sites tree model rootFreqs s modelObject brlen freqs
    us :
  let h := helper_of sites tree model rootFreqs in
  let likelihood b site :=
    tree_likelihood (getNumberOfStates model) (getBranches (treeValue tree))
      (getSon (treeValue tree)) (fun e => transitionProbabilities modelObject (b e))
      (observation h site) freqs fuel (getRootIndex (treeValue tree)) in
  wf_store s -> consistent s -> coherent s -> constants_valid s ->
  wf_inputs h s -> typed_inputs h s -> inputs_hold h s modelObject brlen freqs ->
  Forall (fun u => parameter_leaf h s u.1) us ->
  (forall l, mrows (transitionProbabilities modelObject l) = getNumberOfStates model) ->
  (forall l, mcols (transitionProbabilities modelObject l) = getNumberOfStates model) ->
  length freqs = getNumberOfStates model ->
  isRooted (treeValue tree) = true -> resolves h (fun _ => False) ->
  ranked (treeValue tree) rank -> rank (getRootIndex (treeValue tree)) < fuel ->
  outcome (likelihood_session fuel sites tree model rootFreqs us) s
  = Ok ((fun b => VDouble (- sum (ln <$> (likelihood b <$> seq 0 (getNumberOfSites sites)))))
          <$> brlen :: lengths_after (parameter_node h s) brlen us).
Proof.
  intros h likelihood Hwf Hcons Hc Hs Hin Hty Hhold Hus Hrows Hcols Hfreqs Hrooted Hres
    Hrank Hfuel.
  rewrite (likelihood_session_run rank fuel sites tree model rootFreqs s modelObject brlen
             freqs us) by done.
  f_equal. apply list_fmap_ext. intros _ b _.
  unfold minus_log_likelihood, site_likelihoods.
  rewrite (list_fmap_ext _ (likelihood b)); [done|]. intros _ site _.
  apply (pruning_is_likelihood (getNumberOfStates model));
    [intros e; apply Hrows|intros e; apply Hcols|done].
Qed.

End Update.

(** ** The tree of two leaves, along two changes

    The store of [TreeValueExample], with the lengths 1/10 and 1/5.  The
    first branch gets the length 3/10, then the second the length 1/10. *)

Module TreeUpdateExample.
Import TreeExamples TreeValueExample.

#[local] Existing Instances example_collaborators example_log.

Definition changes : list (NodeId * Qc) := [(1, tenth 3); (2, tenth 1)].

Lemma consistent_inputs_store : consistent inputs_store.
Proof. by apply consistentb_spec. Qed.

(** The two lengths are leaves, the model is older than both. *)
Lemma parameter_leaf_helper m :
  m = 1 \/ m = 2 -> parameter_leaf helper inputs_store m.
Proof.
  intros Hm. split_and!; [destruct Hm as [-> | ->]; by eexists| |done|].
  - intros Hd%(downstream_le _ _ _ wf_inputs_store). simpl in Hd. lia.
  - intros e d. unfold parameter_node. simpl.
    repeat case_decide; intros [= <-]; intros Hne Hd;
      match type of Hd with
      | downstream _ _ ?d =>
          by apply (downstream_leaf inputs_store m d _ eq_refl eq_refl) in Hd
      end.
Qed.

Lemma parameter_leaves_changes :
  Forall (fun u => parameter_leaf helper inputs_store u.1) changes.
Proof. repeat constructor; apply parameter_leaf_helper; auto. Qed.

(** The lengths of the two branches along the session. *)
Example example_lengths :
  (fun b => Qcanon.this <$> (b <$> [1; 2]))
    <$> lengths :: lengths_after (parameter_node helper inputs_store) lengths changes
  = [[1 # 10; 1 # 5]; [3 # 10; 1 # 5]; [3 # 10; 1 # 10]]%Q.
Proof. by vm_compute. Qed.

(** The values the graph returns: the first, and one after each change. *)
Example example_session_values :
  outcome (likelihood_session compute_nothing 2 observed_sites (example_tree true)
             example_model None changes) inputs_store
  = Ok [VDouble (Q2Qc (237 # 100)); VDouble (Q2Qc (231 # 100));
        VDouble (Q2Qc (233 # 100))].
Proof. vm_compute. repeat f_equal. Qed.

(** The scope of the first change: after the builder, evaluation and the
    new length for the first branch, the nodes that are not valid are the
    tree node (3), the transition matrix and the forward likelihood of the
    branch (5, 6), the conditional likelihood of the root (10) and the
    three nodes above it (12, 13, 14); the matrix and the forward
    likelihood of the other branch (8, 9) and the frequencies (11) keep
    their values. *)
Example example_invalidation_scope :
  let s := final (c <- makeHomogeneousLikelihoodNodes 2 observed_sites (example_tree true)
                         example_model None ;;
                  @getTargetValue Qc (tree_compute compute_nothing) c ;;
                  NumericMutable.setValue 1 (VDouble (tenth 3))) inputs_store in
  fst <$> filter (fun p => isValid_ p.2 = false) (imap pair (heap s))
  = [3; 5; 6; 10; 12; 13; 14].
Proof. by vm_compute. Qed.

End TreeUpdateExample.

#[local] Existing Instances TreeValueExample.example_collaborators
  TreeValueExample.example_log.

Lemma tree_session_values_witness :
  let likelihood b site :=
    tree_likelihood 2 (getBranches (TreeExamples.two_leaves true))
      (getSon (TreeExamples.two_leaves true))
      (fun e => transitionProbabilities 0 (b e))
      (observation TreeValueExample.helper site)
      [TreeValueExample.tenth 5; TreeValueExample.tenth 5] 2 0 in
  outcome (likelihood_session compute_nothing 2 TreeValueExample.observed_sites
             (TreeExamples.example_tree true) TreeExamples.example_model None
             TreeUpdateExample.changes)
    TreeValueExample.inputs_store
  = Ok ((fun b => VDouble (- sum (ln <$> (likelihood b <$> seq 0 3)))%F)
          <$> TreeValueExample.lengths
              :: lengths_after
                   (parameter_node TreeValueExample.helper TreeValueExample.inputs_store)
                   TreeValueExample.lengths TreeUpdateExample.changes).
Proof.
  apply (tree_session_values compute_nothing TreeExamples.example_rank 2
           TreeValueExample.observed_sites (TreeExamples.example_tree true)
           TreeExamples.example_model None TreeValueExample.inputs_store 0
           TreeValueExample.lengths
           [TreeValueExample.tenth 5; TreeValueExample.tenth 5]
           TreeUpdateExample.changes
           TreeValueExample.wf_inputs_store TreeUpdateExample.consistent_inputs_store
           TreeValueExample.coherent_inputs_store
           TreeValueExample.constants_valid_inputs_store
           TreeValueExample.wf_inputs_helper TreeValueExample.typed_inputs_helper
           TreeValueExample.inputs_hold_helper
           TreeUpdateExample.parameter_leaves_changes).
  - reflexivity.
  - reflexivity.
  - reflexivity.
  - reflexivity.
  - apply TreeValueExample.resolves_helper.
  - apply TreeExamples.ranked_two_leaves.
  - vm_compute. lia.
Defined.
