(* ===== verification/GY94.v ===== *)
(** * GY94: the codon model of Goldman and Yang (1994)

    Models the class [GY94] of [src/src/Bpp/Phyl/Model/GY94.cpp] (the
    constructors, the assignment, [updateMatrices], [setFreq]) and of
    [src/Phyl/GY94.h] (the accessors, which delegate to the member model,
    and [enableEigenDecomposition]), and the interface of the word model it
    wraps, which [src/Phyl/AbstractWordReversibleSubstitutionModel.h]
    declares.

    [GY94] is a thin wrapper: it owns a distance object [gacd_] and a
    member model [pmodel_] that is given the address of that object, holds
    two parameters of its own, and forwards them to the member model under
    other names.  The member model is a type class: the sources declare its
    operations and do not define them.  Objects have an address ([this]),
    because the member model keeps a pointer to the distance object of a
    [GY94] and the copy constructor decides which. *)

From stdpp Require Import base tactics numbers option list strings.
From S2P Require Import Prelude.

(** ** Parameters *)

Inductive Constraint : Type := R_PLUS_STAR.

Inductive ModelError : Type :=
| ParameterNotFound (name : string)
| ParameterExists (name : string)
| ConstraintViolation (name : string)
| BadIntException (state : Z).

#[export] Instance ModelError_eq_dec : EqDecision ModelError.
Proof. solve_decision. Defined.

Section Parameters.
Context {R : Type}.

(** The numbers the sources write and the test a constraint makes. *)
Class Scalar : Type := { of_Z : Z -> R; is_positive : R -> bool }.
Context `{Scalar}.

(** [Parameter] (the name is a keyword here). *)
Record Parameter_ : Type := mkParameter {
  pname : string;
  pvalue : R;
  pconstraint : option Constraint;
}.

Abbreviation ParameterList := (list Parameter_).

Definition accepts (c : option Constraint) (v : R) : bool :=
  match c with Some R_PLUS_STAR => is_positive v | None => true end.

Definition getParameter (name : string) (pl : ParameterList) : option Parameter_ :=
  snd <$> list_find (fun p => pname p = name) pl.

Definition hasParameter (name : string) (pl : ParameterList) : bool :=
  bool_decide (is_Some (getParameter name pl)).

(** [ParameterList::addParameter]: a name is listed once. *)
Definition addParameter (p : Parameter_) (pl : ParameterList)
    : result ModelError ParameterList :=
  if hasParameter (pname p) pl then Err (ParameterExists (pname p)) else Ok (pl ++ [p]).

Fixpoint addParameters (ps pl : ParameterList) : result ModelError ParameterList :=
  match ps with
  | [] => Ok pl
  | p :: ps' =>
      match addParameter p pl with
      | Ok pl' => addParameters ps' pl'
      | Err e => Err e
      end
  end.

(** [ParameterList::matchParametersValues]: each parameter that has a
    namesake in [src] takes its value, if its constraint accepts it. *)
Fixpoint matchValues (src pl : ParameterList) : result ModelError ParameterList :=
  match pl with
  | [] => Ok []
  | p :: pl' =>
      match getParameter (pname p) src with
      | Some q =>
          if accepts (pconstraint p) (pvalue q) then
            match matchValues src pl' with
            | Ok r => Ok (mkParameter (pname p) (pvalue q) (pconstraint p) :: r)
            | Err e => Err e
            end
          else Err (ConstraintViolation (pname p))
      | None =>
          match matchValues src pl' with
          | Ok r => Ok (p :: r)
          | Err e => Err e
          end
      end
  end.

End Parameters.

(** ** Lists of parameters with distinct names *)

Section ParameterFacts.
Context {R : Type} `{Scalar R}.
Implicit Types (p : Parameter_ (R:=R)) (pl ps : list (Parameter_ (R:=R))) (name : string).

Lemma getParameter_None name pl : getParameter name pl = None <-> name ∉ pname <$> pl.
Proof.
  unfold getParameter. rewrite fmap_None, list_find_None, Forall_forall.
  rewrite list_elem_of_fmap. split.
  - intros Hall (p & -> & Hp). by apply (Hall p).
  - intros Hnot p Hp Heq. apply Hnot. by exists p.
Qed.

(** The first parameter of a name is the one found. *)
Lemma getParameter_middle pre p post :
  pname p ∉ pname <$> pre -> getParameter (pname p) (pre ++ p :: post) = Some p.
Proof.
  unfold getParameter. induction pre as [|q pre IH]; simpl; intros Hnot.
  - by rewrite decide_True.
  - apply not_elem_of_cons in Hnot as [Hne Hnot]. rewrite decide_False by done.
    specialize (IH Hnot). destruct (list_find _ (pre ++ p :: post)) as [[i x]|]; [|done].
    simpl in *. done.
Qed.

Lemma addParameter_fresh p pl :
  pname p ∉ pname <$> pl -> addParameter p pl = Ok (pl ++ [p]).
Proof.
  intros Hnot%getParameter_None. unfold addParameter, hasParameter.
  rewrite Hnot, bool_decide_eq_false_2; [done|]. by intros [? [=]].
Qed.

Lemma addParameter_clash p pl :
  pname p ∈ pname <$> pl -> addParameter p pl = Err (ParameterExists (pname p)).
Proof.
  intros Hin. unfold addParameter, hasParameter. rewrite bool_decide_eq_true_2; [done|].
  destruct (getParameter (pname p) pl) eqn:Hget; [done|]. by apply getParameter_None in Hget.
Qed.

Lemma addParameters_fresh ps pl :
  NoDup (pname <$> ps) -> (forall p, p ∈ ps -> pname p ∉ pname <$> pl) ->
  addParameters ps pl = Ok (pl ++ ps).
Proof.
  revert pl. induction ps as [|p ps IH]; intros pl Hnd Hfresh; simpl.
  { by rewrite app_nil_r. }
  apply NoDup_cons in Hnd as [Hp Hnd].
  rewrite addParameter_fresh by (apply Hfresh; left).
  rewrite IH, <- app_assoc; [done..|]. intros q Hq. rewrite fmap_app, elem_of_app.
  intros [Hin|Hin%list_elem_of_singleton]; [by apply (Hfresh q); [right|]|].
  apply Hp. rewrite <- Hin. by apply list_elem_of_fmap_2.
Qed.

End ParameterFacts.

Arguments Parameter_ R : clear implicits.
Arguments Scalar R : clear implicits.

(** ** The word model [GY94] wraps

    The operations [AbstractWordReversibleSubstitutionModel.h] declares and
    those the member of [GY94] inherits, as far as [GY94] calls them.  The
    states of the model are an abstract type; [distance] is the pointer to
    the distance object the model was constructed with. *)

Abbreviation Address := nat.
Abbreviation GeneticCode := nat.

Record FrequenciesSet (R : Type) : Type := mkFrequenciesSet {
  getParameters : list (Parameter_ R);
  getFrequencies : list R;
}.
Arguments getParameters {R} _.
Arguments getFrequencies {R} _.

Class WordModel (R W : Type) : Type := {
  (** [CodonAsynonymousFrequenciesReversibleSubstitutionModel (gc, freqs, pdist)] *)
  model_construct : GeneticCode -> FrequenciesSet R -> Address -> W;
  getGeneticCode : W -> GeneticCode;
  getFreq : W -> FrequenciesSet R;
  distance : W -> Address;
  setNamespace : string -> W -> W;
  getNamespace : W -> string;
  matchParametersValues : list (Parameter_ R) -> W -> W;
  modelParameters : W -> list (Parameter_ R);
  setFreq : list (Z * R) -> W -> W;
  getNumberOfStates : W -> nat;
  getGenerator : W -> list (list R);
  Qij : W -> nat -> nat -> R;
  Pij_t : W -> nat -> nat -> R -> R;
  dPij_dt : W -> nat -> nat -> R -> R;
  d2Pij_dt2 : W -> nat -> nat -> R -> R;
  getPij_t : W -> R -> list (list R);
  getdPij_dt : W -> R -> list (list R);
  getd2Pij_dt2 : W -> R -> list (list R);
  freq : W -> nat -> R;
  getEigenValues : W -> list R;
  getRowLeftEigenVectors : W -> list (list R);
  getColumnRightEigenVectors : W -> list (list R);
  eigenDecomposition : W -> bool;
  modelFrequencies : W -> list R;
  getInitValue : W -> nat -> Z -> result ModelError R;
}.

(** What the constructor and the setters keep. *)
Class WordModelLaws (R W : Type) `{WordModel R W} : Prop := {
  distance_construct gc fs a : distance (model_construct gc fs a) = a;
  distance_setNamespace ns w : distance (setNamespace ns w) = distance w;
  distance_matchParametersValues pl w :
    distance (matchParametersValues pl w) = distance w;
  distance_setFreq m w : distance (setFreq m w) = distance w;
  getNamespace_setNamespace ns w : getNamespace (setNamespace ns w) = ns;
  getNamespace_matchParametersValues pl w :
    getNamespace (matchParametersValues pl w) = getNamespace w;
}.

(** ** The class [GY94] *)

Module GY94.
Section WithModel.
Context {R W : Type} `{Scalar R, WordModel R W}.

(** An object of the class: its address, what it inherits (alphabet,
    namespace, parameters, the flag [eigenDecompose_]) and its member
    model.  The distance object [gacd_] has no state; its address is that
    of the object it is a member of. *)
Record t : Type := mkGY94 {
  this : Address;
  alphabet : nat;
  prefix : string;
  parameters_ : list (Parameter_ R);
  pmodel_ : W;
  eigenDecompose_ : bool;
}.

Abbreviation Method := (Exc t ModelError).

Definition set_parameters (pl : list (Parameter_ R)) (g : t) : t :=
  mkGY94 (this g) (alphabet g) (prefix g) pl (pmodel_ g) (eigenDecompose_ g).

Definition set_pmodel (w : W) (g : t) : t :=
  mkGY94 (this g) (alphabet g) (prefix g) (parameters_ g) w (eigenDecompose_ g).

(** [&gacd_] *)
Definition gacd_ (g : t) : Address := this g.

(** [getParameterValue (name)]: the value of the parameter of that name
    in the namespace of the object. *)
Definition getParameterValue (name : string) : Method R :=
  g <- get ;;
  match getParameter (prefix g +:+ name) (parameters_ g) with
  | Some p => ret (pvalue p)
  | None => throw (ParameterNotFound (prefix g +:+ name))
  end.

(** [new Parameter (name, value, constraint)], then [addParameter_]. *)
Definition addParameter_ (name : string) (value : R) (c : option Constraint)
    : Method unit :=
  throw_unless (accepts c value) (ConstraintViolation name) ;;
  g <- get ;;
  match addParameter (mkParameter name value c) (parameters_ g) with
  | Ok pl => put (set_parameters pl g)
  | Err e => throw e
  end.

Definition addParameters_ (ps : list (Parameter_ R)) : Method unit :=
  g <- get ;;
  match addParameters ps (parameters_ g) with
  | Ok pl => put (set_parameters pl g)
  | Err e => throw e
  end.

(** [GY94::updateMatrices]: [kappa] and [V] are handed to the member model
    as its [123_K80.kappa] and [alpha]. *)
Definition updateMatrices : Method unit :=
  kappa <- getParameterValue "kappa" ;;
  V <- getParameterValue "V" ;;
  let pl := [mkParameter "GY94.123_K80.kappa" kappa None;
             mkParameter "GY94.alpha" V None] in
  modify (fun g => set_pmodel (matchParametersValues pl (pmodel_ g)) g).

(** [GY94::GY94 (gc, codonFreqs)] for the object at address [a]: the
    initialisers, then the body.  An exception leaves no object. *)
Definition construct (a : Address) (gc : GeneticCode) (codonFreqs : FrequenciesSet R)
    : result ModelError unit * t :=
  (addParameter_ "GY94.kappa" (of_Z 1) (Some R_PLUS_STAR) ;;
   addParameter_ "GY94.V" (of_Z 10000) (Some R_PLUS_STAR) ;;
   modify (fun g => set_pmodel (setNamespace "GY94." (pmodel_ g)) g) ;;
   addParameters_ (getParameters codonFreqs) ;;
   updateMatrices)
    (mkGY94 a gc "GY94." [] (model_construct gc codonFreqs a) true).

(** [GY94::GY94 (const GY94 &)] for the object at address [a]: the member
    model is copied as it is. *)
Definition copy (a : Address) (gy94 : t) : t :=
  mkGY94 a (alphabet gy94) (prefix gy94) (parameters_ gy94) (pmodel_ gy94)
         (eigenDecompose_ gy94).

(** [clone ()]: [new GY94 ( *this )], the copy constructor for a new
    object, at address [a]. *)
Definition clone (a : Address) (g : t) : t := copy a g.

(** [GY94::operator=]: the member model is built anew, over the genetic
    code and a clone of the frequencies of the other one, and the distance
    object of this object. *)
Definition assign (gy94 : t) : Method unit :=
  modify (fun g =>
    mkGY94 (this g) (alphabet gy94) (prefix gy94) (parameters_ gy94)
           (model_construct (getGeneticCode (pmodel_ gy94)) (getFreq (pmodel_ gy94))
                            (gacd_ g))
           (eigenDecompose_ gy94)).

(** [matchParametersValues] of the object itself: the values are taken,
    then [fireParameterChanged] updates the matrices. *)
Definition matchParametersValues_ (pl : list (Parameter_ R)) : Method unit :=
  g <- get ;;
  match matchValues pl (parameters_ g) with
  | Ok pl' => put (set_parameters pl' g) ;; updateMatrices
  | Err e => throw e
  end.

(** [GY94::setFreq] *)
Definition setFreq_ (m : list (Z * R)) : Method unit :=
  modify (fun g => set_pmodel (setFreq m (pmodel_ g)) g) ;;
  g <- get ;;
  matchParametersValues_ (modelParameters (pmodel_ g)).

(** [setFreq] as [GY94.h] defines it inline: the member model only. *)
Definition setFreq_inline (m : list (Z * R)) : Method unit :=
  modify (fun g => set_pmodel (setFreq m (pmodel_ g)) g).

(** The accessors of [GY94.h]: all of them ask the member model. *)
Definition getFrequencies_ (g : t) : list R := modelFrequencies (pmodel_ g).
Definition getInitValue_ (g : t) (i : nat) (state : Z) : result ModelError R :=
  getInitValue (pmodel_ g) i state.
Definition getGenerator_ (g : t) : list (list R) := getGenerator (pmodel_ g).
Definition Qij_ (g : t) (i j : nat) : R := Qij (pmodel_ g) i j.
Definition Pij_t_ (g : t) (i j : nat) (d : R) : R := Pij_t (pmodel_ g) i j d.
Definition dPij_dt_ (g : t) (i j : nat) (d : R) : R := dPij_dt (pmodel_ g) i j d.
Definition d2Pij_dt2_ (g : t) (i j : nat) (d : R) : R :=
  d2Pij_dt2 (pmodel_ g) i j d.
Definition getPij_t_ (g : t) (d : R) : list (list R) := getPij_t (pmodel_ g) d.
Definition getdPij_dt_ (g : t) (d : R) : list (list R) :=
  getdPij_dt (pmodel_ g) d.
Definition getd2Pij_dt2_ (g : t) (d : R) : list (list R) :=
  getd2Pij_dt2 (pmodel_ g) d.
Definition freq_ (g : t) (i : nat) : R := freq (pmodel_ g) i.
Definition getEigenValues_ (g : t) : list R := getEigenValues (pmodel_ g).
Definition getRowLeftEigenVectors_ (g : t) : list (list R) :=
  getRowLeftEigenVectors (pmodel_ g).
Definition getColumnRightEigenVectors_ (g : t) : list (list R) :=
  getColumnRightEigenVectors (pmodel_ g).
Definition getNumberOfStates_ (g : t) : nat := getNumberOfStates (pmodel_ g).

(** [void enableEigenDecomposition (bool yn) { eigenDecompose_ = 1; }] *)
Definition enableEigenDecomposition_set (yn : bool) : Method unit :=
  modify (fun g =>
    mkGY94 (this g) (alphabet g) (prefix g) (parameters_ g) (pmodel_ g) true).

(** [bool enableEigenDecomposition ()]: the flag of the member model. *)
Definition enableEigenDecomposition (g : t) : bool := eigenDecomposition (pmodel_ g).

(** The member model of an object uses the distance object of that
    object. *)
Definition owns (g : t) : Prop := distance (pmodel_ g) = gacd_ g.

End WithModel.

Arguments t R W : clear implicits.

End GY94.

(** * Properties *)

Section GY94Properties.
Context {R W : Type} `{Scalar R, WordModel R W, !WordModelLaws R W}.
Implicit Types (g other : GY94.t R W) (a : Address).

Import GY94.

(** Changing the member model through its setters, or the parameters of
    the object, keeps the distance object. *)
Lemma owns_set_pmodel g w : distance w = distance (pmodel_ g) -> owns g -> owns (set_pmodel w g).
Proof. unfold owns, gacd_. simpl. congruence. Qed.

Lemma owns_set_parameters g pl : owns g -> owns (set_parameters pl g).
Proof. done. Qed.

Lemma preserves_owns_getParameterValue name : preserves owns (getParameterValue name).
Proof.
  intros g Hg. unfold final, getParameterValue, bind, get. simpl.
  by destruct (getParameter _ _).
Qed.

Lemma preserves_owns_updateMatrices : preserves owns updateMatrices.
Proof.
  unfold updateMatrices.
  apply preserves_bind; [apply preserves_owns_getParameterValue|intros kappa].
  apply preserves_bind; [apply preserves_owns_getParameterValue|intros V].
  apply preserves_modify. intros g. apply owns_set_pmodel, distance_matchParametersValues.
Qed.

Lemma preserves_owns_addParameter_ name v c : preserves owns (addParameter_ name v c).
Proof.
  unfold addParameter_. apply preserves_bind; [apply preserves_throw_unless|intros _].
  intros g Hg. unfold final, bind, get. simpl.
  by destruct (addParameter _ _).
Qed.

Lemma preserves_owns_addParameters_ ps : preserves owns (addParameters_ ps).
Proof.
  intros g Hg. unfold addParameters_, final, bind, get. simpl.
  by destruct (addParameters _ _).
Qed.

(** The constructor establishes that the member model points to the
    distance object of the object constructed, whatever the outcome of its
    body. *)
Theorem construct_owns a gc codonFreqs : owns (construct a gc codonFreqs).2.
Proof.
  unfold construct.
  match goal with |- owns (?m ?g).2 => assert (preserves owns m) as Hp end.
  { do 2 (apply preserves_bind; [apply preserves_owns_addParameter_|intros _]).
    apply preserves_bind; [|intros _].
    { apply preserves_modify. intros g. apply owns_set_pmodel, distance_setNamespace. }
    apply preserves_bind; [apply preserves_owns_addParameters_|intros _].
    apply preserves_owns_updateMatrices. }
  apply Hp. unfold owns, gacd_. simpl. apply distance_construct.
Qed.

(** C40. The copy constructor copies the member model with its pointer: the
    member model of the copy points to the distance object of the object
    copied, not to the copy's own, unless both are the same object. *)
Theorem copy_shares_distance a other :
  owns other -> distance (pmodel_ (copy a other)) = gacd_ other
               /\ (owns (copy a other) <-> a = this other).
Proof. unfold owns, gacd_. simpl. intros ->. split; [done|]. split; congruence. Qed.

(** The assignment gives the object a member model of its own: after
    [x = y], the member model of [x] points to the distance object of [x],
    whether that of [y] pointed to [y]'s or not. *)
Theorem assign_owns g other : owns (final (assign other) g).
Proof. unfold owns, assign, final, modify, gacd_. simpl. apply distance_construct. Qed.

Lemma getParameterValue_run name p g :
  getParameter (prefix g +:+ name) (parameters_ g) = Some p ->
  getParameterValue name g = (Ok (pvalue p), g).
Proof. intros Hp. unfold getParameterValue, bind, get. simpl. by rewrite Hp. Qed.

(** [updateMatrices] hands the values of [kappa] and [V] to the member
    model, under the names [GY94.123_K80.kappa] and [GY94.alpha], and
    changes nothing else of the object. *)
Theorem updateMatrices_forwards g pk pv :
  getParameter (prefix g +:+ "kappa") (parameters_ g) = Some pk ->
  getParameter (prefix g +:+ "V") (parameters_ g) = Some pv ->
  updateMatrices g =
    (Ok tt,
     set_pmodel (matchParametersValues
                   [mkParameter "GY94.123_K80.kappa" (pvalue pk) None;
                    mkParameter "GY94.alpha" (pvalue pv) None]
                   (pmodel_ g)) g).
Proof.
  intros Hk Hv. unfold updateMatrices, bind.
  by rewrite (getParameterValue_run _ _ _ Hk), (getParameterValue_run _ _ _ Hv).
Qed.

(** Without a parameter [kappa] in its namespace, [updateMatrices]
    throws [ParameterNotFoundException] and the member model is not
    touched. *)
Theorem updateMatrices_no_kappa g :
  getParameter (prefix g +:+ "kappa") (parameters_ g) = None ->
  updateMatrices g = (Err (ParameterNotFound (prefix g +:+ "kappa")), g).
Proof.
  intros Hk. unfold updateMatrices, getParameterValue, bind, get. by rewrite Hk.
Qed.

(** [enableEigenDecomposition (yn)] does not look at [yn]: it sets the
    flag of the object, and the flag [enableEigenDecomposition ()] reads,
    that of the member model, is not the one it sets. *)
Theorem enableEigenDecomposition_ignores yn g :
  let g' := final (enableEigenDecomposition_set yn) g in
  eigenDecompose_ g' = true /\ enableEigenDecomposition g' = enableEigenDecomposition g.
Proof. done. Qed.

Lemma preserves_owns_matchParametersValues_ pl :
  preserves owns (matchParametersValues_ pl).
Proof.
  intros g Hg. unfold matchParametersValues_, final, bind, get. simpl.
  destruct (matchValues pl (parameters_ g)) as [pl'|e]; [|done]. simpl.
  by apply preserves_owns_updateMatrices.
Qed.

(** [setFreq] keeps the distance object: the member model still
    points to the distance object of the object, whether the parameters
    the member model hands back are accepted or not. *)
Theorem setFreq_owns m g : owns g -> owns (final (setFreq_ m) g).
Proof.
  revert g. change (preserves owns (setFreq_ m)). unfold setFreq_.
  apply preserves_bind; [|intros _].
  { apply preserves_modify. intros g. apply owns_set_pmodel, distance_setFreq. }
  apply preserves_bind; [by intros g|intros g'].
  apply preserves_owns_matchParametersValues_.
Qed.

(** C39. What the constructor builds: for frequencies whose parameters have
    names of their own, the object holds [GY94.kappa] = 1 and [GY94.V] =
    10000, both constrained to be positive, followed by the parameters of
    the frequencies; its member model is the word model over the genetic
    code, the frequencies and the distance object of the object, in the
    namespace [GY94.], and has been sent [kappa] and [V] as
    [GY94.123_K80.kappa] and [GY94.alpha]. *)
Theorem construct_succeeds a gc codonFreqs :
  is_positive (of_Z 1) = true -> is_positive (of_Z 10000) = true ->
  NoDup (pname <$> getParameters codonFreqs) ->
  "GY94.kappa" ∉ pname <$> getParameters codonFreqs ->
  "GY94.V" ∉ pname <$> getParameters codonFreqs ->
  construct a gc codonFreqs =
    (Ok tt,
     mkGY94 a gc "GY94."
       ([mkParameter "GY94.kappa" (of_Z 1) (Some R_PLUS_STAR);
         mkParameter "GY94.V" (of_Z 10000) (Some R_PLUS_STAR)]
        ++ getParameters codonFreqs)
       (matchParametersValues
          [mkParameter "GY94.123_K80.kappa" (of_Z 1) None;
           mkParameter "GY94.alpha" (of_Z 10000) None]
          (setNamespace "GY94." (model_construct gc codonFreqs a)))
       true).
Proof.
  intros H1 HV Hnd Hk Hv.
  unfold construct, addParameter_, addParameters_, updateMatrices, getParameterValue,
    bind, throw_unless, get, put, modify. simpl. rewrite H1, HV. simpl.
  rewrite addParameters_fresh; [done..|].
  intros p Hp. simpl. rewrite !not_elem_of_cons.
  split_and!; [| |apply not_elem_of_nil];
    intros Heq; [apply Hk|apply Hv]; rewrite <- Heq; by apply list_elem_of_fmap_2.
Qed.

End GY94Properties.

(** * A word model to run the class on

    A member model that records what it is given: its genetic code, its
    frequencies, its distance pointer, its namespace and the parameters it
    was last sent.  Integers stand for the numbers. *)

Module GY94Examples.

#[export] Instance Z_scalar : Scalar Z :=
  {| of_Z := fun z => z; is_positive := fun z => bool_decide (0 < z)%Z |}.

Record Recorder : Type := mkRecorder {
  rec_gc : GeneticCode;
  rec_freq : FrequenciesSet Z;
  rec_distance : Address;
  rec_namespace : string;
  rec_parameters : list (Parameter_ Z);
}.

#[export] Instance recorder_model : WordModel Z Recorder := {|
  model_construct gc fs a := mkRecorder gc fs a "CodonAsynonymousFrequencies." [];
  getGeneticCode := rec_gc;
  getFreq := rec_freq;
  distance := rec_distance;
  setNamespace ns w :=
    mkRecorder (rec_gc w) (rec_freq w) (rec_distance w) ns (rec_parameters w);
  getNamespace := rec_namespace;
  matchParametersValues pl w :=
    mkRecorder (rec_gc w) (rec_freq w) (rec_distance w) (rec_namespace w) pl;
  modelParameters w := getParameters (rec_freq w);
  setFreq m w := w;
  getNumberOfStates w := 61;
  getGenerator w := [];
  Qij w i j := 0%Z;
  Pij_t w i j d := 0%Z;
  dPij_dt w i j d := 0%Z;
  d2Pij_dt2 w i j d := 0%Z;
  getPij_t w d := [];
  getdPij_dt w d := [];
  getd2Pij_dt2 w d := [];
  freq w i := 0%Z;
  getEigenValues w := [];
  getRowLeftEigenVectors w := [];
  getColumnRightEigenVectors w := [];
  eigenDecomposition w := false;
  modelFrequencies w := getFrequencies (rec_freq w);
  getInitValue w i state :=
    if bool_decide (0 <= state < 61)%Z then Ok (if bool_decide (Z.of_nat i = state) then 1%Z else 0%Z)
    else Err (BadIntException state);
|}.

#[export] Instance recorder_laws : WordModelLaws Z Recorder.
Proof. by split. Qed.

Definition codonFreqs : FrequenciesSet Z :=
  mkFrequenciesSet Z [mkParameter "GY94.theta" 5%Z None] [].

(** The object at address 7, constructed; its copy at address 8. *)
Definition gy94 : GY94.t Z Recorder := (GY94.construct 7 0 codonFreqs).2.
Definition gy94_copy : GY94.t Z Recorder := GY94.copy 8 gy94.

Example construct_run :
  (GY94.construct 7 0 codonFreqs).1 = Ok tt
  /\ pname <$> GY94.parameters_ gy94 = ["GY94.kappa"; "GY94.V"; "GY94.theta"]
  /\ rec_parameters (GY94.pmodel_ gy94)
     = [mkParameter "GY94.123_K80.kappa" 1%Z None; mkParameter "GY94.alpha" 10000%Z None]
  /\ rec_namespace (GY94.pmodel_ gy94) = "GY94.".
Proof. by vm_compute. Qed.

End GY94Examples.

Section GY94Witnesses.
Import GY94 GY94Examples.

Lemma construct_owns_witness : owns gy94.
Proof. exact (construct_owns 7 0 codonFreqs). Defined.

Lemma copy_shares_distance_witness :
  distance (pmodel_ gy94_copy) = 7 /\ (owns gy94_copy <-> 8 = 7).
Proof. exact (copy_shares_distance 8 gy94 eq_refl). Defined.

Lemma assign_owns_witness : owns (final (assign gy94) gy94_copy).
Proof. exact (assign_owns gy94_copy gy94). Defined.

Lemma updateMatrices_forwards_witness :
  updateMatrices gy94 =
    (Ok tt,
     set_pmodel (matchParametersValues
                   [mkParameter "GY94.123_K80.kappa" 1%Z None;
                    mkParameter "GY94.alpha" 10000%Z None]
                   (pmodel_ gy94)) gy94).
Proof.
  exact (updateMatrices_forwards gy94
           (mkParameter "GY94.kappa" 1%Z (Some R_PLUS_STAR))
           (mkParameter "GY94.V" 10000%Z (Some R_PLUS_STAR)) eq_refl eq_refl).
Defined.

Lemma updateMatrices_no_kappa_witness :
  updateMatrices (set_parameters [] gy94)
  = (Err (ParameterNotFound "GY94.kappa"), set_parameters [] gy94).
Proof. exact (updateMatrices_no_kappa (set_parameters [] gy94) eq_refl). Defined.

Lemma enableEigenDecomposition_ignores_witness :
  let g' := final (enableEigenDecomposition_set false) gy94 in
  eigenDecompose_ g' = true /\ enableEigenDecomposition g' = enableEigenDecomposition gy94.
Proof. exact (enableEigenDecomposition_ignores false gy94). Defined.

Lemma setFreq_owns_witness : owns (final (setFreq_ [(0%Z, 1%Z)]) gy94).
Proof. exact (setFreq_owns [(0%Z, 1%Z)] gy94 eq_refl). Defined.

Lemma construct_succeeds_witness :
  construct 7 0 codonFreqs =
    (Ok tt,
     mkGY94 7 0 "GY94."
       [mkParameter "GY94.kappa" 1%Z (Some R_PLUS_STAR);
        mkParameter "GY94.V" 10000%Z (Some R_PLUS_STAR);
        mkParameter "GY94.theta" 5%Z None]
       (matchParametersValues
          [mkParameter "GY94.123_K80.kappa" 1%Z None;
           mkParameter "GY94.alpha" 10000%Z None]
          (setNamespace "GY94." (model_construct 0 codonFreqs 7)))
       true).
Proof.
  assert (forall name, name <> "GY94.theta" -> name ∉ pname <$> getParameters codonFreqs)
    as Hfresh.
  { intros name Hne. simpl. rewrite not_elem_of_cons. split; [done|apply not_elem_of_nil]. }
  exact (construct_succeeds 7 0 codonFreqs eq_refl eq_refl
           ltac:(repeat constructor; apply not_elem_of_nil)
           (Hfresh "GY94.kappa" ltac:(discriminate))
           (Hfresh "GY94.V" ltac:(discriminate))).
Defined.

End GY94Witnesses.
