(* ===== verification/SubstitutionProcess.v ===== *)
(** * AbstractSubstitutionProcess: the base class of substitution processes

    Models the part of
    [src/src/Bpp/Phyl/NewLikelihood/AbstractSubstitutionProcess.h] that has
    a body: the members of the class and its three inline accessors.  The
    constructors, [getNodeIndex_], [getModelIndex_] and
    [fireParameterChanged] are declared there and defined nowhere in the
    sources; they are not modelled.

    The tree the process points to is a type parameter, as the header only
    passes it on.  The index of the nodes is a finite map from node ids
    ([int]) to positions ([size_t]); the matrices are the matrices of
    [Values]. *)

From stdpp Require Import base tactics option list gmap numbers.
From S2P Require Import Prelude Values.

(** [ParametrizableTree], as far as the class uses it: the tree it wraps. *)
Record ParametrizableTree (Tree : Type) : Type := mkParametrizableTree {
  ptree_getTree : Tree;
}.

Arguments mkParametrizableTree {Tree} _.
Arguments ptree_getTree {Tree} _.

Record AbstractSubstitutionProcess (R Tree : Type) : Type := mkProcess {
  pTree_ : ParametrizableTree Tree;
  nodeIndex_ : gmap Z nat;
  nbClasses_ : nat;
  probabilities_ : list (Matrix R);
  probabilitiesD1_ : list (Matrix R);
  probabilitiesD2_ : list (Matrix R);
  computeProbability_ : list bool;
  computeProbabilityD1_ : list bool;
  computeProbabilityD2_ : list bool;
}.

Arguments mkProcess {R Tree} _ _ _ _ _ _ _ _ _.
Arguments pTree_ {R Tree} _.
Arguments nodeIndex_ {R Tree} _.
Arguments nbClasses_ {R Tree} _.
Arguments probabilities_ {R Tree} _.
Arguments probabilitiesD1_ {R Tree} _.
Arguments probabilitiesD2_ {R Tree} _.
Arguments computeProbability_ {R Tree} _.
Arguments computeProbabilityD1_ {R Tree} _.
Arguments computeProbabilityD2_ {R Tree} _.

Section Accessors.
Context {R Tree : Type}.
Implicit Types p : AbstractSubstitutionProcess R Tree.

Definition getTree p : Tree := ptree_getTree (pTree_ p).

Definition getParametrizableTree p : ParametrizableTree Tree := pTree_ p.

Definition getNumberOfClasses p : nat := nbClasses_ p.

End Accessors.
